(* ===== verification/_CoqProject ===== *)
-Q . S2P
Prelude.v
Codec.v
Flat.v
Merkle.v
MerkleSpec.v
MerkleProofs.v
MerkleSeek.v
MerkleFork.v
MerkleHistory.v
Store.v
LogStore.v
StoreTheorems.v
Bitfield.v
BitfieldTheorems.v
Identity.v
IdentityTheorems.v
Linearizer.v
LinearizerDag.v
LinearizerOrder.v
LinearizerReach.v
LinearizerView.v
LinearizerTheorems.v
LinearizerFinality.v
Hypercore.v
HypercoreMeta.v
HypercoreLog.v
HypercoreOps.v
HypercoreDurable.v
HypercoreTrace.v
HypercoreBatch.v
HypercoreTheorems.v
HypercoreViews.v
Replica.v
ReplicaTheorems.v
ManifestCore.v
ManifestTheorems.v
HypercoreWitnesses.v
Hyperbee.v
HyperbeeSpec.v
HyperbeeTree.v
HyperbeeCodec.v
HyperbeeBlocks.v
HyperbeeInsert.v
HyperbeeDelete.v
HyperbeeMap.v
HyperbeeQueries.v
HyperbeeIter.v
HyperbeeTheorems.v
HyperbeeWitnesses.v
Wire.v
Room.v
Testkit.v
Server.v
Transports.v
RoomCore.v
RoomDag.v
RoomInv.v
RoomView.v
RoomOps.v
RoomRecovery.v
RoomMessages.v
RoomLife.v
RoomQueue.v
RoomReplay.v
RoomOpen.v
RoomSync.v
RoomTheorems.v
RoomWitnesses.v
ServerTheorems.v
ServerWitnesses.v
TransportTheorems.v
NodeTheorems.v
TransportWitnesses.v
