(* ===== verification/Prelude.v ===== *)
(** * hypercore-rs: a verification library

    The program is a peer-to-peer data stack of Rust crates under [src/crates].
    From the bottom up:

    - [codec]: LEB128 varints, version frames and tagged records;
    - [merkle]: the flat in-order Merkle tree over a log and its five proof kinds;
    - [storage]: the [Store] interface (a fallible key/value store), its in-memory,
      teed and log-structured implementations, and the paged presence bitfield;
    - [identity]: Ed25519 author keys and the manifest of a signer quorum;
    - [hypercore]: the signed append-only log over a tree and a store, its verifying
      replica, its snapshots and streams, and the log of a signer quorum;
    - [hyperbee]: an ordered key/value B-tree whose nodes are blocks of a hypercore;
    - [autobase]: the linearizer that orders the events of many writers;
    - [roomnet]: a room that composes cores, replicas and the linearizer.

    ** The files

    The model of a crate is a file with its name, in which a Rust function is a
    definition with its name (a suffix or a prefix where two types share a method
    name) and a struct a record with its fields.  The files after it hold what the
    theorems need, and the claims are in the file whose name ends in [Theorems].

    - [Prelude]: machine integers ([wrap64], [wsub64], [shl64], [shr64]), Rust's
      [Result] ([result]) and the effects of a call ([run]: a value, a panic, or
      fuel that ran out; [act]: state, errors and [run]) with their notation and
      their weakest preconditions ([wp]), the tactics and hints, and lemmas on
      lists, byte strings and little-endian integers.
    - [Codec]: [codec/src/lib.rs]; the interface [Codec] and its laws.
    - [Flat], [Merkle]: [merkle/src].  [MerkleSpec] has the reference tree [ref]
      over a list of blocks and the invariant of a stored tree, [MerkleProofs],
      [MerkleSeek] and [MerkleFork] the provers and verifiers, [MerkleHistory] the
      histories of a tree and the claims.  BLAKE3 is the class [Hasher]; its law
      is the length of a digest, and soundness claims end in "or two different
      inputs of the program have the same hash".
    - [Store], [LogStore]: [storage/src/lib.rs], [tee.rs], [log.rs].  The class
      [Store] is the Rust trait and [StoreLaws] its contract; a failing operation
      is allowed to fail but not to corrupt.  [StoreTheorems] has the claims.
    - [Bitfield], [BitfieldTheorems]: [storage/src/bitfield.rs].
    - [Identity], [IdentityTheorems]: [identity/src].  Ed25519 is the class
      [Ed25519] with the law that an honest signature verifies.
    - [Hypercore]: [hypercore/src/lib.rs], [core.rs], [stream.rs], [snapshot.rs].
      [HypercoreLog] has the abstract log a core stands for and the relation
      between them, [HypercoreMeta] the persisted bytes, [HypercoreOps],
      [HypercoreDurable], [HypercoreBatch] one refinement lemma per method,
      [HypercoreTrace] sequences of calls, [HypercoreTheorems] and
      [HypercoreViews] the claims.
    - [Replica], [ReplicaTheorems]: [hypercore/src/replica.rs]; [ManifestCore],
      [ManifestTheorems]: [manifest_core.rs]; [HypercoreWitnesses] has the claims
      of these files at concrete cores.
    - [Hyperbee]: [hyperbee/src].  [HyperbeeSpec] has sorted listings and maps,
      [HyperbeeTree] the trees in a list of blocks with a hole where an edit is
      under way, [HyperbeeCodec] the node format, [HyperbeeBlocks] the interface
      to the core, [HyperbeeInsert], [HyperbeeDelete] the recursions,
      [HyperbeeMap], [HyperbeeQueries], [HyperbeeIter] the public methods,
      [HyperbeeTheorems] and [HyperbeeWitnesses] the claims.
    - [Linearizer]: [autobase/src].  [LinearizerDag] has the invariant of the
      DAG, [LinearizerReach] reachability and clocks, [LinearizerOrder] the
      priority-Kahn order, [LinearizerView] the confirmed view,
      [LinearizerTheorems] the claims.
    - [Wire]: [roomnet/src/entry.rs], [sync.rs], [wire.rs]; [Room]: [room.rs],
      [projection.rs], [config.rs] and the interface of [store.rs].  A store, its
      factory ([StoreFactory]) and the projection ([Projection]) are classes with
      laws; a [&mut self] method is an [act] on the record [Room].  [RoomCore] has
      what a room needs of its own core, [RoomDag] the DAG, the payloads and the
      buffer as a function of the entries delivered, [RoomInv] the invariant
      [room_ok L r] (the cores, the stores and the DAG hold the feeds [L]),
      [RoomView] the folds, [RoomOps], [RoomRecovery], [RoomMessages] one lemma
      per method, [RoomLife] runs of calls, [RoomQueue] what waits for the next
      poll, [RoomReplay], [RoomOpen] opening,
      [RoomSync] what one room sends and another reads, [RoomTheorems] the claims
      and [RoomWitnesses] rooms in memory they are applied to.
    - [Server]: [roomnet/src/store.rs], [server.rs], [transport.rs], [driver.rs];
      [ServerTheorems], [ServerWitnesses] the claims.  A directory, a file and a
      network are parameters.
    - [Transports]: [roomnet/src/ws.rs], [native/mod.rs].  A background task is a
      sequence of steps, one for each lock it takes or message it moves;
      [TransportTheorems.happens] is one step of any task, [reaches] every
      interleaving; [run_server] is the event loop over the list of what wakes it,
      and [NodeTheorems] says what each wake-up does.
      [TransportWitnesses] has a server with two clients and a node.
    - [Testkit]: [roomnet/src/testkit.rs], two projections that keep the laws of
      [ProjectionLaws].

    ** What the theorems show

    - Refinement: a core is an abstract log ([core_refines_log]), a tree a map
      ([bee_refines_map]), a teed log store a map ([tee_log_refines_map]), a
      bitfield a set of bits, for ranges that end a page below [2^64]; every call
      returns, and an error is the store's.
    - Authentication: an accepted inclusion, upgrade, seek or node proof, reorg or
      archive says what it claims of the log behind the root hash, or BLAKE3
      collides; honest provers are accepted; a replica only ever holds the
      writer's log; an honest author is never convicted of equivocation, except
      after a purge.
    - Durability: reopening after a crash brings back the persisted log; a torn
      record is dropped and nothing else; compaction keeps every entry.
    - Convergence: replicas that accept the same events agree on the order, which
      respects causality and extends the finalized prefix.
      Finality is not part of it: [finality_unstable] is a history of honest
      writers in which one more delivery reorders nodes that were finalized.
    - Rooms: every call on a well-formed room returns, keeps it well formed and
      forgets nothing ([room_invariant]); rooms with the same feeds show the same
      states while finality holds ([rooms_converge]); opening brings back what the
      stores hold ([open_correct], [reopen_room]); a block that was signed but is
      no entry ends that ([poisoned_feed]).  A room that asks for what it is
      missing gets it ([sync_completes]), except from a relay whose replica is
      past its head ([relay_midway]).  A node's tick survives its rooms and its
      network and returns each finalized mutation once ([tick_correct]); its event
      loop serves every wake-up until it is told to stop ([node_serves]).  A
      WebSocket server knows the last connection of each peer and routes to those
      ([ws_routing]); it counts the clients in a room while they behave
      ([presence_exact]), not when they reconnect ([presence_lost]).

    ** Bounds and fuel

    Integers are [N] with the wrap-around of a release build written out where the
    program can reach it ([wrap64] and its kin); a theorem that needs "no overflow"
    says so with [u64_ok], or with fewer than [2^62] blocks ([Flat.max_blocks]),
    past which [2 * index] no longer fits the flat numbering.  Loops that are not
    structural take fuel chosen inside the definition (64 levels of a tree of
    64-bit indices, the length of the buffer for a decoder, the block number for
    a walk down a B-tree, whose children are earlier blocks), and the theorems
    show that the result is a value, so that the fuel is enough; where a loop
    need not end the fuel is an argument and the theorem says how much is
    enough, or that none is ([set_range_hangs], [quorum_degree_hangs]).  One edit
    of a B-tree writes at most 85 blocks: three a level, 28 levels for fewer than
    [2^64] keys, and one more.

    ** Not modelled

    Allocation failure, the [Drop] order of Rust and the scheduler (the crates are
    single-threaded up to [roomnet]'s transports); the bindings to [std::fs] and
    to the browser ([opfs.rs]), which are behind the [SyncFile] interface; the sockets, the
    dialling, the gossip discovery and the request services of [roomnet]'s
    transports; the cryptography, which is a parameter. *)
From stdpp Require Export prelude gmap sorting list.
From Stdlib Require Export NArith Lia.
From Stdlib Require Import Strings.Byte.

#[global] Open Scope N_scope.

(** ** Notations and machine integers *)

Declare Scope rust_scope.
Delimit Scope rust_scope with rust.

(** [u64] values are natural numbers of [N] below [2^64]; [wrap64] is the
    wrap-around of an overflowing operation (release build). *)
Definition two64 : N := 18446744073709551616.
Definition u64_max : N := 18446744073709551615.
Definition wrap64 (n : N) : N := n mod two64.
Definition u64_ok (n : N) : Prop := n < two64.
Definition u64_okb (n : N) : bool := n <? two64.
(** [a - b], [a << s] and [a >> s] on [u64]: a release build wraps the
    subtraction and masks the shift amount. *)
Definition wsub64 (a b : N) : N := wrap64 (a + (two64 - b)).
Definition shl64 (a s : N) : N := wrap64 (N.shiftl a (s mod 64)).
Definition shr64 (a s : N) : N := N.shiftr a (s mod 64).
Definition two32 : N := 4294967296.
Definition wrap32 (n : N) : N := n mod two32.

Lemma wrap64_small n : n < two64 -> wrap64 n = n.
Proof. apply N.mod_small. Qed.

Lemma wrap64_lt n : wrap64 n < two64.
Proof. apply N.mod_lt. done. Qed.

Lemma wsub64_small a b : b <= a -> a < two64 -> wsub64 a b = a - b.
Proof.
  intros Hb Ha. unfold wsub64, wrap64. replace (a + (two64 - b)) with (a - b + 1 * two64) by (unfold two64 in *; lia).
  rewrite N.Div0.mod_add. apply N.mod_small. lia.
Qed.

Definition lenN {A} (l : list A) : N := N.of_nat (length l).
#[global] Arguments lenN : simpl never.

Lemma lenN_nil {A} : lenN (A:=A) [] = 0.
Proof. done. Qed.
Lemma lenN_cons {A} (x : A) l : lenN (x :: l) = lenN l + 1.
Proof. unfold lenN. cbn. lia. Qed.
Lemma lenN_app {A} (a b : list A) : lenN (a ++ b) = lenN a + lenN b.
Proof. unfold lenN. rewrite length_app. lia. Qed.
Lemma lenN_snoc {A} (l : list A) x : lenN (l ++ [x]) = lenN l + 1.
Proof. by rewrite lenN_app. Qed.
Lemma lenN_take {A} n (l : list A) : n <= lenN l -> lenN (take (N.to_nat n) l) = n.
Proof. unfold lenN. rewrite length_take. lia. Qed.
Lemma lenN_lt {A} (l : list A) n : lenN l < n <-> (length l < N.to_nat n)%nat.
Proof. unfold lenN. lia. Qed.

(** ** Results: Rust's [Result<A, E>] *)

Inductive result (E A : Type) : Type :=
| Ok (a : A)
| Err (e : E).
Arguments Ok {E A} a.
Arguments Err {E A} e.

#[export] Instance result_ret {E} : MRet (result E) := λ A a, Ok a.
#[export] Instance result_bind {E} : MBind (result E) := λ A B f m,
  match m with Ok a => f a | Err e => Err e end.
#[export] Instance result_fmap {E} : FMap (result E) := λ A B f m,
  match m with Ok a => Ok (f a) | Err e => Err e end.


Definition map_err {E F A} (f : E -> F) (m : result E A) : result F A :=
  match m with Ok a => Ok a | Err e => Err (f e) end.
Definition ok_or {E A} (e : E) (o : option A) : result E A :=
  match o with Some a => Ok a | None => Err e end.
Definition is_ok {E A} (m : result E A) : bool :=
  match m with Ok _ => true | Err _ => false end.

(** ** Panics and loops

    Code that can panic (an index that is not in a map, an [expect]) or whose
    loop is not structural returns a [run]: the value, the panic, or the loop
    bound running out.  Theorems that say the code returns say [Done]. *)

Inductive run (A : Type) : Type :=
| Done (a : A)
| Panic
| OutOfFuel.
Arguments Done {A} a.
Arguments Panic {A}.
Arguments OutOfFuel {A}.

#[export] Instance run_ret : MRet run := λ A a, Done a.
#[export] Instance run_bind : MBind run := λ A B f m,
  match m with Done a => f a | Panic => Panic | OutOfFuel => OutOfFuel end.
#[export] Instance run_fmap : FMap run := λ A B f m,
  match m with Done a => Done (f a) | Panic => Panic | OutOfFuel => OutOfFuel end.

(** [expect] and [map[&key]]. *)
Definition expect {A} (o : option A) : run A :=
  match o with Some a => Done a | None => Panic end.

Fixpoint foldM {A B} (f : B -> A -> run B) (b : B) (l : list A) : run B :=
  match l with
  | [] => Done b
  | x :: l' => b' ← f b x; foldM f b' l'
  end.

(** ** Methods on [&mut self]

    A method that changes its receiver, can fail and can panic: the state is
    threaded through, and an error returns it as the method left it. *)

Definition act (St E A : Type) : Type := St -> run (St * result E A).

#[export] Instance act_ret {St E} : MRet (act St E) := λ A a s, Done (s, Ok a).
#[export] Instance act_bind {St E} : MBind (act St E) := λ A B k m s,
  match m s with
  | Done (s', Ok a) => k a s'
  | Done (s', Err e) => Done (s', Err e)
  | Panic => Panic
  | OutOfFuel => OutOfFuel
  end.

Definition reads {St E A} (f : St -> A) : act St E A := λ s, Done (s, Ok (f s)).
Definition modify {St E} (f : St -> St) : act St E unit := λ s, Done (f s, Ok tt).
Definition fail {St E A} (e : E) : act St E A := λ s, Done (s, Err e).
(** [?] on a result and a call that may panic. *)
Definition tries {St E A} (r : result E A) : act St E A := λ s, Done (s, r).
Definition runs {St E A} (r : run A) : act St E A := λ s, a ← r; Done (s, Ok a).

(** A call of a [&self] method that may fail, and one that may panic too. *)
Definition asks {St E A} (f : St -> result E A) : act St E A := λ s, Done (s, f s).
Definition calls {St E A} (f : St -> run A) : act St E A := λ s, a ← f s; Done (s, Ok a).

(** [for x in l { body }]. *)
Fixpoint for_each {St E A} (l : list A) (body : A -> act St E unit) : act St E unit :=
  match l with
  | [] => mret tt
  | x :: l' => _ ← body x; for_each l' body
  end.

(** What a method does from a state: it does not panic or hang, a success
    satisfies [Q] and an error [R]. *)
Definition wp {St E A} (m : act St E A) (Q : A -> St -> Prop) (R : E -> St -> Prop) (s : St) : Prop :=
  match m s with
  | Done (s', Ok a) => Q a s'
  | Done (s', Err e) => R e s'
  | _ => False
  end.

Section Wp.
Context {St E : Type}.
Implicit Types (s : St) (R : E -> St -> Prop).

Lemma wp_ret {A} (a : A) (Q : A -> St -> Prop) R s : Q a s -> wp (mret a) Q R s.
Proof. done. Qed.
Lemma wp_bind {A B} (m : act St E A) (k : A -> act St E B) (Q : B -> St -> Prop) R s :
  wp m (λ a, wp (k a) Q R) R s -> wp (m ≫= k) Q R s.
Proof. unfold wp, mbind, act_bind. intros Hm. by destruct (m s) as [[s' [a|e]]| |]. Qed.
Lemma wp_reads {A} (f : St -> A) (Q : A -> St -> Prop) R s : Q (f s) s -> wp (reads f) Q R s.
Proof. done. Qed.
Lemma wp_modify (f : St -> St) (Q : unit -> St -> Prop) R s : Q tt (f s) -> wp (modify f) Q R s.
Proof. done. Qed.
Lemma wp_fail {A} (e : E) (Q : A -> St -> Prop) R s : R e s -> wp (fail e) Q R s.
Proof. done. Qed.
Lemma wp_asks {A} (f : St -> result E A) (Q : A -> St -> Prop) R s :
  match f s with Ok a => Q a s | Err e => R e s end -> wp (asks f) Q R s.
Proof. unfold wp, asks. by destruct (f s). Qed.
Lemma wp_calls {A} (f : St -> run A) a (Q : A -> St -> Prop) R s :
  f s = Done a -> Q a s -> wp (calls f) Q R s.
Proof. unfold wp, calls. by intros ->. Qed.
Lemma wp_runs {A} (r : run A) a (Q : A -> St -> Prop) R s : r = Done a -> Q a s -> wp (runs r) Q R s.
Proof. unfold wp, runs. by intros ->. Qed.
Lemma wp_mono {A} (m : act St E A) (Q Q' : A -> St -> Prop) R R' s :
  wp m Q R s -> (forall a s', Q a s' -> Q' a s') -> (forall e s', R e s' -> R' e s') -> wp m Q' R' s.
Proof. unfold wp. intros Hm HQ HR. destruct (m s) as [[s' [a|e]]| |]; eauto. Qed.

Lemma wp_for_each {A} (Inv : list A -> St -> Prop) (l : list A) (body : A -> act St E unit) R s :
  Inv l s ->
  (forall x l' s', Inv (x :: l') s' -> wp (body x) (λ _, Inv l') R s') ->
  wp (for_each l body) (λ _, Inv []) R s.
Proof.
  intros HI Hb. revert s HI. induction l as [|x l IH]; intros s HI; [done|].
  cbn [for_each]. apply wp_bind. eapply wp_mono; [by apply Hb| |done]. intros [] s' HI'. by apply IH.
Qed.
End Wp.

Lemma mapM_Done {A B} (f : A -> run B) (g : A -> B) l :
  (forall x, x ∈ l -> f x = Done (g x)) -> mapM f l = Done (g <$> l).
Proof.
  induction l as [|x l IH]; intros Hf; [done|]. cbn [mapM]. rewrite Hf by (by left).
  cbn [mbind run_bind]. by rewrite IH by (intros; apply Hf; by right).
Qed.

Lemma mapM_Some_ext {A B} (f : A -> option B) (g : A -> B) l :
  (forall x, x ∈ l -> f x = Some (g x)) -> mapM f l = Some (g <$> l).
Proof.
  intros Hf. apply mapM_Some, Forall2_fmap_r, Forall_Forall2_diag, Forall_forall, Hf.
Qed.

(** The integers of [start..end]. *)
Definition rangeN (start stop : N) : list N :=
  (λ k, start + N.of_nat k) <$> seq 0 (N.to_nat (stop - start)).

Lemma elem_of_rangeN a b x : x ∈ rangeN a b <-> a <= x < b.
Proof.
  unfold rangeN. rewrite list_elem_of_fmap. split.
  - intros (k & -> & Hk%elem_of_seq). lia.
  - intros Hx. exists (N.to_nat (x - a)). rewrite elem_of_seq. lia.
Qed.

Lemma rangeN_length a b : length (rangeN a b) = N.to_nat (b - a).
Proof. unfold rangeN. by rewrite length_fmap, length_seq. Qed.

Lemma rangeN_nil a b : b <= a -> rangeN a b = [].
Proof. intros H. unfold rangeN. by replace (N.to_nat (b - a)) with 0%nat by lia. Qed.

Lemma rangeN_cons a b : a < b -> rangeN a b = a :: rangeN (a + 1) b.
Proof.
  intros H. unfold rangeN. replace (N.to_nat (b - a)) with (S (N.to_nat (b - (a + 1)))) by lia.
  cbn [seq fmap list_fmap]. f_equal; [lia|]. rewrite <- seq_shift, <- list_fmap_compose.
  apply list_fmap_ext. intros ? ? _. cbn. lia.
Qed.

Lemma rangeN_app a b c : a <= b -> b <= c -> rangeN a c = rangeN a b ++ rangeN b c.
Proof.
  intros H1 H2. unfold rangeN.
  replace (N.to_nat (c - a)) with (N.to_nat (b - a) + N.to_nat (c - b))%nat by lia.
  rewrite seq_app, fmap_app. f_equal. cbn [Nat.add].
  replace (N.to_nat (b - a)) with (N.to_nat (b - a) + 0)%nat by lia.
  rewrite <- fmap_add_seq, <- list_fmap_compose.
  apply list_fmap_ext. intros ? ? _. cbn. lia.
Qed.

Lemma rangeN_snoc a b : a <= b -> rangeN a (b + 1) = rangeN a b ++ [b].
Proof.
  intros H. rewrite (rangeN_app a b) by lia. f_equal.
  by rewrite rangeN_cons, rangeN_nil by lia.
Qed.

Lemma rangeN_nodup a b : NoDup (rangeN a b).
Proof. unfold rangeN. apply NoDup_fmap_2; [|apply NoDup_seq]. intros x y. lia. Qed.

(** ** Automation *)

Create HintDb hc.

(** Unfold the monadic plumbing, nothing else. *)
Ltac rsimpl := cbn [mbind result_bind run_bind option_bind fmap result_fmap run_fmap option_fmap
                    option_map mret result_ret run_ret expect fst snd].
Ltac rsimpl_in H := cbn [mbind result_bind run_bind option_bind fmap result_fmap run_fmap
                    option_fmap option_map mret result_ret run_ret expect fst snd] in H.

(** Case analysis on the guards of a definition, with the boolean
    comparisons of [N], [nat] reflected into propositions. *)
Ltac reflect_bools :=
  repeat match goal with
  | H : (_ =? _) = true |- _ => apply N.eqb_eq in H
  | H : (_ =? _) = false |- _ => apply N.eqb_neq in H
  | H : (_ <? _) = true |- _ => apply N.ltb_lt in H
  | H : (_ <? _) = false |- _ => apply N.ltb_ge in H
  | H : (_ <=? _) = true |- _ => apply N.leb_le in H
  | H : (_ <=? _) = false |- _ => apply N.leb_gt in H
  | H : (_ =? _)%nat = true |- _ => apply Nat.eqb_eq in H
  | H : (_ =? _)%nat = false |- _ => apply Nat.eqb_neq in H
  | H : (_ <? _)%nat = true |- _ => apply Nat.ltb_lt in H
  | H : (_ <? _)%nat = false |- _ => apply Nat.ltb_ge in H
  | H : (_ <=? _)%nat = true |- _ => apply Nat.leb_le in H
  | H : (_ <=? _)%nat = false |- _ => apply Nat.leb_gt in H
  | H : _ && _ = true |- _ => apply andb_true_iff in H; destruct H
  | H : _ && _ = false |- _ => apply andb_false_iff in H
  | H : _ || _ = false |- _ => apply orb_false_iff in H; destruct H
  | H : _ || _ = true |- _ => apply orb_true_iff in H
  | H : negb _ = true |- _ => apply negb_true_iff in H
  | H : negb _ = false |- _ => apply negb_false_iff in H
  | H : bool_decide _ = true |- _ => apply bool_decide_eq_true in H
  | H : bool_decide _ = false |- _ => apply bool_decide_eq_false in H
  end.

(** [lia] with division and remainder expanded into their equations. *)
Ltac dlia := zify; Z.div_mod_to_equations; lia.

(** Membership and inclusion in concatenations of lists. *)
Ltac in_list := rewrite ?elem_of_app, ?elem_of_cons, ?elem_of_app, ?elem_of_nil; tauto.
Ltac sub_list := intros ?; in_list.

Ltac case_if :=
  match goal with
  | |- context [if ?b then _ else _] => destruct b eqn:?; reflect_bools
  end.
Ltac case_if_in H :=
  match type of H with
  | context [if ?b then _ else _] => destruct b eqn:?; reflect_bools
  end.

(** ** Bytes *)

Abbreviation byte := Byte.byte.
Abbreviation bytes := (list byte).

#[export] Instance byte_eq_dec : EqDecision byte := Byte.byte_eq_dec.
#[export] Program Instance byte_countable : Countable byte :=
  inj_countable Byte.to_N Byte.of_N _.
Next Obligation. apply Byte.of_to_N. Qed.

(** The low byte of a number ([n as u8]). *)
Definition byte_of (n : N) : byte :=
  match Byte.of_N (n mod 256) with Some b => b | None => Byte.x00 end.
Definition bval (b : byte) : N := Byte.to_N b.

Lemma bval_lt b : bval b < 256.
Proof. destruct b; reflexivity. Qed.

Lemma bval_byte_of n : bval (byte_of n) = n mod 256.
Proof.
  unfold bval, byte_of.
  assert (Hlt : n mod 256 < 256) by (apply N.mod_lt; lia).
  pose proof (Byte.to_of_N_option_map (n mod 256)) as Hm.
  destruct (N.leb_spec (n mod 256) 255); [|lia].
  destruct (Byte.of_N (n mod 256)); simplify_eq/=; done.
Qed.

Lemma byte_of_bval b : byte_of (bval b) = b.
Proof.
  unfold byte_of. rewrite N.mod_small by apply bval_lt.
  unfold bval. by rewrite Byte.of_to_N.
Qed.

Lemma bval_inj a b : bval a = bval b -> a = b.
Proof. intros H. by rewrite <- (byte_of_bval a), H, byte_of_bval. Qed.

(** *** Little-endian integers: [to_le_bytes] / [from_le_bytes] *)

Fixpoint to_le (w : nat) (n : N) : bytes :=
  match w with
  | O => []
  | S w' => byte_of n :: to_le w' (n / 256)
  end.

Fixpoint from_le (bs : bytes) : N :=
  match bs with
  | [] => 0
  | b :: t => bval b + 256 * from_le t
  end.

Abbreviation le64 := (to_le 8).
Abbreviation le32 := (to_le 4).

Lemma to_le_length w n : length (to_le w n) = w.
Proof. revert n; induction w as [|w IH]; intros n; simpl; [done|by rewrite IH]. Qed.

Lemma from_to_le w n : from_le (to_le w n) = n mod 256 ^ N.of_nat w.
Proof.
  revert n; induction w as [|w IH]; intros n; simpl to_le; simpl from_le.
  - by rewrite N.mod_1_r.
  - rewrite IH, bval_byte_of, Nat2N.inj_succ, N.pow_succ_r'.
    rewrite N.Div0.mod_mul_r. done.
Qed.

Lemma from_le_lt bs : from_le bs < 256 ^ lenN bs.
Proof.
  unfold lenN. induction bs as [|b bs IH]; simpl from_le; simpl length; [done|].
  rewrite Nat2N.inj_succ, N.pow_succ_r'. pose proof (bval_lt b). nia.
Qed.

Lemma to_from_le bs : to_le (length bs) (from_le bs) = bs.
Proof.
  induction bs as [|b bs IH]; simpl; [done|].
  f_equal.
  - apply bval_inj. rewrite bval_byte_of, N.mul_comm, N.Div0.mod_add.
    apply N.mod_small, bval_lt.
  - rewrite N.mul_comm, N.div_add by lia.
    rewrite N.div_small by apply bval_lt. done.
Qed.

Lemma from_le64 n : u64_ok n -> from_le (le64 n) = n.
Proof. intros H. rewrite from_to_le. by apply N.mod_small. Qed.

Lemma le64_inj a b : u64_ok a -> u64_ok b -> le64 a = le64 b -> a = b.
Proof. intros Ha Hb H. by rewrite <- (from_le64 a), H, from_le64. Qed.

Lemma from_le_u64 bs : length bs = 8%nat -> u64_ok (from_le bs).
Proof. intros H. pose proof (from_le_lt bs) as Hl. unfold lenN in Hl. by rewrite H in Hl. Qed.

(** Two concatenations with heads of equal length agree piecewise. *)
Lemma app_inj_len {A} (a b c d : list A) :
  length a = length c -> a ++ b = c ++ d -> a = c /\ b = d.
Proof. intros Hl H. by apply app_inj_1 in H. Qed.

(** *** Lexicographic order of byte strings ([Ord for [u8]]) *)

Fixpoint bytes_cmp (a b : bytes) : comparison :=
  match a, b with
  | [], [] => Eq
  | [], _ :: _ => Lt
  | _ :: _, [] => Gt
  | x :: a', y :: b' =>
      match bval x ?= bval y with
      | Eq => bytes_cmp a' b'
      | c => c
      end
  end.

Definition bytes_lt (a b : bytes) : bool :=
  match bytes_cmp a b with Lt => true | _ => false end.
Definition bytes_le (a b : bytes) : bool :=
  match bytes_cmp a b with Gt => false | _ => true end.

Lemma bytes_cmp_eq a b : bytes_cmp a b = Eq <-> a = b.
Proof.
  revert b; induction a as [|x a IH]; intros [|y b]; simpl; try done.
  destruct (N.compare_spec (bval x) (bval y)) as [E|L|L].
  - apply bval_inj in E as ->. rewrite IH. naive_solver.
  - split; [done|]. intros [= -> ->]. lia.
  - split; [done|]. intros [= -> ->]. lia.
Qed.

Lemma bytes_cmp_antisym a b : bytes_cmp b a = CompOpp (bytes_cmp a b).
Proof.
  revert b; induction a as [|x a IH]; intros [|y b]; simpl; try done.
  rewrite N.compare_antisym. destruct (bval x ?= bval y); simpl; auto.
Qed.

Lemma bytes_cmp_refl a : bytes_cmp a a = Eq.
Proof. by apply bytes_cmp_eq. Qed.

Lemma bytes_cmp_lt_trans a b c : bytes_cmp a b = Lt -> bytes_cmp b c = Lt -> bytes_cmp a c = Lt.
Proof.
  revert b c; induction a as [|x a IH]; intros [|y b] [|z c]; simpl; try done.
  destruct (N.compare_spec (bval x) (bval y)), (N.compare_spec (bval y) (bval z)),
    (N.compare_spec (bval x) (bval z)); intros; try done; try lia; eauto.
Qed.

(** ** Ordered keys: iteration order of [BTreeMap] and [BTreeSet] *)

Class KeyOrder (K : Type) := {
  key_le : relation K;
  #[global] key_le_dec :: RelDecision key_le;
  #[global] key_le_refl :: Reflexive key_le;
  #[global] key_le_trans :: Transitive key_le;
  #[global] key_le_antisymm :: AntiSymm (=) key_le;
  #[global] key_le_total :: Total key_le;
}.

#[export] Program Instance N_key_order : KeyOrder N := {| key_le := N.le |}.

#[export] Instance bytes_le_dec : RelDecision (λ a b : bytes, bytes_le a b = true).
Proof. intros a b. apply _. Defined.

#[export] Program Instance bytes_key_order : KeyOrder bytes :=
  {| key_le := λ a b, bytes_le a b = true |}.
Next Obligation. intros a. unfold bytes_le. by rewrite bytes_cmp_refl. Qed.
Next Obligation.
  intros a b c. unfold bytes_le.
  destruct (bytes_cmp a b) eqn:E1, (bytes_cmp b c) eqn:E2; try done; intros _ _.
  - apply bytes_cmp_eq in E1 as ->. by rewrite E2.
  - apply bytes_cmp_eq in E1 as ->. by rewrite E2.
  - apply bytes_cmp_eq in E2 as ->. by rewrite E1.
  - by rewrite (bytes_cmp_lt_trans _ _ _ E1 E2).
Qed.
Next Obligation.
  intros a b. unfold bytes_le. rewrite (bytes_cmp_antisym a b).
  destruct (bytes_cmp a b) eqn:E; try done. intros _ _. by apply bytes_cmp_eq.
Qed.
Next Obligation.
  intros a b. unfold bytes_le. rewrite (bytes_cmp_antisym a b).
  destruct (bytes_cmp a b); auto.
Qed.

Section BTree.
Context {K : Type} `{Countable K} `{!KeyOrder K}.

(** The elements of a [BTreeSet] in iteration order. *)
Definition bset_list (X : gset K) : list K := merge_sort key_le (elements X).

(** The entries of a [BTreeMap] in iteration order. *)
Definition bmap_keys {A} (m : gmap K A) : list K := bset_list (dom m).
Definition bmap_list {A} (m : gmap K A) : list (K * A) :=
  omap (λ k, (k,.) <$> m !! k) (bmap_keys m).

Lemma bset_list_perm X : bset_list X ≡ₚ elements X.
Proof. apply merge_sort_Permutation. Qed.

Lemma bset_list_elem X k : k ∈ bset_list X <-> k ∈ X.
Proof. by rewrite bset_list_perm, elem_of_elements. Qed.

Lemma bset_list_nodup X : NoDup (bset_list X).
Proof. rewrite bset_list_perm. apply NoDup_elements. Qed.

Lemma bset_list_sorted X : StronglySorted key_le (bset_list X).
Proof. apply StronglySorted_merge_sort; apply _. Qed.

Lemma bset_list_length X : length (bset_list X) = size X.
Proof. by rewrite bset_list_perm. Qed.

(** The iteration order is a function of the set alone. *)
Lemma bset_list_unique X l :
  StronglySorted key_le l -> l ≡ₚ elements X -> l = bset_list X.
Proof.
  intros Hs Hp. eapply (StronglySorted_unique key_le); eauto using bset_list_sorted.
  by rewrite bset_list_perm.
Qed.

Lemma bmap_keys_elem {A} (m : gmap K A) k : k ∈ bmap_keys m <-> is_Some (m !! k).
Proof. unfold bmap_keys. by rewrite bset_list_elem, elem_of_dom. Qed.

Lemma bmap_list_elem {A} (m : gmap K A) k x : (k, x) ∈ bmap_list m <-> m !! k = Some x.
Proof.
  unfold bmap_list. rewrite list_elem_of_omap. split.
  - intros (k' & Hk & E). destruct (m !! k') eqn:L; simplify_eq/=. done.
  - intros L. exists k. rewrite bmap_keys_elem, L. eauto.
Qed.

Lemma omap_fst_sub {A} (m : gmap K A) (l : list K) :
  Forall (λ k, is_Some (m !! k)) l -> (omap (λ k, (k,.) <$> m !! k) l).*1 = l.
Proof.
  induction 1 as [|k l [x Hx] _ IH]; [done|].
  cbn. rewrite Hx. cbn. by f_equal.
Qed.

Lemma bmap_list_keys {A} (m : gmap K A) : (bmap_list m).*1 = bmap_keys m.
Proof.
  unfold bmap_list. apply omap_fst_sub, Forall_forall.
  intros k Hk. by apply bmap_keys_elem.
Qed.

Lemma bmap_list_nodup {A} (m : gmap K A) : NoDup (bmap_list m).*1.
Proof. rewrite bmap_list_keys. apply bset_list_nodup. Qed.

Lemma bmap_list_to_map {A} (m : gmap K A) : list_to_map (bmap_list m) = m.
Proof.
  apply map_eq. intros k. apply option_eq. intros x.
  rewrite <- elem_of_list_to_map by apply bmap_list_nodup.
  by rewrite bmap_list_elem.
Qed.

Lemma bmap_list_length {A} (m : gmap K A) : length (bmap_list m) = size m.
Proof.
  rewrite <- (length_fmap fst), bmap_list_keys. unfold bmap_keys.
  by rewrite bset_list_length, size_dom.
Qed.

(** Inserting the entries of a map one by one. *)
Lemma foldl_insert_union {A} (l : list (K * A)) (m : gmap K A) :
  NoDup l.*1 -> foldl (λ m '(i, n), <[i := n]> m) m l = list_to_map l ∪ m.
Proof.
  revert m; induction l as [|[i n] l IH]; intros m Hnd; cbn in *.
  - by rewrite (left_id_L ∅ (∪)).
  - apply NoDup_cons in Hnd as [Hi Hnd]. rewrite IH by done.
    rewrite <- insert_union_l, insert_union_r; [done|]. by apply not_elem_of_list_to_map_1.
Qed.

Lemma foldl_insert_bmap {A} (m m' : gmap K A) :
  foldl (λ m '(i, n), <[i := n]> m) m (bmap_list m') = m' ∪ m.
Proof. rewrite foldl_insert_union by apply bmap_list_nodup. by rewrite bmap_list_to_map. Qed.
End BTree.

(** ** Bits *)

Lemma testbit_high a n i : a < 2 ^ n -> n <= i -> N.testbit a i = false.
Proof.
  intros Ha Hi. destruct (decide (a = 0)) as [->|Hz]; [apply N.bits_0|].
  apply N.bits_above_log2. apply N.log2_lt_pow2; [lia|].
  eapply N.lt_le_trans; [exact Ha|]. apply N.pow_le_mono_r; lia.
Qed.

Lemma land_shiftl_disjoint a b s : a < 2 ^ s -> N.land a (N.shiftl b s) = 0.
Proof.
  intros Ha. apply N.bits_inj. intros i. rewrite N.land_spec, N.bits_0.
  destruct (N.lt_ge_cases i s) as [L|G].
  - rewrite N.shiftl_spec_low by lia. apply andb_false_r.
  - rewrite (testbit_high a s) by lia. done.
Qed.

(** Or-ing disjoint bit ranges is addition. *)
Lemma lor_shiftl_add a b s : a < 2 ^ s -> N.lor a (N.shiftl b s) = a + b * 2 ^ s.
Proof.
  intros Ha. pose proof (land_shiftl_disjoint a b s Ha) as Hd.
  rewrite <- N.lxor_lor, <- N.add_nocarry_lxor by done. by rewrite N.shiftl_mul_pow2.
Qed.

Lemma testbit_ext_mod64 a b :
  a < two64 -> b < two64 -> (forall i, i < 64 -> N.testbit a i = N.testbit b i) -> a = b.
Proof.
  intros Ha Hb H. apply N.bits_inj. intros i.
  destruct (N.lt_ge_cases i 64) as [L|G]; [auto|].
  by rewrite !(testbit_high _ 64) by done.
Qed.

(** *** Bit counting on 64-bit words *)

Fixpoint pos_ctz (p : positive) : N :=
  match p with
  | xO q => N.succ (pos_ctz q)
  | _ => 0
  end.

(** [u64::trailing_zeros]. *)
Definition trailing_zeros (n : N) : N :=
  match n with
  | 0 => 64
  | Npos p => pos_ctz p
  end.

(** [u64::leading_zeros]. *)
Definition leading_zeros (n : N) : N := 64 - N.size n.

Fixpoint pos_ones (p : positive) : N :=
  match p with
  | xH => 1
  | xO q => pos_ones q
  | xI q => N.succ (pos_ones q)
  end.

(** [u64::count_ones]. *)
Definition count_ones (n : N) : N :=
  match n with
  | 0 => 0
  | Npos p => pos_ones p
  end.

(** [!n] on [u64]. *)
Definition not64 (n : N) : N := N.lxor n u64_max.

Lemma testbit_ones64 i : N.testbit u64_max i = (i <? 64).
Proof.
  change u64_max with (N.ones 64).
  destruct (N.ltb_spec i 64); [by apply N.ones_spec_low|by apply N.ones_spec_high].
Qed.

Lemma testbit_not64 n i : i < 64 -> N.testbit (not64 n) i = negb (N.testbit n i).
Proof.
  intros Hi. unfold not64. rewrite N.lxor_spec, testbit_ones64, (proj2 (N.ltb_lt _ _)) by done.
  by destruct (N.testbit n i).
Qed.

Lemma ctz_spec w :
  w <> 0 -> N.testbit w (trailing_zeros w) = true /\
            forall i, i < trailing_zeros w -> N.testbit w i = false.
Proof.
  destruct w as [|p]; [done|]. intros _. cbn [trailing_zeros].
  induction p as [p IH|p IH|]; cbn [pos_ctz].
  - split; [done|lia].
  - destruct IH as [H1 H2]. change (N.pos p~0) with (2 * N.pos p). split.
    + by rewrite N.double_bits_succ.
    + intros i Hi. destruct (N.eq_dec i 0) as [->|Hz]; [by rewrite N.testbit_even_0|].
      replace i with (N.succ (N.pred i)) by lia. rewrite N.double_bits_succ. apply H2. lia.
  - split; [done|lia].
Qed.

Lemma ctz_lt w n : w <> 0 -> w < 2 ^ n -> trailing_zeros w < n.
Proof.
  intros Hw Hn. destruct (N.lt_ge_cases (trailing_zeros w) n) as [?|G]; [done|].
  destruct (ctz_spec w Hw) as [H1 _]. by rewrite (testbit_high w n) in H1.
Qed.

Lemma clz_spec w :
  w <> 0 -> w < two64 -> 63 - leading_zeros w = N.log2 w.
Proof.
  intros Hw Hlt. unfold leading_zeros. rewrite N.size_log2 by done.
  assert (N.log2 w < 64) by (apply N.log2_lt_pow2; [lia|done]). lia.
Qed.

(** How many numbers of [lo..hi] satisfy a predicate. *)
Definition countN (P : N -> bool) (lo hi : N) : N := lenN (filter (λ i, P i = true) (rangeN lo hi)).

Lemma countN_app P a b c : a <= b -> b <= c -> countN P a c = countN P a b + countN P b c.
Proof. intros H1 H2. unfold countN. by rewrite (rangeN_app a b c), filter_app, lenN_app. Qed.

Lemma filter_bool_ext {A} (P Q : A -> bool) (l : list A) :
  (forall x, x ∈ l -> P x = Q x) ->
  filter (λ i, P i = true) l = filter (λ i, Q i = true) l.
Proof.
  induction l as [|x l IH]; intros Hl; [done|]. rewrite !filter_cons, (Hl x) by (by left).
  rewrite IH by (intros; apply Hl; by right). done.
Qed.

Lemma countN_ext P Q a b :
  (forall i, a <= i < b -> P i = Q i) -> countN P a b = countN Q a b.
Proof.
  intros HPQ. unfold countN. f_equal. apply filter_bool_ext.
  intros i Hi%elem_of_rangeN. by apply HPQ.
Qed.

Lemma countN_0 P a b : (forall i, a <= i < b -> P i = false) -> countN P a b = 0.
Proof.
  intros HP. rewrite (countN_ext P (λ _, false)) by done. unfold countN.
  generalize (rangeN a b). intros l. by induction l.
Qed.

Lemma countN_shift P a b k : countN (λ i, P (i + k)) a b = countN P (a + k) (b + k).
Proof.
  unfold countN, rangeN. replace (b + k - (a + k)) with (b - a) by lia.
  generalize (seq 0 (N.to_nat (b - a))). intros l. induction l as [|x l IH]; [done|].
  cbn [fmap list_fmap]. rewrite !filter_cons. replace (a + N.of_nat x + k) with (a + k + N.of_nat x) by lia.
  case_decide; [|exact IH]. unfold lenN in *. cbn [length]. lia.
Qed.

Lemma countN_cons P a b : a < b -> countN P a b = (if P a then 1 else 0) + countN P (a + 1) b.
Proof.
  intros Hab. unfold countN. rewrite rangeN_cons, filter_cons by done.
  destruct (P a); [|done]. rewrite decide_True by done. rewrite lenN_cons. lia.
Qed.

Lemma countN_le P a b : countN P a b <= b - a.
Proof. unfold countN, lenN. pose proof (length_filter (λ i, P i = true) (rangeN a b)). rewrite rangeN_length in *. lia. Qed.

Lemma countN_negb P a b : a <= b -> countN (λ i, negb (P i)) a b = b - a - countN P a b.
Proof.
  intros Hab. assert (Hs : countN P a b + countN (λ i, negb (P i)) a b = b - a).
  { unfold countN. rewrite <- (N2Nat.id (b - a)), <- rangeN_length. generalize (rangeN a b). intros l.
    induction l as [|x l IH]; [done|]. rewrite !filter_cons. unfold lenN in *.
    destruct (P x); cbn [negb]; repeat case_decide; try done; cbn [length]; lia. }
  lia.
Qed.

Lemma count_ones_double q b :
  count_ones (2 * q + N.b2n b) = N.b2n b + count_ones q.
Proof. destruct q as [|p], b; try done. change (N.succ (pos_ones p) = 1 + pos_ones p). lia. Qed.

Lemma count_ones_spec n w : w < 2 ^ n -> count_ones w = countN (N.testbit w) 0 n.
Proof.
  revert w; induction n as [|n IH] using N.peano_ind; intros w Hw.
  - cbn in Hw. assert (w = 0) as -> by lia. done.
  - rewrite N.pow_succ_r' in Hw. rewrite (N.div2_odd w) at 1. rewrite count_ones_double.
    rewrite IH by (rewrite N.div2_div; dlia).
    rewrite (countN_cons _ 0 (N.succ n)), N.bit0_odd by lia.
    change (N.b2n (N.odd w)) with (if N.odd w then 1 else 0). f_equal.
    replace (N.succ n) with (n + 1) by lia. rewrite <- (countN_shift _ 0 n 1).
    apply countN_ext. intros i _. rewrite N.add_1_r, N.div2_spec, N.shiftr_spec', N.add_1_r. done.
Qed.
