(* ===== verification/Codec.v ===== *)
(** * [codec]: typed payloads as bytes

    The model of [src/crates/codec/src/lib.rs]: LEB128 varints, the version
    frame, self-describing tagged records and the [Codec<T>] trait with its
    [U64] and [Bytes] implementations.  A reader that advances a [&mut &[u8]]
    returns the rest of the slice beside its value; every caller in the
    repository propagates an error with [?], so the position of the slice after
    an error is not part of the model. *)
From S2P Require Import Prelude.

Module Codec.

Inductive Error : Type :=
| Eof
| BadVarint
| Invalid (msg : bytes).

(** ** Varints *)

(** The loop of [varint::write]: seven bits a round, the continuation bit on
    every byte but the last.  Ten rounds empty a 64-bit value. *)
Fixpoint varint_loop (fuel : nat) (v : N) : bytes :=
  match fuel with
  | O => []
  | S fuel' =>
      let byte := N.land v 127 in
      let v' := N.shiftr v 7 in
      let byte := if negb (v' =? 0) then N.lor byte 128 else byte in
      byte_of byte :: (if v' =? 0 then [] else varint_loop fuel' v')
  end.

Definition varint_bytes (v : N) : bytes := varint_loop 10 v.

Definition varint_write (out : bytes) (v : N) : bytes := out ++ varint_bytes v.

(** The loop of [varint::read]; [shift] grows by seven a round and a varint
    that has not ended by bit 64 is refused. *)
Fixpoint varint_read_loop (bs : bytes) (shift acc : N) : result Error (N * bytes) :=
  if 64 <=? shift then Err BadVarint
  else match bs with
       | [] => Err Eof
       | b :: rest =>
           let acc := N.lor acc (wrap64 (N.shiftl (N.land (bval b) 127) shift)) in
           if N.land (bval b) 128 =? 0 then Ok (acc, rest)
           else varint_read_loop rest (shift + 7) acc
       end.

Definition varint_read (bs : bytes) : result Error (N * bytes) := varint_read_loop bs 0 0.

(** ** Frames and tagged records *)

Definition frame (version : N) (payload : bytes) : bytes :=
  varint_write [] version ++ payload.

Definition unframe (bs : bytes) : result Error (N * bytes) := varint_read bs.

Definition write_tagged (out : bytes) (tag : N) (body : bytes) : bytes :=
  let out := varint_write out tag in
  let out := varint_write out (lenN body) in
  out ++ body.

Definition read_tagged (bs : bytes) : result Error ((N * bytes) * bytes) :=
  '(tag, bs) ← varint_read bs;
  '(len, bs) ← varint_read bs;
  if lenN bs <? len then Err Eof
  else Ok ((tag, take (N.to_nat len) bs), drop (N.to_nat len) bs).

(** ** The [Codec] trait *)

Class Codec (T : Type) := {
  encode_into : T -> bytes -> bytes;
  decode : bytes -> result Error T;
}.

Definition encode {T} `{Codec T} (value : T) : bytes := encode_into value [].

(** What the log relies on: an encoded value reads back.  [codec_valid] is the
    set of values the codec can carry. *)
Class CodecLaws (T : Type) `{Codec T} := {
  codec_valid : T -> Prop;
  codec_roundtrip : forall v, codec_valid v -> decode (encode v) = Ok v;
}.

#[export] Instance U64 : Codec N := {|
  encode_into value out := varint_write out value;
  decode bs := fst <$> varint_read bs;
|}.

#[export] Instance Bytes : Codec bytes := {|
  encode_into value out := varint_write out (lenN value) ++ value;
  decode bs :=
    '(len, b) ← varint_read bs;
    if lenN b <? len then Err Eof else Ok (take (N.to_nat len) b);
|}.

#[global] Arguments varint_bytes : simpl never.
#[global] Arguments varint_read : simpl never.

(** ** Lemmas *)

Lemma land_127 v : N.land v 127 = v mod 128.
Proof. change 127 with (N.ones 7). by rewrite N.land_ones. Qed.

Lemma shiftr_7 v : N.shiftr v 7 = v / 128.
Proof. by rewrite N.shiftr_div_pow2. Qed.

Lemma land_128_low b : b < 128 -> N.land b 128 = 0.
Proof. intros H. apply (land_shiftl_disjoint b 1 7). done. Qed.

Lemma lor_128_add b : b < 128 -> N.lor b 128 = b + 128.
Proof. intros H. by apply (lor_shiftl_add b 1 7). Qed.

Lemma land_128_high b : b < 128 -> N.land (b + 128) 128 = 128.
Proof.
  intros H. rewrite <- lor_128_add by done.
  apply N.bits_inj. intros i. rewrite N.land_spec, N.lor_spec.
  destruct (N.testbit 128 i); by rewrite ?orb_true_r, ?andb_false_r.
Qed.

Lemma varint_loop_S f v :
  varint_loop (S f) v =
  if v / 128 =? 0 then [byte_of (v mod 128)]
  else byte_of (v mod 128 + 128) :: varint_loop f (v / 128).
Proof.
  cbn [varint_loop]. rewrite land_127, shiftr_7.
  destruct (v / 128 =? 0) eqn:E; cbn; [done|].
  by rewrite lor_128_add by (apply N.mod_lt; lia).
Qed.

Lemma varint_read_step b bs shift acc :
  shift < 64 ->
  varint_read_loop (b :: bs) shift acc =
  let acc := N.lor acc (wrap64 (N.shiftl (N.land (bval b) 127) shift)) in
  if N.land (bval b) 128 =? 0 then Ok (acc, bs) else varint_read_loop bs (shift + 7) acc.
Proof. intros H. cbn. destruct (N.leb_spec 64 shift); [lia|done]. Qed.

(** The reader run on the writer's output, from any position of the value. *)
Lemma varint_loop_read f v shift acc rest :
  v < 2 ^ (7 * N.of_nat (S f)) -> v * 2 ^ shift < two64 -> acc < 2 ^ shift -> shift < 64 ->
  varint_read_loop (varint_loop (S f) v ++ rest) shift acc = Ok (acc + v * 2 ^ shift, rest).
Proof.
  revert v shift acc; induction f as [f IH] using lt_wf_ind; intros v shift acc Hv Hs Hacc Hsh.
  { rewrite varint_loop_S.
    assert (Hm : v mod 128 < 128) by (apply N.mod_lt; lia).
    assert (Hd : v = 128 * (v / 128) + v mod 128) by (apply N.div_mod'; lia).
    assert (Hw : forall x, x <= v -> wrap64 (N.shiftl x shift) = x * 2 ^ shift).
    { intros x Hx. unfold wrap64. rewrite N.shiftl_mul_pow2. apply N.mod_small. nia. }
    destruct (N.eqb_spec (v / 128) 0) as [Z|Z]; cbn [app];
      rewrite varint_read_step by done; cbn zeta; rewrite bval_byte_of.
    + rewrite N.mod_small by lia.
      rewrite land_128_low, N.eqb_refl, land_127, N.Div0.mod_mod by lia.
      rewrite Hw by lia. rewrite <- N.shiftl_mul_pow2, lor_shiftl_add by done.
      replace (v mod 128) with v by lia. done.
    + rewrite N.mod_small by lia. rewrite land_128_high by done. cbn [N.eqb Pos.eqb].
      rewrite land_127. replace ((v mod 128 + 128) mod 128) with (v mod 128).
      2: { rewrite <- (N.mul_1_l 128) at 3. rewrite N.Div0.mod_add. by rewrite N.Div0.mod_mod. }
      rewrite Hw by lia. rewrite <- N.shiftl_mul_pow2, lor_shiftl_add by done.
      assert (Hp : 2 ^ (shift + 7) = 2 ^ shift * 128) by (by rewrite N.pow_add_r).
      destruct f as [|f].
      { exfalso. apply Z, N.div_small. exact Hv. }
      rewrite (IH f); [|lia|..].
      * f_equal. f_equal. rewrite Hp. nia.
      * replace (7 * N.of_nat (S (S f))) with (7 + 7 * N.of_nat (S f)) in Hv by lia.
        rewrite N.pow_add_r in Hv. by apply N.Div0.div_lt_upper_bound.
      * rewrite Hp. eapply N.le_lt_trans; [|exact Hs].
        rewrite (N.mul_comm (2 ^ shift)), N.mul_assoc. apply N.mul_le_mono_r. dlia.
      * rewrite Hp. nia.
      * destruct (N.lt_ge_cases (shift + 7) 64) as [?|G]; [done|exfalso].
        assert (2 ^ 64 <= 2 ^ (shift + 7)) by (apply N.pow_le_mono_r; lia).
        change (2 ^ 64) with two64 in *.
        assert (128 <= v) by dlia. nia. }
Qed.

Lemma varint_read_write v rest :
  u64_ok v -> varint_read (varint_bytes v ++ rest) = Ok (v, rest).
Proof.
  intros Hv. unfold varint_read, varint_bytes.
  rewrite varint_loop_read; unfold u64_ok, two64 in *.
  - do 2 f_equal. lia.
  - eapply N.lt_trans; [exact Hv|]. done.
  - cbn. lia.
  - done.
  - done.
Qed.

Lemma varint_loop_length f v : (length (varint_loop f v) <= f)%nat.
Proof.
  revert v; induction f as [|f IH]; intros v; [done|].
  rewrite varint_loop_S. case_if; cbn; [lia|]. specialize (IH (v / 128)). lia.
Qed.

Lemma lor_lt_pow2 a b n : a < 2 ^ n -> b < 2 ^ n -> N.lor a b < 2 ^ n.
Proof.
  intros Ha Hb. rewrite <- (N.mod_small a (2 ^ n)), <- (N.mod_small b (2 ^ n)) by done.
  rewrite <- !N.land_ones, <- N.land_lor_distr_l, N.land_ones.
  apply N.mod_lt, N.pow_nonzero. done.
Qed.

(** Every varint the reader accepts is a 64-bit value, and the reader consumes
    between one and ten bytes of its input. *)
Lemma varint_read_loop_bounds bs shift acc v rest :
  varint_read_loop bs shift acc = Ok (v, rest) -> u64_ok acc ->
  u64_ok v /\ exists used, bs = used ++ rest /\ used <> [] /\ 7 * lenN used + shift < 71.
Proof.
  revert shift acc; induction bs as [|b bs IH]; intros shift acc; cbn [varint_read_loop];
    destruct (N.leb_spec 64 shift) as [?|Hs]; try done.
  intros H Hacc.
  assert (Ho : u64_ok (N.lor acc (wrap64 (N.shiftl (N.land (bval b) 127) shift)))).
  { apply (lor_lt_pow2 _ _ 64); [done|]. apply N.mod_lt. done. }
  case_if_in H.
  - injection H as <- <-. split; [done|]. exists [b]. unfold lenN. cbn. split_and!; [done..|lia].
  - apply IH in H as (Hv & used & -> & _ & Hl); [|done]. split; [done|].
    exists (b :: used). unfold lenN in *. cbn [length]. split_and!; [done..|lia].
Qed.

Lemma take_app_lenN {A} (a b : list A) : take (N.to_nat (lenN a)) (a ++ b) = a.
Proof. unfold lenN. rewrite Nat2N.id. apply take_app_length. Qed.
Lemma drop_app_lenN {A} (a b : list A) : drop (N.to_nat (lenN a)) (a ++ b) = b.
Proof. unfold lenN. rewrite Nat2N.id. apply drop_app_length. Qed.
Lemma read_write_tagged tag body rest :
  u64_ok tag -> u64_ok (lenN body) ->
  read_tagged (write_tagged [] tag body ++ rest) = Ok ((tag, body), rest).
Proof.
  intros Ht Hb. unfold read_tagged, write_tagged, varint_write. cbn [app].
  rewrite <- !app_assoc. rewrite varint_read_write by done. rsimpl.
  rewrite varint_read_write by done. rsimpl. rewrite lenN_app.
  destruct (N.ltb_spec (lenN body + lenN rest) (lenN body)); [lia|].
  by rewrite take_app_lenN, drop_app_lenN.
Qed.

#[export] Program Instance U64_laws : CodecLaws N := {| codec_valid := u64_ok |}.
Next Obligation.
  intros v Hv. cbn. unfold varint_write. cbn.
  rewrite <- (app_nil_r (varint_bytes v)), varint_read_write by done. done.
Qed.

#[export] Program Instance Bytes_laws : CodecLaws bytes :=
  {| codec_valid := λ v, u64_ok (lenN v) |}.
Next Obligation.
  intros v Hv. cbn. unfold varint_write. cbn.
  rewrite varint_read_write by done. cbn.
  destruct (N.ltb_spec (lenN v) (lenN v)); [lia|].
  rewrite <- (app_nil_r v) at 2. by rewrite take_app_lenN.
Qed.

(** A varint that is cut short runs out of bytes. *)
Lemma varint_loop_prefix f v k shift acc :
  (k < length (varint_loop f v))%nat -> shift + 7 * N.of_nat k < 64 ->
  varint_read_loop (take k (varint_loop f v)) shift acc = Err Eof.
Proof.
  revert v k shift acc. induction f as [|f IH]; intros v k shift acc; [cbn; lia|].
  rewrite varint_loop_S. pose proof (N.mod_lt v 128).
  destruct k as [|k]; intros Hk Hs.
  - rewrite firstn_O. unfold varint_read_loop. destruct (N.leb_spec 64 shift); [lia|done].
  - case_if; [cbn in Hk; lia|]. rewrite firstn_cons. cbn [length] in Hk.
    rewrite varint_read_step by lia. cbn zeta. rewrite bval_byte_of, (N.mod_small (_ + _)) by lia.
    rewrite land_128_high by lia. cbn [N.eqb Pos.eqb]. apply IH; lia.
Qed.

Lemma varint_read_prefix v k rest :
  (k < length (varint_bytes v))%nat -> varint_read (take k (varint_bytes v ++ rest)) = Err Eof.
Proof.
  intros Hk. rewrite take_app_le by lia. unfold varint_read. apply varint_loop_prefix; [done|].
  pose proof (varint_loop_length 10 v). unfold varint_bytes in Hk. lia.
Qed.

(** Reading a stream of records, as a caller does in a loop. *)
Fixpoint read_records (n : nat) (bs : bytes) : result Error (list (N * bytes) * bytes) :=
  match n with
  | O => Ok ([], bs)
  | S n' =>
      '(r, bs) ← read_tagged bs;
      '(rs, bs) ← read_records n' bs;
      Ok (r :: rs, bs)
  end.

Definition write_records (rs : list (N * bytes)) : bytes :=
  foldl (λ out '(tag, body), write_tagged out tag body) [] rs.

Lemma write_tagged_app out tag body : write_tagged out tag body = out ++ write_tagged [] tag body.
Proof. unfold write_tagged, varint_write. cbn [app]. by rewrite <- !app_assoc. Qed.

Lemma write_records_app out rs :
  foldl (λ out '(tag, body), write_tagged out tag body) out rs = out ++ write_records rs.
Proof.
  unfold write_records. revert out. induction rs as [|[tag body] rs IH]; intros out; cbn [foldl].
  - by rewrite app_nil_r.
  - rewrite IH, (IH (write_tagged [] tag body)), write_tagged_app. by rewrite app_assoc.
Qed.

Lemma read_write_records rs rest :
  Forall (λ r, u64_ok r.1 /\ u64_ok (lenN r.2)) rs ->
  read_records (length rs) (write_records rs ++ rest) = Ok (rs, rest).
Proof.
  intros Hok. induction Hok as [|[tag body] rs [Ht Hb] _ IH]; [done|].
  unfold write_records. cbn [length read_records foldl].
  rewrite write_records_app, <- app_assoc, read_write_tagged by done. rsimpl.
  by rewrite IH.
Qed.

Lemma read_tagged_prefix tag body k :
  u64_ok tag -> u64_ok (lenN body) -> (k < length (write_tagged [] tag body))%nat ->
  read_tagged (take k (write_tagged [] tag body)) = Err Eof.
Proof.
  intros Ht Hb Hk. unfold read_tagged, write_tagged, varint_write in *. cbn [app] in *.
  rewrite !length_app in Hk. rewrite <- app_assoc in *.
  destruct (decide (k < length (varint_bytes tag))%nat) as [L|G].
  { by rewrite varint_read_prefix. }
  rewrite take_app, take_ge by lia. rewrite varint_read_write by done. rsimpl.
  set (k' := (k - _)%nat). assert (Hk' : (k' < length (varint_bytes (lenN body)) + length body)%nat) by lia.
  destruct (decide (k' < length (varint_bytes (lenN body)))%nat) as [L|G'].
  { by rewrite varint_read_prefix. }
  rewrite take_app, take_ge by lia. rewrite varint_read_write by done. rsimpl.
  destruct (N.ltb_spec (lenN (take (k' - length (varint_bytes (lenN body))) body)) (lenN body)); [done|].
  unfold lenN in *. rewrite length_take in *. lia.
Qed.

(** ** Properties *)

(** A 64-bit value is written in at most ten bytes and read back with
    nothing else consumed, a truncated varint is [Eof], and whatever bytes a
    reader accepts, hostile ones included, it consumed between one and ten of
    them and returns a 64-bit value. *)
Theorem varint_roundtrip v rest k bs w rest' :
  u64_ok v ->
  varint_read (varint_write [] v ++ rest) = Ok (v, rest)
  /\ (length (varint_bytes v) <= 10)%nat
  /\ ((k < length (varint_bytes v))%nat -> varint_read (take k (varint_bytes v)) = Err Eof)
  /\ (varint_read bs = Ok (w, rest') ->
        u64_ok w /\ exists used, bs = used ++ rest' /\ (1 <= length used <= 10)%nat).
Proof.
  intros Hv. split_and!.
  - by apply varint_read_write.
  - apply varint_loop_length.
  - intros Hk. rewrite <- (app_nil_r (varint_bytes v)). by apply varint_read_prefix.
  - intros (Hw & used & -> & Hne & Hl)%varint_read_loop_bounds; [|done]. split; [done|].
    exists used. split; [done|]. destruct used; [done|]. unfold lenN in Hl. cbn [length] in *. lia.
Qed.

(** A stream of tagged records reads back record by record, whatever the tags
    (an unknown one is skipped by its length), and leaves exactly the bytes after
    it; a record that is cut anywhere is [Eof], never another record. *)
Theorem tagged_stream rs rest tag body k :
  Forall (λ r, u64_ok r.1 /\ u64_ok (lenN r.2)) ((tag, body) :: rs) ->
  read_records (length rs) (write_records rs ++ rest) = Ok (rs, rest)
  /\ ((k < length (write_tagged [] tag body))%nat ->
        read_tagged (take k (write_tagged [] tag body)) = Err Eof).
Proof.
  intros [[Ht Hb] Hrs]%Forall_cons. split; [by apply read_write_records|by apply read_tagged_prefix].
Qed.

Lemma varint_roundtrip_witness :
  varint_read (varint_write [] 300 ++ [byte_of 7]) = Ok (300, [byte_of 7])
  /\ varint_read (take 1 (varint_bytes 300)) = Err Eof.
Proof.
  destruct (varint_roundtrip 300 [byte_of 7] 1 [] 0 []) as (H1 & _ & H3 & _); [done|].
  split; [exact H1|apply H3; vm_compute; lia].
Defined.

Lemma tagged_stream_witness :
  read_records 2 (write_records [(1, [byte_of 65]); (99, [])] ++ [byte_of 7])
  = Ok ([(1, [byte_of 65]); (99, [])], [byte_of 7]).
Proof.
  apply (tagged_stream [(1, [byte_of 65]); (99, [])] [byte_of 7] 5 [] 0). repeat constructor.
Defined.
End Codec.
