(* ===== verification/Flat.v ===== *)
(** * [merkle::flat]: flat-tree index arithmetic

    The model of [src/crates/merkle/src/flat.rs].  Leaves sit at even indices
    (block [k] at [2k]), parents at odd ones.  Indices are 64-bit: sums,
    products and shifts wrap as they do in a release build, because the proof
    verifiers run these functions on indices an untrusted peer chose.

    [idx d o] is the index of the node at depth [d] and offset [o] over the
    unbounded integers.  Every number is the [idx] of exactly one pair, and
    every operation has a closed form on pairs: for the nodes of a log of at
    most [2^62] blocks ([small]) no operation wraps, and [parent_inv] says what
    the wrapped [parent] can reach from an arbitrary 64-bit index. *)
From S2P Require Import Prelude.

Module Flat.

Definition depth (i : N) : N := trailing_zeros (wrap64 (i + 1)).

Definition offset (i : N) : N :=
  if N.land i 1 =? 0 then i / 2
  else let d := depth i in wsub64 (shr64 (wrap64 (i + 1)) d) 1 / 2.

Definition index (depth offset : N) : N :=
  wsub64 (wrap64 (wrap64 (1 + 2 * offset) * shl64 1 depth)) 1.

Definition parent (i : N) : N :=
  let d := depth i in index (d + 1) (N.shiftr (offset i) 1).

Definition sibling (i : N) : N :=
  let d := depth i in index d (N.lxor (offset i) 1).

Definition children (i : N) : option (N * N) :=
  if N.land i 1 =? 0 then None
  else
    let d := depth i in
    let off := wrap64 (offset i * 2) in
    Some (index (d - 1) off, index (d - 1) (off + 1)).

Definition block_range (i : N) : N * N :=
  let d := depth i in
  let count := shl64 1 d in
  let first := wrap64 (offset i * count) in
  (first, wrap64 (first + count)).

(** The inner loop of [full_roots]: double [factor] while it still fits. *)
Fixpoint grow_factor (fuel : nat) (factor index : N) : N :=
  match fuel with
  | O => factor
  | S fuel' => if factor * 2 <=? index then grow_factor fuel' (factor * 2) index else factor
  end.

(** The outer loop: one root per complete power-of-two subtree, left to right.
    [index] loses its top bit each round, so its bit length bounds the rounds.
    Half of a 64-bit argument is below [2^63], so nothing here can wrap. *)
Fixpoint full_roots_loop (fuel : nat) (index offset : N) : list N :=
  match fuel with
  | O => []
  | S fuel' =>
      if 0 <? index then
        let factor := grow_factor (N.size_nat index) 1 index in
        (offset * 2 + factor - 1) :: full_roots_loop fuel' (index - factor) (offset + factor)
      else []
  end.

(** [None] is the assertion on an odd argument firing. *)
Definition full_roots (idx : N) : option (list N) :=
  if N.land idx 1 =? 0 then
    let index := idx / 2 in Some (full_roots_loop (N.size_nat index) index 0)
  else None.

(** [full_roots(len * 2)], the form of every call. *)
Definition roots_of (len : N) : list N := default [] (full_roots (wrap64 (len * 2))).

(** ** Coordinates *)

(** The node of depth [d] and offset [o]. *)
Definition idx (d o : N) : N := (2 * o + 1) * 2 ^ d - 1.

(** A node other than the last 64-bit index. *)
Definition fits (d o : N) : Prop := (2 * o + 1) * 2 ^ d < two64.

(** A node whose blocks all lie below the capacity assumed of a log. *)
Definition max_blocks : N := 2 ^ 62.
Definition small (d o : N) : Prop := (o + 1) * 2 ^ d <= max_blocks.

Lemma pow2_pos d : 0 < 2 ^ d.
Proof. apply N.neq_0_lt_0, N.pow_nonzero. done. Qed.
#[local] Hint Resolve pow2_pos : core.

Lemma pow2_S d : 2 ^ (d + 1) = 2 * 2 ^ d.
Proof. by rewrite N.add_1_r, N.pow_succ_r'. Qed.

Lemma pow2_split k d : d <= k -> 2 ^ k = 2 ^ (k - d) * 2 ^ d.
Proof. intros H. rewrite <- N.pow_add_r. f_equal. lia. Qed.

Lemma pow2_lt_inv a b : 2 ^ a < 2 ^ b -> a < b.
Proof. intros H. destruct (N.lt_ge_cases a b) as [?|G]; [done|]. apply (N.pow_le_mono_r 2) in G; lia. Qed.

Lemma idx_succ d o : idx d o + 1 = (2 * o + 1) * 2 ^ d.
Proof. unfold idx. pose proof (pow2_pos d). nia. Qed.

Lemma idx_0 o : idx 0 o = 2 * o.
Proof. unfold idx. cbn. lia. Qed.

Lemma fits_depth d o : fits d o -> d <= 63.
Proof.
  unfold fits. intros H. apply N.lt_succ_r, (pow2_lt_inv d 64).
  change (2 ^ 64) with two64. nia.
Qed.

Lemma fits_offset d o : d <= 63 -> fits d o <-> o < 2 ^ (63 - d).
Proof.
  intros Hd. unfold fits. change two64 with (2 * 2 ^ 63). rewrite (pow2_split 63 d) by done.
  pose proof (pow2_pos d). split; nia.
Qed.

Lemma small_depth d o : small d o -> d <= 62.
Proof.
  unfold small, max_blocks. intros H. apply N.lt_succ_r, (pow2_lt_inv d 63).
  change (2 ^ 63) with (2 * 2 ^ 62). pose proof (pow2_pos d). nia.
Qed.

Lemma small_fits d o : small d o -> fits d o.
Proof.
  unfold small, fits, max_blocks. change two64 with (4 * 2 ^ 62).
  pose proof (pow2_pos d). nia.
Qed.

Lemma ctz_double n : n <> 0 -> trailing_zeros (2 * n) = trailing_zeros n + 1.
Proof. destruct n as [|p]; [done|]. intros _. change (N.succ (pos_ctz p) = pos_ctz p + 1). lia. Qed.

Lemma ctz_odd o : trailing_zeros (2 * o + 1) = 0.
Proof. by destruct o. Qed.

Lemma ctz_coord d o : trailing_zeros ((2 * o + 1) * 2 ^ d) = d.
Proof.
  induction d as [|d IH] using N.peano_ind.
  - rewrite N.pow_0_r, N.mul_1_r. apply ctz_odd.
  - rewrite N.pow_succ_r'.
    replace ((2 * o + 1) * (2 * 2 ^ d)) with (2 * ((2 * o + 1) * 2 ^ d)) by lia.
    rewrite ctz_double, IH; [lia|]. pose proof (pow2_pos d). nia.
Qed.

Lemma land_1 i : N.land i 1 = i mod 2.
Proof. change 1 with (N.ones 1) at 1. by rewrite N.land_ones. Qed.

Lemma idx_parity d o : N.land (idx d o) 1 = if d =? 0 then 0 else 1.
Proof.
  rewrite land_1. destruct (N.eqb_spec d 0) as [->|Hd].
  - rewrite idx_0, N.mul_comm. apply N.Div0.mod_mul.
  - pose proof (idx_succ d o) as E.
    replace d with (N.pred d + 1) in E at 2 by lia. rewrite pow2_S in E.
    set (k := (2 * o + 1) * 2 ^ N.pred d) in *.
    assert (E' : idx d o + 1 = 2 * k) by (unfold k; nia).
    assert (k <> 0) by (pose proof (pow2_pos (N.pred d)); unfold k; nia).
    replace (idx d o) with (1 + (k - 1) * 2) by lia. by rewrite N.Div0.mod_add.
Qed.

Lemma coord_exists (n : N) : n <> 0 -> exists d o, n = (2 * o + 1) * 2 ^ d.
Proof.
  induction n as [n IH] using (well_founded_induction N.lt_wf_0). intros Hn.
  pose proof (N.div_mod' n 2) as E. pose proof (N.mod_lt n 2).
  destruct (N.eq_dec (n mod 2) 0) as [Z|Z].
  - destruct (IH (n / 2)) as (d & o & E2); [dlia|dlia|].
    exists (d + 1), o. rewrite pow2_S. nia.
  - exists 0, (n / 2). rewrite N.pow_0_r. dlia.
Qed.

(** Every number is the node of some depth and offset, and of only one. *)
Lemma idx_exists i : exists d o, i = idx d o.
Proof.
  destruct (coord_exists (i + 1)) as (d & o & E); [lia|].
  exists d, o. pose proof (idx_succ d o). lia.
Qed.

Lemma idx_inj d o d' o' : idx d o = idx d' o' -> d = d' /\ o = o'.
Proof.
  intros E. assert (E1 : (2 * o + 1) * 2 ^ d = (2 * o' + 1) * 2 ^ d')
    by (rewrite <- !idx_succ; by f_equal).
  assert (d = d') as ->. { rewrite <- (ctz_coord d o), E1. apply ctz_coord. }
  split; [done|]. pose proof (pow2_pos d'). nia.
Qed.

Lemma idx_lt_mono d o o' : o < o' -> idx d o < idx d o'.
Proof. intros H. pose proof (idx_succ d o). pose proof (idx_succ d o'). pose proof (pow2_pos d). nia. Qed.

(** ** The operations on coordinates *)

Lemma shl64_1 d : d <= 63 -> shl64 1 d = 2 ^ d.
Proof.
  intros H. unfold shl64. rewrite (N.mod_small d 64), N.shiftl_mul_pow2, N.mul_1_l by lia.
  apply wrap64_small. change two64 with (2 ^ 64). apply N.pow_lt_mono_r; lia.
Qed.

Lemma depth_idx d o : fits d o -> depth (idx d o) = d.
Proof. intros H. unfold depth. rewrite idx_succ, wrap64_small by done. apply ctz_coord. Qed.

Lemma offset_idx d o : fits d o -> offset (idx d o) = o.
Proof.
  intros H. pose proof (fits_depth d o H). unfold offset. rewrite idx_parity.
  destruct (N.eqb_spec d 0) as [->|Hd]; cbn [N.eqb].
  - rewrite idx_0, N.mul_comm. by apply N.div_mul.
  - rewrite depth_idx, idx_succ, wrap64_small by done. unfold shr64.
    rewrite N.mod_small, N.shiftr_div_pow2, N.div_mul by (pose proof (pow2_pos d); lia).
    assert (2 * o + 1 < two64) by (unfold fits in H; pose proof (pow2_pos d); nia).
    rewrite wsub64_small by lia. replace (2 * o + 1 - 1) with (o * 2) by lia. by apply N.div_mul.
Qed.

Lemma index_idx d o : fits d o -> index d o = idx d o.
Proof.
  intros H. pose proof (fits_depth d o H). unfold fits in H. unfold index, idx.
  pose proof (pow2_pos d). rewrite shl64_1 by done.
  rewrite (wrap64_small (1 + 2 * o)) by nia. rewrite (N.add_comm 1).
  rewrite wrap64_small, wsub64_small by nia. done.
Qed.

Lemma parent_idx d o : fits d o -> d <= 62 -> parent (idx d o) = idx (d + 1) (o / 2).
Proof.
  intros H Hd. unfold parent. rewrite depth_idx, offset_idx, N.shiftr_div_pow2 by done.
  apply index_idx, fits_offset; [lia|]. apply fits_offset in H; [|lia].
  replace (63 - d) with (63 - (d + 1) + 1) in H by lia. rewrite pow2_S in H.
  change (2 ^ 1) with 2. dlia.
Qed.

Lemma lxor_1 o : N.lxor o 1 = if N.even o then o + 1 else o - 1.
Proof. destruct o as [|[p|p|]]; cbn; try done; lia. Qed.

Lemma even_bound o k : N.even o = true -> o < 2 * k -> o + 1 < 2 * k.
Proof. intros [q ->]%N.even_spec H. lia. Qed.

Lemma sibling_even d o : fits d o -> d <= 62 -> N.even o = true -> sibling (idx d o) = idx d (o + 1).
Proof.
  intros H Hd E. unfold sibling. rewrite depth_idx, offset_idx, lxor_1, E by done.
  apply index_idx, fits_offset; [lia|]. apply fits_offset in H; [|lia].
  replace (63 - d) with (62 - d + 1) in * by lia. rewrite pow2_S in *. by apply even_bound.
Qed.

Lemma sibling_odd d o : fits d o -> N.even o = false -> sibling (idx d o) = idx d (o - 1).
Proof.
  intros H E. unfold sibling. rewrite depth_idx, offset_idx, lxor_1, E by done.
  apply index_idx. unfold fits in *. pose proof (pow2_pos d). nia.
Qed.

Lemma children_idx d o :
  fits (d + 1) o -> children (idx (d + 1) o) = Some (idx d (2 * o), idx d (2 * o + 1)).
Proof.
  intros H. unfold children. rewrite idx_parity, depth_idx, offset_idx by done.
  destruct (N.eqb_spec (d + 1) 0); [lia|]. cbn [N.eqb].
  pose proof (fits_depth _ _ H) as Hd. apply fits_offset in H as Ho; [|done].
  replace (63 - (d + 1)) with (62 - d) in Ho by lia.
  assert (Hc : forall c, c < 2 * 2 ^ (62 - d) -> fits d c).
  { intros c Hc. apply fits_offset; [lia|]. rewrite <- pow2_S in Hc.
    by replace (63 - d) with (62 - d + 1) by lia. }
  unfold fits in H. rewrite pow2_S in H. pose proof (pow2_pos d).
  rewrite N.add_sub, (N.mul_comm o), wrap64_small by nia.
  rewrite !index_idx by (apply Hc; lia). done.
Qed.

Lemma children_leaf o : children (idx 0 o) = None.
Proof. unfold children. by rewrite idx_parity. Qed.

Lemma block_range_idx d o : fits d o -> block_range (idx d o) = (o * 2 ^ d, (o + 1) * 2 ^ d).
Proof.
  intros H. pose proof (fits_depth d o H). unfold block_range.
  rewrite depth_idx, offset_idx, shl64_1 by done.
  assert (2 ^ d <= 2 ^ 63) by (by apply N.pow_le_mono_r).
  assert (o * 2 ^ d + 2 ^ d < two64).
  { unfold fits in H. change two64 with (2 * 2 ^ 63) in *.
    generalize dependent (2 ^ d). generalize (2 ^ 63). nia. }
  rewrite (wrap64_small (o * 2 ^ d)), wrap64_small by lia. f_equal. lia.
Qed.

(** The only nodes whose parent and sibling wrap are the two at depth 63 and
    64; they end at indices no small interior node has.  So from whatever
    64-bit index a climb reaches a small interior node, it came from a child. *)
Lemma parent_inv x d o :
  u64_ok x -> small (d + 1) o -> parent x = idx (d + 1) o -> exists o', x = idx d o' /\ o' / 2 = o.
Proof.
  intros Hx Hs. destruct (idx_exists x) as (e & o' & ->).
  pose proof (idx_succ e o') as E. unfold u64_ok in Hx.
  destruct (N.lt_ge_cases (idx e o' + 1) two64) as [L|G].
  - assert (Hf : fits e o') by (unfold fits; lia).
    destruct (N.le_gt_cases e 62) as [Hle|Hgt].
    + rewrite parent_idx by done. intros [E1 E2]%idx_inj.
      exists o'. split; [f_equal; lia|done].
    + assert (e = 63) as -> by (apply fits_depth in Hf; lia).
      apply fits_offset in Hf; [|lia]. assert (o' = 0) as -> by (change (2 ^ (63 - 63)) with 1 in Hf; lia).
      replace (parent (idx 63 0)) with (idx 0 0) by done. intros [? ?]%idx_inj. lia.
  - assert (Em : idx e o' = u64_max) by (unfold two64, u64_max in *; lia).
    rewrite Em. replace (parent u64_max) with (u64_max - 2) by done.
    intros Ei. exfalso. apply small_fits in Hs as Hf. pose proof (idx_succ (d + 1) o) as E3.
    unfold small, max_blocks in Hs. rewrite pow2_S in *. unfold fits in Hf.
    rewrite <- Ei in E3. unfold u64_max in E3. pose proof (pow2_pos d).
    change (2 ^ 62) with 4611686018427387904 in Hs. nia.
Qed.

(** ** Roots *)

Lemma grow_factor_spec f k n :
  2 ^ k <= n -> n < 2 ^ (k + N.of_nat f) -> grow_factor f (2 ^ k) n = 2 ^ N.log2 n.
Proof.
  revert k; induction f as [|f IH]; intros k Hl Hu; cbn [grow_factor].
  - rewrite N.add_0_r in Hu. lia.
  - pose proof (pow2_pos k) as Hk. rewrite N.mul_comm, <- pow2_S.
    destruct (N.leb_spec (2 ^ (k + 1)) n) as [L|G].
    + apply IH; [done|]. by replace (k + 1 + N.of_nat f) with (k + N.of_nat (S f)) by lia.
    + f_equal. symmetry. apply N.log2_unique; [lia|]. rewrite <- N.add_1_r. lia.
Qed.

Lemma of_nat_size_nat n : N.of_nat (N.size_nat n) = N.size n.
Proof. destruct n as [|p]; [done|]. cbn. induction p; cbn in *; lia. Qed.

Lemma size_nat_pow n : n < 2 ^ N.of_nat (N.size_nat n).
Proof. rewrite of_nat_size_nat. apply N.size_gt. Qed.

Lemma size_nat_log2 n : n <> 0 -> N.of_nat (N.size_nat n) = N.log2 n + 1.
Proof. intros Hn. by rewrite of_nat_size_nat, N.size_log2, N.add_1_r. Qed.

Lemma top_factor n : n <> 0 -> grow_factor (N.size_nat n) 1 n = 2 ^ N.log2 n.
Proof.
  intros Hn. change 1 with (2 ^ 0). apply grow_factor_spec.
  - cbn. lia.
  - apply size_nat_pow.
Qed.

Lemma full_roots_loop_S f n off : n <> 0 ->
  full_roots_loop (S f) n off =
  (off * 2 + 2 ^ N.log2 n - 1) :: full_roots_loop f (n - 2 ^ N.log2 n) (off + 2 ^ N.log2 n).
Proof. intros Hn. cbn [full_roots_loop]. destruct (N.ltb_spec 0 n); [|lia]. by rewrite top_factor. Qed.

Lemma wrap64_double n : wrap64 (n * 2) = n mod 2 ^ 63 * 2.
Proof. unfold wrap64. change two64 with (2 ^ 63 * 2). apply N.Div0.mul_mod_distr_r. Qed.

(** [full_roots] on a doubled length never fails; only the low 63 bits of the
    length matter. *)
Lemma full_roots_even n : full_roots (wrap64 (n * 2)) = Some (roots_of n).
Proof. unfold roots_of, full_roots. by rewrite wrap64_double, land_1, N.Div0.mod_mul. Qed.

Lemma roots_of_wrap n : roots_of n = full_roots_loop (N.size_nat (n mod 2 ^ 63)) (n mod 2 ^ 63) 0.
Proof.
  unfold roots_of, full_roots. rewrite wrap64_double, land_1, N.Div0.mod_mul.
  cbn [N.eqb default from_option]. by rewrite N.div_mul.
Qed.

Lemma roots_of_loop n : n < 2 ^ 63 -> roots_of n = full_roots_loop (N.size_nat n) n 0.
Proof. intros H. by rewrite roots_of_wrap, N.mod_small. Qed.

(** The roots as coordinates: the binary digits of the length, high to low. *)
Inductive root_chain : N -> N -> list (N * N) -> Prop :=
| chain_nil off : root_chain off 0 []
| chain_cons n k o l :
    n <> 0 -> k = N.log2 n -> root_chain ((o + 1) * 2 ^ k) (n - 2 ^ k) l ->
    root_chain (o * 2 ^ k) n ((k, o) :: l).

Lemma full_roots_chain f s n off :
  n < 2 ^ s -> s <= N.of_nat f -> (exists q, off = q * 2 ^ s) ->
  exists l, full_roots_loop f n off = map (λ '(d, o), idx d o) l /\ root_chain off n l.
Proof.
  revert s n off; induction f as [|f IH]; intros s n off Hn Hs [q Hq].
  - assert (s = 0) as -> by lia. exists [].
    split; [done|]. assert (n = 0) as -> by (cbn in Hn; lia). constructor.
  - destruct (N.eq_dec n 0) as [->|Hz].
    { exists []. split; [done|constructor]. }
    rewrite full_roots_loop_S by done. set (k := N.log2 n).
    assert (Hk : k < s) by (apply N.log2_lt_pow2; [lia|done]).
    destruct (N.log2_spec n) as [Hlo Hhi]; [lia|]. fold k in Hlo, Hhi. rewrite N.pow_succ_r' in Hhi.
    assert (exists o, off = o * 2 ^ k) as [o ->].
    { exists (q * 2 ^ (s - k)). rewrite <- N.mul_assoc, <- N.pow_add_r, Hq. do 2 f_equal. lia. }
    destruct (IH k (n - 2 ^ k) ((o + 1) * 2 ^ k)) as (l & El & Hl); [lia|lia|by exists (o + 1)|].
    exists ((k, o) :: l). split; [|by constructor].
    cbn [map]. rewrite <- El. f_equal; [pose proof (idx_succ k o); lia|f_equal; lia].
Qed.

Lemma roots_of_chain n :
  n <= max_blocks -> exists l, roots_of n = map (λ '(d, o), idx d o) l /\ root_chain 0 n l.
Proof.
  intros Hn. rewrite roots_of_loop by (eapply N.le_lt_trans; [exact Hn|done]).
  apply (full_roots_chain _ (N.of_nat (N.size_nat n))); [apply size_nat_pow|lia|by exists 0].
Qed.

(** A node is complete in a log of [n] blocks when its whole range is there. *)
Definition complete (n d o : N) : Prop := (o + 1) * 2 ^ d <= n.

#[global] Instance complete_dec n d o : Decision (complete n d o).
Proof. unfold complete. apply _. Defined.

(** Multiples of a power of two are at least that power apart. *)
Lemma aligned_lt a b p : 0 < p -> a * p < b * p -> (a + 1) * p <= b * p.
Proof. intros Hp H. apply N.mul_lt_mono_pos_r in H; [|done]. apply N.mul_le_mono_r. lia. Qed.

Lemma half_le o : o / 2 * 2 <= o < (o / 2 + 1) * 2.
Proof. dlia. Qed.

Lemma root_chain_bounds off n l d o :
  root_chain off n l -> (d, o) ∈ l -> off <= o * 2 ^ d /\ (o + 1) * 2 ^ d <= off + n.
Proof.
  induction 1 as [off|n k o' l Hn -> Hl IH]; [by intros ?%elem_of_nil|].
  destruct (N.log2_spec n) as [Hlo _]; [lia|].
  intros [[= -> ->]|Hin]%elem_of_cons; [lia|]. destruct (IH Hin). lia.
Qed.

Lemma root_chain_parent s off n l d o :
  root_chain off n l -> n < 2 ^ s -> (exists q, off = q * 2 ^ s) -> (d, o) ∈ l ->
  off + n < (o / 2 + 1) * 2 ^ (d + 1).
Proof.
  intros Hc. revert s. induction Hc as [off|n k o' l Hn Hk Hl IH]; intros s Hs [q Hq];
    [by intros ?%elem_of_nil|].
  destruct (N.log2_spec n) as [Hlo Hhi]; [lia|]. rewrite <- Hk in Hlo, Hhi.
  rewrite N.pow_succ_r' in Hhi.
  assert (Hks : k < s) by (subst k; apply N.log2_lt_pow2; [lia|done]).
  intros [[= -> ->]|Hin]%elem_of_cons.
  - rewrite pow2_S. rewrite (pow2_split s (k + 1)), pow2_S in Hq by lia.
    assert (o' = q * 2 ^ (s - (k + 1)) * 2) as -> by (pose proof (pow2_pos k); nia).
    rewrite N.div_mul by done. nia.
  - specialize (IH k ltac:(lia) ltac:(by exists (o' + 1)) Hin). nia.
Qed.

Lemma root_chain_complete s off n l d o :
  root_chain off n l -> n < 2 ^ s -> (exists q, off = q * 2 ^ s) ->
  off <= o * 2 ^ d -> (o + 1) * 2 ^ d <= off + n -> off + n < (o / 2 + 1) * 2 ^ (d + 1) ->
  (d, o) ∈ l.
Proof.
  intros Hc. revert s. induction Hc as [off|n k o' l Hn Hk Hl IH]; intros s Hs [q Hq] Hlo Hhi Hp.
  { pose proof (pow2_pos d). nia. }
  destruct (N.log2_spec n) as [Hnlo Hnhi]; [lia|]. rewrite <- Hk in Hnlo, Hnhi.
  rewrite N.pow_succ_r' in Hnhi.
  destruct (N.lt_ge_cases (o * 2 ^ d) ((o' + 1) * 2 ^ k)) as [L|G].
  2: { apply elem_of_cons. right. apply (IH k); [lia|by exists (o' + 1)|lia|lia|].
       rewrite pow2_S in *. nia. }
  (* the node starts inside the head's range *)
  assert (d <= k) as Hdk.
  { destruct (N.le_gt_cases d k) as [?|G]; [done|exfalso].
    assert (2 ^ (k + 1) <= 2 ^ d) by (apply N.pow_le_mono_r; lia). rewrite pow2_S in *. nia. }
  destruct (N.eq_dec d k) as [->|Hne].
  - assert (o = o') as ->; [|apply elem_of_cons; by left].
    pose proof (pow2_pos k). nia.
  - exfalso. rewrite (pow2_split k (d + 1)) in L by lia. rewrite !pow2_S in *.
    pose proof (half_le o). pose proof (pow2_pos d).
    assert (Hh : o / 2 * (2 * 2 ^ d) < (o' + 1) * 2 ^ (k - (d + 1)) * (2 * 2 ^ d)) by nia.
    apply aligned_lt in Hh; [|nia].
    rewrite <- N.mul_assoc in Hh. rewrite <- pow2_S, <- pow2_split in Hh by lia. rewrite pow2_S in *.
    nia.
Qed.

(** Membership in the roots: complete, with a parent that is not. *)
Lemma roots_of_spec n d o :
  n <= max_blocks ->
  idx d o ∈ roots_of n <-> complete n d o /\ ~ complete n (d + 1) (o / 2).
Proof.
  intros Hn. destruct (roots_of_chain n Hn) as (l & -> & Hc). unfold complete.
  pose proof (size_nat_pow n) as Hs. set (s := N.of_nat (N.size_nat n)) in *.
  assert (Hin : idx d o ∈ map (λ '(d, o), idx d o) l <-> (d, o) ∈ l).
  { rewrite list_elem_of_fmap. split; [|by exists (d, o)].
    intros ([d' o'] & [-> ->]%idx_inj & ?). done. }
  rewrite Hin. split.
  - intros Hl. pose proof (root_chain_bounds _ _ _ _ _ Hc Hl).
    pose proof (root_chain_parent s _ _ _ _ _ Hc Hs ltac:(by exists 0) Hl). lia.
  - intros [H1 H2]. eapply (root_chain_complete s); [done|done|by exists 0|lia|lia|lia].
Qed.

(** A complete node that is not a root has a complete parent and sibling. *)
Lemma climb_parent n d o :
  n <= max_blocks -> complete n d o -> idx d o ∉ roots_of n -> complete n (d + 1) (o / 2).
Proof.
  intros Hn Hc Hr. destruct (decide (complete n (d + 1) (o / 2))) as [?|Hp]; [done|].
  exfalso. apply Hr. by apply roots_of_spec.
Qed.

Lemma complete_child n d o : complete n (d + 1) (o / 2) -> complete n d o.
Proof. unfold complete. rewrite pow2_S. pose proof (half_le o). pose proof (pow2_pos d). nia. Qed.

Lemma complete_left n d o : complete n d (o + 1) -> complete n d o.
Proof. unfold complete. pose proof (pow2_pos d). nia. Qed.

Lemma complete_depth n d o : complete n d o -> d <= N.log2 n.
Proof.
  unfold complete. pose proof (pow2_pos d). intros H1. apply N.log2_le_pow2; nia.
Qed.

Lemma complete_small n d o : n <= max_blocks -> complete n d o -> small d o.
Proof. unfold complete, small. lia. Qed.

Lemma complete_0 n o : complete n 0 o <-> o < n.
Proof. unfold complete. cbn. lia. Qed.

(** The roots in order: every two consecutive ones are adjacent, so the first
    starts at block 0 and the last ends at block [n]. *)
Lemma root_chain_sorted off n l :
  root_chain off n l -> Sorted N.lt (map (λ '(d, o), idx d o) l).
Proof.
  induction 1 as [off|n k o l Hn Hk Hl IH]; [constructor|]. cbn. constructor; [done|].
  inversion Hl as [|n' k' o' l' Hn' Hk' Hl' Eoff]; subst; cbn; constructor.
  pose proof (idx_succ (N.log2 n) o).
  pose proof (idx_succ (N.log2 (n - 2 ^ N.log2 n)) o').
  pose proof (pow2_pos (N.log2 (n - 2 ^ N.log2 n))). nia.
Qed.

Lemma roots_of_sorted n : n <= max_blocks -> StronglySorted N.lt (roots_of n).
Proof.
  intros Hn. destruct (roots_of_chain n Hn) as (l & -> & Hc).
  apply Sorted_StronglySorted; [intros ?; lia|]. eapply root_chain_sorted. done.
Qed.

Lemma roots_of_nodup n : n <= max_blocks -> NoDup (roots_of n).
Proof.
  assert (Hg : forall l, StronglySorted N.lt l -> NoDup l).
  { induction 1 as [|x l _ IH Hx]; constructor; [|done].
    intros Hin. eapply Forall_forall in Hx; [|done]. lia. }
  intros Hn. by apply Hg, roots_of_sorted.
Qed.

Lemma roots_of_0 : roots_of 0 = [].
Proof. done. Qed.

(** ** The roots cover the log *)

Lemma root_chain_covers off n l k :
  root_chain off n l -> off <= k < off + n ->
  exists d o, (d, o) ∈ l /\ o * 2 ^ d <= k < (o + 1) * 2 ^ d.
Proof.
  induction 1 as [off|n e o l Hn He Hl IH]; intros Hk; [lia|].
  destruct (N.log2_spec n) as [Hlo _]; [lia|]. rewrite <- He in Hlo.
  destruct (N.lt_ge_cases k ((o + 1) * 2 ^ e)).
  - exists e, o. split; [by left|lia].
  - destruct IH as (d & o' & ? & ?); [lia|]. exists d, o'. split; [by right|done].
Qed.

Lemma roots_cover n k :
  n <= max_blocks -> k < n ->
  exists d o, idx d o ∈ roots_of n /\ o * 2 ^ d <= k < (o + 1) * 2 ^ d.
Proof.
  intros Hn Hk. destruct (roots_of_chain n Hn) as (l & -> & Hc).
  destruct (root_chain_covers 0 n l k) as (d & o & Hin & ?); [done|lia|].
  exists d, o. split; [|done]. apply list_elem_of_fmap. by exists (d, o).
Qed.

(** A deeper subtree over the same block covers the parent of a shallower one. *)
Lemma cover_parent d o d' o' k n :
  d < d' -> o * 2 ^ d <= k < (o + 1) * 2 ^ d -> o' * 2 ^ d' <= k < (o' + 1) * 2 ^ d' ->
  complete n d' o' -> complete n (d + 1) (o / 2).
Proof.
  unfold complete. intros Hd Hk Hk' Hc. pose proof (half_le o) as Ho. pose proof (pow2_S d) as E.
  rewrite (pow2_split d' (d + 1)), N.mul_assoc in * by lia.
  assert ((o / 2 + 1) * 2 ^ (d + 1) <= (o' + 1) * 2 ^ (d' - (d + 1)) * 2 ^ (d + 1)); [|lia].
  apply aligned_lt; [apply pow2_pos|]. rewrite E in *. generalize dependent (o / 2). intros. nia.
Qed.

Lemma roots_cover_unique n k d o d' o' :
  n <= max_blocks -> idx d o ∈ roots_of n -> idx d' o' ∈ roots_of n ->
  o * 2 ^ d <= k < (o + 1) * 2 ^ d -> o' * 2 ^ d' <= k < (o' + 1) * 2 ^ d' -> d = d' /\ o = o'.
Proof.
  intros Hn [Hc Hp]%roots_of_spec [Hc' Hp']%roots_of_spec Hk Hk'; [|done..].
  destruct (N.lt_trichotomy d d') as [L|[->|G]].
  - destruct Hp. by eapply cover_parent.
  - split; [done|]. pose proof (pow2_pos d'). nia.
  - destruct Hp'. by eapply cover_parent.
Qed.

Lemma fits_parent d o : fits d o -> d <= 62 -> fits (d + 1) (o / 2).
Proof.
  intros Hf Hd. rewrite fits_offset in * by lia.
  rewrite (pow2_split (63 - d) 1) in Hf by lia. replace (63 - d - 1) with (63 - (d + 1)) in Hf by lia.
  change (2 ^ 1) with 2 in Hf. apply N.Div0.div_lt_upper_bound. lia.
Qed.

Lemma even_half o : N.even o = true -> 2 * (o / 2) = o /\ 2 * (o / 2) + 1 = o + 1.
Proof. intros [k ->]%N.even_spec. rewrite (N.mul_comm 2 k), N.div_mul by done. lia. Qed.
Lemma odd_half o : N.even o = false -> 2 * (o / 2) = o - 1 /\ 2 * (o / 2) + 1 = o.
Proof.
  rewrite <- N.negb_odd. intros [k ->]%negb_false_iff%N.odd_spec.
  replace (2 * k + 1) with (1 + k * 2) by lia. rewrite N.div_add by done. change (1 / 2) with 0. lia.
Qed.
Lemma even_succ o : N.even o = true -> N.even (o + 1) = false.
Proof. intros E. by rewrite N.add_1_r, N.even_succ, <- N.negb_even, E. Qed.
Lemma odd_pred o : N.even o = false -> N.even (o - 1) = true /\ 0 < o.
Proof.
  intros E. destruct (odd_half o E) as [<- Ho]. split; [|lia]. by rewrite N.even_mul.
Qed.
Lemma fits_succ d o : fits d o -> d <= 62 -> N.even o = true -> fits d (o + 1).
Proof.
  intros Hf Hd Ev. rewrite fits_offset in * by lia. rewrite (pow2_split (63 - d) 1) in Hf |- * by lia.
  rewrite (N.mul_comm _ (2 ^ 1)) in Hf |- *. by apply even_bound.
Qed.

(** ** Properties *)

(** Flat-tree arithmetic on 64-bit indices: for every node below depth 63 that
    fits a word, [depth], [offset] and [index] are inverse, a node and its
    sibling are the two children of their parent, the sibling of the sibling is
    the node, and the node covers exactly its [2^d] blocks. *)
Theorem flat_navigation d o :
  fits d o -> d <= 62 ->
  let i := idx d o in
  (depth i = d /\ offset i = o /\ index (depth i) (offset i) = i)
  /\ children (parent i) = Some (if N.even o then (i, sibling i) else (sibling i, i))
  /\ sibling (sibling i) = i /\ parent (sibling i) = parent i
  /\ block_range i = (o * 2 ^ d, (o + 1) * 2 ^ d).
Proof.
  intros Hf Hd i. pose proof (fits_parent d o Hf Hd) as Hp.
  split_and!; unfold i.
  - by apply depth_idx.
  - by apply offset_idx.
  - rewrite depth_idx, offset_idx by done. by apply index_idx.
  - rewrite parent_idx, children_idx by done. destruct (N.even o) eqn:Ev.
    + rewrite sibling_even by done. by destruct (even_half o Ev) as [-> _].
    + rewrite sibling_odd by done. destruct (odd_half o Ev) as [E1 E2]. by rewrite E2, E1.
  - destruct (N.even o) eqn:Ev.
    + pose proof (fits_succ d o Hf Hd Ev). rewrite sibling_even by done.
      rewrite sibling_odd by (done || by apply even_succ). f_equal. lia.
    + destruct (odd_pred o Ev) as [Ep Eo]. rewrite sibling_odd by done.
      rewrite sibling_even by (done || unfold fits in *; nia). f_equal. lia.
  - destruct (N.even o) eqn:Ev.
    + pose proof (fits_succ d o Hf Hd Ev). rewrite sibling_even, !parent_idx by done. f_equal.
      destruct (even_half o Ev). dlia.
    + rewrite sibling_odd, !parent_idx by (done || unfold fits in *; nia). f_equal.
      destruct (odd_half o Ev). dlia.
  - by apply block_range_idx.
Qed.

(** The roots of a log of [n] blocks are in increasing order and partition the
    log: every block lies under exactly one root, and a root is a complete
    subtree whose parent is not complete. *)
Theorem full_roots_partition n k :
  n <= max_blocks ->
  StronglySorted N.lt (roots_of n)
  /\ (forall d o, idx d o ∈ roots_of n <-> complete n d o /\ ~ complete n (d + 1) (o / 2))
  /\ (k < n -> exists d o, (idx d o ∈ roots_of n /\ o * 2 ^ d <= k < (o + 1) * 2 ^ d)
       /\ forall d' o', idx d' o' ∈ roots_of n -> o' * 2 ^ d' <= k < (o' + 1) * 2 ^ d' ->
            idx d' o' = idx d o).
Proof.
  intros Hn. split_and!.
  - by apply roots_of_sorted.
  - intros d o. by apply roots_of_spec.
  - intros Hk. destruct (roots_cover n k Hn Hk) as (d & o & Hin & Hr). exists d, o.
    split; [done|]. intros d' o' Hin' Hr'.
    by destruct (roots_cover_unique n k d' o' d o) as [-> ->].
Qed.

Lemma flat_navigation_witness :
  children (parent (idx 1 3)) = Some (sibling (idx 1 3), idx 1 3) /\ parent (idx 1 3) = 11.
Proof.
  split; [|done]. apply (flat_navigation 1 3); done.
Defined.

Lemma full_roots_partition_witness : StronglySorted N.lt (roots_of 7) /\ roots_of 7 = [3; 9; 12].
Proof. split; [|done]. apply (full_roots_partition 7 0). done. Defined.
End Flat.
