(* ===== verification/Merkle.v ===== *)
(** * [merkle]: the tree and its proofs

    The model of [src/crates/merkle/src/lib.rs], [tree.rs] and [proof.rs]: the
    three domain-separated hash inputs, the node and tree records, every
    operation of [MerkleTree] and the four proof verifiers.  BLAKE3 is a
    parameter ([Hasher]).  A [BTreeMap<u64, Node>] is a [gmap], iterated in key
    order with [bmap_list]; [nodes[&i]] on an absent key is [Panic]; byte sizes
    are 64-bit and wrap.  The theorems are in MerkleSpec (the tree against a
    reference tree) and MerkleProofs (the verifiers). *)
From S2P Require Import Prelude Flat.
From Stdlib Require Import Strings.Byte.

(** BLAKE3: 32 bytes for every input. *)
Class Hasher := blake3 : bytes -> bytes.
Class HasherLaws `{Hasher} := blake3_length : forall x, length (blake3 x) = 32%nat.

Module Merkle.

Definition LEAF : byte := x00.
Definition PARENT : byte := x01.
Definition TREE : byte := x02.

Record Node := mkNode { index : N; hash : bytes; size : N }.

#[global] Instance Node_eq_dec : EqDecision Node.
Proof. solve_decision. Defined.

Record MerkleTree := mkTree { nodes : gmap N Node; length : N }.

Record NodeProof := mkNodeProof { np_node : Node; np_siblings : list Node; np_roots : list Node }.

Record Proof_ := mkProof {
  block : N; leaf_size : N; siblings : list Node; roots : list Node }.

Record SeekProof := mkSeekProof {
  sp_bytes : N; sp_leaf : Node; sp_siblings : list Node; sp_roots : list Node }.

Record RangeProof := mkRangeProof {
  rp_start : N; rp_end : N; leaf_sizes : list N; rp_nodes : list Node; rp_roots : list Node }.

Record UpgradeProof := mkUpgradeProof { old_len : N; new_len : N; up_nodes : list Node }.

Inductive InRepairMode := inRepairMode.

(** ** Hash inputs *)

Definition leaf_input (data : bytes) : bytes := [LEAF] ++ le64 (lenN data) ++ data.

Definition parent_input (lft rgt : Node) : bytes :=
  [PARENT] ++ hash lft ++ le64 (size lft) ++ hash rgt ++ le64 (size rgt).

Definition tree_input (roots : list Node) : bytes :=
  [TREE] ++ concat (map (λ r, hash r ++ le64 (index r) ++ le64 (size r)) roots).

Section Tree.
Context `{Hasher}.

Definition leaf_hash (data : bytes) : bytes := blake3 (leaf_input data).
Definition parent_hash (lft rgt : Node) : bytes := blake3 (parent_input lft rgt).
Definition tree_hash (roots : list Node) : bytes := blake3 (tree_input roots).

(** The node [append] and the verifiers build over two siblings. *)
Definition parent_node (p : N) (lft rgt : Node) : Node :=
  mkNode p (parent_hash lft rgt) (wrap64 (size lft + size rgt)).

Definition leaf_node (i : N) (data : bytes) : Node := mkNode i (leaf_hash data) (lenN data).

(** ** The tree *)

Definition new : MerkleTree := mkTree ∅ 0.

Definition is_empty (t : MerkleTree) : bool := length t =? 0.

Definition nodes_at (m : gmap N Node) (i : N) : run Node := expect (m !! i).

(** A climb goes up one level a round and a 64-bit index has depth at most 64. *)
Definition climb_fuel : nat := 65.

Fixpoint append_loop (fuel : nat) (m : gmap N Node) (cur : N) : run (gmap N Node) :=
  match fuel with
  | O => OutOfFuel
  | S fuel' =>
      let sib := Flat.sibling cur in
      if cur <? sib then Done m
      else match m !! sib with
           | None => Done m
           | Some lft =>
               rgt ← nodes_at m cur;
               let p := Flat.parent cur in
               append_loop fuel' (<[p := parent_node p lft rgt]> m) p
           end
  end.

Definition append (t : MerkleTree) (data : bytes) : run (MerkleTree * N) :=
  let blk := length t in
  let cur := wrap64 (blk * 2) in
  m ← append_loop climb_fuel (<[cur := leaf_node cur data]> (nodes t)) cur;
  Done (mkTree m (wrap64 (blk + 1)), blk).

Definition truncate (t : MerkleTree) (new_len : N) : MerkleTree * bool :=
  if length t <=? new_len then (t, false)
  else (mkTree (filter (λ '(i, _), (Flat.block_range i).2 <= new_len) (nodes t)) new_len, true).

(** *** Roots *)

Definition tree_roots (t : MerkleTree) : run (list Node) :=
  if length t =? 0 then Done []
  else mapM (nodes_at (nodes t)) (Flat.roots_of (length t)).

Definition root_hash (t : MerkleTree) : run bytes := tree_hash <$> tree_roots t.

Definition sum_sizes (l : list Node) : N := foldl (λ a r, wrap64 (a + size r)) 0 l.

Definition byte_length (t : MerkleTree) : run N := sum_sizes <$> tree_roots t.

Definition prefix_roots (t : MerkleTree) (len : N) : option (list Node) :=
  if length t <? len then None
  else mapM (λ i, nodes t !! i) (Flat.roots_of len).

Definition prefix_root_hash (t : MerkleTree) (len : N) : option bytes :=
  tree_hash <$> prefix_roots t len.

Definition try_roots (t : MerkleTree) : option (list Node) :=
  if length t =? 0 then Some []
  else mapM (λ i, nodes t !! i) (Flat.roots_of (length t)).

Definition try_root_hash (t : MerkleTree) : option bytes := tree_hash <$> try_roots t.

(** *** Persistence *)

Definition node_bytes (n : Node) : bytes := le64 (index n) ++ le64 (size n) ++ hash n.

Definition serialize (t : MerkleTree) : bytes :=
  le64 (length t) ++ le64 (lenN (bmap_list (nodes t)))
    ++ concat (map node_bytes (bmap_list (nodes t)).*2).

(** The loop over [count] nodes; a round consumes 48 bytes, so the length of
    the buffer bounds the rounds. *)
Fixpoint deserialize_loop (fuel : nat) (count : N) (bs : bytes) (m : gmap N Node)
    : option (gmap N Node * bytes) :=
  if count =? 0 then Some (m, bs)
  else match fuel with
  | O => None
  | S fuel' =>
      if lenN bs <? 48 then None
      else
        let i := from_le (take 8 bs) in
        let sz := from_le (take 8 (drop 8 bs)) in
        let h := take 32 (drop 16 bs) in
        deserialize_loop fuel' (count - 1) (drop 48 bs) (<[i := mkNode i h sz]> m)
  end.

Definition deserialize (bs : bytes) : option MerkleTree :=
  if lenN bs <? 16 then None
  else
    let len := from_le (take 8 bs) in
    let count := from_le (take 8 (drop 8 bs)) in
    '(m, rest) ← deserialize_loop (List.length bs) count (drop 16 bs) ∅;
    if negb (lenN rest =? 0) then None
    else Some (mkTree m len).

(** *** Comparing and following another tree *)

Definition agree (t other : MerkleTree) (a : N) : bool :=
  (a =? 0) ||
  match prefix_root_hash t a, prefix_root_hash other a with
  | Some x, Some y => bool_decide (x = y)
  | _, _ => false
  end.

(** The binary search; [hi - lo] halves each round. *)
Fixpoint lca_loop (fuel : nat) (p : N -> bool) (lo hi : N) : N :=
  match fuel with
  | O => lo
  | S fuel' =>
      if lo <? hi then
        let mid := (wrap64 (lo + hi) + 1) / 2 in
        if p mid then lca_loop fuel' p mid hi else lca_loop fuel' p lo (mid - 1)
      else lo
  end.

Definition lowest_common_ancestor (t other : MerkleTree) : N :=
  let max := N.min (length t) (length other) in
  lca_loop (N.size_nat max) (agree t other) 0 max.

Definition reorg (t other : MerkleTree) : MerkleTree * N :=
  let ancestors := lowest_common_ancestor t other in
  let t := (truncate t ancestors).1 in
  let m := foldl (λ m '(i, n), <[i := n]> m) (nodes t) (bmap_list (nodes other)) in
  (mkTree m (length other), ancestors).

(** *** Inclusion proofs *)

Fixpoint climb_siblings (fuel : nat) (m : gmap N Node) (root_set : gset N) (cur : N)
    : run (list Node) :=
  match fuel with
  | O => OutOfFuel
  | S fuel' =>
      if bool_decide (cur ∈ root_set) then Done []
      else
        sib ← nodes_at m (Flat.sibling cur);
        rest ← climb_siblings fuel' m root_set (Flat.parent cur);
        Done (sib :: rest)
  end.

Definition index_set (l : list Node) : gset N := list_to_set (index <$> l).

Definition proof (t : MerkleTree) (blk : N) : run (option Proof_) :=
  if length t <=? blk then Done None
  else
    rs ← tree_roots t;
    sibs ← climb_siblings climb_fuel (nodes t) (index_set rs) (wrap64 (blk * 2));
    leaf ← nodes_at (nodes t) (wrap64 (blk * 2));
    Done (Some (mkProof blk (size leaf) sibs rs)).

(** *** Range proofs *)

Definition minN (l : list N) : option N :=
  match l with [] => None | x :: l' => Some (foldl N.min x l') end.

(** The shallowest depth with an active node that is not a root, and those nodes. *)
Definition min_depth (root_set active : gset N) : option N :=
  minN (Flat.depth <$> filter (λ i, i ∉ root_set) (bset_list active)).

Definition level_at (root_set active : gset N) (d : N) : list N :=
  filter (λ i, Flat.depth i = d /\ i ∉ root_set) (bset_list active).

Definition all_roots (root_set active : gset N) : bool :=
  forallb (λ i, bool_decide (i ∈ root_set)) (bset_list active).

Definition range_step (m : gmap N Node) (st : gset N * list Node) (cur : N)
    : run (gset N * list Node) :=
  let '(active, boundary) := st in
  if bool_decide (cur ∉ active) then Done st
  else
    let sib := Flat.sibling cur in
    '(active, boundary) ←
      (if bool_decide (sib ∈ active) then Done (active ∖ {[sib]}, boundary)
       else n ← nodes_at m sib; Done (active, boundary ++ [n]));
    Done ((active ∖ {[cur]}) ∪ {[Flat.parent cur]}, boundary).

Fixpoint range_climb (fuel : nat) (m : gmap N Node) (root_set : gset N)
    (active : gset N) (boundary : list Node) : run (list Node) :=
  match fuel with
  | O => OutOfFuel
  | S fuel' =>
      if all_roots root_set active then Done boundary
      else
        d ← expect (min_depth root_set active);
        '(active, boundary) ← foldM (range_step m) (active, boundary) (level_at root_set active d);
        range_climb fuel' m root_set active boundary
  end.

Definition leaf_indices (start stop : N) : gset N :=
  list_to_set ((λ b, wrap64 (b * 2)) <$> rangeN start stop).

Definition range_proof (t : MerkleTree) (start stop : N) : run (option RangeProof) :=
  if (stop <=? start) || (length t <? stop) then Done None
  else
    rs ← tree_roots t;
    sizes ← mapM (λ b, size <$> nodes_at (nodes t) (wrap64 (b * 2))) (rangeN start stop);
    boundary ← range_climb climb_fuel (nodes t) (index_set rs) (leaf_indices start stop) [];
    Done (Some (mkRangeProof start stop sizes boundary rs)).

(** *** Length-extension proofs *)

(** Every call is on a child, one level down. *)
Fixpoint collect_upgrade (fuel : nat) (m : gmap N Node) (i old : N) (old_root_set : gset N)
    (out : gmap N Node) : run (gmap N Node) :=
  match fuel with
  | O => OutOfFuel
  | S fuel' =>
      let '(first, stop) := Flat.block_range i in
      if stop <=? old then
        if bool_decide (i ∈ old_root_set) then Done out
        else match Flat.children i with
             | Some (l, r) =>
                 out ← collect_upgrade fuel' m l old old_root_set out;
                 collect_upgrade fuel' m r old old_root_set out
             | None => Done out
             end
      else if old <=? first then n ← nodes_at m i; Done (<[i := n]> out)
      else
        '(l, r) ← expect (Flat.children i);
        out ← collect_upgrade fuel' m l old old_root_set out;
        collect_upgrade fuel' m r old old_root_set out
  end.

Definition upgrade_proof (t : MerkleTree) (old new_ : N) : run (option UpgradeProof) :=
  if (old =? 0) || (new_ <=? old) || (length t <? new_) then Done None
  else
    let old_root_set := list_to_set (Flat.roots_of old) in
    out ← foldM (λ out r, collect_upgrade climb_fuel (nodes t) r old old_root_set out)
            ∅ (Flat.roots_of new_);
    Done (Some (mkUpgradeProof old new_ (bmap_list out).*2)).

(** *** Byte offsets *)

Fixpoint seek_descend (fuel : nat) (m : gmap N Node) (i bs : N) : run (N * N) :=
  match fuel with
  | O => OutOfFuel
  | S fuel' =>
      match Flat.children i with
      | None => Done (i / 2, bs)
      | Some (l, r) =>
          lft ← nodes_at m l;
          if bs <? size lft then seek_descend fuel' m l bs
          else seek_descend fuel' m r (bs - size lft)
      end
  end.

Fixpoint seek_roots (t : MerkleTree) (rs : list Node) (remaining : N) : run (N * N) :=
  match rs with
  | [] => Done (length t, remaining)
  | root :: rs' =>
      if remaining <? size root then seek_descend climb_fuel (nodes t) (index root) remaining
      else seek_roots t rs' (remaining - size root)
  end.

Definition seek (t : MerkleTree) (bs : N) : run (N * N) :=
  rs ← tree_roots t; seek_roots t rs bs.

Definition seek_proof (t : MerkleTree) (bs : N) : run (option SeekProof) :=
  '(blk, _) ← seek t bs;
  if length t <=? blk then Done None
  else
    rs ← tree_roots t;
    sibs ← climb_siblings climb_fuel (nodes t) (index_set rs) (wrap64 (blk * 2));
    leaf ← nodes_at (nodes t) (wrap64 (blk * 2));
    Done (Some (mkSeekProof bs leaf sibs rs)).

(** *** Missing nodes and repair *)

Definition has_node (t : MerkleTree) (i : N) : bool := bool_decide (is_Some (nodes t !! i)).

Definition remove_node (t : MerkleTree) (i : N) : MerkleTree * bool :=
  (mkTree (delete i (nodes t)) (length t), has_node t i).

Definition missing_nodes (t : MerkleTree) : list N :=
  if length t =? 0 then []
  else filter (λ i, (Flat.block_range i).2 <= length t /\ nodes t !! i = None)
         (rangeN 0 (wrap64 (2 * length t))).

Definition is_intact (t : MerkleTree) : bool := bool_decide (missing_nodes t = []).

Definition try_append (t : MerkleTree) (data : bytes)
    : run (MerkleTree * result InRepairMode N) :=
  if negb (is_intact t) then Done (t, Err inRepairMode)
  else '(t, b) ← append t data; Done (t, Ok b).

Fixpoint node_siblings (fuel : nat) (m : gmap N Node) (root_set : gset N) (cur : N)
    : run (option (list Node)) :=
  match fuel with
  | O => OutOfFuel
  | S fuel' =>
      if bool_decide (cur ∈ root_set) then Done (Some [])
      else match m !! Flat.sibling cur with
           | None => Done None
           | Some sib =>
               rest ← node_siblings fuel' m root_set (Flat.parent cur);
               Done (option_map (cons sib) rest)
           end
  end.

Definition node_proof (t : MerkleTree) (i : N) : run (option NodeProof) :=
  let '(_, stop) := Flat.block_range i in
  if (length t =? 0) || (length t <? stop) then Done None
  else match nodes t !! i, try_roots t with
       | Some node, Some rs =>
           sibs ← node_siblings climb_fuel (nodes t) (index_set rs) i;
           Done (option_map (λ s, mkNodeProof node s rs) sibs)
       | _, _ => Done None
       end.

(** ** The verifiers *)

(** One round of the climb of [Proof::verify] and [NodeProof::verify]: the
    supplied node must be the sibling of the path node. *)
Definition climb_step (node sib : Node) : option Node :=
  if negb (index sib =? Flat.sibling (index node)) then None
  else
    let p := Flat.parent (index node) in
    Some (if index sib <? index node then parent_node p sib node else parent_node p node sib).

Fixpoint climb (node : Node) (sibs : list Node) : option Node :=
  match sibs with
  | [] => Some node
  | sib :: sibs' => node ← climb_step node sib; climb node sibs'
  end.

(** [roots.iter_mut().find(|r| r.index == i)] and the assignment to the slot. *)
Fixpoint substitute (rs : list Node) (i : N) (node : Node) : option (list Node) :=
  match rs with
  | [] => None
  | r :: rs' => if index r =? i then Some (node :: rs')
                else (r ::.) <$> substitute rs' i node
  end.

Definition NodeProof_verify (p : NodeProof) (expected_root : bytes) : option Node :=
  node ← climb (np_node p) (np_siblings p);
  rs ← substitute (np_roots p) (index node) node;
  if bool_decide (tree_hash rs <> expected_root) then None else Some (np_node p).

Definition recover_node (t : MerkleTree) (p : NodeProof) (expected_root : bytes)
    : MerkleTree * bool :=
  match NodeProof_verify p expected_root with
  | Some node => (mkTree (<[index node := node]> (nodes t)) (length t), true)
  | None => (t, false)
  end.

Definition Proof_verify (p : Proof_) (data expected_root : bytes) : bool :=
  if negb (lenN data =? leaf_size p) then false
  else match climb (leaf_node (wrap64 (block p * 2)) data) (siblings p) with
       | None => false
       | Some node =>
           match substitute (roots p) (index node) node with
           | None => false
           | Some rs => bool_decide (tree_hash rs = expected_root)
           end
       end.

Fixpoint seek_climb (node : Node) (left_sum : N) (sibs : list Node) : option (Node * N) :=
  match sibs with
  | [] => Some (node, left_sum)
  | sib :: sibs' =>
      if negb (index sib =? Flat.sibling (index node)) then None
      else
        let p := Flat.parent (index node) in
        if index sib <? index node
        then seek_climb (parent_node p sib node) (wrap64 (left_sum + size sib)) sibs'
        else seek_climb (parent_node p node sib) left_sum sibs'
  end.

Definition root_left_step (i : N) (st : bool * N) (r : Node) : bool * N :=
  let '(found, sum) := st in
  if index r =? i then (true, sum)
  else if index r <? i then (found, wrap64 (sum + size r)) else (found, sum).

Definition root_left (i : N) (rs : list Node) : bool * N :=
  foldl (root_left_step i) (false, 0) rs.

Definition SeekProof_verify (p : SeekProof) (expected_root : bytes) : option (N * N) :=
  if negb (N.land (index (sp_leaf p)) 1 =? 0) then None
  else
    '(node, left_sum) ← seek_climb (sp_leaf p) 0 (sp_siblings p);
    let '(found, root_left_sum) := root_left (index node) (sp_roots p) in
    if negb found then None
    else
      let cumulative := wrap64 (root_left_sum + left_sum) in
      rs ← substitute (sp_roots p) (index node) node;
      if bool_decide (tree_hash rs <> expected_root) then None
      else if sp_bytes p <? cumulative then None
      else
        let offset := sp_bytes p - cumulative in
        if size (sp_leaf p) <=? offset then None
        else Some (index (sp_leaf p) / 2, offset).

(** The leaves recomputed from the data; [None] when a length disagrees. *)
Fixpoint range_leaves (start : N) (k : N) (blocks : list bytes) (sizes : list N)
    (have : gmap N Node) : option (gmap N Node) :=
  match blocks, sizes with
  | data :: blocks', sz :: sizes' =>
      if negb (lenN data =? sz) then None
      else
        let i := wrap64 ((start + k) * 2) in
        range_leaves start (k + 1) blocks' sizes' (<[i := leaf_node i data]> have)
  | _, _ => Some have
  end.

Definition range_verify_step (table : gmap N Node) (st : option (gset N * gmap N Node)) (cur : N)
    : option (gset N * gmap N Node) :=
  '(active, have) ← st;
  if bool_decide (cur ∉ active) then Some (active, have)
  else
    cur_node ← have !! cur;
    let sib_idx := Flat.sibling cur in
    sib_node ← match have !! sib_idx with Some n => Some n | None => table !! sib_idx end;
    let p := Flat.parent cur in
    let n := if sib_idx <? cur then parent_node p sib_node cur_node
             else parent_node p cur_node sib_node in
    Some (((active ∖ {[cur]}) ∖ {[sib_idx]}) ∪ {[p]}, <[p := n]> have).

(** The guarded climb: [fuel] is what is left of the 256 rounds. *)
Fixpoint range_verify_climb (fuel : nat) (table : gmap N Node) (root_set : gset N)
    (active : gset N) (have : gmap N Node) : option (gset N * gmap N Node) :=
  if all_roots root_set active then Some (active, have)
  else match fuel with
  | O => None
  | S fuel' =>
      match min_depth root_set active with
      | None => Some (active, have)
      | Some d =>
          '(active, have) ← foldl (range_verify_step table) (Some (active, have))
                              (level_at root_set active d);
          range_verify_climb fuel' table root_set active have
      end
  end.

Definition range_substitute (have : gmap N Node) (rs : option (list Node)) (i : N)
    : option (list Node) :=
  rs ← rs;
  n ← have !! i;
  substitute rs i n.

Definition RangeProof_verify (p : RangeProof) (blocks : list bytes) (expected_root : bytes) : bool :=
  if rp_end p <=? rp_start p then false
  else
    let n := rp_end p - rp_start p in
    if negb (lenN blocks =? n) || negb (lenN (leaf_sizes p) =? n) then false
    else
      let res :=
        have ← range_leaves (rp_start p) 0 blocks (leaf_sizes p) ∅;
        let table := foldl (λ m nd, <[index nd := nd]> m) ∅ (rp_nodes p) in
        let root_set := index_set (rp_roots p) in
        '(active, have) ← range_verify_climb 256 table root_set
                            (leaf_indices (rp_start p) (rp_end p)) have;
        foldl (range_substitute have) (Some (rp_roots p)) (bset_list active) in
      match res with
      | None => false
      | Some rs => bool_decide (tree_hash rs = expected_root)
      end.

(** The supplied nodes enter the frontier; [None] is a rejection. *)
Fixpoint upgrade_known (old new_ : N) (l : list Node) (known : gmap N Node)
    : option (gmap N Node) :=
  match l with
  | [] => Some known
  | n :: l' =>
      let '(first, stop) := Flat.block_range (index n) in
      if (first <? old) || (new_ <? stop) then None
      else match known !! index n with
           | Some _ => None
           | None => upgrade_known old new_ l' (<[index n := n]> known)
           end
  end.

(** Two known siblings with an unknown parent; [c] is a key of [known]. *)
Definition upgrade_step (st : gmap N Node * bool) (c : N) : gmap N Node * bool :=
  let '(known, changed) := st in
  let sib := Flat.sibling c in
  let p := Flat.parent c in
  match known !! c, known !! sib, known !! p with
  | Some cn, Some sn, None =>
      (<[p := if sib <? c then parent_node p sn cn else parent_node p cn sn]> known, true)
  | _, _, _ => (known, changed)
  end.

(** [fuel] is what is left of the 4096 rounds. *)
Fixpoint upgrade_climb (fuel : nat) (known : gmap N Node) : option (gmap N Node) :=
  match fuel with
  | O => None
  | S fuel' =>
      let '(known, changed) := foldl upgrade_step (known, false) (bmap_keys known) in
      if changed then upgrade_climb fuel' known else Some known
  end.

Definition UpgradeProof_verify (p : UpgradeProof) (old_roots : list Node) (new_root_hash : bytes)
    : bool :=
  if (old_len p =? 0) || (new_len p <=? old_len p) then false
  else
    let expected_old := Flat.roots_of (old_len p) in
    if negb (bool_decide (index <$> old_roots = expected_old)) then false
    else
      let known := foldl (λ m n, <[index n := n]> m) ∅ old_roots in
      let res :=
        known ← upgrade_known (old_len p) (new_len p) (up_nodes p) known;
        known ← upgrade_climb 4096 known;
        mapM (λ i, known !! i) (Flat.roots_of (new_len p)) in
      match res with
      | None => false
      | Some new_roots => bool_decide (tree_hash new_roots = new_root_hash)
      end.
End Tree.
End Merkle.
