(* ===== verification/MerkleSpec.v ===== *)
(** * The Merkle tree against a reference tree

    [ref blocks d o] is the node over the blocks [o * 2^d .. (o+1) * 2^d],
    defined by recursion on the depth from the blocks alone.  [full_tree blocks
    t] says that a tree of Merkle stores exactly the nodes whose whole range is
    there, each equal to its reference node.  The theorems show that appending
    and truncating keep that relation, that a tree persists exactly, and that
    seeking agrees with a scan of the blocks. *)
From S2P Require Import Prelude Flat Merkle.

Module MerkleSpec.
Import Merkle.

Section Spec.
Context `{Hasher}.

(** The block at a position ([blocks[k]] where [k] is in range). *)
Definition block_at (blocks : list bytes) (k : N) : bytes :=
  default [] (blocks !! N.to_nat k).

Fixpoint ref_node (blocks : list bytes) (d : nat) (o : N) : Node :=
  match d with
  | O => leaf_node (Flat.idx 0 o) (block_at blocks o)
  | S d' => parent_node (Flat.idx (N.of_nat d) o)
              (ref_node blocks d' (2 * o)) (ref_node blocks d' (2 * o + 1))
  end.
Definition ref (blocks : list bytes) (d o : N) : Node := ref_node blocks (N.to_nat d) o.

Definition full_tree (blocks : list bytes) (t : MerkleTree) : Prop :=
  length t = lenN blocks /\
  forall d o, nodes t !! Flat.idx d o =
    if decide (Flat.complete (lenN blocks) d o) then Some (ref blocks d o) else None.

(** The roots of a log, and its root hash, as functions of the blocks. *)
Definition ref_roots (blocks : list bytes) : list Node :=
  (λ i, ref blocks (Flat.depth i) (Flat.offset i)) <$> Flat.roots_of (lenN blocks).
Definition ref_root_hash (blocks : list bytes) : bytes := tree_hash (ref_roots blocks).

(** ** The reference tree *)

Lemma ref_0 blocks o : ref blocks 0 o = leaf_node (Flat.idx 0 o) (block_at blocks o).
Proof. done. Qed.

Lemma ref_S blocks d o :
  ref blocks (d + 1) o =
  parent_node (Flat.idx (d + 1) o) (ref blocks d (2 * o)) (ref blocks d (2 * o + 1)).
Proof.
  unfold ref. replace (N.to_nat (d + 1)) with (S (N.to_nat d)) by lia.
  cbn [ref_node]. do 2 f_equal. lia.
Qed.

Lemma ref_index blocks d o : index (ref blocks d o) = Flat.idx d o.
Proof.
  destruct (N.eq_dec d 0) as [->|Hd]; [done|].
  replace d with (N.pred d + 1) by lia. by rewrite ref_S.
Qed.

(** A node depends on the blocks below it only. *)
Lemma ref_ext b1 b2 d o :
  (forall k, o * 2 ^ d <= k < (o + 1) * 2 ^ d -> block_at b1 k = block_at b2 k) ->
  ref b1 d o = ref b2 d o.
Proof.
  revert o; induction d as [|d IH] using N.peano_ind; intros o Hk.
  - rewrite !ref_0. f_equal. apply Hk. cbn. lia.
  - rewrite <- N.add_1_r in *. rewrite !ref_S. rewrite Flat.pow2_S in Hk.
    pose proof (Flat.pow2_pos d). f_equal; apply IH; intros k ?; apply Hk; nia.
Qed.

Lemma block_at_app_l b1 b2 k : k < lenN b1 -> block_at (b1 ++ b2) k = block_at b1 k.
Proof. unfold block_at, lenN. intros Hk. by rewrite lookup_app_l by lia. Qed.

Lemma block_at_take n b k : k < n -> block_at (take (N.to_nat n) b) k = block_at b k.
Proof. unfold block_at. intros Hk. by rewrite lookup_take_lt by lia. Qed.

Lemma block_at_lookup blocks k :
  k < lenN blocks -> blocks !! N.to_nat k = Some (block_at blocks k).
Proof.
  unfold block_at, lenN. intros Hk.
  destruct (lookup_lt_is_Some_2 blocks (N.to_nat k)) as [b ->]; [lia|done].
Qed.

Lemma ref_app b1 b2 d o : Flat.complete (lenN b1) d o -> ref (b1 ++ b2) d o = ref b1 d o.
Proof. intros Hc. apply ref_ext. intros k Hk. apply block_at_app_l. unfold Flat.complete in Hc. lia. Qed.

Lemma ref_take n b d o : Flat.complete n d o -> ref (take (N.to_nat n) b) d o = ref b d o.
Proof. intros Hc. apply ref_ext. intros k Hk. apply block_at_take. unfold Flat.complete in Hc. lia. Qed.

(** The tree of a list of blocks is unique. *)
Lemma full_tree_unique blocks t1 t2 : full_tree blocks t1 -> full_tree blocks t2 -> t1 = t2.
Proof.
  destruct t1 as [m1 l1], t2 as [m2 l2]; intros [E1 H1] [E2 H2]; simpl in *. f_equal; [|congruence].
  apply map_eq. intros i. destruct (Flat.idx_exists i) as (d & o & ->). by rewrite H1, H2.
Qed.

Lemma full_tree_new : full_tree [] new.
Proof.
  split; [done|]. intros d o. cbn [new nodes]. rewrite lookup_empty, decide_False; [done|].
  unfold Flat.complete. change (lenN []) with 0. pose proof (Flat.pow2_pos d). nia.
Qed.

Lemma full_lookup blocks t d o :
  full_tree blocks t -> Flat.complete (lenN blocks) d o -> nodes t !! Flat.idx d o = Some (ref blocks d o).
Proof. intros [_ Hf] Hc. by rewrite Hf, decide_True. Qed.

Lemma full_lookup_inv blocks t i n :
  full_tree blocks t -> nodes t !! i = Some n ->
  exists d o, i = Flat.idx d o /\ Flat.complete (lenN blocks) d o /\ n = ref blocks d o.
Proof.
  intros [_ Hf]. destruct (Flat.idx_exists i) as (d & o & ->). rewrite Hf.
  case_decide; [|done]. intros [= <-]. by exists d, o.
Qed.

(** ** Appending *)

(** Midway through the climb of an append: the levels up to [d] are those of
    the longer log, the ones above still those of the shorter. *)
Definition climbing (blocks : list bytes) (n : N) (d : N) (m : gmap N Node) : Prop :=
  forall e p, m !! Flat.idx e p =
    if decide (Flat.complete (if e <=? d then n + 1 else n) e p)
    then Some (ref blocks e p) else None.

(** Past the last completed node, both lengths complete the same nodes. *)
Lemma complete_last n d o e p :
  (o + 1) * 2 ^ d = n + 1 -> N.even o = true -> d < e ->
  Flat.complete (n + 1) e p <-> Flat.complete n e p.
Proof.
  intros En Ho He. unfold Flat.complete. split; [|lia]. intros Hc.
  destruct (N.eq_dec ((p + 1) * 2 ^ e) (n + 1)) as [E|?]; [exfalso|lia].
  rewrite <- En, (Flat.pow2_split e (d + 1)), Flat.pow2_S in E by lia.
  apply N.even_spec in Ho as [q ->]. pose proof (Flat.pow2_pos d).
  assert (2 * ((p + 1) * 2 ^ (e - (d + 1))) = 2 * q + 1) by nia. lia.
Qed.

Lemma complete_above n d o p :
  (o + 1) * 2 ^ d = n + 1 -> p <> o / 2 -> N.even o = false ->
  Flat.complete (n + 1) (d + 1) p <-> Flat.complete n (d + 1) p.
Proof.
  intros En Hp Ho. unfold Flat.complete. split; [|lia]. intros Hc.
  destruct (N.eq_dec ((p + 1) * 2 ^ (d + 1)) (n + 1)) as [E|?]; [exfalso|lia].
  rewrite <- En, Flat.pow2_S in E. pose proof (Flat.pow2_pos d).
  apply Hp. assert (E2 : o + 1 = (p + 1) * 2) by nia.
  replace o with (1 + p * 2) by lia. by rewrite N.div_add.
Qed.

Lemma append_loop_spec blocks n d o m f :
  (o + 1) * 2 ^ d = n + 1 -> n < Flat.max_blocks -> climbing blocks n d m ->
  64 <= N.of_nat f + d ->
  exists m', append_loop f m (Flat.idx d o) = Done m' /\
    forall e p, m' !! Flat.idx e p =
      if decide (Flat.complete (n + 1) e p) then Some (ref blocks e p) else None.
Proof.
  revert d o m; induction f as [|f IH]; intros d o m En Hn Hm Hf.
  all: assert (Hsm : Flat.small d o) by (unfold Flat.small; lia).
  all: pose proof (Flat.small_depth d o Hsm) as Hd; pose proof (Flat.small_fits d o Hsm) as Hfit.
  { lia. }
  cbn [append_loop]. destruct (N.even o) eqn:Ho.
  - rewrite Flat.sibling_even by done.
    rewrite (proj2 (N.ltb_lt _ _)) by (apply Flat.idx_lt_mono; lia).
    exists m. split; [done|]. intros e p. rewrite Hm.
    destruct (N.leb_spec e d); [done|].
    apply decide_ext. symmetry. by apply (complete_last n d o).
  - destruct (Flat.odd_half o Ho) as [E1 E2].
    rewrite Flat.sibling_odd, Flat.parent_idx by done.
    rewrite (proj2 (N.ltb_ge _ _)) by (apply N.lt_le_incl, Flat.idx_lt_mono; lia).
    rewrite Hm, N.leb_refl, decide_True by (unfold Flat.complete; nia). unfold nodes_at.
    rewrite Hm, N.leb_refl, decide_True by (unfold Flat.complete; lia). rsimpl.
    apply IH; [rewrite Flat.pow2_S; nia|done| |lia].
    intros e p. destruct (decide (Flat.idx e p = Flat.idx (d + 1) (o / 2))) as [Ei|Ei].
    + rewrite Ei, lookup_insert_eq. apply Flat.idx_inj in Ei as [-> ->].
      rewrite N.leb_refl, decide_True by (unfold Flat.complete; rewrite Flat.pow2_S; nia).
      by rewrite ref_S, E2, E1.
    + rewrite lookup_insert_ne, Hm by done.
      destruct (N.leb_spec e d), (N.leb_spec e (d + 1)); try lia; [done| |done].
      assert (e = d + 1) as -> by lia. apply decide_ext. symmetry.
      apply (complete_above n d o); [done| |done]. congruence.
Qed.

Lemma append_full blocks t data :
  full_tree blocks t -> lenN blocks < Flat.max_blocks ->
  exists t', append t data = Done (t', lenN blocks) /\ full_tree (blocks ++ [data]) t'.
Proof.
  intros [El Hf] Hn. set (n := lenN blocks) in *.
  assert (Hmax : Flat.max_blocks * 2 < two64) by done.
  unfold append. rewrite El, (wrap64_small (n * 2)), (wrap64_small (n + 1)) by lia.
  replace (n * 2) with (Flat.idx 0 n) by (rewrite Flat.idx_0; lia).
  destruct (append_loop_spec (blocks ++ [data]) n 0 n
              (<[Flat.idx 0 n := leaf_node (Flat.idx 0 n) data]> (nodes t)) climb_fuel)
    as (m' & -> & Hm'); [rewrite N.pow_0_r; lia|done| |by vm_compute|].
  - intros e p. destruct (decide (Flat.idx e p = Flat.idx 0 n)) as [E|E].
    + rewrite E, lookup_insert_eq. apply Flat.idx_inj in E as [-> ->].
      rewrite N.leb_refl, decide_True by (apply Flat.complete_0; lia).
      rewrite ref_0. do 2 f_equal. unfold block_at, n, lenN.
      rewrite Nat2N.id, lookup_app_r, Nat.sub_diag by lia. done.
    + rewrite lookup_insert_ne, Hf by done. fold n.
      assert (Hc : Flat.complete (if e <=? 0 then n + 1 else n) e p <-> Flat.complete n e p).
      { destruct (N.leb_spec e 0); [|done]. assert (e = 0) as -> by lia.
        rewrite !Flat.complete_0. split; [|lia]. intros ?.
        destruct (N.eq_dec p n) as [->|?]; [done|lia]. }
      destruct (decide (Flat.complete n e p)) as [C|C].
      * rewrite decide_True by (by apply Hc). f_equal. symmetry. by apply ref_app.
      * rewrite decide_False; [done|]. by intros ?%Hc.
  - eexists. split; [done|]. split; cbn; by rewrite lenN_snoc.
Qed.

(** Building a log from nothing. *)
Definition append_all (t : MerkleTree) (blocks : list bytes) : run MerkleTree :=
  foldM (λ t b, fst <$> append t b) t blocks.

(** ** Truncating *)

Lemma truncate_full blocks t k :
  full_tree blocks t -> lenN blocks <= Flat.max_blocks -> k < lenN blocks ->
  exists t', truncate t k = (t', true) /\ full_tree (take (N.to_nat k) blocks) t'.
Proof.
  intros [El Hf] Hn Hk. unfold truncate. rewrite El, (proj2 (N.leb_gt _ _)) by done.
  eexists. split; [done|].
  assert (Elen : lenN (take (N.to_nat k) blocks) = k) by (unfold lenN in *; rewrite length_take; lia).
  split; rewrite Elen; [done|]. intros d o. cbn [nodes]. rewrite map_lookup_filter, Hf.
  destruct (decide (Flat.complete (lenN blocks) d o)) as [C|C]; cbn [mbind option_bind].
  - assert (Hfit : Flat.fits d o) by (eapply Flat.small_fits, Flat.complete_small; eauto).
    assert (Er : (Flat.block_range (Flat.idx d o)).2 = (o + 1) * 2 ^ d)
      by (by rewrite Flat.block_range_idx).
    destruct (decide (Flat.complete k d o)) as [C'|C'].
    + rewrite option_guard_True by (by rewrite Er). rsimpl. by rewrite ref_take.
    + rewrite option_guard_False; [done|]. by rewrite Er.
  - rewrite decide_False; [done|]. unfold Flat.complete in *. lia.
Qed.
(** ** Roots *)

Definition ref_at (blocks : list bytes) (i : N) : Node :=
  ref blocks (Flat.depth i) (Flat.offset i).

Lemma ref_at_idx blocks d o : Flat.fits d o -> ref_at blocks (Flat.idx d o) = ref blocks d o.
Proof. intros Hf. unfold ref_at. by rewrite Flat.depth_idx, Flat.offset_idx. Qed.

Lemma ref_at_index blocks i : index (ref_at blocks i) = i \/ u64_max <= i.
Proof.
  destruct (Flat.idx_exists i) as (d & o & ->).
  destruct (N.lt_ge_cases (Flat.idx d o) u64_max) as [L|?]; [left|by right].
  rewrite ref_at_idx, ref_index; [done|]. unfold Flat.fits. rewrite <- Flat.idx_succ.
  unfold u64_max, two64 in *. lia.
Qed.

Lemma roots_complete n i :
  n <= Flat.max_blocks -> i ∈ Flat.roots_of n ->
  exists d o, i = Flat.idx d o /\ Flat.complete n d o /\ Flat.fits d o.
Proof.
  intros Hn Hi. destruct (Flat.idx_exists i) as (d & o & ->). exists d, o.
  apply Flat.roots_of_spec in Hi as [Hc _]; [|done]. split_and!; [done|done|].
  by eapply Flat.small_fits, Flat.complete_small.
Qed.

Lemma full_lookup_root blocks t i :
  full_tree blocks t -> lenN blocks <= Flat.max_blocks -> i ∈ Flat.roots_of (lenN blocks) ->
  nodes t !! i = Some (ref_at blocks i).
Proof.
  intros Hf Hn Hi. destruct (roots_complete _ _ Hn Hi) as (d & o & -> & Hc & Hfit).
  rewrite ref_at_idx by done. by apply full_lookup.
Qed.

Lemma tree_roots_full blocks t :
  full_tree blocks t -> lenN blocks <= Flat.max_blocks -> tree_roots t = Done (ref_roots blocks).
Proof.
  intros Hf Hn. unfold tree_roots. destruct Hf as [El Hf]. rewrite El.
  destruct (N.eqb_spec (lenN blocks) 0) as [E|_].
  { unfold ref_roots. rewrite E. done. }
  apply mapM_Done. intros i Hi. unfold nodes_at. by rewrite (full_lookup_root blocks).
Qed.

Lemma try_roots_full blocks t :
  full_tree blocks t -> lenN blocks <= Flat.max_blocks -> try_roots t = Some (ref_roots blocks).
Proof.
  intros Hf Hn. unfold try_roots. destruct Hf as [El Hf]. rewrite El.
  destruct (N.eqb_spec (lenN blocks) 0) as [E|_].
  { unfold ref_roots. rewrite E. done. }
  apply mapM_Some_ext. intros i Hi. by rewrite (full_lookup_root blocks).
Qed.

Lemma root_hash_full blocks t :
  full_tree blocks t -> lenN blocks <= Flat.max_blocks -> root_hash t = Done (ref_root_hash blocks).
Proof. intros Hf Hn. unfold root_hash. by rewrite (tree_roots_full blocks). Qed.

(** The roots of a prefix are those a log of the prefix alone has. *)
Lemma prefix_roots_full blocks t k :
  full_tree blocks t -> lenN blocks <= Flat.max_blocks -> k <= lenN blocks ->
  prefix_roots t k = Some (ref_roots (take (N.to_nat k) blocks)).
Proof.
  intros Hf Hn Hk. unfold prefix_roots. destruct Hf as [El Hf]. rewrite El, (proj2 (N.ltb_ge _ _)) by done.
  unfold ref_roots. rewrite lenN_take by done. apply mapM_Some_ext. intros i Hi.
  destruct (roots_complete k i) as (d & o & -> & Hc & Hfit); [lia|done|].
  rewrite Hf, decide_True, Flat.depth_idx, Flat.offset_idx by (done || unfold Flat.complete in *; lia).
  by rewrite ref_take.
Qed.

(** ** Byte sizes *)

(** The bytes before block [k], and in the whole log. *)
Definition cum (blocks : list bytes) (k : N) : N :=
  foldr (λ b a, lenN b + a) 0 (take (N.to_nat k) blocks).
Definition total_bytes (blocks : list bytes) : N := cum blocks (lenN blocks).

Lemma foldr_len_app b1 b2 :
  foldr (λ b a, lenN b + a) 0 (b1 ++ b2 : list bytes) =
  foldr (λ b a, lenN b + a) 0 b1 + foldr (λ b a, lenN b + a) 0 b2.
Proof. induction b1 as [|b b1 IH]; cbn; [done|]. rewrite IH. lia. Qed.

Lemma cum_0 blocks : cum blocks 0 = 0.
Proof. done. Qed.

Lemma cum_succ blocks k : cum blocks (k + 1) = cum blocks k + lenN (block_at blocks k).
Proof.
  unfold cum, block_at. replace (N.to_nat (k + 1)) with (S (N.to_nat k)) by lia.
  destruct (blocks !! N.to_nat k) as [b|] eqn:E.
  - rewrite (take_S_r _ _ b), foldr_len_app by done. cbn. lia.
  - apply lookup_ge_None in E. rewrite !take_ge by lia. cbn. symmetry. apply N.add_0_r.
Qed.

Lemma cum_mono blocks a b : a <= b -> cum blocks a <= cum blocks b.
Proof.
  intros Hab. replace b with (a + (b - a)) by lia. generalize (b - a). intros c.
  induction c as [|c IH] using N.peano_ind; [by rewrite N.add_0_r|].
  replace (a + N.succ c) with (a + c + 1) by lia. rewrite cum_succ. lia.
Qed.

Lemma cum_total blocks k : k <= lenN blocks -> cum blocks k <= total_bytes blocks.
Proof. apply cum_mono. Qed.

Lemma ref_size blocks d o :
  total_bytes blocks < two64 -> Flat.complete (lenN blocks) d o ->
  size (ref blocks d o) = cum blocks ((o + 1) * 2 ^ d) - cum blocks (o * 2 ^ d).
Proof.
  intros Ht. revert o; induction d as [|d IH] using N.peano_ind; intros o Hc.
  - rewrite ref_0, N.pow_0_r, !N.mul_1_r, cum_succ. cbn. lia.
  - rewrite <- N.add_1_r in *. unfold Flat.complete in *. rewrite Flat.pow2_S in *.
    rewrite ref_S. cbn [parent_node size]. rewrite !IH by nia.
    replace (2 * o * 2 ^ d) with (o * (2 * 2 ^ d)) by lia.
    replace ((2 * o + 1 + 1) * 2 ^ d) with ((o + 1) * (2 * 2 ^ d)) by lia.
    assert (cum blocks (o * (2 * 2 ^ d)) <= cum blocks ((2 * o + 1) * 2 ^ d)) by (apply cum_mono; lia).
    assert (cum blocks ((2 * o + 1) * 2 ^ d) <= cum blocks ((o + 1) * (2 * 2 ^ d))) by (apply cum_mono; lia).
    pose proof (cum_total blocks _ Hc).
    rewrite wrap64_small; lia.
Qed.

(** ** Seeking *)

(** The scan of the blocks one by one. *)
Fixpoint seek_linear (blocks : list bytes) (k x : N) : N * N :=
  match blocks with
  | [] => (k, x)
  | b :: blocks' => if x <? lenN b then (k, x) else seek_linear blocks' (k + 1) (x - lenN b)
  end.

Lemma seek_linear_spec blocks k x i :
  i < lenN blocks -> cum blocks i <= x < cum blocks (i + 1) ->
  seek_linear blocks k x = (k + i, x - cum blocks i).
Proof.
  revert k x i; induction blocks as [|b blocks IH]; intros k x i Hi Hx; [by apply N.nlt_0_r in Hi|].
  assert (Hcons : forall j, cum (b :: blocks) (j + 1) = lenN b + cum blocks j).
  { intros j. unfold cum. by replace (N.to_nat (j + 1)) with (S (N.to_nat j)) by lia. }
  cbn [seek_linear]. destruct (N.eq_dec i 0) as [->|Hne].
  - rewrite Hcons, !cum_0 in *. destruct (N.ltb_spec x (lenN b)); [|lia]. f_equal; lia.
  - replace i with (N.pred i + 1) in * by lia. rewrite !Hcons in *.
    destruct (N.ltb_spec x (lenN b)); [lia|].
    rewrite (IH _ _ (N.pred i)); [f_equal; lia| |lia]. unfold lenN in *. cbn in Hi. lia.
Qed.

Lemma seek_linear_past blocks k x :
  total_bytes blocks <= x -> seek_linear blocks k x = (k + lenN blocks, x - total_bytes blocks).
Proof.
  unfold total_bytes, cum. rewrite take_ge by (unfold lenN; lia).
  revert k x; induction blocks as [|b blocks IH]; intros k x Hx; cbn [seek_linear foldr] in *.
  - f_equal; [symmetry; apply N.add_0_r|lia].
  - destruct (N.ltb_spec x (lenN b)); [lia|]. rewrite IH by lia. f_equal; [|lia].
    unfold lenN. cbn. lia.
Qed.

Lemma seek_descend_spec blocks t d o f x :
  full_tree blocks t -> lenN blocks <= Flat.max_blocks -> total_bytes blocks < two64 ->
  Flat.complete (lenN blocks) d o -> (N.to_nat d < f)%nat ->
  x < cum blocks ((o + 1) * 2 ^ d) - cum blocks (o * 2 ^ d) ->
  exists i, seek_descend f (nodes t) (Flat.idx d o) x = Done (i, cum blocks (o * 2 ^ d) + x - cum blocks i)
    /\ i < lenN blocks /\ cum blocks i <= cum blocks (o * 2 ^ d) + x < cum blocks (i + 1).
Proof.
  intros Ht Hn Hb. revert o f x; induction d as [|d IH] using N.peano_ind; intros o f x Hc Hf Hx.
  all: destruct f as [|f]; [lia|]; cbn [seek_descend].
  - rewrite Flat.children_leaf, Flat.idx_0, N.mul_comm, N.div_mul by done.
    rewrite N.pow_0_r, !N.mul_1_r in *. apply Flat.complete_0 in Hc.
    exists o. split_and!; [f_equal; f_equal; lia|done|lia|lia].
  - rewrite <- N.add_1_r in *.
    rewrite Flat.children_idx by (by eapply Flat.small_fits, Flat.complete_small).
    unfold Flat.complete in Hc. rewrite Flat.pow2_S in *. pose proof (Flat.pow2_pos d).
    replace ((o + 1) * (2 * 2 ^ d)) with ((2 * o + 1 + 1) * 2 ^ d) in * by lia.
    replace (o * (2 * 2 ^ d)) with (2 * o * 2 ^ d) in * by lia.
    assert (Hl : Flat.complete (lenN blocks) d (2 * o)) by (unfold Flat.complete; nia).
    unfold nodes_at. rewrite (full_lookup blocks) by done. rsimpl.
    rewrite ref_size by done.
    assert (cum blocks (2 * o * 2 ^ d) <= cum blocks ((2 * o + 1) * 2 ^ d)) by (apply cum_mono; lia).
    destruct (N.ltb_spec x (cum blocks ((2 * o + 1) * 2 ^ d) - cum blocks (2 * o * 2 ^ d))) as [L|G].
    + by apply IH; [|lia|].
    + destruct (IH (2 * o + 1) f (x - (cum blocks ((2 * o + 1) * 2 ^ d) - cum blocks (2 * o * 2 ^ d))))
        as (i & -> & Hi & Hci); [done|lia|lia|].
      exists i. split_and!; [f_equal; f_equal; lia|done|lia|lia].
Qed.

Lemma seek_roots_spec blocks t off n l x :
  full_tree blocks t -> lenN blocks <= Flat.max_blocks -> total_bytes blocks < two64 ->
  Flat.root_chain off n l -> off + n = lenN blocks -> cum blocks off <= x ->
  seek_roots t ((λ '(d, o), ref blocks d o) <$> l) (x - cum blocks off) = Done (seek_linear blocks 0 x).
Proof.
  intros Ht Hn Hb Hc. induction Hc as [off|n k o l Hn0 Hk Hl IH]; intros Eoff Hx; cbn [seek_roots fmap list_fmap].
  - rewrite N.add_0_r in Eoff. subst off. rewrite seek_linear_past by done.
    destruct Ht as [-> _]. done.
  - destruct (N.log2_spec n) as [Hlo _]; [lia|]. rewrite <- Hk in Hlo.
    assert (Hcmp : Flat.complete (lenN blocks) k o) by (unfold Flat.complete; lia).
    rewrite ref_size, ref_index by done.
    assert (cum blocks (o * 2 ^ k) <= cum blocks ((o + 1) * 2 ^ k)) by (apply cum_mono; lia).
    destruct (N.ltb_spec (x - cum blocks (o * 2 ^ k))
                (cum blocks ((o + 1) * 2 ^ k) - cum blocks (o * 2 ^ k))) as [L|G].
    + assert (k <= 62) by (by eapply Flat.small_depth, Flat.complete_small).
      destruct (seek_descend_spec blocks t k o climb_fuel (x - cum blocks (o * 2 ^ k)))
        as (i & -> & Hi & Hci); [done..|unfold climb_fuel; lia|done|].
      rewrite (seek_linear_spec blocks 0 x i) by (done || lia). f_equal; f_equal; lia.
    + replace (x - cum blocks (o * 2 ^ k) - (cum blocks ((o + 1) * 2 ^ k) - cum blocks (o * 2 ^ k)))
        with (x - cum blocks ((o + 1) * 2 ^ k)) by lia.
      apply IH; lia.
Qed.

Lemma ref_roots_chain blocks :
  lenN blocks <= Flat.max_blocks ->
  exists l, ref_roots blocks = (λ '(d, o), ref blocks d o) <$> l /\
            Flat.roots_of (lenN blocks) = map (λ '(d, o), Flat.idx d o) l /\
            Flat.root_chain 0 (lenN blocks) l.
Proof.
  intros Hn. destruct (Flat.roots_of_chain _ Hn) as (l & El & Hc). exists l. split; [|done].
  unfold ref_roots. rewrite El. cbn. rewrite <- list_fmap_compose. apply list_fmap_ext.
  intros ? [d o] Hl. cbn. apply list_elem_of_lookup_2 in Hl.
  destruct (Flat.root_chain_bounds _ _ _ _ _ Hc Hl).
  apply ref_at_idx, Flat.small_fits. unfold Flat.small. lia.
Qed.

Lemma seek_full blocks t x :
  full_tree blocks t -> lenN blocks <= Flat.max_blocks -> total_bytes blocks < two64 ->
  seek t x = Done (seek_linear blocks 0 x).
Proof.
  intros Ht Hn Hb. unfold seek. rewrite (tree_roots_full blocks) by done. rsimpl.
  destruct (ref_roots_chain blocks Hn) as (l & -> & _ & Hc).
  rewrite <- (N.sub_0_r x) at 1. change 0 with (cum blocks 0) at 1.
  eapply seek_roots_spec; try done. rewrite cum_0. lia.
Qed.
(** ** Persistence *)

(** What the types of the source guarantee of a stored node. *)
Definition node_ok (n : Node) : Prop :=
  u64_ok (index n) /\ u64_ok (size n) /\ List.length (hash n) = 32%nat.

Definition tree_ok (t : MerkleTree) : Prop :=
  u64_ok (length t) /\ u64_ok (lenN (bmap_list (nodes t))) /\
  map_Forall (λ i n, index n = i /\ node_ok n) (nodes t).

Lemma node_bytes_length n : List.length (hash n) = 32%nat -> List.length (node_bytes n) = 48%nat.
Proof. intros E. unfold node_bytes. by rewrite !length_app, !to_le_length, E. Qed.

Lemma read_node n rest :
  node_ok n ->
  let bs := node_bytes n ++ rest in
  (lenN bs <? 48) = false /\ from_le (take 8 bs) = index n /\
  from_le (take 8 (drop 8 bs)) = size n /\ take 32 (drop 16 bs) = hash n /\ drop 48 bs = rest.
Proof.
  intros (Hi & Hs & Hh) bs. subst bs. split.
  { apply N.ltb_ge. unfold lenN. rewrite length_app, node_bytes_length by done. lia. }
  unfold node_bytes. rewrite <- !app_assoc.
  rewrite take_app_length', drop_app_length', take_app_length' by (by rewrite to_le_length).
  rewrite !from_le64 by done. split_and!; [done..| |].
  - rewrite app_assoc, drop_app_length' by (by rewrite length_app, !to_le_length).
    by rewrite take_app_length'.
  - rewrite !app_assoc, drop_app_length'; [done|]. by rewrite !length_app, !to_le_length, Hh.
Qed.

Lemma deserialize_loop_spec f l rest m :
  Forall (λ '(i, n), index n = i /\ node_ok n) l -> (List.length l <= f)%nat ->
  deserialize_loop f (lenN l) (concat (map node_bytes l.*2) ++ rest) m =
  Some (foldl (λ m '(i, n), <[i := n]> m) m l, rest).
Proof.
  revert f m; induction l as [|[i n] l IH]; intros f m Hl Hf.
  - by destruct f.
  - apply Forall_cons in Hl as [[<- Hn] Hl]. destruct f as [|f]; cbn in Hf; [lia|].
    cbn [deserialize_loop]. rewrite lenN_cons.
    destruct (N.eqb_spec (lenN l + 1) 0); [lia|]. rewrite N.add_sub. cbn [fmap list_fmap map concat snd].
    rewrite <- app_assoc.
    destruct (read_node n (concat (map node_bytes l.*2) ++ rest) Hn) as (-> & -> & -> & -> & ->).
    rewrite IH by (done || lia). cbn. by destruct n.
Qed.

Lemma tree_ok_entries t : tree_ok t -> Forall (λ '(i, n), index n = i /\ node_ok n) (bmap_list (nodes t)).
Proof.
  intros (_ & _ & Hm). apply Forall_forall. intros [i n] Hin%bmap_list_elem. by apply Hm.
Qed.

Lemma concat_nodes_length l :
  Forall (λ '(i, n), index n = i /\ node_ok n) l ->
  (List.length l <= List.length (concat (map node_bytes l.*2)))%nat.
Proof.
  induction 1 as [|[i n] l [_ (_ & _ & Hh)] _ IH]; [done|].
  cbn [fmap list_fmap map concat snd List.length] in *. rewrite length_app, node_bytes_length by done. lia.
Qed.

Lemma deserialize_serialize t : tree_ok t -> deserialize (serialize t) = Some t.
Proof.
  intros Hok. pose proof (tree_ok_entries t Hok) as He. destruct Hok as (Hl & Hc & _).
  pose proof (concat_nodes_length _ He).
  unfold deserialize, serialize.
  set (body := concat (map node_bytes (bmap_list (nodes t)).*2)) in *.
  assert (E16 : drop 16 (le64 (length t) ++ le64 (lenN (bmap_list (nodes t))) ++ body) = body)
    by (rewrite app_assoc; apply drop_app_length'; by rewrite length_app, !to_le_length).
  rewrite E16, take_app_length', drop_app_length', take_app_length' by (by rewrite to_le_length).
  rewrite !from_le64 by done.
  rewrite (proj2 (N.ltb_ge _ _)) by (unfold lenN; rewrite !length_app, !to_le_length; lia).
  rewrite <- (app_nil_r body) at 2. unfold body.
  rewrite deserialize_loop_spec; [rsimpl|done|fold body; rewrite !length_app, !to_le_length; lia].
  rewrite foldl_insert_bmap, (right_id_L ∅ (∪)). by destruct t.
Qed.

(** ** Missing nodes *)

Lemma complete_bound n d o : Flat.complete n d o -> Flat.idx d o < 2 * n.
Proof. unfold Flat.complete. pose proof (Flat.idx_succ d o). pose proof (Flat.pow2_pos d). nia. Qed.

Lemma missing_nodes_spec t d o :
  length t <= Flat.max_blocks ->
  Flat.idx d o ∈ missing_nodes t <-> Flat.complete (length t) d o /\ nodes t !! Flat.idx d o = None.
Proof.
  intros Hn. assert (2 * length t < two64) by (assert (2 * Flat.max_blocks < two64) by done; lia).
  unfold missing_nodes. destruct (N.eqb_spec (length t) 0) as [->|Hz].
  { split; [by intros ?%elem_of_nil|]. intros [Hc%complete_bound _]. lia. }
  rewrite wrap64_small by done. rewrite list_elem_of_filter, elem_of_rangeN. split.
  - intros [[Hr Hm] [_ Hi]]. split; [|done].
    assert (Hf : Flat.fits d o) by (unfold Flat.fits; rewrite <- Flat.idx_succ; lia).
    by rewrite Flat.block_range_idx in Hr.
  - intros [Hc Hm]. pose proof (complete_bound _ _ _ Hc).
    split; [|lia]. split; [|done]. rewrite Flat.block_range_idx; [done|].
    by eapply Flat.small_fits, Flat.complete_small.
Qed.

Lemma is_intact_spec t :
  length t <= Flat.max_blocks ->
  is_intact t = true <->
  forall d o, Flat.complete (length t) d o -> is_Some (nodes t !! Flat.idx d o).
Proof.
  intros Hn. unfold is_intact. rewrite bool_decide_eq_true. split.
  - intros Hm d o Hc. apply not_eq_None_Some. intros E.
    assert (Hin : Flat.idx d o ∈ missing_nodes t) by (by apply missing_nodes_spec).
    rewrite Hm in Hin. by apply elem_of_nil in Hin.
  - intros Hall. apply elem_of_nil_inv. intros i. destruct (Flat.idx_exists i) as (d & o & ->).
    rewrite missing_nodes_spec by done. intros [Hc%Hall E]. rewrite E in Hc. by destruct Hc.
Qed.

Lemma full_intact blocks t :
  full_tree blocks t -> lenN blocks <= Flat.max_blocks -> is_intact t = true.
Proof.
  intros [El Hf] Hn. apply is_intact_spec; rewrite El; [done|].
  intros d o Hc. rewrite Hf, decide_True by done. eauto.
Qed.

(** ** Building blocks of a well-typed tree *)

Context `{!HasherLaws}.

Definition blocks_ok (blocks : list bytes) : Prop := Forall (λ b, u64_ok (lenN b)) blocks.

Lemma block_at_ok blocks k : blocks_ok blocks -> u64_ok (lenN (block_at blocks k)).
Proof.
  intros Hb. unfold block_at. destruct (blocks !! _) as [b|] eqn:E; [|done].
  by eapply Forall_lookup in Hb.
Qed.

Lemma ref_ok blocks d o : blocks_ok blocks -> Flat.fits d o -> node_ok (ref blocks d o).
Proof.
  intros Hb Hf. split; [|split].
  - rewrite ref_index. unfold u64_ok, Flat.fits in *. rewrite <- Flat.idx_succ in Hf. lia.
  - destruct (N.eq_dec d 0) as [->|?]; [by apply block_at_ok|].
    replace d with (N.pred d + 1) by lia. rewrite ref_S. apply wrap64_lt.
  - destruct (N.eq_dec d 0) as [->|?]; [apply blake3_length|].
    replace d with (N.pred d + 1) by lia. rewrite ref_S. apply blake3_length.
Qed.

Lemma full_nodes_bound blocks t :
  full_tree blocks t -> lenN (bmap_list (nodes t)) <= 2 * lenN blocks.
Proof.
  intros Hf. unfold lenN at 1. rewrite <- (length_fmap fst).
  assert (Hsub : (bmap_list (nodes t)).*1 ⊆+ rangeN 0 (2 * lenN blocks)).
  { apply NoDup_submseteq; [apply bmap_list_nodup|]. intros i Hi.
    rewrite bmap_list_keys, bmap_keys_elem in Hi. destruct Hi as [n Hn].
    destruct (full_lookup_inv _ _ _ _ Hf Hn) as (d & o & -> & Hc & _).
    apply elem_of_rangeN. apply complete_bound in Hc. lia. }
  apply submseteq_length in Hsub. rewrite rangeN_length in Hsub. lia.
Qed.

Lemma full_tree_ok blocks t :
  full_tree blocks t -> lenN blocks <= Flat.max_blocks -> blocks_ok blocks -> tree_ok t.
Proof.
  intros Hf Hn Hb. assert (2 * Flat.max_blocks < two64) by done.
  pose proof (full_nodes_bound _ _ Hf). split; [|split].
  - destruct Hf as [-> _]. unfold u64_ok. lia.
  - unfold u64_ok. lia.
  - intros i n Hi. destruct (full_lookup_inv _ _ _ _ Hf Hi) as (d & o & -> & Hc & ->).
    split; [apply ref_index|]. apply ref_ok; [done|].
    by eapply Flat.small_fits, Flat.complete_small.
Qed.
End Spec.
End MerkleSpec.
