(* ===== verification/MerkleProofs.v ===== *)
(** * The proof verifiers of the Merkle tree

    Completeness: the proof an intact tree makes verifies against its root
    hash.  Soundness: whatever an untrusted peer sends, a proof that verifies
    against the root hash of a log is about a block of that log.  The only
    assumption on BLAKE3 beyond its output length is that it does not collide
    on the inputs hashed while building the tree and while checking the proof
    at hand ([collision_free] on that explicit finite list). *)
From S2P Require Import Prelude Flat Merkle MerkleSpec.

Module MerkleProofs.
Import Merkle MerkleSpec.

Section Proofs.
Context `{Hasher}.

(** ** Collisions *)

Definition collision_free (l : list bytes) : Prop :=
  forall x y, x ∈ l -> y ∈ l -> blake3 x = blake3 y -> x = y.

Definition collision_freeb (l : list bytes) : bool :=
  let hs := (λ x, (from_le (blake3 x), x)) <$> l in
  forallb (λ x, forallb (λ y, negb (x.1 =? y.1) || bool_decide (x.2 = y.2)) hs) hs.

(** The inputs hashed to build the tree of a log and of all its prefixes. *)
Definition parent_input_at (blocks : list bytes) (i : N) : option bytes :=
  if (Flat.block_range i).2 <=? lenN blocks
  then (λ '(l, r), parent_input (ref_at blocks l) (ref_at blocks r)) <$> Flat.children i
  else None.

Definition hash_inputs (blocks : list bytes) : list bytes :=
  (leaf_input <$> blocks)
    ++ omap (parent_input_at blocks) (rangeN 0 (2 * lenN blocks))
    ++ ((λ k, tree_input (ref_roots (take (N.to_nat k) blocks))) <$> rangeN 0 (lenN blocks + 1)).

(** The inputs a climb hashes. *)
Fixpoint climb_inputs (node : Node) (sibs : list Node) : list bytes :=
  match sibs with
  | [] => []
  | sib :: sibs' =>
      (if index sib <? index node then parent_input sib node else parent_input node sib)
        :: match climb_step node sib with
           | Some node' => climb_inputs node' sibs'
           | None => []
           end
  end.

Definition root_inputs (node : Node) (sibs rs : list Node) : list bytes :=
  match climb node sibs with
  | Some top => match substitute rs (index top) top with
                | Some rs' => [tree_input rs']
                | None => []
                end
  | None => []
  end.

Definition proof_inputs (p : Proof_) (data : bytes) : list bytes :=
  let leaf := leaf_node (wrap64 (block p * 2)) data in
  leaf_input data :: climb_inputs leaf (siblings p) ++ root_inputs leaf (siblings p) (roots p).

Definition node_proof_inputs (p : NodeProof) : list bytes :=
  climb_inputs (np_node p) (np_siblings p) ++ root_inputs (np_node p) (np_siblings p) (np_roots p).

Lemma collision_freeb_spec l : collision_freeb l = true -> collision_free l.
Proof.
  unfold collision_freeb. intros Hl x y Hx Hy E. rewrite forallb_forall in Hl.
  apply (list_elem_of_fmap_2 (λ x, (from_le (blake3 x), x))), list_elem_of_In in Hx, Hy.
  specialize (Hl _ Hx). rewrite forallb_forall in Hl. specialize (Hl _ Hy).
  apply orb_true_iff in Hl as [Hl|Hl]; cbn [fst snd] in Hl; [|by reflect_bools].
  by rewrite E, N.eqb_refl in Hl.
Qed.

Lemma collision_free_sub l l' : l' ⊆ l -> collision_free l -> collision_free l'.
Proof. intros Hs Hc x y Hx Hy. apply Hc; by apply Hs. Qed.

Lemma in_leaf blocks k : k < lenN blocks -> leaf_input (block_at blocks k) ∈ hash_inputs blocks.
Proof.
  intros Hk. apply elem_of_app. left. apply list_elem_of_fmap. eexists. split; [done|].
  eapply list_elem_of_lookup_2. by apply block_at_lookup.
Qed.

Lemma in_parent blocks d o :
  lenN blocks <= Flat.max_blocks -> Flat.complete (lenN blocks) (d + 1) o ->
  parent_input (ref blocks d (2 * o)) (ref blocks d (2 * o + 1)) ∈ hash_inputs blocks.
Proof.
  intros Hn Hc. apply elem_of_app. right. apply elem_of_app. left.
  apply list_elem_of_omap. exists (Flat.idx (d + 1) o).
  pose proof (complete_bound _ _ _ Hc). split; [apply elem_of_rangeN; lia|].
  assert (Hf : forall p, Flat.complete (lenN blocks) d p -> Flat.fits d p)
    by (intros; by eapply Flat.small_fits, Flat.complete_small).
  assert (Hfp : Flat.fits (d + 1) o) by (by eapply Flat.small_fits, Flat.complete_small).
  unfold parent_input_at. rewrite Flat.block_range_idx, Flat.children_idx by done. cbn [snd].
  rewrite (proj2 (N.leb_le _ _)) by done. rsimpl.
  unfold Flat.complete in *. rewrite Flat.pow2_S in Hc. pose proof (Flat.pow2_pos d).
  rewrite !ref_at_idx by (apply Hf; nia). done.
Qed.

Lemma in_tree blocks k :
  k <= lenN blocks -> tree_input (ref_roots (take (N.to_nat k) blocks)) ∈ hash_inputs blocks.
Proof.
  intros Hk. apply elem_of_app. right. apply elem_of_app. right.
  apply list_elem_of_fmap. exists k. split; [done|]. apply elem_of_rangeN. lia.
Qed.

Lemma in_root blocks : tree_input (ref_roots blocks) ∈ hash_inputs blocks.
Proof.
  pose proof (in_tree blocks (lenN blocks) (N.le_refl _)) as Ht.
  rewrite take_ge in Ht; [done|]. unfold lenN. lia.
Qed.

(** ** The encodings hashed are injective and tell their domains apart *)

Lemma leaf_input_inj a b :
  u64_ok (lenN a) -> u64_ok (lenN b) -> leaf_input a = leaf_input b -> a = b.
Proof.
  intros _ _ E. unfold leaf_input in E. apply app_inj_len in E as [_ E]; [|done].
  apply app_inj_len in E as [_ E]; [done|by rewrite !to_le_length].
Qed.

Lemma parent_input_inj a b a' b' :
  node_ok a -> node_ok b -> node_ok a' -> node_ok b' ->
  parent_input a b = parent_input a' b' ->
  (hash a = hash a' /\ size a = size a') /\ (hash b = hash b' /\ size b = size b').
Proof.
  intros (_ & Sa & Ha) (_ & Sb & Hb) (_ & Sa' & Ha') (_ & Sb' & Hb') E. unfold parent_input in E.
  apply app_inj_len in E as [_ E]; [|done].
  apply app_inj_len in E as [E1 E]; [|congruence].
  apply app_inj_len in E as [E2 E]; [|by rewrite !to_le_length].
  apply app_inj_len in E as [E3 E4]; [|congruence].
  by apply le64_inj in E2, E4.
Qed.

Lemma leaf_parent_input d a b : leaf_input d <> parent_input a b.
Proof. done. Qed.

Lemma node_chunk_inj a b x y :
  node_ok a -> node_ok b ->
  (hash a ++ le64 (index a) ++ le64 (size a)) ++ x = (hash b ++ le64 (index b) ++ le64 (size b)) ++ y ->
  a = b /\ x = y.
Proof.
  intros (Ia & Sa & Ha) (Ib & Sb & Hb) E.
  apply app_inj_len in E as [E ->]; [|rewrite !length_app, !to_le_length; congruence].
  apply app_inj_len in E as [E1 E]; [|congruence].
  apply app_inj_len in E as [E2 E3]; [|by rewrite !to_le_length].
  apply le64_inj in E2, E3; [|done..]. destruct a, b; simpl in *; by subst.
Qed.

Lemma tree_input_inj l1 l2 :
  Forall node_ok l1 -> Forall node_ok l2 -> tree_input l1 = tree_input l2 -> l1 = l2.
Proof.
  unfold tree_input. intros H1 H2 E. apply app_inj_len in E as [_ E]; [|done].
  revert l2 H2 E; induction H1 as [|a l1 Ha H1 IH]; intros [|b l2] H2 E; cbn [map concat] in E.
  - done.
  - apply Forall_cons in H2 as [(_ & _ & Hb) _]. apply (f_equal List.length) in E.
    rewrite !length_app, Hb in E. done.
  - destruct Ha as (_ & _ & Ha). apply (f_equal List.length) in E.
    rewrite !length_app, Ha in E. done.
  - apply Forall_cons in H2 as [Hb H2].
    apply node_chunk_inj in E as [-> E]; [|done..]. f_equal. by apply IH.
Qed.

Context `{!HasherLaws}.

Lemma ref_roots_ok blocks :
  lenN blocks <= Flat.max_blocks -> blocks_ok blocks -> Forall node_ok (ref_roots blocks).
Proof.
  intros Hn Hb. apply Forall_fmap, Forall_forall. intros i Hi.
  destruct (roots_complete _ _ Hn Hi) as (d & o & -> & Hc & Hf). cbn.
  rewrite Flat.depth_idx, Flat.offset_idx by done. by apply ref_ok.
Qed.

Lemma in_ref_roots blocks n :
  lenN blocks <= Flat.max_blocks -> n ∈ ref_roots blocks ->
  exists d o, n = ref blocks d o /\ Flat.complete (lenN blocks) d o.
Proof.
  intros Hn (i & -> & Hi)%list_elem_of_fmap.
  destruct (roots_complete _ _ Hn Hi) as (d & o & -> & Hc & Hf). exists d, o.
  by rewrite Flat.depth_idx, Flat.offset_idx.
Qed.

(** ** Soundness of a climb *)

Lemma parent_node_ok p a b : u64_ok p -> node_ok (parent_node p a b).
Proof. intros Hp. split_and!; [done|apply wrap64_lt|apply blake3_length]. Qed.

Lemma index_u64 d o : u64_ok (Flat.index d o).
Proof. unfold Flat.index, wsub64. apply wrap64_lt. Qed.

Lemma climb_step_ok node sib node' : climb_step node sib = Some node' -> node_ok node'.
Proof.
  unfold climb_step. destruct (index sib =? _); [|done]. intros [= <-].
  destruct (index sib <? index node); apply parent_node_ok, index_u64.
Qed.

Lemma climb_ok node sibs top : climb node sibs = Some top -> node_ok node -> node_ok top.
Proof.
  revert node; induction sibs as [|sib sibs IH]; intros node; cbn [climb].
  - by intros [= <-].
  - destruct (climb_step node sib) as [node'|] eqn:E; [|done]. cbn. intros Hc _.
    by eapply IH, climb_step_ok.
Qed.

Lemma ref_input blocks d o :
  hash (ref blocks (d + 1) o) = blake3 (parent_input (ref blocks d (2 * o)) (ref blocks d (2 * o + 1))).
Proof. by rewrite ref_S. Qed.

(** A node that climbs in one step to a node of the log is a node of the log. *)
Lemma climb_step_sound blocks node sib d o :
  lenN blocks <= Flat.max_blocks -> blocks_ok blocks ->
  collision_free (hash_inputs blocks ++
     [if index sib <? index node then parent_input sib node else parent_input node sib]) ->
  node_ok node -> node_ok sib -> Flat.complete (lenN blocks) d o ->
  climb_step node sib = Some (ref blocks d o) ->
  exists d' o', node = ref blocks d' o' /\ sib = ref blocks d' (N.lxor o' 1) /\ d = d' + 1 /\ o = o' / 2.
Proof.
  intros Hn Hb Hcf Hnode Hsib Hc. unfold climb_step.
  destruct (N.eqb_spec (index sib) (Flat.sibling (index node))) as [Es|]; [|done]. cbn.
  intros [= E].
  assert (Eh : hash (ref blocks d o) =
    blake3 (if index sib <? index node then parent_input sib node else parent_input node sib))
    by (rewrite <- E; by destruct (_ <? _)).
  assert (Ei : Flat.parent (index node) = Flat.idx d o)
    by (rewrite <- (ref_index blocks), <- E; by destruct (_ <? _)).
  clear E. destruct (N.eq_dec d 0) as [->|Hd].
  { rewrite ref_0 in Eh. apply Hcf in Eh; [by destruct (_ <? _)| |in_list].
    apply elem_of_app. left. apply in_leaf. by apply Flat.complete_0. }
  replace d with (N.pred d + 1) in * by lia. set (e := N.pred d) in *. clearbody e. clear d Hd.
  apply Flat.parent_inv in Ei as (o' & Ei & <-); [|apply Hnode|by eapply Flat.complete_small].
  exists e, o'. rewrite ref_input in Eh.
  apply Hcf in Eh; [|apply elem_of_app; left; by apply in_parent|in_list].
  assert (Hok : forall p, p / 2 = o' / 2 -> Flat.small e p).
  { intros p Hp. unfold Flat.complete in Hc. unfold Flat.small. rewrite Flat.pow2_S in Hc.
    pose proof (Flat.half_le p). pose proof (Flat.pow2_pos e). nia. }
  assert (Hf : Flat.fits e o') by (by apply Flat.small_fits, Hok).
  assert (He : e <= 62) by (by apply (Flat.small_depth e o'), Hok).
  assert (Hrok : forall p, p / 2 = o' / 2 -> node_ok (ref blocks e p))
    by (intros; by apply ref_ok, Flat.small_fits, Hok).
  assert (Hh0 : 2 * (o' / 2) / 2 = o' / 2) by (rewrite N.mul_comm; by apply N.div_mul).
  assert (Hh1 : (2 * (o' / 2) + 1) / 2 = o' / 2) by dlia.
  rewrite Ei in Es. rewrite Flat.lxor_1.
  assert (Hbuild : forall n p, hash n = hash (ref blocks e p) -> size n = size (ref blocks e p) ->
                     index n = Flat.idx e p -> n = ref blocks e p).
  { intros n p E1 E2 E3. rewrite <- (ref_index blocks) in E3. destruct n, (ref blocks e p); simpl in *; by subst. }
  destruct (N.even o') eqn:Hev.
  - rewrite Flat.sibling_even in Es by done.
    assert (Hlt : index node < index sib) by (rewrite Ei, Es; apply Flat.idx_lt_mono; lia).
    rewrite (proj2 (N.ltb_ge _ _)) in Eh by lia.
    assert (E2 : 2 * (o' / 2) = o') by (apply N.even_spec in Hev as [q ->]; dlia).
    apply parent_input_inj in Eh as [[A1 A2] [B1 B2]]; [|by apply Hrok|by apply Hrok|done|done].
    rewrite E2 in *. split_and!; [by apply Hbuild|by apply Hbuild|done|done].
  - destruct (Flat.odd_half o' Hev) as [E1 E2]. rewrite Flat.sibling_odd in Es by done.
    assert (Hlt : index sib < index node) by (rewrite Ei, Es; apply Flat.idx_lt_mono; lia).
    rewrite (proj2 (N.ltb_lt _ _)) in Eh by lia.
    apply parent_input_inj in Eh as [[A1 A2] [B1 B2]]; [|by apply Hrok|by apply Hrok|done|done].
    rewrite E2 in *. rewrite E1 in *. split_and!; [by apply Hbuild|by apply Hbuild|done|done].
Qed.

Lemma climb_sound blocks node sibs d o :
  lenN blocks <= Flat.max_blocks -> blocks_ok blocks ->
  collision_free (hash_inputs blocks ++ climb_inputs node sibs) ->
  node_ok node -> Forall node_ok sibs -> Flat.complete (lenN blocks) d o ->
  climb node sibs = Some (ref blocks d o) ->
  exists d' o', node = ref blocks d' o' /\ Flat.complete (lenN blocks) d' o'.
Proof.
  intros Hn Hb. revert node; induction sibs as [|sib sibs IH]; intros node Hcf Hnode Hs Hc; cbn [climb].
  - intros [= ->]. by exists d, o.
  - cbn [climb_inputs] in Hcf. apply Forall_cons in Hs as [Hsib Hs].
    destruct (climb_step node sib) as [node'|] eqn:E; [|done]. rsimpl. intros Ecl.
    destruct (IH node') as (d' & o' & -> & Hc'); [|by eapply climb_step_ok|done|done|done|].
    { eapply collision_free_sub; [|done]. sub_list. }
    eapply climb_step_sound in E as (d2 & o2 & -> & _ & -> & ->); try done.
    + exists d2, o2. split; [done|]. by apply Flat.complete_child.
    + eapply collision_free_sub; [|done]. sub_list.
Qed.

Lemma substitute_in rs i node rs' : substitute rs i node = Some rs' -> node ∈ rs'.
Proof.
  revert rs'; induction rs as [|r rs IH]; intros rs'; cbn [substitute]; [done|].
  destruct (index r =? i); [intros [= <-]; by left|].
  destruct (substitute rs i node) as [rs2|]; [|done]. intros [= <-]. right. by apply IH.
Qed.

Lemma substitute_ok rs i node rs' :
  substitute rs i node = Some rs' -> Forall node_ok rs -> node_ok node -> Forall node_ok rs'.
Proof.
  intros E Hrs Hn. revert rs' E; induction Hrs as [|r rs Hr Hrs IH]; intros rs'; cbn [substitute]; [done|].
  destruct (index r =? i); [intros [= <-]; by constructor|].
  destruct (substitute rs i node) as [rs2|]; [|done]. intros [= <-]. constructor; [done|]. by apply IH.
Qed.

(** The whole path: climb, substitute into the roots, compare the root hash. *)
Lemma path_sound blocks node sibs rs top rs' :
  lenN blocks <= Flat.max_blocks -> blocks_ok blocks ->
  collision_free (hash_inputs blocks ++ climb_inputs node sibs ++ root_inputs node sibs rs) ->
  node_ok node -> Forall node_ok sibs -> Forall node_ok rs ->
  climb node sibs = Some top -> substitute rs (index top) top = Some rs' ->
  tree_hash rs' = ref_root_hash blocks ->
  rs' = ref_roots blocks /\
  exists d o, node = ref blocks d o /\ Flat.complete (lenN blocks) d o.
Proof.
  intros Hn Hb Hcf Hnode Hs Hrs Ec Es Et.
  assert (Htop : node_ok top) by (by eapply climb_ok).
  unfold root_inputs in Hcf. rewrite Ec, Es in Hcf.
  apply Hcf in Et; [|in_list|apply elem_of_app; left; apply in_root].
  apply tree_input_inj in Et; [|by eapply substitute_ok|by apply ref_roots_ok].
  split; [done|]. subst rs'. apply substitute_in in Es.
  apply in_ref_roots in Es as (d & o & -> & Hc); [|done].
  eapply (climb_sound blocks node sibs); try done. eapply collision_free_sub; [|done]. sub_list.
Qed.

Definition proof_ok (p : Proof_) : Prop := Forall node_ok (siblings p) /\ Forall node_ok (roots p).
Definition node_proof_ok (p : NodeProof) : Prop :=
  node_ok (np_node p) /\ Forall node_ok (np_siblings p) /\ Forall node_ok (np_roots p).

Lemma leaf_node_ok i data : u64_ok i -> u64_ok (lenN data) -> node_ok (leaf_node i data).
Proof. intros Hi Hd. split_and!; [done|done|apply blake3_length]. Qed.

(** A leaf that is a node of the log is one of its blocks. *)
Lemma leaf_sound blocks i data d o :
  lenN blocks <= Flat.max_blocks -> blocks_ok blocks -> u64_ok (lenN data) ->
  collision_free (hash_inputs blocks ++ [leaf_input data]) ->
  leaf_node i data = ref blocks d o -> Flat.complete (lenN blocks) d o ->
  i = 2 * o /\ blocks !! N.to_nat o = Some data.
Proof.
  intros Hn Hb Hd Hcf E Hc.
  assert (Eh : blake3 (leaf_input data) = hash (ref blocks d o)) by (by rewrite <- E).
  assert (Ei : i = Flat.idx d o) by (by rewrite <- (ref_index blocks), <- E).
  destruct (N.eq_dec d 0) as [->|Hd0].
  - rewrite ref_0 in Eh. apply Flat.complete_0 in Hc as Ho. apply Hcf in Eh; [|in_list|].
    + apply leaf_input_inj in Eh as ->; [|done|by apply block_at_ok].
      split; [by rewrite Ei, Flat.idx_0|]. by apply block_at_lookup.
    + apply elem_of_app. left. by apply in_leaf.
  - replace d with (N.pred d + 1) in * by lia. rewrite ref_input in Eh.
    apply Hcf in Eh; [by apply leaf_parent_input in Eh|in_list|].
    apply elem_of_app. left. by apply in_parent.
Qed.

Lemma Proof_verify_sound blocks p data :
  lenN blocks <= Flat.max_blocks -> blocks_ok blocks -> u64_ok (lenN data) -> proof_ok p ->
  collision_free (hash_inputs blocks ++ proof_inputs p data) ->
  Proof_verify p data (ref_root_hash blocks) = true ->
  blocks !! N.to_nat (block p mod 2 ^ 63) = Some data /\ leaf_size p = lenN data.
Proof.
  intros Hn Hb Hd [Hs Hrs] Hcf. unfold Proof_verify.
  destruct (N.eqb_spec (lenN data) (leaf_size p)) as [El|]; [|done]. cbn [negb].
  destruct (climb _ (siblings p)) as [top|] eqn:Ec; [|done].
  destruct (substitute (roots p) (index top) top) as [rs'|] eqn:Es; [|done].
  intros Et. reflect_bools. unfold proof_inputs in Hcf.
  set (leaf := leaf_node (wrap64 (block p * 2)) data) in *.
  assert (Hleaf : node_ok leaf) by (apply leaf_node_ok; [apply wrap64_lt|done]).
  destruct (path_sound blocks leaf (siblings p) (roots p) top rs') as [_ (d & o & E & Hc)];
    [done..| |done|done|done|done|done|done|].
  { eapply collision_free_sub; [|done]. sub_list. }
  apply leaf_sound in E as [E1 E2]; try done.
  - rewrite Flat.wrap64_double in E1. replace (block p mod 2 ^ 63) with o by lia. done.
  - eapply collision_free_sub; [|done]. sub_list.
Qed.

Lemma NodeProof_verify_sound blocks p n :
  lenN blocks <= Flat.max_blocks -> blocks_ok blocks -> node_proof_ok p ->
  collision_free (hash_inputs blocks ++ node_proof_inputs p) ->
  NodeProof_verify p (ref_root_hash blocks) = Some n ->
  exists d o, n = ref blocks d o /\ Flat.complete (lenN blocks) d o.
Proof.
  intros Hn Hb (Hnode & Hs & Hrs) Hcf. unfold NodeProof_verify.
  destruct (climb (np_node p) (np_siblings p)) as [top|] eqn:Ec; [|done]. rsimpl.
  destruct (substitute (np_roots p) (index top) top) as [rs'|] eqn:Es; [|done]. rsimpl.
  case_bool_decide as Et; [done|]. intros [= <-].
  by eapply path_sound in Es as [_ ?].
Qed.
(** ** Completeness of a climb *)

Lemma ref_roots_index blocks :
  lenN blocks <= Flat.max_blocks -> index <$> ref_roots blocks = Flat.roots_of (lenN blocks).
Proof.
  intros Hn. unfold ref_roots. rewrite <- list_fmap_compose. rewrite <- (list_fmap_id (Flat.roots_of _)) at 2.
  apply list_fmap_ext. intros ? i Hi%list_elem_of_lookup_2. cbn.
  destruct (roots_complete _ _ Hn Hi) as (d & o & -> & Hc & Hf).
  by rewrite Flat.depth_idx, Flat.offset_idx, ref_index.
Qed.

Lemma index_set_roots blocks i :
  lenN blocks <= Flat.max_blocks -> i ∈ index_set (ref_roots blocks) <-> i ∈ Flat.roots_of (lenN blocks).
Proof. intros Hn. unfold index_set. by rewrite ref_roots_index, elem_of_list_to_set. Qed.

Lemma root_in_ref_roots blocks d o :
  Flat.fits d o -> Flat.idx d o ∈ Flat.roots_of (lenN blocks) -> ref blocks d o ∈ ref_roots blocks.
Proof. intros Hf Hi. apply list_elem_of_fmap. eexists. split; [|done]. by rewrite Flat.depth_idx, Flat.offset_idx. Qed.

(** One step of an honest climb. *)
Lemma ref_parent blocks d o :
  parent_node (Flat.idx (d + 1) (o / 2))
    (if N.even o then ref blocks d o else ref blocks d (o - 1))
    (if N.even o then ref blocks d (o + 1) else ref blocks d o) = ref blocks (d + 1) (o / 2).
Proof.
  rewrite ref_S. destruct (N.even o) eqn:E.
  - assert (2 * (o / 2) = o) as -> by (apply N.even_spec in E as [q ->]; dlia). done.
  - by destruct (Flat.odd_half o E) as [-> ->].
Qed.

(** The sibling of a node under a complete parent is complete. *)
Lemma complete_sibling n d o :
  Flat.complete n (d + 1) (o / 2) -> Flat.complete n d (if N.even o then o + 1 else o - 1).
Proof.
  intros Hc. apply Flat.complete_child. replace (_ / 2) with (o / 2); [done|].
  destruct (N.even o) eqn:E.
  - apply N.even_spec in E as [q ->]. dlia.
  - destruct (Flat.odd_half o E). dlia.
Qed.

Lemma sibling_idx d o :
  Flat.fits d o -> d <= 62 -> Flat.sibling (Flat.idx d o) = Flat.idx d (if N.even o then o + 1 else o - 1).
Proof.
  intros Hf Hd. destruct (N.even o) eqn:E; [by apply Flat.sibling_even|by apply Flat.sibling_odd].
Qed.

(** The siblings an intact tree supplies take a node to its root. *)
Inductive honest_path (blocks : list bytes) : N -> N -> list Node -> N -> N -> Prop :=
| hp_root d o :
    Flat.complete (lenN blocks) d o -> Flat.idx d o ∈ Flat.roots_of (lenN blocks) ->
    honest_path blocks d o [] d o
| hp_up d o sibs D O :
    Flat.complete (lenN blocks) (d + 1) (o / 2) -> Flat.idx d o ∉ Flat.roots_of (lenN blocks) ->
    honest_path blocks (d + 1) (o / 2) sibs D O ->
    honest_path blocks d o (ref blocks d (if N.even o then o + 1 else o - 1) :: sibs) D O.

Lemma honest_path_exists blocks t d o f :
  full_tree blocks t -> lenN blocks <= Flat.max_blocks ->
  Flat.complete (lenN blocks) d o -> 64 <= N.of_nat f + d ->
  exists sibs D O, honest_path blocks d o sibs D O /\
    climb_siblings f (nodes t) (index_set (ref_roots blocks)) (Flat.idx d o) = Done sibs /\
    node_siblings f (nodes t) (index_set (ref_roots blocks)) (Flat.idx d o) = Done (Some sibs).
Proof.
  intros Ht Hn. revert d o; induction f as [|f IH]; intros d o Hc Hf.
  all: assert (Hsm : Flat.small d o) by (by eapply Flat.complete_small).
  all: pose proof (Flat.small_depth d o Hsm) as Hd; pose proof (Flat.small_fits d o Hsm) as Hfit.
  { lia. }
  cbn [climb_siblings node_siblings].
  destruct (decide (Flat.idx d o ∈ Flat.roots_of (lenN blocks))) as [Hr|Hr].
  - rewrite bool_decide_true by (by apply index_set_roots). exists [], d, o. by split; [constructor|].
  - rewrite bool_decide_false by (by rewrite index_set_roots).
    assert (Hp : Flat.complete (lenN blocks) (d + 1) (o / 2)) by (by apply Flat.climb_parent).
    destruct (IH (d + 1) (o / 2)) as (sibs & D & O & Hpath & E1 & E2); [done|lia|].
    rewrite sibling_idx, Flat.parent_idx by done. unfold nodes_at.
    rewrite (full_lookup blocks) by (done || by apply complete_sibling). rsimpl.
    rewrite E1, E2. eexists _, D, O. split; [by constructor|done].
Qed.

Lemma honest_path_root blocks d o sibs D O :
  honest_path blocks d o sibs D O ->
  Flat.complete (lenN blocks) d o /\ Flat.complete (lenN blocks) D O /\
  Flat.idx D O ∈ Flat.roots_of (lenN blocks).
Proof. induction 1 as [|d o sibs D O Hp Hr Hpath (_ & ? & ?)]; [done|]. split; [by apply Flat.complete_child|done]. Qed.

(** The bytes to the left of the node inside its root. *)
Lemma honest_path_seek blocks d o sibs D O s :
  lenN blocks <= Flat.max_blocks -> total_bytes blocks < two64 ->
  honest_path blocks d o sibs D O -> s + cum blocks (o * 2 ^ d) < two64 ->
  O * 2 ^ D <= o * 2 ^ d /\
  seek_climb (ref blocks d o) s sibs =
    Some (ref blocks D O, s + (cum blocks (o * 2 ^ d) - cum blocks (O * 2 ^ D))).
Proof.
  intros Hn Hb Hpath. revert s. induction Hpath as [d o Hc Hr|d o sibs D O Hp Hr Hpath IH]; intros s Hs.
  { cbn. rewrite N.sub_diag, N.add_0_r. done. }
  assert (Hc : Flat.complete (lenN blocks) d o) by (by apply Flat.complete_child).
  assert (Hsm : Flat.small d o) by (by eapply Flat.complete_small).
  pose proof (Flat.small_depth d o Hsm) as Hd. pose proof (Flat.small_fits d o Hsm) as Hfit.
  pose proof (ref_parent blocks d o) as Epar.
  cbn [seek_climb]. rewrite !ref_index, sibling_idx, N.eqb_refl, Flat.parent_idx by done. cbn [negb].
  pose proof (Flat.half_le o). rewrite Flat.pow2_S in IH.
  destruct (N.even o) eqn:Hev.
  - assert (E2 : o / 2 * (2 * 2 ^ d) = o * 2 ^ d) by (apply N.even_spec in Hev as [q ->]; rewrite (N.mul_comm 2 q), N.div_mul; lia).
    rewrite (proj2 (N.ltb_ge _ _)) by (apply N.lt_le_incl, Flat.idx_lt_mono; lia).
    rewrite Epar. rewrite E2 in IH. by apply IH.
  - destruct (Flat.odd_half o Hev) as [E1 E2]. pose proof (Flat.pow2_pos d).
    assert (E3 : o / 2 * (2 * 2 ^ d) = (o - 1) * 2 ^ d) by lia.
    rewrite (proj2 (N.ltb_lt _ _)) by (apply Flat.idx_lt_mono; lia).
    rewrite Epar, ref_size by (done || (unfold Flat.complete in *; nia)).
    replace ((o - 1 + 1) * 2 ^ d) with (o * 2 ^ d) by (f_equal; lia). rewrite E3 in IH.
    assert (cum blocks ((o - 1) * 2 ^ d) <= cum blocks (o * 2 ^ d)) by (apply cum_mono; nia).
    rewrite wrap64_small by lia. destruct (IH (s + (cum blocks (o * 2 ^ d) - cum blocks ((o - 1) * 2 ^ d)))) as [Hle ->]; [lia|].
    assert (cum blocks (O * 2 ^ D) <= cum blocks ((o - 1) * 2 ^ d)) by (by apply cum_mono).
    split; [nia|]. do 2 f_equal. lia.
Qed.

Lemma honest_path_climb blocks d o sibs D O :
  lenN blocks <= Flat.max_blocks -> honest_path blocks d o sibs D O ->
  climb (ref blocks d o) sibs = Some (ref blocks D O).
Proof.
  intros Hn Hpath. induction Hpath as [d o Hc Hr|d o sibs D O Hp Hr Hpath IH]; [done|].
  assert (Hc : Flat.complete (lenN blocks) d o) by (by apply Flat.complete_child).
  assert (Hsm : Flat.small d o) by (by eapply Flat.complete_small).
  pose proof (Flat.small_depth d o Hsm) as Hd. pose proof (Flat.small_fits d o Hsm) as Hfit.
  pose proof (ref_parent blocks d o) as Epar.
  cbn [climb]. unfold climb_step. rewrite !ref_index, sibling_idx, N.eqb_refl, Flat.parent_idx by done. cbn [negb].
  destruct (N.even o) eqn:Hev.
  - rewrite (proj2 (N.ltb_ge _ _)) by (apply N.lt_le_incl, Flat.idx_lt_mono; lia). by rewrite Epar.
  - rewrite (proj2 (N.ltb_lt _ _)) by (apply Flat.idx_lt_mono; destruct (Flat.odd_half o Hev); lia).
    by rewrite Epar.
Qed.

Lemma substitute_id rs node :
  NoDup (index <$> rs) -> node ∈ rs -> substitute rs (index node) node = Some rs.
Proof.
  induction rs as [|r rs IH]; cbn [substitute fmap list_fmap]; intros Hnd Hin; [by apply elem_of_nil in Hin|].
  apply NoDup_cons in Hnd as [Hr Hnd]. destruct (N.eqb_spec (index r) (index node)) as [E|E].
  - apply elem_of_cons in Hin as [->|Hin]; [done|].
    destruct Hr. rewrite E. by apply list_elem_of_fmap_2.
  - apply elem_of_cons in Hin as [->|Hin]; [done|]. by rewrite IH.
Qed.

Lemma substitute_root blocks d o :
  lenN blocks <= Flat.max_blocks -> Flat.complete (lenN blocks) d o ->
  Flat.idx d o ∈ Flat.roots_of (lenN blocks) ->
  substitute (ref_roots blocks) (index (ref blocks d o)) (ref blocks d o) = Some (ref_roots blocks).
Proof.
  intros Hn Hc Hr. apply substitute_id.
  - rewrite ref_roots_index by done. by apply Flat.roots_of_nodup.
  - apply root_in_ref_roots; [|done]. by eapply Flat.small_fits, Flat.complete_small.
Qed.

Lemma fuel_ok d : 64 <= N.of_nat climb_fuel + d.
Proof. change (N.of_nat climb_fuel) with 65. lia. Qed.

Lemma proof_complete blocks t k data :
  full_tree blocks t -> lenN blocks <= Flat.max_blocks -> blocks !! N.to_nat k = Some data ->
  exists p, proof t k = Done (Some p) /\ block p = k /\
    Proof_verify p data (ref_root_hash blocks) = true.
Proof.
  intros Ht Hn Hk. assert (Hlt : k < lenN blocks) by (apply lookup_lt_Some in Hk; unfold lenN; lia).
  assert (Flat.max_blocks * 2 < two64) by done.
  destruct (honest_path_exists blocks t 0 k climb_fuel) as (sibs & D & O & Hp & Es & _);
    [done..|by apply Flat.complete_0|apply fuel_ok|].
  unfold proof. pose proof Ht as [El _]. rewrite El, (proj2 (N.leb_gt _ _)) by done.
  rewrite (tree_roots_full blocks) by done. rsimpl.
  rewrite wrap64_small by lia. replace (k * 2) with (Flat.idx 0 k) by (rewrite Flat.idx_0; lia).
  rewrite Es. rsimpl. unfold nodes_at. rewrite (full_lookup blocks) by (done || by apply Flat.complete_0).
  rsimpl. eexists. split; [done|]. split; [done|].
  assert (Eb : block_at blocks k = data) by (unfold block_at; by rewrite Hk).
  unfold Proof_verify. cbn [leaf_size block siblings roots]. rewrite ref_0, Eb. cbn [leaf_node size].
  rewrite N.eqb_refl, wrap64_small by lia. cbn [negb].
  replace (k * 2) with (Flat.idx 0 k) by (rewrite Flat.idx_0; lia).
  pose proof (honest_path_climb _ _ _ _ _ _ Hn Hp) as Ec. rewrite ref_0, Eb in Ec. rewrite Ec.
  destruct (honest_path_root _ _ _ _ _ _ Hp) as (_ & Hc & Hr).
  rewrite substitute_root by done. by apply bool_decide_true.
Qed.

Lemma node_proof_complete blocks t d o :
  full_tree blocks t -> lenN blocks <= Flat.max_blocks -> Flat.complete (lenN blocks) d o ->
  exists p, node_proof t (Flat.idx d o) = Done (Some p) /\
    NodeProof_verify p (ref_root_hash blocks) = Some (ref blocks d o).
Proof.
  intros Ht Hn Hc. destruct (honest_path_exists blocks t d o climb_fuel) as (sibs & D & O & Hp & _ & Es);
    [done..|apply fuel_ok|].
  pose proof (complete_bound _ _ _ Hc). unfold node_proof.
  rewrite Flat.block_range_idx by (by eapply Flat.small_fits, Flat.complete_small).
  pose proof Ht as [El _]. rewrite El. destruct (N.eqb_spec (lenN blocks) 0); [lia|].
  rewrite (proj2 (N.ltb_ge _ _)) by done. cbn [orb].
  rewrite (full_lookup blocks), (try_roots_full blocks), Es by done. rsimpl.
  eexists. split; [done|]. unfold NodeProof_verify. cbn [np_node np_siblings np_roots].
  rewrite (honest_path_climb _ _ _ _ _ _ Hn Hp). rsimpl.
  destruct (honest_path_root _ _ _ _ _ _ Hp) as (_ & HcD & Hr).
  rewrite substitute_root by done. rsimpl. by rewrite bool_decide_false by (intros Hne; by apply Hne).
Qed.
End Proofs.
End MerkleProofs.
