(* ===== verification/MerkleSeek.v ===== *)
(** * Seek proofs and node recovery

    [SeekProof] locates a byte offset without revealing block data: complete
    and sound against the scan of the blocks, for logs of fewer than [2^64]
    bytes.  [recover_node] repairs a tree with missing nodes: it only ever
    stores reference nodes, and a proof from an intact peer restores the node
    that was lost. *)
From S2P Require Import Prelude Flat Merkle MerkleSpec MerkleProofs.

Module MerkleSeek.
Import Merkle MerkleSpec MerkleProofs.

Section Seek.
Context `{HasherLaws}.

(** ** The roots to the left *)

(** Root indices grow left to right, so nothing right of the target counts. *)
Lemma root_left_after blocks i off n l b s :
  Flat.root_chain off n l -> i < 2 * off ->
  foldl (root_left_step i) (b, s) ((λ '(d, o), ref blocks d o) <$> l) = (b, s).
Proof.
  intros Hc. induction Hc as [|n k o l Hn Hk Hl IH]; intros Hi; [done|].
  cbn [fmap list_fmap foldl]. unfold root_left_step at 2. rewrite ref_index.
  pose proof (Flat.idx_succ k o). pose proof (Flat.pow2_pos k).
  destruct (N.eqb_spec (Flat.idx k o) i); [nia|]. destruct (N.ltb_spec (Flat.idx k o) i); [nia|].
  apply IH. nia.
Qed.

Lemma root_left_chain blocks off n l D O b s :
  total_bytes blocks < two64 -> off + n = lenN blocks ->
  Flat.root_chain off n l -> (D, O) ∈ l -> s + (cum blocks (O * 2 ^ D) - cum blocks off) < two64 ->
  foldl (root_left_step (Flat.idx D O)) (b, s) ((λ '(d, o), ref blocks d o) <$> l) =
  (true, s + (cum blocks (O * 2 ^ D) - cum blocks off)).
Proof.
  intros Hb Eoff Hc. revert b s Eoff.
  induction Hc as [|n k o l Hn Hk Hl IH]; intros b s Eoff Hin Hs; [by apply elem_of_nil in Hin|].
  destruct (N.log2_spec n) as [Hlo _]; [lia|]. rewrite <- Hk in Hlo.
  cbn [fmap list_fmap foldl]. unfold root_left_step at 2. rewrite ref_index.
  pose proof (Flat.idx_succ k o). pose proof (Flat.pow2_pos k).
  apply elem_of_cons in Hin as [[= -> ->]|Hin].
  - rewrite N.eqb_refl, N.sub_diag, N.add_0_r.
    apply (root_left_after _ _ _ _ _ _ _ Hl). nia.
  - destruct (Flat.root_chain_bounds _ _ _ _ _ Hl Hin) as [Hlo2 Hhi2].
    pose proof (Flat.idx_succ D O). pose proof (Flat.pow2_pos D).
    destruct (N.eqb_spec (Flat.idx k o) (Flat.idx D O)); [nia|].
    destruct (N.ltb_spec (Flat.idx k o) (Flat.idx D O)); [|nia].
    assert (cum blocks (o * 2 ^ k) <= cum blocks ((o + 1) * 2 ^ k)) by (apply cum_mono; lia).
    assert (cum blocks ((o + 1) * 2 ^ k) <= cum blocks (O * 2 ^ D)) by (by apply cum_mono).
    rewrite ref_size by (done || unfold Flat.complete; lia). rewrite wrap64_small by lia.
    rewrite IH by (done || lia). f_equal. lia.
Qed.

Lemma root_left_ref blocks D O :
  lenN blocks <= Flat.max_blocks -> total_bytes blocks < two64 ->
  Flat.complete (lenN blocks) D O -> Flat.idx D O ∈ Flat.roots_of (lenN blocks) ->
  root_left (Flat.idx D O) (ref_roots blocks) = (true, cum blocks (O * 2 ^ D)).
Proof.
  intros Hn Hb Hc Hr. destruct (ref_roots_chain blocks Hn) as (l & -> & El & Hl).
  rewrite El in Hr. apply list_elem_of_fmap in Hr as ([d o] & [-> ->]%Flat.idx_inj & Hin).
  pose proof (cum_total blocks (o * 2 ^ d)) as Ht. unfold Flat.complete in Hc.
  unfold root_left. rewrite (root_left_chain blocks 0 (lenN blocks)); try done.
  - by rewrite cum_0, N.sub_0_r.
  - rewrite cum_0. lia.
Qed.

(** Substituting the climbed root leaves the other roots alone. *)
Lemma root_left_substitute rs i node rs' st :
  index node = i -> substitute rs i node = Some rs' ->
  foldl (root_left_step i) st rs' = foldl (root_left_step i) st rs.
Proof.
  intros Ei. revert st rs'; induction rs as [|r rs IH]; intros st rs'; cbn [substitute]; [done|].
  destruct (N.eqb_spec (index r) i) as [E|E].
  - intros [= <-]. cbn [foldl]. f_equal. destruct st. unfold root_left_step. by rewrite Ei, E, N.eqb_refl.
  - destruct (substitute rs i node) as [rs2|]; [|done]. intros [= <-]. cbn [foldl]. by apply IH.
Qed.

(** ** Completeness *)

Lemma seek_linear_in blocks x :
  x < total_bytes blocks ->
  exists k, seek_linear blocks 0 x = (k, x - cum blocks k) /\ k < lenN blocks /\
            cum blocks k <= x < cum blocks (k + 1).
Proof.
  intros Hx. assert (Hk : forall n, x < cum blocks n -> exists k, k < n /\ cum blocks k <= x < cum blocks (k + 1)).
  { induction n as [|n IH] using N.peano_ind; [by rewrite cum_0; intros ?%N.nlt_0_r|].
    rewrite <- N.add_1_r. intros Hn. destruct (N.lt_ge_cases x (cum blocks n)) as [L|G].
    - destruct (IH L) as (k & ? & ?). exists k. split; [lia|done].
    - exists n. split; [lia|done]. }
  destruct (Hk _ Hx) as (k & Hlt & Hc). exists k. split; [|done].
  by rewrite (seek_linear_spec blocks 0 x k).
Qed.

Lemma seek_proof_complete blocks t x :
  full_tree blocks t -> lenN blocks <= Flat.max_blocks -> total_bytes blocks < two64 ->
  x < total_bytes blocks ->
  exists p, seek_proof t x = Done (Some p) /\ sp_bytes p = x /\
    SeekProof_verify p (ref_root_hash blocks) = Some (seek_linear blocks 0 x).
Proof.
  intros Ht Hn Hb Hx. destruct (seek_linear_in _ _ Hx) as (k & Ek & Hk & Hck).
  assert (Flat.max_blocks * 2 < two64) by done.
  destruct (honest_path_exists blocks t 0 k climb_fuel) as (sibs & D & O & Hp & Es & _);
    [done..|by apply Flat.complete_0|apply fuel_ok|].
  unfold seek_proof. rewrite (seek_full blocks), Ek by done. rsimpl.
  pose proof Ht as [El _]. rewrite El, (proj2 (N.leb_gt _ _)) by done.
  rewrite (tree_roots_full blocks) by done. rsimpl.
  rewrite wrap64_small by lia. replace (k * 2) with (Flat.idx 0 k) by (rewrite Flat.idx_0; lia).
  rewrite Es. rsimpl. unfold nodes_at. rewrite (full_lookup blocks) by (done || by apply Flat.complete_0).
  rsimpl. eexists. split; [done|]. split; [done|].
  unfold SeekProof_verify. cbn [sp_bytes sp_leaf sp_siblings sp_roots].
  rewrite ref_index, Flat.idx_parity. cbn [N.eqb negb].
  destruct (honest_path_root _ _ _ _ _ _ Hp) as (_ & HcD & Hr).
  assert (Ek1 : k * 2 ^ 0 = k) by (rewrite N.pow_0_r; lia).
  destruct (honest_path_seek blocks 0 k sibs D O 0 Hn Hb Hp) as [Hle ->];
    [rewrite Ek1; pose proof (cum_total blocks k); lia|].
  rsimpl. rewrite ref_index, root_left_ref by done. cbn [negb].
  rewrite Ek1 in *. assert (cum blocks (O * 2 ^ D) <= cum blocks k) by (by apply cum_mono).
  rewrite N.add_0_l, wrap64_small by (pose proof (cum_total blocks k); lia).
  rewrite <- (ref_index blocks D O), substitute_root by done. rsimpl.
  rewrite bool_decide_false by (intros Hne; by apply Hne).
  replace (cum blocks (O * 2 ^ D) + (cum blocks k - cum blocks (O * 2 ^ D))) with (cum blocks k) by lia.
  rewrite (proj2 (N.ltb_ge _ _)) by lia. rewrite ref_0. cbn [leaf_node size index].
  rewrite cum_succ in Hck. rewrite (proj2 (N.leb_gt _ _)) by lia.
  do 2 f_equal. rewrite Flat.idx_0, N.mul_comm. by apply N.div_mul.
Qed.

(** ** Soundness *)

Definition seek_proof_ok (p : SeekProof) : Prop :=
  node_ok (sp_leaf p) /\ Forall node_ok (sp_siblings p) /\ Forall node_ok (sp_roots p).

Definition seek_proof_inputs (p : SeekProof) : list bytes :=
  climb_inputs (sp_leaf p) (sp_siblings p) ++ root_inputs (sp_leaf p) (sp_siblings p) (sp_roots p).

Lemma seek_climb_climb node s sibs top s' :
  seek_climb node s sibs = Some (top, s') -> climb node sibs = Some top.
Proof.
  revert node s; induction sibs as [|sib sibs IH]; intros node s; cbn [seek_climb climb].
  - by intros [= <- <-].
  - unfold climb_step. destruct (index sib =? _); [|done]. cbn [negb]. rsimpl.
    destruct (index sib <? index node); apply IH.
Qed.

Lemma wrap64_add_l a b : wrap64 (wrap64 a + b) = wrap64 (a + b).
Proof. unfold wrap64. apply N.Div0.add_mod_idemp_l. Qed.

(** The sizes added on the way up are the authentic ones. *)
Lemma seek_climb_sound blocks node s sibs D O s' :
  lenN blocks <= Flat.max_blocks -> blocks_ok blocks -> total_bytes blocks < two64 -> u64_ok s ->
  collision_free (hash_inputs blocks ++ climb_inputs node sibs) ->
  node_ok node -> Forall node_ok sibs -> Flat.complete (lenN blocks) D O ->
  seek_climb node s sibs = Some (ref blocks D O, s') ->
  exists d o, node = ref blocks d o /\ Flat.complete (lenN blocks) d o /\ O * 2 ^ D <= o * 2 ^ d /\
    s' = wrap64 (s + (cum blocks (o * 2 ^ d) - cum blocks (O * 2 ^ D))).
Proof.
  intros Hn Hb Ht. revert node s; induction sibs as [|sib sibs IH];
    intros node s Hsu Hcf Hnode Hs Hc; cbn [seek_climb].
  - intros [= -> <-]. exists D, O. split_and!; [done..|].
    by rewrite N.sub_diag, N.add_0_r, wrap64_small.
  - cbn [climb_inputs] in Hcf. apply Forall_cons in Hs as [Hsib Hs].
    pose proof (climb_step_ok node sib) as Hstep.
    destruct (climb_step node sib) as [node'|] eqn:E.
    2: { unfold climb_step in E. destruct (index sib =? _); done. }
    specialize (Hstep _ eq_refl). pose proof E as Estep. unfold climb_step in E.
    destruct (index sib =? _); [|done]. cbn [negb] in *. injection E as E.
    set (s2 := if index sib <? index node then wrap64 (s + size sib) else s).
    assert (Hs2 : u64_ok s2) by (unfold s2; destruct (_ <? _); [apply wrap64_lt|done]).
    intros Ecl. assert (Ecl2 : seek_climb node' s2 sibs = Some (ref blocks D O, s'))
      by (unfold s2; rewrite <- E; by destruct (index sib <? index node)).
    destruct (IH node' s2) as (d' & o' & -> & Hc' & Hle & ->); try done.
    { eapply collision_free_sub; [|done]. sub_list. }
    eapply climb_step_sound in Estep as (d2 & o2 & -> & -> & -> & ->); try done;
      [|eapply collision_free_sub; [|done]; sub_list].
    assert (Hc2 : Flat.complete (lenN blocks) d2 o2) by (by apply Flat.complete_child).
    exists d2, o2. rewrite Flat.pow2_S in *. pose proof (Flat.half_le o2). pose proof (Flat.pow2_pos d2).
    split_and!; [done|done|nia|]. unfold s2. rewrite !ref_index, Flat.lxor_1.
    destruct (N.even o2) eqn:Hev.
    + rewrite (proj2 (N.ltb_ge _ _)) by (apply N.lt_le_incl, Flat.idx_lt_mono; lia).
      assert (o2 / 2 * (2 * 2 ^ d2) = o2 * 2 ^ d2) as ->; [|done].
      apply N.even_spec in Hev as [q ->]. rewrite (N.mul_comm 2 q), N.div_mul; lia.
    + destruct (Flat.odd_half o2 Hev) as [E1 E2].
      rewrite (proj2 (N.ltb_lt _ _)) by (apply Flat.idx_lt_mono; lia).
      rewrite wrap64_add_l, ref_size by (done || (unfold Flat.complete in *; nia)).
      replace ((o2 - 1 + 1) * 2 ^ d2) with (o2 * 2 ^ d2) by (f_equal; lia).
      replace (o2 / 2 * (2 * 2 ^ d2)) with ((o2 - 1) * 2 ^ d2) in * by lia.
      assert (cum blocks ((o2 - 1) * 2 ^ d2) <= cum blocks (o2 * 2 ^ d2)) by (apply cum_mono; nia).
      assert (cum blocks (O * 2 ^ D) <= cum blocks ((o2 - 1) * 2 ^ d2)) by (by apply cum_mono).
      f_equal. lia.
Qed.

Lemma SeekProof_verify_sound blocks p res :
  lenN blocks <= Flat.max_blocks -> blocks_ok blocks -> total_bytes blocks < two64 ->
  seek_proof_ok p -> collision_free (hash_inputs blocks ++ seek_proof_inputs p) ->
  SeekProof_verify p (ref_root_hash blocks) = Some res ->
  res = seek_linear blocks 0 (sp_bytes p) /\ sp_bytes p < total_bytes blocks.
Proof.
  intros Hn Hb Ht (Hleaf & Hs & Hrs) Hcf. unfold SeekProof_verify.
  destruct (N.eqb_spec (N.land (index (sp_leaf p)) 1) 0) as [Hpar|]; [|done]. cbn [negb].
  destruct (seek_climb _ 0 _) as [[top lsum]|] eqn:Esc; [|done]. rsimpl.
  destruct (root_left (index top) (sp_roots p)) as [found rsum] eqn:Erl.
  destruct found; [|done]. cbn [negb].
  destruct (substitute (sp_roots p) (index top) top) as [rs'|] eqn:Es; [|done]. rsimpl.
  case_bool_decide as Et; [done|].
  pose proof (seek_climb_climb _ _ _ _ _ Esc) as Ec.
  pose proof (root_left_substitute _ _ _ _ (false, 0) eq_refl Es) as Erl2.
  change (root_left (index top) rs' = root_left (index top) (sp_roots p)) in Erl2. rewrite Erl in Erl2.
  destruct (path_sound blocks (sp_leaf p) (sp_siblings p) (sp_roots p) top rs') as [-> _]; try done.
  apply substitute_in in Es. pose proof Es as Es2.
  apply in_ref_roots in Es2 as (D & O & -> & HcD); [|done].
  assert (HrD : Flat.idx D O ∈ Flat.roots_of (lenN blocks)).
  { rewrite <- ref_roots_index by done. apply (list_elem_of_fmap_2 index) in Es. by rewrite ref_index in Es. }
  rewrite ref_index, root_left_ref in Erl2 by done. injection Erl2 as <-.
  eapply (seek_climb_sound blocks) in Esc as (d & o & El & Hc & Hle & ->); try done;
    [|eapply collision_free_sub; [|done]; unfold seek_proof_inputs; sub_list].
  rewrite El, ref_index, Flat.idx_parity in Hpar. destruct (N.eqb_spec d 0) as [->|]; [|done].
  rewrite N.pow_0_r, N.mul_1_r in *. apply Flat.complete_0 in Hc as Ho.
  assert (cum blocks (O * 2 ^ D) <= cum blocks o) by (by apply cum_mono).
  pose proof (cum_total blocks o). pose proof (cum_total blocks (o + 1)).
  rewrite N.add_0_l, (wrap64_small (cum blocks o - _)), wrap64_small by lia.
  replace (cum blocks (O * 2 ^ D) + (cum blocks o - cum blocks (O * 2 ^ D))) with (cum blocks o) by lia.
  destruct (N.ltb_spec (sp_bytes p) (cum blocks o)); [done|].
  rewrite El, ref_0. cbn [leaf_node size index].
  destruct (N.leb_spec (lenN (block_at blocks o)) (sp_bytes p - cum blocks o)); [done|].
  intros [= <-]. rewrite cum_succ in *.
  rewrite (seek_linear_spec blocks 0 (sp_bytes p) o) by (done || rewrite cum_succ; lia).
  split; [|lia]. f_equal. rewrite Flat.idx_0, N.mul_comm. by apply N.div_mul.
Qed.

(** ** Repairing a tree *)

(** A tree in repair mode: some nodes are gone, the rest are right. *)
Definition partial_tree (blocks : list bytes) (t : MerkleTree) : Prop :=
  length t = lenN blocks /\
  forall i n, nodes t !! i = Some n ->
    exists d o, i = Flat.idx d o /\ Flat.complete (lenN blocks) d o /\ n = ref blocks d o.

Lemma full_partial blocks t : full_tree blocks t -> partial_tree blocks t.
Proof. intros Hf. split; [apply Hf|]. intros i n. by apply full_lookup_inv. Qed.

Lemma partial_intact_full blocks t :
  lenN blocks <= Flat.max_blocks -> partial_tree blocks t -> is_intact t = true -> full_tree blocks t.
Proof.
  intros Hn [El Hp] Hi. split; [done|]. intros d o. rewrite is_intact_spec, El in Hi by (by rewrite El).
  case_decide as Hc.
  - destruct (Hi d o Hc) as [n En]. rewrite En. f_equal.
    by destruct (Hp _ _ En) as (d' & o' & [-> ->]%Flat.idx_inj & _ & ->).
  - destruct (nodes t !! Flat.idx d o) as [n|] eqn:En; [|done].
    destruct (Hp _ _ En) as (d' & o' & [-> ->]%Flat.idx_inj & Hc' & _). done.
Qed.

Lemma recover_node_partial blocks t p :
  lenN blocks <= Flat.max_blocks -> blocks_ok blocks -> node_proof_ok p ->
  collision_free (hash_inputs blocks ++ node_proof_inputs p) -> partial_tree blocks t ->
  let '(t', ok) := recover_node t p (ref_root_hash blocks) in
  partial_tree blocks t' /\ (ok = false -> t' = t) /\
  (ok = true -> nodes t' = <[index (np_node p) := np_node p]> (nodes t)).
Proof.
  intros Hn Hb Hok Hcf Hp. unfold recover_node.
  destruct (NodeProof_verify p (ref_root_hash blocks)) as [n|] eqn:E; [|by split_and!].
  assert (En : n = np_node p).
  { unfold NodeProof_verify in E. destruct (climb _ _); [|done]. rsimpl_in E.
    destruct (substitute _ _ _); [|done]. rsimpl_in E. case_bool_decide; congruence. }
  destruct (NodeProof_verify_sound blocks p n) as (d & o & Er & Hc); try done.
  split_and!; [|done|by rewrite En]. destruct Hp as [El Hp]. split; [done|].
  intros i n'. cbn [nodes]. rewrite lookup_insert_Some. intros [[<- <-]|[_ Hi]]; [|by apply Hp].
  exists d, o. rewrite Er, ref_index. done.
Qed.
End Seek.
End MerkleSeek.
