(* ===== verification/MerkleFork.v ===== *)
(** * Root hashes commit to logs: forks, ancestors, reorgs and upgrades

    Two logs with the same root hash are equal, so a root hash at a length
    stands for the blocks before it.  On that rest the search for the lowest
    common ancestor of two trees, [reorg], and the length-extension proof
    [UpgradeProof], whose verifier accepts only logs that extend the trusted
    one.  Collisions are excluded on the inputs hashed in the run at hand. *)
From S2P Require Import Prelude Flat Merkle MerkleSpec MerkleProofs.

Module MerkleFork.
Import Merkle MerkleSpec MerkleProofs.

Section Fork.
Context `{HasherLaws}.

(** ** Commitment *)

Lemma roots_of_le n m :
  n <= Flat.max_blocks -> m <= Flat.max_blocks -> Flat.roots_of n = Flat.roots_of m -> n <= m.
Proof.
  intros Hn Hm E. destruct (N.le_gt_cases n m) as [?|G]; [done|exfalso].
  destruct (Flat.roots_cover n m Hn G) as (d & o & Hin & Hk). rewrite E in Hin.
  apply Flat.roots_of_spec in Hin as [Hc _]; [|done]. unfold Flat.complete in Hc. lia.
Qed.

Lemma roots_of_inj n m :
  n <= Flat.max_blocks -> m <= Flat.max_blocks -> Flat.roots_of n = Flat.roots_of m -> n = m.
Proof. intros Hn Hm E. apply N.le_antisymm; by apply roots_of_le. Qed.

(** Equal node hashes mean equal blocks below. *)
Lemma ref_inj b1 b2 d o k :
  lenN b1 <= Flat.max_blocks -> lenN b2 <= Flat.max_blocks -> blocks_ok b1 -> blocks_ok b2 ->
  collision_free (hash_inputs b1 ++ hash_inputs b2) ->
  Flat.complete (lenN b1) d o -> Flat.complete (lenN b2) d o ->
  hash (ref b1 d o) = hash (ref b2 d o) -> o * 2 ^ d <= k < (o + 1) * 2 ^ d ->
  block_at b1 k = block_at b2 k.
Proof.
  intros Hn1 Hn2 Hb1 Hb2 Hcf. revert o; induction d as [|d IH] using N.peano_ind; intros o Hc1 Hc2 E Hk.
  - rewrite !ref_0 in E. rewrite N.pow_0_r in Hk. assert (k = o) as -> by lia.
    apply Flat.complete_0 in Hc1, Hc2.
    apply Hcf in E; [|apply elem_of_app; left; by apply in_leaf|apply elem_of_app; right; by apply in_leaf].
    by apply leaf_input_inj in E; [|by apply block_at_ok..].
  - rewrite <- N.add_1_r in *. rewrite !ref_input in E.
    apply Hcf in E; [|apply elem_of_app; left; by apply in_parent|apply elem_of_app; right; by apply in_parent].
    unfold Flat.complete in *. rewrite Flat.pow2_S in *. pose proof (Flat.pow2_pos d).
    assert (Hr : forall b p, lenN b <= Flat.max_blocks -> blocks_ok b -> (p + 1) * 2 ^ d <= lenN b -> node_ok (ref b d p)).
    { intros b p Hn Hb Hp. apply ref_ok; [done|]. apply Flat.small_fits. unfold Flat.small. lia. }
    apply parent_input_inj in E as [[E1 _] [E2 _]]; [|apply Hr; (done || nia)..].
    destruct (N.lt_ge_cases k ((2 * o + 1) * 2 ^ d)).
    + apply (IH (2 * o)); (done || nia).
    + apply (IH (2 * o + 1)); (done || nia).
Qed.

Lemma blocks_ext b1 b2 :
  lenN b1 = lenN b2 -> (forall k, k < lenN b1 -> block_at b1 k = block_at b2 k) -> b1 = b2.
Proof.
  intros El Hk. apply list_eq. intros i. destruct (decide (i < List.length b1)%nat) as [L|G].
  - rewrite <- (Nat2N.id i). unfold lenN in *.
    rewrite !block_at_lookup by (unfold lenN; lia). f_equal. apply Hk. lia.
  - unfold lenN in *. rewrite !lookup_ge_None_2 by lia. done.
Qed.

Lemma ref_roots_same b1 b2 :
  lenN b1 <= Flat.max_blocks -> lenN b2 <= Flat.max_blocks -> blocks_ok b1 -> blocks_ok b2 ->
  collision_free (hash_inputs b1 ++ hash_inputs b2) ->
  ref_roots b1 = ref_roots b2 -> b1 = b2.
Proof.
  intros Hn1 Hn2 Hb1 Hb2 Hcf E.
  assert (El : lenN b1 = lenN b2).
  { apply roots_of_inj; [done..|]. by rewrite <- (ref_roots_index b1), <- (ref_roots_index b2), E. }
  apply blocks_ext; [done|]. intros k Hk.
  destruct (Flat.roots_cover (lenN b1) k Hn1 Hk) as (d & o & Hin & Hko).
  pose proof Hin as Hin2. apply Flat.roots_of_spec in Hin2 as [Hc _]; [|done].
  pose proof (Flat.small_fits d o (Flat.complete_small _ _ _ Hn1 Hc)) as Hf.
  apply (ref_inj b1 b2 d o); try done; [by rewrite <- El|].
  assert (Er : ref b1 d o ∈ ref_roots b2) by (rewrite <- E; by apply root_in_ref_roots).
  apply list_elem_of_fmap in Er as (i & Ei & Hi).
  assert (i = Flat.idx d o) as ->.
  { destruct (roots_complete _ _ Hn2 Hi) as (d' & o' & -> & Hc' & Hf').
    rewrite Flat.depth_idx, Flat.offset_idx in Ei by done.
    by rewrite <- (ref_index b1 d o), Ei, ref_index. }
  by rewrite Ei, Flat.depth_idx, Flat.offset_idx.
Qed.

Lemma root_hash_commits b1 b2 :
  lenN b1 <= Flat.max_blocks -> lenN b2 <= Flat.max_blocks -> blocks_ok b1 -> blocks_ok b2 ->
  collision_free (hash_inputs b1 ++ hash_inputs b2) ->
  ref_root_hash b1 = ref_root_hash b2 -> b1 = b2.
Proof.
  intros Hn1 Hn2 Hb1 Hb2 Hcf E. apply Hcf in E;
    [|apply elem_of_app; left; apply in_root|apply elem_of_app; right; apply in_root].
  apply tree_input_inj in E; [|by apply ref_roots_ok..]. by apply ref_roots_same.
Qed.

(** ** Prefixes *)

Lemma blocks_ok_take n b : blocks_ok b -> blocks_ok (take n b).
Proof. apply Forall_take. Qed.

Lemma ref_roots_take2 k j b :
  k <= j -> ref_roots (take (N.to_nat k) (take (N.to_nat j) b)) = ref_roots (take (N.to_nat k) b).
Proof. intros Hk. rewrite take_take. do 2 f_equal. lia. Qed.

Lemma hash_inputs_take k b :
  lenN b <= Flat.max_blocks -> k <= lenN b -> hash_inputs (take (N.to_nat k) b) ⊆ hash_inputs b.
Proof.
  intros Hn Hk x. unfold hash_inputs at 1. rewrite lenN_take by done. rewrite !elem_of_app.
  intros [Hx|[Hx|Hx]].
  - apply list_elem_of_fmap in Hx as (y & -> & Hy). apply elem_of_app. left.
    apply list_elem_of_fmap_2. by eapply elem_of_take in Hy as (? & ? & _); eapply list_elem_of_lookup_2.
  - apply list_elem_of_omap in Hx as (i & Hi%elem_of_rangeN & Ex).
    destruct (Flat.idx_exists i) as (d & o & ->). unfold parent_input_at in Ex.
    assert (2 * Flat.max_blocks < two64) by done.
    assert (Hf : Flat.fits d o) by (unfold Flat.fits; rewrite <- Flat.idx_succ; lia).
    rewrite Flat.block_range_idx, lenN_take in Ex by done. cbn [snd] in Ex.
    destruct (N.leb_spec ((o + 1) * 2 ^ d) k) as [Hc|]; [|done].
    destruct (N.eq_dec d 0) as [->|Hd]; [by rewrite Flat.children_leaf in Ex|].
    replace d with (N.pred d + 1) in * by lia. set (e := N.pred d) in *. clearbody e.
    rewrite Flat.children_idx in Ex by done. injection Ex as <-.
    unfold Flat.complete in *. rewrite Flat.pow2_S in Hc. pose proof (Flat.pow2_pos e).
    rewrite !ref_at_idx, !ref_take
      by (try (apply Flat.small_fits; unfold Flat.small); unfold Flat.complete; nia).
    apply in_parent; [done|]. unfold Flat.complete. rewrite Flat.pow2_S. nia.
  - apply list_elem_of_fmap in Hx as (j & -> & Hj%elem_of_rangeN).
    rewrite ref_roots_take2 by lia. apply in_tree. lia.
Qed.

(** ** The lowest common ancestor *)

Fixpoint common_prefix (b1 b2 : list bytes) : N :=
  match b1, b2 with
  | x :: b1', y :: b2' => if bool_decide (x = y) then common_prefix b1' b2' + 1 else 0
  | _, _ => 0
  end.

Lemma common_prefix_spec b1 b2 a :
  a <= N.min (lenN b1) (lenN b2) ->
  take (N.to_nat a) b1 = take (N.to_nat a) b2 <-> a <= common_prefix b1 b2.
Proof.
  revert b2 a; induction b1 as [|x b1 IH]; intros [|y b2] a Ha; rewrite ?lenN_cons in Ha; cbn [common_prefix].
  1,2,3: assert (a = 0) as -> by (unfold lenN in Ha; cbn in Ha; lia); done.
  destruct (N.eq_dec a 0) as [->|Hz]; [split; [intros _; apply N.le_0_l|done]|].
  replace (N.to_nat a) with (S (N.to_nat (a - 1))) by lia. cbn [take].
  case_bool_decide as E.
  - subst y. specialize (IH b2 (a - 1) ltac:(lia)). split.
    + intros [= Et]. apply IH in Et. lia.
    + intros Hle. f_equal. apply IH. lia.
  - split; [by intros [= ? ?]|lia].
Qed.

Lemma common_prefix_bound b1 b2 : common_prefix b1 b2 <= N.min (lenN b1) (lenN b2).
Proof.
  revert b2; induction b1 as [|x b1 IH]; intros [|y b2]; cbn [common_prefix]; try lia.
  rewrite !lenN_cons. case_bool_decide; [|lia]. specialize (IH b2). lia.
Qed.

(** The search finds the last point of a downward-closed predicate. *)
Lemma lca_loop_spec f p lo hi c :
  lo <= c <= hi -> hi < two64 / 2 -> (forall a, a <= hi -> p a = true <-> a <= c) ->
  hi - lo < 2 ^ N.of_nat f -> lca_loop f p lo hi = c.
Proof.
  revert lo hi; induction f as [|f IH]; intros lo hi Hc Hhi Hp Hf; cbn [lca_loop].
  { cbn in Hf. lia. }
  destruct (N.ltb_spec lo hi) as [L|]; [|lia].
  rewrite Nat2N.inj_succ, N.pow_succ_r' in Hf.
  change (two64 / 2) with 9223372036854775808 in Hhi.
  rewrite wrap64_small by (unfold two64; lia).
  assert (Hm : lo < (lo + hi + 1) / 2 <= hi /\ hi - (lo + hi + 1) / 2 <= (hi - lo) / 2
    /\ (lo + hi + 1) / 2 - 1 - lo <= (hi - lo) / 2) by dlia.
  set (mid := (lo + hi + 1) / 2) in *. clearbody mid.
  destruct (p mid) eqn:Em.
  - apply Hp in Em; [|lia]. apply IH; [lia|done|done|]. dlia.
  - assert (~ mid <= c) by (intros Hle; apply Hp in Hle; [congruence|lia]).
    apply IH; [lia|change (two64 / 2) with 9223372036854775808; lia|intros a Ha; apply Hp; lia|dlia].
Qed.

Lemma agree_spec b1 b2 t1 t2 a :
  full_tree b1 t1 -> full_tree b2 t2 ->
  lenN b1 <= Flat.max_blocks -> lenN b2 <= Flat.max_blocks -> blocks_ok b1 -> blocks_ok b2 ->
  collision_free (hash_inputs b1 ++ hash_inputs b2) -> a <= N.min (lenN b1) (lenN b2) ->
  agree t1 t2 a = true <-> take (N.to_nat a) b1 = take (N.to_nat a) b2.
Proof.
  intros Ht1 Ht2 Hn1 Hn2 Hb1 Hb2 Hcf Ha. unfold agree.
  destruct (N.eqb_spec a 0) as [->|Hz]; [by split|]. cbn [orb].
  unfold prefix_root_hash. rewrite (prefix_roots_full b1), (prefix_roots_full b2) by (done || lia). rsimpl.
  rewrite bool_decide_eq_true. split; [|by intros ->]. intros E.
  apply root_hash_commits; rewrite ?lenN_take by lia; try lia; [by apply blocks_ok_take..| |done].
  eapply collision_free_sub; [|done].
  pose proof (hash_inputs_take a b1 Hn1 ltac:(lia)). pose proof (hash_inputs_take a b2 Hn2 ltac:(lia)).
  intros x [Hx|Hx]%elem_of_app; apply elem_of_app; auto.
Qed.

Lemma lca_full b1 b2 t1 t2 :
  full_tree b1 t1 -> full_tree b2 t2 ->
  lenN b1 <= Flat.max_blocks -> lenN b2 <= Flat.max_blocks -> blocks_ok b1 -> blocks_ok b2 ->
  collision_free (hash_inputs b1 ++ hash_inputs b2) ->
  lowest_common_ancestor t1 t2 = common_prefix b1 b2.
Proof.
  intros Ht1 Ht2 Hn1 Hn2 Hb1 Hb2 Hcf. unfold lowest_common_ancestor.
  pose proof Ht1 as [-> _]. pose proof Ht2 as [-> _]. pose proof (common_prefix_bound b1 b2).
  assert (Hmax : Flat.max_blocks < two64 / 2) by done.
  apply lca_loop_spec; [lia|lia| |rewrite N.sub_0_r; apply Flat.size_nat_pow].
  intros a Ha. rewrite (agree_spec b1 b2) by done. by apply common_prefix_spec.
Qed.

Lemma lca_loop_bound f p lo hi : lo <= hi -> hi < two64 / 2 -> lca_loop f p lo hi <= hi.
Proof.
  change (two64 / 2) with 9223372036854775808.
  revert lo hi; induction f as [|f IH]; intros lo hi Hle Hhi; cbn [lca_loop]; [done|].
  destruct (N.ltb_spec lo hi); [|done]. rewrite wrap64_small by (unfold two64; lia).
  assert (lo < (lo + hi + 1) / 2 <= hi) by dlia.
  destruct (p _); [apply IH; lia|]. etransitivity; [apply IH; lia|lia].
Qed.

(** Following another tree leaves exactly that tree. *)
Lemma reorg_full b1 b2 t1 t2 :
  full_tree b1 t1 -> full_tree b2 t2 -> lenN b1 <= Flat.max_blocks -> lenN b2 <= Flat.max_blocks ->
  reorg t1 t2 = (t2, lowest_common_ancestor t1 t2).
Proof.
  intros Ht1 Ht2 Hn1 Hn2. unfold reorg. rewrite foldl_insert_bmap. f_equal.
  set (a := lowest_common_ancestor t1 t2).
  assert (Ha : a <= N.min (lenN b1) (lenN b2)).
  { destruct Ht1 as [E1 _], Ht2 as [E2 _]. rewrite <- E1, <- E2. apply lca_loop_bound; [lia|].
    assert (Flat.max_blocks < two64 / 2) by done. lia. }
  assert (Hfull : full_tree (take (N.to_nat a) b1) (truncate t1 a).1).
  { destruct (N.lt_ge_cases a (lenN b1)) as [L|G].
    - destruct (truncate_full b1 t1 a) as (t' & -> & Ht'); done.
    - unfold truncate. pose proof Ht1 as [El _]. rewrite El, (proj2 (N.leb_le _ _)) by done.
      rewrite take_ge; [done|]. unfold lenN in G. lia. }
  destruct t2 as [m2 l2]. f_equal. apply map_eq. intros i. cbn [nodes].
  destruct (m2 !! i) as [n|] eqn:E2; [by apply lookup_union_Some_l|].
  rewrite lookup_union_r by done. destruct (nodes (truncate t1 a).1 !! i) as [n|] eqn:E1; [|done].
  apply (full_lookup_inv _ _ _ _ Hfull) in E1 as (d & o & -> & Hc & _).
  rewrite lenN_take in Hc by lia. destruct Ht2 as [_ Hf2]. cbn [nodes] in Hf2.
  rewrite Hf2, decide_True in E2; [done|]. unfold Flat.complete in *. lia.
Qed.

(** ** Upgrade proofs: soundness *)

(** The pairs of siblings in the frontier: what the climb can hash. *)
Definition pair_inputs (known : gmap N Node) : list bytes :=
  omap (λ c,
    cn ← known !! c; sn ← known !! Flat.sibling c;
    Some (if Flat.sibling c <? c then parent_input sn cn else parent_input cn sn)) (bmap_keys known).

Definition seed_roots (old_roots : list Node) : gmap N Node :=
  foldl (λ m n, <[index n := n]> m) ∅ old_roots.

Definition upgrade_inputs (p : UpgradeProof) (old_roots : list Node) : list bytes :=
  match upgrade_known (old_len p) (new_len p) (up_nodes p) (seed_roots old_roots) with
  | Some known => match upgrade_climb 4096 known with
                  | Some known =>
                      pair_inputs known ++
                      match mapM (λ i, known !! i) (Flat.roots_of (new_len p)) with
                      | Some new_roots => [tree_input new_roots]
                      | None => []
                      end
                  | None => []
                  end
  | None => []
  end.

(** Every known node is a seed or the parent of two known siblings. *)
Definition derived (seed known : gmap N Node) : Prop :=
  seed ⊆ known /\
  forall i n, known !! i = Some n -> seed !! i = Some n \/
    exists c cn sn, u64_ok c /\ Flat.parent c = i /\ known !! c = Some cn /\ known !! Flat.sibling c = Some sn /\
      n = if Flat.sibling c <? c then parent_node i sn cn else parent_node i cn sn.

Definition keys_ok (m : gmap N Node) : Prop := map_Forall (λ i n, index n = i /\ node_ok n) m.

Lemma upgrade_step_derived seed st c :
  keys_ok st.1 -> derived seed st.1 ->
  keys_ok (upgrade_step st c).1 /\ derived seed (upgrade_step st c).1 /\ st.1 ⊆ (upgrade_step st c).1.
Proof.
  destruct st as [known changed]. intros Hk [Hs Hd]. unfold upgrade_step. cbn [fst] in *.
  destruct (known !! c) as [cn|] eqn:Ec; [|done].
  destruct (known !! Flat.sibling c) as [sn|] eqn:Esn; [|done].
  destruct (known !! Flat.parent c) as [|] eqn:Ep; [done|]. cbn [fst].
  set (n := if Flat.sibling c <? c then _ else _).
  assert (Hsub : known ⊆ <[Flat.parent c := n]> known) by (by apply insert_subseteq).
  split_and!; [|split|done].
  - apply map_Forall_insert_2; [|done]. split.
    + unfold n. by destruct (_ <? _).
    + unfold n. destruct (_ <? _); apply parent_node_ok, index_u64.
  - by etransitivity.
  - intros i n'. rewrite lookup_insert_Some. intros [[<- <-]|[Hne Hi]].
    + right. exists c, cn, sn. split_and!; [|done|by eapply lookup_weaken..|done].
      destruct (Hk _ _ Ec) as [<- Hok]. apply Hok.
    + destruct (Hd _ _ Hi) as [?|(c' & cn' & sn' & ? & <- & E1 & E2 & E3)]; [by left|].
      right. exists c', cn', sn'. split_and!; [done|done|by eapply lookup_weaken..|done].
Qed.

Lemma upgrade_fold_derived seed l st :
  keys_ok st.1 -> derived seed st.1 ->
  keys_ok (foldl upgrade_step st l).1 /\ derived seed (foldl upgrade_step st l).1.
Proof.
  revert st; induction l as [|c l IH]; intros st Hk Hd; [done|]. cbn [foldl].
  destruct (upgrade_step_derived seed st c) as (? & ? & ?); [done..|]. by apply IH.
Qed.

Lemma upgrade_climb_derived seed f known known' :
  keys_ok known -> derived seed known -> upgrade_climb f known = Some known' ->
  keys_ok known' /\ derived seed known'.
Proof.
  revert known; induction f as [|f IH]; intros known Hk Hd; cbn [upgrade_climb]; [done|].
  pose proof (upgrade_fold_derived seed (bmap_keys known) (known, false) Hk Hd) as [Hk' Hd'].
  destruct (foldl upgrade_step (known, false) (bmap_keys known)) as [k2 ch]. cbn [fst] in *.
  destruct ch; [by apply IH|]. by intros [= <-].
Qed.

(** The seeds are the trusted roots and nodes that start past them. *)
Lemma upgrade_known_spec old new_ l known known' :
  upgrade_known old new_ l known = Some known' -> Forall node_ok l -> keys_ok known ->
  keys_ok known' /\ known ⊆ known' /\
  forall i n, known' !! i = Some n -> known !! i = Some n \/ old <= (Flat.block_range i).1.
Proof.
  revert known; induction l as [|n l IH]; intros known; cbn [upgrade_known].
  - intros [= <-] _ Hk. split_and!; [done..|]. by left.
  - destruct (Flat.block_range (index n)) as [first stop] eqn:Eb.
    destruct ((first <? old) || (new_ <? stop)) eqn:Eg; [done|].
    destruct (known !! index n) eqn:En; [done|]. intros Hu [Hn Hl]%Forall_cons Hk.
    destruct (IH _ Hu Hl) as (Hk' & Hs & Hin); [by apply map_Forall_insert_2|].
    split_and!; [done|by etransitivity; [apply insert_subseteq|]|].
    intros i n' Hi. destruct (Hin _ _ Hi) as [Hi2|?]; [|by right].
    apply lookup_insert_Some in Hi2 as [[<- <-]|[_ ?]]; [right|by left].
    rewrite Eb. reflect_bools. cbn. lia.
Qed.

Lemma seed_roots_spec rs (m : gmap N Node) i n :
  foldl (λ m n, <[index n := n]> m) m rs !! i = Some n ->
  (n ∈ rs /\ index n = i) \/ m !! i = Some n.
Proof.
  revert m; induction rs as [|r rs IH]; intros m; cbn [foldl]; [by right|].
  intros [[? ?]|Hi]%IH; [left; split; [by right|done]|].
  apply lookup_insert_Some in Hi as [[<- <-]|[_ ?]]; [left; split; [by left|done]|by right].
Qed.

Lemma seed_roots_in rs (m : gmap N Node) n :
  NoDup (index <$> rs) -> n ∈ rs -> foldl (λ m n, <[index n := n]> m) m rs !! index n = Some n.
Proof.
  revert m; induction rs as [|r rs IH]; intros m Hnd Hin; [by apply elem_of_nil in Hin|].
  apply NoDup_cons in Hnd as [Hr Hnd]. cbn [foldl]. apply elem_of_cons in Hin as [->|Hin]; [|by apply IH].
  assert (Hk : forall m' : gmap N Node, m' !! index r = Some r ->
    foldl (λ m n, <[index n := n]> m) m' rs !! index r = Some r).
  { clear IH Hnd. induction rs as [|r' rs IH]; intros m' Hm; cbn [foldl fmap list_fmap] in *; [done|].
    apply not_elem_of_cons in Hr as [Hne Hr]. apply IH; [done|]. by rewrite lookup_insert_ne. }
  apply Hk, lookup_insert_eq.
Qed.

Section Upgrade.
Context (old_blocks new_blocks : list bytes) (p : UpgradeProof).
Context (Hn_new : lenN new_blocks <= Flat.max_blocks) (Hn_old : lenN old_blocks < lenN new_blocks).
Context (Hb_old : blocks_ok old_blocks) (Hb_new : blocks_ok new_blocks).
Context (known : gmap N Node).
Context (Hcf : collision_free (hash_inputs old_blocks ++ hash_inputs new_blocks ++ pair_inputs known)).
Context (seed : gmap N Node) (Hseed : forall i n, seed !! i = Some n ->
  n ∈ ref_roots old_blocks \/ lenN old_blocks <= (Flat.block_range i).1).
Context (Hkeys : keys_ok known) (Hder : derived seed known).

Let n_old := lenN old_blocks.
Let n_new := lenN new_blocks.

(** A known node across the boundary was built from its two children. *)
Lemma straddle_children d o :
  Flat.complete n_new (d + 1) o -> ~ Flat.complete n_old (d + 1) o -> o * 2 ^ (d + 1) < n_old ->
  known !! Flat.idx (d + 1) o = Some (ref new_blocks (d + 1) o) ->
  known !! Flat.idx d (2 * o) = Some (ref new_blocks d (2 * o)) /\
  known !! Flat.idx d (2 * o + 1) = Some (ref new_blocks d (2 * o + 1)).
Proof.
  intros Hc Hnc Hst Hk. assert (Hsm : Flat.small (d + 1) o) by (unfold Flat.small, Flat.complete in *; unfold n_new in *; lia).
  destruct (proj2 Hder _ _ Hk) as [Hs|(c & cn & sn & Hu & Ep & Ec & Es & En)].
  { exfalso. destruct (Hseed _ _ Hs) as [Hr|Hb].
    - apply in_ref_roots in Hr as (d' & o' & E & Hc'); [|lia].
      apply (f_equal index) in E. rewrite !ref_index in E. apply Flat.idx_inj in E as [<- <-]. done.
    - rewrite Flat.block_range_idx in Hb by (by apply Flat.small_fits). unfold n_old in Hst. cbn in Hb. lia. }
  apply Flat.parent_inv in Ep as (o' & -> & <-); [|done..].
  assert (Hfc : climb_step cn sn = Some (ref new_blocks (d + 1) (o' / 2))).
  { unfold climb_step. destruct (Hkeys _ _ Ec) as [-> _], (Hkeys _ _ Es) as [-> _].
    rewrite N.eqb_refl. cbn [negb]. rewrite En.
    assert (Hsm' : Flat.small d o').
    { unfold Flat.small in *. rewrite Flat.pow2_S in Hsm. pose proof (Flat.half_le o'). pose proof (Flat.pow2_pos d). nia. }
    rewrite Flat.parent_idx by (by apply Flat.small_fits || (by apply Flat.small_depth in Hsm')).
    by destruct (_ <? _). }
  apply (climb_step_sound new_blocks) in Hfc as (d' & o'' & -> & -> & Ed & Eo); [|done|done| |by eapply Hkeys|by eapply Hkeys|done].
  - assert (d' = d) as -> by lia. destruct (Hkeys _ _ Ec) as [E1 _].
    rewrite ref_index in E1. apply Flat.idx_inj in E1 as [_ <-].
    destruct (Hkeys _ _ Es) as [E2 _]. rewrite ref_index in E2. rewrite <- E2 in Es. rewrite Flat.lxor_1 in Es.
    destruct (N.even o'') eqn:Hev.
    + assert (2 * (o'' / 2) = o'') as -> by (apply N.even_spec in Hev as [q ->]; dlia). done.
    + by destruct (Flat.odd_half o'' Hev) as [-> ->].
  - eapply collision_free_sub; [|exact Hcf]. intros x. rewrite !elem_of_app, list_elem_of_singleton.
    intros [Hx| ->]; [tauto|]. right. right. apply list_elem_of_omap.
    exists (Flat.idx d o'). split; [apply bmap_keys_elem; eauto|]. rewrite Ec, Es. rsimpl.
    by destruct (Hkeys _ _ Ec) as [-> _], (Hkeys _ _ Es) as [-> _].
Qed.

(** So an authentic known node is authentic all the way down to the old roots. *)
Lemma descend_to_old e d o :
  Flat.complete n_new (d + e) (o / 2 ^ e) -> Flat.idx d o ∈ Flat.roots_of n_old ->
  known !! Flat.idx (d + e) (o / 2 ^ e) = Some (ref new_blocks (d + e) (o / 2 ^ e)) ->
  known !! Flat.idx d o = Some (ref new_blocks d o).
Proof.
  intros Hc Hr. revert Hc. induction e as [|e IH] using N.peano_ind; intros Hc Hk.
  { by rewrite N.add_0_r, N.pow_0_r, N.div_1_r in Hk. }
  rewrite <- N.add_1_r, N.add_assoc in *. rewrite Flat.pow2_S, N.mul_comm, <- N.Div0.div_div in *.
  set (q := o / 2 ^ e) in *.
  assert (Hq : q * 2 ^ e <= o < (q + 1) * 2 ^ e).
  { pose proof (Flat.pow2_pos e). pose proof (N.div_mod' o (2 ^ e)) as E1.
    pose proof (N.mod_lt o (2 ^ e) ltac:(lia)) as E2. fold q in E1. clearbody q.
    generalize dependent (o mod 2 ^ e). generalize dependent (2 ^ e). clear. intros. nia. }
  apply Flat.roots_of_spec in Hr as Hr2; [|unfold n_old; lia]. destruct Hr2 as [Hc1 Hc2].
  assert (Ed : 2 ^ (d + e) = 2 ^ d * 2 ^ e) by apply N.pow_add_r.
  pose proof (Flat.half_le q) as Hh. pose proof (Flat.pow2_pos d). pose proof (Flat.pow2_pos e).
  destruct (straddle_children (d + e) (q / 2)) as [Hl Hrt]; [done| | |done|].
  - intros Hold. apply Hc2. unfold Flat.complete in *. rewrite Flat.pow2_S in *. rewrite Ed in Hold.
    assert (Ho2 : o < (q / 2 + 1) * 2 * 2 ^ e) by nia.
    assert (Ho : o / 2 + 1 <= (q / 2 + 1) * 2 ^ e) by (pose proof (Flat.half_le o); lia).
    etransitivity; [|exact Hold]. apply (N.mul_le_mono_r _ _ (2 * 2 ^ d)) in Ho.
    etransitivity; [exact Ho|]. lia.
  - unfold Flat.complete in Hc1. rewrite Flat.pow2_S, Ed.
    assert (Hq2 : q / 2 * 2 * 2 ^ e <= o) by nia.
    apply (N.mul_le_mono_r _ _ (2 ^ d)) in Hq2. lia.
  - assert (Hcq : Flat.complete n_new (d + e) q) by (by apply Flat.complete_child).
    apply IH; [done|]. destruct (N.even q) eqn:Hev.
    + assert (E2 : 2 * (q / 2) = q) by (apply N.even_spec in Hev as [z ->]; dlia). by rewrite E2 in Hl.
    + destruct (Flat.odd_half q Hev) as [_ E2]. by rewrite E2 in Hrt.
Qed.
End Upgrade.

Lemma mapM_lookup_index (known : gmap N Node) l ns :
  keys_ok known -> mapM (λ i, known !! i) l = Some ns ->
  Forall node_ok ns /\ index <$> ns = l /\ forall n, n ∈ ns -> known !! index n = Some n.
Proof.
  intros Hk. revert ns; induction l as [|i l IH]; intros ns; cbn [mapM].
  - intros [= <-]. split_and!; [done..|]. by intros n ?%elem_of_nil.
  - destruct (known !! i) as [n|] eqn:E; [|done]. rsimpl.
    destruct (mapM _ l) as [ns'|]; [|done]. rsimpl. intros [= <-].
    destruct (IH _ eq_refl) as (H1 & H2 & H3). destruct (Hk _ _ E) as [Ei Hok].
    split_and!; [by constructor|cbn; congruence|].
    intros n' [->|Hn']%elem_of_cons; [by rewrite Ei|by apply H3].
Qed.

Lemma known_authentic new_blocks (known : gmap N Node) ns :
  lenN new_blocks <= Flat.max_blocks ->
  ns = ref_roots new_blocks -> (forall n, n ∈ ns -> known !! index n = Some n) ->
  forall d o, Flat.fits d o -> Flat.idx d o ∈ Flat.roots_of (lenN new_blocks) ->
  known !! Flat.idx d o = Some (ref new_blocks d o).
Proof.
  intros Hn -> Hin d o Hf Hr. rewrite <- (ref_index new_blocks d o). by apply Hin, root_in_ref_roots.
Qed.

(** The node over block [k] at a depth between a leaf and its root. *)
Lemma root_above n m d o :
  n <= Flat.max_blocks -> m < n -> Flat.idx d o ∈ Flat.roots_of m ->
  exists e, Flat.complete n (d + e) (o / 2 ^ e) /\ Flat.idx (d + e) (o / 2 ^ e) ∈ Flat.roots_of n.
Proof.
  intros Hn Hm Hr. apply Flat.roots_of_spec in Hr as [Hc _]; [|lia].
  assert (Hcn : Flat.complete n d o) by (unfold Flat.complete in *; lia). clear Hc.
  assert (Hgen : forall k d o, 64 <= k + d -> Flat.complete n d o ->
    exists e, Flat.complete n (d + e) (o / 2 ^ e) /\ Flat.idx (d + e) (o / 2 ^ e) ∈ Flat.roots_of n).
  { clear d o Hcn. induction k as [|k IH] using N.peano_ind; intros d o Hk Hc.
    - apply Flat.complete_small, Flat.small_depth in Hc; [lia|done].
    - destruct (decide (Flat.idx d o ∈ Flat.roots_of n)) as [Hr|Hr].
      + exists 0. by rewrite N.add_0_r, N.pow_0_r, N.div_1_r.
      + apply Flat.climb_parent in Hr; [|done..]. destruct (IH (d + 1) (o / 2)) as (e & H1 & H2); [lia|done|].
        exists (e + 1). rewrite Flat.pow2_S, N.add_assoc, <- N.Div0.div_div.
        by replace (d + e + 1) with (d + 1 + e) by lia. }
  apply (Hgen 64); [lia|done].
Qed.

Lemma UpgradeProof_verify_sound old_blocks new_blocks p :
  lenN old_blocks <= Flat.max_blocks -> lenN new_blocks <= Flat.max_blocks ->
  new_len p <= Flat.max_blocks -> blocks_ok old_blocks -> blocks_ok new_blocks ->
  Forall node_ok (up_nodes p) ->
  collision_free (hash_inputs old_blocks ++ hash_inputs new_blocks ++ upgrade_inputs p (ref_roots old_blocks)) ->
  UpgradeProof_verify p (ref_roots old_blocks) (ref_root_hash new_blocks) = true ->
  lenN old_blocks = old_len p /\ lenN new_blocks = new_len p /\
  take (N.to_nat (old_len p)) new_blocks = old_blocks.
Proof.
  intros Hno Hnn Hnl Hbo Hbn Hups Hcf. unfold UpgradeProof_verify, upgrade_inputs in *.
  destruct ((old_len p =? 0) || (new_len p <=? old_len p)) eqn:Eg; [done|]. reflect_bools.
  case_bool_decide as Eold; [|done]. cbn [negb].
  rewrite ref_roots_index in Eold by done. apply roots_of_inj in Eold; [|lia..].
  change (foldl _ ∅ (ref_roots old_blocks)) with (seed_roots (ref_roots old_blocks)).
  destruct (upgrade_known _ _ _ _) as [seed|] eqn:Ek; [|done]. rsimpl.
  destruct (upgrade_climb 4096 seed) as [known|] eqn:Ec; [|done]. rsimpl.
  destruct (mapM _ (Flat.roots_of (new_len p))) as [ns|] eqn:Em; [|done].
  rewrite bool_decide_eq_true. intros Et.
  assert (Hk0 : keys_ok (seed_roots (ref_roots old_blocks))).
  { intros i n Hi. apply seed_roots_spec in Hi as [[Hin Hi]|Hi]; [|done].
    split; [done|]. eapply Forall_forall; [|done]. by apply ref_roots_ok. }
  destruct (upgrade_known_spec _ _ _ _ _ Ek Hups Hk0) as (Hks & Hsub & Hsd).
  destruct (upgrade_climb_derived seed 4096 seed known) as [Hk Hd]; [done|split; [done|by left]|done|].
  destruct (mapM_lookup_index _ _ _ Hk Em) as (Hnsok & Hnsi & Hnsk).
  apply Hcf in Et; [|rewrite !elem_of_app, list_elem_of_singleton; tauto|
                    rewrite !elem_of_app; right; left; apply in_root].
  apply tree_input_inj in Et; [|done|by apply ref_roots_ok].
  assert (Enew : lenN new_blocks = new_len p).
  { apply roots_of_inj; [done..|]. by rewrite <- ref_roots_index, <- Et, Hnsi. }
  split_and!; [done|done|]. apply blocks_ext; [rewrite lenN_take; lia|].
  rewrite lenN_take by lia. intros k Hlt. rewrite block_at_take by done.
  destruct (Flat.roots_cover (lenN old_blocks) k) as (d & o & Hr & Hko); [lia..|].
  pose proof Hr as Hr2. apply Flat.roots_of_spec in Hr2 as [Hco _]; [|done].
  assert (Hcn : Flat.complete (lenN new_blocks) d o) by (unfold Flat.complete in *; lia).
  pose proof (Flat.small_fits d o (Flat.complete_small _ _ _ Hnn Hcn)) as Hf.
  destruct (root_above (lenN new_blocks) (lenN old_blocks) d o) as (e & Hce & Hre); [lia|lia|done|].
  assert (Hkd : known !! Flat.idx d o = Some (ref new_blocks d o)).
  { eapply (descend_to_old old_blocks new_blocks) with (seed := seed) (e := e); try done; [lia| | |].
    - eapply collision_free_sub; [|exact Hcf]. sub_list.
    - intros i n Hi. destruct (Hsd _ _ Hi) as [Hi2|?]; [|right; lia].
      apply seed_roots_spec in Hi2 as [[? _]|?]; [by left|done].
    - eapply known_authentic; try done. exact (Flat.small_fits _ _ (Flat.complete_small _ _ _ Hnn Hce)). }
  assert (Hko2 : known !! Flat.idx d o = Some (ref old_blocks d o)).
  { eapply lookup_weaken; [|apply Hd]. eapply lookup_weaken; [|exact Hsub].
    rewrite <- (ref_index old_blocks d o). apply seed_roots_in; [|by apply root_in_ref_roots].
    rewrite ref_roots_index by done. by apply Flat.roots_of_nodup. }
  eapply (ref_inj new_blocks old_blocks d o); try done; [|congruence].
  eapply collision_free_sub; [|exact Hcf]. sub_list.
Qed.
End Fork.
End MerkleFork.
