(* ===== verification/MerkleHistory.v ===== *)
(** * [merkle]: histories of a tree

    A tree is only ever changed by [append], [truncate], [reorg] and a reload
    ([deserialize] of [serialize]).  [history blocks t] is the step relation of
    those operations, paired with what each one means on the list of blocks; a
    tree with a history is the reference tree over that list.  The theorems
    about the operations and the proofs are stated over histories.  The witnesses
    run on [toy_hash], a concrete function with 32-byte results. *)
From S2P Require Import Prelude Flat Merkle MerkleSpec MerkleProofs MerkleSeek MerkleFork.
From Stdlib Require Import Strings.Byte.

Module MerkleHistory.
Import Merkle MerkleSpec MerkleProofs MerkleSeek MerkleFork.

Section History.
Context `{HasherLaws}.

Inductive history : list bytes -> MerkleTree -> Prop :=
| h_new : history [] new
| h_append bs t data t' b :
    history bs t -> lenN bs < Flat.max_blocks -> append t data = Done (t', b) ->
    history (bs ++ [data]) t'
| h_truncate bs t k t' :
    history bs t -> k < lenN bs -> truncate t k = (t', true) ->
    history (take (N.to_nat k) bs) t'
| h_reorg bs1 t1 bs2 t2 t' k :
    history bs1 t1 -> history bs2 t2 -> reorg t1 t2 = (t', k) -> history bs2 t'
| h_reload bs t t' :
    history bs t -> blocks_ok bs -> deserialize (serialize t) = Some t' -> history bs t'.

Lemma history_full bs t : history bs t -> full_tree bs t /\ lenN bs <= Flat.max_blocks.
Proof.
  induction 1 as [|bs t data t' b _ [IH Hn] Hlt Ha|bs t k t' _ [IH Hn] Hlt Ht
                 |bs1 t1 bs2 t2 t' k _ [IH1 Hn1] _ [IH2 Hn2] Hr|bs t t' _ [IH Hn] Hok Hd].
  - split; [exact full_tree_new|]. rewrite lenN_nil. apply N.le_0_l.
  - destruct (append_full bs t data IH Hlt) as (t1 & E & F). rewrite E in Ha.
    injection Ha as <- _. split; [done|]. rewrite lenN_snoc. lia.
  - destruct (truncate_full bs t k IH Hn Hlt) as (t1 & E & F). rewrite E in Ht.
    injection Ht as <-. split; [done|]. rewrite lenN_take by lia. lia.
  - rewrite (reorg_full bs1 bs2 t1 t2) in Hr by done. by injection Hr as <- _.
  - rewrite deserialize_serialize in Hd by (by eapply full_tree_ok). by injection Hd as <-.
Qed.

Lemma history_appends bs1 bs2 t :
  history bs1 t -> lenN (bs1 ++ bs2) <= Flat.max_blocks ->
  exists t', append_all t bs2 = Done t' /\ history (bs1 ++ bs2) t'.
Proof.
  revert bs1 t. induction bs2 as [|b bs2 IH]; intros bs1 t Hh Hn.
  - exists t. rewrite app_nil_r. done.
  - rewrite lenN_app, lenN_cons in Hn.
    destruct (history_full _ _ Hh) as [Hf _].
    destruct (append_full bs1 t b Hf) as (t1 & E & _); [lia|].
    destruct (IH (bs1 ++ [b]) t1) as (t2 & E2 & F2).
    { eapply h_append; [done|lia|done]. }
    { rewrite !lenN_app, lenN_cons, lenN_nil. lia. }
    exists t2. rewrite <- app_assoc in F2. split; [|done].
    unfold append_all in *. cbn [foldM]. rewrite E. rsimpl. exact E2.
Qed.

(** The tree of a list of blocks. *)
Definition build (bs : list bytes) : MerkleTree :=
  match append_all new bs with Done t => t | _ => new end.

Lemma build_history bs : lenN bs <= Flat.max_blocks -> history bs (build bs).
Proof.
  intros Hn. destruct (history_appends [] bs new h_new Hn) as (t & E & Hh).
  unfold build. by rewrite E.
Qed.

Lemma sum_sizes_acc (l : list Node) (a : N) :
  foldl (λ a r, wrap64 (a + size r)) (wrap64 a) l = wrap64 (a + foldr (λ r a, size r + a) 0 l).
Proof.
  revert a. induction l as [|r l IH]; intros a; cbn [foldl foldr].
  - by rewrite N.add_0_r.
  - rewrite wrap64_add_l, IH. f_equal. lia.
Qed.

Lemma chain_sizes blocks off n l :
  total_bytes blocks < two64 -> Flat.root_chain off n l -> off + n = lenN blocks ->
  foldr (λ r a, size r + a) 0 ((λ '(d, o), ref blocks d o) <$> l)
  = total_bytes blocks - cum blocks off.
Proof.
  intros Hb Hc. induction Hc as [off|n k o l Hn0 Hk Hl IH]; intros Eoff; cbn [fmap list_fmap foldr].
  - rewrite N.add_0_r in Eoff. subst off. unfold total_bytes. lia.
  - destruct (N.log2_spec n) as [Hlo _]; [lia|]. rewrite <- Hk in Hlo.
    assert (Hcmp : Flat.complete (lenN blocks) k o) by (unfold Flat.complete; lia).
    fold ((λ '(d, o), ref blocks d o) <$> l). rewrite IH, ref_size by (done || lia).
    assert (cum blocks (o * 2 ^ k) <= cum blocks ((o + 1) * 2 ^ k)) by (apply cum_mono; lia).
    assert (cum blocks ((o + 1) * 2 ^ k) <= total_bytes blocks) by (by apply cum_total). lia.
Qed.

Lemma byte_length_full blocks t :
  full_tree blocks t -> lenN blocks <= Flat.max_blocks -> total_bytes blocks < two64 ->
  byte_length t = Done (total_bytes blocks).
Proof.
  intros Ht Hn Hb. unfold byte_length. rewrite (tree_roots_full blocks) by done. rsimpl. f_equal.
  destruct (ref_roots_chain blocks Hn) as (l & -> & _ & Hc).
  unfold sum_sizes. change 0 with (wrap64 0) at 1. rewrite sum_sizes_acc.
  rewrite (chain_sizes blocks 0 (lenN blocks)) by (done || lia).
  rewrite cum_0, N.sub_0_r. by apply N.mod_small.
Qed.

Lemma tree_ok_sub t t' :
  tree_ok t -> nodes t' ⊆ nodes t -> length t' = length t -> tree_ok t'.
Proof.
  intros (Hl & Hc & Hn) Hsub El. split; [by rewrite El|]. split.
  - unfold u64_ok, lenN in *. rewrite bmap_list_length in *. apply map_subseteq_size in Hsub. lia.
  - intros i n E. by apply Hn, (lookup_weaken _ _ _ _ E).
Qed.

Lemma recover_honest bs whole t i :
  full_tree bs whole -> lenN bs <= Flat.max_blocks -> partial_tree bs t -> i ∈ missing_nodes t ->
  exists q, node_proof whole i = Done (Some q) /\ (recover_node t q (ref_root_hash bs)).2 = true
    /\ i ∉ missing_nodes (recover_node t q (ref_root_hash bs)).1.
Proof.
  intros Hf Hn [El _] Hi. destruct (Flat.idx_exists i) as (d & o & ->).
  rewrite missing_nodes_spec, El in Hi by (by rewrite El). destruct Hi as [Hc _].
  destruct (node_proof_complete bs whole d o Hf Hn Hc) as (q & E & V).
  exists q. unfold recover_node. rewrite V. cbn [fst snd]. split_and!; [done..|].
  rewrite missing_nodes_spec by (cbn; by rewrite El). cbn [nodes length].
  rewrite ref_index, lookup_insert_eq. by intros [_ ?].
Qed.

(** ** The tree operations *)

(** C24: Every tree reached by appends, truncations, reorgs and reloads holds
    exactly the nodes of the reference tree over its blocks: a node at depth [d]
    and offset [o] is stored iff all its blocks are, and carries the reference
    hash and size. *)
Theorem history_invariant bs t d o :
  history bs t ->
  length t = lenN bs /\
  nodes t !! Flat.idx d o
  = if decide (Flat.complete (lenN bs) d o) then Some (ref bs d o) else None.
Proof. intros [[Hl Hf] _]%history_full. split; [done|apply Hf]. Qed.

(** [append] terminates without a panic, returns the index of the new block,
    and the tree it leaves has the root hash of the longer log. *)
Theorem append_correct bs t data :
  history bs t -> lenN bs < Flat.max_blocks ->
  exists t', append t data = Done (t', lenN bs) /\ history (bs ++ [data]) t'
    /\ root_hash t' = Done (ref_root_hash (bs ++ [data])).
Proof.
  intros Hh Hlt. destruct (history_full _ _ Hh) as [Hf Hn].
  destruct (append_full bs t data Hf Hlt) as (t' & E & F). exists t'.
  split; [done|]. split; [by eapply h_append|].
  apply root_hash_full; [done|]. rewrite lenN_snoc. lia.
Qed.

(** [truncate] to a shorter length leaves the tree of the prefix, whose root
    hash is the one [prefix_root_hash] gave before the cut; to a length that is
    not shorter it changes nothing and says so. *)
Theorem truncate_correct bs t k :
  history bs t ->
  if k <? lenN bs
  then exists t', truncate t k = (t', true) /\ history (take (N.to_nat k) bs) t'
         /\ prefix_root_hash t k = Some (ref_root_hash (take (N.to_nat k) bs))
         /\ root_hash t' = Done (ref_root_hash (take (N.to_nat k) bs))
  else truncate t k = (t, false).
Proof.
  intros Hh. destruct (history_full _ _ Hh) as [Hf Hn]. destruct (N.ltb_spec k (lenN bs)) as [L|G].
  - destruct (truncate_full bs t k Hf Hn L) as (t' & E & F). exists t'.
    split; [done|]. split; [by eapply h_truncate|]. unfold prefix_root_hash.
    rewrite (prefix_roots_full bs) by (done || lia). split; [done|].
    apply root_hash_full; [done|]. rewrite lenN_take by lia. lia.
  - unfold truncate. destruct Hf as [-> _]. by rewrite (proj2 (N.leb_le _ _) G).
Qed.

(** [byte_length] is the number of bytes of the log, and [seek] finds the
    block and the offset a linear scan over the blocks finds, for every byte
    position, past the end included. *)
Theorem seek_correct bs t x :
  history bs t -> total_bytes bs < two64 ->
  byte_length t = Done (total_bytes bs) /\ seek t x = Done (seek_linear bs 0 x).
Proof.
  intros [Hf Hn]%history_full Hb. split; [by apply byte_length_full|by apply seek_full].
Qed.

(** What [serialize] writes, [deserialize] reads back, for every tree with a
    history, and for every tree with holes whose nodes are in range. *)
Theorem serialize_roundtrip bs t t' :
  history bs t -> blocks_ok bs -> nodes t' ⊆ nodes t -> length t' = length t ->
  deserialize (serialize t') = Some t'.
Proof.
  intros [Hf Hn]%history_full Hok Hsub Hlen. apply deserialize_serialize.
  eapply tree_ok_sub; [by eapply full_tree_ok|done..].
Qed.

(** Two logs with the same root hash are the same log, as long as BLAKE3 has
    no collision among the inputs the two trees hash. *)
Theorem root_hash_binding bs1 t1 bs2 t2 h :
  history bs1 t1 -> history bs2 t2 -> blocks_ok bs1 -> blocks_ok bs2 ->
  collision_free (hash_inputs bs1 ++ hash_inputs bs2) ->
  root_hash t1 = Done h -> root_hash t2 = Done h -> bs1 = bs2.
Proof.
  intros [Hf1 Hn1]%history_full [Hf2 Hn2]%history_full Hb1 Hb2 Hcf.
  rewrite (root_hash_full bs1), (root_hash_full bs2) by done. intros [= <-] [= E].
  by apply root_hash_commits.
Qed.

(** The binary search of [lowest_common_ancestor] finds the length of the
    longest common prefix of the two logs, and [reorg] leaves the other tree. *)
Theorem reorg_correct bs1 t1 bs2 t2 :
  history bs1 t1 -> history bs2 t2 -> blocks_ok bs1 -> blocks_ok bs2 ->
  collision_free (hash_inputs bs1 ++ hash_inputs bs2) ->
  reorg t1 t2 = (t2, common_prefix bs1 bs2)
  /\ take (N.to_nat (common_prefix bs1 bs2)) bs1 = take (N.to_nat (common_prefix bs1 bs2)) bs2
  /\ forall a, take (N.to_nat a) bs1 = take (N.to_nat a) bs2 ->
       a <= N.min (lenN bs1) (lenN bs2) -> a <= common_prefix bs1 bs2.
Proof.
  intros [Hf1 Hn1]%history_full [Hf2 Hn2]%history_full Hb1 Hb2 Hcf.
  rewrite (reorg_full bs1 bs2), (lca_full bs1 bs2) by done.
  pose proof (common_prefix_bound bs1 bs2). split; [done|]. split.
  - by apply common_prefix_spec.
  - intros a Ha Hle. by apply common_prefix_spec.
Qed.

(** ** The proofs *)

(** For every stored block [proof] makes a proof, and [Proof::verify] accepts
    it for that block and the tree's root hash. *)
Theorem inclusion_complete bs t k data h :
  history bs t -> bs !! N.to_nat k = Some data -> root_hash t = Done h ->
  exists p, proof t k = Done (Some p) /\ block p = k /\ Proof_verify p data h = true.
Proof.
  intros [Hf Hn]%history_full Hk. rewrite (root_hash_full bs) by done. intros [= <-].
  by apply proof_complete.
Qed.

(** C25: Whatever proof [Proof::verify] accepts against the root hash of a log, the
    data is the block at the proof's position (its 64-bit doubling taken as the
    code takes it), unless BLAKE3 collides on the inputs hashed. *)
Theorem inclusion_sound bs t h p data :
  history bs t -> root_hash t = Done h -> blocks_ok bs -> u64_ok (lenN data) -> proof_ok p ->
  collision_free (hash_inputs bs ++ proof_inputs p data) ->
  Proof_verify p data h = true ->
  bs !! N.to_nat (block p mod 2 ^ 63) = Some data.
Proof.
  intros [Hf Hn]%history_full. rewrite (root_hash_full bs) by done.
  intros [= <-] Hb Hd Hp Hcf Hv. by apply (Proof_verify_sound bs p data).
Qed.

(** [seek_proof] makes a proof for every byte position of the log and the
    verifier computes from it the block and offset of the linear scan. *)
Theorem seek_proof_correct bs t x h :
  history bs t -> total_bytes bs < two64 -> x < total_bytes bs -> root_hash t = Done h ->
  exists p, seek_proof t x = Done (Some p) /\ sp_bytes p = x
    /\ SeekProof_verify p h = Some (seek_linear bs 0 x).
Proof.
  intros [Hf Hn]%history_full Hb Hx. rewrite (root_hash_full bs) by done. intros [= <-].
  by apply seek_proof_complete.
Qed.

(** Whatever seek proof the verifier accepts against the root hash of a log,
    its answer is the linear scan's, unless BLAKE3 collides. *)
Theorem seek_proof_sound bs t h p res :
  history bs t -> root_hash t = Done h -> blocks_ok bs -> total_bytes bs < two64 ->
  seek_proof_ok p -> collision_free (hash_inputs bs ++ seek_proof_inputs p) ->
  SeekProof_verify p h = Some res ->
  res = seek_linear bs 0 (sp_bytes p) /\ sp_bytes p < total_bytes bs.
Proof.
  intros [Hf Hn]%history_full. rewrite (root_hash_full bs) by done. intros [= <-].
  by apply SeekProof_verify_sound.
Qed.

(** C26: An accepted upgrade proof means that the log behind the new root hash
    extends the log behind the old roots, at the lengths the proof names, unless
    BLAKE3 collides. *)
Theorem upgrade_sound old t_old new_ t_new rs h p :
  history old t_old -> history new_ t_new -> tree_roots t_old = Done rs -> root_hash t_new = Done h ->
  new_len p <= Flat.max_blocks -> blocks_ok old -> blocks_ok new_ -> Forall node_ok (up_nodes p) ->
  collision_free (hash_inputs old ++ hash_inputs new_ ++ upgrade_inputs p rs) ->
  UpgradeProof_verify p rs h = true ->
  lenN old = old_len p /\ lenN new_ = new_len p /\ take (N.to_nat (old_len p)) new_ = old.
Proof.
  intros [Hf1 Hn1]%history_full [Hf2 Hn2]%history_full.
  rewrite (tree_roots_full old), (root_hash_full new_) by done. intros [= <-] [= <-].
  by apply UpgradeProof_verify_sound.
Qed.

(** Repair: a tree that lost nodes of a log is brought back by node proofs.
    A proof made by a whole tree is accepted, an accepted proof stores only
    reference nodes, a refused one changes nothing, and a tree with no missing
    node is the whole tree again. *)
Theorem recover_correct bs whole h t p :
  history bs whole -> root_hash whole = Done h -> blocks_ok bs -> partial_tree bs t ->
  node_proof_ok p -> collision_free (hash_inputs bs ++ node_proof_inputs p) ->
  (forall i, i ∈ missing_nodes t -> exists q,
     node_proof whole i = Done (Some q) /\ (recover_node t q h).2 = true
     /\ i ∉ missing_nodes (recover_node t q h).1)
  /\ partial_tree bs (recover_node t p h).1
  /\ ((recover_node t p h).2 = false -> (recover_node t p h).1 = t)
  /\ (is_intact (recover_node t p h).1 = true -> (recover_node t p h).1 = whole).
Proof.
  intros [Hf Hn]%history_full Hh Hb Hp Hok Hcf. rewrite (root_hash_full bs) in Hh by done.
  injection Hh as <-. split; [intros i; by apply recover_honest|].
  pose proof (recover_node_partial bs t p Hn Hb Hok Hcf Hp) as Hr.
  destruct (recover_node t p (ref_root_hash bs)) as [t' ok]. destruct Hr as (Hp' & Hno & _).
  split_and!; [done..|]. intros Hi. eapply full_tree_unique; [|done]. by apply partial_intact_full.
Qed.
End History.

(** ** Concrete inputs *)

(** A function with 32-byte results that is injective on the few inputs below. *)
Definition toy_hash : Hasher := λ x,
  to_le 32 (foldl (λ h b, (h * 257 + bval b) mod 2305843009213693951) 1 x).
#[local] Existing Instance toy_hash.

Lemma toy_laws : HasherLaws.
Proof. intros x. apply to_le_length. Qed.
#[local] Existing Instance toy_laws.

Definition log3 : list bytes := [[x01]; [x02; x03]; [x04; x05; x06]].
Definition log4 : list bytes := log3 ++ [[x07]].
Definition fork3 : list bytes := [[x01]; [x02; x03]; [x08]].

Lemma history3 : history log3 (build log3).
Proof. by apply build_history. Qed.
Lemma history4 : history log4 (build log4).
Proof. by apply build_history. Qed.
Lemma history_fork3 : history fork3 (build fork3).
Proof. by apply build_history. Qed.

(** An option or run known to hold a value. *)
Definition get_or {A} (d : A) (r : run (option A)) : A :=
  match r with Done (Some x) => x | _ => d end.

Definition proof2 : Proof_ := get_or (mkProof 0 0 [] []) (proof (build log3) 2).
Definition seek4 : SeekProof :=
  get_or (mkSeekProof 0 (Merkle.mkNode 0 [] 0) [] []) (seek_proof (build log3) 4).
Definition upgrade34 : UpgradeProof := get_or (mkUpgradeProof 0 0 []) (upgrade_proof (build log4) 3 4).
Definition node1 : NodeProof :=
  get_or (mkNodeProof (Merkle.mkNode 0 [] 0) [] []) (node_proof (build log3) 1).
Definition hole3 : MerkleTree := (remove_node (build log3) 1).1.

Definition node_okb (n : Node) : bool :=
  u64_okb (index n) && u64_okb (size n) && (List.length (hash n) =? 32)%nat.
Lemma node_okb_spec n : node_okb n = true -> node_ok n.
Proof.
  unfold node_okb. rewrite !andb_true_iff. intros [[Hi Hs] Hh].
  unfold u64_okb in *. rewrite N.ltb_lt in *. apply Nat.eqb_eq in Hh. done.
Qed.
Lemma node_okb_all l : forallb node_okb l = true -> Forall node_ok l.
Proof.
  rewrite forallb_forall, List.Forall_forall. intros Hl n Hn. by apply node_okb_spec, Hl.
Qed.

(** The side conditions of the theorems at concrete inputs. *)
Ltac concrete :=
  match goal with
  | |- history log3 _ => exact history3
  | |- history log4 _ => exact history4
  | |- history fork3 _ => exact history_fork3
  | |- collision_free _ => apply collision_freeb_spec; vm_compute; reflexivity
  | |- node_ok _ => apply node_okb_spec; vm_compute; reflexivity
  | |- Forall node_ok _ => apply node_okb_all; vm_compute; reflexivity
  | |- blocks_ok _ => repeat constructor
  | |- _ => vm_compute; reflexivity
  end.

Lemma history_invariant_witness :
  length (build log3) = 3 /\ nodes (build log3) !! Flat.idx 1 0 = Some (ref log3 1 0).
Proof. apply (history_invariant log3 (build log3) 1 0). concrete. Defined.

Lemma append_correct_witness :
  exists t', append (build log3) [x07] = Done (t', 3) /\ history log4 t'
    /\ root_hash t' = Done (ref_root_hash log4).
Proof. apply (append_correct log3 (build log3) [x07]); concrete. Defined.

Lemma truncate_correct_witness :
  exists t', truncate (build log3) 2 = (t', true) /\ history (take 2 log3) t'
    /\ prefix_root_hash (build log3) 2 = Some (ref_root_hash (take 2 log3))
    /\ root_hash t' = Done (ref_root_hash (take 2 log3)).
Proof. apply (truncate_correct log3 (build log3) 2). concrete. Defined.

Lemma seek_correct_witness :
  byte_length (build log3) = Done 6 /\ seek (build log3) 4 = Done (2, 1).
Proof. apply (seek_correct log3 (build log3) 4); concrete. Defined.

Lemma serialize_roundtrip_witness : deserialize (serialize hole3) = Some hole3.
Proof.
  apply (serialize_roundtrip log3 (build log3) hole3); [concrete..| |concrete].
  apply map_subseteq_spec. intros i n. apply lookup_delete_Some.
Defined.

Lemma root_hash_binding_witness : log3 = take 3 log4.
Proof.
  apply (root_hash_binding log3 (build log3) (take 3 log4) (truncate (build log4) 3).1
           (ref_root_hash log3)); [concrete| |concrete..].
  apply (h_truncate log4 (build log4) 3); concrete.
Defined.

Lemma reorg_correct_witness :
  reorg (build log4) (build fork3) = (build fork3, 2) /\ take 2 log4 = take 2 fork3
  /\ forall a, take (N.to_nat a) log4 = take (N.to_nat a) fork3 -> a <= 3 -> a <= 2.
Proof.
  apply (reorg_correct log4 (build log4) fork3 (build fork3)); concrete.
Defined.

Lemma inclusion_complete_witness :
  exists p, proof (build log3) 1 = Done (Some p) /\ block p = 1
    /\ Proof_verify p [x02; x03] (ref_root_hash log3) = true.
Proof. apply (inclusion_complete log3 (build log3) 1); concrete. Defined.

Lemma inclusion_sound_witness :
  Proof_verify proof2 [x04; x05; x06] (ref_root_hash log3) = true
  /\ log3 !! 2%nat = Some [x04; x05; x06].
Proof.
  split; [concrete|].
  apply (inclusion_sound log3 (build log3) (ref_root_hash log3) proof2); [concrete..|split|concrete|];
    concrete.
Defined.

Lemma seek_proof_correct_witness :
  exists p, seek_proof (build log3) 4 = Done (Some p) /\ sp_bytes p = 4
    /\ SeekProof_verify p (ref_root_hash log3) = Some (2, 1).
Proof. apply (seek_proof_correct log3 (build log3) 4 (ref_root_hash log3)); concrete. Defined.

Lemma seek_proof_sound_witness :
  SeekProof_verify seek4 (ref_root_hash log3) = Some (2, 1) /\ (2, 1) = seek_linear log3 0 4
  /\ 4 < total_bytes log3.
Proof.
  split; [concrete|].
  apply (seek_proof_sound log3 (build log3) (ref_root_hash log3) seek4 (2, 1)); [concrete..| |concrete|concrete].
  unfold seek_proof_ok. split_and?; concrete.
Defined.

Lemma upgrade_sound_witness :
  UpgradeProof_verify upgrade34 (ref_roots log3) (ref_root_hash log4) = true
  /\ lenN log3 = 3 /\ lenN log4 = 4 /\ take 3 log4 = log3.
Proof.
  split; [concrete|].
  apply (upgrade_sound log3 (build log3) log4 (build log4) (ref_roots log3) (ref_root_hash log4)
           upgrade34); try concrete.
  vm_compute. discriminate.
Defined.

Lemma hole3_partial : partial_tree log3 hole3.
Proof.
  destruct (full_partial log3 (build log3)) as [El Hp]; [by apply history_full, history3|].
  split; [done|]. intros i n. unfold hole3, remove_node. cbn [fst nodes].
  rewrite lookup_delete_Some. intros [_ E]. by apply Hp.
Qed.

Lemma recover_correct_witness :
  (exists q, node_proof (build log3) 1 = Done (Some q)
     /\ (recover_node hole3 q (ref_root_hash log3)).2 = true
     /\ 1 ∉ missing_nodes (recover_node hole3 q (ref_root_hash log3)).1)
  /\ (recover_node hole3 node1 (ref_root_hash log3)).1 = build log3.
Proof.
  destruct (recover_correct log3 (build log3) (ref_root_hash log3) hole3 node1)
    as (Hm & _ & _ & Hw); [concrete..|exact hole3_partial| |concrete|].
  - unfold node_proof_ok. split_and?; concrete.
  - split; [apply Hm; vm_compute; left|apply Hw; concrete].
Defined.
End MerkleHistory.
