(* ===== verification/Store.v ===== *)
(** * [storage]: the store interface, the in-memory store and the tee

    The model of [src/crates/storage/src/lib.rs] and [tee.rs].  A [Store] is a
    typeclass of state-passing operations; a failed operation returns its error
    beside the state it left.  [StoreLaws] is the contract a backend promises
    its clients, stated against an abstract map: a successful write updates the
    map, a successful read returns it.  [MemoryStore] and [TeeStore] are
    instances here and the log-structured store is one in LogStore; the
    components above (hypercore, hyperbee, rooms) are proved against the
    contract alone. *)
From S2P Require Import Prelude.
From Stdlib Require Import Strings.Byte.

Module Store.

Class Store (S E : Type) := {
  put : S -> N -> bytes -> S * result E unit;
  get : S -> N -> result E (option bytes);
  delete : S -> N -> S * result E unit;
  len : S -> result E N;
}.
#[global] Hint Mode Store ! - : typeclass_instances.

Section Defaults.
Context {S E : Type} `{!Store S E}.

Definition contains (s : S) (key : N) : result E bool :=
  v ← get s key; Ok (bool_decide (is_Some v)).

Definition is_empty (s : S) : result E bool :=
  n ← len s; Ok (n =? 0).
End Defaults.

(** ** The behavioural contract *)

Definition unwrap {E A} (r : result E A) : run A :=
  match r with Ok a => Done a | Err _ => Panic end.
Definition assert (b : bool) : run unit := if b then Done tt else Panic.

Definition blob : bytes := [x00; x9f; x92; x96; xff].

(** [contract::run], with the store threaded through; a violation is a panic. *)
Definition contract_run {S E : Type} `{!Store S E} (s : S) : run S :=
  e ← unwrap (is_empty s); _ ← assert e;
  let '(s, r) := put s 0 [x61] in _ ← unwrap r;
  let '(s, r) := put s 1 [x62; x62] in _ ← unwrap r;
  n ← unwrap (len s); _ ← assert (n =? 2);
  v ← unwrap (get s 0); _ ← assert (bool_decide (v = Some [x61]));
  c ← unwrap (contains s 1); _ ← assert c;
  c ← unwrap (contains s 2); _ ← assert (negb c);
  v ← unwrap (get s 2); _ ← assert (bool_decide (v = None));
  let '(s, r) := put s 0 [x41] in _ ← unwrap r;
  v ← unwrap (get s 0); _ ← assert (bool_decide (v = Some [x41]));
  n ← unwrap (len s); _ ← assert (n =? 2);
  let '(s, r) := delete s 0 in _ ← unwrap r;
  v ← unwrap (get s 0); _ ← assert (bool_decide (v = None));
  n ← unwrap (len s); _ ← assert (n =? 1);
  let '(s, r) := delete s 0 in _ ← unwrap r;
  let '(s, r) := put s u64_max blob in _ ← unwrap r;
  v ← unwrap (get s u64_max);
  v ← expect v;
  _ ← assert (bool_decide (v = blob));
  Done s.

(** What a backend promises.  [fits] is the set of values it can hold. *)
Class StoreLaws (S E : Type) `{!Store S E} := {
  contents : S -> gmap N bytes;
  store_inv : S -> Prop;
  fits : N -> bytes -> Prop;
  put_ok s k v s' : store_inv s -> fits k v -> put s k v = (s', Ok tt) ->
    store_inv s' /\ contents s' = <[k := v]> (contents s);
  get_ok s k r : store_inv s -> get s k = Ok r -> r = contents s !! k;
  delete_ok s k s' : store_inv s -> delete s k = (s', Ok tt) ->
    store_inv s' /\ contents s' = base.delete k (contents s);
  len_ok s n : store_inv s -> len s = Ok n -> n = N.of_nat (size (contents s));
}.

(** A backend whose operations never fail on what it can hold. *)
Class StoreTotal (S E : Type) `{StoreLaws S E} := {
  put_total s k v : store_inv s -> fits k v -> exists s', put s k v = (s', Ok tt);
  get_total s k : store_inv s -> exists r, get s k = Ok r;
  delete_total s k : store_inv s -> exists s', delete s k = (s', Ok tt);
  len_total s : store_inv s -> exists n, len s = Ok n;
}.

(** ** The in-memory store *)

Inductive Infallible : Type := .

Record MemoryStore := mkMemory { mem_map : gmap N bytes }.

Definition Memory_new : MemoryStore := mkMemory ∅.
Definition Memory_put (s : MemoryStore) (key : N) (value : bytes) : MemoryStore * result Infallible unit :=
  (mkMemory (<[key := value]> (mem_map s)), Ok tt).
Definition Memory_get (s : MemoryStore) (key : N) : result Infallible (option bytes) :=
  Ok (mem_map s !! key).
Definition Memory_delete (s : MemoryStore) (key : N) : MemoryStore * result Infallible unit :=
  (mkMemory (base.delete key (mem_map s)), Ok tt).
Definition Memory_len (s : MemoryStore) : result Infallible N := Ok (N.of_nat (size (mem_map s))).

#[global] Instance Memory_store : Store MemoryStore Infallible := {|
  put := Memory_put; get := Memory_get; delete := Memory_delete; len := Memory_len |}.

#[global] Program Instance Memory_laws : StoreLaws MemoryStore Infallible := {|
  contents := mem_map; store_inv _ := True; fits _ _ := True |}.
Next Obligation. intros s k v s' _ _ [= <-]. done. Qed.
Next Obligation. intros s k r _ [= <-]. done. Qed.
Next Obligation. intros s k s' _ [= <-]. done. Qed.
Next Obligation. intros s n _ [= <-]. done. Qed.

#[global] Instance Memory_total : StoreTotal MemoryStore Infallible.
Proof. split; intros; eexists; reflexivity. Qed.

(** ** Write-through to a cache *)

Record TeeStore (P C : Type) := mkTee { primary : P; cache : C }.
#[global] Arguments mkTee {P C} primary cache.
#[global] Arguments primary {P C} t.
#[global] Arguments cache {P C} t.

Inductive TeeError (PE CE : Type) := Primary (e : PE) | Cache (e : CE).
#[global] Arguments Primary {PE CE} e.
#[global] Arguments Cache {PE CE} e.

Section Tee.
Context {P PE C CE : Type} `{!Store P PE, !Store C CE}.

(** The cache is not written when the primary refuses. *)
Definition Tee_put (s : TeeStore P C) (key : N) (value : bytes)
    : TeeStore P C * result (TeeError PE CE) unit :=
  let '(p, r) := put (primary s) key value in
  match r with
  | Err e => (mkTee p (cache s), Err (Primary e))
  | Ok _ =>
      let '(c, r) := put (cache s) key value in
      match r with
      | Err e => (mkTee p c, Err (Cache e))
      | Ok _ => (mkTee p c, Ok tt)
      end
  end.

Definition Tee_get (s : TeeStore P C) (key : N) : result (TeeError PE CE) (option bytes) :=
  v ← map_err Primary (get (primary s) key);
  match v with
  | Some v => Ok (Some v)
  | None => map_err Cache (get (cache s) key)
  end.

Definition Tee_delete (s : TeeStore P C) (key : N)
    : TeeStore P C * result (TeeError PE CE) unit :=
  let '(p, r) := delete (primary s) key in
  match r with
  | Err e => (mkTee p (cache s), Err (Primary e))
  | Ok _ =>
      let '(c, r) := delete (cache s) key in
      match r with
      | Err e => (mkTee p c, Err (Cache e))
      | Ok _ => (mkTee p c, Ok tt)
      end
  end.

Definition Tee_len (s : TeeStore P C) : result (TeeError PE CE) N :=
  p ← map_err Primary (len (primary s));
  if 0 <? p then Ok p else map_err Cache (len (cache s)).

#[global] Instance Tee_store : Store (TeeStore P C) (TeeError PE CE) := {|
  put := Tee_put; get := Tee_get; delete := Tee_delete; len := Tee_len |}.

Context `{!StoreLaws P PE, !StoreLaws C CE}.

Lemma Tee_put_ok s k v s' :
  store_inv (primary s) -> store_inv (cache s) ->
  fits (S:=P) k v -> fits (S:=C) k v -> Tee_put s k v = (s', Ok tt) ->
  store_inv (primary s') /\ store_inv (cache s') /\
  contents (primary s') = <[k := v]> (contents (primary s)) /\
  contents (cache s') = <[k := v]> (contents (cache s)).
Proof.
  intros Hp Hc Fp Fc. unfold Tee_put.
  destruct (put (primary s) k v) as [p [[]|]] eqn:Ep; [|done].
  destruct (put (cache s) k v) as [c [[]|]] eqn:Ec; [|done]. intros [= <-]. cbn.
  destruct (put_ok _ _ _ _ Hp Fp Ep), (put_ok _ _ _ _ Hc Fc Ec). done.
Qed.

Lemma Tee_delete_ok s k s' :
  store_inv (primary s) -> store_inv (cache s) -> Tee_delete s k = (s', Ok tt) ->
  store_inv (primary s') /\ store_inv (cache s') /\
  contents (primary s') = base.delete k (contents (primary s)) /\
  contents (cache s') = base.delete k (contents (cache s)).
Proof.
  intros Hp Hc. unfold Tee_delete.
  destruct (delete (primary s) k) as [p [[]|]] eqn:Ep; [|done].
  destruct (delete (cache s) k) as [c [[]|]] eqn:Ec; [|done]. intros [= <-]. cbn.
  destruct (delete_ok _ _ _ Hp Ep), (delete_ok _ _ _ Hc Ec). done.
Qed.

(** Reading falls back to the cache: the tee holds the union of its sides,
    the primary winning. *)
Lemma Tee_get_ok s k r :
  store_inv (primary s) -> store_inv (cache s) -> Tee_get s k = Ok r ->
  r = (contents (primary s) ∪ contents (cache s)) !! k.
Proof.
  intros Hp Hc. unfold Tee_get. destruct (get (primary s) k) as [v|] eqn:Ep; [|done]. cbn [map_err]. rsimpl.
  apply get_ok in Ep as ->; [|done]. destruct (contents (primary s) !! k) as [v|] eqn:E.
  - intros [= <-]. symmetry. by apply lookup_union_Some_l.
  - destruct (get (cache s) k) as [v|] eqn:Ec; [|done]. intros [= <-].
    apply get_ok in Ec as ->; [|done]. by rewrite lookup_union_r.
Qed.

(** In lockstep (the two sides hold the same), the tee is a store over either. *)
#[global] Program Instance Tee_laws : StoreLaws (TeeStore P C) (TeeError PE CE) := {|
  contents s := contents (primary s);
  store_inv s := store_inv (primary s) /\ store_inv (cache s) /\
                 contents (primary s) = contents (cache s);
  fits k v := fits (S:=P) k v /\ fits (S:=C) k v |}.
Next Obligation.
  intros s k v s' (Hp & Hc & E) [Fp Fc] Hput.
  destruct (Tee_put_ok s k v s') as (? & ? & -> & ->); [done..|]. by rewrite E.
Qed.
Next Obligation.
  intros s k r (Hp & Hc & E) Hget. apply Tee_get_ok in Hget as ->; [|done..].
  by rewrite E, (idemp_L (∪)).
Qed.
Next Obligation.
  intros s k s' (Hp & Hc & E) Hdel.
  destruct (Tee_delete_ok s k s') as (? & ? & -> & ->); [done..|]. by rewrite E.
Qed.
Next Obligation.
  intros s n (Hp & Hc & E). cbn. unfold Tee_len.
  destruct (len (primary s)) as [p|] eqn:Ep; [|done]. cbn [map_err]. rsimpl.
  apply len_ok in Ep as ->; [|done]. case_if; [by intros [= <-]|].
  destruct (len (cache s)) as [c|] eqn:Ec; [|done]. intros [= <-].
  apply len_ok in Ec as ->; [|done]. by rewrite E.
Qed.

#[global] Instance Tee_total `{!StoreTotal P PE, !StoreTotal C CE} :
  StoreTotal (TeeStore P C) (TeeError PE CE).
Proof.
  split.
  - intros s k v (Hp & Hc & _) [Fp Fc]. destruct (put_total _ _ _ Hp Fp) as [p Ep], (put_total _ _ _ Hc Fc) as [c Ec].
    cbn. unfold Tee_put. rewrite Ep, Ec. by eexists.
  - intros s k (Hp & Hc & _). destruct (get_total _ k Hp) as [p Ep], (get_total _ k Hc) as [c Ec].
    cbn. unfold Tee_get. rewrite Ep. cbn [map_err]. rsimpl. rewrite Ec. destruct p; by eexists.
  - intros s k (Hp & Hc & _). destruct (delete_total _ k Hp) as [p Ep], (delete_total _ k Hc) as [c Ec].
    cbn. unfold Tee_delete. rewrite Ep, Ec. by eexists.
  - intros s (Hp & Hc & _). destruct (len_total _ Hp) as [p Ep], (len_total _ Hc) as [c Ec].
    cbn. unfold Tee_len. rewrite Ep. cbn [map_err]. rsimpl. rewrite Ec. case_if; by eexists.
Qed.
End Tee.

(** ** Lemmas: a total backend step by step *)

Section Steps.
Context {S E : Type} `{StoreTotal S E}.

Lemma put_step s k v :
  store_inv s -> fits k v ->
  exists s', put s k v = (s', Ok tt) /\ store_inv s' /\ contents s' = <[k := v]> (contents s).
Proof.
  intros Hi Hf. destruct (put_total s k v Hi Hf) as [s' E1]. exists s'.
  by destruct (put_ok s k v s' Hi Hf E1).
Qed.

Lemma delete_step s k :
  store_inv s ->
  exists s', delete s k = (s', Ok tt) /\ store_inv s' /\ contents s' = base.delete k (contents s).
Proof.
  intros Hi. destruct (delete_total s k Hi) as [s' E1]. exists s'.
  by destruct (delete_ok s k s' Hi E1).
Qed.

Lemma get_step s k : store_inv s -> get s k = Ok (contents s !! k).
Proof. intros Hi. destruct (get_total s k Hi) as [r E1]. rewrite E1. f_equal. by eapply get_ok. Qed.

Lemma len_step s : store_inv s -> len s = Ok (N.of_nat (size (contents s))).
Proof. intros Hi. destruct (len_total s Hi) as [n E1]. rewrite E1. f_equal. by eapply len_ok. Qed.

(** *** Traces of operations *)

Inductive store_op := OpPut (k : N) (v : bytes) | OpDelete (k : N) | OpGet (k : N) | OpLen.
Inductive answer := Written | Value (v : option bytes) | Count (n : N).

(** A client that stops at the first error. *)
Definition exec_op (s : S) (op : store_op) : S * result E answer :=
  match op with
  | OpPut k v => let '(s, r) := put s k v in (s, (λ _, Written) <$> r)
  | OpDelete k => let '(s, r) := delete s k in (s, (λ _, Written) <$> r)
  | OpGet k => (s, Value <$> get s k)
  | OpLen => (s, Count <$> len s)
  end.

Fixpoint exec (s : S) (ops : list store_op) : S * result E (list answer) :=
  match ops with
  | [] => (s, Ok [])
  | op :: ops' =>
      match exec_op s op with
      | (s, Err e) => (s, Err e)
      | (s, Ok a) => let '(s, r) := exec s ops' in (s, cons a <$> r)
      end
  end.

(** The same client over a plain map. *)
Definition exec_map_op (m : gmap N bytes) (op : store_op) : gmap N bytes * answer :=
  match op with
  | OpPut k v => (<[k := v]> m, Written)
  | OpDelete k => (base.delete k m, Written)
  | OpGet k => (m, Value (m !! k))
  | OpLen => (m, Count (N.of_nat (size m)))
  end.

Fixpoint exec_map (m : gmap N bytes) (ops : list store_op) : gmap N bytes * list answer :=
  match ops with
  | [] => (m, [])
  | op :: ops' =>
      let '(m, a) := exec_map_op m op in
      let '(m, l) := exec_map m ops' in (m, a :: l)
  end.

Definition op_fits (op : store_op) : Prop :=
  match op with OpPut k v => fits k v | _ => True end.

Lemma exec_op_refines s op :
  store_inv s -> op_fits op ->
  exists s', exec_op s op = (s', Ok (exec_map_op (contents s) op).2) /\ store_inv s'
    /\ contents s' = (exec_map_op (contents s) op).1.
Proof.
  intros Hi Hf. destruct op as [k v|k|k|]; cbn in *.
  - destruct (put_step s k v Hi Hf) as (s' & -> & ? & ?). by exists s'.
  - destruct (delete_step s k Hi) as (s' & -> & ? & ?). by exists s'.
  - rewrite get_step by done. by exists s.
  - rewrite len_step by done. by exists s.
Qed.

Lemma exec_refines s ops :
  store_inv s -> Forall op_fits ops ->
  exists s', exec s ops = (s', Ok (exec_map (contents s) ops).2) /\ store_inv s'
    /\ contents s' = (exec_map (contents s) ops).1.
Proof.
  intros Hi Hf. revert s Hi. induction Hf as [|op ops Hop _ IH]; intros s Hi; cbn [exec exec_map].
  { by exists s. }
  destruct (exec_op_refines s op Hi Hop) as (s1 & -> & Hi1 & E1).
  destruct (exec_map_op (contents s) op) as [m a]. cbn [fst snd] in *. subst m.
  destruct (IH s1 Hi1) as (s2 & -> & Hi2 & E2).
  destruct (exec_map (contents s1) ops) as [m l]. by exists s2.
Qed.

Ltac passes :=
  rsimpl; cbn [unwrap assert]; rsimpl;
  repeat match goal with
  | |- context [assert ?b] => replace b with true by reflexivity; cbn [assert]; rsimpl
  end.

Lemma contract_holds s :
  store_inv s -> contents s = ∅ ->
  fits 0 [x61] -> fits 1 [x62; x62] -> fits 0 [x41] -> fits u64_max blob ->
  exists s', contract_run s = Done s' /\ store_inv s'
    /\ contents s' = {[ 1 := [x62; x62]; u64_max := blob ]}.
Proof.
  intros Hi E0 F0 F1 F2 F3. unfold contract_run, is_empty, contains.
  rewrite len_step, E0 by done. passes.
  destruct (put_step s 0 [x61] Hi F0) as (s1 & -> & I1 & E1). rewrite E0 in E1. passes.
  destruct (put_step s1 1 [x62; x62] I1 F1) as (s2 & -> & I2 & E2). rewrite E1 in E2. passes.
  rewrite len_step, !get_step, !E2 by done. passes.
  destruct (put_step s2 0 [x41] I2 F2) as (s3 & -> & I3 & E3). rewrite E2 in E3. passes.
  rewrite len_step, !get_step, !E3 by done. passes.
  destruct (delete_step s3 0 I3) as (s4 & -> & I4 & E4). rewrite E3 in E4. passes.
  rewrite len_step, !get_step, !E4 by done. passes.
  destruct (delete_step s4 0 I4) as (s5 & -> & I5 & E5). rewrite E4 in E5. passes.
  destruct (put_step s5 u64_max blob I5 F3) as (s6 & -> & I6 & E6). rewrite E5 in E6. passes.
  rewrite get_step, E6 by done. exists s6. split_and!; [reflexivity|done|].
  rewrite E6. reflexivity.
Qed.
End Steps.
End Store.
