(* ===== verification/LogStore.v ===== *)
(** * [storage::log]: the log-structured store

    The model of [src/crates/storage/src/log.rs]: the [SyncFile] interface, the
    in-memory file and the store that appends a record for every mutation,
    rebuilds its index by replaying the file, and compacts when more than half
    of a large file is dead.

    Offsets and file sizes are not wrapped: a file of [2^64] bytes does not
    exist.  A value length is written in 32 bits and truncated there, as in the
    source, so the laws hold for values below [2^32] bytes. *)
From S2P Require Import Prelude Store.
From Stdlib Require Import Strings.Byte.

Module LogStore.
Import Store.

(** ** Files *)

Class SyncFile (F E : Type) := {
  fsize : F -> result E N;
  read_at : F -> N -> N -> result E bytes;
  write_at : F -> N -> bytes -> F * result E unit;
  truncate : F -> N -> F * result E unit;
  flush : F -> F * result E unit;
}.
#[global] Hint Mode SyncFile ! - : typeclass_instances.

(** The bytes of a file, and what a successful operation does to them. *)
Class SyncFileLaws (F E : Type) `{!SyncFile F E} := {
  fbytes : F -> bytes;
  fsize_ok f n : fsize f = Ok n -> n = lenN (fbytes f);
  read_at_ok f off n b : off + n <= lenN (fbytes f) -> read_at f off n = Ok b ->
    b = take (N.to_nat n) (drop (N.to_nat off) (fbytes f));
  write_at_ok f off buf f' : off <= lenN (fbytes f) -> write_at f off buf = (f', Ok tt) ->
    fbytes f' = take (N.to_nat off) (fbytes f) ++ buf ++ drop (N.to_nat off + length buf) (fbytes f);
  truncate_ok f n f' : truncate f n = (f', Ok tt) -> n <= lenN (fbytes f) ->
    fbytes f' = take (N.to_nat n) (fbytes f);
  flush_ok f f' : flush f = (f', Ok tt) -> fbytes f' = fbytes f;
}.

Class SyncFileTotal (F E : Type) `{SyncFileLaws F E} := {
  fsize_total (f : F) : exists n, fsize f = Ok n;
  read_at_total (f : F) off n : off + n <= lenN (fbytes f) -> exists b, read_at f off n = Ok b;
  write_at_total (f : F) off buf : off <= lenN (fbytes f) -> exists f', write_at f off buf = (f', Ok tt);
  truncate_total (f : F) n : exists f', truncate f n = (f', Ok tt);
  flush_total (f : F) : exists f', flush f = (f', Ok tt);
}.

(** The in-memory file.  Its error type has no values; the only way not to
    return is a slice out of range, which is the [Err] here. *)
Inductive SlicePanic := slice_panic.

Record MemFile := mkMemFile { data : bytes }.

Definition zeros (n : N) : bytes := replicate (N.to_nat n) x00.

Definition MemFile_read_at (f : MemFile) (off n : N) : result SlicePanic bytes :=
  let k := N.min n (lenN (data f) - off) in
  if lenN (data f) <? off then Err slice_panic
  else Ok (take (N.to_nat k) (drop (N.to_nat off) (data f)) ++ zeros (n - k)).

Definition MemFile_write_at (f : MemFile) (off : N) (buf : bytes) : MemFile * result SlicePanic unit :=
  let d := if lenN (data f) <? off + lenN buf
           then data f ++ zeros (off + lenN buf - lenN (data f)) else data f in
  (mkMemFile (take (N.to_nat off) d ++ buf ++ drop (N.to_nat off + length buf) d), Ok tt).

Definition MemFile_truncate (f : MemFile) (n : N) : MemFile * result SlicePanic unit :=
  (mkMemFile (take (N.to_nat n) (data f)), Ok tt).

#[global] Instance MemFile_file : SyncFile MemFile SlicePanic := {|
  fsize f := Ok (lenN (data f));
  read_at := MemFile_read_at;
  write_at := MemFile_write_at;
  truncate := MemFile_truncate;
  flush f := (f, Ok tt) |}.

(** ** Records *)

Definition HDR : N := 13.
Definition KIND_PUT : byte := x00.
Definition KIND_DEL : byte := x01.
Definition MIN_COMPACT : N := 4096.

Definition encode_record (key : N) (kind : byte) (value : bytes) : bytes :=
  le64 key ++ [kind] ++ le32 (lenN value) ++ value.

(** ** The store *)

Record LogStore (F : Type) := mkLog {
  file : F;
  index : gmap N (N * N);
  end_ : N;
  dead : N }.
#[global] Arguments mkLog {F} file index end_ dead.
#[global] Arguments file {F} l.
#[global] Arguments index {F} l.
#[global] Arguments end_ {F} l.
#[global] Arguments dead {F} l.

(** The replay loop of [open].  [rest] is the buffer from [pos] on; a record is
    at least [HDR] bytes, so the length of the buffer bounds the rounds. *)
Fixpoint replay_loop (fuel : nat) (rest : bytes) (pos : N) (index : gmap N (N * N)) (dead : N)
    : N * gmap N (N * N) * N :=
  match fuel with
  | O => (pos, index, dead)
  | S fuel' =>
      if lenN rest <? HDR then (pos, index, dead)
      else
        let key := from_le (take 8 rest) in
        let kind := default x00 (rest !! 8%nat) in
        let len := from_le (take 4 (drop 9 rest)) in
        if lenN rest <? HDR + len then (pos, index, dead)
        else
          let value_off := pos + HDR in
          let next := replay_loop fuel' (drop (N.to_nat (HDR + len)) rest) (pos + (HDR + len)) in
          if bool_decide (kind = KIND_PUT) then
            next (<[key := (value_off, len)]> index)
              (match index !! key with Some (_, old) => dead + (HDR + old) | None => dead end)
          else if bool_decide (kind = KIND_DEL) then
            next (base.delete key index)
              ((match index !! key with Some (_, old) => dead + (HDR + old) | None => dead end) + HDR)
          else (pos, index, dead)
  end.

Section Log.
Context {F E : Type} `{!SyncFile F E}.

Definition open (f : F) : F * result E (LogStore F) :=
  match fsize f with
  | Err e => (f, Err e)
  | Ok size =>
      match (if 0 <? size then read_at f 0 size else Ok []) with
      | Err e => (f, Err e)
      | Ok buf =>
          let '(pos, index, dead) := replay_loop (length buf) buf 0 ∅ 0 in
          if pos <? size then
            let '(f, r) := truncate f pos in
            match r with
            | Err e => (f, Err e)
            | Ok _ => (f, Ok (mkLog f index pos dead))
            end
          else (f, Ok (mkLog f index pos dead))
      end
  end.

Definition read_value (f : F) (off len : N) : result E bytes :=
  if 0 <? len then read_at f off len else Ok [].

(** The live entries, read before anything is overwritten. *)
Fixpoint read_live (f : F) (l : list (N * (N * N))) : result E (list (N * bytes)) :=
  match l with
  | [] => Ok []
  | (k, (off, len)) :: l' =>
      v ← read_value f off len;
      live ← read_live f l';
      Ok ((k, v) :: live)
  end.

(** The compacted file and its index. *)
Fixpoint pack (live : list (N * bytes)) (fresh : bytes) (index : gmap N (N * N))
    : bytes * gmap N (N * N) :=
  match live with
  | [] => (fresh, index)
  | (k, v) :: live' =>
      let value_off := lenN fresh + HDR in
      pack live' (fresh ++ encode_record k KIND_PUT v) (<[k := (value_off, wrap32 (lenN v))]> index)
  end.

Definition compact (s : LogStore F) : LogStore F * result E unit :=
  match read_live (file s) (bmap_list (index s)) with
  | Err e => (s, Err e)
  | Ok live =>
      let '(fresh, new_index) := pack live [] ∅ in
      let '(f, r) := truncate (file s) 0 in
      match r with
      | Err e => (mkLog f (index s) (end_ s) (dead s), Err e)
      | Ok _ =>
          let '(f, r) := (if negb (bool_decide (fresh = [])) then write_at f 0 fresh else (f, Ok tt)) in
          match r with
          | Err e => (mkLog f (index s) (end_ s) (dead s), Err e)
          | Ok _ =>
              let '(f, r) := flush f in
              match r with
              | Err e => (mkLog f (index s) (end_ s) (dead s), Err e)
              | Ok _ => (mkLog f new_index (lenN fresh) 0, Ok tt)
              end
          end
      end
  end.

Definition maybe_compact (s : LogStore F) : LogStore F * result E unit :=
  if (MIN_COMPACT <? end_ s) && (end_ s <? N.min (dead s * 2) u64_max) then compact s
  else (s, Ok tt).

Definition Log_put (s : LogStore F) (key : N) (value : bytes) : LogStore F * result E unit :=
  let rec := encode_record key KIND_PUT value in
  let '(f, r) := write_at (file s) (end_ s) rec in
  match r with
  | Err e => (mkLog f (index s) (end_ s) (dead s), Err e)
  | Ok _ =>
      let value_off := end_ s + HDR in
      let dead' := match index s !! key with
                   | Some (_, old) => dead s + (HDR + old)
                   | None => dead s
                   end in
      let index' := <[key := (value_off, wrap32 (lenN value))]> (index s) in
      let end' := end_ s + lenN rec in
      let '(f, r) := flush f in
      match r with
      | Err e => (mkLog f index' end' dead', Err e)
      | Ok _ => maybe_compact (mkLog f index' end' dead')
      end
  end.

Definition Log_get (s : LogStore F) (key : N) : result E (option bytes) :=
  match index s !! key with
  | None => Ok None
  | Some (off, len) => v ← read_value (file s) off len; Ok (Some v)
  end.

(** The entry leaves the index before the tombstone is written. *)
Definition Log_delete (s : LogStore F) (key : N) : LogStore F * result E unit :=
  match index s !! key with
  | None => (s, Ok tt)
  | Some (_, old) =>
      let index' := base.delete key (index s) in
      let rec := encode_record key KIND_DEL [] in
      let '(f, r) := write_at (file s) (end_ s) rec in
      match r with
      | Err e => (mkLog f index' (end_ s) (dead s), Err e)
      | Ok _ =>
          let end' := end_ s + lenN rec in
          let dead' := dead s + (HDR + old + HDR) in
          let '(f, r) := flush f in
          match r with
          | Err e => (mkLog f index' end' dead', Err e)
          | Ok _ => maybe_compact (mkLog f index' end' dead')
          end
      end
  end.

Definition Log_len (s : LogStore F) : result E N := Ok (N.of_nat (size (index s))).

#[global] Instance Log_store : Store (LogStore F) E := {|
  put := Log_put; get := Log_get; delete := Log_delete; len := Log_len |}.
End Log.

(** ** Lemmas: the in-memory file *)

#[global] Program Instance MemFile_laws : SyncFileLaws MemFile SlicePanic := {| fbytes := data |}.
Next Obligation. by intros f n [= <-]. Qed.
Next Obligation.
  intros f off n b Hb. cbn. unfold MemFile_read_at. case_if; [lia|]. intros [= <-].
  replace (N.min n (lenN (data f) - off)) with n by lia. rewrite N.sub_diag. apply app_nil_r.
Qed.
Next Obligation.
  intros f off buf f' Ho [= <-]. cbn [data]. case_if; [|done].
  rewrite take_app_le by (unfold lenN in *; lia). do 2 f_equal.
  rewrite !drop_ge; [done|unfold lenN in *; lia|].
  rewrite length_app. unfold zeros. rewrite length_replicate. unfold lenN in *. lia.
Qed.
Next Obligation. by intros f n f' [= <-]. Qed.
Next Obligation. by intros f f' [= <-]. Qed.

#[global] Instance MemFile_total : SyncFileTotal MemFile SlicePanic.
Proof.
  split; try (intros; eexists; reflexivity).
  intros f off n Hb. cbn in *. unfold MemFile_read_at. case_if; [lia|]. by eexists.
Qed.

(** ** The log as a list of records *)

Inductive record := RPut (k : N) (v : bytes) | RDel (k : N).

Definition enc (r : record) : bytes :=
  match r with
  | RPut k v => encode_record k KIND_PUT v
  | RDel k => encode_record k KIND_DEL []
  end.
Definition enc_all (rs : list record) : bytes := concat (map enc rs).

Definition rec_key (r : record) : N := match r with RPut k _ | RDel k => k end.
Definition rec_val (r : record) : bytes := match r with RPut _ v => v | RDel _ => [] end.
Definition rec_ok (r : record) : Prop := u64_ok (rec_key r) /\ lenN (rec_val r) < two32.

(** What the records mean: the map they leave. *)
Definition apply_rec (m : gmap N bytes) (r : record) : gmap N bytes :=
  match r with RPut k v => <[k := v]> m | RDel k => base.delete k m end.
Definition live (rs : list record) : gmap N bytes := foldl apply_rec ∅ rs.

(** What the replay keeps of them. *)
Definition rstate : Type := N * gmap N (N * N) * N.
Definition freed (index : gmap N (N * N)) (k : N) (dead : N) : N :=
  match index !! k with Some (_, old) => dead + (HDR + old) | None => dead end.
Definition replay_rec (st : rstate) (r : record) : rstate :=
  let '(pos, index, dead) := st in
  match r with
  | RPut k v => (pos + lenN (enc r), <[k := (pos + HDR, lenN v)]> index, freed index k dead)
  | RDel k => (pos + lenN (enc r), base.delete k index, freed index k dead + HDR)
  end.
Definition replay (rs : list record) : rstate := foldl replay_rec (0, ∅, 0) rs.

Lemma enc_length r : lenN (enc r) = HDR + lenN (rec_val r).
Proof.
  destruct r as [k v|k]; unfold lenN, enc, encode_record, HDR;
    rewrite !length_app, !to_le_length; cbn; lia.
Qed.

Lemma enc_all_snoc rs r : enc_all (rs ++ [r]) = enc_all rs ++ enc r.
Proof. unfold enc_all. rewrite map_app, concat_app. cbn. by rewrite app_nil_r. Qed.

Lemma le32_small n : n < two32 -> from_le (le32 n) = n.
Proof. intros Hn. rewrite from_to_le. by apply N.mod_small. Qed.

Lemma enc_shape r :
  enc r = le64 (rec_key r) ++ [match r with RPut _ _ => KIND_PUT | RDel _ => KIND_DEL end]
            ++ le32 (lenN (rec_val r)) ++ rec_val r.
Proof. by destruct r. Qed.

(** The header fields at the front of a record. *)
Lemma enc_fields r rest :
  rec_ok r ->
  let bs := enc r ++ rest in
  from_le (take 8 bs) = rec_key r /\
  bs !! 8%nat = Some (match r with RPut _ _ => KIND_PUT | RDel _ => KIND_DEL end) /\
  from_le (take 4 (drop 9 bs)) = lenN (rec_val r).
Proof.
  intros [Hk Hv] bs. subst bs. rewrite enc_shape, <- !app_assoc. split_and!.
  - rewrite take_app_length' by (by rewrite to_le_length). by apply from_le64.
  - rewrite lookup_app_r by (by rewrite to_le_length). by rewrite to_le_length.
  - rewrite (app_assoc (le64 _)), drop_app_length' by (by rewrite length_app, to_le_length).
    rewrite take_app_length' by (by rewrite to_le_length). by apply le32_small.
Qed.

Lemma replay_loop_step f r rest pos idx dead :
  rec_ok r ->
  replay_loop (S f) (enc r ++ rest) pos idx dead =
  (let '(pos', idx', dead') := replay_rec (pos, idx, dead) r in replay_loop f rest pos' idx' dead').
Proof.
  intros Hr. cbn [replay_loop]. pose proof (enc_length r) as El.
  destruct (enc_fields r rest Hr) as (Ek & Ekind & Elen). rewrite Ek, Ekind, Elen. cbn [default from_option id].
  rewrite lenN_app, El. unfold HDR in *.
  rewrite !(proj2 (N.ltb_ge _ _)) by lia.
  assert (Ed : drop (N.to_nat (13 + lenN (rec_val r))) (enc r ++ rest) = rest).
  { apply drop_app_length'. unfold lenN in *. lia. }
  rewrite Ed. unfold replay_rec, freed, HDR. destruct r as [k v|k]; cbn [rec_key rec_val]; rewrite El; done.
Qed.

Lemma replay_loop_all rs f rest pos idx dead :
  Forall rec_ok rs -> (length rs <= f)%nat ->
  replay_loop f (enc_all rs ++ rest) pos idx dead =
  (let '(pos', idx', dead') := foldl replay_rec (pos, idx, dead) rs in
   replay_loop (f - length rs) rest pos' idx' dead').
Proof.
  intros Hrs. revert f pos idx dead. induction Hrs as [|r rs Hr Hrs IH]; intros f pos idx dead Hf.
  - cbn. by rewrite Nat.sub_0_r.
  - destruct f as [|f]; [cbn in Hf; lia|]. unfold enc_all. cbn [map concat]. rewrite <- app_assoc.
    rewrite replay_loop_step by done. cbn [foldl length].
    destruct (replay_rec (pos, idx, dead) r) as [[pos' idx'] dead'].
    rewrite Nat.sub_succ. apply IH. cbn in Hf. lia.
Qed.

(** A record cut short by an interrupted write. *)
Definition torn (tail : bytes) : Prop :=
  exists r p, rec_ok r /\ (p < length (enc r))%nat /\ tail = take p (enc r).

Lemma torn_nil : torn [].
Proof.
  exists (RDel 0), 0%nat. split; [by split|]. split; [|done].
  pose proof (enc_length (RDel 0)) as E. unfold lenN, HDR in E. lia.
Qed.

Lemma replay_loop_torn f tail pos idx dead :
  torn tail -> replay_loop f tail pos idx dead = (pos, idx, dead).
Proof.
  intros (r & p & Hr & Hp & ->). destruct f as [|f]; [done|]. cbn [replay_loop]. unfold HDR.
  pose proof (enc_length r) as El. unfold HDR in El.
  assert (Hlen : lenN (take p (enc r)) = N.of_nat p) by (unfold lenN; rewrite length_take; lia).
  rewrite Hlen. case_if; [done|].
  destruct (enc_fields r [] Hr) as (_ & _ & Elen). rewrite app_nil_r in Elen.
  assert (E4 : take 4 (drop 9 (take p (enc r))) = take 4 (drop 9 (enc r))).
  { rewrite skipn_firstn_comm, take_take. f_equal. lia. }
  rewrite E4, Elen. rewrite (proj2 (N.ltb_lt _ _)); [done|]. unfold lenN in *. lia.
Qed.

Lemma enc_all_length rs : (length rs <= length (enc_all rs))%nat.
Proof.
  induction rs as [|r rs IH]; [done|]. unfold enc_all in *. cbn [map concat length].
  rewrite length_app. pose proof (enc_length r). unfold lenN, HDR in *. lia.
Qed.

(** The index points at the live values. *)
Definition slice (bs : bytes) (e : N * N) : bytes := take (N.to_nat e.2) (drop (N.to_nat e.1) bs).

Definition points (bs : bytes) (idx : gmap N (N * N)) (m : gmap N bytes) : Prop :=
  m = slice bs <$> idx /\ forall k e, idx !! k = Some e -> e.1 + e.2 <= lenN bs.

Lemma slice_app bs b2 e : e.1 + e.2 <= lenN bs -> slice (bs ++ b2) e = slice bs e.
Proof.
  intros He. unfold slice, lenN in *. rewrite drop_app_le by lia.
  apply take_app_le. rewrite length_drop. lia.
Qed.

Lemma points_app bs b2 idx m : points bs idx m -> points (bs ++ b2) idx m.
Proof.
  intros [-> Hb]. split.
  - apply map_fmap_ext. intros k e He. symmetry. eauto using slice_app.
  - intros k e He. rewrite lenN_app. specialize (Hb _ _ He). lia.
Qed.

Lemma points_put bs idx m k v :
  points bs idx m ->
  points (bs ++ enc (RPut k v)) (<[k := (lenN bs + HDR, lenN v)]> idx) (<[k := v]> m).
Proof.
  intros Hp. apply (points_app _ (enc (RPut k v))) in Hp as [-> Hb]. split.
  - rewrite fmap_insert. f_equal. unfold slice. cbn [fst snd]. unfold enc, encode_record.
    rewrite !app_assoc, drop_app_length'.
    + unfold lenN. rewrite Nat2N.id, firstn_all. done.
    + rewrite !length_app, !to_le_length. unfold lenN, HDR. cbn. lia.
  - intros k' e. rewrite lookup_insert_Some. intros [[<- <-]|[_ He]]; [|by eapply Hb].
    rewrite lenN_app, enc_length. cbn. lia.
Qed.

Lemma points_del bs idx m k b2 :
  points bs idx m -> points (bs ++ b2) (base.delete k idx) (base.delete k m).
Proof.
  intros Hp. apply (points_app _ b2) in Hp as [-> Hb]. split; [by rewrite fmap_delete|].
  intros k' e He. apply lookup_delete_Some in He as [_ He]. by eapply Hb.
Qed.

Lemma replay_snoc rs r : replay (rs ++ [r]) = replay_rec (replay rs) r.
Proof. unfold replay. by rewrite foldl_app. Qed.

Lemma live_snoc rs r : live (rs ++ [r]) = apply_rec (live rs) r.
Proof. unfold live. by rewrite foldl_app. Qed.

Lemma replay_spec rs :
  (replay rs).1.1 = lenN (enc_all rs) /\ points (enc_all rs) (replay rs).1.2 (live rs).
Proof.
  induction rs as [|r rs [IHp IHi]] using rev_ind.
  { split; [done|]. split; [symmetry; apply fmap_empty|done]. }
  rewrite replay_snoc, live_snoc, enc_all_snoc, lenN_app.
  destruct (replay rs) as [[pos idx] dead]. cbn in IHp, IHi. subst pos.
  destruct r as [k v|k]; cbn [replay_rec fst snd apply_rec]; (split; [done|]).
  - by apply points_put.
  - by apply points_del.
Qed.

(** ** The laws *)

Section Laws.
Context {F E : Type} `{SyncFileLaws F E}.

Definition Log_contents (s : LogStore F) : gmap N bytes := slice (fbytes (file s)) <$> index s.

(** The file is a sequence of whole records and the rest is their replay. *)
Definition Log_inv (s : LogStore F) : Prop :=
  exists rs, Forall rec_ok rs /\ fbytes (file s) = enc_all rs /\
    replay rs = (end_ s, index s, dead s).

Definition Log_fits (k : N) (v : bytes) : Prop := u64_ok k /\ lenN v < two32.

Lemma Log_inv_live s rs :
  fbytes (file s) = enc_all rs -> replay rs = (end_ s, index s, dead s) ->
  Log_contents s = live rs /\ end_ s = lenN (fbytes (file s)) /\
  forall k e, index s !! k = Some e -> e.1 + e.2 <= lenN (fbytes (file s)).
Proof.
  intros Ef Er. destruct (replay_spec rs) as [Hp [Hl Hb]]. rewrite Er in *. cbn in *.
  unfold Log_contents. rewrite Ef. done.
Qed.

Lemma read_value_ok f off n v :
  off + n <= lenN (fbytes f) -> read_value f off n = Ok v -> v = slice (fbytes f) (off, n).
Proof.
  intros Hb. unfold read_value. case_if; [by apply read_at_ok|].
  intros [= <-]. assert (n = 0) as -> by lia. done.
Qed.

Lemma Log_get_ok s k r : Log_inv s -> Log_get s k = Ok r -> r = Log_contents s !! k.
Proof.
  intros (rs & _ & Ef & Er). destruct (Log_inv_live s rs Ef Er) as (_ & _ & Hb).
  unfold Log_get, Log_contents. rewrite lookup_fmap. destruct (index s !! k) as [[off n]|] eqn:Ei.
  - destruct (read_value (file s) off n) as [v|] eqn:Ev; [|done]. intros [= <-].
    apply read_value_ok in Ev as ->; [done|]. by apply (Hb _ _ Ei).
  - by intros [= <-].
Qed.

(** *** Compaction *)

Definition put_entry (e : N * bytes) : record := RPut e.1 e.2.

Lemma read_live_ok f l lv :
  (forall k e, (k, e) ∈ l -> e.1 + e.2 <= lenN (fbytes f)) ->
  read_live f l = Ok lv -> lv = (λ '(k, e), (k, slice (fbytes f) e)) <$> l.
Proof.
  revert lv; induction l as [|[k [off n]] l IH]; intros lv Hb; cbn [read_live].
  - by intros [= <-].
  - destruct (read_value f off n) as [v|] eqn:Ev; [|done]. rsimpl.
    destruct (read_live f l) as [lv'|] eqn:El; [|done]. rsimpl. intros [= <-].
    apply read_value_ok in Ev as ->; [|apply (Hb k (off, n)); by left].
    cbn. f_equal. apply IH; [|done]. intros k' e ?. apply (Hb k'). by right.
Qed.

Lemma pack_replay lv fresh idx :
  Forall (λ e, lenN e.2 < two32) lv -> NoDup lv.*1 -> (forall k, k ∈ lv.*1 -> idx !! k = None) ->
  let '(fresh', idx') := pack lv fresh idx in
  fresh' = fresh ++ enc_all (put_entry <$> lv) /\
  foldl replay_rec (lenN fresh, idx, 0) (put_entry <$> lv) = (lenN fresh', idx', 0).
Proof.
  revert fresh idx; induction lv as [|[k v] lv IH]; intros fresh idx Hv Hnd Hi; cbn [pack].
  - cbn. by rewrite app_nil_r.
  - apply Forall_cons in Hv as [Hv Hvs]. apply NoDup_cons in Hnd as [Hk Hnd]. cbn in Hv.
    unfold wrap32. rewrite N.mod_small by done.
    specialize (IH (fresh ++ encode_record k KIND_PUT v) (<[k := (lenN fresh + HDR, lenN v)]> idx)).
    destruct (pack lv _ _) as [fresh' idx']. destruct IH as [-> E2]; [done|done| |].
    + intros k' Hk'. rewrite lookup_insert_ne by (intros ->; done). apply Hi. by right.
    + split; [unfold enc_all; cbn; by rewrite <- app_assoc|].
      cbn [fmap list_fmap foldl]. rewrite lenN_app in E2. rewrite <- E2. f_equal.
      unfold replay_rec, put_entry, freed. cbn [fst snd]. by rewrite Hi by (by left).
Qed.

Lemma live_puts lv m :
  NoDup lv.*1 -> foldl apply_rec m (put_entry <$> lv) = list_to_map lv ∪ m.
Proof.
  intros Hnd. rewrite <- foldl_insert_union by done. clear Hnd.
  revert m; induction lv as [|[k v] lv IH]; intros m; [done|]. cbn. apply IH.
Qed.

Lemma sliced_entries f (idx : gmap N (N * N)) :
  list_to_map ((λ '(k, e), (k, slice (fbytes f) e)) <$> bmap_list idx) = slice (fbytes f) <$> idx.
Proof.
  rewrite <- (bmap_list_to_map idx) at 2. rewrite <- list_to_map_fmap. f_equal.
  apply list_fmap_ext. by intros ? [? ?] _.
Qed.

Lemma sliced_keys f (idx : gmap N (N * N)) :
  ((λ '(k, e), (k, slice (fbytes f) e)) <$> bmap_list idx).*1 = (bmap_list idx).*1.
Proof. rewrite <- list_fmap_compose. apply list_fmap_ext. by intros ? [? ?] _. Qed.

Lemma bmap_list_fmap f (idx : gmap N (N * N)) :
  bmap_list (slice (fbytes f) <$> idx) = (λ '(k, e), (k, slice (fbytes f) e)) <$> bmap_list idx.
Proof.
  unfold bmap_list, bmap_keys. rewrite dom_fmap_L. induction (bset_list (dom idx)) as [|k l IH]; [done|].
  cbn [omap list_omap]. rewrite lookup_fmap. destruct (idx !! k); cbn; by rewrite IH.
Qed.

Lemma live_len_ok rs k v : Forall rec_ok rs -> live rs !! k = Some v -> u64_ok k /\ lenN v < two32.
Proof.
  intros Hrs. induction rs as [|r rs IH] using rev_ind; [done|].
  apply Forall_app in Hrs as [Hrs [Hr _]%Forall_cons]. rewrite live_snoc. destruct r as [k' v'|k']; cbn.
  - rewrite lookup_insert_Some. intros [[<- <-]|[_ ?]]; [done|by apply IH].
  - rewrite lookup_delete_Some. intros [_ ?]. by apply IH.
Qed.

Lemma compact_ok s s' :
  Log_inv s -> compact s = (s', Ok tt) ->
  Log_inv s' /\ Log_contents s' = Log_contents s /\ dead s' = 0
  /\ fbytes (file s') = enc_all (put_entry <$> bmap_list (Log_contents s)).
Proof.
  intros (rs & Hrs & Ef & Er). destruct (Log_inv_live s rs Ef Er) as (Hl & He & Hb). unfold compact.
  destruct (read_live _ _) as [lv|] eqn:Elv; [|done].
  apply read_live_ok in Elv; [|intros k e Hin; apply (Hb k); by apply bmap_list_elem].
  assert (Hnd : NoDup lv.*1) by (rewrite Elv, sliced_keys; apply bmap_list_nodup).
  assert (Hmap : list_to_map lv = Log_contents s) by (by rewrite Elv, sliced_entries).
  assert (Hvals : Forall (λ e, u64_ok e.1 /\ lenN e.2 < two32) lv).
  { apply Forall_forall. intros [k v] Hin. apply (live_len_ok rs); [done|].
    rewrite <- Hl, <- Hmap. by apply elem_of_list_to_map_1. }
  pose proof (pack_replay lv [] ∅) as Hp. destruct (pack lv [] ∅) as [fresh idx'].
  destruct Hp as [-> Erp]; [by eapply Forall_impl; [done|intros ? []]|done|intros; apply lookup_empty|].
  destruct (truncate (file s) 0) as [f1 [[]|]] eqn:E1; [|done].
  apply truncate_ok in E1; [|lia]. rewrite take_0 in E1.
  set (fresh := [] ++ enc_all (put_entry <$> lv)) in *.
  assert (Hw : forall f2, (if negb (bool_decide (fresh = [])) then write_at f1 0 fresh else (f1, Ok tt))
                 = (f2, Ok tt) -> fbytes f2 = fresh).
  { intros f2. case_bool_decide as Ene; cbn [negb].
    - intros [= <-]. by rewrite E1, Ene.
    - intros Ew. apply write_at_ok in Ew; [|lia]. rewrite Ew, E1, drop_nil, app_nil_r. done. }
  destruct (if negb _ then _ else _) as [f2 [[]|]] eqn:E2; [|done]. specialize (Hw f2 eq_refl).
  destruct (flush f2) as [f3 [[]|]] eqn:E3; [|done]. apply flush_ok in E3. intros [= <-].
  assert (Hinv : Log_inv (mkLog f3 idx' (lenN fresh) 0)).
  { exists (put_entry <$> lv). split_and!; [|cbn [file]; rewrite E3; exact Hw|done].
    apply Forall_fmap. eapply Forall_impl; [done|]. by intros [k v]. }
  split_and!; [done| |done|].
  2: { cbn [file]. rewrite E3, Hw. unfold fresh, Log_contents. by rewrite bmap_list_fmap, Elv. }
  destruct Hinv as (rs' & _ & Ef' & Er').
  assert (Erp' : replay (put_entry <$> lv) = (lenN fresh, idx', 0)) by exact Erp.
  destruct (Log_inv_live (mkLog f3 idx' (lenN fresh) 0) (put_entry <$> lv)) as (-> & _ & _);
    [cbn [file]; rewrite E3; exact Hw|done|].
  unfold live. rewrite live_puts by done. by rewrite (right_id_L ∅ (∪)).
Qed.

Lemma maybe_compact_ok s s' :
  Log_inv s -> maybe_compact s = (s', Ok tt) -> Log_inv s' /\ Log_contents s' = Log_contents s.
Proof.
  intros Hi. unfold maybe_compact. case_if; [|by intros [= <-]].
  intros Hc. by apply compact_ok in Hc as (? & ? & _).
Qed.

(** *** Mutations append one record *)

Lemma append_record s rs r f1 f2 :
  Forall rec_ok rs -> fbytes (file s) = enc_all rs -> replay rs = (end_ s, index s, dead s) -> rec_ok r ->
  write_at (file s) (end_ s) (enc r) = (f1, Ok tt) -> flush f1 = (f2, Ok tt) ->
  let '(e, i, d) := replay_rec (end_ s, index s, dead s) r in
  Log_inv (mkLog f2 i e d) /\ Log_contents (mkLog f2 i e d) = apply_rec (Log_contents s) r.
Proof.
  intros Hrs Ef Er Hr Ew Efl. destruct (Log_inv_live s rs Ef Er) as (Hl & He & _).
  apply write_at_ok in Ew; [|lia]. apply flush_ok in Efl.
  assert (Eb : fbytes f2 = enc_all (rs ++ [r])).
  { rewrite Efl, Ew, enc_all_snoc, <- Ef, He. unfold lenN.
    rewrite Nat2N.id, firstn_all, drop_ge by lia. by rewrite app_nil_r. }
  destruct (replay_rec (end_ s, index s, dead s) r) as [[e i] d] eqn:E1.
  assert (Er' : replay (rs ++ [r]) = (e, i, d)) by (by rewrite replay_snoc, Er).
  split.
  - exists (rs ++ [r]). split_and!; [|done|done]. apply Forall_app. by split; [|constructor].
  - destruct (Log_inv_live (mkLog f2 i e d) (rs ++ [r]) Eb Er') as (-> & _ & _).
    by rewrite live_snoc, Hl.
Qed.

Lemma Log_put_ok s k v s' :
  Log_inv s -> Log_fits k v -> Log_put s k v = (s', Ok tt) ->
  Log_inv s' /\ Log_contents s' = <[k := v]> (Log_contents s).
Proof.
  intros (rs & Hrs & Ef & Er) [Hk Hv]. unfold Log_put.
  destruct (write_at _ _ _) as [f1 [[]|]] eqn:E1; [|done].
  destruct (flush f1) as [f2 [[]|]] eqn:E2; [|done].
  pose proof (append_record s rs (RPut k v) f1 f2 Hrs Ef Er (conj Hk Hv) E1 E2) as Ha. cbn in Ha.
  unfold wrap32. rewrite N.mod_small by done. intros Hm.
  destruct Ha as [Hi Hc]. apply maybe_compact_ok in Hm as [? ->]; [done|exact Hi].
Qed.

Lemma Log_delete_ok s k s' :
  Log_inv s -> Log_delete s k = (s', Ok tt) ->
  Log_inv s' /\ Log_contents s' = base.delete k (Log_contents s).
Proof.
  intros Hinv. pose proof Hinv as (rs & Hrs & Ef & Er). unfold Log_delete.
  destruct (Log_inv_live s rs Ef Er) as (Hl & _ & _).
  destruct (index s !! k) as [[off old]|] eqn:Ei.
  2: { intros [= <-]. split; [done|]. symmetry. apply delete_id.
       unfold Log_contents. by rewrite lookup_fmap, Ei. }
  assert (Hk : u64_ok k).
  { apply (live_len_ok rs k (slice (fbytes (file s)) (off, old))); [done|].
    rewrite <- Hl. unfold Log_contents. by rewrite lookup_fmap, Ei. }
  destruct (write_at _ _ _) as [f1 [[]|]] eqn:E1; [|done].
  destruct (flush f1) as [f2 [[]|]] eqn:E2; [|done].
  pose proof (append_record s rs (RDel k) f1 f2 Hrs Ef Er) as Ha. cbn in Ha.
  destruct Ha as [Hi Hc]; [by split|done|done|]. unfold freed in *. rewrite Ei in *.
  replace (dead s + (HDR + old) + HDR) with (dead s + (HDR + old + HDR)) in * by lia.
  intros Hm. apply maybe_compact_ok in Hm as [? ->]; [done|exact Hi].
Qed.

#[global] Program Instance Log_laws : StoreLaws (LogStore F) E := {|
  contents := Log_contents; store_inv := Log_inv; fits := Log_fits |}.
Next Obligation. intros s k v s' Hi Hf Hp. by eapply Log_put_ok. Qed.
Next Obligation. intros s k r Hi Hg. by eapply Log_get_ok. Qed.
Next Obligation. intros s k s' Hi Hd. by eapply Log_delete_ok. Qed.
Next Obligation.
  intros s n Hi [= <-]. unfold Log_contents. by rewrite map_size_fmap.
Qed.

(** *** Opening *)

(** A file that ends in a torn record opens to the records before it, and the
    tail is cut off. *)
Lemma open_ok f f' r rs tail :
  fbytes f = enc_all rs ++ tail -> Forall rec_ok rs -> torn tail -> open f = (f', r) ->
  match r with
  | Ok s => Log_inv s /\ Log_contents s = live rs /\ fbytes (file s) = enc_all rs
  | Err _ => True
  end.
Proof.
  intros Ef Hrs Ht. unfold open. destruct (fsize f) as [sz|] eqn:Esz; [|by intros [= <- <-]].
  apply fsize_ok in Esz. subst sz.
  destruct (if 0 <? lenN (fbytes f) then _ else _) as [buf|] eqn:Eb; [|by intros [= <- <-]].
  assert (buf = fbytes f) as ->.
  { case_if_in Eb.
    - apply read_at_ok in Eb; [|lia]. subst buf. unfold lenN. rewrite Nat2N.id. apply firstn_all.
    - injection Eb as <-. destruct (fbytes f); [done|]. unfold lenN in *. cbn in *. lia. }
  rewrite Ef. rewrite replay_loop_all; [|done|rewrite length_app; pose proof (enc_all_length rs); lia].
  change (foldl replay_rec (0, ∅, 0) rs) with (replay rs).
  destruct (replay_spec rs) as [Hp Hi]. destruct (replay rs) as [[pos idx] dead] eqn:Er. cbn in Hp, Hi.
  rewrite replay_loop_torn by done. rewrite <- Ef. case_if.
  - destruct (truncate f pos) as [f1 [[]|]] eqn:E1; [|by intros [= <- <-]]. intros [= <- <-].
    apply truncate_ok in E1; [|lia].
    assert (Eb1 : fbytes f1 = enc_all rs).
    { rewrite E1, Ef, Hp. unfold lenN. by rewrite Nat2N.id, take_app_length. }
    destruct (Log_inv_live (mkLog f1 idx pos dead) rs) as (Hl & _); [done|done|].
    split_and!; [by exists rs|done|done].
  - intros [= <- <-]. assert (tail = []) as ->.
    { rewrite Ef, lenN_app in *. destruct tail; [done|]. rewrite lenN_cons in *. lia. }
    rewrite app_nil_r in Ef. destruct (Log_inv_live (mkLog f idx pos dead) rs) as (Hl & _); [done|done|].
    split_and!; [by exists rs|done|done].
Qed.
End Laws.

(** *** No operation of a store over a reliable file fails *)

Section Total.
Context {F E : Type} `{SyncFileTotal F E}.

Lemma read_value_total f off n : off + n <= lenN (fbytes f) -> exists v, read_value f off n = Ok v.
Proof. intros Hb. unfold read_value. case_if; [by apply read_at_total|by eexists]. Qed.

Lemma read_live_total f l :
  (forall k e, (k, e) ∈ l -> e.1 + e.2 <= lenN (fbytes f)) -> exists lv, read_live f l = Ok lv.
Proof.
  induction l as [|[k [off n]] l IH]; intros Hb; cbn [read_live]; [by eexists|].
  destruct (read_value_total f off n) as [v ->]; [apply (Hb k (off, n)); by left|].
  destruct IH as [lv ->]; [|by eexists]. intros k' e ?. apply (Hb k'). by right.
Qed.

Lemma compact_total s : Log_inv s -> exists s', compact s = (s', Ok tt).
Proof.
  intros (rs & _ & Ef & Er). destruct (Log_inv_live s rs Ef Er) as (_ & _ & Hb). unfold compact.
  destruct (read_live_total (file s) (bmap_list (index s))) as [lv ->].
  { intros k e Hin. apply (Hb k). by apply bmap_list_elem. }
  destruct (pack lv [] ∅) as [fresh idx'].
  destruct (truncate_total (file s) 0) as [f1 ->].
  assert (exists f2, (if negb (bool_decide (fresh = [])) then write_at f1 0 fresh else (f1, Ok tt)) = (f2, Ok tt)) as [f2 ->].
  { case_if; [|by eexists]. apply write_at_total. lia. }
  destruct (flush_total f2) as [f3 ->]. by eexists.
Qed.

Lemma maybe_compact_total s : Log_inv s -> exists s', maybe_compact s = (s', Ok tt).
Proof. intros Hi. unfold maybe_compact. case_if; [by apply compact_total|by eexists]. Qed.

#[global] Instance Log_total : StoreTotal (LogStore F) E.
Proof.
  split.
  - intros s k v (rs & Hrs & Ef & Er) [Hk Hv]. cbn. unfold Log_put.
    destruct (Log_inv_live s rs Ef Er) as (_ & He & _).
    destruct (write_at_total (file s) (end_ s) (encode_record k KIND_PUT v)) as [f1 E1]; [lia|]. rewrite E1.
    destruct (flush_total f1) as [f2 E2]. rewrite E2. apply maybe_compact_total.
    pose proof (append_record s rs (RPut k v) f1 f2 Hrs Ef Er (conj Hk Hv) E1 E2) as Ha. cbn in Ha.
    unfold wrap32. rewrite N.mod_small by done. apply Ha.
  - intros s k (rs & Hrs & Ef & Er). cbn. unfold Log_get.
    destruct (Log_inv_live s rs Ef Er) as (_ & _ & Hb).
    destruct (index s !! k) as [[off n]|] eqn:Ei; [|by eexists].
    destruct (read_value_total (file s) off n) as [v ->]; [by apply (Hb _ _ Ei)|by eexists].
  - intros s k Hinv. pose proof Hinv as (rs & Hrs & Ef & Er). cbn. unfold Log_delete.
    destruct (Log_inv_live s rs Ef Er) as (Hl & He & _).
    destruct (index s !! k) as [[off old]|] eqn:Ei; [|by eexists].
    assert (Hk : u64_ok k).
    { apply (live_len_ok rs k (slice (fbytes (file s)) (off, old))); [done|].
      rewrite <- Hl. unfold Log_contents. by rewrite lookup_fmap, Ei. }
    destruct (write_at_total (file s) (end_ s) (encode_record k KIND_DEL [])) as [f1 E1]; [lia|]. rewrite E1.
    destruct (flush_total f1) as [f2 E2]. rewrite E2. apply maybe_compact_total.
    pose proof (append_record s rs (RDel k) f1 f2 Hrs Ef Er) as Ha. cbn in Ha.
    destruct Ha as [Hi _]; [by split|done|done|]. unfold freed in *. rewrite Ei in *.
    by replace (dead s + (HDR + old) + HDR) with (dead s + (HDR + old + HDR)) in * by lia.
  - intros s _. by eexists.
Qed.

Lemma open_total f rs tail :
  fbytes f = enc_all rs ++ tail -> Forall rec_ok rs -> torn tail ->
  exists f' s, open f = (f', Ok s) /\ Log_inv s /\ Log_contents s = live rs.
Proof.
  intros Ef Hrs Ht. destruct (open f) as [f' r] eqn:Eo. pose proof (open_ok f f' r rs tail Ef Hrs Ht Eo) as Hok.
  destruct r as [s|e]; [by exists f', s; destruct Hok as (? & ? & _)|exfalso].
  unfold open in Eo. destruct (fsize_total f) as [sz Esz]. rewrite Esz in Eo. apply fsize_ok in Esz. subst sz.
  destruct (read_at_total f 0 (lenN (fbytes f))) as [b Eb]; [lia|].
  destruct (if 0 <? lenN (fbytes f) then _ else _) as [buf|] eqn:E1; [|case_if_in E1; congruence].
  destruct (replay_loop _ _ _ _ _) as [[pos idx] dead].
  destruct (truncate_total f pos) as [f1 E2]. rewrite E2 in Eo. case_if_in Eo; congruence.
Qed.
End Total.
End LogStore.
