(* ===== verification/StoreTheorems.v ===== *)
(** * [storage]: what a backend guarantees

    The properties of the backends of [src/crates/storage]: a lawful backend is
    a map for every client, passes the repository's behavioural contract, and the
    log-structured one survives a torn write and a compaction. *)
From S2P Require Import Prelude Store LogStore.
From Stdlib Require Import Strings.Byte.

Module StoreTheorems.
Import Store LogStore.

(** The bytes of a compacted file: one record for each live entry. *)
Definition packed_size (m : gmap N bytes) : N :=
  foldr (λ e a, HDR + lenN e.2 + a) 0 (bmap_list m).

Lemma enc_puts_length l :
  lenN (enc_all (put_entry <$> l)) = foldr (λ e a, HDR + lenN e.2 + a) 0 l.
Proof.
  induction l as [|[k v] l IH]; [done|]. unfold enc_all in *. cbn [fmap list_fmap map concat foldr snd].
  rewrite lenN_app, IH, enc_length. done.
Qed.

Section Theorems.
Context {F E : Type} `{SyncFileTotal F E}.

(** C37: Every sequence of puts, deletes, gets and lens on a log-structured store
    over a reliable file, written through a tee to an in-memory cache, succeeds
    and answers exactly as a map does; compactions along the way are invisible. *)
Theorem tee_log_refines_map (s : TeeStore (LogStore F) MemoryStore) ops :
  store_inv s -> Forall (op_fits (S:=TeeStore (LogStore F) MemoryStore)) ops ->
  exists s', exec s ops = (s', Ok (exec_map (contents s) ops).2) /\ store_inv s'
    /\ contents s' = (exec_map (contents s) ops).1.
Proof. apply exec_refines. Qed.

(** [contract::run] finds no violation on an empty log-structured store over a
    reliable file, and leaves the two entries it does not delete. *)
Theorem contract_run_log (s : LogStore F) :
  store_inv s -> contents s = ∅ ->
  exists s', contract_run s = Done s' /\ store_inv s'
    /\ contents s' = {[ 1 := [x62; x62]; u64_max := blob ]}.
Proof. intros Hi Hc. apply contract_holds; done. Qed.

(** C36: A crash in the middle of a write loses that write and nothing else: the
    file of a store plus any number of bytes of one more record opens to the
    store's contents, or to the contents with the record applied when all its
    bytes are there. *)
Theorem log_crash_atomic (s : LogStore F) (f : F) r k :
  store_inv s -> rec_ok r -> fbytes f = fbytes (file s) ++ take k (enc r) ->
  exists f' s', open f = (f', Ok s') /\ store_inv s'
    /\ contents s' = if (k <? length (enc r))%nat then contents s else apply_rec (contents s) r.
Proof.
  intros (rs & Hrs & Ef & Er) Hr Eb. destruct (Log_inv_live s rs Ef Er) as (Hl & _).
  cbn [contents Log_laws]. rewrite Ef in Eb. destruct (Nat.ltb_spec k (length (enc r))) as [L|G].
  - rewrite Hl. apply (open_total f rs _ Eb Hrs). by exists r, k.
  - rewrite take_ge, <- enc_all_snoc in Eb by lia. rewrite Hl, <- live_snoc.
    apply (open_total f (rs ++ [r]) []); [by rewrite app_nil_r| |apply torn_nil].
    apply Forall_app. by split; [|constructor].
Qed.

(** Compaction keeps every entry, leaves no dead bytes, and the file it writes
    holds one record per entry and nothing else. *)
Theorem compact_correct (s : LogStore F) :
  store_inv s ->
  exists s', compact s = (s', Ok tt) /\ store_inv s' /\ contents s' = contents s
    /\ dead s' = 0 /\ lenN (fbytes (file s')) = packed_size (contents s).
Proof.
  intros Hi. destruct (compact_total s Hi) as [s' E1]. exists s'.
  destruct (compact_ok s s' Hi E1) as (Hi' & Hc & Hd & Hb). split_and!; try done.
  rewrite Hb. apply enc_puts_length.
Qed.
End Theorems.

(** ** Concrete inputs *)

(** A fresh store on an empty file, and a tee of it with a fresh cache. *)
Definition fresh_log : LogStore MemFile := mkLog (mkMemFile []) ∅ 0 0.
Definition fresh_tee : TeeStore (LogStore MemFile) MemoryStore := mkTee fresh_log Memory_new.

Lemma fresh_log_inv : store_inv fresh_log.
Proof. exists []. by split_and!. Qed.
Lemma fresh_log_contents : contents fresh_log = ∅.
Proof. reflexivity. Qed.

(** A store with one entry overwritten. *)
Definition used_log : LogStore MemFile :=
  (exec fresh_log [OpPut 1 [x61]; OpPut 1 [x62; x62]; OpPut 2 []]).1.
Lemma used_log_inv : store_inv used_log.
Proof.
  destruct (exec_refines fresh_log [OpPut 1 [x61]; OpPut 1 [x62; x62]; OpPut 2 []])
    as (s' & E & Hi & _); [exact fresh_log_inv|by repeat constructor|].
  unfold used_log. by rewrite E.
Qed.

Lemma tee_log_refines_map_witness :
  exists s', exec fresh_tee [OpPut 7 [x61]; OpGet 7; OpDelete 7; OpLen]
             = (s', Ok [Written; Value (Some [x61]); Written; Count 0]) /\ store_inv s' /\ contents s' = ∅.
Proof.
  apply (tee_log_refines_map fresh_tee [OpPut 7 [x61]; OpGet 7; OpDelete 7; OpLen]).
  - split_and!; [exact fresh_log_inv|done|done].
  - by repeat constructor.
Defined.

Lemma contract_run_log_witness :
  exists s', contract_run fresh_log = Done s' /\ store_inv s'
    /\ contents s' = {[ 1 := [x62; x62]; u64_max := blob ]}.
Proof. apply (contract_run_log fresh_log fresh_log_inv fresh_log_contents). Defined.

Lemma log_crash_atomic_witness :
  exists f' s', open (mkMemFile (data (file used_log) ++ take 9 (enc (RPut 1 [x63])))) = (f', Ok s')
    /\ store_inv s' /\ contents s' = contents used_log.
Proof.
  apply (log_crash_atomic used_log (mkMemFile (data (file used_log) ++ take 9 (enc (RPut 1 [x63]))))
           (RPut 1 [x63]) 9); [exact used_log_inv|by split|reflexivity].
Defined.

Lemma compact_correct_witness :
  exists s', compact used_log = (s', Ok tt) /\ store_inv s' /\ contents s' = contents used_log
    /\ dead s' = 0 /\ lenN (data (file s')) = 28.
Proof. apply (compact_correct used_log used_log_inv). Defined.
End StoreTheorems.
