(* ===== verification/Bitfield.v ===== *)
(** * [storage::bitfield]: the paged presence map

    The model of [src/crates/storage/src/bitfield.rs].  A field is a sparse map
    of pages of 512 words of 64 bits; [get] is its abstraction, a predicate on
    indices, and every other operation is specified by what it does to [get] or
    says of it.  The loops over words and pages carry fuel; the range operations
    of the field return [OutOfFuel] when it runs out, since a range that touches
    the last page of the index space makes [page_base + BITS_PER_PAGE] wrap and
    the loop start over. *)
From S2P Require Import Prelude.

Module Bitfield.

Definition BITS_PER_PAGE : N := 32768.
Definition WORDS_PER_PAGE : nat := 512.

Abbreviation Page := (list N).
(** [page[word]]; every index used is below 512. *)
Definition word_at (p : Page) (word : nat) : N := default 0 (p !! word).

Definition zero_page : Page := replicate WORDS_PER_PAGE 0.

Record Bitfield := mkBitfield { pages : gmap N Page }.

Definition locate (index : N) : N * nat * N :=
  let page := index / BITS_PER_PAGE in
  let bit_in_page := index mod BITS_PER_PAGE in
  (page, N.to_nat (bit_in_page / 64), bit_in_page mod 64).

Definition word_mask (lo hi : N) : N :=
  let n := hi - lo in
  if n =? 0 then 0
  else if n =? 64 then u64_max
  else shl64 (shl64 1 n - 1) lo.

(** ** Operations on one page *)

(** A page has 512 words and every round moves to the next one. *)
Definition page_fuel : nat := 513.

Fixpoint page_set_range_loop (fuel : nat) (page : Page) (b hi : N) (value : bool) : Page :=
  match fuel with
  | O => page
  | S fuel' =>
      if b <? hi then
        let word := b / 64 in
        let word_top := (word + 1) * 64 in
        let top := N.min hi word_top in
        let mask := word_mask (b mod 64) (top - word * 64) in
        let w := word_at page (N.to_nat word) in
        let w := if value then N.lor w mask else N.land w (not64 mask) in
        page_set_range_loop fuel' (<[N.to_nat word := w]> page) top hi value
      else page
  end.
Definition page_set_range (page : Page) (lo hi : N) (value : bool) : Page :=
  page_set_range_loop page_fuel page lo hi value.

Fixpoint page_count_loop (fuel : nat) (page : Page) (b hi c : N) : N :=
  match fuel with
  | O => c
  | S fuel' =>
      if b <? hi then
        let word := b / 64 in
        let word_top := (word + 1) * 64 in
        let top := N.min hi word_top in
        let mask := word_mask (b mod 64) (top - word * 64) in
        page_count_loop fuel' page top hi (c + count_ones (N.land (word_at page (N.to_nat word)) mask))
      else c
  end.
Definition page_count_set (page : Page) (lo hi : N) : N := page_count_loop page_fuel page lo hi 0.

Definition want (value : bool) (w : N) : N := if value then w else not64 w.

Fixpoint page_find_first_loop (fuel : nat) (page : Page) (value : bool) (b : N) : option N :=
  match fuel with
  | O => None
  | S fuel' =>
      if b <? BITS_PER_PAGE then
        let word := b / 64 in
        let bit := b mod 64 in
        let w := want value (word_at page (N.to_nat word)) in
        let masked := N.land w (shl64 u64_max bit) in
        if negb (masked =? 0) then Some (word * 64 + trailing_zeros masked)
        else page_find_first_loop fuel' page value ((word + 1) * 64)
      else None
  end.
Definition page_find_first (page : Page) (value : bool) (lo : N) : option N :=
  page_find_first_loop page_fuel page value lo.

(** [n] is the word looked at plus one; the loop ends below word 0. *)
Fixpoint page_find_last_loop (n : nat) (page : Page) (value : bool) (hi : N) : option N :=
  match n with
  | O => None
  | S word =>
      let w := want value (word_at page word) in
      let masked := if N.of_nat word * 64 + 63 <=? hi then w
                    else N.land w (word_mask 0 (hi mod 64 + 1)) in
      if negb (masked =? 0) then Some (N.of_nat word * 64 + (63 - leading_zeros masked))
      else page_find_last_loop word page value hi
  end.
Definition page_find_last (page : Page) (value : bool) (hi : N) : option N :=
  page_find_last_loop (S (N.to_nat (hi / 64))) page value hi.

(** ** The field *)

Definition new : Bitfield := mkBitfield ∅.

Definition get (b : Bitfield) (index : N) : bool :=
  let '(page, word, bit) := locate index in
  match pages b !! page with
  | Some p => N.land (N.shiftr (word_at p word) bit) 1 =? 1
  | None => false
  end.

Definition set (b : Bitfield) (index : N) (value : bool) : Bitfield :=
  let '(page, word, bit) := locate index in
  if value then
    let p := default zero_page (pages b !! page) in
    mkBitfield (<[page := <[word := N.lor (word_at p word) (shl64 1 bit)]> p]> (pages b))
  else match pages b !! page with
       | Some p =>
           mkBitfield (<[page := <[word := N.land (word_at p word) (not64 (shl64 1 bit))]> p]> (pages b))
       | None => b
       end.

(** One chunk of [set_range]: the part of the range in one page. *)
Definition set_chunk (b : Bitfield) (page lo hi : N) (value : bool) : Bitfield :=
  if value then
    let p := default zero_page (pages b !! page) in
    mkBitfield (<[page := page_set_range p lo hi true]> (pages b))
  else match pages b !! page with
       | Some p => mkBitfield (<[page := page_set_range p lo hi false]> (pages b))
       | None => b
       end.

Fixpoint set_range_loop (fuel : nat) (b : Bitfield) (i stop : N) (value : bool) : run Bitfield :=
  if i <? stop then
    match fuel with
    | O => OutOfFuel
    | S fuel' =>
        let page := i / BITS_PER_PAGE in
        let page_base := page * BITS_PER_PAGE in
        let chunk_end := N.min stop (wrap64 (page_base + BITS_PER_PAGE)) in
        set_range_loop fuel'
          (set_chunk b page (i - page_base) (wsub64 chunk_end page_base) value) chunk_end stop value
    end
  else Done b.

(** Enough rounds for every page the range touches. *)
Definition range_fuel (start stop : N) : nat :=
  S (N.to_nat (stop / BITS_PER_PAGE - start / BITS_PER_PAGE)).

Definition set_range (b : Bitfield) (start stop : N) (value : bool) : run Bitfield :=
  set_range_loop (range_fuel start stop) b start stop value.

Fixpoint count_loop (fuel : nat) (b : Bitfield) (i stop : N) (value : bool) (c : N) : run N :=
  if i <? stop then
    match fuel with
    | O => OutOfFuel
    | S fuel' =>
        let page := i / BITS_PER_PAGE in
        let page_base := page * BITS_PER_PAGE in
        let chunk_end := N.min stop (wrap64 (page_base + BITS_PER_PAGE)) in
        let range := wsub64 chunk_end i in
        let cset := match pages b !! page with
                    | Some p => page_count_set p (i - page_base) (wsub64 chunk_end page_base)
                    | None => 0
                    end in
        count_loop fuel' b chunk_end stop value (c + (if value then cset else wsub64 range cset))
    end
  else Done c.

Definition count (b : Bitfield) (start length : N) (value : bool) : run N :=
  let stop := wrap64 (start + length) in
  count_loop (range_fuel start stop) b start stop value 0.

(** The pages of [range(start_page..)], in order. *)
Fixpoint find_first_set (l : list (N * Page)) (start_page position : N) : option N :=
  match l with
  | [] => None
  | (page, p) :: l' =>
      let lo := if page =? start_page then position mod BITS_PER_PAGE else 0 in
      match page_find_first p true lo with
      | Some off => Some (page * BITS_PER_PAGE + off)
      | None => find_first_set l' start_page position
      end
  end.

(** The search for an unset bit stops at the first absent page. *)
Fixpoint find_first_unset (fuel : nat) (b : Bitfield) (page start_page position : N)
    : run (option N) :=
  match fuel with
  | O => OutOfFuel
  | S fuel' =>
      let lo := if page =? start_page then position mod BITS_PER_PAGE else 0 in
      match pages b !! page with
      | Some p =>
          match page_find_first p false lo with
          | Some off => Done (Some (page * BITS_PER_PAGE + off))
          | None => find_first_unset fuel' b (page + 1) start_page position
          end
      | None => Done (Some (page * BITS_PER_PAGE + lo))
      end
  end.

Definition find_first (b : Bitfield) (value : bool) (position : N) : run (option N) :=
  let start_page := position / BITS_PER_PAGE in
  if value then
    Done (find_first_set (filter (λ e, start_page <= e.1) (bmap_list (pages b))) start_page position)
  else find_first_unset (S (size (pages b))) b start_page start_page position.

Definition top_bit (page start_page position : N) : N :=
  if page =? start_page then position mod BITS_PER_PAGE else BITS_PER_PAGE - 1.

Fixpoint find_last_set (l : list (N * Page)) (start_page position : N) : option N :=
  match l with
  | [] => None
  | (page, p) :: l' =>
      match page_find_last p true (top_bit page start_page position) with
      | Some off => Some (page * BITS_PER_PAGE + off)
      | None => find_last_set l' start_page position
      end
  end.

(** [n] is the page looked at plus one. *)
Fixpoint find_last_unset (fuel : nat) (b : Bitfield) (n start_page position : N)
    : run (option N) :=
  if n =? 0 then Done None
  else match fuel with
  | O => OutOfFuel
  | S fuel' =>
      let page := n - 1 in
      let hi := top_bit page start_page position in
      match pages b !! page with
      | Some p =>
          match page_find_last p false hi with
          | Some off => Done (Some (page * BITS_PER_PAGE + off))
          | None => find_last_unset fuel' b page start_page position
          end
      | None => Done (Some (page * BITS_PER_PAGE + hi))
      end
  end.

Definition find_last (b : Bitfield) (value : bool) (position : N) : run (option N) :=
  let start_page := position / BITS_PER_PAGE in
  if value then
    Done (find_last_set (rev (filter (λ e, e.1 <= start_page) (bmap_list (pages b))))
            start_page position)
  else find_last_unset (S (size (pages b))) b (start_page + 1) start_page position.

Definition first_set (b : Bitfield) (position : N) : run (option N) := find_first b true position.
Definition first_unset (b : Bitfield) (position : N) : run (option N) := find_first b false position.
Definition last_set (b : Bitfield) (position : N) : run (option N) := find_last b true position.
Definition last_unset (b : Bitfield) (position : N) : run (option N) := find_last b false position.

(** ** Persistence *)

Definition page_bytes (p : Page) : bytes := concat (map (to_le 8) p).

Definition live_pages (b : Bitfield) : list (N * Page) :=
  filter (λ e, existsb (λ w, negb (w =? 0)) e.2 = true) (bmap_list (pages b)).

Definition serialize (b : Bitfield) : bytes :=
  le64 (lenN (live_pages b)) ++
  concat (map (λ e : N * Page, le64 e.1 ++ page_bytes e.2) (live_pages b)).

Definition PAGE_BYTES : N := 4096.

Fixpoint read_words (n : nat) (bs : bytes) : Page :=
  match n with
  | O => []
  | S n' => from_le (take 8 bs) :: read_words n' (drop 8 bs)
  end.

Fixpoint deserialize_loop (fuel : nat) (count : N) (bs : bytes) (m : gmap N Page)
    : option (gmap N Page * bytes) :=
  if count =? 0 then Some (m, bs)
  else match fuel with
  | O => None
  | S fuel' =>
      if lenN bs <? 8 + PAGE_BYTES then None
      else
        let idx := from_le (take 8 bs) in
        let page := read_words WORDS_PER_PAGE (drop 8 bs) in
        deserialize_loop fuel' (count - 1) (drop (N.to_nat (8 + PAGE_BYTES)) bs) (<[idx := page]> m)
  end.

Definition deserialize (bs : bytes) : option Bitfield :=
  if lenN bs <? 8 then None
  else
    let count := from_le (take 8 bs) in
    '(m, rest) ← deserialize_loop (length bs) count (drop 8 bs) ∅;
    if negb (lenN rest =? 0) then None else Some (mkBitfield m).

(** ** Words *)

Definition word_ok (w : N) : Prop := w < two64.
Definition page_ok (p : Page) : Prop := length p = WORDS_PER_PAGE /\ Forall word_ok p.
Definition field_ok (b : Bitfield) : Prop := map_Forall (λ _ p, page_ok p) (pages b).

Lemma testbit_wrap64 a i : i < 64 -> N.testbit (wrap64 a) i = N.testbit a i.
Proof. intros Hi. unfold wrap64. change two64 with (2 ^ 64). by apply N.mod_pow2_bits_low. Qed.

Lemma testbit_shl64 a s i :
  s < 64 -> i < 64 -> N.testbit (shl64 a s) i = (s <=? i) && N.testbit a (i - s).
Proof.
  intros Hs Hi. unfold shl64. rewrite N.mod_small, testbit_wrap64 by done.
  destruct (N.leb_spec s i); cbn [andb]; [by apply N.shiftl_spec_high'|by apply N.shiftl_spec_low].
Qed.

Lemma shl64_1_pred n : n < 64 -> shl64 1 n - 1 = N.ones n.
Proof.
  intros Hn. unfold shl64. rewrite N.mod_small, N.shiftl_mul_pow2, N.mul_1_l by done.
  rewrite wrap64_small by (change two64 with (2 ^ 64); by apply N.pow_lt_mono_r).
  rewrite N.ones_equiv. lia.
Qed.

Lemma word_mask_spec lo hi i :
  lo <= hi -> hi <= 64 -> i < 64 -> N.testbit (word_mask lo hi) i = (lo <=? i) && (i <? hi).
Proof.
  intros Hl Hh Hi. unfold word_mask. destruct (N.eqb_spec (hi - lo) 0).
  { rewrite N.bits_0. symmetry. apply andb_false_iff. rewrite N.leb_gt, N.ltb_ge. lia. }
  destruct (N.eqb_spec (hi - lo) 64).
  { rewrite testbit_ones64, (proj2 (N.ltb_lt i 64)) by done.
    symmetry. apply andb_true_iff. rewrite N.leb_le, N.ltb_lt. lia. }
  rewrite shl64_1_pred, testbit_shl64 by lia. destruct (N.leb_spec lo i); [|done]. cbn [andb].
  destruct (N.ltb_spec i hi); [apply N.ones_spec_low; lia|apply N.ones_spec_high; lia].
Qed.

Lemma word_mask_ok lo hi : word_ok (word_mask lo hi).
Proof.
  unfold word_mask, word_ok. destruct (_ =? 0); [done|]. destruct (_ =? 64); [done|].
  unfold shl64. apply wrap64_lt.
Qed.

Lemma lt_two64_bits w : (forall i, 64 <= i -> N.testbit w i = false) -> w < two64.
Proof.
  intros Hb. assert (E : w = w mod 2 ^ 64).
  { apply N.bits_inj. intros i. destruct (N.lt_ge_cases i 64).
    - by rewrite N.mod_pow2_bits_low.
    - rewrite N.mod_pow2_bits_high by done. by apply Hb. }
  rewrite E. change two64 with (2 ^ 64). by apply N.mod_lt.
Qed.

Lemma lor_ok a b : word_ok a -> word_ok b -> word_ok (N.lor a b).
Proof.
  intros Ha Hb. apply lt_two64_bits. intros i Hi.
  by rewrite N.lor_spec, !(testbit_high _ 64) by done.
Qed.

Lemma land_ok a b : word_ok a -> word_ok (N.land a b).
Proof.
  intros Ha. apply lt_two64_bits. intros i Hi. by rewrite N.land_spec, (testbit_high a 64) by done.
Qed.

Lemma not64_ok a : word_ok a -> word_ok (not64 a).
Proof.
  intros Ha. apply lt_two64_bits. intros i Hi. unfold not64.
  rewrite N.lxor_spec, testbit_ones64, (testbit_high a 64) by done.
  by rewrite (proj2 (N.ltb_ge _ _)).
Qed.

(** ** Pages as sequences of bits *)

Definition pbit (p : Page) (b : N) : bool := N.testbit (word_at p (N.to_nat (b / 64))) (b mod 64).

Lemma pbit_word p w i : i < 64 -> pbit p (w * 64 + i) = N.testbit (word_at p (N.to_nat w)) i.
Proof.
  intros Hi. unfold pbit. rewrite N.add_comm, N.div_add, N.Div0.mod_add by done.
  by rewrite N.div_small, N.mod_small by done.
Qed.

Lemma page_word_ok (p : Page) (w : nat) : page_ok p -> word_ok (word_at p w).
Proof.
  intros [_ Hp]. unfold word_at. destruct (p !! w) eqn:E; [|done]. by eapply Forall_lookup in Hp.
Qed.

Lemma page_insert_ok (p : Page) (w : nat) v : page_ok p -> word_ok v -> page_ok (<[w := v]> p).
Proof. intros [Hl Hp] Hv. split; [by rewrite length_insert|by apply Forall_insert]. Qed.

Lemma zero_page_ok : page_ok zero_page.
Proof. split; [apply length_replicate|]. by apply Forall_replicate. Qed.

Lemma pbit_zero b : pbit zero_page b = false.
Proof.
  unfold pbit, zero_page, word_at.
  destruct (replicate WORDS_PER_PAGE 0 !! N.to_nat (b / 64)) as [w|] eqn:E; [|apply N.bits_0].
  apply lookup_replicate in E as [-> _]. apply N.bits_0.
Qed.

(** Overwriting a word. *)
Lemma pbit_insert p w v b :
  length p = WORDS_PER_PAGE -> w < 512 ->
  pbit (<[N.to_nat w := v]> p) b = if b / 64 =? w then N.testbit v (b mod 64) else pbit p b.
Proof.
  intros Hl Hw. unfold pbit, word_at. destruct (N.eqb_spec (b / 64) w) as [->|Hne].
  - rewrite list_lookup_insert_eq; [done|]. unfold WORDS_PER_PAGE in Hl. lia.
  - rewrite list_lookup_insert_ne; [done|]. lia.
Qed.

(** One round of the range loops: the bits [b..top) of the word of [b]. *)
Lemma chunk_bits b hi x :
  b < hi -> x / 64 = b / 64 ->
  N.testbit (word_mask (b mod 64) (N.min hi ((b / 64 + 1) * 64) - b / 64 * 64)) (x mod 64) =
  (b <=? x) && (x <? N.min hi ((b / 64 + 1) * 64)).
Proof.
  intros Hb Hx. pose proof (N.div_mod' b 64) as Eb. pose proof (N.div_mod' x 64) as Ex.
  pose proof (N.mod_lt b 64 ltac:(done)). pose proof (N.mod_lt x 64 ltac:(done)).
  rewrite word_mask_spec by lia. rewrite Hx in Ex.
  set (q := b / 64) in *. set (mb := b mod 64) in *. set (mx := x mod 64) in *. clearbody q mb mx.
  f_equal; apply eq_true_iff_eq; rewrite ?N.leb_le, ?N.ltb_lt; lia.
Qed.

Lemma page_set_range_loop_spec f p b hi v :
  page_ok p -> hi <= BITS_PER_PAGE -> (b < hi -> hi <= (b / 64 + N.of_nat f) * 64) ->
  page_ok (page_set_range_loop f p b hi v) /\
  forall x, pbit (page_set_range_loop f p b hi v) x = if (b <=? x) && (x <? hi) then v else pbit p x.
Proof.
  revert p b; induction f as [|f IH]; intros p b Hp Hhi Hf; cbn [page_set_range_loop].
  - assert (Hge : hi <= b) by (destruct (N.le_gt_cases hi b); [done|dlia]).
    split; [done|]. intros x. destruct (N.leb_spec b x), (N.ltb_spec x hi); cbn; (done || lia).
  - destruct (N.ltb_spec b hi) as [Hlt|Hge].
    2: { split; [done|]. intros x. destruct (N.leb_spec b x), (N.ltb_spec x hi); cbn; (done || lia). }
    set (top := N.min hi ((b / 64 + 1) * 64)). set (mask := word_mask _ _).
    set (w := if v then _ else _). unfold BITS_PER_PAGE in *.
    assert (Hw : b / 64 < 512) by dlia.
    assert (Htop : b < top <= hi) by (unfold top; dlia).
    assert (Hmask : forall x, x / 64 = b / 64 -> N.testbit mask (x mod 64) = (b <=? x) && (x <? top)).
    { intros x Hx. by apply chunk_bits. }
    assert (Hwok : word_ok w).
    { unfold w. destruct v; [apply lor_ok; [by apply page_word_ok|apply word_mask_ok]|].
      apply land_ok. by apply page_word_ok. }
    destruct (IH (<[N.to_nat (b / 64) := w]> p) top) as [Hok Hbits]; [by apply page_insert_ok|done| |].
    { intros Ht. specialize (Hf Hlt). unfold top in *. dlia. }
    split; [done|]. intros x. rewrite Hbits, pbit_insert by (done || apply Hp).
    destruct (N.eqb_spec (x / 64) (b / 64)) as [Ex|Ex].
    + assert (Hb : N.testbit w (x mod 64) = if (b <=? x) && (x <? top) then v else pbit p x).
      { unfold w, pbit. rewrite Ex. destruct v.
        - rewrite N.lor_spec, Hmask by done. destruct ((b <=? x) && (x <? top)); [apply orb_true_r|apply orb_false_r].
        - rewrite N.land_spec, testbit_not64, Hmask by (done || by apply N.mod_lt).
          destruct ((b <=? x) && (x <? top)); [apply andb_false_r|apply andb_true_r]. }
      rewrite Hb. destruct (N.leb_spec top x), (N.ltb_spec x hi), (N.leb_spec b x), (N.ltb_spec x top);
        cbn; (done || lia).
    + assert (x < b \/ top <= x) as Ho by (unfold top; dlia).
      destruct (N.leb_spec top x), (N.ltb_spec x hi), (N.leb_spec b x); cbn; (done || lia).
Qed.

Lemma page_set_range_spec p lo hi v :
  page_ok p -> hi <= BITS_PER_PAGE ->
  page_ok (page_set_range p lo hi v) /\
  forall x, pbit (page_set_range p lo hi v) x = if (lo <=? x) && (x <? hi) then v else pbit p x.
Proof.
  intros Hp Hhi. apply page_set_range_loop_spec; [done|done|].
  intros _. change (N.of_nat page_fuel) with 513. unfold BITS_PER_PAGE in Hhi. pose proof (N.le_0_l (lo / 64)). lia.
Qed.

Lemma chunk_count p b hi :
  page_ok p -> b < hi ->
  count_ones (N.land (word_at p (N.to_nat (b / 64)))
    (word_mask (b mod 64) (N.min hi ((b / 64 + 1) * 64) - b / 64 * 64))) =
  countN (pbit p) b (N.min hi ((b / 64 + 1) * 64)).
Proof.
  intros Hp Hlt. pose proof (N.div_mod' b 64) as Eb. pose proof (N.mod_lt b 64 ltac:(done)) as Hm.
  set (q := b / 64) in *. set (mb := b mod 64) in *. clearbody q mb. set (top := N.min hi _).
  rewrite (count_ones_spec 64) by (apply land_ok; by apply page_word_ok).
  assert (Ht : mb <= top - q * 64 <= 64) by (unfold top; lia).
  rewrite (countN_app _ 0 mb 64), (countN_app _ mb (top - q * 64) 64) by lia.
  rewrite (countN_0 _ 0), (countN_0 _ (top - q * 64) 64).
  - rewrite N.add_0_l, N.add_0_r. transitivity (countN (pbit p) (mb + q * 64) (top - q * 64 + q * 64));
      [|f_equal; unfold top; lia].
    rewrite <- countN_shift. apply countN_ext.
    intros i Hi. rewrite N.land_spec, word_mask_spec by lia. rewrite N.add_comm, pbit_word by lia.
    rewrite (proj2 (N.leb_le _ _)), (proj2 (N.ltb_lt _ _)) by lia. apply andb_true_r.
  - intros i Hi. rewrite N.land_spec, word_mask_spec by lia.
    rewrite (proj2 (N.ltb_ge i _)) by lia. by rewrite !andb_false_r.
  - intros i Hi. rewrite N.land_spec, word_mask_spec by lia.
    rewrite (proj2 (N.leb_gt _ i)) by lia. by rewrite andb_false_r.
Qed.

Lemma page_count_loop_spec f p b hi c :
  page_ok p -> (b < hi -> hi <= (b / 64 + N.of_nat f) * 64) ->
  page_count_loop f p b hi c = c + countN (pbit p) b hi.
Proof.
  intros Hp. revert b c; induction f as [|f IH]; intros b c Hf; cbn [page_count_loop].
  - assert (Hge : hi <= b) by (destruct (N.le_gt_cases hi b); [done|dlia]).
    rewrite countN_0; [lia|lia].
  - destruct (N.ltb_spec b hi) as [Hlt|Hge]; [|rewrite countN_0; lia].
    rewrite chunk_count by done. set (top := N.min hi _).
    assert (Htop : b < top <= hi) by (unfold top; dlia).
    rewrite IH by (intros Ht; specialize (Hf Hlt); unfold top in *; dlia).
    rewrite (countN_app _ b top hi) by lia. lia.
Qed.

Lemma page_count_set_spec p lo hi :
  page_ok p -> hi <= BITS_PER_PAGE -> page_count_set p lo hi = countN (pbit p) lo hi.
Proof.
  intros Hp Hhi. unfold page_count_set. rewrite page_count_loop_spec; [lia|done|].
  intros _. change (N.of_nat page_fuel) with 513. unfold BITS_PER_PAGE in Hhi. pose proof (N.le_0_l (lo / 64)). lia.
Qed.
(** *** Searching a page *)

Lemma testbit_want v w i : i < 64 -> N.testbit (want v w) i = Bool.eqb (N.testbit w i) v.
Proof.
  intros Hi. destruct v; cbn [want].
  - by destruct (N.testbit w i).
  - rewrite testbit_not64 by done. by destruct (N.testbit w i).
Qed.

Lemma want_ok v w : word_ok w -> word_ok (want v w).
Proof. destruct v; [done|apply not64_ok]. Qed.

Lemma word_nonzero_low masked :
  word_ok masked -> masked <> 0 ->
  trailing_zeros masked < 64 /\ N.testbit masked (trailing_zeros masked) = true /\
  forall i, i < trailing_zeros masked -> N.testbit masked i = false.
Proof.
  intros Hok Hz. split; [by apply (ctz_lt _ 64)|]. by apply ctz_spec.
Qed.

Lemma word_nonzero_high masked :
  word_ok masked -> masked <> 0 ->
  63 - leading_zeros masked < 64 /\ N.testbit masked (63 - leading_zeros masked) = true /\
  forall i, 63 - leading_zeros masked < i -> N.testbit masked i = false.
Proof.
  intros Hok Hz. rewrite clz_spec by done. split_and!.
  - apply N.log2_lt_pow2; [lia|done].
  - by apply N.bit_log2.
  - intros i Hi. by apply N.bits_above_log2.
Qed.

Lemma word_zero masked i : masked = 0 -> N.testbit masked i = false.
Proof. intros ->. apply N.bits_0. Qed.

Definition first_at (P : N -> bool) (v : bool) (lo hi : N) (r : option N) : Prop :=
  match r with
  | Some x => lo <= x < hi /\ P x = v /\ forall y, lo <= y < x -> P y = negb v
  | None => forall y, lo <= y < hi -> P y = negb v
  end.

Lemma eqb_false_negb a v : Bool.eqb a v = false -> a = negb v.
Proof. by destruct a, v. Qed.

Lemma page_find_first_loop_spec f p v b :
  page_ok p -> (b < BITS_PER_PAGE -> BITS_PER_PAGE <= (b / 64 + N.of_nat f) * 64) ->
  first_at (pbit p) v b BITS_PER_PAGE (page_find_first_loop f p v b).
Proof.
  intros Hp. revert b; induction f as [|f IH]; intros b Hf; cbn [page_find_first_loop].
  { intros y Hy. exfalso. assert (Hb : b < BITS_PER_PAGE) by lia. specialize (Hf Hb).
    rewrite N.add_0_r in Hf. unfold BITS_PER_PAGE in *. dlia. }
  destruct (N.ltb_spec b BITS_PER_PAGE) as [Hb|]; [|intros y Hy; lia].
  set (masked := N.land _ _). pose proof (N.div_mod' b 64) as Eb.
  pose proof (N.mod_lt b 64 ltac:(done)) as Hm.
  assert (Hok : word_ok masked) by (apply land_ok, want_ok; by apply page_word_ok).
  assert (Hbits : forall i, i < 64 ->
    N.testbit masked i = Bool.eqb (pbit p (b / 64 * 64 + i)) v && (b mod 64 <=? i)).
  { intros i Hi. unfold masked. rewrite N.land_spec, testbit_want, testbit_shl64, pbit_word by done.
    f_equal. rewrite testbit_ones64, (proj2 (N.ltb_lt (i - b mod 64) 64))
      by (eapply N.le_lt_trans; [apply N.le_sub_l|exact Hi]).
    apply andb_true_r. }
  set (q := b / 64) in *. set (mb := b mod 64) in *. clearbody mb.
  assert (Hskip : forall y k, k <= 64 -> b <= y < q * 64 + k ->
    (forall i, i < k -> N.testbit masked i = false) -> pbit p y = negb v).
  { intros y k Hk Hy Hlow. specialize (Hlow (y - q * 64) ltac:(lia)). rewrite Hbits in Hlow by lia.
    rewrite (proj2 (N.leb_le _ _)), andb_true_r in Hlow by lia.
    replace (q * 64 + (y - q * 64)) with y in Hlow by lia. by apply eqb_false_negb. }
  destruct (N.eqb_spec masked 0) as [Hz|Hz]; cbn [negb].
  - assert (Hend : (q + 1) * 64 <= BITS_PER_PAGE) by (unfold BITS_PER_PAGE in *; clearbody q; lia).
    specialize (IH ((q + 1) * 64)).
    assert (Eq : (q + 1) * 64 / 64 = q + 1) by (by apply N.div_mul).
    rewrite Eq in IH. specialize (IH ltac:(intros; specialize (Hf Hb); lia)).
    assert (Hlow : forall y, b <= y < (q + 1) * 64 -> pbit p y = negb v).
    { intros y Hy. apply (Hskip y 64); [lia|lia|]. intros i _. by apply word_zero. }
    destruct (page_find_first_loop f p v ((q + 1) * 64)) as [x|]; cbn in *.
    + destruct IH as (Hx & Hv & Hlt). split_and!; [lia..|done|]. intros y Hy.
      destruct (N.lt_ge_cases y ((q + 1) * 64)); [apply Hlow; lia|apply Hlt; lia].
    + intros y Hy. destruct (N.lt_ge_cases y ((q + 1) * 64)); [apply Hlow; lia|apply IH; lia].
  - destruct (word_nonzero_low masked Hok Hz) as (H64 & Hset & Hlow).
    set (t := trailing_zeros masked) in *. rewrite Hbits in Hset by done.
    apply andb_true_iff in Hset as [Hset Hge]. apply N.leb_le in Hge. apply Bool.eqb_prop in Hset.
    assert (q * 64 + t < BITS_PER_PAGE) by (unfold BITS_PER_PAGE in *; clearbody q; lia).
    split_and!; [lia|lia|done|]. intros y Hy. apply (Hskip y t); [lia|lia|done].
Qed.

Lemma page_find_first_spec p v lo :
  page_ok p -> first_at (pbit p) v lo BITS_PER_PAGE (page_find_first p v lo).
Proof.
  intros Hp. apply page_find_first_loop_spec; [done|]. intros _.
  change (N.of_nat page_fuel) with 513. unfold BITS_PER_PAGE. pose proof (N.le_0_l (lo / 64)). lia.
Qed.

Definition last_at (P : N -> bool) (v : bool) (hi : N) (r : option N) : Prop :=
  match r with
  | Some x => x <= hi /\ P x = v /\ forall y, x < y <= hi -> P y = negb v
  | None => forall y, y <= hi -> P y = negb v
  end.

Lemma page_find_last_loop_spec n p v hi :
  page_ok p -> N.of_nat n <= hi / 64 + 1 ->
  match page_find_last_loop n p v hi with
  | Some x => x <= hi /\ pbit p x = v /\
              forall y, x < y <= hi -> y < N.of_nat n * 64 -> pbit p y = negb v
  | None => forall y, y <= hi -> y < N.of_nat n * 64 -> pbit p y = negb v
  end.
Proof.
  intros Hp. induction n as [|q IH]; intros Hn; cbn [page_find_last_loop]; [lia|].
  set (masked := if _ <=? _ then _ else _).
  pose proof (N.div_mod' hi 64) as Eb. pose proof (N.mod_lt hi 64 ltac:(done)) as Hm.
  pose proof (N.le_0_l (hi mod 64)) as Hm0.
  assert (Hw : word_ok (want v (word_at p q))) by (apply want_ok; by apply page_word_ok).
  assert (Hok : word_ok masked) by (unfold masked; destruct (_ <=? _); [done|by apply land_ok]).
  assert (Hbits : forall i, i < 64 ->
    N.testbit masked i = Bool.eqb (pbit p (N.of_nat q * 64 + i)) v && (N.of_nat q * 64 + i <=? hi)).
  { intros i Hi. rewrite pbit_word, Nat2N.id by done. unfold masked.
    destruct (N.leb_spec (N.of_nat q * 64 + 63) hi).
    - rewrite testbit_want, (proj2 (N.leb_le _ hi)) by lia. by rewrite andb_true_r.
    - rewrite N.land_spec, testbit_want, word_mask_spec by lia. f_equal.
      rewrite (proj2 (N.leb_le 0 i)) by lia. cbn [andb].
      apply eq_true_iff_eq. rewrite N.leb_le, N.ltb_lt.
      set (qh := hi / 64) in *. set (mh := hi mod 64) in *. clearbody qh mh. lia. }
  assert (Hskip : forall y k, N.of_nat q * 64 + k <= y <= hi -> y < N.of_nat (S q) * 64 ->
    (forall i, k <= i -> N.testbit masked i = false) -> pbit p y = negb v).
  { intros y k Hy Hlt Hhigh. specialize (Hhigh (y - N.of_nat q * 64) ltac:(lia)).
    rewrite Hbits in Hhigh by lia. replace (N.of_nat q * 64 + (y - N.of_nat q * 64)) with y in Hhigh by lia.
    rewrite (proj2 (N.leb_le _ _)), andb_true_r in Hhigh by lia. by apply eqb_false_negb. }
  destruct (N.eqb_spec masked 0) as [Hz|Hz]; cbn [negb].
  - specialize (IH ltac:(lia)).
    assert (Hhigh : forall y, y <= hi -> y < N.of_nat (S q) * 64 -> N.of_nat q * 64 <= y -> pbit p y = negb v).
    { intros y Hy Hlt Hge. apply (Hskip y 0); [lia|lia|]. intros i _. by apply word_zero. }
    destruct (page_find_last_loop q p v hi) as [x|].
    + destruct IH as (Hx & Hv & Hlt). split_and!; [done..|]. intros y Hy Hyl.
      destruct (N.lt_ge_cases y (N.of_nat q * 64)); [by apply Hlt|apply Hhigh; lia].
    + intros y Hy Hyl. destruct (N.lt_ge_cases y (N.of_nat q * 64)); [by apply IH|apply Hhigh; lia].
  - destruct (word_nonzero_high masked Hok Hz) as (H64 & Hset & Hhigh).
    set (t := 63 - leading_zeros masked) in *. rewrite Hbits in Hset by done.
    apply andb_true_iff in Hset as [Hset Hge]. apply N.leb_le in Hge. apply Bool.eqb_prop in Hset.
    split_and!; [lia|done|]. intros y Hy Hyl. apply (Hskip y (t + 1)); [lia|lia|].
    intros i Hi. apply Hhigh. lia.
Qed.

Lemma page_find_last_spec p v hi : page_ok p -> last_at (pbit p) v hi (page_find_last p v hi).
Proof.
  intros Hp. unfold page_find_last, last_at.
  pose proof (page_find_last_loop_spec (S (N.to_nat (hi / 64))) p v hi Hp ltac:(lia)) as Hs.
  assert (Hb : forall y, y <= hi -> y < N.of_nat (S (N.to_nat (hi / 64))) * 64) by (intros; dlia).
  destruct (page_find_last_loop _ p v hi) as [x|].
  - destruct Hs as (? & ? & Hs). split_and!; [done..|]. intros y Hy. apply Hs; [done|]. apply Hb. lia.
  - intros y Hy. apply Hs; [done|]. by apply Hb.
Qed.

(** ** The field as a predicate on indices *)

Lemma get_page b x :
  get b x = match pages b !! (x / BITS_PER_PAGE) with
            | Some p => pbit p (x mod BITS_PER_PAGE)
            | None => false
            end.
Proof.
  unfold get, locate, pbit. destruct (pages b !! (x / BITS_PER_PAGE)) as [p|]; [|done].
  set (w := word_at p _). set (i := x mod BITS_PER_PAGE mod 64).
  change 1 with (N.ones 1) at 1. rewrite N.land_ones. change (2 ^ 1) with 2.
  rewrite <- N.bit0_mod, N.shiftr_spec', N.add_0_l. by destruct (N.testbit w i).
Qed.

Lemma page_split x : x = x / BITS_PER_PAGE * BITS_PER_PAGE + x mod BITS_PER_PAGE /\ x mod BITS_PER_PAGE < BITS_PER_PAGE.
Proof. split; [rewrite N.mul_comm; apply N.div_mod'|by apply N.mod_lt]. Qed.

Lemma page_index pg o : o < BITS_PER_PAGE -> (pg * BITS_PER_PAGE + o) / BITS_PER_PAGE = pg /\ (pg * BITS_PER_PAGE + o) mod BITS_PER_PAGE = o.
Proof.
  intros Ho. rewrite N.add_comm, N.div_add, N.Div0.mod_add by done.
  by rewrite N.div_small, N.mod_small.
Qed.

Lemma set_field_ok b i v : field_ok b -> field_ok (set b i v).
Proof.
  intros Hb. unfold set. destruct (locate i) as [[pg w] bit].
  assert (Hp : forall p, pages b !! pg = Some p -> page_ok p) by (intros; by eapply Hb).
  destruct v.
  - apply map_Forall_insert_2; [|done]. cbn.
    assert (page_ok (default zero_page (pages b !! pg))) as Hd
      by (destruct (pages b !! pg) eqn:E; [by apply Hp|apply zero_page_ok]).
    apply page_insert_ok; [done|]. apply lor_ok; [by apply page_word_ok|apply wrap64_lt].
  - destruct (pages b !! pg) as [p|] eqn:E; [|done]. apply map_Forall_insert_2; [|done].
    apply page_insert_ok; [by apply Hp|]. apply land_ok, page_word_ok. by apply Hp.
Qed.

Lemma testbit_one_hot i j : i < 64 -> j < 64 -> N.testbit (shl64 1 i) j = (i =? j).
Proof.
  intros Hi Hj. rewrite testbit_shl64 by done. destruct (N.eqb_spec i j) as [->|Hne].
  - by rewrite N.leb_refl, N.sub_diag.
  - destruct (N.leb_spec i j); [|done]. cbn [andb].
    apply (testbit_high 1 1); [done|lia].
Qed.

Lemma get_set b i v j : field_ok b -> get (set b i v) j = if i =? j then v else get b j.
Proof.
  intros Hb. rewrite !get_page. unfold set, locate.
  set (pg := i / BITS_PER_PAGE). set (m := i mod BITS_PER_PAGE).
  assert (Hm : m < BITS_PER_PAGE) by (by apply N.mod_lt).
  assert (Hw : m / 64 < 512) by (unfold BITS_PER_PAGE in Hm; dlia).
  assert (Hsame : (i =? j) = (pg =? j / BITS_PER_PAGE) && (m =? j mod BITS_PER_PAGE)).
  { apply eq_true_iff_eq. rewrite andb_true_iff, !N.eqb_eq. unfold pg, m. split; [by intros ->|].
    intros [E1 E2]. rewrite (proj1 (page_split i)), (proj1 (page_split j)). congruence. }
  set (jm := j mod BITS_PER_PAGE) in *.
  assert (Hbit : forall p (w' : N),
    length p = WORDS_PER_PAGE -> (forall x, x < 64 -> N.testbit w' x = if m mod 64 =? x then v else N.testbit (word_at p (N.to_nat (m / 64))) x) ->
    pbit (<[N.to_nat (m / 64) := w']> p) jm = if m =? jm then v else pbit p jm).
  { intros p w' Hl Hw'. rewrite pbit_insert by done.
    assert (Hd : (m =? jm) = (jm / 64 =? m / 64) && (m mod 64 =? jm mod 64)).
    { apply eq_true_iff_eq. rewrite andb_true_iff, !N.eqb_eq. split; [by intros ->|]. intros [E1 E2].
      rewrite (N.div_mod' m 64), (N.div_mod' jm 64). congruence. }
    rewrite Hd. destruct (N.eqb_spec (jm / 64) (m / 64)) as [E|E]; [|done]. cbn [andb].
    rewrite Hw' by (by apply N.mod_lt). unfold pbit. by rewrite E. }
  assert (H64 : m mod 64 < 64) by (by apply N.mod_lt).
  rewrite Hsame. destruct v; cbn [negb].
  - cbn [pages]. destruct (N.eqb_spec pg (j / BITS_PER_PAGE)) as [<-|Hne]; cbn [andb].
    + rewrite lookup_insert_eq. set (p := default zero_page _).
      assert (Hp : page_ok p).
      { unfold p. destruct (pages b !! pg) eqn:E; [by eapply Hb|apply zero_page_ok]. }
      rewrite Hbit; [|apply Hp|].
      * destruct (m =? jm); [done|]. unfold p. destruct (pages b !! pg); [done|]. apply pbit_zero.
      * intros x Hx. rewrite N.lor_spec, testbit_one_hot by done.
        destruct (m mod 64 =? x); [apply orb_true_r|apply orb_false_r].
    + by rewrite lookup_insert_ne.
  - destruct (pages b !! pg) as [p|] eqn:E; cbn [pages].
    + destruct (N.eqb_spec pg (j / BITS_PER_PAGE)) as [<-|Hne]; cbn [andb].
      * rewrite lookup_insert_eq, E. apply Hbit; [by eapply Hb|].
        intros x Hx. rewrite N.land_spec, testbit_not64, testbit_one_hot by done.
        destruct (m mod 64 =? x); [apply andb_false_r|apply andb_true_r].
      * by rewrite lookup_insert_ne.
    + destruct (N.eqb_spec pg (j / BITS_PER_PAGE)) as [<-|Hne]; [|done].
      rewrite E. by destruct (m =? jm).
Qed.
(** *** Ranges *)

Lemma set_chunk_spec b pg lo hi v :
  field_ok b -> hi <= BITS_PER_PAGE ->
  field_ok (set_chunk b pg lo hi v) /\
  forall x, get (set_chunk b pg lo hi v) x =
    if (x / BITS_PER_PAGE =? pg) && ((lo <=? x mod BITS_PER_PAGE) && (x mod BITS_PER_PAGE <? hi))
    then v else get b x.
Proof.
  intros Hb Hhi. unfold set_chunk. destruct v.
  - set (p := default zero_page (pages b !! pg)).
    assert (Hp : page_ok p) by (unfold p; destruct (pages b !! pg) eqn:E; [by eapply Hb|apply zero_page_ok]).
    destruct (page_set_range_spec p lo hi true Hp Hhi) as [Hok Hbits].
    split; [by apply map_Forall_insert_2|]. intros x. rewrite !get_page. cbn [pages].
    destruct (N.eqb_spec (x / BITS_PER_PAGE) pg) as [->|Hne]; cbn [andb].
    + rewrite lookup_insert_eq, Hbits. destruct ((lo <=? _) && _); [done|].
      unfold p. destruct (pages b !! pg); [done|]. apply pbit_zero.
    + by rewrite lookup_insert_ne by done.
  - destruct (pages b !! pg) as [p|] eqn:E.
    + destruct (page_set_range_spec p lo hi false) as [Hok Hbits]; [by eapply Hb|done|].
      split; [by apply map_Forall_insert_2|]. intros x. rewrite !get_page. cbn [pages].
      destruct (N.eqb_spec (x / BITS_PER_PAGE) pg) as [->|Hne]; cbn [andb].
      * by rewrite lookup_insert_eq, Hbits, E.
      * by rewrite lookup_insert_ne by done.
    + split; [done|]. intros x. rewrite get_page.
      destruct (N.eqb_spec (x / BITS_PER_PAGE) pg) as [->|Hne]; cbn [andb]; [|done].
      rewrite E. by destruct ((lo <=? _) && _).
Qed.

(** The part of a range that lies in the page of its first index. *)
Lemma chunk_facts i stop :
  i < stop -> stop + BITS_PER_PAGE <= two64 ->
  let base := i / BITS_PER_PAGE * BITS_PER_PAGE in
  let ce := N.min stop (wrap64 (base + BITS_PER_PAGE)) in
  base <= i < ce /\ ce <= stop /\ wsub64 ce base = ce - base /\ ce - base <= BITS_PER_PAGE /\
  wsub64 ce i = ce - i /\
  (ce < stop -> ce / BITS_PER_PAGE = i / BITS_PER_PAGE + 1) /\
  (forall x, base <= x < base + BITS_PER_PAGE <-> x / BITS_PER_PAGE = i / BITS_PER_PAGE).
Proof.
  intros Hi Hs base ce. unfold BITS_PER_PAGE in *.
  assert (Hb : base <= i < base + 32768) by (unfold base; dlia).
  assert (Hd : forall x, base <= x < base + 32768 <-> x / 32768 = i / 32768) by (intros x; unfold base; dlia).
  assert (Ece : ce = N.min stop (base + 32768)) by (unfold ce; rewrite wrap64_small; [done|unfold two64 in *; lia]).
  clearbody ce. split_and!; [lia|lia|lia| | | | |done].
  - apply wsub64_small; unfold two64 in *; lia.
  - lia.
  - apply wsub64_small; unfold two64 in *; lia.
  - intros Hlt. assert (ce = (i / 32768 + 1) * 32768) as -> by (unfold base in *; lia). by apply N.div_mul.
Qed.

Lemma chunk_member i stop x :
  i < stop -> stop + BITS_PER_PAGE <= two64 ->
  let base := i / BITS_PER_PAGE * BITS_PER_PAGE in
  let ce := N.min stop (wrap64 (base + BITS_PER_PAGE)) in
  (x / BITS_PER_PAGE =? i / BITS_PER_PAGE) &&
    ((i - base <=? x mod BITS_PER_PAGE) && (x mod BITS_PER_PAGE <? ce - base)) =
  (i <=? x) && (x <? ce).
Proof.
  intros Hi Hs base ce. destruct (chunk_facts i stop Hi Hs) as (Hb & Hce & _ & Hsz & _ & _ & Hd).
  fold base ce in Hb, Hce, Hsz, Hd. destruct (page_split x) as [Ex Hx].
  apply eq_true_iff_eq. rewrite !andb_true_iff, N.eqb_eq, !N.leb_le, !N.ltb_lt. split.
  - intros (E & H1 & H2). rewrite E in Ex. fold base in Ex. lia.
  - intros [H1 H2]. assert (E : x / BITS_PER_PAGE = i / BITS_PER_PAGE) by (apply Hd; lia).
    rewrite E in Ex. fold base in Ex. lia.
Qed.

Lemma set_range_loop_spec f b i stop v :
  field_ok b -> stop + BITS_PER_PAGE <= two64 ->
  stop / BITS_PER_PAGE - i / BITS_PER_PAGE < N.of_nat f ->
  exists b', set_range_loop f b i stop v = Done b' /\ field_ok b' /\
    forall x, get b' x = if (i <=? x) && (x <? stop) then v else get b x.
Proof.
  intros Hb Hs. revert b i Hb; induction f as [|f IH]; intros b i Hb Hf; [lia|]. cbn [set_range_loop].
  destruct (N.ltb_spec i stop) as [Hi|Hge].
  2: { exists b. split_and!; [done..|]. intros x.
       destruct (N.leb_spec i x), (N.ltb_spec x stop); cbn; (done || lia). }
  destruct (chunk_facts i stop Hi Hs) as (Hbase & Hce & -> & Hsz & _ & Hnext & _).
  set (base := i / BITS_PER_PAGE * BITS_PER_PAGE) in *. set (ce := N.min stop _) in *.
  destruct (set_chunk_spec b (i / BITS_PER_PAGE) (i - base) (ce - base) v Hb Hsz) as [Hok Hg].
  assert (Hg2 : forall x, get (set_chunk b (i / BITS_PER_PAGE) (i - base) (ce - base) v) x =
    if (i <=? x) && (x <? ce) then v else get b x).
  { intros x. rewrite Hg. unfold base, ce. by rewrite chunk_member. }
  destruct (N.lt_ge_cases ce stop) as [Hlt|Hge].
  - assert (Hle : ce / BITS_PER_PAGE <= stop / BITS_PER_PAGE) by (apply N.Div0.div_le_mono; lia).
    destruct (IH (set_chunk b (i / BITS_PER_PAGE) (i - base) (ce - base) v) ce) as (b' & -> & Hok' & Hg');
      [done|rewrite Hnext in *; lia|].
    exists b'. split_and!; [done..|]. intros x. rewrite Hg', Hg2.
    destruct (N.leb_spec i x), (N.ltb_spec x stop), (N.leb_spec ce x), (N.ltb_spec x ce); cbn; (done || lia).
  - assert (Ece : ce = stop) by lia. rewrite Ece in Hg2 |- *. eexists. split_and!; [|exact Hok|].
    + destruct f; cbn [set_range_loop]; rewrite N.ltb_irrefl; rewrite Ece; done.
    + rewrite Ece. done.
Qed.

Lemma set_range_spec b start stop v :
  field_ok b -> stop + BITS_PER_PAGE <= two64 ->
  exists b', set_range b start stop v = Done b' /\ field_ok b' /\
    forall x, get b' x = if (start <=? x) && (x <? stop) then v else get b x.
Proof. intros Hb Hs. apply set_range_loop_spec; [done|done|]. unfold range_fuel. lia. Qed.

Lemma count_loop_spec f b i stop v c :
  field_ok b -> stop + BITS_PER_PAGE <= two64 ->
  stop / BITS_PER_PAGE - i / BITS_PER_PAGE < N.of_nat f ->
  count_loop f b i stop v c = Done (c + countN (λ x, Bool.eqb (get b x) v) i stop).
Proof.
  intros Hb Hs. revert i c; induction f as [|f IH]; intros i c Hf; [lia|]. cbn [count_loop].
  destruct (N.ltb_spec i stop) as [Hi|Hge].
  2: { rewrite countN_0 by lia. f_equal. lia. }
  destruct (chunk_facts i stop Hi Hs) as (Hbase & Hce & -> & Hsz & -> & Hnext & Hd).
  set (base := i / BITS_PER_PAGE * BITS_PER_PAGE) in *. set (ce := N.min stop _) in *.
  set (cs := match pages b !! (i / BITS_PER_PAGE) with Some _ => _ | None => _ end).
  assert (Hcs : cs = countN (get b) i ce).
  { unfold cs. destruct (pages b !! (i / BITS_PER_PAGE)) as [p|] eqn:E.
    - rewrite page_count_set_spec by (done || by eapply Hb).
      transitivity (countN (get b) (i - base + base) (ce - base + base)); [|f_equal; lia].
      rewrite <- countN_shift. apply countN_ext. intros x Hx.
      assert (Ex : (x + base) / BITS_PER_PAGE = i / BITS_PER_PAGE) by (apply Hd; lia).
      rewrite get_page, Ex, E. f_equal. unfold base. rewrite N.Div0.mod_add. symmetry.
      apply N.mod_small. lia.
    - symmetry. apply countN_0. intros x Hx.
      assert (Ex : x / BITS_PER_PAGE = i / BITS_PER_PAGE) by (apply Hd; lia).
      by rewrite get_page, Ex, E. }
  pose proof (countN_le (get b) i ce) as Hle.
  assert (Hchunk : (if v then cs else wsub64 (ce - i) cs) = countN (λ x, Bool.eqb (get b x) v) i ce).
  { destruct v.
    - rewrite Hcs. apply countN_ext. intros x _. by destruct (get b x).
    - rewrite wsub64_small by (unfold two64 in *; lia). rewrite Hcs, <- countN_negb by lia.
      apply countN_ext. intros x _. by destruct (get b x). }
  rewrite Hchunk. destruct (N.lt_ge_cases ce stop) as [Hlt|Hge].
  - assert (ce / BITS_PER_PAGE <= stop / BITS_PER_PAGE) by (apply N.Div0.div_le_mono; lia).
    rewrite IH by (rewrite Hnext in *; lia). f_equal. rewrite (countN_app _ i ce stop) by lia. lia.
  - assert (Ece : ce = stop) by lia. rewrite Ece. destruct f; cbn [count_loop]; rewrite N.ltb_irrefl; done.
Qed.

Lemma count_spec b start length v :
  field_ok b -> start + length + BITS_PER_PAGE <= two64 ->
  count b start length v = Done (countN (λ x, Bool.eqb (get b x) v) start (start + length)).
Proof.
  intros Hb Hs. unfold count. rewrite wrap64_small by (unfold BITS_PER_PAGE in Hs; lia).
  rewrite count_loop_spec; [f_equal; lia|done|lia|unfold range_fuel; lia].
Qed.

(** The last page: the end of the page wraps to zero and the loop starts over,
    whatever number of rounds it is given. *)
Lemma set_range_last_page f i :
  i < u64_max -> set_range_loop f new i u64_max false = OutOfFuel.
Proof.
  revert i; induction f as [|f IH]; intros i Hi; cbn [set_range_loop].
  - by rewrite (proj2 (N.ltb_lt _ _)).
  - rewrite (proj2 (N.ltb_lt _ _)) by done. apply IH. unfold BITS_PER_PAGE, u64_max, wrap64, two64 in *.
    assert (Hq : i / 32768 < 562949953421312) by dlia. generalize dependent (i / 32768). intros q Hq.
    destruct (N.eq_dec q 562949953421311) as [->|Hne]; [by vm_compute|].
    rewrite N.mod_small by lia. lia.
Qed.
(** *** Searching the field *)

Definition find_first_ok (b : Bitfield) (v : bool) (position : N) (r : option N) : Prop :=
  match r with
  | Some x => position <= x /\ get b x = v /\ forall y, position <= y < x -> get b y = negb v
  | None => forall y, position <= y -> get b y = negb v
  end.

Definition find_last_ok (b : Bitfield) (v : bool) (position : N) (r : option N) : Prop :=
  match r with
  | Some x => x <= position /\ get b x = v /\ forall y, x < y <= position -> get b y = negb v
  | None => forall y, y <= position -> get b y = negb v
  end.

Definition lo_of (page position : N) : N :=
  if page =? position / BITS_PER_PAGE then position mod BITS_PER_PAGE else 0.
Definition hi_of (page position : N) : N := top_bit page (position / BITS_PER_PAGE) position.

(** An index in a page at or past the start is past the start within it. *)
Lemma lo_of_spec position y :
  position <= y <-> position / BITS_PER_PAGE <= y / BITS_PER_PAGE /\
                    lo_of (y / BITS_PER_PAGE) position <= y mod BITS_PER_PAGE.
Proof.
  unfold lo_of. destruct (page_split y) as [Ey Hy], (page_split position) as [Ep Hp].
  pose proof (N.le_0_l (y mod BITS_PER_PAGE)). pose proof (N.le_0_l (position mod BITS_PER_PAGE)).
  unfold BITS_PER_PAGE in *.
  destruct (N.eqb_spec (y / 32768) (position / 32768)) as [E|E].
  - rewrite E in *. lia.
  - split; [|lia]. intros Hle. split; [|lia]. by apply N.Div0.div_le_mono.
Qed.

Lemma hi_of_spec position y :
  y <= position <-> y / BITS_PER_PAGE <= position / BITS_PER_PAGE /\
                    y mod BITS_PER_PAGE <= hi_of (y / BITS_PER_PAGE) position.
Proof.
  unfold hi_of, top_bit. destruct (page_split y) as [Ey Hy], (page_split position) as [Ep Hp].
  pose proof (N.le_0_l (y mod BITS_PER_PAGE)). pose proof (N.le_0_l (position mod BITS_PER_PAGE)).
  unfold BITS_PER_PAGE in *.
  destruct (N.eqb_spec (y / 32768) (position / 32768)) as [E|E].
  - rewrite E in *. lia.
  - split; [|lia]. intros Hle. split; [|lia]. by apply N.Div0.div_le_mono.
Qed.

Lemma hi_of_lt page position : hi_of page position < BITS_PER_PAGE.
Proof. unfold hi_of, top_bit. destruct (_ =? _); [by apply N.mod_lt|done]. Qed.

Lemma get_at b pg p o : pages b !! pg = Some p -> o < BITS_PER_PAGE -> get b (pg * BITS_PER_PAGE + o) = pbit p o.
Proof. intros Hp Ho. rewrite get_page. destruct (page_index pg o Ho) as [-> ->]. by rewrite Hp. Qed.

Lemma get_in b y p : pages b !! (y / BITS_PER_PAGE) = Some p -> get b y = pbit p (y mod BITS_PER_PAGE).
Proof. intros Hp. by rewrite get_page, Hp. Qed.

Lemma page_order x y : x < y -> x / BITS_PER_PAGE <= y / BITS_PER_PAGE.
Proof. intros. apply N.Div0.div_le_mono. lia. Qed.

Lemma same_page_order x y :
  x / BITS_PER_PAGE = y / BITS_PER_PAGE -> x < y <-> x mod BITS_PER_PAGE < y mod BITS_PER_PAGE.
Proof.
  intros E. destruct (page_split x) as [Ex _], (page_split y) as [Ey _]. rewrite E in Ex.
  generalize dependent (y / BITS_PER_PAGE * BITS_PER_PAGE). intros. lia.
Qed.

(** One page of an upward search. *)
Lemma first_in_page b pg p position v off :
  field_ok b -> pages b !! pg = Some p -> position / BITS_PER_PAGE <= pg ->
  page_find_first p v (lo_of pg position) = Some off ->
  let x := pg * BITS_PER_PAGE + off in
  position <= x /\ x / BITS_PER_PAGE = pg /\ get b x = v /\
  forall y, position <= y < x -> y / BITS_PER_PAGE = pg -> get b y = negb v.
Proof.
  intros Hb Hp Hpg Hf x. pose proof (page_find_first_spec p v (lo_of pg position) ltac:(by eapply Hb)) as Hs.
  rewrite Hf in Hs. destruct Hs as ((Hlo & Hhi) & Hv & Hlt).
  destruct (page_index pg off Hhi) as [E1 E2]. fold x in E1, E2.
  split_and!; [apply lo_of_spec; rewrite E1, E2; done|done|unfold x; by rewrite (get_at b pg p)|].
  intros y [Hy1 Hy2] Ey. rewrite (get_in b y p) by (by rewrite Ey). apply Hlt. rewrite <- E2. split.
  - apply lo_of_spec in Hy1 as [_ Hy1]. by rewrite Ey in Hy1.
  - apply (same_page_order y x); [congruence|done].
Qed.

Lemma first_none_in_page b pg p position v y :
  field_ok b -> pages b !! pg = Some p -> page_find_first p v (lo_of pg position) = None ->
  position <= y -> y / BITS_PER_PAGE = pg -> get b y = negb v.
Proof.
  intros Hb Hp Hf Hy Ey. pose proof (page_find_first_spec p v (lo_of pg position) ltac:(by eapply Hb)) as Hs.
  rewrite Hf in Hs. rewrite (get_in b y p) by (by rewrite Ey). apply Hs.
  apply lo_of_spec in Hy as [_ Hy]. rewrite Ey in Hy. split; [done|]. by apply N.mod_lt.
Qed.

Lemma find_first_set_spec b l position :
  field_ok b -> StronglySorted N.le l.*1 ->
  Forall (λ e, position / BITS_PER_PAGE <= e.1 /\ pages b !! e.1 = Some e.2) l ->
  match find_first_set l (position / BITS_PER_PAGE) position with
  | Some x => position <= x /\ get b x = true /\
      forall y, position <= y < x -> y / BITS_PER_PAGE ∈ l.*1 -> get b y = false
  | None => forall y, position <= y -> y / BITS_PER_PAGE ∈ l.*1 -> get b y = false
  end /\
  match find_first_set l (position / BITS_PER_PAGE) position with
  | Some x => x / BITS_PER_PAGE ∈ l.*1
  | None => True
  end.
Proof.
  intros Hb. induction l as [|[pg p] l IH]; intros Hs Hl; cbn [find_first_set].
  { split; [|done]. intros y _ Hy. by apply elem_of_nil in Hy. }
  cbn in Hs. apply StronglySorted_inv in Hs as [Hs Hmin]. apply Forall_cons in Hl as [[Hpg Hp] Hl]. cbn in Hp, Hpg.
  change (if pg =? position / BITS_PER_PAGE then position mod BITS_PER_PAGE else 0) with (lo_of pg position).
  destruct (page_find_first p true (lo_of pg position)) as [off|] eqn:Ef.
  - destruct (first_in_page b pg p position true off Hb Hp Hpg Ef) as (H1 & H2 & H3 & H4).
    split; [|rewrite H2; by left]. split_and!; [done..|]. intros y Hy Hin. apply H4; [done|].
    cbn in Hin. apply elem_of_cons in Hin as [?|Hin]; [done|].
    eapply Forall_forall in Hmin; [|done]. assert (y / BITS_PER_PAGE <= pg) by (rewrite <- H2; apply page_order; lia).
    lia.
  - pose proof (λ y, first_none_in_page b pg p position true y Hb Hp Ef) as Hn.
    destruct (IH Hs Hl) as [IH1 IH2].
    destruct (find_first_set l _ position) as [x|].
    + split; [|by right]. destruct IH1 as (? & ? & IH1). split_and!; [done..|]. intros y Hy Hin.
      cbn in Hin. apply elem_of_cons in Hin as [E|Hin]; [apply Hn; [lia|done]|by apply IH1].
    + split; [|done]. intros y Hy Hin. cbn in Hin. apply elem_of_cons in Hin as [E|Hin]; [by apply Hn|by apply IH1].
Qed.

Lemma sorted_filter_keys (P : N -> Prop) `{!forall k, Decision (P k)} (l : list (N * Page)) :
  StronglySorted N.le l.*1 -> StronglySorted N.le (filter (λ e, P e.1) l).*1.
Proof.
  induction l as [|[k p] l IH]; [done|]. cbn [fmap list_fmap]. intros [Hs Hm]%StronglySorted_inv.
  rewrite filter_cons. cbn [fst]. case_decide; [|by apply IH]. cbn. constructor; [by apply IH|].
  apply Forall_forall. intros k' ([k2 p2] & -> & Hin)%list_elem_of_fmap. apply list_elem_of_filter in Hin as [_ Hin].
  eapply Forall_forall in Hm; [done|]. apply list_elem_of_fmap. by exists (k2, p2).
Qed.

Lemma bmap_list_sorted (m : gmap N Page) : StronglySorted N.le (bmap_list m).*1.
Proof. rewrite bmap_list_keys. exact (bset_list_sorted (K := N) _). Qed.

Lemma absent_page b y : pages b !! (y / BITS_PER_PAGE) = None -> get b y = false.
Proof. intros E. by rewrite get_page, E. Qed.

(** *** Upward search for an unset bit *)

Lemma present_bound b lo hi :
  lo <= hi -> (forall k, lo <= k < hi -> is_Some (pages b !! k)) -> hi - lo <= N.of_nat (size (pages b)).
Proof.
  intros Hle Hk. rewrite <- size_dom.
  assert (Hsub : rangeN lo hi ⊆+ elements (dom (pages b))).
  { apply NoDup_submseteq.
    - unfold rangeN. apply NoDup_fmap_2; [intros ? ? ?; lia|apply NoDup_seq].
    - intros k Hin%elem_of_rangeN. by apply elem_of_elements, elem_of_dom, Hk. }
  apply submseteq_length in Hsub. rewrite rangeN_length in Hsub.
  change (size (dom (pages b))) with (length (elements (dom (pages b)))). lia.
Qed.

Lemma find_first_unset_spec f b pg position :
  field_ok b -> position / BITS_PER_PAGE <= pg ->
  (forall k, position / BITS_PER_PAGE <= k < pg -> is_Some (pages b !! k)) ->
  (forall y, position <= y -> y / BITS_PER_PAGE < pg -> get b y = true) ->
  N.of_nat (size (pages b)) < N.of_nat f + (pg - position / BITS_PER_PAGE) ->
  exists x, find_first_unset f b pg (position / BITS_PER_PAGE) position = Done (Some x) /\
    find_first_ok b false position (Some x).
Proof.
  intros Hb. revert pg; induction f as [|f IH]; intros pg Hpg Hpres Hlow Hf.
  { pose proof (present_bound b _ _ Hpg Hpres). lia. }
  cbn [find_first_unset].
  change (if pg =? position / BITS_PER_PAGE then position mod BITS_PER_PAGE else 0) with (lo_of pg position).
  assert (Hmid : forall x y, x / BITS_PER_PAGE = pg -> position <= y < x -> y / BITS_PER_PAGE < pg \/ y / BITS_PER_PAGE = pg).
  { intros x y Ex Hy. assert (y / BITS_PER_PAGE <= pg) by (rewrite <- Ex; apply page_order; lia). lia. }
  destruct (pages b !! pg) as [p|] eqn:Ep.
  - destruct (page_find_first p false (lo_of pg position)) as [off|] eqn:Ef.
    + destruct (first_in_page b pg p position false off Hb Ep Hpg Ef) as (H1 & H2 & H3 & H4).
      eexists. split; [done|]. split_and!; [done..|]. intros y Hy.
      destruct (Hmid _ y H2 Hy) as [?|?]; [apply Hlow; [lia|done]|by apply H4].
    + apply IH; [lia| | |lia].
      * intros k Hk. destruct (N.eq_dec k pg) as [->|?]; [by eexists|apply Hpres; lia].
      * intros y Hy Hlt. destruct (N.eq_dec (y / BITS_PER_PAGE) pg) as [E|?]; [|apply Hlow; [done|lia]].
        apply (first_none_in_page b pg p position false y Hb Ep Ef); done.
  - assert (Hlo : lo_of pg position < BITS_PER_PAGE) by (unfold lo_of; destruct (_ =? _); [by apply N.mod_lt|done]).
    destruct (page_index pg (lo_of pg position) Hlo) as [E1 E2]. eexists. split; [done|]. split_and!.
    + apply lo_of_spec. rewrite E1, E2. done.
    + apply absent_page. by rewrite E1.
    + intros y Hy. destruct (Hmid _ y E1 Hy) as [?|Ey]; [apply Hlow; [lia|done]|]. exfalso.
      assert (y mod BITS_PER_PAGE < lo_of pg position).
      { pose proof (proj1 (same_page_order y _ (eq_trans Ey (eq_sym E1))) (proj2 Hy)) as Hc. by rewrite E2 in Hc. }
      destruct Hy as [Hy _]. apply lo_of_spec in Hy as [_ Hy]. rewrite Ey in Hy. lia.
Qed.

Lemma find_first_spec b v position :
  field_ok b -> exists r, find_first b v position = Done r /\ find_first_ok b v position r.
Proof.
  intros Hb. unfold find_first. destruct v.
  - eexists. split; [done|]. set (l := filter _ _).
    assert (Hl : Forall (λ e, position / BITS_PER_PAGE <= e.1 /\ pages b !! e.1 = Some e.2) l).
    { apply Forall_forall. intros [k p] [Hk Hin]%list_elem_of_filter. by apply bmap_list_elem in Hin. }
    assert (Hin : forall y, position <= y -> y / BITS_PER_PAGE ∉ l.*1 -> get b y = false).
    { intros y Hy Hni. apply absent_page. destruct (pages b !! (y / BITS_PER_PAGE)) as [p|] eqn:E; [|done].
      destruct Hni. apply list_elem_of_fmap. exists (y / BITS_PER_PAGE, p). split; [done|].
      apply list_elem_of_filter. split; [apply lo_of_spec in Hy as [Hy _]; exact Hy|by apply bmap_list_elem]. }
    destruct (find_first_set_spec b l position Hb) as [Hs _];
      [apply (sorted_filter_keys (λ k, position / BITS_PER_PAGE <= k)), bmap_list_sorted|done|].
    destruct (find_first_set l _ position) as [x|].
    + destruct Hs as (? & ? & Hs). split_and!; [done..|]. intros y Hy.
      destruct (decide (y / BITS_PER_PAGE ∈ l.*1)); [by apply Hs|apply Hin; [lia|done]].
    + intros y Hy. destruct (decide (y / BITS_PER_PAGE ∈ l.*1)); [by apply Hs|by apply Hin].
  - destruct (find_first_unset_spec (S (size (pages b))) b (position / BITS_PER_PAGE) position Hb) as (x & E & Hx);
      [lia|intros; lia| |lia|by exists (Some x)].
    intros y Hy Hlt. apply lo_of_spec in Hy as [Hy _]. lia.
Qed.

(** *** Downward searches *)

Lemma last_in_page b pg p position v off :
  field_ok b -> pages b !! pg = Some p -> pg <= position / BITS_PER_PAGE ->
  page_find_last p v (hi_of pg position) = Some off ->
  let x := pg * BITS_PER_PAGE + off in
  x <= position /\ x / BITS_PER_PAGE = pg /\ get b x = v /\
  forall y, x < y <= position -> y / BITS_PER_PAGE = pg -> get b y = negb v.
Proof.
  intros Hb Hp Hpg Hf x. pose proof (page_find_last_spec p v (hi_of pg position) ltac:(by eapply Hb)) as Hs.
  rewrite Hf in Hs. destruct Hs as (Hle & Hv & Hgt). pose proof (hi_of_lt pg position) as Hlt.
  destruct (page_index pg off ltac:(lia)) as [E1 E2]. fold x in E1, E2.
  split_and!; [apply hi_of_spec; rewrite E1, E2; done|done|unfold x; rewrite (get_at b pg p); [done|done|lia]|].
  intros y [Hy1 Hy2] Ey. rewrite (get_in b y p) by (by rewrite Ey). apply Hgt. rewrite <- E2. split.
  - apply (same_page_order x y); [congruence|done].
  - apply hi_of_spec in Hy2 as [_ Hy2]. by rewrite Ey in Hy2.
Qed.

Lemma last_none_in_page b pg p position v y :
  field_ok b -> pages b !! pg = Some p -> page_find_last p v (hi_of pg position) = None ->
  y <= position -> y / BITS_PER_PAGE = pg -> get b y = negb v.
Proof.
  intros Hb Hp Hf Hy Ey. pose proof (page_find_last_spec p v (hi_of pg position) ltac:(by eapply Hb)) as Hs.
  rewrite Hf in Hs. rewrite (get_in b y p) by (by rewrite Ey). apply Hs.
  apply hi_of_spec in Hy as [_ Hy]. by rewrite Ey in Hy.
Qed.

Lemma find_last_set_spec b l position :
  field_ok b -> StronglySorted (flip N.le) l.*1 ->
  Forall (λ e, e.1 <= position / BITS_PER_PAGE /\ pages b !! e.1 = Some e.2) l ->
  match find_last_set l (position / BITS_PER_PAGE) position with
  | Some x => x <= position /\ get b x = true /\
      forall y, x < y <= position -> y / BITS_PER_PAGE ∈ l.*1 -> get b y = false
  | None => forall y, y <= position -> y / BITS_PER_PAGE ∈ l.*1 -> get b y = false
  end.
Proof.
  intros Hb. induction l as [|[pg p] l IH]; intros Hs Hl; cbn [find_last_set].
  { intros y _ Hy. by apply elem_of_nil in Hy. }
  cbn in Hs. apply StronglySorted_inv in Hs as [Hs Hmax]. apply Forall_cons in Hl as [[Hpg Hp] Hl]. cbn in Hp, Hpg.
  change (top_bit pg (position / BITS_PER_PAGE) position) with (hi_of pg position).
  destruct (page_find_last p true (hi_of pg position)) as [off|] eqn:Ef.
  - destruct (last_in_page b pg p position true off Hb Hp Hpg Ef) as (H1 & H2 & H3 & H4).
    split_and!; [done..|]. intros y Hy Hin. apply H4; [done|].
    cbn in Hin. apply elem_of_cons in Hin as [?|Hin]; [done|].
    eapply Forall_forall in Hmax; [|done]. cbn in Hmax.
    assert (pg <= y / BITS_PER_PAGE) by (rewrite <- H2; apply page_order; lia). lia.
  - pose proof (λ y, last_none_in_page b pg p position true y Hb Hp Ef) as Hn.
    specialize (IH Hs Hl). destruct (find_last_set l _ position) as [x|].
    + destruct IH as (? & ? & IH1). split_and!; [done..|]. intros y Hy Hin.
      cbn in Hin. apply elem_of_cons in Hin as [E|Hin]; [apply Hn; [lia|done]|by apply IH1].
    + intros y Hy Hin. cbn in Hin. apply elem_of_cons in Hin as [E|Hin]; [by apply Hn|by apply IH].
Qed.

Lemma sorted_snoc (R : relation N) l x :
  StronglySorted R l -> Forall (λ y, R y x) l -> StronglySorted R (l ++ [x]).
Proof.
  induction 1 as [|y l Hs IH Hy]; intros Hx; cbn; [by repeat constructor|].
  apply Forall_cons in Hx as [Hyx Hx]. constructor; [by apply IH|]. apply Forall_app. by repeat constructor.
Qed.

Lemma sorted_rev (l : list N) : StronglySorted N.le l -> StronglySorted (flip N.le) (rev l).
Proof.
  induction 1 as [|x l Hs IH Hx]; [constructor|]. cbn. apply sorted_snoc; [done|].
  apply Forall_rev. done.
Qed.

Lemma find_last_unset_spec f b n position :
  field_ok b -> n <= position / BITS_PER_PAGE + 1 ->
  (forall k, n <= k < position / BITS_PER_PAGE + 1 -> is_Some (pages b !! k)) ->
  (forall y, y <= position -> n <= y / BITS_PER_PAGE -> get b y = true) ->
  N.of_nat (size (pages b)) < N.of_nat f + (position / BITS_PER_PAGE + 1 - n) ->
  exists r, find_last_unset f b n (position / BITS_PER_PAGE) position = Done r /\
    find_last_ok b false position r.
Proof.
  intros Hb. revert n; induction f as [|f IH]; intros n Hn Hpres Hhigh Hf; cbn [find_last_unset].
  { pose proof (present_bound b _ _ Hn Hpres). lia. }
  destruct (N.eqb_spec n 0) as [->|Hz].
  { exists None. split; [done|]. intros y Hy. apply Hhigh; [done|apply N.le_0_l]. }
  set (pg := n - 1). assert (Hpg : pg <= position / BITS_PER_PAGE) by (unfold pg; lia).
  change (top_bit pg (position / BITS_PER_PAGE) position) with (hi_of pg position).
  assert (Hmid : forall x y, x / BITS_PER_PAGE = pg -> x < y <= position -> n <= y / BITS_PER_PAGE \/ y / BITS_PER_PAGE = pg).
  { intros x y Ex Hy. assert (pg <= y / BITS_PER_PAGE) by (rewrite <- Ex; apply page_order; lia). unfold pg in *. lia. }
  destruct (pages b !! pg) as [p|] eqn:Ep.
  - destruct (page_find_last p false (hi_of pg position)) as [off|] eqn:Ef.
    + destruct (last_in_page b pg p position false off Hb Ep Hpg Ef) as (H1 & H2 & H3 & H4).
      eexists. split; [done|]. split_and!; [done..|]. intros y Hy.
      destruct (Hmid _ y H2 Hy) as [?|?]; [apply Hhigh; [lia|done]|by apply H4].
    + apply IH; [unfold pg; lia| | |unfold pg; lia].
      * intros k Hk. destruct (N.eq_dec k pg) as [->|?]; [by eexists|apply Hpres; unfold pg in *; lia].
      * intros y Hy Hge. destruct (N.eq_dec (y / BITS_PER_PAGE) pg) as [E|?];
          [|apply Hhigh; [done|unfold pg in *; lia]].
        apply (last_none_in_page b pg p position false y Hb Ep Ef); done.
  - pose proof (hi_of_lt pg position) as Hlt.
    destruct (page_index pg (hi_of pg position) Hlt) as [E1 E2]. eexists. split; [done|]. split_and!.
    + apply hi_of_spec. rewrite E1, E2. done.
    + apply absent_page. by rewrite E1.
    + intros y Hy. destruct (Hmid _ y E1 Hy) as [?|Ey]; [apply Hhigh; [lia|done]|]. exfalso.
      assert (hi_of pg position < y mod BITS_PER_PAGE).
      { pose proof (proj1 (same_page_order _ y (eq_trans E1 (eq_sym Ey))) (proj1 Hy)) as Hc. by rewrite E2 in Hc. }
      destruct Hy as [_ Hy]. apply hi_of_spec in Hy as [_ Hy]. rewrite Ey in Hy. lia.
Qed.

Lemma find_last_spec b v position :
  field_ok b -> exists r, find_last b v position = Done r /\ find_last_ok b v position r.
Proof.
  intros Hb. unfold find_last. destruct v.
  - eexists. split; [done|]. set (l := filter _ _).
    assert (Hl : Forall (λ e, e.1 <= position / BITS_PER_PAGE /\ pages b !! e.1 = Some e.2) (rev l)).
    { apply Forall_rev, Forall_forall. intros [k p] [Hk Hin]%list_elem_of_filter. by apply bmap_list_elem in Hin. }
    assert (Hin : forall y, y <= position -> y / BITS_PER_PAGE ∉ (rev l).*1 -> get b y = false).
    { intros y Hy Hni. apply absent_page. destruct (pages b !! (y / BITS_PER_PAGE)) as [p|] eqn:E; [|done].
      destruct Hni. apply list_elem_of_fmap. exists (y / BITS_PER_PAGE, p). split; [done|].
      apply list_elem_of_In, in_rev. rewrite rev_involutive. apply list_elem_of_In, list_elem_of_filter.
      split; [apply hi_of_spec in Hy as [Hy _]; exact Hy|by apply bmap_list_elem]. }
    pose proof (find_last_set_spec b (rev l) position Hb) as Hs.
    assert (Hsort : StronglySorted (flip N.le) (rev l).*1).
    { change ((rev l).*1) with (map fst (rev l)). rewrite map_rev. apply sorted_rev.
      change (map fst l) with (l.*1). 
      refine (sorted_filter_keys (λ k, k <= position / BITS_PER_PAGE) (bmap_list (pages b)) _).
      apply bmap_list_sorted. }
    specialize (Hs Hsort Hl). destruct (find_last_set (rev l) _ position) as [x|].
    + destruct Hs as (? & ? & Hs). split_and!; [done..|]. intros y Hy.
      destruct (decide (y / BITS_PER_PAGE ∈ (rev l).*1)); [by apply Hs|apply Hin; [lia|done]].
    + intros y Hy. destruct (decide (y / BITS_PER_PAGE ∈ (rev l).*1)); [by apply Hs|by apply Hin].
  - apply find_last_unset_spec; [done|lia|intros; lia| |lia].
    intros y Hy Hge. apply hi_of_spec in Hy as [Hy _]. lia.
Qed.

(** *** Persistence *)

Lemma read_words_page p rest :
  Forall word_ok p -> read_words (length p) (page_bytes p ++ rest) = p.
Proof.
  induction 1 as [|w p Hw Hp IH]; [done|]. cbn [length read_words page_bytes map concat].
  rewrite <- app_assoc. fold (page_bytes p). rewrite take_app_length', drop_app_length' by (by rewrite to_le_length).
  by rewrite from_le64, IH.
Qed.

Lemma page_bytes_length p : length (page_bytes p) = (8 * length p)%nat.
Proof.
  induction p as [|w p IH]; [done|]. unfold page_bytes in *. cbn [map concat length].
  rewrite length_app, to_le_length, IH. lia.
Qed.

Definition entry_ok (e : N * Page) : Prop := u64_ok e.1 /\ page_ok e.2.
Definition entry_bytes (e : N * Page) : bytes := le64 e.1 ++ page_bytes e.2.

Lemma read_pages_spec f l rest m :
  Forall entry_ok l -> (length l <= f)%nat ->
  deserialize_loop f (lenN l) (concat (map entry_bytes l) ++ rest) m =
  Some (foldl (λ m '(i, n), <[i := n]> m) m l, rest).
Proof.
  revert f m; induction l as [|[i pg] l IH]; intros f m Hl Hf.
  - by destruct f.
  - apply Forall_cons in Hl as [[Hi [Hlen Hw]] Hl]. cbn [fst snd] in *. destruct f as [|f]; cbn in Hf; [lia|].
    cbn [deserialize_loop]. rewrite lenN_cons. destruct (N.eqb_spec (lenN l + 1) 0); [lia|]. rewrite N.add_sub.
    cbn [map concat]. assert (Ee : entry_bytes (i, pg) = le64 i ++ page_bytes pg) by done.
    rewrite Ee, <- !app_assoc.
    pose proof (page_bytes_length pg) as Hpl. rewrite Hlen in Hpl. unfold WORDS_PER_PAGE in Hpl.
    rewrite (proj2 (N.ltb_ge _ _)).
    2: { unfold lenN, PAGE_BYTES. rewrite !length_app, to_le_length, Hpl. lia. }
    rewrite (take_app_length' (le64 i)), (drop_app_length' (le64 i) _ 8) by (by rewrite to_le_length).
    rewrite from_le64 by done.
    replace WORDS_PER_PAGE with (length pg) by done. rewrite read_words_page by done.
    assert (Ed : drop (N.to_nat (8 + PAGE_BYTES)) (le64 i ++ page_bytes pg ++ concat (map entry_bytes l) ++ rest)
                 = concat (map entry_bytes l) ++ rest).
    { rewrite app_assoc. apply drop_app_length'. rewrite length_app, to_le_length, Hpl. done. }
    rewrite Ed. apply IH; [done|lia].
Qed.

Lemma concat_entries_length l :
  Forall entry_ok l -> (length l <= length (concat (map entry_bytes l)))%nat.
Proof.
  induction 1 as [|e l He _ IH]; [done|]. cbn [map concat length]. unfold entry_bytes at 1.
  rewrite !length_app, to_le_length. lia.
Qed.

Lemma dead_page_get p y : existsb (λ w, negb (w =? 0)) p = false -> pbit p y = false.
Proof.
  intros Hd. unfold pbit, word_at. destruct (p !! N.to_nat (y / 64)) as [w|] eqn:E; [|apply N.bits_0].
  assert (w = 0) as ->; [|apply N.bits_0]. apply list_elem_of_lookup_2, list_elem_of_In in E.
  destruct (N.eqb_spec w 0); [done|]. exfalso. apply not_true_iff_false in Hd. apply Hd, existsb_exists.
  exists w. split; [done|]. by apply negb_true_iff, N.eqb_neq.
Qed.

Definition keys_ok (b : Bitfield) : Prop :=
  map_Forall (λ i _, u64_ok i) (pages b) /\ u64_ok (N.of_nat (size (pages b))).

Lemma live_pages_nodup b : NoDup (live_pages b).*1.
Proof.
  unfold live_pages. pose proof (bmap_list_nodup (pages b)) as Hnd. revert Hnd.
  generalize (bmap_list (pages b)). intros l. induction l as [|e l IH]; [done|].
  cbn [fmap list_fmap]. intros [Hi Hnd]%NoDup_cons. rewrite filter_cons. case_decide; [|by apply IH].
  cbn. constructor; [|by apply IH]. intros (e' & Ee & Hin)%list_elem_of_fmap. apply Hi.
  rewrite Ee. apply list_elem_of_fmap_2. by apply list_elem_of_filter in Hin as [_ ?].
Qed.

Lemma field_roundtrip b :
  field_ok b -> keys_ok b ->
  exists b', deserialize (serialize b) = Some b' /\ field_ok b' /\ pages b' ⊆ pages b
    /\ forall x, get b' x = get b x.
Proof.
  intros Hb [Hk Hsz]. set (l := live_pages b).
  assert (Hl : Forall entry_ok l).
  { apply Forall_forall. intros [i p] Hin. apply list_elem_of_filter in Hin as [_ Hin%bmap_list_elem].
    split; [by eapply Hk|by eapply Hb]. }
  assert (Hlen : u64_ok (lenN l)).
  { unfold u64_ok, lenN, l, live_pages in *. pose proof (length_filter (λ e : N * Page, existsb (λ w, negb (w =? 0)) e.2 = true) (bmap_list (pages b))).
    rewrite bmap_list_length in *. lia. }
  pose proof (concat_entries_length l Hl).
  exists (mkBitfield (list_to_map l)). unfold deserialize, serialize. fold l.
  change (concat (map (λ e : N * Page, le64 e.1 ++ page_bytes e.2) l)) with (concat (map entry_bytes l)).
  rewrite (proj2 (N.ltb_ge _ _)) by (unfold lenN; rewrite length_app, to_le_length; lia).
  rewrite take_app_length', drop_app_length' by (by rewrite to_le_length). rewrite from_le64 by done.
  rewrite <- (app_nil_r (concat (map entry_bytes l))) at 2.
  rewrite read_pages_spec; [|done|rewrite length_app; lia]. rsimpl.
  rewrite foldl_insert_union by apply live_pages_nodup. rewrite (right_id_L ∅ (∪)).
  split_and!; [done| | |].
  - intros i p Hi. cbn in Hi. apply elem_of_list_to_map_2 in Hi. eapply Forall_forall in Hl; [|done]. apply Hl.
  - apply map_subseteq_spec. intros i p Hi. cbn in Hi. apply elem_of_list_to_map_2 in Hi.
    by apply list_elem_of_filter in Hi as [_ Hi%bmap_list_elem].
  - intros x. rewrite !get_page. cbn [pages]. set (pg := x / BITS_PER_PAGE).
    destruct (list_to_map l !! pg) as [p|] eqn:E.
    + apply elem_of_list_to_map_2 in E. apply list_elem_of_filter in E as [_ E%bmap_list_elem]. by rewrite E.
    + destruct (pages b !! pg) as [p|] eqn:Ep; [|done]. symmetry. apply dead_page_get.
      destruct (existsb _ p) eqn:Ex; [|done]. exfalso.
      apply not_elem_of_list_to_map_2 in E. apply E. apply list_elem_of_fmap. exists (pg, p). split; [done|].
      apply list_elem_of_filter. split; [done|]. by apply bmap_list_elem.
Qed.
End Bitfield.
