(* ===== verification/BitfieldTheorems.v ===== *)
(** * [storage]: the paged bitfield against a set of bits

    The properties of [src/crates/storage/src/bitfield.rs]: whatever sequence of
    writes made a bitfield, it answers every query as the function from indices
    to bits that the writes describe. *)
From S2P Require Import Prelude Bitfield.

Module BitfieldTheorems.
Import Bitfield.

(** ** Writes *)

Inductive write := Set_ (i : N) (v : bool) | Range (start stop : N) (v : bool).

Definition apply_write (b : Bitfield) (w : write) : run Bitfield :=
  match w with
  | Set_ i v => Done (set b i v)
  | Range start stop v => set_range b start stop v
  end.

Definition writes (ws : list write) : run Bitfield := foldM apply_write new ws.

(** What a write does to a function from indices to bits. *)
Definition write_bits (f : N -> bool) (w : write) (x : N) : bool :=
  match w with
  | Set_ i v => if i =? x then v else f x
  | Range start stop v => if (start <=? x) && (x <? stop) then v else f x
  end.

Definition bits (ws : list write) : N -> bool := foldl write_bits (λ _, false) ws.

(** Indices are 64-bit; a range stays below the last page, see [set_range_hangs]. *)
Definition write_ok (w : write) : Prop :=
  match w with
  | Set_ i _ => u64_ok i
  | Range _ stop _ => stop + BITS_PER_PAGE <= two64
  end.

Definition page_keys (b : Bitfield) : Prop :=
  map_Forall (λ i _, i < two64 / BITS_PER_PAGE) (pages b).

Lemma page_key i : u64_ok i -> i / BITS_PER_PAGE < two64 / BITS_PER_PAGE.
Proof. unfold u64_ok, BITS_PER_PAGE, two64. dlia. Qed.

Lemma page_keys_insert b pg p :
  page_keys b -> pg < two64 / BITS_PER_PAGE -> page_keys (mkBitfield (<[pg := p]> (pages b))).
Proof. intros Hb Hp. by apply map_Forall_insert_2. Qed.

Lemma set_keys b i v : page_keys b -> u64_ok i -> page_keys (set b i v).
Proof.
  intros Hb Hi%page_key. unfold set, locate. destruct v; [by apply page_keys_insert|].
  destruct (pages b !! _); [by apply page_keys_insert|done].
Qed.

Lemma set_chunk_keys b pg lo hi v :
  page_keys b -> pg < two64 / BITS_PER_PAGE -> page_keys (set_chunk b pg lo hi v).
Proof.
  intros Hb Hp. unfold set_chunk. destruct v; [by apply page_keys_insert|].
  destruct (pages b !! _); [by apply page_keys_insert|done].
Qed.

Lemma set_range_keys f b i stop v b' :
  page_keys b -> stop <= two64 -> set_range_loop f b i stop v = Done b' -> page_keys b'.
Proof.
  intros Hb Hs. revert b i Hb; induction f as [|f IH]; intros b i Hb; cbn [set_range_loop].
  - case_if; [done|]. by intros [= <-].
  - case_if; [|by intros [= <-]]. apply IH, set_chunk_keys; [done|].
    apply page_key. unfold u64_ok. lia.
Qed.

Lemma page_space : two64 / BITS_PER_PAGE = 562949953421312.
Proof. reflexivity. Qed.

Lemma page_keys_ok b : page_keys b -> keys_ok b.
Proof.
  intros Hb. split.
  - intros i p Hi. apply Hb in Hi. cbn in Hi. rewrite page_space in Hi. unfold u64_ok, two64. lia.
  - rewrite <- size_dom.
    assert (Hsub : elements (dom (pages b)) ⊆+ rangeN 0 (two64 / BITS_PER_PAGE)).
    { apply NoDup_submseteq; [apply NoDup_elements|]. intros i [p Hi]%elem_of_elements%elem_of_dom.
      apply elem_of_rangeN. split; [apply N.le_0_l|by eapply Hb]. }
    apply submseteq_length in Hsub. rewrite rangeN_length in Hsub.
    change (size (dom (pages b))) with (length (elements (dom (pages b)))).
    rewrite page_space in Hsub. unfold u64_ok, two64. lia.
Qed.

Lemma apply_write_spec b w :
  field_ok b -> page_keys b -> write_ok w ->
  exists b', apply_write b w = Done b' /\ field_ok b' /\ page_keys b'
    /\ forall x, get b' x = write_bits (get b) w x.
Proof.
  intros Hb Hk Hw. destruct w as [i v|start stop v]; cbn [apply_write write_ok] in *.
  - exists (set b i v). split_and!; [done|by apply set_field_ok|by apply set_keys|].
    intros x. by apply get_set.
  - destruct (set_range_spec b start stop v Hb Hw) as (b' & E & Hb' & Hg).
    exists b'. split_and!; try done. eapply set_range_keys; [done| |exact E].
    unfold BITS_PER_PAGE in Hw. lia.
Qed.

Lemma write_bits_ext f g w x : (forall y, f y = g y) -> write_bits f w x = write_bits g w x.
Proof. intros E. destruct w; cbn; by rewrite E. Qed.

Lemma bits_ext f g ws x :
  (forall y, f y = g y) -> foldl write_bits f ws x = foldl write_bits g ws x.
Proof.
  revert f g. induction ws as [|w ws IH]; intros f g E; [done|]. apply IH. intros y.
  by apply write_bits_ext.
Qed.

Lemma writes_from b ws :
  field_ok b -> page_keys b -> Forall write_ok ws ->
  exists b', foldM apply_write b ws = Done b' /\ field_ok b' /\ page_keys b'
    /\ forall x, get b' x = foldl write_bits (get b) ws x.
Proof.
  intros Hb Hk Hws. revert b Hb Hk. induction Hws as [|w ws Hw _ IH]; intros b Hb Hk.
  { by exists b. }
  destruct (apply_write_spec b w Hb Hk Hw) as (b1 & E1 & Hb1 & Hk1 & Hg1).
  destruct (IH b1 Hb1 Hk1) as (b2 & E2 & Hb2 & Hk2 & Hg2). exists b2.
  cbn [foldM foldl]. rewrite E1. rsimpl. split_and!; [done..|].
  intros x. rewrite Hg2. by apply bits_ext.
Qed.

Lemma get_new x : get new x = false.
Proof. by rewrite get_page. Qed.

Lemma writes_spec ws :
  Forall write_ok ws ->
  exists b, writes ws = Done b /\ field_ok b /\ page_keys b /\ forall x, get b x = bits ws x.
Proof.
  intros Hws. destruct (writes_from new ws) as (b & E & Hb & Hk & Hg); [done..|].
  exists b. split_and!; [done..|]. intros x. rewrite Hg. apply bits_ext, get_new.
Qed.

(** ** Properties *)

(** C39: Every sequence of [set] and [set_range] calls whose ranges end at least one
    page of 32768 bits below [2^64] terminates and leaves a bitfield whose bit at
    every index is the one the last write over it set.  (Without the bound it is
    false: [set_range_hangs].) *)
Theorem bitfield_refines_bits ws :
  Forall write_ok ws -> exists b, writes ws = Done b /\ forall x, get b x = bits ws x.
Proof. intros (b & E & _ & _ & Hg)%writes_spec. by exists b. Qed.

(** [count] returns the number of indices of the range whose bit has the
    wanted value. *)
Theorem bitfield_count ws b start length v :
  Forall write_ok ws -> writes ws = Done b -> start + length + BITS_PER_PAGE <= two64 ->
  count b start length v
  = Done (countN (λ x, Bool.eqb (bits ws x) v) start (start + length)).
Proof.
  intros (b' & E & Hb & _ & Hg)%writes_spec. rewrite E. intros [= ->] Hl.
  rewrite count_spec by done. f_equal. apply countN_ext. intros x _. by rewrite Hg.
Qed.

(** [find_first] and [find_last] terminate; what they return is the nearest
    index at or after (at or before) the position whose bit has the wanted value,
    and [None] means there is no such index. *)
Theorem bitfield_find ws b v position :
  Forall write_ok ws -> writes ws = Done b ->
  exists r1 r2, find_first b v position = Done r1 /\ find_last b v position = Done r2
  /\ match r1 with
     | Some x => position <= x /\ bits ws x = v /\ forall y, position <= y < x -> bits ws y = negb v
     | None => forall y, position <= y -> bits ws y = negb v
     end
  /\ match r2 with
     | Some x => x <= position /\ bits ws x = v /\ forall y, x < y <= position -> bits ws y = negb v
     | None => forall y, y <= position -> bits ws y = negb v
     end.
Proof.
  intros (b' & E & Hb & _ & Hg)%writes_spec. rewrite E. intros [= ->].
  destruct (find_first_spec b v position Hb) as (r1 & E1 & H1).
  destruct (find_last_spec b v position Hb) as (r2 & E2 & H2).
  exists r1, r2. split_and!; [done..| |].
  - destruct r1 as [x|]; cbn in H1; setoid_rewrite Hg in H1; done.
  - destruct r2 as [x|]; cbn in H2; setoid_rewrite Hg in H2; done.
Qed.

(** A bitfield that is serialized and read back has the same bits. *)
Theorem bitfield_roundtrip ws b :
  Forall write_ok ws -> writes ws = Done b ->
  exists b', deserialize (serialize b) = Some b' /\ forall x, get b' x = bits ws x.
Proof.
  intros (b' & E & Hb & Hk & Hg)%writes_spec. rewrite E. intros [= ->].
  destruct (field_roundtrip b Hb (page_keys_ok b Hk)) as (b'' & E2 & _ & _ & Hg2).
  exists b''. split; [done|]. intros x. by rewrite Hg2, Hg.
Qed.

(** C40: In the last page the page end wraps to zero and [set_range] never ends: on
    any range up to [u64::MAX] no number of rounds is enough. *)
Theorem set_range_hangs f i :
  i < u64_max -> set_range_loop f new i u64_max false = OutOfFuel.
Proof. apply set_range_last_page. Qed.

Definition ws3 : list write := [Set_ 5 true; Range 3 40000 true; Range 10 32770 false].
Lemma ws3_ok : Forall write_ok ws3.
Proof. repeat constructor; vm_compute; discriminate. Qed.

Lemma bitfield_refines_bits_witness : exists b, writes ws3 = Done b /\ forall x, get b x = bits ws3 x.
Proof. apply (bitfield_refines_bits ws3 ws3_ok). Defined.

(** A bitfield of one short page of writes. *)
Definition ws2 : list write := [Set_ 5 true; Range 70 75 true].
Definition field2 : Bitfield := match writes ws2 with Done b => b | _ => new end.
Lemma ws2_ok : Forall write_ok ws2.
Proof. repeat constructor; vm_compute; discriminate. Qed.

Lemma bitfield_count_witness : count field2 0 72 true = Done 3.
Proof.
  apply (bitfield_count ws2 field2 0 72 true); [exact ws2_ok|vm_compute; reflexivity|].
  vm_compute. discriminate.
Defined.

Lemma bitfield_find_witness :
  exists r1 r2, find_first field2 true 6 = Done r1 /\ find_last field2 true 69 = Done r2
  /\ match r1 with
     | Some x => 6 <= x /\ bits ws2 x = true /\ forall y, 6 <= y < x -> bits ws2 y = false
     | None => forall y, 6 <= y -> bits ws2 y = false
     end.
Proof.
  destruct (bitfield_find ws2 field2 true 6 ws2_ok) as (r1 & _ & E1 & _ & H1 & _); [vm_compute; reflexivity|].
  destruct (bitfield_find ws2 field2 true 69 ws2_ok) as (_ & r2 & _ & E2 & _); [vm_compute; reflexivity|].
  by exists r1, r2.
Defined.

Lemma bitfield_roundtrip_witness :
  exists b', deserialize (serialize field2) = Some b' /\ forall x, get b' x = bits ws2 x.
Proof. apply (bitfield_roundtrip ws2 field2 ws2_ok). vm_compute; reflexivity. Defined.

Lemma set_range_hangs_witness : set_range_loop 1000 new 7 u64_max false = OutOfFuel.
Proof. apply (set_range_hangs 1000 7). done. Defined.
End BitfieldTheorems.
