(* ===== verification/Identity.v ===== *)
(** * [identity]: author keys and the multi-signer manifest

    The model of [src/crates/identity/src/lib.rs] and [manifest.rs].  The
    ed25519 library is a parameter ([Ed25519]) with its documented behaviour
    ([Ed25519Laws]: an honest signature verifies, and keys and signatures
    survive their byte forms); nothing is assumed about forgery, so the
    theorems say exactly which verification equations an accepted head met. *)
From S2P Require Import Prelude Merkle.
From Stdlib Require Import Strings.Byte.

Class Ed25519 := {
  SigningKey : Type;
  VerifyingKey : Type;
  Signature : Type;
  #[global] vk_eq_dec :: EqDecision VerifyingKey;
  #[global] sig_eq_dec :: EqDecision Signature;
  signing_key_from_bytes : bytes -> SigningKey;
  verifying_key : SigningKey -> VerifyingKey;
  ed_sign : SigningKey -> bytes -> Signature;
  ed_verify : VerifyingKey -> bytes -> Signature -> bool;
  vk_to_bytes : VerifyingKey -> bytes;
  vk_from_bytes : bytes -> option VerifyingKey;
  sig_to_bytes : Signature -> bytes;
  sig_from_bytes : bytes -> Signature;
}.

Class Ed25519Laws `{Ed25519} := {
  ed_sign_verify sk msg : ed_verify (verifying_key sk) msg (ed_sign sk msg) = true;
  vk_bytes_length pk : length (vk_to_bytes pk) = 32%nat;
  vk_from_to pk : vk_from_bytes (vk_to_bytes pk) = Some pk;
  sig_bytes_length s : length (sig_to_bytes s) = 64%nat;
  sig_from_to s : sig_from_bytes (sig_to_bytes s) = s;
}.

Module Identity.

Section Keys.
Context `{Ed25519}.

(** The newtypes of the source wrap the library's types. *)
Definition SecretKey : Type := SigningKey.
Definition PublicKey : Type := VerifyingKey.
Definition Sig : Type := Signature.

#[global] Instance PublicKey_eq_dec : EqDecision PublicKey := vk_eq_dec.
#[global] Instance Sig_eq_dec : EqDecision Sig := sig_eq_dec.

Definition SecretKey_from_seed (seed : bytes) : SecretKey := signing_key_from_bytes seed.
Definition public (sk : SecretKey) : PublicKey := verifying_key sk.
Definition sign (sk : SecretKey) (msg : bytes) : Sig := ed_sign sk msg.
Definition to_bytes (pk : PublicKey) : bytes := vk_to_bytes pk.
Definition from_bytes (bs : bytes) : option PublicKey := vk_from_bytes bs.
Definition verify (pk : PublicKey) (msg : bytes) (sig : Sig) : bool := ed_verify pk msg sig.
Definition Sig_to_bytes (s : Sig) : bytes := sig_to_bytes s.
Definition Sig_from_bytes (bs : bytes) : Sig := sig_from_bytes bs.
End Keys.

(** ** Manifests *)

Definition MANIFEST_DOMAIN : byte := xa0.
Definition SIGNABLE_DOMAIN : byte := xa1.
Definition DEFAULT_NAMESPACE : bytes := replicate 32 x00.

Section Manifest.
Context `{Hasher} `{Ed25519}.

Record Signer := mkSigner { public_key : PublicKey; namespace : bytes }.

Definition Signer_new (pk : PublicKey) : Signer := mkSigner pk DEFAULT_NAMESPACE.

Definition Signer_with_namespace (pk : PublicKey) (ns : bytes) : Signer := mkSigner pk ns.

Record Prologue := mkPrologue { p_length : N; p_hash : bytes }.

#[global] Instance Prologue_eq_dec : EqDecision Prologue.
Proof. solve_decision. Defined.

Record PartialSig := mkPartialSig { ps_signer : nat; ps_sig : Sig }.

Record Manifest := mkManifest { quorum : nat; signers : list Signer; prologue : option Prologue }.

Definition default_quorum (n : nat) : nat := (Nat.div2 n + 1)%nat.

Definition Manifest_new (quorum : nat) (signers : list Signer) : option Manifest :=
  if bool_decide (signers = []) || (quorum =? 0)%nat || (length signers <? quorum)%nat then None
  else Some (mkManifest quorum signers None).

Definition single (pk : PublicKey) : Manifest := mkManifest 1 [Signer_new pk] None.

Definition static_signer (p : Prologue) : Manifest := mkManifest 0 [] (Some p).

Definition with_prologue (m : Manifest) (p : Prologue) : Manifest :=
  mkManifest (quorum m) (signers m) (Some p).

Definition signer_input (s : Signer) : bytes := to_bytes (public_key s) ++ namespace s.

(** The bytes [Manifest::hash] feeds the hasher. *)
Definition manifest_input (m : Manifest) : bytes :=
  [MANIFEST_DOMAIN] ++ le64 (N.of_nat (quorum m)) ++ le64 (lenN (signers m))
    ++ concat (map signer_input (signers m))
    ++ match prologue m with
       | Some p => [x01] ++ le64 (p_length p) ++ p_hash p
       | None => [x00]
       end.

Definition Manifest_hash (m : Manifest) : bytes := blake3 (manifest_input m).

Definition signable (m : Manifest) (length : N) (tree_hash : bytes) : bytes :=
  [SIGNABLE_DOMAIN] ++ Manifest_hash m ++ le64 length ++ tree_hash.

Fixpoint position (pk : PublicKey) (l : list Signer) : option nat :=
  match l with
  | [] => None
  | s :: l' => if bool_decide (public_key s = pk) then Some O else S <$> position pk l'
  end.

Definition Manifest_sign (m : Manifest) (secret : SecretKey) (length : N) (tree_hash : bytes)
    : option PartialSig :=
  signer ← position (public secret) (signers m);
  Some (mkPartialSig signer (sign secret (signable m length tree_hash))).

(** The loop over the supplied signatures; [None] is an early rejection.
    [seen] is the vector of flags, out of range only where the guard rejects. *)
Fixpoint verify_loop (m : Manifest) (msg : bytes) (sigs : list PartialSig) (seen : list bool)
    (valid : nat) : option nat :=
  match sigs with
  | [] => Some valid
  | ps :: sigs' =>
      match signers m !! ps_signer ps with
      | None => None
      | Some s =>
          if default false (seen !! ps_signer ps) then None
          else if negb (verify (public_key s) msg (ps_sig ps)) then None
          else verify_loop m msg sigs' (<[ps_signer ps := true]> seen) (S valid)
      end
  end.

Definition Manifest_verify (m : Manifest) (len : N) (tree_hash : bytes) (sigs : list PartialSig)
    : bool :=
  let quorum_rule :=
    if (quorum m =? 0)%nat || (length sigs <? quorum m)%nat then false
    else
      match verify_loop m (signable m len tree_hash) sigs
              (replicate (length (signers m)) false) 0 with
      | None => false
      | Some valid => (quorum m <=? valid)%nat
      end in
  match prologue m with
  | Some p =>
      if len <=? p_length p then (len =? p_length p) && bool_decide (tree_hash = p_hash p)
      else quorum_rule
  | None => quorum_rule
  end.

(** ** Lemmas *)

(** A signature counts when its slot exists and its equation holds. *)
Definition sig_valid (m : Manifest) (msg : bytes) (ps : PartialSig) : Prop :=
  exists s, signers m !! ps_signer ps = Some s /\ verify (public_key s) msg (ps_sig ps) = true.

Lemma verify_loop_spec m msg sigs seen valid n :
  length seen = length (signers m) ->
  verify_loop m msg sigs seen valid = Some n <->
  n = (valid + length sigs)%nat /\ Forall (sig_valid m msg) sigs /\ NoDup (ps_signer <$> sigs) /\
  Forall (λ ps, seen !! ps_signer ps = Some false) sigs.
Proof.
  revert seen valid. induction sigs as [|ps sigs IH]; intros seen valid Hl; cbn [verify_loop].
  { split; [intros [= <-]|intros (-> & _)]; [|f_equal; cbn; lia].
    split_and!; [cbn; lia|constructor..]. }
  destruct (signers m !! ps_signer ps) as [s|] eqn:Es.
  2: { split; [done|]. intros (_ & Hv & _). apply Forall_cons in Hv as [(s & Hs & _) _]. congruence. }
  assert (Hlt : (ps_signer ps < length seen)%nat) by (rewrite Hl; by eapply lookup_lt_Some).
  destruct (lookup_lt_is_Some_2 seen _ Hlt) as [b Eb]. rewrite Eb. cbn [default from_option id].
  destruct b.
  { split; [done|]. intros (_ & _ & _ & Hs). apply Forall_cons in Hs as [Hs _]. congruence. }
  destruct (verify (public_key s) msg (ps_sig ps)) eqn:Ev; cbn [negb].
  2: { split; [done|]. intros (_ & Hv & _). apply Forall_cons in Hv as [(s' & Hs & Hv) _].
       rewrite Es in Hs. injection Hs as <-. congruence. }
  rewrite IH by (by rewrite length_insert). cbn [length fmap list_fmap].
  rewrite !Forall_cons, NoDup_cons.
  assert (Hseen : Forall (λ p, <[ps_signer ps := true]> seen !! ps_signer p = Some false) sigs <->
    (ps_signer ps ∉ (ps_signer <$> sigs)) /\ Forall (λ p, seen !! ps_signer p = Some false) sigs).
  { rewrite !Forall_forall, list_elem_of_fmap. split.
    - intros Hf. split.
      + intros (p & E & Hp). specialize (Hf p Hp). rewrite <- E, list_lookup_insert_eq in Hf; done.
      + intros p Hp. specialize (Hf p Hp). destruct (decide (ps_signer ps = ps_signer p)) as [E|E].
        * rewrite <- E, list_lookup_insert_eq in Hf; done.
        * by rewrite list_lookup_insert_ne in Hf.
    - intros [Hni Hf] p Hp. rewrite list_lookup_insert_ne; [by apply Hf|].
      intros E. apply Hni. by exists p. }
  rewrite Hseen. split.
  - intros (-> & Hv & Hnd & Hni & Hf). split_and!; [lia|by exists s|done..].
  - intros (-> & [_ Hv] & [Hni Hnd] & [_ Hf]). split_and!; [lia|done..].
Qed.

Lemma Manifest_verify_quorum m len tree_hash sigs :
  (forall p, prologue m = Some p -> p_length p < len) ->
  Manifest_verify m len tree_hash sigs = true <->
  (0 < quorum m <= length sigs)%nat /\ NoDup (ps_signer <$> sigs) /\
  Forall (sig_valid m (signable m len tree_hash)) sigs.
Proof.
  intros Hp. unfold Manifest_verify.
  set (rule := if _ || _ then false else _).
  assert (Hr : rule = true <-> (0 < quorum m <= length sigs)%nat /\ NoDup (ps_signer <$> sigs) /\
                 Forall (sig_valid m (signable m len tree_hash)) sigs).
  { unfold rule. destruct ((quorum m =? 0)%nat || _) eqn:Eg.
    { split; [done|]. intros [Hq _]. apply orb_true_iff in Eg as [Eg|Eg]; reflect_bools; lia. }
    reflect_bools. pose proof (verify_loop_spec m (signable m len tree_hash) sigs
      (replicate (length (signers m)) false) 0) as Hs.
    destruct (verify_loop _ _ _ _ _) as [n|] eqn:El.
    - destruct (proj1 (Hs n (length_replicate _ _)) eq_refl) as (-> & Hv & Hnd & _).
      cbn [Nat.add]. rewrite Nat.leb_le. split; [intros _; split_and!; [lia|lia|done|done]|lia].
    - split; [done|]. intros (Hq & Hnd & Hv). exfalso.
      specialize (Hs (0 + length sigs)%nat (length_replicate _ _)). destruct Hs as [_ Hs].
      specialize (Hs ltac:(split_and!; [done|done|done|
        eapply Forall_impl; [exact Hv|]; intros ps (s & Hsg & _);
        apply lookup_replicate; split; [done|by eapply lookup_lt_Some]])).
      done. }
  destruct (prologue m) as [p|]; [|done].
  specialize (Hp p eq_refl). by rewrite (proj2 (N.leb_gt _ _)).
Qed.

Lemma Manifest_verify_prologue m p len tree_hash sigs :
  prologue m = Some p -> len <= p_length p ->
  Manifest_verify m len tree_hash sigs = true <-> len = p_length p /\ tree_hash = p_hash p.
Proof.
  intros Hp Hl. unfold Manifest_verify. rewrite Hp, (proj2 (N.leb_le _ _)) by done.
  by rewrite andb_true_iff, N.eqb_eq, bool_decide_eq_true.
Qed.

Lemma position_spec pk l i :
  position pk l = Some i -> exists s, l !! i = Some s /\ public_key s = pk.
Proof.
  revert i; induction l as [|s l IH]; intros i; cbn [position]; [done|].
  case_bool_decide as E; [intros [= <-]; by exists s|].
  destruct (position pk l) as [j|]; [|done]. intros [= <-]. by apply IH.
Qed.

Context `{!HasherLaws, !Ed25519Laws}.

Lemma Manifest_sign_valid m sk len tree_hash ps :
  Manifest_sign m sk len tree_hash = Some ps -> sig_valid m (signable m len tree_hash) ps.
Proof.
  unfold Manifest_sign. destruct (position _ _) as [i|] eqn:E; [|done]. intros [= <-].
  apply position_spec in E as (s & Hs & Hk). exists s. split; [done|]. cbn. rewrite Hk.
  apply ed_sign_verify.
Qed.

(** *** The hashed and signed bytes determine what they commit to *)

Definition manifest_ok (m : Manifest) : Prop :=
  N.of_nat (quorum m) < two64 /\ lenN (signers m) < two64 /\
  Forall (λ s, length (namespace s) = 32%nat) (signers m) /\
  match prologue m with
  | Some p => u64_ok (p_length p) /\ length (p_hash p) = 32%nat
  | None => True
  end.

Lemma to_bytes_inj a b : to_bytes a = to_bytes b -> a = b.
Proof. intros E. apply (f_equal vk_from_bytes) in E. unfold to_bytes in E. rewrite !vk_from_to in E. congruence. Qed.

Lemma signers_inj l1 l2 r1 r2 :
  Forall (λ s, length (namespace s) = 32%nat) l1 -> Forall (λ s, length (namespace s) = 32%nat) l2 ->
  length l1 = length l2 ->
  concat (map signer_input l1) ++ r1 = concat (map signer_input l2) ++ r2 -> l1 = l2 /\ r1 = r2.
Proof.
  intros F1. revert l2. induction F1 as [|s1 l1 Hs1 F1 IH]; intros [|s2 l2] F2 Hl E; try done.
  apply Forall_cons in F2 as [Hs2 F2]. cbn in E. unfold signer_input in E. rewrite <- !app_assoc in E.
  apply app_inj_len in E as [E1 E]; [|unfold to_bytes; by rewrite !vk_bytes_length].
  apply app_inj_len in E as [E2 E]; [|congruence].
  apply to_bytes_inj in E1. destruct (IH l2 F2 ltac:(cbn in Hl; lia) E) as [-> ->].
  destruct s1, s2; simpl in *; by subst.
Qed.

Lemma manifest_input_inj m1 m2 :
  manifest_ok m1 -> manifest_ok m2 -> manifest_input m1 = manifest_input m2 -> m1 = m2.
Proof.
  intros (Hq1 & Hl1 & Hs1 & Hp1) (Hq2 & Hl2 & Hs2 & Hp2) E. unfold manifest_input in E.
  apply app_inj_len in E as [_ E]; [|done].
  apply app_inj_len in E as [E1 E]; [|by rewrite !to_le_length].
  apply app_inj_len in E as [E2 E]; [|by rewrite !to_le_length].
  apply le64_inj in E1, E2; [|done..].
  apply signers_inj in E as [E3 E4]; [|done|done|unfold lenN in E2; lia].
  destruct m1 as [q1 s1 p1], m2 as [q2 s2 p2]; cbn [quorum signers prologue] in *. subst s2.
  assert (q1 = q2) as -> by lia. f_equal.
  destruct p1 as [[l1 h1]|], p2 as [[l2 h2]|]; cbn [p_length p_hash] in *; try done.
  apply app_inj_len in E4 as [_ E4]; [|done].
  apply app_inj_len in E4 as [E4 ->]; [|by rewrite !to_le_length].
  by apply le64_inj in E4 as ->; [|apply Hp1|apply Hp2].
Qed.

Lemma signable_inj m1 m2 l1 l2 h1 h2 :
  manifest_ok m1 -> manifest_ok m2 -> u64_ok l1 -> u64_ok l2 ->
  (blake3 (manifest_input m1) = blake3 (manifest_input m2) -> manifest_input m1 = manifest_input m2) ->
  signable m1 l1 h1 = signable m2 l2 h2 -> m1 = m2 /\ l1 = l2 /\ h1 = h2.
Proof.
  intros Hm1 Hm2 Hl1 Hl2 Hcf E. unfold signable in E.
  apply app_inj_len in E as [_ E]; [|done].
  apply app_inj_len in E as [E1 E]; [|unfold Manifest_hash; by rewrite !blake3_length].
  apply app_inj_len in E as [E2 ->]; [|by rewrite !to_le_length].
  apply le64_inj in E2 as ->; [|done..]. by apply Hcf, manifest_input_inj in E1 as ->.
Qed.
End Manifest.
End Identity.
