(* ===== verification/IdentityTheorems.v ===== *)
(** * [identity]: what a manifest authorizes

    The properties of [src/crates/identity/src/manifest.rs] over a lawful
    signature scheme, with a concrete scheme for the witnesses. *)
From S2P Require Import Prelude Flat Merkle MerkleProofs MerkleHistory Identity.
From Stdlib Require Import Strings.Byte.

Module IdentityTheorems.
Import Identity.

Section Theorems.
Context `{HasherLaws} `{Ed25519Laws}.

(** [Manifest::verify] accepts a head exactly when it is the committed
    prologue, or lies past the prologue and comes with at least [quorum]
    signatures, every one from a different declared slot and valid over the
    manifest-bound bytes. *)
Theorem manifest_verify_iff m len tree_hash sigs :
  Manifest_verify m len tree_hash sigs = true <->
  match prologue m with
  | Some p =>
      if len <=? p_length p then len = p_length p /\ tree_hash = p_hash p
      else (0 < quorum m <= length sigs)%nat /\ NoDup (ps_signer <$> sigs) /\
           Forall (sig_valid m (signable m len tree_hash)) sigs
  | None => (0 < quorum m <= length sigs)%nat /\ NoDup (ps_signer <$> sigs) /\
            Forall (sig_valid m (signable m len tree_hash)) sigs
  end.
Proof.
  destruct (prologue m) as [p|] eqn:Ep.
  - destruct (N.leb_spec len (p_length p)).
    + by apply Manifest_verify_prologue.
    + apply Manifest_verify_quorum. intros p' Ep'. rewrite Ep in Ep'. by injection Ep' as <-.
  - apply Manifest_verify_quorum. intros p' Ep'. by rewrite Ep in Ep'.
Qed.

(** The signatures of enough declared signers over a head authorize it: what
    [Manifest::sign] makes with keys of different slots, [Manifest::verify]
    accepts, past the prologue. *)
Theorem manifest_sign_verify m len tree_hash sks sigs :
  (forall p, prologue m = Some p -> p_length p < len) ->
  mapM (λ sk, Manifest_sign m sk len tree_hash) sks = Some sigs ->
  NoDup (ps_signer <$> sigs) -> (0 < quorum m <= length sks)%nat ->
  Manifest_verify m len tree_hash sigs = true.
Proof.
  intros Hp Hs Hnd Hq. apply mapM_Some in Hs. rewrite Manifest_verify_quorum by done.
  split_and!; [lia|rewrite <- (Forall2_length _ _ _ Hs); lia|done|].
  clear Hq Hnd. induction Hs as [|sk ps sks sigs Hsk _ IH]; constructor; [|done].
  by eapply Manifest_sign_valid.
Qed.

(** A signature binds one policy and one head: the bytes signed under two
    manifests agree only when the manifests, the lengths and the tree hashes do,
    unless BLAKE3 collides on the two manifests. *)
Theorem signable_binds m1 m2 l1 l2 h1 h2 :
  manifest_ok m1 -> manifest_ok m2 -> u64_ok l1 -> u64_ok l2 ->
  MerkleProofs.collision_free [manifest_input m1; manifest_input m2] ->
  signable m1 l1 h1 = signable m2 l2 h2 -> m1 = m2 /\ l1 = l2 /\ h1 = h2.
Proof.
  intros Hm1 Hm2 Hl1 Hl2 Hcf. apply signable_inj; [done..|]. apply Hcf; set_solver.
Qed.

(** The quorum counts slots, not keys: when two slots of a manifest hold the
    same public key, the holder of that one key meets a quorum of two. *)
Theorem manifest_one_key_quorum m sk i j s1 s2 len tree_hash :
  quorum m = 2%nat -> prologue m = None -> i <> j ->
  signers m !! i = Some s1 -> signers m !! j = Some s2 ->
  public_key s1 = public sk -> public_key s2 = public sk ->
  let sig := sign sk (signable m len tree_hash) in
  Manifest_verify m len tree_hash [mkPartialSig i sig; mkPartialSig j sig] = true.
Proof.
  intros Hq Hp Hij L1 L2 E1 E2 sig. apply Manifest_verify_quorum; [by rewrite Hp|].
  split_and!; [lia|cbn; lia| |].
  - cbn. apply NoDup_cons_2; [by rewrite list_elem_of_singleton|apply NoDup_singleton].
  - repeat constructor; [exists s1; rewrite E1|exists s2; rewrite E2];
      (split; [done|apply ed_sign_verify]).
Qed.
End Theorems.

(** ** A concrete scheme *)

(** Keys and signatures of one byte, padded: the laws hold, nothing is secret. *)
Definition pad (n : nat) (b : byte) : bytes := b :: replicate (n - 1) x00.

Definition toy_ed : Ed25519 := {|
  SigningKey := byte; VerifyingKey := byte; Signature := byte;
  vk_eq_dec := byte_eq_dec; sig_eq_dec := byte_eq_dec;
  signing_key_from_bytes bs := default x00 (head bs);
  verifying_key sk := sk;
  ed_sign sk msg := byte_of (bval sk + from_le msg);
  ed_verify pk msg s := bool_decide (s = byte_of (bval pk + from_le msg));
  vk_to_bytes := pad 32; vk_from_bytes := head;
  sig_to_bytes := pad 64; sig_from_bytes bs := default x00 (head bs) |}.
#[local] Existing Instance toy_ed.
#[local] Existing Instance MerkleHistory.toy_hash.
#[local] Existing Instance MerkleHistory.toy_laws.

Lemma toy_ed_laws : Ed25519Laws.
Proof. split; cbn; try done. intros sk msg. by apply bool_decide_eq_true. Qed.
#[local] Existing Instance toy_ed_laws.

Definition sk1 : SecretKey := x01.
Definition signer (b : byte) : Signer := Signer_new (b : PublicKey).
Definition two_of_three : Manifest := mkManifest 2 [signer x01; signer x02; signer x03] None.
Definition twice_x01 : Manifest := mkManifest 2 [signer x01; signer x01] None.
Definition sigs_13 : list PartialSig :=
  default [] (mapM (λ sk : SecretKey, Manifest_sign two_of_three sk 5 [x09]) [x01; x03]).

Lemma manifest_sign_verify_witness : Manifest_verify two_of_three 5 [x09] sigs_13 = true.
Proof.
  apply (manifest_sign_verify two_of_three 5 [x09] [x01; x03] sigs_13).
  - done.
  - vm_cast_no_check (eq_refl (Some sigs_13)).
  - apply (bool_decide_unpack _). vm_compute. exact I.
  - cbn. lia.
Defined.

Lemma two_of_three_ok : manifest_ok two_of_three.
Proof. split_and!; by repeat constructor. Qed.

Lemma signable_binds_witness :
  two_of_three = two_of_three /\ 5 = 5 /\ [x09] = [x09].
Proof.
  apply (signable_binds two_of_three two_of_three 5 5 [x09] [x09]);
    [exact two_of_three_ok|exact two_of_three_ok|done|done| |done].
  apply MerkleProofs.collision_freeb_spec. vm_compute. reflexivity.
Defined.

Lemma manifest_one_key_quorum_witness :
  Manifest_verify twice_x01 5 [x09]
    [mkPartialSig 0 (sign sk1 (signable twice_x01 5 [x09]));
     mkPartialSig 1 (sign sk1 (signable twice_x01 5 [x09]))] = true.
Proof.
  apply (manifest_one_key_quorum twice_x01 sk1 0 1 (signer x01) (signer x01));
    reflexivity || discriminate.
Defined.
End IdentityTheorems.
