(* ===== verification/Linearizer.v ===== *)
(** * [autobase]: the multi-writer causal linearizer

    The model of [src/crates/autobase/src/lib.rs] and [linearizer.rs]: vector
    clocks, the growing causal DAG with its delivery checks, the priority-Kahn
    orders, reachability, the confirmation predicates of the consensus port and
    the driver that turns them into the confirmed view and the order.

    Sets and maps are iterated in key order ([bset_list], [bmap_list]), a stack
    is a list with its top first, and the loops that are not structural carry
    fuel.  [sees], [clock] and the closure walk push a node at most once per
    stored dependency, so [edge_fuel] is enough whatever the state. *)
From S2P Require Import Prelude.

Module Linearizer.

Abbreviation WriterKey := bytes.

Record NodeId := mkNode { key : WriterKey; seq : N }.

#[global] Instance NodeId_eq_dec : EqDecision NodeId.
Proof. solve_decision. Defined.
#[global] Program Instance NodeId_countable : Countable NodeId :=
  inj_countable' (λ n, (key n, seq n)) (λ p, mkNode p.1 p.2) _.
Next Obligation. by intros []. Qed.

(** The derived order: key first, then sequence number. *)
Definition node_le (a b : NodeId) : Prop :=
  match bytes_cmp (key a) (key b) with
  | Lt => True
  | Eq => seq a <= seq b
  | Gt => False
  end.

#[global] Instance node_le_dec : RelDecision node_le.
Proof. intros a b. unfold node_le. destruct (bytes_cmp _ _); apply _. Defined.

#[global] Program Instance NodeId_order : KeyOrder NodeId := {| key_le := node_le |}.
Next Obligation. intros a. unfold node_le. rewrite bytes_cmp_refl. lia. Qed.
Next Obligation.
  intros a b c. unfold node_le.
  destruct (bytes_cmp (key a) (key b)) eqn:E1, (bytes_cmp (key b) (key c)) eqn:E2; try done.
  - apply bytes_cmp_eq in E1 as ->. rewrite E2. lia.
  - apply bytes_cmp_eq in E1 as ->. by rewrite E2.
  - apply bytes_cmp_eq in E2 as <-. by rewrite E1.
  - by rewrite (bytes_cmp_lt_trans _ _ _ E1 E2).
Qed.
Next Obligation.
  intros a b. unfold node_le. rewrite (bytes_cmp_antisym (key a) (key b)).
  destruct (bytes_cmp (key a) (key b)) eqn:E; try done. cbn. intros H1 H2.
  apply bytes_cmp_eq in E. destruct a, b; simpl in *. f_equal; [done|lia].
Qed.
Next Obligation.
  intros a b. unfold node_le. rewrite (bytes_cmp_antisym (key a) (key b)).
  destruct (bytes_cmp (key a) (key b)); cbn; [|by left|by right]. lia.
Qed.

(** ** Clocks *)

Record Clock := mkClock { lengths : gmap WriterKey N }.

Definition Clock_default : Clock := mkClock ∅.
Definition Clock_get (c : Clock) (k : WriterKey) : N := default 0 (lengths c !! k).
Definition includes (c : Clock) (k : WriterKey) (length : N) : bool :=
  (0 <? length) && (length <=? Clock_get c k).
Definition writers (c : Clock) : nat := size (lengths c).
Definition Clock_iter (c : Clock) : list (WriterKey * N) := bmap_list (lengths c).
Definition raise (c : Clock) (k : WriterKey) (length : N) : Clock :=
  let e := default 0 (lengths c !! k) in
  mkClock (<[k := if e <? length then length else e]> (lengths c)).
Definition raise_node (c : Clock) (n : NodeId) : Clock := raise c (key n) (seq n + 1).

(** ** The DAG *)

Inductive Confirm := Unseen | Newer | Acked.

Inductive AddError :=
| Duplicate (n : NodeId)
| Gap (writer : WriterKey) (expected got : N)
| MissingHead (n : NodeId).

Inductive ReconfigureError :=
| BaseShrinks
| MissingNode (n : NodeId)
| NotCausallyClosed (node missing : NodeId)
| DuplicateBase (n : NodeId)
| BeyondConfirmed (confirmed wanted : nat).

Record Linearizer := mkLin {
  deps : gmap NodeId (gset NodeId);
  dependents : gmap NodeId (gset NodeId);
  next_seq : gmap WriterKey N;
  indexers : option (gset WriterKey);
  base : list NodeId;
  base_clock : Clock;
}.

Definition new : Linearizer := mkLin ∅ ∅ ∅ None [] Clock_default.

Definition with_indexers (ix : list WriterKey) : Linearizer :=
  mkLin ∅ ∅ ∅ (Some (list_to_set ix)) [] Clock_default.

Definition len (l : Linearizer) : nat := size (deps l).
Definition contains (l : Linearizer) (id : NodeId) : bool := bool_decide (is_Some (deps l !! id)).

Definition expected_seq (l : Linearizer) (k : WriterKey) : N := default 0 (next_seq l !! k).

Fixpoint missing_head (l : Linearizer) (heads : list NodeId) : option NodeId :=
  match heads with
  | [] => None
  | h :: heads' => if negb (contains l h) then Some h else missing_head l heads'
  end.

(** The dependencies [add] records for a node. *)
Definition dep_set (node : NodeId) (heads : list NodeId) : gset NodeId :=
  let ds : gset NodeId := list_to_set heads in
  let ds := if 0 <? seq node then {[ mkNode (key node) (seq node - 1) ]} ∪ ds else ds in
  ds ∖ {[ node ]}.

Definition add_dependent (node : NodeId) (m : gmap NodeId (gset NodeId)) (d : NodeId)
    : gmap NodeId (gset NodeId) :=
  <[d := {[ node ]} ∪ default ∅ (m !! d)]> m.

Definition add (l : Linearizer) (node : NodeId) (heads : list NodeId)
    : Linearizer * result AddError unit :=
  if contains l node then (l, Err (Duplicate node))
  else
    let expected := expected_seq l (key node) in
    if negb (seq node =? expected) then (l, Err (Gap (key node) expected (seq node)))
    else match missing_head l heads with
    | Some h => (l, Err (MissingHead h))
    | None =>
        let ds := dep_set node heads in
        let dts := foldl (add_dependent node) (dependents l) (bset_list ds) in
        let dts := match dts !! node with Some _ => dts | None => <[node := ∅]> dts end in
        (mkLin (<[node := ds]> (deps l)) dts (<[key node := seq node + 1]> (next_seq l))
           (indexers l) (base l) (base_clock l), Ok tt)
    end.

(** ** Orders *)

(** [BTreeSet::pop_first]. *)
Definition pop_first (s : gset NodeId) : option (NodeId * gset NodeId) :=
  match bset_list s with
  | [] => None
  | n :: _ => Some (n, s ∖ {[ n ]})
  end.

Definition zero_degree (m : gmap NodeId N) : gset NodeId :=
  dom (filter (λ e, e.2 = 0) m).

(** The children of an emitted node lose one unmet dependency each. *)
Definition relax_expect (st : gmap NodeId N * gset NodeId) (child : NodeId)
    : run (gmap NodeId N * gset NodeId) :=
  let '(indegree, frontier) := st in
  d ← expect (indegree !! child);
  let d := wsub64 d 1 in
  Done (<[child := d]> indegree, if d =? 0 then {[ child ]} ∪ frontier else frontier).

Fixpoint plain_loop (fuel : nat) (l : Linearizer) (indegree : gmap NodeId N)
    (frontier : gset NodeId) (out : list NodeId) : run (list NodeId) :=
  match pop_first frontier with
  | None => Done out
  | Some (node, frontier) =>
      match fuel with
      | O => OutOfFuel
      | S fuel' =>
          '(indegree, frontier) ←
            match dependents l !! node with
            | Some children => foldM relax_expect (indegree, frontier) (bset_list children)
            | None => Done (indegree, frontier)
            end;
          plain_loop fuel' l indegree frontier (out ++ [node])
      end
  end.

Definition plain_order (l : Linearizer) : run (list NodeId) :=
  let indegree := (λ d : gset NodeId, N.of_nat (size d)) <$> deps l in
  plain_loop (size (deps l)) l indegree (zero_degree indegree) [].

Definition relax (st : gmap NodeId N * gset NodeId) (child : NodeId)
    : gmap NodeId N * gset NodeId :=
  let '(indeg, frontier) := st in
  match indeg !! child with
  | None => st
  | Some d =>
      let d := wsub64 d 1 in
      (<[child := d]> indeg, if d =? 0 then {[ child ]} ∪ frontier else frontier)
  end.

Fixpoint topo_loop (fuel : nat) (l : Linearizer) (indeg : gmap NodeId N)
    (frontier : gset NodeId) (out : list NodeId) : run (list NodeId) :=
  match pop_first frontier with
  | None => Done out
  | Some (node, frontier) =>
      match fuel with
      | O => OutOfFuel
      | S fuel' =>
          let '(indeg, frontier) :=
            foldl relax (indeg, frontier) (bset_list (default ∅ (dependents l !! node))) in
          topo_loop fuel' l indeg frontier (out ++ [node])
      end
  end.

Definition unmet (l : Linearizer) (nodes emitted : gset NodeId) (n : NodeId) : gset NodeId :=
  filter (λ d, d ∈ nodes /\ d ∉ emitted) (default ∅ (deps l !! n)).

Definition topo_key_order (l : Linearizer) (nodes emitted : gset NodeId) : run (list NodeId) :=
  let indeg := set_to_map (λ n, (n, N.of_nat (size (unmet l nodes emitted n)))) nodes in
  topo_loop (size nodes) l indeg (zero_degree indeg) [].

Definition heads (l : Linearizer) : gset NodeId :=
  filter (λ n, default ∅ (dependents l !! n) = ∅) (dom (deps l)).

Definition tails (l : Linearizer) : gset NodeId :=
  dom (filter (λ e : NodeId * gset NodeId, e.2 = ∅) (deps l)).

Definition majority (l : Linearizer) : option nat :=
  (λ ix : gset WriterKey, (Nat.div (size ix) 2 + 1)%nat) <$> indexers l.

(** ** Reachability *)

Definition edge_fuel (l : Linearizer) : nat :=
  S (sum_list_with (λ e : NodeId * gset NodeId, size e.2) (bmap_list (deps l))).

(** The scan of one node's dependencies; [None] when [b] is among them. *)
Fixpoint sees_scan (b : NodeId) (ds : list NodeId) (stack : list NodeId) (visited : gset NodeId)
    : option (list NodeId * gset NodeId) :=
  match ds with
  | [] => Some (stack, visited)
  | d :: ds' =>
      if bool_decide (d = b) then None
      else if bool_decide (d ∈ visited) then sees_scan b ds' stack visited
      else sees_scan b ds' (d :: stack) ({[ d ]} ∪ visited)
  end.

Fixpoint sees_loop (fuel : nat) (l : Linearizer) (b : NodeId) (stack : list NodeId)
    (visited : gset NodeId) : bool :=
  match fuel with
  | O => false
  | S fuel' =>
      match stack with
      | [] => false
      | node :: stack =>
          match sees_scan b (bset_list (default ∅ (deps l !! node))) stack visited with
          | None => true
          | Some (stack, visited) => sees_loop fuel' l b stack visited
          end
      end
  end.

Definition sees (l : Linearizer) (a b : NodeId) : bool :=
  if bool_decide (a = b) then true
  else if negb (contains l a) || negb (contains l b) then false
  else sees_loop (S (edge_fuel l)) l b [a] ∅.

Fixpoint clock_scan (ds : list NodeId) (stack : list NodeId) (visited : gset NodeId)
    : list NodeId * gset NodeId :=
  match ds with
  | [] => (stack, visited)
  | d :: ds' =>
      if bool_decide (d ∈ visited) then clock_scan ds' stack visited
      else clock_scan ds' (d :: stack) ({[ d ]} ∪ visited)
  end.

Fixpoint clock_loop (fuel : nat) (l : Linearizer) (stack : list NodeId) (visited : gset NodeId)
    (c : Clock) : Clock :=
  match fuel with
  | O => c
  | S fuel' =>
      match stack with
      | [] => c
      | v :: stack =>
          let c := raise_node c v in
          let '(stack, visited) :=
            clock_scan (bset_list (default ∅ (deps l !! v))) stack visited in
          clock_loop fuel' l stack visited c
      end
  end.

Definition clock (l : Linearizer) (node : NodeId) : Clock :=
  if negb (contains l node) then Clock_default
  else clock_loop (S (edge_fuel l)) l [node] {[ node ]} Clock_default.

(** ** The confirmation predicates *)

Definition is_merge (l : Linearizer) (node : NodeId) (removed : Clock) : bool :=
  match indexers l with
  | None => false
  | Some ix =>
      if bool_decide (key node ∉ ix) then false
      else
        let clk := clock l node in
        let hs := omap (λ idx,
          (* seq + 1: the latest length seen, minus one more for the node's own writer *)
          let s1 := Clock_get clk idx - (if bool_decide (idx = key node) then 1 else 0) in
          if s1 =? 0 then None
          else
            let head := mkNode idx (s1 - 1) in
            if negb (contains l head) || includes removed idx s1 then None else Some head)
          (bset_list ix) in
        let maximal := filter (λ h, existsb (λ o, bool_decide (o <> h) && sees l o h) hs = false) hs in
        (1 <? length maximal)%nat
  end.

(** One indexer's candidate against the tails kept so far. *)
Fixpoint tail_scan (l : Linearizer) (head : NodeId) (ts : list NodeId) (remove : list NodeId)
    : bool * list NodeId :=
  match ts with
  | [] => (true, remove)
  | t :: ts' =>
      if sees l head t then (false, remove)
      else tail_scan l head ts' (if sees l t head then remove ++ [t] else remove)
  end.

Definition tail_step (l : Linearizer) (removed : Clock) (ts : list NodeId) (idx : WriterKey)
    : list NodeId :=
  let head := mkNode idx (Clock_get removed idx) in
  if negb (contains l head) || includes removed (key head) (seq head + 1) then ts
  else
    let '(is_tail, remove) := tail_scan l head ts [] in
    let ts := filter (λ t, t ∉ remove) ts in
    if is_tail then ts ++ [head] else ts.

Definition indexer_tails (l : Linearizer) (removed : Clock) : gset NodeId :=
  match indexers l with
  | None => ∅
  | Some ix => list_to_set (foldl (tail_step l removed) [] (bset_list ix))
  end.

(** One writer of the parent's clock: [false] when the vote is ambiguous. *)
Definition newer_at (l : Linearizer) (object : NodeId) (oclk removed : Clock)
    (e : WriterKey * N) : bool :=
  let '(k, latest) := e in
  if (match indexers l with Some ix => bool_decide (k ∉ ix) | None => false end) then true
  else
    let oldest := Clock_get removed k in
    if latest <=? oldest then true
    else
      let length := N.max (Clock_get oclk k) oldest in
      if latest <? length then false
      else if latest =? length then true
      else
        let next := mkNode k length in
        if negb (contains l next) then true else sees l next object.

Definition strictly_newer (l : Linearizer) (object parent : NodeId) (removed : Clock) : bool :=
  if negb (sees l parent object) then false
  else
    let pclk := clock l parent in
    let oclk := clock l object in
    forallb (newer_at l object oclk removed) (Clock_iter pclk).

Definition acks (l : Linearizer) (target : NodeId) (removed : Clock) : list NodeId :=
  match indexers l with
  | None => []
  | Some ix =>
      let tclk := clock l target in
      (if bool_decide (key target ∈ ix) then [target] else []) ++
      omap (λ idx,
        if bool_decide (idx = key target) then None
        else
          let node := mkNode idx (N.max (Clock_get tclk idx) (Clock_get removed idx)) in
          if contains l node && sees l node target && strictly_newer l target node removed
          then Some node else None)
        (bset_list ix)
  end.

Definition indexer_length (l : Linearizer) (k : WriterKey) : N := default 0 (next_seq l !! k).

Definition count_seen (l : Linearizer) (head : NodeId) (aks : list NodeId) : nat :=
  length (filter (λ a, sees l head a = true) aks).

(** The scan of an indexer's nodes, newest first; [n] is the position plus one. *)
Fixpoint confirms_loop (n : nat) (l : Linearizer) (indexer : WriterKey) (target : NodeId)
    (aks : list NodeId) (m : nat) (removed : Clock) (newer : bool) : Confirm :=
  match n with
  | O => Unseen
  | S i =>
      let head := mkNode indexer (N.of_nat i) in
      if negb (contains l head) then Unseen
      else
        let seen := count_seen l head aks in
        if negb newer && (seen <? m)%nat then Unseen
        else if negb (strictly_newer l target head removed)
             then confirms_loop i l indexer target aks m removed false
        else if (seen <? m)%nat then Newer else Acked
  end.

Definition confirms (l : Linearizer) (indexer : WriterKey) (target : NodeId) (aks : list NodeId)
    (length : N) (removed : Clock) : Confirm :=
  match majority l with
  | None => Unseen
  | Some m =>
      if (length =? 0) || (length <=? Clock_get removed indexer) then Unseen
      else confirms_loop (N.to_nat length) l indexer target aks m removed true
  end.

(** The loop of [acked_at] with its early exits. *)
Fixpoint acked_loop (l : Linearizer) (aks : list NodeId) (parent : NodeId) (m seen missing : nat)
    : bool :=
  match aks with
  | [] => false
  | node :: aks' =>
      let missing := (missing - 1)%nat in
      if negb (sees l parent node) then
        if (seen + missing <? m)%nat then false else acked_loop l aks' parent m seen missing
      else if (m <=? S seen)%nat then true else acked_loop l aks' parent m (S seen) missing
  end.

Definition acked_at (l : Linearizer) (aks : list NodeId) (parent : NodeId) : bool :=
  match majority l with
  | None => false
  | Some m => acked_loop l aks parent m 0 (length aks)
  end.

Fixpoint confirmable_loop (l : Linearizer) (target : NodeId) (pclk tclk removed : Clock)
    (confs : gset WriterKey) (m : nat) (ix : list WriterKey) (potential : nat) : bool :=
  match ix with
  | [] => false
  | indexer :: ix' =>
      if bool_decide (indexer ∈ confs) then
        confirmable_loop l target pclk tclk removed confs m ix' potential
      else
        let length := Clock_get pclk indexer in
        let is_seen := includes tclk indexer length in
        let head := mkNode indexer (length - 1) in
        if negb is_seen && (1 <=? length) && contains l head
           && negb (includes removed (key head) (seq head + 1))
           && negb (strictly_newer l target head removed)
        then confirmable_loop l target pclk tclk removed confs m ix' potential
        else if (m <=? S potential)%nat then true
        else confirmable_loop l target pclk tclk removed confs m ix' (S potential)
  end.

Definition is_confirmable_at (l : Linearizer) (target parent : NodeId) (aks : list NodeId)
    (confs : gset WriterKey) (removed : Clock) : bool :=
  match majority l, indexers l with
  | Some m, Some ix =>
      if negb (acked_at l aks parent) then false
      else confirmable_loop l target (clock l parent) (clock l target) removed confs m
             (bset_list ix) (size confs)
  | _, _ => false
  end.

(** The loop over the indexers: [inl] is the early [true]. *)
Fixpoint confirmed_loop (l : Linearizer) (target : NodeId) (parent : option NodeId)
    (aks : list NodeId) (m : nat) (removed : Clock) (ix : list WriterKey)
    (confs : gset WriterKey) (all_newer : bool) : unit + gset WriterKey * bool :=
  match ix with
  | [] => inr (confs, all_newer)
  | indexer :: ix' =>
      let length := match parent with
                    | Some p => if bool_decide (key p = indexer) then seq p
                                else Clock_get (clock l p) indexer
                    | None => indexer_length l indexer
                    end in
      match confirms l indexer target aks length removed with
      | Acked =>
          let confs := {[ indexer ]} ∪ confs in
          if (m <=? size confs)%nat then inl tt
          else confirmed_loop l target parent aks m removed ix' confs all_newer
      | Unseen => confirmed_loop l target parent aks m removed ix' confs false
      | Newer => confirmed_loop l target parent aks m removed ix' confs all_newer
      end
  end.

Definition is_confirmed (l : Linearizer) (target : NodeId) (parent : option NodeId)
    (removed : Clock) : bool :=
  match majority l, indexers l with
  | Some m, Some ix =>
      let aks := acks l target removed in
      if (length aks <? m)%nat then false
      else match confirmed_loop l target parent aks m removed (bset_list ix) ∅ true with
           | inl _ => true
           | inr (confs, all_newer) =>
               match parent with
               | Some p => is_confirmable_at l target p aks confs removed
               | None => all_newer
               end
           end
  | _, _ => false
  end.

(** ** The driver *)

Definition merge_nodes (l : Linearizer) (removed : Clock) : list NodeId :=
  match indexers l with
  | None => []
  | Some ix =>
      filter (λ n, is_merge l n removed = true)
        (filter (λ n, key n ∈ ix /\ includes removed (key n) (seq n + 1) = false)
           (bset_list (dom (deps l))))
  end.

Definition tails_seen (l : Linearizer) (node : NodeId) (ts : gset NodeId) : list NodeId :=
  filter (λ t, sees l node t = true) (bset_list ts).

Definition tails_and_merges_seen (l : Linearizer) (node : NodeId) (ts : gset NodeId)
    (removed : Clock) : list NodeId :=
  foldl (λ all m, if bool_decide (m <> node) && sees l node m && bool_decide (m ∉ all)
                  then all ++ [m] else all)
    (tails_seen l node ts) (merge_nodes l removed).

(** Each round moves to a node the current one sees. *)
Fixpoint yield_next (fuel : nat) (l : Linearizer) (node : NodeId) (ts : gset NodeId)
    (removed : Clock) : run (list NodeId * Clock) :=
  if bool_decide (node ∈ ts) then Done ([node], raise_node removed node)
  else match fuel with
  | O => OutOfFuel
  | S fuel' =>
      match List.find (λ t, is_confirmed l t (Some node) removed)
              (tails_and_merges_seen l node ts removed) with
      | Some t => yield_next fuel' l t ts removed
      | None =>
          let arm := tails_seen l node ts in
          Done (arm, foldl raise_node removed arm)
      end
  end.

Definition shift_once (l : Linearizer) (removed : Clock) : run (list NodeId * Clock) :=
  let ts := indexer_tails l removed in
  match List.find (λ t, is_confirmed l t None removed) (bset_list ts) with
  | Some tail => Done ([tail], raise_node removed tail)
  | None =>
      match List.find (λ m, is_confirmed l m None removed) (merge_nodes l removed) with
      | Some merge => yield_next (size (deps l)) l merge ts removed
      | None => Done ([], removed)
      end
  end.

(** Every batch that is not empty takes an indexer one node further. *)
Definition shift_fuel (l : Linearizer) : nat := S (size (deps l)).

Fixpoint prefix_loop (fuel : nat) (l : Linearizer) (removed : Clock) (out : list NodeId)
    : run (list NodeId) :=
  match fuel with
  | O => OutOfFuel
  | S fuel' =>
      '(batch, removed) ← shift_once l removed;
      match batch with
      | [] => Done out
      | _ => prefix_loop fuel' l removed (out ++ batch)
      end
  end.

Definition confirmed_prefix (l : Linearizer) : run (list NodeId) :=
  match majority l with
  | None => Done (base l)
  | Some _ => prefix_loop (shift_fuel l) l (base_clock l) (base l)
  end.

(** The walk down from a batch to what is not emitted yet. *)
Fixpoint fresh_loop (fuel : nat) (l : Linearizer) (emitted : gset NodeId) (stack : list NodeId)
    (fresh : gset NodeId) : run (gset NodeId) :=
  match stack with
  | [] => Done fresh
  | n :: stack =>
      match fuel with
      | O => OutOfFuel
      | S fuel' =>
          if bool_decide (n ∈ emitted) || bool_decide (n ∈ fresh)
          then fresh_loop fuel' l emitted stack fresh
          else
            let ds := filter (λ d, d ∉ emitted) (bset_list (default ∅ (deps l !! n))) in
            fresh_loop fuel' l emitted (rev ds ++ stack) ({[ n ]} ∪ fresh)
      end
  end.

Fixpoint view_loop (fuel : nat) (l : Linearizer) (removed : Clock) (emitted : gset NodeId)
    (out : list NodeId) : run (list NodeId) :=
  match fuel with
  | O => OutOfFuel
  | S fuel' =>
      '(batch, removed) ← shift_once l removed;
      match batch with
      | [] => Done out
      | _ =>
          fresh ← fresh_loop (length batch + edge_fuel l) l emitted (rev batch) ∅;
          ns ← topo_key_order l fresh emitted;
          view_loop fuel' l removed (list_to_set ns ∪ emitted) (out ++ ns)
      end
  end.

Definition confirmed_view (l : Linearizer) : run (list NodeId) :=
  match majority l with
  | None => Done (base l)
  | Some _ => view_loop (shift_fuel l) l (base_clock l) (list_to_set (base l)) (base l)
  end.

Definition order (l : Linearizer) : run (list NodeId) :=
  confirmed ← confirmed_view l;
  match confirmed with
  | [] => plain_order l
  | _ =>
      let emitted : gset NodeId := list_to_set confirmed in
      let remaining := filter (λ n, n ∉ emitted) (dom (deps l)) in
      rest ← topo_key_order l remaining emitted;
      Done (confirmed ++ rest)
  end.

Definition finalized (l : Linearizer) : run (list NodeId) := confirmed_view l.
Definition view (l : Linearizer) : run (list NodeId) := order l.
Definition view_len (l : Linearizer) : nat := len l.
Definition view_get (l : Linearizer) (i : nat) : run (option NodeId) :=
  o ← order l; Done (o !! i).
Definition indexed_view (l : Linearizer) : run (list NodeId) := finalized l.
Definition indexed_view_len (l : Linearizer) : run nat := length <$> finalized l.

(** ** Reconfiguration *)

Fixpoint starts_with (l p : list NodeId) : bool :=
  match p, l with
  | [], _ => true
  | x :: p', y :: l' => bool_decide (x = y) && starts_with l' p'
  | _ :: _, [] => false
  end.

Fixpoint check_members (l : Linearizer) (bs : list NodeId) (members : gset NodeId)
    : result ReconfigureError (gset NodeId) :=
  match bs with
  | [] => Ok members
  | n :: bs' =>
      if negb (contains l n) then Err (MissingNode n)
      else if bool_decide (n ∈ members) then Err (DuplicateBase n)
      else check_members l bs' ({[ n ]} ∪ members)
  end.

Fixpoint check_closed (l : Linearizer) (members : gset NodeId) (bs : list NodeId) (c : Clock)
    : result ReconfigureError Clock :=
  match bs with
  | [] => Ok c
  | n :: bs' =>
      match List.find (λ d, bool_decide (d ∉ members)) (bset_list (default ∅ (deps l !! n))) with
      | Some d => Err (NotCausallyClosed n d)
      | None => check_closed l members bs' (raise_node c n)
      end
  end.

Definition reconfigure_at (l : Linearizer) (bs : list NodeId) (ix : list WriterKey)
    : Linearizer * result ReconfigureError unit :=
  if negb (starts_with bs (base l)) then (l, Err BaseShrinks)
  else match check_members l bs ∅ with
  | Err e => (l, Err e)
  | Ok members =>
      match check_closed l members bs Clock_default with
      | Err e => (l, Err e)
      | Ok c => (mkLin (deps l) (dependents l) (next_seq l) (Some (list_to_set ix)) bs c, Ok tt)
      end
  end.

Definition reconfigure (l : Linearizer) (through : nat) (ix : list WriterKey)
    : run (Linearizer * result ReconfigureError unit) :=
  confirmed ← confirmed_view l;
  if (length confirmed <? through)%nat
  then Done (l, Err (BeyondConfirmed (length confirmed) through))
  else Done (reconfigure_at l (take through confirmed) ix).

(** ** Quorum degrees *)

(** [pre[w] >= level] for an indexer other than the author. *)
Definition vouches (pre : gmap WriterKey N) (author : WriterKey) (level : N) (w : WriterKey) : bool :=
  bool_decide (w <> author) && match pre !! w with Some pd => level <=? pd | None => false end.

(** The inner loop: raise the degree while a majority vouches the level below. *)
Fixpoint degree_loop (fuel : nat) (ix : list WriterKey) (pre : gmap WriterKey N)
    (author : WriterKey) (self_vote m : nat) (deg d : N) : run N :=
  match fuel with
  | O => OutOfFuel
  | S fuel' =>
      let level := d - 1 in
      let count := length (filter (λ w, vouches pre author level w = true) ix) in
      if (m <=? count + self_vote)%nat
      then degree_loop fuel' ix pre author self_vote m d (d + 1)
      else Done deg
  end.

(** Keep the larger degree. *)
Definition join_degree (m : gmap WriterKey N) (e : WriterKey * N) : gmap WriterKey N :=
  let '(w, deg) := e in
  <[w := match m !! w with Some x => N.max x deg | None => deg end]> m.

Record QState := mkQ {
  bestdeg : gmap NodeId (gmap WriterKey N);
  seesx : gmap NodeId bool;
  max_degree : N }.

Definition quorum_step (fuel : nat) (l : Linearizer) (ix : gset WriterKey) (m : nat)
    (target : NodeId) (q : QState) (v : NodeId) : run QState :=
  let ds := bset_list (default ∅ (deps l !! v)) in
  let sees_target := bool_decide (v = target)
                     || existsb (λ d, default false (seesx q !! d)) ds in
  let pre := foldl (λ p d, foldl join_degree p (bmap_list (default ∅ (bestdeg q !! d)))) ∅ ds in
  let author := key v in
  let author_is_indexer := bool_decide (author ∈ ix) in
  deg ← (if sees_target
         then degree_loop fuel (bset_list ix) pre author (if author_is_indexer then 1 else 0)%nat m 0 1
         else Done 0);
  let bd := if sees_target && author_is_indexer then join_degree pre (author, deg) else pre in
  Done (mkQ (<[v := bd]> (bestdeg q)) (<[v := sees_target]> (seesx q))
          (if sees_target && (max_degree q <? deg) then deg else max_degree q)).

Definition quorum_degree_with (fuel : nat) (l : Linearizer) (target : NodeId) : run N :=
  match majority l, indexers l with
  | Some m, Some ix =>
      if negb (contains l target) then Done 0
      else
        vs ← plain_order l;
        q ← foldM (quorum_step fuel l ix m target) (mkQ ∅ ∅ 0) vs;
        Done (max_degree q)
  | _, _ => Done 0
  end.

Definition quorum_degree (l : Linearizer) (target : NodeId) : run N :=
  quorum_degree_with (S (S (size (deps l)))) l target.
End Linearizer.
