(* ===== verification/LinearizerDag.v ===== *)
(** * [autobase]: the DAG a linearizer holds

    The invariant of [Linearizer] under [add] and the reconfigurations: the
    stored dependencies are closed and acyclic, [dependents] is their converse,
    every writer's nodes are an unbroken chain.  The state is then a function of
    the set of delivered events, so replicas converge whatever the delivery
    order. *)
From S2P Require Import Prelude Linearizer.

Module LinearizerDag.
Import Linearizer.

Definition deps_of (l : Linearizer) (n : NodeId) : gset NodeId := default ∅ (deps l !! n).
Definition dependents_of (l : Linearizer) (n : NodeId) : gset NodeId := default ∅ (dependents l !! n).

(** A list of stored nodes in which every dependency of a node comes before it. *)
Definition causal (l : Linearizer) (o : list NodeId) : Prop :=
  NoDup o /\
  forall i n, o !! i = Some n -> n ∈ dom (deps l) /\ forall d, d ∈ deps_of l n -> d ∈ take i o.

Record wf (l : Linearizer) : Prop := mkWf {
  wf_dom : dom (dependents l) = dom (deps l);
  wf_converse : forall n d, n ∈ dependents_of l d <-> d ∈ deps_of l n;
  wf_order : exists o, causal l o /\ forall n, n ∈ o <-> n ∈ dom (deps l);
  wf_chain : forall k s, mkNode k (s + 1) ∈ dom (deps l) -> mkNode k s ∈ deps_of l (mkNode k (s + 1));
  wf_next : forall k s, mkNode k s ∈ dom (deps l) <-> s < expected_seq l k;
  wf_next_pos : forall k, next_seq l !! k <> Some 0 }.

(** ** Small facts *)

Lemma contains_spec l n : contains l n = true <-> n ∈ dom (deps l).
Proof. unfold contains. by rewrite bool_decide_eq_true, elem_of_dom. Qed.

Lemma contains_false l n : contains l n = false <-> n ∉ dom (deps l).
Proof. rewrite <- contains_spec. by destruct (contains l n). Qed.

Lemma deps_of_some l n ds : deps l !! n = Some ds -> deps_of l n = ds.
Proof. intros E. unfold deps_of. by rewrite E. Qed.

Lemma deps_of_dom l n d : d ∈ deps_of l n -> n ∈ dom (deps l).
Proof.
  unfold deps_of. intros Hd. apply elem_of_dom. destruct (deps l !! n); [by eexists|set_solver].
Qed.

Lemma missing_head_none l hs : missing_head l hs = None <-> forall h, h ∈ hs -> h ∈ dom (deps l).
Proof.
  induction hs as [|h hs IH]; cbn [missing_head]; [set_solver|].
  destruct (contains l h) eqn:E; cbn [negb].
  - apply contains_spec in E. rewrite IH. set_solver.
  - apply contains_false in E. split; [done|]. intros Hh. destruct E. apply Hh. by left.
Qed.

Lemma missing_head_some l hs h : missing_head l hs = Some h -> h ∈ hs /\ h ∉ dom (deps l).
Proof.
  induction hs as [|x hs IH]; cbn [missing_head]; [done|].
  destruct (contains l x) eqn:E; cbn [negb].
  - intros [? ?]%IH. split; [by right|done].
  - intros [= <-]. apply contains_false in E. split; [by left|done].
Qed.

Lemma causal_nodes l o n : causal l o -> n ∈ o -> n ∈ dom (deps l).
Proof. intros [_ Hc] [i Hi]%list_elem_of_lookup. by apply (Hc i n). Qed.

Lemma causal_deps l o n d : causal l o -> n ∈ o -> d ∈ deps_of l n -> d ∈ o.
Proof.
  intros [_ Hc] [i Hi]%list_elem_of_lookup Hd. apply (Hc i n) in Hd; [|done].
  by eapply elem_of_take in Hd as (j & Hj & _); eapply list_elem_of_lookup_2.
Qed.

Lemma causal_nil l : causal l [].
Proof. split; [constructor|]. intros i n. by rewrite lookup_nil. Qed.

(** Causal lists grow by causal extensions. *)
Lemma causal_app l o1 o2 :
  causal l o1 -> NoDup o2 -> (forall n, n ∈ o2 -> n ∉ o1) ->
  (forall i n, o2 !! i = Some n ->
     n ∈ dom (deps l) /\ forall d, d ∈ deps_of l n -> d ∈ o1 \/ d ∈ take i o2) ->
  causal l (o1 ++ o2).
Proof.
  intros [Hnd Hc] Hnd2 Hdisj Hc2. split.
  - apply NoDup_app. split_and!; [done|set_solver|done].
  - intros i n [Hi|[Hge Hi]]%lookup_app_Some.
    + destruct (Hc i n Hi) as [Hn Hd]. split; [done|]. intros d ?%Hd.
      apply lookup_lt_Some in Hi. by rewrite take_app_le by lia.
    + destruct (Hc2 _ n Hi) as [Hn Hd]. split; [done|]. intros d Hin%Hd.
      rewrite take_app, take_ge by lia. set_solver.
Qed.

Lemma causal_snoc l o n :
  causal l o -> n ∉ o -> n ∈ dom (deps l) -> (forall d, d ∈ deps_of l n -> d ∈ o) ->
  causal l (o ++ [n]).
Proof.
  intros Hc Hn Hdom Hd. apply causal_app; [done|apply NoDup_singleton|set_solver|].
  intros [|i] m E; simplify_eq/=. split; [done|]. intros d ?%Hd. by left.
Qed.

Lemma causal_take l o k : causal l o -> causal l (take k o).
Proof.
  intros [Hnd Hc]. split; [rewrite <- (take_drop k o) in Hnd; by apply NoDup_app in Hnd as [? _]|].
  intros i n [Hi Hlt]%lookup_take_Some. destruct (Hc i n Hi) as [Hn Hd]. split; [done|].
  intros d ?%Hd. rewrite take_take. by rewrite Nat.min_l by lia.
Qed.

(** ** Adding a node *)

Lemma dep_set_spec node hs d :
  d ∈ dep_set node hs <->
  d <> node /\ (d ∈ hs \/ (0 < seq node /\ d = mkNode (key node) (seq node - 1))).
Proof.
  unfold dep_set. destruct (N.ltb_spec 0 (seq node)); set_solver by lia.
Qed.

Lemma add_dependents_lookup node ds m d :
  (forall d', d' ∈ ds -> is_Some (m !! d')) -> NoDup ds ->
  foldl (add_dependent node) m ds !! d
  = if decide (d ∈ ds) then Some ({[ node ]} ∪ default ∅ (m !! d)) else m !! d.
Proof.
  revert m. induction ds as [|x ds IH]; intros m Hm Hnd; [by rewrite decide_False by set_solver|].
  apply NoDup_cons in Hnd as [Hx Hnd]. cbn [foldl]. rewrite IH; [|unfold add_dependent|done].
  2: { intros d' Hd'. rewrite lookup_insert_ne by set_solver. apply Hm. by right. }
  unfold add_dependent. destruct (decide (d = x)) as [->|Hne].
  - rewrite decide_False, decide_True, lookup_insert_eq by set_solver. done.
  - rewrite lookup_insert_ne by done. destruct (decide (d ∈ ds)).
    + by rewrite decide_True by set_solver.
    + by rewrite decide_False by set_solver.
Qed.

(** What a successful [add] leaves. *)
Lemma add_ok l node hs l' :
  add l node hs = (l', Ok tt) ->
  node ∉ dom (deps l) /\ seq node = expected_seq l (key node) /\
  (forall h, h ∈ hs -> h ∈ dom (deps l)) /\
  deps l' = <[node := dep_set node hs]> (deps l) /\
  next_seq l' = <[key node := seq node + 1]> (next_seq l) /\
  indexers l' = indexers l /\ base l' = base l /\ base_clock l' = base_clock l /\
  dependents l' = let dts := foldl (add_dependent node) (dependents l) (bset_list (dep_set node hs)) in
                  match dts !! node with Some _ => dts | None => <[node := ∅]> dts end.
Proof.
  unfold add. destruct (contains l node) eqn:Ec; [done|]. apply contains_false in Ec.
  destruct (N.eqb_spec (seq node) (expected_seq l (key node))) as [Es|]; cbn [negb]; [|done].
  destruct (missing_head l hs) eqn:Eh; [done|]. rewrite missing_head_none in Eh.
  intros [= <-]. cbn. done.
Qed.

Lemma dep_set_stored l node hs d :
  wf l -> seq node = expected_seq l (key node) -> (forall h, h ∈ hs -> h ∈ dom (deps l)) ->
  d ∈ dep_set node hs -> d ∈ dom (deps l).
Proof.
  intros Hw Es Hh [_ [Hd|[Hp ->]]]%dep_set_spec; [by apply Hh|].
  apply (wf_next l Hw). lia.
Qed.

(** The dependents after an [add]: the old ones, and the node under each of its
    dependencies. *)
Lemma add_dependents l node hs l' d :
  wf l -> add l node hs = (l', Ok tt) ->
  dependents l' !! d =
    if decide (d = node) then Some ∅
    else if decide (d ∈ dep_set node hs) then Some ({[ node ]} ∪ dependents_of l d)
    else dependents l !! d.
Proof.
  intros Hw (Hn & Es & Hh & _ & _ & _ & _ & _ & ->)%add_ok. cbn zeta.
  assert (Hst : forall d', d' ∈ bset_list (dep_set node hs) -> is_Some (dependents l !! d')).
  { intros d' Hd'%bset_list_elem. apply elem_of_dom. rewrite (wf_dom l Hw).
    by eapply dep_set_stored. }
  assert (Hself : node ∉ dep_set node hs) by (rewrite dep_set_spec; tauto).
  assert (Hnone : foldl (add_dependent node) (dependents l) (bset_list (dep_set node hs)) !! node = None).
  { rewrite add_dependents_lookup, decide_False by
      (done || apply bset_list_nodup || by rewrite bset_list_elem).
    apply not_elem_of_dom. by rewrite (wf_dom l Hw). }
  rewrite Hnone. destruct (decide (d = node)) as [->|Hne]; [by rewrite lookup_insert_eq|].
  rewrite lookup_insert_ne, add_dependents_lookup by (done || apply bset_list_nodup).
  destruct (decide (d ∈ dep_set node hs)).
  - by rewrite decide_True by (by rewrite bset_list_elem).
  - by rewrite decide_False by (by rewrite bset_list_elem).
Qed.

Lemma deps_of_add l node hs l' n :
  add l node hs = (l', Ok tt) ->
  deps_of l' n = if decide (n = node) then dep_set node hs else deps_of l n.
Proof.
  intros (_ & _ & _ & E & _)%add_ok. unfold deps_of. rewrite E. case_decide as En.
  - subst. by rewrite lookup_insert_eq.
  - by rewrite lookup_insert_ne.
Qed.

(** A list that was causal stays so: stored nodes never change. *)
Lemma causal_add l node hs l' o :
  add l node hs = (l', Ok tt) -> causal l o -> causal l' o.
Proof.
  intros Ha [Hnd Hc]. split; [done|]. intros i n Hi. destruct (Hc i n Hi) as [Hn Hd].
  pose proof (add_ok _ _ _ _ Ha) as (Hnew & _ & _ & E & _). split; [rewrite E; set_solver|].
  rewrite (deps_of_add l node hs l' n Ha), decide_False by set_solver. done.
Qed.

Lemma expected_seq_add l node hs l' k :
  add l node hs = (l', Ok tt) ->
  expected_seq l' k = if decide (k = key node) then seq node + 1 else expected_seq l k.
Proof.
  intros (_ & _ & _ & _ & E & _)%add_ok. unfold expected_seq. rewrite E. case_decide as Ek.
  - subst. by rewrite lookup_insert_eq.
  - by rewrite lookup_insert_ne.
Qed.

Lemma dependents_of_add l node hs l' n d :
  wf l -> add l node hs = (l', Ok tt) ->
  n ∈ dependents_of l' d <-> (n = node /\ d ∈ dep_set node hs) \/ n ∈ dependents_of l d.
Proof.
  intros Hw Ha. unfold dependents_of at 1. rewrite (add_dependents l node hs l' d Hw Ha).
  pose proof (add_ok _ _ _ _ Ha) as (Hnew & _ & _ & _). case_decide as Ed.
  - subst d. assert (node ∉ dep_set node hs) by (rewrite dep_set_spec; tauto).
    assert (dependents_of l node = ∅).
    { unfold dependents_of. by rewrite (proj1 (not_elem_of_dom _ _)) by (by rewrite (wf_dom l Hw)). }
    set_solver.
  - case_decide; cbn; [set_solver|]. fold (dependents_of l d). set_solver.
Qed.

Lemma wf_add l node hs l' : wf l -> add l node hs = (l', Ok tt) -> wf l'.
Proof.
  intros Hw Ha. pose proof (add_ok _ _ _ _ Ha) as (Hnew & Es & Hh & Ed & En & _).
  assert (Hdom : dom (deps l') = {[ node ]} ∪ dom (deps l)) by (rewrite Ed; set_solver).
  split.
  - apply set_eq. intros d. rewrite elem_of_dom, (add_dependents l node hs l' d Hw Ha), Hdom.
    pose proof (dep_set_stored l node hs d Hw Es Hh).
    repeat case_decide; [set_solver..|]. rewrite <- elem_of_dom, (wf_dom l Hw). set_solver.
  - intros n d. rewrite (dependents_of_add l node hs l' n d Hw Ha), (deps_of_add l node hs l' n Ha).
    rewrite (wf_converse l Hw). case_decide as En'; [subst|naive_solver].
    split; [intros [[_ ?]|Hd]; [done|]|by left]. by apply deps_of_dom in Hd.
  - destruct (wf_order l Hw) as (o & Hc & Ho). exists (o ++ [node]). split; [|set_solver].
    apply causal_snoc; [by eapply causal_add|set_solver..|].
    intros d. rewrite (deps_of_add l node hs l' node Ha), decide_True by done.
    intros Hd. apply Ho. by eapply dep_set_stored.
  - intros k s. rewrite Hdom, (deps_of_add l node hs l' _ Ha). intros Hks. case_decide as E.
    + apply dep_set_spec. subst node. cbn [key seq]. split; [intros [= ?]; lia|]. right.
      split; [lia|]. f_equal. lia.
    + apply (wf_chain l Hw). set_solver.
  - intros k s. rewrite Hdom, (expected_seq_add l node hs l' k Ha), elem_of_union, elem_of_singleton.
    rewrite (wf_next l Hw). case_decide as E; [subst k; rewrite <- Es|].
    + split; [intros [<-|?]; cbn; lia|]. intros Hs. destruct (N.eq_dec s (seq node)) as [->|]; [|right; lia].
      left. by destruct node.
    + split; [intros [<-|?]; [done|done]|by right].
  - intros k. rewrite En. destruct (decide (k = key node)) as [->|].
    + rewrite lookup_insert_eq. intros [= ?]. lia.
    + rewrite lookup_insert_ne by done. apply (wf_next_pos l Hw).
Qed.

Lemma wf_empty ix b c : wf (mkLin ∅ ∅ ∅ ix b c).
Proof.
  split; cbn; try done.
  - exists []. split; [apply causal_nil|set_solver].
  - intros k s. unfold expected_seq. cbn. rewrite lookup_empty. cbn. split; [set_solver|lia].
Qed.

(** ** The state is a function of the delivered events *)

Lemma wf_dependents l d : wf l -> d ∈ dom (deps l) ->
  exists X, dependents l !! d = Some X /\ forall n, n ∈ X <-> d ∈ deps_of l n.
Proof.
  intros Hw Hd. rewrite <- (wf_dom l Hw) in Hd. apply elem_of_dom in Hd as [X E]. exists X.
  split; [done|]. intros n. rewrite <- (wf_converse l Hw). unfold dependents_of. by rewrite E.
Qed.

Lemma wf_next_some l k : wf l -> next_seq l !! k = if expected_seq l k =? 0 then None else Some (expected_seq l k).
Proof.
  intros Hw. pose proof (wf_next_pos l Hw k) as Hp. unfold expected_seq.
  destruct (next_seq l !! k) as [s|]; cbn; [|done]. destruct (N.eqb_spec s 0); congruence.
Qed.

(** Only the dependencies are data; the rest of the DAG follows from them. *)
Lemma wf_unique l1 l2 :
  wf l1 -> wf l2 -> deps l1 = deps l2 -> indexers l1 = indexers l2 -> base l1 = base l2 ->
  base_clock l1 = base_clock l2 -> l1 = l2.
Proof.
  intros W1 W2 Ed Ei Eb Ec.
  assert (Hdep : dependents l1 = dependents l2).
  { apply map_eq. intros d. destruct (decide (d ∈ dom (deps l1))) as [Hd|Hd].
    - destruct (wf_dependents l1 d W1 Hd) as (X1 & -> & H1).
      rewrite Ed in Hd. destruct (wf_dependents l2 d W2 Hd) as (X2 & -> & H2).
      f_equal. apply set_eq. intros n. rewrite H1, H2. unfold deps_of. by rewrite Ed.
    - rewrite !(proj1 (not_elem_of_dom _ _)); [done|rewrite (wf_dom l2 W2), <- Ed|rewrite (wf_dom l1 W1)]; done. }
  assert (Hex : forall k, expected_seq l1 k = expected_seq l2 k).
  { intros k. apply N.le_antisymm; apply N.le_ngt; intros Hlt.
    - apply (wf_next l1 W1) in Hlt. rewrite Ed in Hlt. apply (wf_next l2 W2) in Hlt. lia.
    - apply (wf_next l2 W2) in Hlt. rewrite <- Ed in Hlt. apply (wf_next l1 W1) in Hlt. lia. }
  assert (Hnext : next_seq l1 = next_seq l2).
  { apply map_eq. intros k. by rewrite !wf_next_some, Hex. }
  destruct l1, l2; cbn in *; by subst.
Qed.

(** A replica that delivers events until one is refused. *)
Fixpoint deliver (l : Linearizer) (evs : list (NodeId * list NodeId)) : result AddError Linearizer :=
  match evs with
  | [] => Ok l
  | (node, hs) :: evs' =>
      match add l node hs with
      | (l, Ok _) => deliver l evs'
      | (_, Err e) => Err e
      end
  end.

Definition event_deps (ev : NodeId * list NodeId) : NodeId * gset NodeId :=
  (ev.1, dep_set ev.1 ev.2).

Lemma deliver_spec l evs l' :
  wf l -> deliver l evs = Ok l' ->
  wf l' /\ deps l' = list_to_map (event_deps <$> evs) ∪ deps l /\ NoDup evs.*1
  /\ (forall n, n ∈ evs.*1 -> n ∉ dom (deps l))
  /\ indexers l' = indexers l /\ base l' = base l /\ base_clock l' = base_clock l.
Proof.
  revert l. induction evs as [|[node hs] evs IH]; intros l Hw; cbn [deliver].
  { intros [= <-]. cbn. rewrite (left_id_L ∅ (∪)). split_and!; try done; [constructor|set_solver]. }
  destruct (add l node hs) as [l1 [[]|]] eqn:Ea; [|done]. intros Hd.
  pose proof (wf_add l node hs l1 Hw Ea) as W1.
  pose proof (add_ok _ _ _ _ Ea) as (Hnew & _ & _ & Ed & _ & Ei & Eb & Ec & _).
  apply IH in Hd as (W' & Ed' & Hnd & Hfr & Ei' & Eb' & Ec'); [|done].
  rewrite Ed in Ed', Hfr. split_and!; [done| | | |congruence..].
  - rewrite Ed'. cbn. rewrite <- insert_union_r, insert_union_l; [done|].
    apply not_elem_of_list_to_map_1. intros ([n' h'] & E & Hin)%list_elem_of_fmap. cbn in E. subst n'.
    apply list_elem_of_fmap in Hin as ([n2 h2] & E2 & Hin2). injection E2 as -> ->.
    apply (Hfr n2); [apply list_elem_of_fmap; by exists (n2, h2)|set_solver].
  - cbn. apply NoDup_cons. split; [|done]. intros Hin%Hfr. set_solver.
  - cbn. intros n [->|Hin]%elem_of_cons; [done|]. apply Hfr in Hin. set_solver.
Qed.

Lemma deliver_converges l evs1 evs2 l1 l2 :
  wf l -> evs1 ≡ₚ evs2 -> deliver l evs1 = Ok l1 -> deliver l evs2 = Ok l2 -> l1 = l2.
Proof.
  intros Hw Hp (W1 & E1 & N1 & _ & I1 & B1 & C1)%deliver_spec (W2 & E2 & N2 & _ & I2 & B2 & C2)%deliver_spec;
    [|done..].
  apply wf_unique; try congruence. rewrite E1, E2. f_equal.
  apply list_to_map_proper; [|by rewrite Hp].
  rewrite <- list_fmap_compose. exact N1.
Qed.
End LinearizerDag.
