(* ===== verification/LinearizerOrder.v ===== *)
(** * [autobase]: the priority-Kahn order

    [plain_order] and [topo_key_order] are one algorithm: the least ready node is
    emitted until none is left.  [kahn] states what it yields, a permutation of
    the nodes in which every node is the least of those ready at its turn; the
    loops are proved to reach it, with a round for each node. *)
From S2P Require Import Prelude Linearizer LinearizerDag.

Module LinearizerOrder.
Import Linearizer LinearizerDag.

(** The specification: [o] lists [nodes], and at every turn it takes the least
    node whose dependencies inside [nodes] are listed (those in [emitted] count
    as met). *)
Definition ready (l : Linearizer) (nodes emitted : gset NodeId) (done : list NodeId) (n : NodeId) : Prop :=
  n ∈ nodes /\ n ∉ done /\ forall d, d ∈ unmet l nodes emitted n -> d ∈ done.

Definition kahn (l : Linearizer) (nodes emitted : gset NodeId) (o : list NodeId) : Prop :=
  NoDup o /\ (forall n, n ∈ o <-> n ∈ nodes) /\
  forall i n, o !! i = Some n ->
    ready l nodes emitted (take i o) n
    /\ forall m, ready l nodes emitted (take i o) m -> key_le n m.

Lemma elem_of_unmet l nodes emitted n d :
  d ∈ unmet l nodes emitted n <-> d ∈ deps_of l n /\ d ∈ nodes /\ d ∉ emitted.
Proof. unfold unmet, deps_of. rewrite elem_of_filter. tauto. Qed.

(** The specification determines the list. *)
Lemma kahn_unique l nodes emitted o1 o2 :
  kahn l nodes emitted o1 -> kahn l nodes emitted o2 -> o1 = o2.
Proof.
  intros (N1 & E1 & K1) (N2 & E2 & K2).
  assert (Hlen : length o1 = length o2).
  { apply Permutation_length, NoDup_Permutation; [done..|]. intros n. by rewrite E1, E2. }
  assert (Hpre : forall i, take i o1 = take i o2).
  { induction i as [|i IH]; [by rewrite !take_0|].
    destruct (o1 !! i) as [n|] eqn:L1.
    - destruct (lookup_lt_is_Some_2 o2 i) as [m L2]; [rewrite <- Hlen; by eapply lookup_lt_Some|].
      rewrite (take_S_r _ _ _ L1), (take_S_r _ _ _ L2), IH. do 2 f_equal.
      destruct (K1 i n L1) as [R1 M1], (K2 i m L2) as [R2 M2]. rewrite IH in *.
      apply (anti_symm key_le); [by apply M1|by apply M2].
    - apply lookup_ge_None in L1. rewrite !take_ge in IH |- * by lia. done. }
  rewrite <- (firstn_all o1), <- (firstn_all o2), <- Hlen. apply Hpre.
Qed.

(** ** Steps of the loop *)

Lemma pop_first_none s : pop_first s = None <-> s = ∅.
Proof.
  unfold pop_first. destruct (bset_list s) as [|x r] eqn:E.
  - split; [intros _|done]. apply set_eq. intros n. rewrite <- bset_list_elem, E. set_solver.
  - split; [done|]. intros ->. pose proof (bset_list_elem (K:=NodeId) ∅ x) as Hx. rewrite E in Hx. set_solver.
Qed.

Lemma pop_first_some s v s' :
  pop_first s = Some (v, s') -> v ∈ s /\ s' = s ∖ {[ v ]} /\ forall m, m ∈ s -> key_le v m.
Proof.
  unfold pop_first. destruct (bset_list s) as [|x r] eqn:E; [done|]. intros [= -> <-].
  pose proof (bset_list_elem s) as He. pose proof (bset_list_sorted s) as Hs. rewrite E in He, Hs.
  split_and!; [apply He; by left|done|].
  intros m [->|Hm]%He%elem_of_cons; [reflexivity|].
  apply StronglySorted_inv in Hs as [_ Hall]. rewrite Forall_forall in Hall. by apply Hall.
Qed.

(** One pass over the children of the emitted node. *)
Definition relaxed (indeg : gmap NodeId N) (cs : list NodeId) (n : NodeId) : option N :=
  (λ d, if decide (n ∈ cs) then wsub64 d 1 else d) <$> indeg !! n.

Lemma relaxed_cons_ne indeg c cs n : n <> c -> relaxed indeg (c :: cs) n = relaxed indeg cs n.
Proof.
  intros Hne. unfold relaxed. destruct (indeg !! n); cbn [fmap option_fmap option_map]; [|done].
  by rewrite (decide_ext (n ∈ c :: cs) (n ∈ cs)) by (rewrite elem_of_cons; tauto).
Qed.

Lemma relaxed_insert_ne indeg c cs n d : n <> c -> relaxed (<[c := d]> indeg) cs n = relaxed indeg cs n.
Proof. intros Hne. unfold relaxed. by rewrite lookup_insert_ne. Qed.

Lemma relaxed_none indeg cs n : n ∉ cs -> relaxed indeg cs n = indeg !! n.
Proof.
  intros Hn. unfold relaxed. destruct (indeg !! n); cbn [fmap option_fmap option_map]; [|done].
  by rewrite decide_False.
Qed.

Lemma relaxed_head indeg cs c d : indeg !! c = Some d -> relaxed indeg (c :: cs) c = Some (wsub64 d 1).
Proof.
  intros E. unfold relaxed. rewrite E. cbn [fmap option_fmap option_map].
  by rewrite decide_True by (by left).
Qed.

Lemma relax_fold cs indeg fr indeg' fr' :
  NoDup cs -> foldl relax (indeg, fr) cs = (indeg', fr') ->
  (forall n, indeg' !! n = relaxed indeg cs n) /\
  (forall n, n ∈ fr' <-> n ∈ fr \/ (n ∈ cs /\ relaxed indeg cs n = Some 0)).
Proof.
  intros Hnd. revert indeg fr. induction Hnd as [|c cs Hc Hnd IH]; intros indeg fr; cbn [foldl].
  { intros [= <- <-]. split; intros n; [by rewrite relaxed_none by apply not_elem_of_nil|].
    rewrite elem_of_nil. tauto. }
  unfold relax at 2. destruct (indeg !! c) as [d|] eqn:Ec; intros [IH1 IH2]%IH; split; intros n;
    rewrite ?IH1, ?IH2, ?elem_of_cons; destruct (decide (n = c)) as [->|Hne].
  - by rewrite relaxed_none, lookup_insert_eq, (relaxed_head _ _ _ _ Ec).
  - by rewrite relaxed_insert_ne, relaxed_cons_ne.
  - rewrite (relaxed_head _ _ _ _ Ec). destruct (N.eqb_spec (wsub64 d 1) 0) as [->|];
      rewrite ?elem_of_union, ?elem_of_singleton; [tauto|]. intuition congruence.
  - rewrite relaxed_insert_ne, relaxed_cons_ne by done.
    destruct (wsub64 d 1 =? 0); rewrite ?elem_of_union, ?elem_of_singleton; tauto.
  - unfold relaxed. by rewrite Ec.
  - by rewrite relaxed_cons_ne.
  - unfold relaxed. rewrite Ec. cbn [fmap option_fmap option_map]. intuition congruence.
  - rewrite relaxed_cons_ne by done. tauto.
Qed.

Lemma wsub64_pred n : (1 <= n)%nat -> N.of_nat n < two64 -> wsub64 (N.of_nat n) 1 = N.of_nat (n - 1).
Proof.
  intros Hn Hlt. unfold wsub64, wrap64. replace (N.of_nat n + (two64 - 1)) with (N.of_nat (n - 1) + 1 * two64).
  - rewrite N.Div0.mod_add. apply N.mod_small. lia.
  - unfold two64 in *. lia.
Qed.

(** ** The loop invariant *)

Section Kahn.
Context (l : Linearizer) (Hwf : wf l) (Hsize : N.of_nat (size (deps l)) < two64).
Context (nodes emitted : gset NodeId).
Context (Hnodes : nodes ⊆ dom (deps l)) (Hdisj : forall n, n ∈ nodes -> n ∉ emitted).

Definition left_of (out : list NodeId) (n : NodeId) : gset NodeId :=
  unmet l nodes emitted n ∖ list_to_set out.

Record kinv (indeg : gmap NodeId N) (fr : gset NodeId) (out : list NodeId) : Prop := mkKinv {
  k_dom : forall n, is_Some (indeg !! n) <-> n ∈ nodes;
  k_nodup : NoDup out;
  k_sub : forall n, n ∈ out -> n ∈ nodes;
  k_deg : forall n, n ∈ nodes -> n ∉ out -> indeg !! n = Some (N.of_nat (size (left_of out n)));
  k_frontier : forall n, n ∈ fr <-> ready l nodes emitted out n;
  k_turn : forall i n, out !! i = Some n ->
    ready l nodes emitted (take i out) n
    /\ forall m, ready l nodes emitted (take i out) m -> key_le n m }.

Lemma elem_of_left out n d : d ∈ left_of out n <-> d ∈ unmet l nodes emitted n /\ d ∉ out.
Proof. unfold left_of. by rewrite elem_of_difference, elem_of_list_to_set. Qed.

Lemma left_bound out n : N.of_nat (size (left_of out n)) < two64.
Proof.
  assert (size (left_of out n) <= size (dom (deps l)))%nat; [|rewrite size_dom in *; lia].
  apply subseteq_size. intros d [Hd _]%elem_of_left. apply elem_of_unmet in Hd as (_ & Hd & _). set_solver.
Qed.

Lemma ready_left out n : n ∈ nodes -> n ∉ out -> ready l nodes emitted out n <-> size (left_of out n) = 0%nat.
Proof.
  intros Hn Ho. unfold ready. rewrite size_empty_iff. split.
  - intros (_ & _ & Hr) d. rewrite elem_of_left. set_solver.
  - intros E. split_and!; [done..|]. intros d Hd. destruct (decide (d ∈ out)); [done|].
    exfalso. assert (d ∈ left_of out n) as Hin by (by apply elem_of_left). apply E in Hin. set_solver.
Qed.

(** What emitting [v] does to the unmet dependencies of [n]. *)
Lemma left_step out v n :
  v ∈ nodes -> v ∉ out ->
  size (left_of (out ++ [v]) n)
  = if decide (v ∈ deps_of l n) then (size (left_of out n) - 1)%nat else size (left_of out n).
Proof.
  intros Hv Ho. case_decide as Hd.
  - assert (Hin : v ∈ left_of out n).
    { apply elem_of_left. rewrite elem_of_unmet. split; [|done]. split_and!; [done..|by apply Hdisj]. }
    assert (left_of (out ++ [v]) n = left_of out n ∖ {[ v ]}) as ->.
    { apply set_eq. intros d. rewrite elem_of_difference, !elem_of_left, elem_of_app. set_solver. }
    rewrite size_difference by set_solver. by rewrite size_singleton.
  - f_equal. apply set_eq. intros d. rewrite !elem_of_left, elem_of_app, elem_of_unmet. set_solver.
Qed.

Lemma no_self n : n ∉ deps_of l n.
Proof.
  destruct (wf_order l Hwf) as (o & [Hnd Hc] & Ho). intros Hd.
  pose proof (deps_of_dom _ _ _ Hd) as Hn. apply Ho in Hn as [i Hi]%list_elem_of_lookup.
  apply (Hc i n Hi) in Hd. apply elem_of_take in Hd as (j & Hj & Hlt).
  pose proof (NoDup_lookup _ _ _ _ Hnd Hi Hj). lia.
Qed.

(** A child of a node that is not out is not out either. *)
Lemma child_not_out indeg fr out v n :
  kinv indeg fr out -> v ∈ nodes -> v ∉ out -> v ∈ deps_of l n -> n ∉ out.
Proof.
  intros Hk Hv Ho Hd [i Hi]%list_elem_of_lookup.
  destruct (k_turn _ _ _ Hk i n Hi) as [(_ & _ & Hr) _].
  assert (Hin : v ∈ take i out) by (apply Hr, elem_of_unmet; eauto).
  apply elem_of_take in Hin as (j & Hj & _). by apply list_elem_of_lookup_2 in Hj.
Qed.

Lemma relaxed_step indeg fr out v n :
  kinv indeg fr out -> v ∈ nodes -> v ∉ out -> n ∈ nodes -> n ∉ out ->
  relaxed indeg (bset_list (dependents_of l v)) n = Some (N.of_nat (size (left_of (out ++ [v]) n))).
Proof.
  intros Hk Hv Ho Hn Hno. unfold relaxed. rewrite (k_deg _ _ _ Hk n Hn Hno).
  cbn [fmap option_fmap option_map]. f_equal. rewrite left_step by done.
  rewrite (decide_ext (n ∈ bset_list (dependents_of l v)) (v ∈ deps_of l n))
    by (by rewrite bset_list_elem, (wf_converse l Hwf)).
  case_decide as Hd; [|done]. apply wsub64_pred; [|apply left_bound].
  assert (v ∈ left_of out n) as Hin.
  { apply elem_of_left. rewrite elem_of_unmet. split; [|done]. split_and!; [done..|by apply Hdisj]. }
  apply Nat.le_succ_l, Nat.neq_0_lt_0. intros E%size_empty_iff. apply E in Hin. set_solver.
Qed.

Lemma kinv_step indeg fr out v fr1 indeg' fr' :
  kinv indeg fr out -> pop_first fr = Some (v, fr1) ->
  foldl relax (indeg, fr1) (bset_list (dependents_of l v)) = (indeg', fr') ->
  kinv indeg' fr' (out ++ [v]).
Proof.
  intros Hk (Hvf & -> & Hmin)%pop_first_some Hf.
  apply (k_frontier _ _ _ Hk) in Hvf as Hr. pose proof Hr as (Hv & Ho & _).
  apply relax_fold in Hf as [Hi Hfr]; [|apply bset_list_nodup].
  assert (Hnd : NoDup (out ++ [v])).
  { apply NoDup_app. split_and!; [apply Hk|set_solver|apply NoDup_singleton]. }
  split.
  - intros n. rewrite Hi. unfold relaxed. rewrite fmap_is_Some. apply Hk.
  - done.
  - intros n [?| ->%list_elem_of_singleton]%elem_of_app; [by apply (k_sub _ _ _ Hk)|done].
  - intros n Hn Hno. rewrite Hi. eapply relaxed_step; set_solver.
  - intros n. rewrite Hfr, elem_of_difference, (k_frontier _ _ _ Hk), elem_of_singleton.
    rewrite bset_list_elem, (wf_converse l Hwf). split.
    + intros [[(Hn & Hno & Hu) Hne]|[Hd E]].
      * split_and!; [done|set_solver|]. intros d ?%Hu. set_solver.
      * assert (Hno : n ∉ out) by (by eapply child_not_out).
        assert (Hn : n ∈ nodes).
        { apply (k_dom _ _ _ Hk). unfold relaxed in E. by destruct (indeg !! n). }
        assert (Hne : n <> v) by (intros ->; by apply no_self in Hd).
        rewrite (relaxed_step indeg fr out) in E by done. injection E as E.
        apply ready_left; [done|set_solver|lia].
    + intros (Hn & Hno & Hu). assert (Hno' : n ∉ out) by set_solver.
      assert (Hsz : size (left_of (out ++ [v]) n) = 0%nat) by (by apply ready_left).
      destruct (decide (v ∈ deps_of l n)) as [Hd|Hd].
      * right. split; [done|]. rewrite (relaxed_step indeg fr out) by done. by rewrite Hsz.
      * left. rewrite left_step, decide_False in Hsz by done. split; [|set_solver].
        by apply ready_left.
  - intros i n [Hin|[Hge Hin]]%lookup_app_Some.
    + rewrite take_app_le by (apply lookup_lt_Some in Hin; lia). by apply (k_turn _ _ _ Hk).
    + apply list_lookup_singleton_Some in Hin as [Hi0 <-].
      rewrite take_app_le, take_ge by lia. split; [done|]. intros m Hm.
      apply Hmin. by apply (k_frontier _ _ _ Hk).
Qed.

(** Nothing is ready only when everything is out. *)
Lemma kinv_done indeg out : kinv indeg ∅ out -> kahn l nodes emitted out.
Proof.
  intros Hk. split_and!; [apply Hk| |apply Hk]. intros n. split; [apply Hk|].
  destruct (wf_order l Hwf) as (o & [_ Hc] & Ho). intros Hn.
  assert (Hall : forall i m, o !! i = Some m -> m ∈ nodes -> m ∈ out).
  { induction i as [i IH] using lt_wf_ind. intros m Hm Hmn.
    destruct (decide (m ∈ out)) as [|Hmo]; [done|]. exfalso.
    assert (Hin : m ∈ (∅ : gset NodeId)); [|set_solver].
    apply (k_frontier _ _ _ Hk). split_and!; [done..|].
    intros d (Hd & Hdn & _)%elem_of_unmet. apply (Hc i m Hm) in Hd.
    apply elem_of_take in Hd as (j & Hj & Hlt). by eapply (IH j). }
  assert (Hin : n ∈ o) by (apply Ho; set_solver). apply list_elem_of_lookup in Hin as [i Hi]. by eapply Hall.
Qed.

Lemma out_bound indeg fr out : kinv indeg fr out -> (length out <= size nodes)%nat.
Proof.
  intros Hk. rewrite <- (size_list_to_set (C:=gset NodeId) out) by apply Hk.
  apply subseteq_size. intros n. rewrite elem_of_list_to_set. apply Hk.
Qed.

Lemma topo_loop_kahn f indeg fr out :
  kinv indeg fr out -> (size nodes <= f + length out)%nat ->
  exists o, topo_loop f l indeg fr out = Done o /\ kahn l nodes emitted o.
Proof.
  revert indeg fr out. induction f as [|f IH]; intros indeg fr out Hk Hf; cbn [topo_loop];
    destruct (pop_first fr) as [[v fr1]|] eqn:Ep.
  2, 4: apply pop_first_none in Ep as ->; exists out; split; [done|by eapply kinv_done].
  - apply pop_first_some in Ep as Hp. destruct Hp as (Hv & _). apply (k_frontier _ _ _ Hk) in Hv as (Hvn & Hvo & _).
    exfalso. assert (length (out ++ [v]) <= size nodes)%nat; [|rewrite length_app in *; cbn in *; lia].
    rewrite <- (size_list_to_set (C:=gset NodeId) (out ++ [v])).
    + apply subseteq_size. intros n. rewrite elem_of_list_to_set, elem_of_app, list_elem_of_singleton.
      intros [?| ->]; [by apply (k_sub _ _ _ Hk)|done].
    + apply NoDup_app. split_and!; [apply Hk|set_solver|apply NoDup_singleton].
  - destruct (foldl relax _ _) as [indeg' fr'] eqn:Ef. apply IH.
    + by eapply kinv_step.
    + rewrite length_app. cbn. lia.
Qed.

Lemma lookup_degrees n :
  (set_to_map (λ n, (n, N.of_nat (size (unmet l nodes emitted n)))) nodes : gmap NodeId N) !! n
  = if decide (n ∈ nodes) then Some (N.of_nat (size (unmet l nodes emitted n))) else None.
Proof.
  case_decide as Hn.
  - apply lookup_set_to_map; [by intros y y' _ _ Ey|]. by exists n.
  - apply eq_None_not_Some. intros [d Hd]. apply lookup_set_to_map in Hd; [|by intros y y' _ _ Ey].
    destruct Hd as (y & Hy & [= -> _]). done.
Qed.

Lemma topo_key_order_kahn :
  exists o, topo_key_order l nodes emitted = Done o /\ kahn l nodes emitted o.
Proof.
  unfold topo_key_order. cbn zeta. apply topo_loop_kahn; [|cbn; lia].
  assert (Hl : forall n, left_of [] n = unmet l nodes emitted n).
  { intros n. apply set_eq. intros d. rewrite elem_of_left. set_solver. }
  split.
  - intros n. rewrite lookup_degrees. case_decide; split; (done || by intros [? ?]).
  - constructor.
  - set_solver.
  - intros n Hn _. by rewrite lookup_degrees, decide_True, Hl.
  - intros n. unfold zero_degree. rewrite elem_of_dom. unfold is_Some.
    setoid_rewrite map_lookup_filter_Some. setoid_rewrite lookup_degrees. cbn.
    destruct (decide (n ∈ nodes)) as [Hn|Hn].
    + rewrite ready_left, Hl by set_solver. split; [intros (x & [= <-] & ?); lia|].
      intros E. eexists. split; [done|]. by rewrite E.
    + split; [by intros (x & ? & _)|by intros (? & _)].
  - intros i n. by rewrite lookup_nil.
Qed.
End Kahn.

(** ** [plain_order] is the same walk over the whole DAG *)

Lemma relax_keeps st c n : is_Some (st.1 !! n) -> is_Some ((relax st c).1 !! n).
Proof.
  destruct st as [indeg fr]. cbn. intros Hn. destruct (indeg !! c); [|done]. cbn.
  destruct (decide (n = c)) as [->|]; [rewrite lookup_insert_eq; by eexists|by rewrite lookup_insert_ne].
Qed.

Lemma relax_fold_keeps cs st n : is_Some (st.1 !! n) -> is_Some ((foldl relax st cs).1 !! n).
Proof.
  revert st. induction cs as [|c cs IH]; intros st Hn; [done|]. by apply IH, relax_keeps.
Qed.

Lemma relax_expect_some st c : is_Some (st.1 !! c) -> relax_expect st c = Done (relax st c).
Proof. destruct st as [indeg fr]. cbn. by intros [d ->]. Qed.

Lemma foldM_relax cs st :
  (forall c, c ∈ cs -> is_Some (st.1 !! c)) -> foldM relax_expect st cs = Done (foldl relax st cs).
Proof.
  revert st. induction cs as [|c cs IH]; intros st Hc; [done|]. cbn [foldM foldl].
  rewrite relax_expect_some by (apply Hc; by left). rsimpl. apply IH.
  intros c' Hc'. apply relax_keeps, Hc. by right.
Qed.

Lemma plain_loop_topo f l indeg fr out :
  wf l -> (forall n, n ∈ dom (deps l) -> is_Some (indeg !! n)) ->
  plain_loop f l indeg fr out = topo_loop f l indeg fr out.
Proof.
  intros Hw. revert indeg fr out. induction f as [|f IH]; intros indeg fr out Hi; cbn [plain_loop topo_loop];
    destruct (pop_first fr) as [[v fr1]|]; try done.
  set (cs := bset_list (default ∅ (dependents l !! v))).
  assert (Hcs : forall c, c ∈ cs -> is_Some (indeg !! c)).
  { intros c Hc%bset_list_elem. apply Hi. change (c ∈ dependents_of l v) in Hc.
    apply (wf_converse l Hw) in Hc. by eapply deps_of_dom. }
  assert (Hm : match dependents l !! v with
               | Some children => foldM relax_expect (indeg, fr1) (bset_list children)
               | None => Done (indeg, fr1)
               end = Done (foldl relax (indeg, fr1) cs)).
  { unfold cs in *. destruct (dependents l !! v); [by apply foldM_relax|done]. }
  rewrite Hm. rsimpl. pose proof (relax_fold_keeps cs (indeg, fr1)) as Hk.
  destruct (foldl relax (indeg, fr1) cs) as [indeg' fr']. apply IH. intros n Hn. by apply Hk, Hi.
Qed.

Lemma wf_closed l n d : wf l -> d ∈ deps_of l n -> d ∈ dom (deps l).
Proof.
  intros Hw Hd. destruct (wf_order l Hw) as (o & Hc & Ho). apply Ho. eapply causal_deps; [done| |done].
  apply Ho. by eapply deps_of_dom.
Qed.

Lemma unmet_all l n : wf l -> unmet l (dom (deps l)) ∅ n = deps_of l n.
Proof.
  intros Hw. apply set_eq. intros d. rewrite elem_of_unmet. split; [tauto|]. intros Hd.
  split_and!; [done|by eapply wf_closed|set_solver].
Qed.

Lemma plain_order_topo l : wf l -> plain_order l = topo_key_order l (dom (deps l)) ∅.
Proof.
  intros Hw. unfold plain_order, topo_key_order. cbn zeta.
  assert (E : (λ d : gset NodeId, N.of_nat (size d)) <$> deps l
    = set_to_map (λ n, (n, N.of_nat (size (unmet l (dom (deps l)) ∅ n)))) (dom (deps l))).
  { apply map_eq. intros n. rewrite lookup_degrees, lookup_fmap, unmet_all by done.
    unfold deps_of. case_decide as Hn.
    - apply elem_of_dom in Hn as [ds ->]. done.
    - by apply not_elem_of_dom in Hn as ->. }
  rewrite <- E, size_dom. apply plain_loop_topo; [done|]. intros n. rewrite lookup_fmap, elem_of_dom.
  by intros [ds ->].
Qed.

Lemma plain_order_kahn l :
  wf l -> N.of_nat (size (deps l)) < two64 ->
  exists o, plain_order l = Done o /\ kahn l (dom (deps l)) ∅ o.
Proof.
  intros Hw Hs. rewrite plain_order_topo by done. apply topo_key_order_kahn; set_solver.
Qed.

(** A Kahn order after the emitted nodes is causal when it follows them. *)
Lemma kahn_causal l nodes emitted o1 o2 :
  wf l -> causal l o1 -> (forall n, n ∈ o1 <-> n ∈ emitted) -> nodes ⊆ dom (deps l) ->
  (forall n, n ∈ nodes -> n ∉ emitted) ->
  (forall n d, n ∈ nodes -> d ∈ deps_of l n -> d ∈ nodes \/ d ∈ emitted) ->
  kahn l nodes emitted o2 -> causal l (o1 ++ o2).
Proof.
  intros Hw Hc He Hn Hdisj Hcl (Hnd & Hin & Hk). apply causal_app; [done..| |].
  - intros n Hn2%Hin Hn1%He. by eapply Hdisj.
  - intros i n Hi. destruct (Hk i n Hi) as [(Hnn & _ & Hu) _]. split; [by apply Hn|].
    intros d Hd. destruct (decide (d ∈ emitted)) as [|Hde]; [left; by apply He|right].
    apply Hu, elem_of_unmet. split_and!; [done| |done]. by destruct (Hcl n d Hnn Hd).
Qed.
End LinearizerOrder.
