(* ===== verification/LinearizerReach.v ===== *)
(** * [autobase]: reachability and vector clocks

    [sees] decides reachability in the DAG and [clock] measures it: for a stored
    node, the clock includes a writer's node exactly when the node sees it.  Both
    walks mark a node when it is pushed, so the number of stored dependencies
    bounds the rounds. *)
From S2P Require Import Prelude Linearizer LinearizerDag LinearizerOrder.

Module LinearizerReach.
Import Linearizer LinearizerDag LinearizerOrder.

Definition edge (l : Linearizer) (a b : NodeId) : Prop := b ∈ deps_of l a.
Abbreviation reaches l := (rtc (edge l)).

(** ** The scan of one node's dependencies *)

Lemma clock_scan_spec ds st vis :
  exists new_, clock_scan ds st vis = (new_ ++ st, list_to_set new_ ∪ vis) /\ NoDup new_
    /\ forall d, d ∈ new_ <-> d ∈ ds /\ d ∉ vis.
Proof.
  revert st vis. induction ds as [|d ds IH]; intros st vis; cbn [clock_scan].
  { exists []. split_and!; [f_equal; set_solver|constructor|set_solver]. }
  case_bool_decide as Hd.
  - destruct (IH st vis) as (new_ & E & Hnd & Hin). exists new_. split_and!; [done..|].
    intros x. rewrite Hin, elem_of_cons. split; [tauto|]. intros [[->|?] ?]; tauto.
  - destruct (IH (d :: st) ({[ d ]} ∪ vis)) as (new_ & E & Hnd & Hin).
    exists (new_ ++ [d]). rewrite E, <- app_assoc. split_and!.
    + f_equal. rewrite list_to_set_app_L. clear. set_solver.
    + apply NoDup_app. split_and!; [done| |apply NoDup_singleton].
      intros x [_ Hx]%Hin ->%list_elem_of_singleton. by apply Hx, elem_of_union_l, elem_of_singleton.
    + intros x. rewrite elem_of_app, Hin, list_elem_of_singleton, elem_of_cons, elem_of_union, elem_of_singleton.
      destruct (decide (x = d)) as [->|]; tauto.
Qed.

Lemma sees_scan_spec b ds st vis :
  sees_scan b ds st vis = if decide (b ∈ ds) then None else Some (clock_scan ds st vis).
Proof.
  revert st vis. induction ds as [|d ds IH]; intros st vis; cbn [sees_scan clock_scan].
  { by rewrite decide_False by set_solver. }
  case_bool_decide as Hd; [by rewrite decide_True by set_solver|].
  assert (b ∈ d :: ds <-> b ∈ ds) by set_solver.
  rewrite (decide_ext (b ∈ d :: ds) (b ∈ ds)) by done. case_bool_decide; apply IH.
Qed.

(** ** Bounds *)

Definition targets (l : Linearizer) : gset NodeId :=
  list_to_set (concat ((λ e : NodeId * gset NodeId, elements e.2) <$> bmap_list (deps l))).

Lemma targets_spec l n d : d ∈ deps_of l n -> d ∈ targets l.
Proof.
  intros Hd. unfold targets. rewrite elem_of_list_to_set, list_elem_of_In, in_concat.
  exists (elements (deps_of l n)). rewrite <- !list_elem_of_In, elem_of_elements. split; [|done].
  unfold deps_of in *. destruct (deps l !! n) as [ds|] eqn:E; [|set_solver]. cbn in Hd |- *.
  apply list_elem_of_fmap. exists (n, ds). split; [done|]. by apply bmap_list_elem.
Qed.

Lemma size_list_to_set_le (o : list NodeId) : (size (list_to_set o : gset NodeId) <= length o)%nat.
Proof.
  change (length (elements (list_to_set o : gset NodeId)) <= length o)%nat.
  apply submseteq_length, NoDup_submseteq; [apply NoDup_elements|]. set_solver.
Qed.

Lemma targets_size l : (S (size (targets l)) <= edge_fuel l)%nat.
Proof.
  unfold targets, edge_fuel. etrans; [apply le_n_S, size_list_to_set_le|]. apply le_n_S.
  generalize (bmap_list (deps l)). intros o. induction o as [|e o IH]; [done|].
  cbn. rewrite length_app. change (length (elements e.2)) with (size e.2). lia.
Qed.

(** Marking the new nodes keeps the sum of pushed and unmarked nodes. *)
Lemma scan_measure (T vis : gset NodeId) (new_ st : list NodeId) :
  NoDup new_ -> (forall d, d ∈ new_ -> d ∉ vis) -> list_to_set new_ ∪ vis ⊆ T ->
  (length (new_ ++ st) + (size T - size (list_to_set new_ ∪ vis : gset NodeId))
   = length st + (size T - size vis))%nat.
Proof.
  intros Hnd Hfr Hsub. pose proof (subseteq_size _ _ Hsub) as Hle.
  rewrite size_union, size_list_to_set in * by set_solver. rewrite length_app. lia.
Qed.

Lemma closed_reach l (V : gset NodeId) a b :
  (forall x d, x ∈ V -> d ∈ deps_of l x -> d ∈ V) -> a ∈ V -> reaches l a b -> b ∈ V.
Proof. intros Hcl Ha Hr. induction Hr as [|x y z Hxy _ IH]; [done|]. apply IH. by eapply Hcl. Qed.

(** ** [sees] *)

Record sees_inv (l : Linearizer) (a b : NodeId) (st : list NodeId) (vis : gset NodeId) : Prop := mkSeesInv {
  si_stack : forall x, x ∈ st -> reaches l a x;
  si_fresh : b ∉ vis;
  si_sub : vis ⊆ targets l;
  si_closed : forall x, x ∈ {[ a ]} ∪ vis -> x ∉ st -> forall d, d ∈ deps_of l x -> d ∈ vis;
  si_vis : forall x, x ∈ vis -> reaches l a x }.

Lemma sees_loop_spec l a b f st vis :
  a <> b -> sees_inv l a b st vis ->
  (S (length st + (size (targets l) - size vis)) <= f)%nat ->
  sees_loop f l b st vis = true <-> reaches l a b.
Proof.
  intros Hab. revert st vis. induction f as [|f IH]; intros st vis Hi Hf; [lia|]. cbn [sees_loop].
  destruct st as [|x st].
  { split; [done|]. intros Hr. exfalso.
    assert (Hb : b ∈ {[ a ]} ∪ vis).
    { eapply (closed_reach l _ a); [|set_solver|done]. intros y d Hy Hd.
      apply elem_of_union_r. eapply (si_closed _ _ _ _ _ Hi); [done|set_solver|done]. }
    pose proof (si_fresh _ _ _ _ _ Hi). set_solver. }
  rewrite sees_scan_spec. fold (deps_of l x).
  assert (Hx : reaches l a x) by (apply (si_stack _ _ _ _ _ Hi); by left).
  case_decide as Hb.
  { split; [intros _|done]. rewrite bset_list_elem in Hb. eapply rtc_r; [exact Hx|exact Hb]. }
  destruct (clock_scan_spec (bset_list (deps_of l x)) st vis) as (new_ & -> & Hnd & Hin).
  assert (Hin' : forall d, d ∈ new_ <-> d ∈ deps_of l x /\ d ∉ vis) by (intros d; by rewrite Hin, bset_list_elem).
  rewrite bset_list_elem in Hb.
  assert (Hsub : list_to_set new_ ∪ vis ⊆ targets l).
  { intros d [Hd%elem_of_list_to_set|Hd]%elem_of_union; [|by apply (si_sub _ _ _ _ _ Hi)].
    apply Hin' in Hd as [Hd _]. by eapply targets_spec. }
  assert (Hnew : forall d, d ∈ new_ -> reaches l a d).
  { intros d [Hd _]%Hin'. eapply rtc_r; [exact Hx|exact Hd]. }
  apply IH.
  - split.
    + intros y [?|?]%elem_of_app; [by apply Hnew|]. apply (si_stack _ _ _ _ _ Hi). by right.
    + intros [[? _]%elem_of_list_to_set%Hin'|?]%elem_of_union; [done|]. by apply (si_fresh _ _ _ _ _ Hi).
    + done.
    + intros y Hy Hns d Hd. destruct (decide (d ∈ vis)) as [|Hdv]; [set_solver|].
      destruct (decide (y = x)) as [->|Hne].
      * apply elem_of_union_l, elem_of_list_to_set, Hin'. done.
      * exfalso. apply Hdv. eapply (si_closed _ _ _ _ _ Hi y); [|set_solver|done]. set_solver.
    + intros y [?%elem_of_list_to_set|?]%elem_of_union; [by apply Hnew|by apply (si_vis _ _ _ _ _ Hi)].
  - rewrite scan_measure; [cbn in Hf; lia|done| |done]. intros d Hd. by apply Hin' in Hd as [_ ?].
Qed.

Lemma reaches_stored l a b : wf l -> reaches l a b -> a = b \/ (a ∈ dom (deps l) /\ b ∈ dom (deps l)).
Proof.
  intros Hw Hr. apply rtc_inv_r in Hr as [->|(c & Hac & Hcb)]; [by left|right]. split; [|by eapply wf_closed].
  apply rtc_inv in Hac as [->|(d & Had & _)]; by eapply deps_of_dom.
Qed.

Lemma sees_spec l a b : wf l -> sees l a b = true <-> reaches l a b.
Proof.
  intros Hw. unfold sees. case_bool_decide as Hab; [subst; split; [done|by intros _]|].
  destruct (negb (contains l a) || negb (contains l b)) eqn:Ec.
  { split; [done|]. intros [?|[Ha Hb]]%reaches_stored; [done| |done].
    apply contains_spec in Ha, Hb. by rewrite Ha, Hb in Ec. }
  apply sees_loop_spec; [done| |].
  - split; [|set_solver|set_solver| |set_solver].
    + by intros x ->%list_elem_of_singleton.
    + intros x Hx Hns. set_solver.
  - pose proof (targets_size l). rewrite size_empty. cbn. lia.
Qed.

(** Reachability descends along every causal order. *)
Lemma reaches_index l o i a b :
  causal l o -> o !! i = Some a -> reaches l a b ->
  exists j, o !! j = Some b /\ (j <= i)%nat /\ (a <> b -> (j < i)%nat).
Proof.
  intros [Hnd Hc] Hi Hr. revert i Hi. induction Hr as [a|a c b Hac Hcb IH]; intros i Hi; [by exists i|].
  apply (Hc i a Hi) in Hac as (k & Hk & Hlt)%elem_of_take.
  destruct (IH k Hk) as (j & Hj & Hle & _). exists j. split_and!; [done|lia|lia].
Qed.

(** ** Clocks *)

Lemma includes_spec c k len : includes c k len = true <-> 0 < len <= Clock_get c k.
Proof. unfold includes. rewrite andb_true_iff, N.ltb_lt, N.leb_le. done. Qed.

Lemma Clock_get_raise c k k' len :
  Clock_get (raise c k len) k' = if decide (k' = k) then N.max len (Clock_get c k) else Clock_get c k'.
Proof.
  unfold raise, Clock_get. cbn. case_decide as E.
  - subst. rewrite lookup_insert_eq. cbn. destruct (N.ltb_spec (default 0 (lengths c !! k)) len); lia.
  - by rewrite lookup_insert_ne.
Qed.

Lemma Clock_get_raise_node c n k :
  Clock_get (raise_node c n) k = if decide (k = key n) then N.max (seq n + 1) (Clock_get c k) else Clock_get c k.
Proof. unfold raise_node. rewrite Clock_get_raise. case_decide as E; [by rewrite E|done]. Qed.

(** A clock that covers exactly the nodes of a set, and their predecessors. *)
Definition clock_of (c : Clock) (V : NodeId -> Prop) : Prop :=
  forall k s, s < Clock_get c k <-> exists s', s <= s' /\ V (mkNode k s').

Lemma clock_of_default : clock_of Clock_default (λ _, False).
Proof. intros k s. unfold Clock_get. cbn. rewrite lookup_empty. cbn. split; [lia|]. by intros (? & _ & []). Qed.

Lemma clock_of_raise c V n :
  clock_of c V -> clock_of (raise_node c n) (λ m, m = n \/ V m).
Proof.
  intros Hc k s. rewrite Clock_get_raise_node. case_decide as E.
  - split.
    + intros Hs. destruct (N.lt_ge_cases s (Clock_get c k)) as [Hlt|Hge].
      * apply Hc in Hlt as (s' & ? & ?). exists s'. auto.
      * exists (seq n). split; [lia|]. left. subst k. by destruct n.
    + intros (s' & Hle & [Hn|HV]).
      * subst n. cbn in *. lia.
      * assert (s < Clock_get c k) by (apply Hc; eauto). lia.
  - rewrite (Hc k s). split; intros (s' & ? & Hn); exists s'; (split; [done|]); [by right|].
    destruct Hn as [<-|]; [done|done].
Qed.

Lemma clock_of_ext c (V V' : NodeId -> Prop) : (forall n, V n <-> V' n) -> clock_of c V -> clock_of c V'.
Proof. intros E Hc k s. rewrite (Hc k s). by setoid_rewrite E. Qed.

Record clock_inv (l : Linearizer) (a : NodeId) (st : list NodeId) (vis : gset NodeId) (c : Clock) : Prop := mkClockInv {
  ci_root : a ∈ vis;
  ci_nodup : NoDup st;
  ci_stack : forall x, x ∈ st -> x ∈ vis;
  ci_vis : forall x, x ∈ vis -> reaches l a x;
  ci_closed : forall x, x ∈ vis -> x ∉ st -> forall d, d ∈ deps_of l x -> d ∈ vis;
  ci_clock : clock_of c (λ x, x ∈ vis /\ x ∉ st) }.

Lemma clock_loop_spec l a f st vis c :
  clock_inv l a st vis c -> vis ⊆ {[ a ]} ∪ targets l ->
  (S (length st + (size ({[ a ]} ∪ targets l) - size vis)) <= f)%nat ->
  clock_of (clock_loop f l st vis c) (reaches l a).
Proof.
  revert st vis c. induction f as [|f IH]; intros st vis c Hi Hsub Hf; [lia|]. cbn [clock_loop].
  destruct st as [|x st].
  { eapply clock_of_ext; [|apply Hi]. intros n. split; [intros [? _]; by apply (ci_vis _ _ _ _ _ Hi)|].
    intros Hr. split; [|set_solver]. eapply (closed_reach l vis a); [|apply Hi|done].
    intros y d Hy. apply (ci_closed _ _ _ _ _ Hi); set_solver. }
  assert (Hxv : x ∈ vis) by (apply (ci_stack _ _ _ _ _ Hi); by left).
  pose proof (ci_vis _ _ _ _ _ Hi x Hxv) as Hx.
  pose proof (ci_nodup _ _ _ _ _ Hi) as [Hxs Hnds]%NoDup_cons.
  fold (deps_of l x).
  destruct (clock_scan_spec (bset_list (deps_of l x)) st vis) as (new_ & -> & Hnd & Hin).
  assert (Hin' : forall d, d ∈ new_ <-> d ∈ deps_of l x /\ d ∉ vis) by (intros d; by rewrite Hin, bset_list_elem).
  assert (Hfr : forall d, d ∈ new_ -> d ∉ vis) by (intros d Hd; by apply Hin' in Hd as [_ ?]).
  assert (Hst : forall d, d ∈ st -> d ∈ vis) by (intros d Hd; apply (ci_stack _ _ _ _ _ Hi); by right).
  assert (Hsub' : list_to_set new_ ∪ vis ⊆ {[ a ]} ∪ targets l).
  { intros d [Hd%elem_of_list_to_set|Hd]%elem_of_union; [|by apply Hsub].
    apply Hin' in Hd as [Hd _]. apply elem_of_union_r. by eapply targets_spec. }
  apply IH; [|done|].
  - split.
    + apply elem_of_union_r, Hi.
    + apply NoDup_app. split_and!; [done| |done]. intros d Hd Hds. by apply (Hfr d Hd), Hst.
    + intros y [?|?]%elem_of_app; [by apply elem_of_union_l, elem_of_list_to_set|by apply elem_of_union_r, Hst].
    + intros y [[Hy _]%elem_of_list_to_set%Hin'|?]%elem_of_union; [|by apply (ci_vis _ _ _ _ _ Hi)].
      eapply rtc_r; [exact Hx|exact Hy].
    + intros y [Hy%elem_of_list_to_set|Hy]%elem_of_union Hns d Hd; [set_solver|].
      destruct (decide (d ∈ vis)) as [|Hdv]; [by apply elem_of_union_r|].
      destruct (decide (y = x)) as [->|Hne]; [by apply elem_of_union_l, elem_of_list_to_set, Hin'|].
      exfalso. apply Hdv. eapply (ci_closed _ _ _ _ _ Hi y); [done| |done].
      rewrite elem_of_app in Hns. rewrite elem_of_cons. tauto.
    + eapply clock_of_ext; [|apply clock_of_raise, Hi]. intros n. cbn beta.
      rewrite elem_of_union, elem_of_list_to_set, elem_of_app, elem_of_cons.
      destruct (decide (n = x)) as [->|]; [|destruct (decide (n ∈ vis)) as [Hv|Hv]].
      * split; [intros _|by left]. split; [by right|]. intros [Hn|?]; [by apply (Hfr x)|done].
      * assert (n ∉ new_) by (intros Hn; by apply (Hfr n)). tauto.
      * tauto.
  - rewrite scan_measure by done. cbn in Hf. lia.
Qed.

Lemma reaches_prev l a k s s' :
  wf l -> s <= s' -> reaches l a (mkNode k s') -> mkNode k s' ∈ dom (deps l) -> reaches l a (mkNode k s).
Proof.
  intros Hw Hle Hr Hd. replace s' with (s + (s' - s)) in * by lia.
  generalize dependent (s' - s). intros j _. induction j as [|j IH] using N.peano_ind; [by rewrite N.add_0_r|].
  rewrite N.add_succ_r, <- N.add_1_r. intros Hr Hd. pose proof (wf_chain l Hw _ _ Hd) as Hc.
  apply IH; [|by eapply wf_closed]. eapply rtc_r; [exact Hr|exact Hc].
Qed.

Lemma clock_spec l a k s :
  wf l -> a ∈ dom (deps l) -> s < Clock_get (clock l a) k <-> reaches l a (mkNode k s).
Proof.
  intros Hw Ha. unfold clock. rewrite (proj2 (contains_spec l a)) by done. cbn [negb].
  assert (Hcl : clock_of (clock_loop (S (edge_fuel l)) l [a] {[ a ]} Clock_default) (reaches l a)).
  { apply clock_loop_spec; [|set_solver|].
    - split; [set_solver|apply NoDup_singleton|set_solver| | |].
      + by intros x ->%elem_of_singleton.
      + set_solver.
      + eapply clock_of_ext; [|apply clock_of_default]. set_solver.
    - pose proof (targets_size l). pose proof (size_union_alt {[ a ]} (targets l)) as Hu.
      pose proof (subseteq_size (targets l ∖ {[ a ]}) (targets l) ltac:(set_solver)).
      rewrite size_singleton in *. cbn [length]. lia. }
  rewrite (Hcl k s). split; [|intros Hr; exists s; by split; [lia|]]. intros (s' & Hle & Hr).
  eapply reaches_prev; [done..|]. by destruct (reaches_stored l a (mkNode k s') Hw Hr) as [<-|[_ ?]].
Qed.

Lemma clock_includes_sees l a k s :
  wf l -> a ∈ dom (deps l) -> includes (clock l a) k (s + 1) = sees l a (mkNode k s).
Proof.
  intros Hw Ha. apply eq_bool_prop_intro. rewrite !Is_true_true, sees_spec, includes_spec by done.
  rewrite <- clock_spec by done. lia.
Qed.
End LinearizerReach.
