(* ===== verification/LinearizerView.v ===== *)
(** * [autobase]: the confirmed view and the order

    The driver of the consensus port: every batch [shift_once] yields takes an
    indexer one node further, so the loops end; what they emit is causally closed
    and ordered, and the full order extends it to all stored nodes. *)
From S2P Require Import Prelude Linearizer LinearizerDag LinearizerOrder LinearizerReach.

Module LinearizerView.
Import Linearizer LinearizerDag LinearizerOrder LinearizerReach.

(** ** Batches *)

(** An indexer's tail is its first node that is not removed. *)
Definition tail_of (l : Linearizer) (removed : Clock) (t : NodeId) : Prop :=
  (exists ix, indexers l = Some ix /\ key t ∈ ix)
  /\ seq t = Clock_get removed (key t) /\ t ∈ dom (deps l).

Lemma tail_step_sub l removed ts idx t :
  t ∈ tail_step l removed ts idx ->
  t ∈ ts \/ (t = mkNode idx (Clock_get removed idx) /\ t ∈ dom (deps l)).
Proof.
  unfold tail_step. destruct (_ || _) eqn:Eg; [by left|].
  apply orb_false_iff in Eg as [Ec%negb_false_iff _]. apply contains_spec in Ec.
  destruct (tail_scan _ _ _ _) as [[] rm].
  - intros [[_ ?]%list_elem_of_filter| ->%list_elem_of_singleton]%elem_of_app; [by left|by right].
  - intros [_ ?]%list_elem_of_filter. by left.
Qed.

Lemma tail_steps_sub l removed ixs ts t :
  t ∈ foldl (tail_step l removed) ts ixs ->
  t ∈ ts \/ (key t ∈ ixs /\ seq t = Clock_get removed (key t) /\ t ∈ dom (deps l)).
Proof.
  revert ts. induction ixs as [|idx ixs IH]; intros ts; cbn [foldl]; [by left|].
  intros [Ht|(Hk & Hs & Hd)]%IH; [|right; split_and!; [by right|done..]].
  apply tail_step_sub in Ht as [?|[-> Hd]]; [by left|]. right. split_and!; [by left|done..].
Qed.

Lemma indexer_tails_spec l removed t : t ∈ indexer_tails l removed -> tail_of l removed t.
Proof.
  unfold indexer_tails. destruct (indexers l) as [ix|] eqn:Ei; [|set_solver].
  rewrite elem_of_list_to_set. intros [?|(Hk & Hs & Hd)]%tail_steps_sub; [set_solver|].
  rewrite bset_list_elem in Hk. split; [by exists ix|done].
Qed.

Lemma tails_seen_elem l node ts t : t ∈ tails_seen l node ts <-> sees l node t = true /\ t ∈ ts.
Proof. unfold tails_seen. by rewrite list_elem_of_filter, bset_list_elem. Qed.

Lemma merges_fold_elem l node ms all t :
  t ∈ foldl (λ all m, if bool_decide (m <> node) && sees l node m && bool_decide (m ∉ all)
                      then all ++ [m] else all) all ms ->
  t ∈ all \/ (t <> node /\ sees l node t = true).
Proof.
  revert all. induction ms as [|m ms IH]; intros all; cbn [foldl]; [by left|].
  intros [Ht|?]%IH; [|by right].
  destruct (bool_decide (m <> node) && sees l node m && bool_decide (m ∉ all)) eqn:E; [|by left].
  apply elem_of_app in Ht as [?| ->%list_elem_of_singleton]; [by left|right].
  rewrite !andb_true_iff, bool_decide_eq_true in E. tauto.
Qed.

(** A candidate of [yield_next] is strictly below the current node. *)
Lemma candidate_below l node ts removed t :
  node ∉ ts -> t ∈ tails_and_merges_seen l node ts removed -> t <> node /\ sees l node t = true.
Proof.
  intros Hn. unfold tails_and_merges_seen.
  intros [[Hs Ht]%tails_seen_elem|?]%merges_fold_elem; [|done]. split; [by intros ->|done].
Qed.

Lemma yield_next_spec l o f node i ts removed :
  wf l -> causal l o -> o !! i = Some node -> (i < f)%nat ->
  exists batch, yield_next f l node ts removed = Done (batch, foldl raise_node removed batch)
    /\ forall t, t ∈ batch -> t ∈ ts.
Proof.
  intros Hw Hc. revert node i. induction f as [|f IH]; intros node i Hi Hf; [lia|].
  cbn [yield_next]. case_bool_decide as Hn.
  { exists [node]. split; [done|]. by intros t ->%list_elem_of_singleton. }
  destruct (List.find _ _) as [t|] eqn:Ef.
  - apply find_some in Ef as [Hin _]. apply list_elem_of_In, candidate_below in Hin as [Hne Hs]; [|done].
    apply sees_spec in Hs; [|done].
    destruct (reaches_index l o i node t Hc Hi Hs) as (j & Hj & _ & Hlt).
    apply (IH t j Hj). specialize (Hlt ltac:(congruence)). lia.
  - exists (tails_seen l node ts). split; [done|]. by intros t [_ ?]%tails_seen_elem.
Qed.

Lemma merge_nodes_stored l removed m : m ∈ merge_nodes l removed -> m ∈ dom (deps l).
Proof.
  unfold merge_nodes. destruct (indexers l); [|set_solver].
  intros [_ [_ ?]%list_elem_of_filter]%list_elem_of_filter. by rewrite bset_list_elem in *.
Qed.

Lemma order_length l o :
  causal l o -> (forall n, n ∈ o <-> n ∈ dom (deps l)) -> length o = size (deps l).
Proof.
  intros [Hnd _] Ho. rewrite <- size_dom, <- (size_list_to_set (C:=gset NodeId) o) by done.
  f_equal. apply set_eq. intros n. by rewrite elem_of_list_to_set.
Qed.

Lemma shift_once_spec l removed :
  wf l ->
  exists batch, shift_once l removed = Done (batch, foldl raise_node removed batch)
    /\ forall t, t ∈ batch -> tail_of l removed t.
Proof.
  intros Hw. unfold shift_once. destruct (List.find _ (bset_list _)) as [t|] eqn:E1.
  { exists [t]. split; [done|]. intros ? ->%list_elem_of_singleton. apply indexer_tails_spec.
    apply find_some in E1 as [Hin _]. by rewrite <- list_elem_of_In, bset_list_elem in Hin. }
  destruct (List.find _ (merge_nodes _ _)) as [m|] eqn:E2.
  - apply find_some in E2 as [Hin _]. apply list_elem_of_In, merge_nodes_stored in Hin.
    destruct (wf_order l Hw) as (o & Hc & Ho).
    assert (Hio : m ∈ o) by (by apply Ho). apply list_elem_of_lookup in Hio as [i Hi].
    destruct (yield_next_spec l o (size (deps l)) m i (indexer_tails l removed) removed)
      as (batch & E & Hb); [done..| |].
    + rewrite <- (order_length l o) by done. by eapply lookup_lt_Some.
    + exists batch. split; [done|]. intros t ?%Hb. by apply indexer_tails_spec.
  - exists []. split; [done|]. set_solver.
Qed.

(** ** Progress *)

Definition gap (l : Linearizer) (ix : gset WriterKey) (removed : Clock) : nat :=
  sum_list_with (λ k, N.to_nat (expected_seq l k - Clock_get removed k)) (bset_list ix).

Lemma sum_list_with_le {A} (f g : A -> nat) o :
  (forall x, x ∈ o -> (f x <= g x)%nat) -> (sum_list_with f o <= sum_list_with g o)%nat.
Proof.
  induction o as [|x o IH]; intros Hle; [done|]. cbn.
  pose proof (Hle x ltac:(by left)). specialize (IH ltac:(intros y Hy; apply Hle; by right)). lia.
Qed.

Lemma sum_list_with_lt {A} (f g : A -> nat) o x :
  (forall x, x ∈ o -> (f x <= g x)%nat) -> x ∈ o -> (f x < g x)%nat ->
  (sum_list_with f o < sum_list_with g o)%nat.
Proof.
  intros Hle Hx Hlt. induction o as [|y o IH]; [set_solver|]. cbn.
  pose proof (Hle y ltac:(by left)).
  assert (Hle' : forall z, z ∈ o -> (f z <= g z)%nat) by (intros z Hz; apply Hle; by right).
  apply elem_of_cons in Hx as [->|Hx]; [pose proof (sum_list_with_le f g o Hle'); lia|].
  specialize (IH Hle' Hx). lia.
Qed.

Lemma raise_mono c n k : Clock_get c k <= Clock_get (raise_node c n) k.
Proof. rewrite Clock_get_raise_node. case_decide; lia. Qed.

Lemma raise_all_mono c ns k : Clock_get c k <= Clock_get (foldl raise_node c ns) k.
Proof.
  revert c. induction ns as [|n ns IH]; intros c; cbn [foldl]; [lia|].
  etrans; [apply (raise_mono c n)|apply IH].
Qed.

Lemma raise_all_covers c ns n : n ∈ ns -> seq n < Clock_get (foldl raise_node c ns) (key n).
Proof.
  revert c. induction ns as [|m ns IH]; intros c Hn; [set_solver|]. cbn [foldl].
  apply elem_of_cons in Hn as [->|Hn]; [|by apply IH].
  eapply N.lt_le_trans; [|apply raise_all_mono]. rewrite Clock_get_raise_node, decide_True by done. lia.
Qed.

Lemma gap_decreases l ix removed batch t :
  wf l -> indexers l = Some ix -> t ∈ batch -> (forall t, t ∈ batch -> tail_of l removed t) ->
  (gap l ix (foldl raise_node removed batch) < gap l ix removed)%nat.
Proof.
  intros Hw Hix Ht Hb. destruct (Hb t Ht) as ((ix' & Hix' & Hk) & Hs & Hd).
  rewrite Hix in Hix'. injection Hix' as <-. destruct t as [k s]. cbn [key seq] in *.
  apply (wf_next l Hw) in Hd. unfold gap. apply (sum_list_with_lt _ _ _ k).
  - intros k' _. pose proof (raise_all_mono removed batch k'). lia.
  - by rewrite bset_list_elem.
  - pose proof (raise_all_covers removed batch _ Ht) as Hc. cbn [key seq] in Hc. lia.
Qed.

Definition writer_nodes (l : Linearizer) (k : WriterKey) : list NodeId :=
  (λ i, mkNode k (N.of_nat i)) <$> List.seq 0 (N.to_nat (expected_seq l k)).

Lemma writer_nodes_elem l k n : wf l -> n ∈ writer_nodes l k <-> key n = k /\ n ∈ dom (deps l).
Proof.
  intros Hw. unfold writer_nodes. rewrite list_elem_of_fmap. setoid_rewrite elem_of_seq. split.
  - intros (i & -> & Hi). split; [done|]. apply (wf_next l Hw). lia.
  - intros [<- Hd]. destruct n as [k s]. apply (wf_next l Hw) in Hd. exists (N.to_nat s).
    rewrite N2Nat.id. split; [done|]. cbn in *. lia.
Qed.

Lemma writer_nodes_nodup l ks :
  wf l -> NoDup ks -> NoDup (concat (writer_nodes l <$> ks)).
Proof.
  intros Hw. induction 1 as [|k ks Hk Hnd IH]; [constructor|]. cbn. apply NoDup_app. split_and!; [| |done].
  - apply NoDup_fmap_2; [intros i j [= ?]; lia|apply NoDup_seq].
  - intros n [Hn _]%writer_nodes_elem; [|done].
    rewrite list_elem_of_In, in_concat. intros (o & Ho%list_elem_of_In & Hno%list_elem_of_In).
    apply list_elem_of_fmap in Ho as (k' & -> & Hk'). apply writer_nodes_elem in Hno as [Hn' _]; [|done].
    congruence.
Qed.

Lemma gap_bound l ix removed : wf l -> (gap l ix removed <= size (deps l))%nat.
Proof.
  intros Hw. etrans; [apply (sum_list_with_le _ (λ k, length (writer_nodes l k)))|].
  { intros k _. unfold writer_nodes. rewrite length_fmap, length_seq. lia. }
  transitivity (length (concat (writer_nodes l <$> bset_list ix))).
  - clear. induction (bset_list ix) as [|k ks IH]; [done|]. cbn. rewrite length_app. lia.
  - rewrite <- size_dom. change (length (concat (writer_nodes l <$> bset_list ix)) <= length (elements (dom (deps l))))%nat.
    apply submseteq_length, NoDup_submseteq; [apply writer_nodes_nodup; [done|apply bset_list_nodup]|].
    intros n. rewrite list_elem_of_In, in_concat. intros (o & Ho%list_elem_of_In & Hno%list_elem_of_In).
    apply list_elem_of_fmap in Ho as (k & -> & _). apply writer_nodes_elem in Hno as [_ ?]; [|done].
    by apply elem_of_elements.
Qed.

(** ** The nodes a batch brings *)

Definition weight (l : Linearizer) (fresh : gset NodeId) : nat :=
  sum_list_with (λ e : NodeId * gset NodeId, if decide (e.1 ∈ fresh) then 0%nat else size e.2)
    (bmap_list (deps l)).

Lemma weight_add l fresh n :
  n ∉ fresh -> (weight l ({[ n ]} ∪ fresh) + size (deps_of l n) <= weight l fresh)%nat.
Proof.
  intros Hn. unfold weight, deps_of. pose proof (bmap_list_nodup (deps l)) as Hnd.
  destruct (deps l !! n) as [ds|] eqn:E; cbn [default from_option id].
  2: { rewrite size_empty, Nat.add_0_r. apply sum_list_with_le. intros e _.
       destruct (decide (e.1 ∈ {[ n ]} ∪ fresh)), (decide (e.1 ∈ fresh)); set_solver by lia. }
  apply bmap_list_elem in E. revert E Hnd. generalize (bmap_list (deps l)).
  induction l0 as [|[m es] o IH]; cbn; [set_solver|]. intros Hin [Hm Hnd]%NoDup_cons.
  assert (Hle : (sum_list_with (λ e : NodeId * gset NodeId, if decide (e.1 ∈ {[ n ]} ∪ fresh) then 0%nat else size e.2) o
    <= sum_list_with (λ e : NodeId * gset NodeId, if decide (e.1 ∈ fresh) then 0%nat else size e.2) o)%nat).
  { apply sum_list_with_le. intros e _.
    destruct (decide (e.1 ∈ {[ n ]} ∪ fresh)), (decide (e.1 ∈ fresh)); set_solver by lia. }
  apply elem_of_cons in Hin as [[= -> ->]|Hin].
  - rewrite decide_True, decide_False by set_solver. lia.
  - specialize (IH Hin Hnd).
    destruct (decide (m ∈ {[ n ]} ∪ fresh)), (decide (m ∈ fresh)); set_solver by lia.
Qed.

Record fresh_inv (l : Linearizer) (emitted : gset NodeId) (st : list NodeId) (fresh : gset NodeId) : Prop := mkFresh {
  fi_stack : forall n, n ∈ st -> n ∈ dom (deps l);
  fi_stored : fresh ⊆ dom (deps l);
  fi_disj : forall n, n ∈ fresh -> n ∉ emitted;
  fi_closed : forall n d, n ∈ fresh -> d ∈ deps_of l n -> d ∈ emitted \/ d ∈ fresh \/ d ∈ st }.

Lemma fresh_loop_spec l emitted f st fresh :
  wf l -> fresh_inv l emitted st fresh -> (length st + weight l fresh <= f)%nat ->
  exists F, fresh_loop f l emitted st fresh = Done F /\ fresh_inv l emitted [] F
    /\ fresh ⊆ F /\ forall n, n ∈ st -> n ∈ emitted \/ n ∈ F.
Proof.
  intros Hw. revert st fresh. induction f as [|f IH]; intros st fresh Hi Hf.
  { destruct st as [|n st]; [|cbn in Hf; lia]. exists fresh. cbn. split_and!; [done..|set_solver]. }
  destruct st as [|n st]; cbn [fresh_loop].
  { exists fresh. split_and!; [done..|set_solver]. }
  assert (Hn : n ∈ dom (deps l)) by (apply (fi_stack _ _ _ _ Hi); by left).
  assert (Hst : forall m, m ∈ st -> m ∈ dom (deps l)) by (intros; apply (fi_stack _ _ _ _ Hi); by right).
  destruct (bool_decide (n ∈ emitted) || bool_decide (n ∈ fresh)) eqn:Eb.
  - assert (Hskip : n ∈ emitted \/ n ∈ fresh).
    { by apply orb_true_iff in Eb as [?%bool_decide_eq_true|?%bool_decide_eq_true]; [left|right]. }
    destruct (IH st fresh) as (F & E & HF & Hsub & Hall).
    + split; [done|apply Hi|apply Hi|]. intros m d Hm Hd.
      destruct (fi_closed _ _ _ _ Hi m d Hm Hd) as [?|[?|[->|?]%elem_of_cons]]; tauto.
    + cbn in Hf. lia.
    + exists F. split_and!; [done..|]. intros m [->|?]%elem_of_cons; [|by apply Hall].
      destruct Hskip as [?|?]; [by left|right; by apply Hsub].
  - apply orb_false_iff in Eb as [He%bool_decide_eq_false Hfr%bool_decide_eq_false].
    set (ds := filter (λ d, d ∉ emitted) (bset_list (default ∅ (deps l !! n)))).
    assert (Hds : forall d, d ∈ ds <-> d ∈ deps_of l n /\ d ∉ emitted).
    { intros d. unfold ds. rewrite list_elem_of_filter, bset_list_elem. unfold deps_of. tauto. }
    assert (Hlen : (length ds <= size (deps_of l n))%nat).
    { unfold ds. rewrite length_filter. by rewrite bset_list_length. }
    destruct (IH (rev ds ++ st) ({[ n ]} ∪ fresh)) as (F & E & HF & Hsub & Hall).
    + split.
      * intros m [[Hd _]%list_elem_of_In%in_rev%list_elem_of_In%Hds|?]%elem_of_app; [by eapply wf_closed|by apply Hst].
      * apply union_subseteq. split; [|apply Hi]. by intros m ->%elem_of_singleton.
      * intros m [->%elem_of_singleton|?]%elem_of_union; [done|by apply (fi_disj _ _ _ _ Hi)].
      * intros m d Hm Hd. rewrite elem_of_union, elem_of_app, elem_of_singleton.
        rewrite (list_elem_of_In (rev ds)), <- in_rev, <- list_elem_of_In, Hds.
        apply elem_of_union in Hm as [->%elem_of_singleton|Hm].
        -- destruct (decide (d ∈ emitted)); tauto.
        -- destruct (fi_closed _ _ _ _ Hi m d Hm Hd) as [?|[?|[->|?]%elem_of_cons]]; tauto.
    + pose proof (weight_add l fresh n Hfr). rewrite length_app, length_rev. cbn in Hf. lia.
    + exists F. split_and!; [done..| |].
      * intros m Hm. apply Hsub. by apply elem_of_union_r.
      * intros m [->|Hm]%elem_of_cons; [right; apply Hsub; set_solver|].
        apply Hall, elem_of_app. by right.
Qed.

(** ** The loops *)

Lemma weight_edge_fuel l : (weight l ∅ <= edge_fuel l)%nat.
Proof.
  unfold weight, edge_fuel. apply Nat.le_le_succ_r, sum_list_with_le. intros e _. case_decide; lia.
Qed.

Lemma prefix_loop_done l ix f removed out :
  wf l -> indexers l = Some ix -> (gap l ix removed < f)%nat ->
  exists o, prefix_loop f l removed out = Done (out ++ o).
Proof.
  intros Hw Hix. revert removed out. induction f as [|f IH]; intros removed out Hf; [lia|]. cbn [prefix_loop].
  destruct (shift_once_spec l removed Hw) as (batch & -> & Hb). rsimpl.
  destruct batch as [|t batch]; [exists []; by rewrite app_nil_r|].
  destruct (IH (foldl raise_node removed (t :: batch)) (out ++ t :: batch)) as (o & E).
  - pose proof (gap_decreases l ix removed (t :: batch) t Hw Hix ltac:(by left) Hb). lia.
  - exists ((t :: batch) ++ o). rewrite E. by rewrite <- app_assoc.
Qed.

(** One round of the view: the fresh nodes follow what is out. *)
Lemma view_round l emitted out batch :
  wf l -> N.of_nat (size (deps l)) < two64 -> causal l out -> (forall n, n ∈ out <-> n ∈ emitted) ->
  (forall t, t ∈ batch -> t ∈ dom (deps l)) ->
  exists F ns, fresh_loop (length batch + edge_fuel l) l emitted (rev batch) ∅ = Done F
    /\ topo_key_order l F emitted = Done ns /\ causal l (out ++ ns)
    /\ (forall n, n ∈ ns -> n ∉ emitted)
    /\ (forall t, t ∈ batch -> t ∈ out ++ ns).
Proof.
  intros Hw Hs Hc Ho Hb.
  destruct (fresh_loop_spec l emitted (length batch + edge_fuel l) (rev batch) ∅) as (F & E & HF & _ & Hall); [done| | |].
  - split; [|set_solver..]. intros n Hn. apply Hb. by rewrite list_elem_of_In, <- in_rev, <- list_elem_of_In in Hn.
  - rewrite length_rev. pose proof (weight_edge_fuel l). lia.
  - destruct (topo_key_order_kahn l Hw Hs F emitted) as (ns & E2 & Hk); [apply HF|apply HF|].
    pose proof Hk as (_ & Hns & _).
    assert (Hcl : forall n d, n ∈ F -> d ∈ deps_of l n -> d ∈ F \/ d ∈ emitted).
    { intros n d Hn Hd. destruct (fi_closed _ _ _ _ HF n d Hn Hd) as [?|[?|?]]; [by right|by left|set_solver]. }
    exists F, ns. split_and!; [done..| | |].
    + eapply (kahn_causal l F emitted); [done..|apply HF|apply HF|done|done].
    + intros n Hn%Hns. by apply (fi_disj _ _ _ _ HF).
    + intros t Ht. apply elem_of_app. rewrite Ho, Hns. apply Hall.
      by rewrite list_elem_of_In, <- in_rev, <- list_elem_of_In.
Qed.

Lemma view_loop_spec l ix f removed emitted out :
  wf l -> N.of_nat (size (deps l)) < two64 -> indexers l = Some ix -> causal l out ->
  (forall n, n ∈ out <-> n ∈ emitted) -> (gap l ix removed < f)%nat ->
  exists o, view_loop f l removed emitted out = Done (out ++ o) /\ causal l (out ++ o).
Proof.
  intros Hw Hs Hix. revert removed emitted out.
  induction f as [|f IH]; intros removed emitted out Hc Ho Hf; [lia|]. cbn [view_loop].
  destruct (shift_once_spec l removed Hw) as (batch & -> & Hb). rsimpl.
  destruct batch as [|t batch]; [exists []; rewrite app_nil_r; done|].
  destruct (view_round l emitted out (t :: batch)) as (F & ns & E1 & E2 & Hc' & _ & _); [done..| |].
  { intros x Hx. by apply Hb in Hx as (_ & _ & ?). }
  rewrite E1. rsimpl. rewrite E2. rsimpl.
  destruct (IH (foldl raise_node removed (t :: batch)) (list_to_set ns ∪ emitted) (out ++ ns)) as (o & E & Hc2).
  - done.
  - intros n. rewrite elem_of_app, elem_of_union, elem_of_list_to_set, Ho. tauto.
  - pose proof (gap_decreases l ix removed (t :: batch) t Hw Hix ltac:(by left) Hb). lia.
  - exists (ns ++ o). rewrite E, <- app_assoc in *. done.
Qed.

Lemma confirmed_view_spec l :
  wf l -> N.of_nat (size (deps l)) < two64 -> causal l (base l) ->
  exists o, confirmed_view l = Done (base l ++ o) /\ causal l (base l ++ o).
Proof.
  intros Hw Hs Hb. unfold confirmed_view, majority. destruct (indexers l) as [ix|] eqn:Hix; cbn [fmap option_fmap option_map].
  - eapply view_loop_spec; [done..| |].
    + intros n. by rewrite elem_of_list_to_set.
    + unfold shift_fuel. pose proof (gap_bound l ix (base_clock l) Hw). lia.
  - exists []. by rewrite app_nil_r.
Qed.

(** A causal list of all stored nodes. *)
Definition total_order (l : Linearizer) (o : list NodeId) : Prop :=
  causal l o /\ forall n, n ∈ o <-> n ∈ dom (deps l).

Lemma order_spec l :
  wf l -> N.of_nat (size (deps l)) < two64 -> causal l (base l) ->
  exists c rest, confirmed_view l = Done c /\ order l = Done (c ++ rest)
    /\ total_order l (c ++ rest)
    /\ kahn l (dom (deps l) ∖ list_to_set c) (list_to_set c) rest.
Proof.
  intros Hw Hs Hb. destruct (confirmed_view_spec l Hw Hs Hb) as (o & E & Hc).
  remember (base l ++ o) as c eqn:Ec. clear Ec.
  set (nodes := dom (deps l) ∖ list_to_set c).
  assert (Hrest : exists rest, topo_key_order l nodes (list_to_set c) = Done rest /\ kahn l nodes (list_to_set c) rest).
  { apply topo_key_order_kahn; set_solver. }
  destruct Hrest as (rest & Er & Hk). exists c, rest. split_and!; [done| | |done].
  - unfold order. rewrite E. rsimpl. destruct c as [|n c].
    + cbn [app]. rewrite plain_order_topo by done.
      assert (nodes = dom (deps l)) as <- by (unfold nodes; cbn; set_solver). done.
    + assert (Hf : filter (λ n0, n0 ∉ (list_to_set (n :: c) : gset NodeId)) (dom (deps l)) = nodes).
      { apply set_eq. intros m. unfold nodes. rewrite elem_of_filter, elem_of_difference. tauto. }
      rewrite Hf, Er. done.
  - split.
    + eapply (kahn_causal l nodes (list_to_set c)); [done..| | | | |done].
      * intros n. by rewrite elem_of_list_to_set.
      * unfold nodes. set_solver.
      * unfold nodes. set_solver.
      * intros n d _ Hd. apply wf_closed in Hd; [|done]. unfold nodes.
        destruct (decide (d ∈ (list_to_set c : gset NodeId))); set_solver.
    + intros n. destruct Hk as (_ & Hn & _). rewrite elem_of_app, Hn. unfold nodes.
      rewrite elem_of_difference, elem_of_list_to_set. split.
      * intros [?|[? _]]; [by eapply causal_nodes|done].
      * intros ?. destruct (decide (n ∈ c)); tauto.
Qed.
End LinearizerView.
