(* ===== verification/LinearizerTheorems.v ===== *)
(** * [autobase]: what the linearizer guarantees

    Histories of a linearizer (deliveries and reconfigurations), the invariant
    they keep, and the properties of every operation of
    [src/crates/autobase/src/linearizer.rs] over them. *)
From S2P Require Import Prelude Linearizer LinearizerDag LinearizerOrder LinearizerReach LinearizerView.
From Stdlib Require Import Strings.Byte.

Module LinearizerTheorems.
Import Linearizer LinearizerDag LinearizerOrder LinearizerReach LinearizerView.

(** ** Histories *)

Definition clock_of_list (o : list NodeId) : Clock := foldl raise_node Clock_default o.

Record lin_ok (l : Linearizer) : Prop := mkLinOk {
  ok_wf : wf l;
  ok_base : causal l (base l);
  ok_clock : base_clock l = clock_of_list (base l) }.

(** In memory: the number of nodes fits the machine word of a degree. *)
Definition lin_small (l : Linearizer) : Prop := N.of_nat (size (deps l)) < two64.

Inductive lin_history : Linearizer -> Prop :=
| lh_new : lin_history new
| lh_indexers ix : lin_history (with_indexers ix)
| lh_add l node hs l' : lin_history l -> add l node hs = (l', Ok tt) -> lin_history l'
| lh_reconfigure l through ix l' :
    lin_history l -> lin_small l -> reconfigure l through ix = Done (l', Ok tt) -> lin_history l'.

(** ** Reconfiguration *)

Lemma starts_with_spec o p : starts_with o p = true <-> p `prefix_of` o.
Proof.
  revert o. induction p as [|x p IH]; intros [|y o]; cbn [starts_with].
  - split; [intros _; apply prefix_nil|done].
  - split; [intros _; apply prefix_nil|done].
  - split; [done|]. intros [k E]. done.
  - rewrite andb_true_iff, bool_decide_eq_true, IH. split.
    + intros [-> ?]. by apply prefix_cons.
    + intros Hp. split; [by eapply prefix_cons_inv_1|by eapply prefix_cons_inv_2].
Qed.

(** On a causal list that extends the base every check passes. *)
Lemma check_members_causal l bs ms :
  (forall n, n ∈ bs -> n ∈ dom (deps l)) -> NoDup bs -> (forall n, n ∈ bs -> n ∉ ms) ->
  check_members l bs ms = Ok (list_to_set bs ∪ ms).
Proof.
  revert ms. induction bs as [|n bs IH]; intros ms Hd Hnd Hms; cbn [check_members].
  { f_equal. set_solver. }
  rewrite (proj2 (contains_spec l n)) by (apply Hd; by left). cbn [negb].
  rewrite bool_decide_eq_false_2 by (apply Hms; by left). apply NoDup_cons in Hnd as [Hn Hnd].
  rewrite IH; [cbn; f_equal; set_solver|intros; apply Hd; by right|done|].
  intros m Hm. rewrite not_elem_of_union, not_elem_of_singleton. split; [by intros ->|apply Hms; by right].
Qed.

Lemma check_closed_causal l ms bs c :
  (forall n d, n ∈ bs -> d ∈ deps_of l n -> d ∈ ms) ->
  check_closed l ms bs c = Ok (foldl raise_node c bs).
Proof.
  revert c. induction bs as [|n bs IH]; intros c Hcl; cbn [check_closed]; [done|].
  destruct (List.find _ _) as [d|] eqn:Ef.
  - apply find_some in Ef as [Hd Hm]. apply bool_decide_eq_true in Hm. destruct Hm.
    apply (Hcl n); [by left|]. by rewrite <- list_elem_of_In, bset_list_elem in Hd.
  - cbn [foldl]. apply IH. intros m d Hm. apply Hcl. by right.
Qed.

Lemma reconfigure_at_causal l bs ix :
  causal l bs -> base l `prefix_of` bs ->
  reconfigure_at l bs ix
  = (mkLin (deps l) (dependents l) (next_seq l) (Some (list_to_set ix)) bs (clock_of_list bs), Ok tt).
Proof.
  intros Hc Hp. unfold reconfigure_at. rewrite (proj2 (starts_with_spec _ _) Hp). cbn [negb].
  rewrite check_members_causal; [|intros n; by apply causal_nodes|apply Hc|set_solver].
  rewrite check_closed_causal; [done|]. intros n d Hn Hd.
  apply elem_of_union_l, elem_of_list_to_set. by eapply causal_deps.
Qed.

(** The operations that only touch the configuration keep the DAG. *)
Lemma wf_config l ix b c :
  wf l -> wf (mkLin (deps l) (dependents l) (next_seq l) ix b c).
Proof. intros [H1 H2 H3 H4 H5 H6]. by split. Qed.

Lemma reconfigure_spec l through ix :
  lin_ok l -> lin_small l ->
  exists c, confirmed_view l = Done c /\ base l `prefix_of` c /\ causal l c /\
  reconfigure l through ix =
    Done (if (length c <? through)%nat then (l, Err (BeyondConfirmed (length c) through))
          else if (through <? length (base l))%nat then (l, Err BaseShrinks)
          else (mkLin (deps l) (dependents l) (next_seq l) (Some (list_to_set ix))
                  (take through c) (clock_of_list (take through c)), Ok tt)).
Proof.
  intros [Hw Hb _] Hs. destruct (confirmed_view_spec l Hw Hs Hb) as (o & E & Hc).
  exists (base l ++ o). split_and!; [done|by apply prefix_app_r|done|].
  unfold reconfigure. rewrite E. rsimpl. destruct (length (base l ++ o) <? through)%nat eqn:El; [done|].
  f_equal. apply Nat.ltb_ge in El. destruct (Nat.ltb_spec through (length (base l))) as [Hlt|Hge].
  - unfold reconfigure_at. destruct (starts_with _ _) eqn:Es; [|done]. exfalso.
    apply starts_with_spec, prefix_length in Es. rewrite length_take in Es. lia.
  - apply reconfigure_at_causal; [by apply causal_take|].
    rewrite take_app. rewrite take_ge by done. by apply prefix_app_r.
Qed.

Lemma history_ok l : lin_history l -> lin_ok l.
Proof.
  induction 1 as [|ix|l node hs l' _ [Hw Hb Hc] Ha|l through ix l' _ IH Hs Hr].
  - split; [apply wf_empty|apply causal_nil|done].
  - split; [apply wf_empty|apply causal_nil|done].
  - pose proof (add_ok _ _ _ _ Ha) as (_ & _ & _ & _ & _ & _ & Eb & Ec & _).
    split; [by eapply wf_add| |by rewrite Ec, Eb]. rewrite Eb. by eapply causal_add.
  - destruct (reconfigure_spec l through ix IH Hs) as (c & _ & _ & Hc & E). rewrite E in Hr.
    destruct (length c <? through)%nat; [by injection Hr|]. destruct (through <? _)%nat; [by injection Hr|].
    injection Hr as <-. split; [apply wf_config, IH| |done]. cbn.
    apply (causal_take _ _ through) in Hc. exact Hc.
Qed.

(** ** Quorum degrees *)

Definition deg_bound (B : N) (m : gmap WriterKey N) : Prop := map_Forall (λ _ d, d <= B) m.

Lemma degree_loop_done f ix pre author sv m deg d B :
  deg_bound B pre -> (sv <= 1)%nat -> (2 <= m)%nat -> deg <= B + 1 -> 1 <= d -> deg < d ->
  (N.to_nat (B + 3 - d) <= f)%nat -> d <= B + 2 ->
  exists r, degree_loop f ix pre author sv m deg d = Done r /\ r <= B + 1.
Proof.
  intros HB Hsv Hm. revert deg d. induction f as [|f IH]; intros deg d Hdeg Hd1 Hlt Hf Hd; [lia|].
  cbn [degree_loop]. destruct (m <=? _)%nat eqn:Eg; [|by exists deg].
  apply Nat.leb_le in Eg.
  assert (Hex : exists w, w ∈ filter (λ w, vouches pre author (d - 1) w = true) ix).
  { destruct (filter _ ix) as [|w r] eqn:Ef; [cbn in Eg; lia|]. exists w. by left. }
  destruct Hex as (w & [Hv _]%list_elem_of_filter). unfold vouches in Hv.
  apply andb_true_iff in Hv as [_ Hv]. destruct (pre !! w) as [pd|] eqn:Ew; [|done].
  apply N.leb_le in Hv. apply HB in Ew. cbn in Ew. apply IH; lia.
Qed.

Lemma join_degree_bound B m e : deg_bound B m -> e.2 <= B -> deg_bound B (join_degree m e).
Proof.
  destruct e as [w d]. cbn. intros Hm Hd. apply map_Forall_insert_2; [|done].
  destruct (m !! w) as [x|] eqn:E; [|done]. apply Hm in E. cbn in E. lia.
Qed.

Lemma join_degrees_bound B m es :
  deg_bound B m -> (forall e, e ∈ es -> e.2 <= B) -> deg_bound B (foldl join_degree m es).
Proof.
  revert m. induction es as [|e es IH]; intros m Hm He; [done|]. cbn [foldl]. apply IH.
  - apply join_degree_bound; [done|]. apply He. by left.
  - intros e' He'. apply He. by right.
Qed.

Lemma pre_bound B (q : QState) ds p :
  (forall v bd, bestdeg q !! v = Some bd -> deg_bound B bd) -> deg_bound B p ->
  deg_bound B (foldl (λ p d, foldl join_degree p (bmap_list (default ∅ (bestdeg q !! d)))) p ds).
Proof.
  intros Hq. revert p. induction ds as [|d ds IH]; intros p Hp; [done|]. cbn [foldl]. apply IH.
  apply join_degrees_bound; [done|]. intros [w x] Hin%bmap_list_elem.
  destruct (bestdeg q !! d) as [bd|] eqn:E; [|done]. by apply (Hq d bd E) in Hin.
Qed.

Lemma quorum_step_done fuel l ix m target q v B :
  (2 <= m)%nat -> (N.to_nat (B + 2) <= fuel)%nat ->
  (forall v bd, bestdeg q !! v = Some bd -> deg_bound B bd) -> max_degree q <= B ->
  exists q', quorum_step fuel l ix m target q v = Done q' /\ max_degree q' <= B + 1
    /\ forall v bd, bestdeg q' !! v = Some bd -> deg_bound (B + 1) bd.
Proof.
  intros Hm Hf Hq Hmax. unfold quorum_step. cbn zeta.
  set (ds := bset_list _). set (st := bool_decide (v = target) || _). set (pre := foldl _ ∅ ds).
  assert (Hpre : deg_bound B pre) by (apply pre_bound; [done|apply map_Forall_empty]).
  assert (Hdeg : exists d, (if st then degree_loop fuel (bset_list ix) pre (key v)
      (if bool_decide (key v ∈ ix) then 1 else 0)%nat m 0 1 else Done 0) = Done d /\ d <= B + 1).
  { destruct st; [|by exists 0; split; [|lia]].
    apply degree_loop_done; [done|case_bool_decide; lia|done|lia..]. }
  destruct Hdeg as (d & -> & Hd). rsimpl. eexists. split; [done|]. cbn [bestdeg max_degree]. split.
  - destruct (st && _); lia.
  - intros x bd. destruct (decide (x = v)) as [->|Hne].
    + rewrite lookup_insert_eq. intros [= <-].
      assert (deg_bound (B + 1) pre) by (eapply map_Forall_impl; [done|]; cbn; lia).
      destruct (st && _); [|done]. exact (join_degree_bound (B + 1) pre (key v, d) H Hd).
    + rewrite lookup_insert_ne by done. intros E. eapply map_Forall_impl; [by eapply Hq|]. cbn. lia.
Qed.

Lemma quorum_fold_done fuel l ix m target vs q B :
  (2 <= m)%nat -> (N.to_nat (B + lenN vs + 1) <= fuel)%nat ->
  (forall v bd, bestdeg q !! v = Some bd -> deg_bound B bd) -> max_degree q <= B ->
  exists q', foldM (quorum_step fuel l ix m target) q vs = Done q' /\ max_degree q' <= B + lenN vs.
Proof.
  intros Hm. revert q B. induction vs as [|v vs IH]; intros q B Hf Hq Hmax; cbn [foldM].
  { exists q. split; [done|]. rewrite lenN_nil. lia. }
  rewrite lenN_cons in *.
  destruct (quorum_step_done fuel l ix m target q v B Hm ltac:(lia) Hq Hmax) as (q1 & -> & Hm1 & Hq1). rsimpl.
  destruct (IH q1 (B + 1)) as (q2 & E & Hm2); [lia|done..|]. exists q2. split; [done|]. lia.
Qed.

Lemma degree_loop_hangs f ix pre author m deg d :
  (m <= 1)%nat -> degree_loop f ix pre author 1 m deg d = OutOfFuel.
Proof.
  intros Hm. revert deg d. induction f as [|f IH]; intros deg d; [done|]. cbn [degree_loop].
  rewrite (proj2 (Nat.leb_le _ _)) by lia. apply IH.
Qed.

Lemma quorum_step_cases fuel l ix m target q v :
  (exists q', quorum_step fuel l ix m target q v = Done q')
  \/ quorum_step fuel l ix m target q v = OutOfFuel.
Proof.
  unfold quorum_step. cbn zeta. destruct (_ || _); rsimpl; [|left; by eexists].
  set (r := degree_loop _ _ _ _ _ _ _ _).
  assert (Hr : (exists d, r = Done d) \/ r = OutOfFuel).
  { unfold r. clear r. generalize 0%N 1%N. induction fuel as [|f IH]; intros a b; [by right|].
    cbn [degree_loop]. destruct (m <=? _)%nat; [apply IH|left; by eexists]. }
  destruct Hr as [[d ->]| ->]; [left; by eexists|by right].
Qed.

Lemma quorum_fold_hangs fuel l ix m target vs q :
  (m <= 1)%nat -> key target ∈ ix -> target ∈ vs ->
  foldM (quorum_step fuel l ix m target) q vs = OutOfFuel.
Proof.
  intros Hm Hk. revert q. induction vs as [|v vs IH]; intros q Hin; [set_solver|]. cbn [foldM].
  destruct (decide (v = target)) as [->|Hne].
  - assert (E : quorum_step fuel l ix m target q target = OutOfFuel); [|by rewrite E].
    unfold quorum_step. cbn zeta. rewrite !bool_decide_eq_true_2 by done. cbn [orb].
    by rewrite degree_loop_hangs.
  - destruct (quorum_step_cases fuel l ix m target q v) as [[q' ->]| ->]; [|done]. rsimpl.
    apply IH. by apply elem_of_cons in Hin as [?|?].
Qed.

(** ** Properties *)

(** C31: Every linearizer reached by deliveries and reconfigurations is well formed:
    its dependencies are closed and acyclic, [dependents] is their converse, each
    writer's nodes are an unbroken chain up to [next_seq], and the pinned base is
    a causally ordered list of stored nodes with its clock beside it. *)
Theorem linearizer_invariant l :
  lin_history l -> wf l /\ causal l (base l) /\ base_clock l = clock_of_list (base l).
Proof. intros [Hw Hb Hc]%history_ok. done. Qed.

(** [add] decides a delivery by its first failing check: a stored node is a
    duplicate, a wrong sequence number is a gap, a head that is not stored is
    missing, and the state is then unchanged; otherwise the node is stored with
    its heads and its predecessor as dependencies. *)
Theorem add_correct l node hs :
  lin_history l ->
  match add l node hs with
  | (l', Err (Duplicate n)) => l' = l /\ n = node /\ node ∈ dom (deps l)
  | (l', Err (Gap k expected got)) =>
      l' = l /\ k = key node /\ got = seq node /\ node ∉ dom (deps l) /\ got <> expected
      /\ forall s, mkNode k s ∈ dom (deps l) <-> s < expected
  | (l', Err (MissingHead h)) => l' = l /\ h ∈ hs /\ h ∉ dom (deps l)
  | (l', Ok _) =>
      lin_history l' /\ dom (deps l') = {[ node ]} ∪ dom (deps l) /\ node ∉ dom (deps l)
      /\ (forall h, h ∈ hs -> h ∈ dom (deps l))
      /\ (forall n, n <> node -> deps_of l' n = deps_of l n)
      /\ forall d, d ∈ deps_of l' node <->
           d <> node /\ (d ∈ hs \/ (0 < seq node /\ d = mkNode (key node) (seq node - 1)))
  end.
Proof.
  intros Hh. destruct (history_ok l Hh) as [Hw _ _]. destruct (add l node hs) as [l' [[]|e]] eqn:Ea.
  - pose proof (add_ok _ _ _ _ Ea) as (Hn & _ & Hhs & Ed & _). split_and!.
    + by eapply lh_add.
    + rewrite Ed. set_solver.
    + done.
    + done.
    + intros n Hne. by rewrite (deps_of_add l node hs l' n Ea), decide_False.
    + intros d. by rewrite (deps_of_add l node hs l' node Ea), decide_True, dep_set_spec.
  - unfold add in Ea. destruct (contains l node) eqn:Ec.
    { injection Ea as <- <-. apply contains_spec in Ec. done. }
    apply contains_false in Ec.
    destruct (N.eqb_spec (seq node) (expected_seq l (key node))) as [Es|Es]; cbn [negb] in Ea.
    + destruct (missing_head l hs) as [h|] eqn:Eh; [|done]. injection Ea as <- <-.
      apply missing_head_some in Eh as [? ?]. done.
    + injection Ea as <- <-. split_and!; [done..|]. intros s. by apply wf_next.
Qed.

(** C6: Strong convergence: two replicas that start alike and accept the same
    events, in whatever order each of them got them, hold the same state, and so
    compute the same order and the same finalized prefix. *)
Theorem delivery_convergence l evs1 evs2 l1 l2 :
  lin_history l -> evs1 ≡ₚ evs2 -> deliver l evs1 = Ok l1 -> deliver l evs2 = Ok l2 ->
  l1 = l2 /\ order l1 = order l2 /\ finalized l1 = finalized l2.
Proof.
  intros Hh Hp E1 E2. assert (l1 = l2) as <-; [|done].
  by apply (deliver_converges l evs1 evs2); [apply history_ok|..].
Qed.

(** C30: [order] returns, without a panic, a causal order of exactly the stored
    nodes; the finalized prefix [confirmed_view] is a prefix of it that starts with
    the pinned base and is closed under dependencies; and the rest is the
    priority-Kahn order, which takes at every turn the least ready node. *)
Theorem order_correct l :
  lin_history l -> lin_small l ->
  exists c rest, confirmed_view l = Done c /\ order l = Done (c ++ rest)
    /\ base l `prefix_of` c /\ causal l (c ++ rest) /\ (forall n, n ∈ c ++ rest <-> n ∈ dom (deps l))
    /\ (forall n d, n ∈ c -> d ∈ deps_of l n -> d ∈ c)
    /\ kahn l (dom (deps l) ∖ list_to_set c) (list_to_set c) rest.
Proof.
  intros [Hw Hb _]%history_ok Hs. destruct (order_spec l Hw Hs Hb) as (c & rest & Ec & Eo & [Hc Hn] & Hk).
  destruct (confirmed_view_spec l Hw Hs Hb) as (o & Ec' & Hc').
  assert (c = base l ++ o) as -> by congruence.
  exists (base l ++ o), rest. split_and!; [done|done|by apply prefix_app_r|done|done| |done].
  intros n d. by apply causal_deps.
Qed.

(** Without indexers, and whenever nothing is confirmed, the order is the one
    list in which every node is the least among the nodes whose dependencies are
    all before it: any list with that property is the order. *)
Theorem plain_order_unique l o :
  lin_history l -> lin_small l -> confirmed_view l = Done [] ->
  order l = Done o <-> kahn l (dom (deps l)) ∅ o.
Proof.
  intros [Hw Hb _]%history_ok Hs Ec. unfold order. rewrite Ec. rsimpl.
  destruct (plain_order_kahn l Hw Hs) as (o' & -> & Hk). split; [by intros [= ->]|].
  intros Hk'. f_equal. by eapply kahn_unique.
Qed.

(** [sees] decides reachability along stored dependencies and [clock] measures
    it: a stored node's clock includes a writer's node exactly when it sees it. *)
Theorem sees_clock_correct l a b k s :
  lin_history l ->
  (sees l a b = true <-> rtc (λ x y, y ∈ deps_of l x) a b)
  /\ (a ∈ dom (deps l) -> includes (clock l a) k (s + 1) = sees l a (mkNode k s)).
Proof.
  intros [Hw _ _]%history_ok. split; [by apply sees_spec|]. by apply clock_includes_sees.
Qed.

(** [reconfigure] fails only for a length beyond the confirmed view or below the
    current base; otherwise it pins the confirmed prefix of that length, the DAG is
    untouched, and the finalized view of the new configuration starts with it. *)
Theorem reconfigure_correct l through ix :
  lin_history l -> lin_small l ->
  exists c, confirmed_view l = Done c /\
  match reconfigure l through ix with
  | Done (l', Ok _) =>
      (length (base l) <= through <= length c)%nat /\ base l' = take through c
      /\ indexers l' = Some (list_to_set ix) /\ deps l' = deps l /\ lin_history l'
      /\ exists o, finalized l' = Done (take through c ++ o)
  | Done (l', Err BaseShrinks) => l' = l /\ (through < length (base l))%nat
  | Done (l', Err (BeyondConfirmed n w)) => l' = l /\ n = length c /\ w = through /\ (n < w)%nat
  | _ => False
  end.
Proof.
  intros Hh Hs. pose proof (history_ok l Hh) as Hok.
  destruct (reconfigure_spec l through ix Hok Hs) as (c & Ec & Hp & Hc & E). exists c. split; [done|].
  rewrite E. destruct (Nat.ltb_spec (length c) through); [done|].
  destruct (Nat.ltb_spec through (length (base l))) as [?|Hge]; [done|].
  set (l' := mkLin _ _ _ _ _ _). assert (Hh' : lin_history l').
  { eapply (lh_reconfigure l through ix); [done..|]. rewrite E.
    destruct (Nat.ltb_spec (length c) through); [lia|].
    by destruct (Nat.ltb_spec through (length (base l))); [lia|]. }
  split_and!; try done. destruct (history_ok l' Hh') as [Hw' Hb' _].
  destruct (confirmed_view_spec l' Hw') as (o & Eo & _); [done..|]. by exists o.
Qed.

(** [quorum_degree] returns whenever there are at least two indexers, a degree
    no larger than the number of nodes. *)
Theorem quorum_degree_terminates l ix target :
  lin_history l -> lin_small l -> indexers l = Some ix -> (2 <= size ix)%nat ->
  exists d, quorum_degree l target = Done d /\ d <= N.of_nat (size (deps l)).
Proof.
  intros [Hw _ _]%history_ok Hs Hix Hsz. unfold quorum_degree, quorum_degree_with, majority. rewrite Hix.
  cbn [fmap option_fmap option_map]. destruct (negb _); [exists 0; split; [done|lia]|].
  destruct (plain_order_kahn l Hw Hs) as (o & -> & Hnd & Hin & _). rsimpl.
  assert (El : lenN o = N.of_nat (size (deps l))).
  { unfold lenN. rewrite <- size_dom, <- (size_list_to_set (C:=gset NodeId) o) by done. do 2 f_equal.
    apply set_eq. intros n. by rewrite elem_of_list_to_set. }
  destruct (quorum_fold_done (S (S (size (deps l)))) l ix (size ix / 2 + 1) target o (mkQ ∅ ∅ 0) 0)
    as (q & -> & Hq); [|rewrite El; lia|done|done|].
  - pose proof (Nat.div_str_pos (size ix) 2 ltac:(lia)). lia.
  - rsimpl. exists (max_degree q). split; [done|]. by rewrite <- El.
Qed.

(** With a single indexer [quorum_degree] of one of its own nodes never returns:
    the author's vote alone is a majority at every level, and no number of rounds
    ends the inner loop. *)
Theorem quorum_degree_hangs l ix target fuel :
  lin_history l -> lin_small l -> indexers l = Some ix -> size ix = 1%nat ->
  key target ∈ ix -> target ∈ dom (deps l) -> quorum_degree_with fuel l target = OutOfFuel.
Proof.
  intros [Hw _ _]%history_ok Hs Hix Hsz Hk Ht. unfold quorum_degree_with, majority. rewrite Hix.
  cbn [fmap option_fmap option_map]. rewrite Hsz. rewrite (proj2 (contains_spec l target)) by done. cbn [negb].
  destruct (plain_order_kahn l Hw Hs) as (o & -> & _ & Hin & _). rsimpl.
  rewrite quorum_fold_hangs; [done|done|done|by apply Hin].
Qed.

(** Two nodes, the second after the first. *)
Lemma ok_pair {A E} (r : A * result E unit) : r.2 = Ok tt -> r = (r.1, Ok tt).
Proof. destruct r as [a [[]|]]; [done|done]. Qed.

Definition a0 : NodeId := mkNode [x01] 0.
Definition b0 : NodeId := mkNode [x02] 0.
Definition dag1 : Linearizer := (add new a0 []).1.
Definition dag2 : Linearizer := (add dag1 b0 [a0]).1.
Lemma dag2_history : lin_history dag2.
Proof.
  eapply (lh_add dag1 b0 [a0]); [|apply ok_pair; vm_compute; reflexivity].
  eapply (lh_add new a0 []); [apply lh_new|apply ok_pair; vm_compute; reflexivity].
Qed.

(** [reconfigure_at] checks that the base is closed but not that it is ordered:
    it accepts one that lists a node before its dependency, and the order of the
    linearizer then starts with that inversion. *)
Theorem reconfigure_at_unordered :
  exists l bs ix l' o a b, lin_history l /\ reconfigure_at l bs ix = (l', Ok tt)
    /\ order l' = Done o /\ o !! 0%nat = Some a /\ o !! 1%nat = Some b /\ b ∈ deps_of l' a.
Proof.
  exists dag2, [b0; a0], [[x01]; [x02]; [x03]], (reconfigure_at dag2 [b0; a0] [[x01]; [x02]; [x03]]).1,
    [b0; a0], b0, a0.
  split; [exact dag2_history|]. split; [apply ok_pair; vm_compute; reflexivity|].
  split; [vm_compute; reflexivity|]. split; [done|]. split; [done|].
  apply (bool_decide_unpack _). vm_compute. exact I.
Qed.

(** ** Concrete inputs *)

Lemma deliver_history l evs l' : lin_history l -> deliver l evs = Ok l' -> lin_history l'.
Proof.
  revert l. induction evs as [|[n hs] evs IH]; intros l Hl; cbn [deliver]; [by intros [= <-]|].
  destruct (add l n hs) as [l1 [[]|]] eqn:Ea; [|done]. apply IH. by eapply lh_add.
Qed.

Definition delivered (l : Linearizer) (evs : list (NodeId * list NodeId)) : Linearizer :=
  match deliver l evs with Ok l' => l' | Err _ => l end.

Lemma delivered_ok l evs : is_ok (deliver l evs) = true -> deliver l evs = Ok (delivered l evs).
Proof. unfold delivered. by destruct (deliver l evs). Qed.

(** Three indexers taking turns twice; the second delivery swaps two events that
    are not ordered. *)
Definition wA : WriterKey := [x01].
Definition wB : WriterKey := [x02].
Definition wC : WriterKey := [x03].
Definition turns : list (NodeId * list NodeId) :=
  [(mkNode wA 0, []); (mkNode wB 0, []); (mkNode wC 0, [mkNode wA 0; mkNode wB 0]);
   (mkNode wA 1, [mkNode wC 0]); (mkNode wB 1, [mkNode wA 1]); (mkNode wC 1, [mkNode wB 1])].
Definition turns' : list (NodeId * list NodeId) :=
  [(mkNode wB 0, []); (mkNode wA 0, []); (mkNode wC 0, [mkNode wA 0; mkNode wB 0]);
   (mkNode wA 1, [mkNode wC 0]); (mkNode wB 1, [mkNode wA 1]); (mkNode wC 1, [mkNode wB 1])].
Definition three : Linearizer := with_indexers [wA; wB; wC].
Definition dag6 : Linearizer := delivered three turns.

Lemma dag6_deliver : deliver three turns = Ok dag6.
Proof. apply delivered_ok. vm_compute. reflexivity. Qed.
Lemma dag6_history : lin_history dag6.
Proof. eapply deliver_history; [apply lh_indexers|apply dag6_deliver]. Qed.
Lemma dag6_small : lin_small dag6.
Proof. unfold lin_small. vm_compute. reflexivity. Qed.

Lemma linearizer_invariant_witness : wf dag6 /\ causal dag6 [] /\ base_clock dag6 = clock_of_list [].
Proof. apply (linearizer_invariant dag6 dag6_history). Defined.

Lemma add_correct_witness :
  match add dag2 (mkNode wA 2) [] with
  | (l', Err (Gap k expected got)) =>
      l' = dag2 /\ k = wA /\ got = 2 /\ mkNode wA 2 ∉ dom (deps dag2) /\ got <> expected
      /\ forall s, mkNode k s ∈ dom (deps dag2) <-> s < expected
  | _ => False
  end.
Proof.
  pose proof (add_correct dag2 (mkNode wA 2) [] dag2_history) as H.
  assert (E : (add dag2 (mkNode wA 2) []).2 = Err (Gap wA 1 2)) by (vm_compute; reflexivity).
  destruct (add dag2 (mkNode wA 2) []) as [l' r]. cbn [snd] in E. subst r. exact H.
Defined.

Lemma delivery_convergence_witness :
  dag6 = delivered three turns' /\ order dag6 = order (delivered three turns')
  /\ finalized dag6 = finalized (delivered three turns').
Proof.
  apply (delivery_convergence three turns turns'); [apply lh_indexers|apply perm_swap|exact dag6_deliver|].
  apply delivered_ok. vm_compute. reflexivity.
Defined.

Lemma order_correct_witness :
  exists c rest, confirmed_view dag6 = Done c /\ order dag6 = Done (c ++ rest)
    /\ base dag6 `prefix_of` c /\ causal dag6 (c ++ rest)
    /\ (forall n, n ∈ c ++ rest <-> n ∈ dom (deps dag6))
    /\ (forall n d, n ∈ c -> d ∈ deps_of dag6 n -> d ∈ c)
    /\ kahn dag6 (dom (deps dag6) ∖ list_to_set c) (list_to_set c) rest.
Proof. apply (order_correct dag6 dag6_history dag6_small). Defined.

Lemma plain_order_unique_witness :
  order dag2 = Done [a0; b0] <-> kahn dag2 (dom (deps dag2)) ∅ [a0; b0].
Proof.
  apply (plain_order_unique dag2 [a0; b0] dag2_history); [unfold lin_small|]; vm_compute; reflexivity.
Defined.

Lemma sees_clock_correct_witness :
  (sees dag2 b0 a0 = true <-> rtc (λ x y, y ∈ deps_of dag2 x) b0 a0)
  /\ (b0 ∈ dom (deps dag2) -> includes (clock dag2 b0) wA 1 = sees dag2 b0 a0).
Proof. apply (sees_clock_correct dag2 b0 a0 wA 0 dag2_history). Defined.

Lemma reconfigure_correct_witness :
  exists c, confirmed_view dag6 = Done c /\
  match reconfigure dag6 1 [wA] with
  | Done (l', Ok _) =>
      (0 <= 1 <= length c)%nat /\ base l' = take 1 c
      /\ indexers l' = Some (list_to_set [wA]) /\ deps l' = deps dag6 /\ lin_history l'
      /\ exists o, finalized l' = Done (take 1 c ++ o)
  | _ => False
  end.
Proof.
  destruct (reconfigure_correct dag6 1 [wA] dag6_history dag6_small) as (c & Ec & H).
  exists c. split; [exact Ec|].
  assert (E : ((λ r : Linearizer * result ReconfigureError unit, r.2) <$> reconfigure dag6 1 [wA]) = Done (Ok tt))
    by (vm_compute; reflexivity).
  destruct (reconfigure dag6 1 [wA]) as [[l' r]| |]; [|done|done].
  injection E as E. cbn [snd] in E. subst r. exact H.
Defined.

Lemma quorum_degree_terminates_witness :
  exists d, quorum_degree dag6 (mkNode wA 0) = Done d /\ d <= N.of_nat (size (deps dag6)).
Proof.
  apply (quorum_degree_terminates dag6 (list_to_set [wA; wB; wC]) (mkNode wA 0) dag6_history dag6_small).
  - pose proof (deliver_spec three turns dag6 (ok_wf _ (history_ok _ (lh_indexers _))) dag6_deliver)
      as (_ & _ & _ & _ & E & _). exact E.
  - vm_compute. lia.
Defined.

Definition solo : Linearizer := (add (with_indexers [wA]) (mkNode wA 0) []).1.
Lemma quorum_degree_hangs_witness : quorum_degree_with 1000 solo (mkNode wA 0) = OutOfFuel.
Proof.
  apply (quorum_degree_hangs solo (list_to_set [wA]) (mkNode wA 0) 1000).
  - eapply (lh_add (with_indexers [wA]) (mkNode wA 0) []); [apply lh_indexers|apply ok_pair; vm_compute; reflexivity].
  - unfold lin_small. vm_compute. reflexivity.
  - reflexivity.
  - vm_compute. reflexivity.
  - apply (bool_decide_unpack _). vm_compute. exact I.
  - apply (bool_decide_unpack _). vm_compute. exact I.
Defined.
End LinearizerTheorems.
