(* ===== verification/LinearizerFinality.v ===== *)
(** * [autobase]: finality is not stable

    Four indexers that each keep a linearizer of [src/crates/autobase/src/linearizer.rs],
    write only what names all they have seen and hear only what was written: a history
    of theirs in which one more delivery reorders nodes that [finalized] had already
    given out. *)
From S2P Require Import Prelude Linearizer LinearizerDag LinearizerOrder LinearizerReach LinearizerView LinearizerTheorems.
From Stdlib Require Import Strings.Byte.

Module LinearizerFinality.
Import Linearizer LinearizerTheorems.

(** ** Honest writers *)

(** The linearizer of each writer, and the nodes written with the heads they name. *)
Record net := mkNet { replicas : gmap WriterKey Linearizer; written : list (NodeId * list NodeId) }.

Definition start (ix : list WriterKey) : net := mkNet (list_to_map ((λ k, (k, with_indexers ix)) <$> ix)) [].

(** A writer's next node names every head of its linearizer and is delivered there; a
    writer hears of a node as it was written. *)
Inductive honest_step : net -> net -> Prop :=
| writes R W k l l' :
    R !! k = Some l -> add l (mkNode k (expected_seq l k)) (bset_list (heads l)) = (l', Ok tt) ->
    honest_step (mkNet R W) (mkNet (<[k := l']> R) (W ++ [(mkNode k (expected_seq l k), bset_list (heads l))]))
| hears R W k l node hs l' :
    R !! k = Some l -> (node, hs) ∈ W -> add l node hs = (l', Ok tt) ->
    honest_step (mkNet R W) (mkNet (<[k := l']> R) W).

Inductive honest (ix : list WriterKey) : net -> Prop :=
| honest_start : honest ix (start ix)
| honest_next s s' : honest ix s -> honest_step s s' -> honest ix s'.

(** ** The steps as functions, to evaluate a history *)

Inductive action := Writes (k : WriterKey) | Hears (k : WriterKey) (node : NodeId).

Definition act (s : net) (a : action) : option net :=
  match a with
  | Writes k =>
      l ← replicas s !! k;
      let node := mkNode k (expected_seq l k) in
      let hs := bset_list (heads l) in
      match add l node hs with
      | (l', Ok _) => Some (mkNet (<[k := l']> (replicas s)) (written s ++ [(node, hs)]))
      | _ => None
      end
  | Hears k node =>
      l ← replicas s !! k;
      x ← list_find (λ x, x.1 = node) (written s);
      match add l x.2.1 x.2.2 with
      | (l', Ok _) => Some (mkNet (<[k := l']> (replicas s)) (written s))
      | _ => None
      end
  end.
Definition play (s : net) (l : list action) : option net := foldl (λ o a, s ← o; act s a) (Some s) l.

Lemma act_honest s a s' : act s a = Some s' -> honest_step s s'.
Proof.
  destruct s as [R W]. destruct a as [k|k node]; cbn [act replicas written]; intros (l & Hl & Ha)%bind_Some.
  - destruct (add _ _ _) as [l' [[]|]] eqn:Ea; [|done]. injection Ha as <-. by eapply writes.
  - apply bind_Some in Ha as ([i [n hs]] & (Hw & _ & _)%list_find_Some & Ha). cbn [fst snd] in Ha.
    destruct (add l n hs) as [l' [[]|]] eqn:Ea; [|done]. injection Ha as <-.
    eapply hears; [done|by eapply list_elem_of_lookup_2|done].
Qed.
Lemma play_honest ix l s : play (start ix) l = Some s -> honest ix s.
Proof.
  revert s. induction l as [|a l IH] using rev_ind; intros s; unfold play; [intros [= <-]; constructor|].
  rewrite foldl_app. intros (s1 & Hs1 & Ha)%bind_Some. eapply honest_next; [by apply IH|by eapply act_honest].
Qed.

(** Every linearizer of an honest network is one of a history. *)
Lemma honest_history ix s k l : honest ix s -> replicas s !! k = Some l -> lin_history l.
Proof.
  intros Hs. revert k l. induction Hs as [|s s' _ IH Hst]; intros k l.
  - intros Hl%elem_of_list_to_map_2%list_elem_of_fmap. destruct Hl as (k' & [= _ ->] & _). apply lh_indexers.
  - destruct Hst as [R W k' l0 l' Hl0 Ha|R W k' l0 n hs l' Hl0 _ Ha]; cbn [replicas] in *;
      intros [[_ <-]|[_ Hl]]%lookup_insert_Some; try (by eapply IH); (eapply lh_add; [by eapply IH|exact Ha]).
Qed.

(** ** The history *)

Definition w (b : byte) : WriterKey := b :: repeat x00 31.
Definition n (b : byte) (s : N) : NodeId := mkNode (w b) s.
Definition hear (k : byte) (ns : list NodeId) : list action := Hears (w k) <$> ns.

Definition four : list WriterKey := [w x00; w x01; w x02; w x03].
Definition script : list action :=
  [Writes (w x01); Writes (w x03)]
  ++ hear x00 [n x03 0] ++ [Writes (w x00)]
  ++ hear x02 [n x03 0; n x00 0] ++ [Writes (w x02)] ++ hear x02 [n x01 0] ++ [Writes (w x02)]
  ++ hear x00 [n x01 0; n x02 0; n x02 1] ++ [Writes (w x00); Writes (w x02)]
  ++ hear x00 [n x02 2] ++ [Writes (w x00)]
  ++ hear x03 [n x00 0; n x01 0; n x02 0; n x02 1; n x00 1; n x02 2; n x00 2] ++ [Writes (w x03)]
  ++ hear x01 [n x03 0; n x00 0; n x02 0; n x02 1; n x00 1; n x02 2; n x00 2; n x03 1] ++ [Writes (w x01)]
  ++ hear x03 [n x01 1] ++ [Writes (w x03)]
  ++ hear x00 [n x03 1; n x01 1] ++ [Writes (w x00)].
Definition last_delivery : action := Hears (w x03) (n x00 3).

Definition fin_before : list NodeId := [n x03 0; n x00 0; n x01 0; n x02 0; n x02 1].
Definition fin_after : list NodeId := [n x01 0; n x03 0; n x00 0; n x02 0; n x02 1; n x00 1; n x02 2; n x00 2].

Definition finalizes (o : option Linearizer) (fin : list NodeId) : bool :=
  match o with
  | Some l => match finalized l with Done fin' => bool_decide (fin' = fin) | _ => false end
  | None => false
  end.
Lemma finalizes_spec o fin : finalizes o fin = true -> exists l, o = Some l /\ finalized l = Done fin.
Proof.
  unfold finalizes. destruct o as [l|]; [|done]. destruct (finalized l) eqn:Ef; [|done..].
  intros ->%bool_decide_eq_true_1. by exists l.
Qed.

Definition reorders : bool :=
  match play (start four) script with
  | Some s =>
      finalizes (replicas s !! w x03) fin_before
      && match act s last_delivery with Some s' => finalizes (replicas s' !! w x03) fin_after | None => false end
  | None => false
  end.
Lemma reorders_true : reorders = true.
Proof. vm_cast_no_check (@eq_refl bool true). Qed.

(** C22: The finalized prefix is not stable under honest growth: there are four
    indexers, each of which names in every node all the heads it has seen and delivers
    every node as it was written, and a moment at which one of them, by one more
    delivery, puts the node it had finalized third in front of all it had finalized.
    A room that had folded the first prefix and folds what is new after it has folded
    another sequence than one that is given the history at once. *)
Theorem finality_unstable :
  exists ix s s' k l l' fin fin',
    honest ix s /\ honest_step s s' /\ replicas s !! k = Some l /\ replicas s' !! k = Some l'
    /\ written s' = written s /\ lin_history l /\ lin_history l'
    /\ finalized l = Done fin /\ finalized l' = Done fin'
    /\ (length fin < length fin')%nat /\ ~ fin `prefix_of` fin' /\ fin !! 2%nat = fin' !! 0%nat
    /\ fin ++ drop (length fin) fin' <> fin' /\ (length (fin ++ drop (length fin) fin') = length fin')%nat.
Proof.
  pose proof reorders_true as Hr. unfold reorders in Hr. destruct (play (start four) script) as [s|] eqn:Es; [|done].
  apply andb_true_iff in Hr as [(l & Hl & Hf)%finalizes_spec Hr]. destruct (act s last_delivery) as [s'|] eqn:Ea; [|done].
  apply finalizes_spec in Hr as (l' & Hl' & Hf'). pose proof (play_honest _ _ _ Es) as Hs. pose proof (act_honest _ _ _ Ea) as Hst.
  exists four, s, s', (w x03), l, l', fin_before, fin_after. split_and!; [done..| | | |done|done|cbn; lia| |done| |done].
  - destruct s as [R W]. cbn [act last_delivery replicas written] in Ea. apply bind_Some in Ea as (? & _ & (? & _ & Ea)%bind_Some).
    destruct (add _ _ _) as [? [[]|]]; [|done]. by injection Ea as <-.
  - by eapply honest_history.
  - eapply honest_history; [by eapply honest_next|done].
  - intros [k Hk]. discriminate Hk.
  - discriminate.
Qed.
End LinearizerFinality.
