(* ===== verification/Hypercore.v ===== *)
(** * [hypercore]: the signed append-only log

    The model of [src/crates/hypercore/src/lib.rs], [core.rs], [stream.rs] and
    [snapshot.rs].  A core is a record of its keys, its store, its Merkle tree,
    its presence map and its signed head; a [&mut self] method is an [act] on it,
    a [&self] method a function of it.  The store, the codec, BLAKE3 and ed25519
    are the parameters of the section; the methods of the tree and the presence
    map are those of Merkle and Bitfield, called in the order of the source. *)
From S2P Require Import Prelude Codec Flat Merkle Store Bitfield Identity.
From Stdlib Require Import Strings.Byte.

Module Hypercore.
Import Identity (PublicKey, SecretKey, Sig).

Definition HEAD_DOMAIN : byte := xc0.

Definition KEY_META : N := u64_max.
Definition KEY_TREE : N := u64_max - 1.
Definition KEY_PRESENCE : N := u64_max - 2.
Definition KEY_USERDATA : N := u64_max - 3.

Definition head_message (fork length : N) (root : bytes) : bytes :=
  [HEAD_DOMAIN] ++ le64 fork ++ le64 length ++ root.

Record Truncation := mkTruncation { tr_from : N; tr_to : N }.

Record Prologue := mkPrologue { p_length : N; p_hash : bytes }.

Record ReadStreamOptions := mkReadOpts {
  ro_start : N; ro_end : option N; ro_reverse : bool; ro_live : bool }.
Definition ReadStreamOptions_default : ReadStreamOptions := mkReadOpts 0 None false false.

Record ByteStreamOptions := mkByteOpts { bo_offset : N; bo_length : option N }.
Definition ByteStreamOptions_default : ByteStreamOptions := mkByteOpts 0 None.

Inductive Error (SE : Type) : Type :=
| Storage (e : SE)
| Codec_ (e : Codec.Error)
| Corrupt
| NotPersisted
| NoPrologue
| PrologueMismatch.
#[global] Arguments Storage {SE} e.
#[global] Arguments Codec_ {SE} e.
#[global] Arguments Corrupt {SE}.
#[global] Arguments NotPersisted {SE}.
#[global] Arguments NoPrologue {SE}.
#[global] Arguments PrologueMismatch {SE}.

Record Batch := mkBatch { base : N; encoded : list bytes }.
Definition Batch_staged (b : Batch) : nat := length (encoded b).
Definition Batch_length (b : Batch) : N := wrap64 (base b + lenN (encoded b)).
Definition Batch_is_empty (b : Batch) : bool := bool_decide (encoded b = []).

Section Heads.
Context `{Hasher} `{Ed25519}.

Record SignedHead := mkHead { h_fork : N; h_length : N; h_root : bytes; h_sig : Sig }.

Definition verify_signed_head (public : PublicKey) (head : SignedHead) : bool :=
  Identity.verify public (head_message (h_fork head) (h_length head) (h_root head)) (h_sig head).

Definition verify_block (public : PublicKey) (head : SignedHead) (index : N) (data : bytes)
    (proof : Merkle.Proof_) : bool :=
  verify_signed_head public head && (Merkle.block proof =? index)
    && Merkle.Proof_verify proof data (h_root head).

(** The tree of a list of blocks, appended in order. *)
Definition rebuild (blocks : list bytes) : run Merkle.MerkleTree :=
  foldM (λ t b, fst <$> Merkle.append t b) Merkle.new blocks.

Definition verify_archived_feed (public : PublicKey) (head : SignedHead) (blocks : list bytes)
    : run bool :=
  tree ← rebuild blocks;
  if negb (h_length head =? Merkle.length tree) then Done false
  else
    root ← Merkle.root_hash tree;
    Done (bool_decide (h_root head = root) && verify_signed_head public head).

Definition conflicting_heads (public : PublicKey) (a b : SignedHead) : bool :=
  (h_fork a =? h_fork b) && (h_length a =? h_length b) && negb (bool_decide (h_root a = h_root b))
    && verify_signed_head public a && verify_signed_head public b.

Record ForkProof := mkForkProof {
  fp_index : N;
  head_a : SignedHead; data_a : bytes; proof_a : Merkle.Proof_;
  head_b : SignedHead; data_b : bytes; proof_b : Merkle.Proof_ }.

Definition ForkProof_verify (p : ForkProof) (public : PublicKey) : bool :=
  (h_fork (head_a p) =? h_fork (head_b p))
    && verify_block public (head_a p) (fp_index p) (data_a p) (proof_a p)
    && verify_block public (head_b p) (fp_index p) (data_b p) (proof_b p)
    && negb (bool_decide (data_a p = data_b p)).

(** ** Persisted metadata *)

(** [bytes.get(off..off + n)] and the bytes after it. *)
Definition take_at (n : N) (bs : bytes) : option (bytes * bytes) :=
  if lenN bs <? n then None else Some (take (N.to_nat n) bs, drop (N.to_nat n) bs).
Definition u64_at (bs : bytes) : option (N * bytes) :=
  '(s, bs) ← take_at 8 bs; Some (from_le s, bs).
Definition tag_at (bs : bytes) : option (byte * bytes) :=
  match bs with b :: bs => Some (b, bs) | [] => None end.

(** The 112 bytes of a signed head. *)
Definition head_bytes (h : SignedHead) : bytes :=
  le64 (h_fork h) ++ le64 (h_length h) ++ h_root h ++ Identity.Sig_to_bytes (h_sig h).
Definition head_at (bs : bytes) : option (SignedHead * bytes) :=
  '(fork, bs) ← u64_at bs;
  '(length, bs) ← u64_at bs;
  '(root, bs) ← take_at 32 bs;
  '(sig, bs) ← take_at 64 bs;
  Some (mkHead fork length root (Identity.Sig_from_bytes sig), bs).

Definition encode_meta_parts (fork : N) (head : option SignedHead) (prologue : option Prologue)
    : bytes :=
  le64 fork
    ++ match head with
       | Some h => [x01] ++ head_bytes h
       | None => [x00]
       end
    ++ match prologue with
       | Some p => [x01] ++ le64 (p_length p) ++ p_hash p
       | None => [x00]
       end.

Definition decode_meta (bs : bytes) : option (N * option SignedHead * option Prologue) :=
  '(fork, bs) ← u64_at bs;
  '(tag, bs) ← tag_at bs;
  '(head, bs) ← match tag with
                | x00 => Some (None, bs)
                | x01 => '(h, bs) ← head_at bs; Some (Some h, bs)
                | _ => None
                end;
  '(tag, bs) ← tag_at bs;
  '(prologue, bs) ← match tag with
                    | x00 => Some (None, bs)
                    | x01 =>
                        '(length, bs) ← u64_at bs;
                        '(hash, bs) ← take_at 32 bs;
                        Some (Some (mkPrologue length hash), bs)
                    | _ => None
                    end;
  if bool_decide (bs = []) then Some (fork, head, prologue) else None.
End Heads.

(** ** Application metadata *)

Definition user_entry (e : bytes * bytes) : bytes :=
  le64 (lenN e.1) ++ e.1 ++ le64 (lenN e.2) ++ e.2.
Definition encode_user_data (map : gmap bytes bytes) : bytes :=
  le64 (N.of_nat (size map)) ++ concat (user_entry <$> bmap_list map).

(** The loop over the claimed count: every round reads 16 bytes at least, so the
    fuel is the length of the buffer. *)
Fixpoint user_entries (fuel : nat) (count : N) (bs : bytes) (map : gmap bytes bytes)
    : option (gmap bytes bytes * bytes) :=
  if count =? 0 then Some (map, bs)
  else
    match fuel with
    | O => None
    | S fuel' =>
        '(kl, bs) ← u64_at bs;
        '(k, bs) ← take_at kl bs;
        '(vl, bs) ← u64_at bs;
        '(v, bs) ← take_at vl bs;
        user_entries fuel' (count - 1) bs (<[k := v]> map)
    end.
Definition decode_user_data (bs : bytes) : option (gmap bytes bytes) :=
  '(count, bs) ← u64_at bs;
  '(map, bs) ← user_entries (length bs) count bs ∅;
  if bool_decide (bs = []) then Some map else None.

(** ** The core *)

Section Core.
Context `{Hasher} `{Ed25519} {T : Type} `{!Codec.Codec T} {S E : Type} `{!Store.Store S E}.

Record Hypercore := mkCore {
  author : SecretKey;
  public : PublicKey;
  store : S;
  tree : Merkle.MerkleTree;
  presence : Bitfield.Bitfield;
  head : option SignedHead;
  fork : N;
  last_truncation : option Truncation;
  prologue : option Prologue }.

Definition set_store (c : Hypercore) (s : S) : Hypercore :=
  mkCore (author c) (public c) s (tree c) (presence c) (head c) (fork c) (last_truncation c) (prologue c).
Definition set_tree (c : Hypercore) (t : Merkle.MerkleTree) : Hypercore :=
  mkCore (author c) (public c) (store c) t (presence c) (head c) (fork c) (last_truncation c) (prologue c).
Definition set_presence (c : Hypercore) (b : Bitfield.Bitfield) : Hypercore :=
  mkCore (author c) (public c) (store c) (tree c) b (head c) (fork c) (last_truncation c) (prologue c).
Definition set_head (c : Hypercore) (h : option SignedHead) : Hypercore :=
  mkCore (author c) (public c) (store c) (tree c) (presence c) h (fork c) (last_truncation c) (prologue c).
Definition set_fork (c : Hypercore) (f : N) : Hypercore :=
  mkCore (author c) (public c) (store c) (tree c) (presence c) (head c) f (last_truncation c) (prologue c).
Definition set_truncation (c : Hypercore) (t : option Truncation) : Hypercore :=
  mkCore (author c) (public c) (store c) (tree c) (presence c) (head c) (fork c) t (prologue c).
Definition set_prologue (c : Hypercore) (p : option Prologue) : Hypercore :=
  mkCore (author c) (public c) (store c) (tree c) (presence c) (head c) (fork c) (last_truncation c) p.

(** A method on [&mut self]. *)
Abbreviation method := (act Hypercore (Error E)).

(** [self.store.put(k, v).map_err(Error::Storage)?] and the like. *)
Definition store_put (k : N) (v : bytes) : method unit := λ c,
  let '(s, r) := Store.put (store c) k v in Done (set_store c s, map_err Storage r).
Definition store_delete (k : N) : method unit := λ c,
  let '(s, r) := Store.delete (store c) k in Done (set_store c s, map_err Storage r).
Definition store_get (c : Hypercore) (k : N) : result (Error E) (option bytes) :=
  map_err Storage (Store.get (store c) k).
Definition tree_append (data : bytes) : method unit := λ c,
  '(t, _) ← Merkle.append (tree c) data; Done (set_tree c t, Ok tt).
Definition presence_set (i : N) (v : bool) : method unit :=
  modify (λ c, set_presence c (Bitfield.set (presence c) i v)).

Definition new (author : SecretKey) (store : S) : Hypercore :=
  mkCore author (Identity.public author) store Merkle.new Bitfield.new None 0 None None.

Definition with_prologue (author : SecretKey) (store : S) (pr : Prologue) : Hypercore :=
  set_prologue (new author store) (Some pr).

Definition prologue_at (c : Hypercore) (length : N) : option Prologue :=
  mkPrologue length <$> Merkle.prefix_root_hash (tree c) length.

Definition verify_prologue (c : Hypercore) : bool :=
  match prologue c with
  | None => true
  | Some pr => bool_decide (Merkle.prefix_root_hash (tree c) (p_length pr) = Some (p_hash pr))
  end.

Definition len (c : Hypercore) : N := Merkle.length (tree c).
Definition is_empty (c : Hypercore) : bool := Merkle.is_empty (tree c).
Definition byte_length (c : Hypercore) : run N := Merkle.byte_length (tree c).
Definition seek (c : Hypercore) (byte_offset : N) : run (N * N) := Merkle.seek (tree c) byte_offset.

(** *** Reading *)

Definition has (c : Hypercore) (index : N) : bool :=
  (index <? Merkle.length (tree c)) && Bitfield.get (presence c) index.

Definition block (c : Hypercore) (index : N) : result (Error E) (option bytes) :=
  if negb (has c index) then Ok None
  else
    v ← store_get c index;
    bs ← ok_or Corrupt v;
    Ok (Some bs).

Definition get (c : Hypercore) (index : N) : result (Error E) (option T) :=
  if negb (has c index) then Ok None
  else
    v ← store_get c index;
    bs ← ok_or Corrupt v;
    value ← map_err Codec_ (Codec.decode bs);
    Ok (Some value).

Definition contiguous_length (c : Hypercore) : run N :=
  first ← Bitfield.find_first (presence c) false 0;
  Done (N.min (default 0 first) (Merkle.length (tree c))).

Definition load_user_data (c : Hypercore) : result (Error E) (gmap bytes bytes) :=
  v ← store_get c KEY_USERDATA;
  match v with
  | Some bs => ok_or Corrupt (decode_user_data bs)
  | None => Ok ∅
  end.

Definition get_user_data (c : Hypercore) (key : bytes) : result (Error E) (option bytes) :=
  map ← load_user_data c;
  Ok (map !! key).

Definition proof (c : Hypercore) (index : N) : run (option Merkle.Proof_) :=
  Merkle.proof (tree c) index.
Definition upgrade_proof (c : Hypercore) (old new_ : N) : run (option Merkle.UpgradeProof) :=
  Merkle.upgrade_proof (tree c) old new_.

Definition verify_head (c : Hypercore) : run bool :=
  match head c with
  | None => Done (Merkle.is_empty (tree c))
  | Some h =>
      if negb (h_fork h =? fork c) then Done false
      else if negb (h_length h =? Merkle.length (tree c)) then Done false
      else
        root ← Merkle.root_hash (tree c);
        Done (bool_decide (h_root h = root) && verify_signed_head (public c) h)
  end.

(** *** Writing *)

Definition set_user_data (key value : bytes) : method unit :=
  map ← asks load_user_data;
  store_put KEY_USERDATA (encode_user_data (<[key := value]> map)).

Definition purge : method unit :=
  n ← reads len;
  _ ← for_each (rangeN 0 n) store_delete;
  _ ← for_each [KEY_META; KEY_TREE; KEY_PRESENCE; KEY_USERDATA] store_delete;
  modify (λ c, mkCore (author c) (public c) (store c) Merkle.new Bitfield.new None 0 None None).

Fixpoint sweep_loop (keep : N -> bool) (l : list N) (swept : N) : method N :=
  match l with
  | [] => mret swept
  | i :: l' =>
      present ← reads (λ c, Bitfield.get (presence c) i);
      if present && negb (keep i) then
        _ ← store_delete i;
        _ ← presence_set i false;
        sweep_loop keep l' (swept + 1)
      else sweep_loop keep l' swept
  end.
Definition sweep (keep : N -> bool) : method N :=
  n ← reads len;
  sweep_loop keep (rangeN 0 n) 0.

Definition resign : method unit := λ c,
  let length := Merkle.length (tree c) in
  root ← Merkle.root_hash (tree c);
  let sig := Identity.sign (author c) (head_message (fork c) length root) in
  Done (set_head c (Some (mkHead (fork c) length root sig)), Ok tt).

Definition append (value : T) : method N :=
  let bs := Codec.encode value in
  index ← reads len;
  _ ← store_put index bs;
  _ ← tree_append bs;
  _ ← presence_set index true;
  _ ← modify (λ c, set_truncation c None);
  _ ← resign;
  mret index.

(** [blocks.push(self.block(index)?.ok_or(Error::Corrupt)?)] for every index. *)
Fixpoint read_blocks (c : Hypercore) (l : list N) : result (Error E) (list bytes) :=
  match l with
  | [] => Ok []
  | i :: l' =>
      v ← block c i;
      bs ← ok_or Corrupt v;
      rest ← read_blocks c l';
      Ok (bs :: rest)
  end.

(** [presence.set(index, true)] for every index of the rebuilt feed. *)
Definition full_presence (n : N) : Bitfield.Bitfield :=
  foldl (λ b i, Bitfield.set b i true) Bitfield.new (rangeN 0 n).

(** [for (offset, bytes) in encs.iter().enumerate() { store.put(start + offset, bytes)? }]. *)
Fixpoint put_from (start : N) (encs : list bytes) : method unit :=
  match encs with
  | [] => mret tt
  | enc :: encs' => _ ← store_put start enc; put_from (wrap64 (start + 1)) encs'
  end.

Definition recover_signed_suffix (h : SignedHead) (suffix : list bytes) : method unit :=
  start ← reads len;
  f ← reads fork;
  if negb (h_fork h =? f) || negb (start + lenN suffix =? h_length h)
     || (two64 <=? start + lenN suffix) then fail Corrupt
  else
    prefix ← asks (λ c, read_blocks c (rangeN 0 start));
    let blocks := prefix ++ suffix in
    ok ← calls (λ c, verify_archived_feed (public c) h blocks);
    if negb ok then fail Corrupt
    else
      t ← runs (rebuild blocks);
      let p := full_presence (lenN blocks) in
      _ ← put_from start suffix;
      _ ← store_put KEY_TREE (Merkle.serialize t);
      _ ← store_put KEY_PRESENCE (Bitfield.serialize p);
      meta ← reads (λ c, encode_meta_parts (fork c) (Some h) (prologue c));
      _ ← store_put KEY_META meta;
      modify (λ c, mkCore (author c) (public c) (store c) t p (Some h) (fork c) None (prologue c)).

Definition truncate (new_len : N) : method (option Truncation) :=
  from ← reads len;
  pr ← reads prologue;
  if match pr with Some pr => new_len <? p_length pr | None => false end then mret None
  else
    done ← (λ c, let '(t, ok) := Merkle.truncate (tree c) new_len in Done (set_tree c t, Ok ok));
    if negb done then mret None
    else
      _ ← (λ c, b ← Bitfield.set_range (presence c) new_len from false;
                Done (set_presence c b, Ok tt));
      _ ← modify (λ c, set_fork c (wrap64 (fork c + 1)));
      let t := mkTruncation from new_len in
      _ ← modify (λ c, set_truncation c (Some t));
      _ ← resign;
      mret (Some t).

Definition batch (c : Hypercore) : Batch := mkBatch (Merkle.length (tree c)) [].
Definition stage (b : Batch) (value : T) : Batch := mkBatch (base b) (encoded b ++ [Codec.encode value]).

Definition batch_get (c : Hypercore) (b : Batch) (index : N) : result (Error E) (option T) :=
  if index <? base b then get c index
  else
    match encoded b !! N.to_nat (index - base b) with
    | Some enc => v ← map_err Codec_ (Codec.decode enc); Ok (Some v)
    | None => Ok None
    end.

(** The failed write's predecessors are deleted, errors of the deletes ignored. *)
Definition rollback (s : S) (written : list N) : S :=
  foldl (λ s w, (Store.delete s w).1) s written.

Fixpoint commit_writes (idx : N) (encs : list bytes) (written : list N) : method unit :=
  match encs with
  | [] => mret tt
  | enc :: encs' => λ c,
      match Store.put (store c) idx enc with
      | (s, Err e) => Done (set_store c (rollback s written), Err (Storage e))
      | (s, Ok _) => commit_writes (wrap64 (idx + 1)) encs' (written ++ [idx]) (set_store c s)
      end
  end.

Fixpoint fold_blocks (idx : N) (encs : list bytes) : method unit :=
  match encs with
  | [] => mret tt
  | enc :: encs' =>
      _ ← tree_append enc;
      _ ← presence_set idx true;
      fold_blocks (wrap64 (idx + 1)) encs'
  end.

Definition commit (b : Batch) : method (option N) :=
  start ← reads len;
  if negb (base b =? start) then mret None
  else if bool_decide (encoded b = []) then mret (Some start)
  else
    _ ← commit_writes start (encoded b) [];
    _ ← fold_blocks start (encoded b);
    _ ← modify (λ c, set_truncation c None);
    _ ← resign;
    n ← reads len;
    mret (Some n).

Definition append_all (values : list T) : method N :=
  if bool_decide (values = []) then reads len
  else
    b ← reads batch;
    _ ← commit (foldl stage b values);
    reads len.

Definition copy_prologue (source : Hypercore) : method N :=
  pr ← asks (λ c, ok_or NoPrologue (prologue c));
  empty ← reads is_empty;
  if negb empty then fail PrologueMismatch
  else if negb (bool_decide (Merkle.prefix_root_hash (tree source) (p_length pr) = Some (p_hash pr)))
  then fail PrologueMismatch
  else
    _ ← for_each (rangeN 0 (p_length pr)) (λ i,
          v ← tries (block source i);
          enc ← tries (ok_or PrologueMismatch v);
          _ ← store_put i enc;
          _ ← tree_append enc;
          presence_set i true);
    _ ← modify (λ c, set_truncation c None);
    _ ← resign;
    mret (p_length pr).

Fixpoint clear_loop (l : list N) (cleared : N) : method N :=
  match l with
  | [] => mret cleared
  | i :: l' =>
      present ← reads (λ c, Bitfield.get (presence c) i);
      if present : bool then
        _ ← presence_set i false;
        _ ← store_delete i;
        clear_loop l' (cleared + 1)
      else clear_loop l' cleared
  end.
Definition clear (start stop : N) : method N :=
  n ← reads len;
  clear_loop (rangeN start (N.min stop n)) 0.

(** *** Durable state *)

Definition encode_meta (c : Hypercore) : bytes := encode_meta_parts (fork c) (head c) (prologue c).

Definition persist : method unit :=
  t ← reads (λ c, Merkle.serialize (tree c));
  p ← reads (λ c, Bitfield.serialize (presence c));
  m ← reads encode_meta;
  _ ← store_put KEY_TREE t;
  _ ← store_put KEY_PRESENCE p;
  store_put KEY_META m.

Definition open_ (author : SecretKey) (store : S) : run (result (Error E) Hypercore) :=
  match Store.get store KEY_META, Store.get store KEY_TREE, Store.get store KEY_PRESENCE with
  | Err e, _, _ | Ok _, Err e, _ | Ok _, Ok _, Err e => Done (Err (Storage e))
  | Ok (Some m), Ok (Some t), Ok (Some p) =>
      match Merkle.deserialize t, Bitfield.deserialize p, decode_meta m with
      | Some t, Some p, Some (f, h, pr) =>
          let c := mkCore author (Identity.public author) store t p h f None pr in
          ok ← verify_head c;
          Done (if negb ok then Err Corrupt else Ok c)
      | _, _, _ => Done (Err Corrupt)
      end
  | _, _, _ => Done (Err NotPersisted)
  end.

(** ** Streams *)

Record ReadStream := mkReadStream { rs_core : Hypercore; rs_lo : N; rs_hi : N; rs_reverse : bool }.

Definition read_stream (c : Hypercore) (opts : ReadStreamOptions) : ReadStream :=
  let stop := N.min (default (Merkle.length (tree c)) (ro_end opts)) (Merkle.length (tree c)) in
  let lo := N.min (ro_start opts) stop in
  mkReadStream c lo stop (ro_reverse opts).

(** The loop of [next]: every round shrinks [lo..hi] by one. *)
Fixpoint read_next_loop (fuel : nat) (r : ReadStream) : option (result (Error E) T) * ReadStream :=
  match fuel with
  | O => (None, r)
  | Datatypes.S fuel' =>
      if rs_lo r <? rs_hi r then
        let '(i, r') :=
          if rs_reverse r then
            (rs_hi r - 1, mkReadStream (rs_core r) (rs_lo r) (rs_hi r - 1) (rs_reverse r))
          else (rs_lo r, mkReadStream (rs_core r) (rs_lo r + 1) (rs_hi r) (rs_reverse r)) in
        match get (rs_core r) i with
        | Ok (Some v) => (Some (Ok v), r')
        | Ok None => read_next_loop fuel' r'
        | Err e => (Some (Err e), r')
        end
      else (None, r)
  end.
Definition read_next (r : ReadStream) : option (result (Error E) T) * ReadStream :=
  read_next_loop (N.to_nat (rs_hi r - rs_lo r)) r.

Record ByteStream := mkByteStream { bs_core : Hypercore; bs_next : N; bs_budget : N }.

Definition byte_stream (c : Hypercore) (opts : ByteStreamOptions) : run ByteStream :=
  total ← Merkle.byte_length (tree c);
  let budget := default (total - bo_offset opts) (bo_length opts) in
  '(start_block, _) ← Merkle.seek (tree c) (bo_offset opts);
  Done (mkByteStream c start_block budget).

Fixpoint byte_next_loop (fuel : nat) (r : ByteStream) : option (result (Error E) bytes) * ByteStream :=
  match fuel with
  | O => (None, r)
  | Datatypes.S fuel' =>
      if (0 <? bs_budget r) && (bs_next r <? len (bs_core r)) then
        let i := bs_next r in
        match block (bs_core r) i with
        | Ok (Some bs) => (Some (Ok bs), mkByteStream (bs_core r) (i + 1) (bs_budget r - lenN bs))
        | Ok None => byte_next_loop fuel' (mkByteStream (bs_core r) (i + 1) (bs_budget r))
        | Err e => (Some (Err e), mkByteStream (bs_core r) (i + 1) (bs_budget r))
        end
      else (None, r)
  end.
Definition byte_next (r : ByteStream) : option (result (Error E) bytes) * ByteStream :=
  byte_next_loop (N.to_nat (len (bs_core r) - bs_next r)) r.

(** ** Snapshots *)

Record Snapshot := mkSnapshot {
  sn_length : N; sn_fork : N; sn_head : option SignedHead; sn_tree : Merkle.MerkleTree;
  sn_blocks : gmap N bytes }.

Fixpoint snapshot_blocks (c : Hypercore) (l : list N) (blocks : gmap N bytes)
    : result (Error E) (gmap N bytes) :=
  match l with
  | [] => Ok blocks
  | i :: l' =>
      if Bitfield.get (presence c) i then
        v ← store_get c i;
        snapshot_blocks c l' (match v with Some bs => <[i := bs]> blocks | None => blocks end)
      else snapshot_blocks c l' blocks
  end.

Definition snapshot (c : Hypercore) : result (Error E) Snapshot :=
  let length := Merkle.length (tree c) in
  blocks ← snapshot_blocks c (rangeN 0 length) ∅;
  Ok (mkSnapshot length (fork c) (head c) (tree c) blocks).

Definition Snapshot_is_empty (s : Snapshot) : bool := sn_length s =? 0.
Definition Snapshot_root_hash (s : Snapshot) : run bytes := Merkle.root_hash (sn_tree s).
Definition Snapshot_block (s : Snapshot) (index : N) : option bytes :=
  if sn_length s <=? index then None else sn_blocks s !! index.
Definition Snapshot_get (s : Snapshot) (index : N) : result Codec.Error (option T) :=
  match Snapshot_block s index with
  | Some bs => v ← Codec.decode bs; Ok (Some v)
  | None => Ok None
  end.
Definition Snapshot_proof (s : Snapshot) (index : N) : run (option Merkle.Proof_) :=
  Merkle.proof (sn_tree s) index.
Definition signed_length (s : Snapshot) (c : Hypercore) : N :=
  Merkle.lowest_common_ancestor (sn_tree s) (tree c).
End Core.
#[global] Arguments Hypercore {_} S.
#[global] Arguments ReadStream {_} S.
#[global] Arguments ByteStream {_} S.

End Hypercore.
