(* ===== verification/HypercoreMeta.v ===== *)
(** * [hypercore]: the persisted metadata reads back

    The byte layouts of [encode_meta_parts], [encode_replica_meta] and
    [encode_user_data] ([src/crates/hypercore/src/core.rs]) against their
    decoders. *)
From S2P Require Import Prelude Merkle Identity Hypercore.
From Stdlib Require Import Strings.Byte.

Module HypercoreMeta.
Import Hypercore.

Lemma take_at_app n a r : lenN a = n -> take_at n (a ++ r) = Some (a, r).
Proof.
  intros <-. unfold take_at. rewrite lenN_app, (proj2 (N.ltb_ge _ _)) by lia.
  unfold lenN. rewrite Nat2N.id. by rewrite take_app_length, drop_app_length.
Qed.

Lemma u64_at_le v r : u64_ok v -> u64_at (le64 v ++ r) = Some (v, r).
Proof.
  intros Hv. unfold u64_at. rewrite take_at_app by (unfold lenN; by rewrite to_le_length). rsimpl.
  by rewrite from_le64.
Qed.

Section Meta.
Context `{HasherLaws} `{Ed25519Laws}.

Definition head_wf (h : SignedHead) : Prop :=
  u64_ok (h_fork h) /\ u64_ok (h_length h) /\ length (h_root h) = 32%nat.
Definition prologue_wf (p : Prologue) : Prop := u64_ok (p_length p) /\ length (p_hash p) = 32%nat.

Lemma head_at_bytes h r : head_wf h -> head_at (head_bytes h ++ r) = Some (h, r).
Proof.
  intros (Hf & Hl & Hr). unfold head_at, head_bytes. rewrite <- !app_assoc.
  rewrite u64_at_le by done. rsimpl. rewrite u64_at_le by done. rsimpl.
  rewrite take_at_app by (unfold lenN; by rewrite Hr). rsimpl.
  rewrite take_at_app by (unfold lenN, Identity.Sig_to_bytes; by rewrite sig_bytes_length). rsimpl.
  unfold Identity.Sig_from_bytes, Identity.Sig_to_bytes. rewrite sig_from_to. by destruct h.
Qed.

Lemma meta_roundtrip f h p :
  u64_ok f -> from_option head_wf True h -> from_option prologue_wf True p ->
  decode_meta (encode_meta_parts f h p) = Some (f, h, p).
Proof.
  intros Hf Hh Hp. unfold decode_meta, encode_meta_parts. rewrite u64_at_le by done. rsimpl.
  destruct h as [h|]; cbn [app tag_at]; rsimpl; [rewrite head_at_bytes by done; rsimpl|];
    (destruct p as [[n r]|]; cbn [app tag_at]; rsimpl; [|done]);
    destruct Hp as [Hn Hr]; cbn [p_length p_hash] in *; rewrite u64_at_le by done; rsimpl;
    rewrite <- (app_nil_r r) at 1; by rewrite take_at_app by (unfold lenN; by rewrite Hr).
Qed.
End Meta.

(** ** Application metadata *)

Definition entry_ok (e : bytes * bytes) : Prop := u64_ok (lenN e.1) /\ u64_ok (lenN e.2).
Definition user_ok (m : gmap bytes bytes) : Prop :=
  u64_ok (N.of_nat (size m)) /\ map_Forall (λ k v, entry_ok (k, v)) m.

Lemma user_entry_length e : (16 <= length (user_entry e))%nat.
Proof. unfold user_entry. rewrite !length_app, !to_le_length. lia. Qed.

Lemma user_entries_spec l fuel m :
  Forall entry_ok l -> (length l <= fuel)%nat ->
  user_entries fuel (lenN l) (concat (user_entry <$> l)) m
  = Some (foldl (λ m '(k, v), <[k := v]> m) m l, []).
Proof.
  intros Hl. revert fuel m. induction Hl as [|[k v] l [Hk Hv] Hl IH]; intros fuel m Hf.
  { by destruct fuel. }
  cbn [length] in Hf. destruct fuel as [|fuel]; [lia|].
  rewrite lenN_cons, fmap_cons. cbn [user_entries concat]. rewrite (proj2 (N.eqb_neq _ _)) by lia.
  unfold user_entry at 1. cbn [fst snd] in *. rewrite <- !app_assoc.
  rewrite u64_at_le by done. rsimpl. rewrite take_at_app by done. rsimpl.
  rewrite u64_at_le by done. rsimpl. rewrite take_at_app by done. rsimpl.
  rewrite N.add_sub.
  rewrite IH by lia. done.
Qed.

Lemma concat_entries (l : list (bytes * bytes)) :
  (length l <= length (concat (user_entry <$> l)))%nat.
Proof.
  induction l as [|e l IH]; [done|]. rewrite fmap_cons. cbn [concat length]. rewrite length_app.
  pose proof (user_entry_length e). lia.
Qed.

Lemma user_roundtrip m : user_ok m -> decode_user_data (encode_user_data m) = Some m.
Proof.
  intros [Hs Hm]. unfold decode_user_data, encode_user_data. rewrite u64_at_le by done. rsimpl.
  replace (N.of_nat (size m)) with (lenN (bmap_list m)) by (unfold lenN; by rewrite bmap_list_length).
  rewrite user_entries_spec; [|apply Forall_forall; intros [k v] E%bmap_list_elem; by apply Hm
                              |apply concat_entries].
  rsimpl. rewrite bool_decide_true by done. by rewrite foldl_insert_bmap, (right_id_L ∅ (∪)).
Qed.
End HypercoreMeta.
