(* ===== verification/HypercoreLog.v ===== *)
(** * [hypercore]: a core refines an abstract log

    The abstract state of a core is a list of encoded blocks, the set of indices
    whose bytes are held, the fork counter, the prologue and a map of application
    metadata ([Log]).  [repr] relates it to a core over a store that keeps its
    contract; every method of the core either does to the core what its
    counterpart does to the log, or fails with the store's error. *)
From S2P Require Import Prelude Codec Flat Merkle MerkleSpec MerkleProofs MerkleFork Store Bitfield.
From S2P Require Import BitfieldTheorems Identity Hypercore HypercoreMeta.
From Stdlib Require Import Strings.Byte.

Module HypercoreLog.
Import MerkleSpec Hypercore HypercoreMeta.
Import Identity (PublicKey, SecretKey, Sig).

Record Log := mkLog {
  l_blocks : list bytes; l_held : N -> bool; l_fork : N;
  l_prologue : option Prologue; l_user : gmap bytes bytes }.

Definition l_len (l : Log) : N := lenN (l_blocks l).

(** Evaluate the record updates, nothing else. *)
Ltac fields := cbn [author public store tree presence head fork last_truncation prologue set_store
  set_tree set_presence set_head set_fork set_truncation set_prologue
  l_blocks l_held l_fork l_prologue l_user fst snd].

(** ** What the operations mean *)

Definition spec_append (l : Log) (enc : bytes) : Log :=
  mkLog (l_blocks l ++ [enc]) (λ i, (l_len l =? i) || l_held l i) (l_fork l) (l_prologue l) (l_user l).

Definition spec_truncate (l : Log) (n : N) : Log * option Truncation :=
  if match l_prologue l with Some pr => n <? p_length pr | None => false end then (l, None)
  else if l_len l <=? n then (l, None)
  else (mkLog (take (N.to_nat n) (l_blocks l)) (λ i, (i <? n) && l_held l i) (l_fork l + 1)
          (l_prologue l) (l_user l), Some (mkTruncation (l_len l) n)).

(** Drop the bytes of the held blocks of a set. *)
Definition spec_drop (l : Log) (gone : N -> bool) : Log :=
  mkLog (l_blocks l) (λ i, l_held l i && negb (gone i)) (l_fork l) (l_prologue l) (l_user l).
Definition in_range (a b : N) (i : N) : bool := (a <=? i) && (i <? b).

Definition spec_clear (l : Log) (a b : N) : Log * N :=
  (spec_drop l (in_range a b), countN (l_held l) a (N.min b (l_len l))).
Definition spec_sweep (l : Log) (keep : N -> bool) : Log * N :=
  (spec_drop l (negb ∘ keep), countN (λ i, l_held l i && negb (keep i)) 0 (l_len l)).

Definition spec_user (l : Log) (k v : bytes) : Log :=
  mkLog (l_blocks l) (l_held l) (l_fork l) (l_prologue l) (<[k := v]> (l_user l)).

(** Blocks adopted from elsewhere: all of them are held. *)
Definition spec_adopt (l : Log) (blocks : list bytes) : Log :=
  mkLog blocks (λ i, i <? lenN blocks) (l_fork l) (l_prologue l) (l_user l).

Definition empty_log (pr : option Prologue) : Log := mkLog [] (λ _, false) 0 pr ∅.

Section Repr.
Context `{HL : HasherLaws} `{EL : Ed25519Laws} {S E : Type} `{SL : Store.StoreLaws S E}.

(** An operation of the store returned an error on an input it can hold. *)
Definition store_fails : Prop :=
  (exists s k v e, Store.store_inv s /\ Store.fits k v /\ (Store.put s k v).2 = Err e)
  \/ (exists s k e, Store.store_inv s /\ Store.get s k = Err e)
  \/ (exists s k e, Store.store_inv s /\ (Store.delete s k).2 = Err e).

Lemma total_never_fails : Store.StoreTotal S E -> ~ store_fails.
Proof.
  intros Ht [(s & k & v & e & Hi & Hf & Ee)|[(s & k & e & Hi & Ee)|(s & k & e & Hi & Ee)]].
  - destruct (Store.put_total s k v Hi Hf) as [s' E']. by rewrite E' in Ee.
  - destruct (Store.get_total s k Hi) as [r E']. by rewrite E' in Ee.
  - destruct (Store.delete_total s k Hi) as [s' E']. by rewrite E' in Ee.
Qed.

(** *** The representation *)

(** A head that says what the log is, under the author's key. *)
Definition head_ok (pk : PublicKey) (f : N) (blocks : list bytes) (h : SignedHead) : Prop :=
  h_fork h = f /\ h_length h = lenN blocks /\ h_root h = ref_root_hash blocks
  /\ verify_signed_head pk h = true.

(** Everything but the head and the store. *)
Record content (l : Log) (c : Hypercore S) : Prop := mkContent {
  r_public : public c = Identity.public (author c);
  r_tree : full_tree (l_blocks l) (tree c);
  r_small : l_len l <= Flat.max_blocks;
  r_blocks : blocks_ok (l_blocks l);
  r_field : Bitfield.field_ok (presence c);
  r_keys : BitfieldTheorems.page_keys (presence c);
  r_held : forall i, Bitfield.get (presence c) i = l_held l i;
  r_bound : forall i, l_held l i = true -> i < l_len l;
  r_fork : fork c = l_fork l;
  r_fork_ok : u64_ok (l_fork l);
  r_prologue : prologue c = l_prologue l;
  r_prologue_ok : from_option prologue_wf True (l_prologue l) }.

Definition signed (l : Log) (c : Hypercore S) : Prop :=
  match head c with
  | Some h => head_ok (public c) (l_fork l) (l_blocks l) h
  | None => l_blocks l = []
  end.

Record stored (l : Log) (s : S) : Prop := mkStored {
  r_inv : Store.store_inv s;
  r_block : forall i b, l_held l i = true -> l_blocks l !! N.to_nat i = Some b ->
            Store.contents s !! i = Some b;
  r_user : match Store.contents s !! KEY_USERDATA with
           | Some bs => decode_user_data bs = Some (l_user l)
           | None => l_user l = ∅
           end }.

Definition repr (l : Log) (c : Hypercore S) : Prop :=
  content l c /\ signed l c /\ stored l (store c).

(** The fields of the content, whatever the others are. *)
Lemma content_fields l c c' :
  content l c -> author c' = author c -> public c' = public c -> tree c' = tree c ->
  presence c' = presence c -> fork c' = fork c -> prologue c' = prologue c -> content l c'.
Proof. intros [] Ea Ep Et Eb Ef Epr. constructor; by rewrite ?Ea, ?Ep, ?Et, ?Eb, ?Ef, ?Epr. Qed.

(** The reserved keys are past every block index. *)
Lemma key_range i : i <= Flat.max_blocks ->
  i <> KEY_META /\ i <> KEY_TREE /\ i <> KEY_PRESENCE /\ i <> KEY_USERDATA.
Proof. unfold Flat.max_blocks, KEY_META, KEY_TREE, KEY_PRESENCE, KEY_USERDATA, u64_max. lia. Qed.

(** A write away from the held blocks and the metadata keeps what is stored. *)
Lemma stored_put l s s' k v :
  stored l s -> Store.store_inv s' -> Store.contents s' = <[k := v]> (Store.contents s) ->
  l_held l k = false -> k <> KEY_USERDATA -> stored l s'.
Proof.
  intros [Hi Hb Hu] Hi' Hc Hk Hk'. split; [done| |].
  - intros i b Hh El. rewrite Hc, lookup_insert_ne by congruence. by apply Hb.
  - rewrite Hc, lookup_insert_ne by congruence. done.
Qed.

Lemma stored_delete l s s' k gone :
  stored l s -> Store.store_inv s' -> Store.contents s' = base.delete k (Store.contents s) ->
  gone k = true -> k <> KEY_USERDATA -> stored (spec_drop l gone) s'.
Proof.
  intros [Hi Hb Hu] Hi' Hc Hk Hk'. split; [done| |].
  - intros i b Hh El. cbn in Hh. apply andb_true_iff in Hh as [Hh Hg%negb_true_iff].
    rewrite Hc, lookup_delete_ne by congruence. by apply Hb.
  - cbn. rewrite Hc, lookup_delete_ne by congruence. done.
Qed.

(** *** Rules for the pieces of the methods *)

Abbreviation method := (act (Hypercore S) (Error E)).

Lemma wp_put k v (Q : unit -> Hypercore S -> Prop) R c :
  Store.store_inv (store c) -> Store.fits k v ->
  (forall s', Store.store_inv s' -> Store.contents s' = <[k := v]> (Store.contents (store c)) ->
     Q tt (set_store c s')) ->
  (store_fails -> forall s' e, R (Storage e) (set_store c s')) ->
  wp (store_put (E:=E) k v) Q R c.
Proof.
  intros Hi Hf HQ HR. unfold wp, store_put.
  destruct (Store.put (store c) k v) as [s' [[]|e]] eqn:Ep; cbn [map_err].
  - destruct (Store.put_ok _ _ _ _ Hi Hf Ep). by apply HQ.
  - apply HR. left. exists (store c), k, v, e. by rewrite Ep.
Qed.

Lemma wp_delete k (Q : unit -> Hypercore S -> Prop) R c :
  Store.store_inv (store c) ->
  (forall s', Store.store_inv s' -> Store.contents s' = base.delete k (Store.contents (store c)) ->
     Q tt (set_store c s')) ->
  (store_fails -> forall s' e, R (Storage e) (set_store c s')) ->
  wp (store_delete (E:=E) k) Q R c.
Proof.
  intros Hi HQ HR. unfold wp, store_delete.
  destruct (Store.delete (store c) k) as [s' [[]|e]] eqn:Ep; cbn [map_err].
  - destruct (Store.delete_ok _ _ _ Hi Ep). by apply HQ.
  - apply HR. right; right. exists (store c), k, e. by rewrite Ep.
Qed.

Lemma store_get_spec c k :
  Store.store_inv (store c) ->
  store_get c k = Ok (Store.contents (store c) !! k)
  \/ store_fails /\ exists e, store_get (E:=E) c k = Err (Storage e).
Proof.
  intros Hi. unfold store_get. destruct (Store.get (store c) k) as [r|e] eqn:Eg; cbn [map_err].
  - left. by rewrite (Store.get_ok _ _ _ Hi Eg).
  - right. split; [|by exists e]. right; left. by exists (store c), k, e.
Qed.

Lemma wp_tree_append blocks data (Q : unit -> Hypercore S -> Prop) R c :
  full_tree blocks (tree c) -> lenN blocks < Flat.max_blocks ->
  (forall t, full_tree (blocks ++ [data]) t -> Q tt (set_tree c t)) ->
  wp (tree_append (E:=E) data) Q R c.
Proof.
  intros Hf Hn HQ. unfold wp, tree_append.
  destruct (append_full blocks (tree c) data Hf Hn) as (t & -> & Ht). by apply HQ.
Qed.

(** The head the author signs for a log. *)
Definition signed_head (sk : SecretKey) (f : N) (blocks : list bytes) : SignedHead :=
  mkHead f (lenN blocks) (ref_root_hash blocks)
    (Identity.sign sk (head_message f (lenN blocks) (ref_root_hash blocks))).

Lemma signed_head_ok sk f blocks : head_ok (Identity.public sk) f blocks (signed_head sk f blocks).
Proof. split_and!; [done..|]. apply ed_sign_verify. Qed.

Lemma wp_resign blocks (Q : unit -> Hypercore S -> Prop) R c :
  full_tree blocks (tree c) -> lenN blocks <= Flat.max_blocks ->
  Q tt (set_head c (Some (signed_head (author c) (fork c) blocks))) ->
  wp (resign (E:=E)) Q R c.
Proof.
  intros Hf Hn HQ. unfold wp, resign. rewrite (root_hash_full blocks) by done. rsimpl.
  destruct Hf as [-> _]. done.
Qed.

(** *** Appending *)

Lemma content_append l c enc t :
  content l c -> l_len l < Flat.max_blocks -> u64_ok (lenN enc) ->
  full_tree (l_blocks l ++ [enc]) t ->
  content (spec_append l enc) (set_presence (set_tree c t) (Bitfield.set (presence c) (l_len l) true)).
Proof.
  intros [] Hn He Ht. unfold l_len in *. constructor; unfold spec_append; fields; try done.
  - unfold l_len. fields. rewrite lenN_snoc. lia.
  - apply Forall_app. split; [done|by constructor].
  - by apply Bitfield.set_field_ok.
  - apply BitfieldTheorems.set_keys; [done|]. unfold u64_ok, Flat.max_blocks, two64 in *. lia.
  - intros i. rewrite Bitfield.get_set by done. unfold l_len. case_if; [done|]. apply r_held0.
  - intros i. unfold l_len. fields. rewrite lenN_snoc, orb_true_iff, N.eqb_eq.
    intros [<-|Hh%r_bound0]; lia.
Qed.

Lemma stored_append l s s' enc :
  stored l s -> l_len l <= Flat.max_blocks -> (forall i, l_held l i = true -> i < l_len l) ->
  Store.store_inv s' -> Store.contents s' = <[l_len l := enc]> (Store.contents s) ->
  stored (spec_append l enc) s'.
Proof.
  intros [Hi Hb Hu] Hn Hlt Hi' Hc. split; [done| |].
  - intros i b. cbn. rewrite orb_true_iff, N.eqb_eq, Hc. intros [<-|Hh] El.
    + unfold l_len, lenN in *. rewrite Nat2N.id, list_lookup_middle in El by done.
      by rewrite lookup_insert_eq.
    + specialize (Hlt _ Hh). rewrite lookup_insert_ne by lia. apply Hb; [done|].
      rewrite lookup_app_l in El; [done|]. unfold l_len, lenN in Hlt. lia.
  - cbn. destruct (key_range (l_len l) Hn) as (_ & _ & _ & Hk). rewrite Hc, lookup_insert_ne by done.
    done.
Qed.

(** A method failed on the store and left the rest of the core as it was. *)
Definition failed (c : Hypercore S) (e : Error E) (c' : Hypercore S) : Prop :=
  store_fails /\ (exists e', e = Storage e') /\ exists s', c' = set_store c s'.

Lemma signed_resigned l c blocks :
  public c = Identity.public (author c) -> l_blocks l = blocks -> fork c = l_fork l ->
  signed l (set_head c (Some (signed_head (author c) (fork c) blocks))).
Proof.
  intros Hp <- Hf. unfold signed. cbn. rewrite Hp, Hf. apply signed_head_ok.
Qed.

(** *** Writing several blocks *)

Lemma spec_appends_blocks l encs :
  l_blocks (foldl spec_append l encs) = l_blocks l ++ encs
  /\ l_fork (foldl spec_append l encs) = l_fork l
  /\ l_prologue (foldl spec_append l encs) = l_prologue l
  /\ l_user (foldl spec_append l encs) = l_user l.
Proof.
  revert l. induction encs as [|enc encs IH]; intros l; cbn [foldl]; [by rewrite app_nil_r|].
  destruct (IH (spec_append l enc)) as (-> & -> & -> & ->). unfold spec_append. fields.
  by rewrite <- app_assoc.
Qed.

Lemma spec_appends_held l encs i :
  l_held (foldl spec_append l encs) i = in_range (l_len l) (l_len l + lenN encs) i || l_held l i.
Proof.
  revert l. induction encs as [|enc encs IH]; intros l; cbn [foldl].
  - unfold in_range. rewrite lenN_nil.
    destruct (N.leb_spec (l_len l) i), (N.ltb_spec i (l_len l + 0)); cbn; (done || lia).
  - rewrite IH. assert (Hl : l_len (spec_append l enc) = l_len l + 1) by apply lenN_snoc.
    rewrite Hl, lenN_cons. unfold spec_append, in_range. fields.
    destruct (l_held l i); [by rewrite !orb_true_r|]. rewrite !orb_false_r.
    destruct (N.leb_spec (l_len l) i), (N.leb_spec (l_len l + 1) i), (N.eqb_spec (l_len l) i),
      (N.ltb_spec i (l_len l + 1 + lenN encs)), (N.ltb_spec i (l_len l + (lenN encs + 1)));
      cbn; (done || lia).
Qed.

(** The values fit the store at the indices they go to. *)
Definition all_fit (start : N) (encs : list bytes) : Prop :=
  forall j enc, encs !! j = Some enc -> Store.fits (start + N.of_nat j) enc.

Lemma all_fit_cons start enc encs :
  all_fit start (enc :: encs) -> Store.fits start enc /\ all_fit (start + 1) encs.
Proof.
  intros Hf. split; [by rewrite <- (N.add_0_r start); apply (Hf 0%nat)|].
  intros j e Hj. replace (start + 1 + N.of_nat j) with (start + N.of_nat (1 + j)) by lia. by apply Hf.
Qed.

Lemma wp_put_from start encs (Q : unit -> Hypercore S -> Prop) R c :
  Store.store_inv (store c) -> all_fit start encs -> start + lenN encs < two64 ->
  (forall s', Store.store_inv s' ->
     (forall k, Store.contents s' !! k
        = if in_range start (start + lenN encs) k then encs !! N.to_nat (k - start)
          else Store.contents (store c) !! k) ->
     Q tt (set_store c s')) ->
  (store_fails -> forall s' e, R (Storage e) (set_store c s')) ->
  wp (put_from (E:=E) start encs) Q R c.
Proof.
  intros Hi. revert start c Hi. induction encs as [|enc encs IH]; intros start c Hi Hf Hlt HQ HR.
  - cbn [put_from]. apply wp_ret. replace c with (set_store c (store c)) by (by destruct c).
    apply HQ; [done|]. intros k. unfold in_range. rewrite lenN_nil. fields. case_if; [lia|done].
  - rewrite lenN_cons in *. apply all_fit_cons in Hf as [Hf Hfs]. cbn [put_from].
    apply wp_bind, wp_put; [done..| |done].
    intros s1 Hi1 Hc1. rewrite wrap64_small by lia. apply (IH (start + 1) (set_store c s1)); [done..|lia| |].
    + intros s2 Hi2 Hc2. fields. apply HQ; [done|]. intros k. rewrite Hc2. fields. rewrite Hc1.
      unfold in_range. destruct (decide (k = start)) as [->|Hk].
      * rewrite lookup_insert_eq, N.leb_refl, N.sub_diag.
        rewrite (proj2 (N.leb_gt _ _)), (proj2 (N.ltb_lt start (start + (lenN encs + 1)))) by lia. done.
      * rewrite lookup_insert_ne by done. replace (start + 1 + lenN encs) with (start + (lenN encs + 1)) by lia.
        destruct (N.leb_spec (start + 1) k), (N.leb_spec start k); try lia; [|done].
        cbn [andb]. case_if; [|done].
        replace (N.to_nat (k - start)) with (Datatypes.S (N.to_nat (k - (start + 1)))) by lia. done.
    + intros Hsf s2 e. by apply (HR Hsf s2 e).
Qed.

(** The writes of a commit are the plain writes, and a failure touches only the
    store. *)
Lemma commit_writes_put_from start encs w (c : Hypercore S) (Q : unit -> Hypercore S -> Prop) (R : Error E -> Hypercore S -> Prop) :
  wp (put_from start encs) Q (λ e _, forall s', R e (set_store c s')) c ->
  wp (commit_writes start encs w) Q R c.
Proof.
  cut (forall c0 : Hypercore S, (forall s', set_store c0 s' = set_store c s') ->
    wp (put_from start encs) Q (λ e _, forall s', R e (set_store c s')) c0 ->
    wp (commit_writes start encs w) Q R c0); [by auto|].
  revert start w. induction encs as [|enc encs IH]; intros start w c0 Hc; [done|].
  cbn [put_from commit_writes]. unfold wp, mbind, act_bind, store_put.
  destruct (Store.put (store c0) start enc) as [s' [[]|e]]; cbn [map_err].
  - intros Hp. by apply (IH (wrap64 (start + 1)) (w ++ [start]) (set_store c0 s')).
  - intros Hr. rewrite Hc. apply Hr.
Qed.

Lemma wp_fold_blocks l encs c (R : Error E -> Hypercore S -> Prop) :
  content l c -> l_len l + lenN encs <= Flat.max_blocks -> blocks_ok encs ->
  wp (fold_blocks (l_len l) encs)
    (λ _ c', content (foldl spec_append l encs) c' /\ store c' = store c) R c.
Proof.
  revert l c. induction encs as [|enc encs IH]; intros l c Hc Hn Hb; [done|].
  rewrite lenN_cons in Hn. apply Forall_cons in Hb as [Hb Hbs]. cbn [fold_blocks foldl].
  apply wp_bind, (wp_tree_append (l_blocks l)); [apply Hc|unfold l_len in *; lia|].
  intros t Ht. apply wp_bind, wp_modify. fields.
  rewrite wrap64_small by (unfold Flat.max_blocks, two64 in *; lia).
  assert (Hl' : l_len (spec_append l enc) = l_len l + 1) by apply lenN_snoc. rewrite <- Hl'.
  eapply wp_mono; [apply IH; [apply content_append; (done || lia)|lia|done]| |done].
  intros [] c' [Hc' Hs']. done.
Qed.

Lemma stored_appends l s s' encs :
  stored l s -> l_len l + lenN encs <= Flat.max_blocks -> (forall i, l_held l i = true -> i < l_len l) ->
  Store.store_inv s' ->
  (forall k, Store.contents s' !! k
     = if in_range (l_len l) (l_len l + lenN encs) k then encs !! N.to_nat (k - l_len l)
       else Store.contents s !! k) ->
  stored (foldl spec_append l encs) s'.
Proof.
  intros [Hi Hb Hu] Hn Hlt Hi' Hc. destruct (spec_appends_blocks l encs) as (Eb & _ & _ & Eu).
  split; [done| |].
  - intros i b. rewrite spec_appends_held, Eb, Hc. unfold in_range. intros Hh El.
    destruct (N.leb_spec (l_len l) i) as [Hle|Hgt].
    + rewrite lookup_app_r in El by (unfold l_len, lenN in *; lia).
      assert (Hj : (N.to_nat i - length (l_blocks l))%nat = N.to_nat (i - l_len l))
        by (unfold l_len, lenN; lia).
      rewrite Hj in El. pose proof (lookup_lt_Some _ _ _ El).
      rewrite (proj2 (N.ltb_lt _ _)) by (unfold lenN; lia). done.
    + cbn in *. apply Hb; [done|]. rewrite lookup_app_l in El; [done|]. unfold l_len, lenN in Hgt. lia.
  - rewrite Eu, Hc. unfold in_range.
    rewrite (proj2 (N.ltb_ge KEY_USERDATA _)), andb_false_r by
      (unfold KEY_USERDATA, u64_max, Flat.max_blocks in *; lia). done.
Qed.

Lemma commit_refines l c b :
  repr l c -> base b = l_len l -> encoded b <> [] -> l_len l + lenN (encoded b) <= Flat.max_blocks ->
  blocks_ok (encoded b) -> all_fit (l_len l) (encoded b) ->
  wp (commit b) (λ r c', r = Some (l_len l + lenN (encoded b)) /\ repr (foldl spec_append l (encoded b)) c')
    (failed c) c.
Proof.
  intros (Hc & Hs & Hst) Hb Hne Hn Hbo Hf. assert (El : len c = l_len l) by apply (r_tree _ _ Hc).
  destruct (spec_appends_blocks l (encoded b)) as (Eb & Ef & _ & _).
  apply wp_bind, wp_reads. rewrite El, Hb, N.eqb_refl, bool_decide_false by done. cbn [negb].
  apply wp_bind, commit_writes_put_from, wp_put_from; [apply Hst|done| | |].
  { unfold Flat.max_blocks, two64 in *. lia. }
  2: { intros Hfail _ e s'. split_and!; eauto. }
  intros s' Hi' Hc'. apply wp_bind.
  eapply wp_mono; [apply (wp_fold_blocks l); [by eapply content_fields|done..]| |].
  2: { intros e c' Habs. exact Habs. }
  intros [] c' [Hco Est]. fields. apply wp_bind, wp_modify, wp_bind.
  apply (wp_resign (l_blocks l ++ encoded b)).
  - fields. rewrite <- Eb. apply Hco.
  - rewrite lenN_app. done.
  - apply wp_bind, wp_reads, wp_ret. split.
    + f_equal. unfold len. fields. rewrite (proj1 (r_tree _ _ Hco)), Eb, lenN_app. done.
    + split_and!.
      * by eapply content_fields.
      * apply signed_resigned; [apply Hco|done|apply Hco].
      * fields. rewrite Est. by eapply stored_appends; [done|done|apply Hc|done|].
Qed.
End Repr.

Section Ops.
Context `{HL : HasherLaws} `{EL : Ed25519Laws} {T : Type} `{CL : Codec.CodecLaws T}
  {S E : Type} `{SL : Store.StoreLaws S E}.

Lemma append_refines l (c : Hypercore S) (v : T) :
  repr l c -> l_len l < Flat.max_blocks -> u64_ok (lenN (Codec.encode v)) ->
  Store.fits (l_len l) (Codec.encode v) ->
  wp (append v) (λ i c', i = l_len l /\ repr (spec_append l (Codec.encode v)) c') (failed c) c.
Proof.
  intros (Hc & Hs & Hst) Hn Hu Hf. pose proof Hc as [].
  assert (El : len c = l_len l) by apply r_tree0.
  apply wp_bind, wp_reads. rewrite El. apply wp_bind, wp_put; [apply Hst|done| |by intros ? s' e; split_and!; eauto].
  intros s' Hi' Hc'. apply wp_bind. apply (wp_tree_append (l_blocks l)); [done..|].
  intros t Ht. apply wp_bind, wp_modify, wp_bind, wp_modify, wp_bind.
  apply (wp_resign (l_blocks l ++ [Codec.encode v])); [done|rewrite lenN_snoc; unfold l_len in *; lia|].
  apply wp_ret. split; [done|]. split_and!.
  - eapply content_fields; [by apply (content_append l c (Codec.encode v) t)|done..].
  - by apply signed_resigned.
  - eapply stored_append; [done..|exact Hc'].
Qed.
End Ops.
End HypercoreLog.
