(* ===== verification/HypercoreOps.v ===== *)
(** * [hypercore]: every method refines its counterpart on the log

    One lemma per method of [src/crates/hypercore/src/core.rs]: from a core that
    represents a log, the method does not panic, its success is the counterpart's
    answer and log, and its failure is the store's. *)
From S2P Require Import Prelude Codec Flat Merkle MerkleSpec MerkleProofs MerkleFork MerkleHistory.
From S2P Require Import Store Bitfield BitfieldTheorems Identity Hypercore HypercoreMeta HypercoreLog.
From Stdlib Require Import Strings.Byte.

Module HypercoreOps.
Import MerkleSpec Hypercore HypercoreMeta HypercoreLog.
Import Identity (PublicKey, SecretKey, Sig).

Section Ops.
Context `{HL : HasherLaws} `{EL : Ed25519Laws} {S E : Type} `{SL : Store.StoreLaws S E}.

(** Two logs with the same fields and the same held blocks. *)
Lemma repr_held l l' (c : Hypercore S) :
  repr l c -> l_blocks l' = l_blocks l -> l_fork l' = l_fork l -> l_prologue l' = l_prologue l ->
  l_user l' = l_user l -> (forall i, l_held l' i = l_held l i) -> repr l' c.
Proof.
  intros (Hc & Hs & Hst) Eb Ef Ep Eu Eh. split_and!.
  - destruct Hc. constructor; unfold l_len in *; rewrite ?Eb, ?Ef, ?Ep; try done.
    + intros i. by rewrite Eh.
    + intros i. rewrite Eh. apply r_bound0.
  - unfold signed in *. by rewrite Eb, Ef.
  - destruct Hst. constructor; [done| |by rewrite Eu]. intros i b. rewrite Eb, Eh. apply r_block0.
Qed.

(** ** Truncation *)

Lemma content_truncate l (c : Hypercore S) n t b :
  content l c -> n < l_len l -> l_fork l + 1 < two64 ->
  full_tree (take (N.to_nat n) (l_blocks l)) t ->
  Bitfield.set_range (presence c) n (l_len l) false = Done b ->
  let l' := mkLog (take (N.to_nat n) (l_blocks l)) (λ i, (i <? n) && l_held l i) (l_fork l + 1)
              (l_prologue l) (l_user l) in
  content l' (set_fork (set_presence (set_tree c t) b) (wrap64 (fork c + 1))).
Proof.
  intros [] Hn Hf Ht Hb l'. assert (El : l_len l' = n) by (apply lenN_take; unfold l_len in *; lia).
  assert (Hp : l_len l + Bitfield.BITS_PER_PAGE <= two64)
    by (unfold Bitfield.BITS_PER_PAGE, Flat.max_blocks, two64 in *; lia).
  destruct (Bitfield.set_range_spec (presence c) n (l_len l) false r_field0 Hp) as (b' & E' & Hok & Hg).
  rewrite E' in Hb. injection Hb as ->. constructor; rewrite ?El; unfold l'; fields; try done.
  - lia.
  - by apply MerkleFork.blocks_ok_take.
  - eapply BitfieldTheorems.set_range_keys; [done| |exact E']. lia.
  - intros i. rewrite Hg, r_held0. destruct (l_held l i) eqn:Eh.
    + specialize (r_bound0 _ Eh).
      destruct (N.leb_spec n i), (N.ltb_spec i (l_len l)), (N.ltb_spec i n); cbn; (done || lia).
    + by destruct (_ && _), (i <? n).
  - intros i [Hi _]%andb_true_iff. by apply N.ltb_lt in Hi.
  - rewrite r_fork0. by apply wrap64_small.
Qed.

Lemma truncate_refines l (c : Hypercore S) n :
  repr l c -> l_fork l + 1 < two64 ->
  wp (truncate n) (λ r c', r = (spec_truncate l n).2 /\ repr (spec_truncate l n).1 c')
    (λ (_ : Error E) _, False) c.
Proof.
  intros Hr Hf. pose proof Hr as (Hc & Hs & Hst). assert (El : len c = l_len l) by apply (r_tree _ _ Hc).
  apply wp_bind, wp_reads, wp_bind, wp_reads. rewrite El, (r_prologue _ _ Hc). unfold spec_truncate.
  destruct (match l_prologue l with Some _ => _ | None => _ end); [by apply wp_ret|].
  apply wp_bind. unfold wp at 1. destruct (N.leb_spec (l_len l) n) as [Hge|Hlt].
  - unfold Merkle.truncate. change (Merkle.length (tree c)) with (len c).
    rewrite El, (proj2 (N.leb_le _ _)) by done. cbn [negb]. apply wp_ret. fields. split; [done|].
    replace (set_tree c (tree c)) with c by (by destruct c). done.
  - destruct (truncate_full (l_blocks l) (tree c) n) as (t & -> & Ht); [apply Hc|apply Hc|done|].
    cbn [negb]. apply wp_bind. unfold wp at 1. fields.
    destruct (Bitfield.set_range_spec (presence c) n (l_len l) false) as (b & Eb & _);
      [apply Hc|pose proof (r_small _ _ Hc); unfold Bitfield.BITS_PER_PAGE, Flat.max_blocks, two64 in *; lia|].
    rewrite Eb. rsimpl. apply wp_bind, wp_modify, wp_bind, wp_modify, wp_bind.
    apply (wp_resign (take (N.to_nat n) (l_blocks l))); [done| |].
    { pose proof (r_small _ _ Hc). rewrite lenN_take; unfold l_len in *; lia. }
    apply wp_ret. split; [done|]. pose proof (content_truncate l c n t b Hc Hlt Hf Ht Eb) as Hc'.
    split_and!.
    + by eapply content_fields.
    + apply (signed_resigned _ (set_truncation (set_fork (set_presence (set_tree c t) b)
        (wrap64 (fork c + 1))) _)); [apply Hc|done|apply Hc'].
    + destruct Hst. constructor; fields; [done| |done].
      intros i b' [Hi Hh]%andb_true_iff El'. apply r_block0; [done|].
      by apply lookup_take_Some in El' as [? _].
Qed.

(** ** Dropping bytes *)

(** The authenticated part of two cores agrees. *)
Definition same_auth (c c' : Hypercore S) : Prop :=
  author c' = author c /\ public c' = public c /\ tree c' = tree c /\ head c' = head c
  /\ fork c' = fork c /\ prologue c' = prologue c.

Definition drop_failed (c : Hypercore S) (e : Error E) (c' : Hypercore S) : Prop :=
  store_fails /\ (exists e', e = Storage e') /\ same_auth c c'.

Lemma repr_drop1 l (c : Hypercore S) i s' :
  repr l c -> l_held l i = true -> Store.store_inv s' ->
  Store.contents s' = base.delete i (Store.contents (store c)) ->
  repr (spec_drop l (N.eqb i)) (set_presence (set_store c s') (Bitfield.set (presence c) i false)).
Proof.
  intros (Hc & Hs & Hst) Hh Hi Hcs. assert (Hlt := r_bound _ _ Hc i Hh).
  pose proof (r_small _ _ Hc) as Hsm. split_and!.
  - destruct Hc. constructor; unfold spec_drop in *; fields; try done.
    + by apply Bitfield.set_field_ok.
    + apply BitfieldTheorems.set_keys; [done|]. unfold u64_ok, Flat.max_blocks, two64 in *. lia.
    + intros j. rewrite Bitfield.get_set, r_held0 by done.
      destruct (i =? j); [by rewrite andb_false_r|by rewrite andb_true_r].
    + intros j [Hj _]%andb_true_iff. by apply r_bound0.
  - exact Hs.
  - apply (stored_delete l (store c) s' i); [done..|by rewrite N.eqb_refl|].
    apply key_range. lia.
Qed.

(** The blocks of a list that are held. *)
Definition held_in (l : Log) (gone : N -> bool) (L : list N) : N :=
  lenN (filter (λ i, l_held l i && gone i = true) L).
Definition mem (L : list N) (i : N) : bool := bool_decide (i ∈ L).

Lemma mem_cons x L i : mem (x :: L) i = (x =? i) || mem L i.
Proof.
  unfold mem. destruct (N.eqb_spec x i) as [->|Hne]; cbn.
  - rewrite bool_decide_true; [done|]. by left.
  - apply bool_decide_ext. rewrite elem_of_cons. naive_solver.
Qed.

Lemma held_in_drop l gone x L :
  x ∉ L -> held_in (spec_drop l (N.eqb x)) gone L = held_in l gone L.
Proof.
  intros Hx. unfold held_in. f_equal. apply filter_bool_ext. intros i Hi. unfold spec_drop. fields.
  destruct (N.eqb_spec x i) as [->|_]; [done|]. cbn. by rewrite andb_true_r.
Qed.

Lemma held_in_cons l gone x L :
  held_in l gone (x :: L) = (if l_held l x && gone x then 1 else 0) + held_in l gone L.
Proof.
  unfold held_in. rewrite filter_cons. destruct (l_held l x && gone x).
  - rewrite decide_True, lenN_cons by done. lia.
  - by rewrite decide_False.
Qed.

(** The log after the blocks of a list were dropped. *)
Definition spec_drop_list (l : Log) (gone : N -> bool) (L : list N) : Log :=
  spec_drop l (λ i, mem L i && gone i).

Lemma same_auth_trans c1 c2 c3 : same_auth c1 c2 -> same_auth c2 c3 -> same_auth c1 c3.
Proof. unfold same_auth. intros (-> & -> & -> & -> & -> & ->). done. Qed.

(** One round of the loops: a held block that goes, and any other. *)
Lemma repr_drop_skip l gone x L (c' : Hypercore S) :
  l_held l x && gone x = false -> repr (spec_drop_list l gone L) c' ->
  repr (spec_drop_list l gone (x :: L)) c'.
Proof.
  intros Hx Hr. eapply repr_held; [exact Hr|done..|]. intros i. unfold spec_drop_list, spec_drop. fields.
  rewrite mem_cons. destruct (N.eqb_spec x i) as [->|_]; [|done]. cbn [orb].
  destruct (l_held l i); [|done]. cbn in *. rewrite Hx. by rewrite andb_false_r.
Qed.

Lemma repr_drop_next l gone x L (c' : Hypercore S) :
  gone x = true -> repr (spec_drop_list (spec_drop l (N.eqb x)) gone L) c' ->
  repr (spec_drop_list l gone (x :: L)) c'.
Proof.
  intros Hx Hr. eapply repr_held; [exact Hr|done..|]. intros i. unfold spec_drop_list, spec_drop. fields.
  rewrite mem_cons. destruct (N.eqb_spec x i) as [->|_]; cbn [orb negb].
  - by rewrite Hx, !andb_false_r.
  - by rewrite andb_true_r.
Qed.

Lemma clear_loop_refines l (c : Hypercore S) L k :
  repr l c -> NoDup L ->
  wp (clear_loop L k) (λ n c', n = k + held_in l (λ _, true) L /\ repr (spec_drop_list l (λ _, true) L) c')
    (drop_failed c) c.
Proof.
  revert l c k. induction L as [|x L IH]; intros l c k Hr Hnd.
  { apply wp_ret. split; [by rewrite N.add_0_r|]. eapply repr_held; [exact Hr|done..|].
    intros i. unfold spec_drop_list, spec_drop. fields. by rewrite andb_true_r. }
  apply NoDup_cons in Hnd as [Hx Hnd]. cbn [clear_loop]. apply wp_bind, wp_reads.
  pose proof Hr as (Hc & _ & Hst). rewrite (r_held _ _ Hc), held_in_cons.
  destruct (l_held l x) eqn:Eh; cbn [andb].
  - apply wp_bind, wp_modify, wp_bind, wp_delete; [apply Hst| |].
    + intros s' Hi Hcs. eapply wp_mono; [apply (IH (spec_drop l (N.eqb x))); [|done]| |].
      * by apply (repr_drop1 l c x s').
      * intros n c' [-> Hr']. rewrite held_in_drop by done. split; [lia|].
        by apply repr_drop_next.
      * intros e c' (Hf & He & Ha). split_and!; [done..|]. eapply same_auth_trans; [|exact Ha]. done.
    + intros Hf s' e. split_and!; [done|by exists e|done].
  - eapply wp_mono; [by apply (IH l c)| |done]. intros n c' [-> Hr']. split; [lia|].
    apply repr_drop_skip; [by rewrite Eh|done].
Qed.

Lemma sweep_loop_refines l (c : Hypercore S) keep L k :
  repr l c -> NoDup L ->
  wp (sweep_loop keep L k)
    (λ n c', n = k + held_in l (negb ∘ keep) L /\ repr (spec_drop_list l (negb ∘ keep) L) c')
    (drop_failed c) c.
Proof.
  revert l c k. induction L as [|x L IH]; intros l c k Hr Hnd.
  { apply wp_ret. split; [by rewrite N.add_0_r|]. eapply repr_held; [exact Hr|done..|].
    intros i. unfold spec_drop_list, spec_drop. fields. by rewrite andb_true_r. }
  apply NoDup_cons in Hnd as [Hx Hnd]. cbn [sweep_loop]. apply wp_bind, wp_reads.
  pose proof Hr as (Hc & _ & Hst). rewrite (r_held _ _ Hc), held_in_cons.
  change ((negb ∘ keep) x) with (negb (keep x)). destruct (l_held l x && negb (keep x)) eqn:Eg.
  - apply andb_true_iff in Eg as [Eh Ek]. apply wp_bind, wp_delete; [apply Hst| |].
    + intros s' Hi Hcs. apply wp_bind, wp_modify.
      eapply wp_mono; [apply (IH (spec_drop l (N.eqb x))); [|done]| |].
      * by apply (repr_drop1 l c x s').
      * intros n c' [-> Hr']. rewrite held_in_drop by done. split; [lia|]. by apply repr_drop_next.
      * intros e c' (Hf & He & Ha). split_and!; [done..|]. eapply same_auth_trans; [|exact Ha]. done.
    + intros Hf s' e. split_and!; [done|by exists e|done].
  - eapply wp_mono; [by apply (IH l c)| |done]. intros n c' [-> Hr']. split; [lia|].
    by apply repr_drop_skip.
Qed.

Lemma mem_range a b i : mem (rangeN a b) i = in_range a b i.
Proof.
  unfold mem, in_range. pose proof (elem_of_rangeN a b i) as He.
  destruct (N.leb_spec a i), (N.ltb_spec i b); cbn [andb];
    [apply bool_decide_true|apply bool_decide_false..]; rewrite He; lia.
Qed.

Lemma clear_refines l (c : Hypercore S) a b :
  repr l c ->
  wp (clear a b) (λ n c', n = (spec_clear l a b).2 /\ repr (spec_clear l a b).1 c') (drop_failed c) c.
Proof.
  intros Hr. pose proof Hr as (Hc & _). assert (El : len c = l_len l) by apply (r_tree _ _ Hc).
  apply wp_bind, wp_reads. rewrite El.
  eapply wp_mono; [apply clear_loop_refines; [done|apply rangeN_nodup]| |done].
  intros n c' [-> Hr']. split.
  - cbn [spec_clear snd]. apply countN_ext. intros i _. by rewrite andb_true_r.
  - eapply repr_held; [exact Hr'|done..|]. intros i. unfold spec_drop_list. cbn [spec_clear fst spec_drop].
    unfold spec_drop. fields. rewrite mem_range, andb_true_r. unfold in_range.
    destruct (l_held l i) eqn:Eh; [|done]. apply (r_bound _ _ Hc) in Eh.
    destruct (N.ltb_spec i b), (N.ltb_spec i (N.min b (l_len l))); (done || lia).
Qed.

Lemma sweep_refines l (c : Hypercore S) keep :
  repr l c ->
  wp (sweep keep) (λ n c', n = (spec_sweep l keep).2 /\ repr (spec_sweep l keep).1 c') (drop_failed c) c.
Proof.
  intros Hr. pose proof Hr as (Hc & _). assert (El : len c = l_len l) by apply (r_tree _ _ Hc).
  apply wp_bind, wp_reads. rewrite El.
  eapply wp_mono; [apply sweep_loop_refines; [done|apply rangeN_nodup]| |done].
  intros n c' [-> Hr']. split; [done|].
  eapply repr_held; [exact Hr'|done..|]. intros i. unfold spec_drop_list, spec_sweep, spec_drop. fields.
  rewrite mem_range. unfold in_range. destruct (l_held l i) eqn:Eh; [|done]. apply (r_bound _ _ Hc) in Eh.
  rewrite (proj2 (N.ltb_lt _ _)), (proj2 (N.leb_le 0 i)) by lia. done.
Qed.

(** ** Application metadata *)

Lemma load_user_spec l (c : Hypercore S) :
  stored l (store c) ->
  load_user_data c = Ok (l_user l) \/ store_fails /\ exists e, load_user_data (E:=E) c = Err (Storage e).
Proof.
  intros [Hi _ Hu]. unfold load_user_data.
  destruct (store_get_spec c KEY_USERDATA Hi) as [->|(Hf & e & ->)]; [left|right; by eauto]. rsimpl.
  destruct (Store.contents (store c) !! KEY_USERDATA); [by rewrite Hu|by rewrite Hu].
Qed.

Lemma user_refines l (c : Hypercore S) k v :
  repr l c -> user_ok (<[k := v]> (l_user l)) ->
  Store.fits KEY_USERDATA (encode_user_data (<[k := v]> (l_user l))) ->
  wp (set_user_data k v) (λ _, repr (spec_user l k v)) (failed c) c.
Proof.
  intros (Hc & Hs & Hst) Hu Hf. apply wp_bind, wp_asks.
  destruct (load_user_spec l c Hst) as [->|(Hfail & e & ->)].
  2: { split_and!; [done|by exists e|]. exists (store c). by destruct c. }
  apply wp_put; [apply Hst|done| |intros Hfail s' e; split_and!; eauto].
  intros s' Hi Hcs. split_and!.
  - destruct Hc. by constructor.
  - exact Hs.
  - destruct Hst. constructor; unfold spec_user; fields; [done| |].
    + intros i b Hh El. rewrite Hcs, lookup_insert_ne; [by apply r_block0|].
      pose proof (r_bound _ _ Hc i Hh). pose proof (r_small _ _ Hc).
      destruct (key_range i) as (_ & _ & _ & Hk); [lia|]. congruence.
    + rewrite Hcs, lookup_insert_eq. by apply user_roundtrip.
Qed.

Lemma get_user_spec l (c : Hypercore S) k :
  repr l c ->
  get_user_data c k = Ok (l_user l !! k) \/ store_fails /\ exists e, get_user_data (E:=E) c k = Err (Storage e).
Proof.
  intros (_ & _ & Hst). unfold get_user_data.
  destruct (load_user_spec l c Hst) as [->|(Hf & e & ->)]; [by left|right; by eauto].
Qed.
End Ops.
End HypercoreOps.
