(* ===== verification/HypercoreDurable.v ===== *)
(** * [hypercore]: reading, reloading and adopting a log

    The read methods of a core, [persist] and [open], and the methods that take
    in blocks from elsewhere: [recover_signed_suffix] and [copy_prologue]
    ([src/crates/hypercore/src/core.rs]). *)
From S2P Require Import Prelude Codec Flat Merkle MerkleSpec MerkleProofs MerkleFork MerkleHistory.
From S2P Require Import Store Bitfield BitfieldTheorems Identity.
From S2P Require Import Hypercore HypercoreMeta HypercoreLog HypercoreOps.
From Stdlib Require Import Strings.Byte.

Module HypercoreDurable.
Import MerkleSpec Hypercore HypercoreMeta HypercoreLog HypercoreOps.
Import Identity (PublicKey, SecretKey, Sig).

Section Durable.
Context `{HL : HasherLaws} `{EL : Ed25519Laws} {S E : Type} `{SL : Store.StoreLaws S E}.

(** ** Reading *)

(** The bytes a reader of the log sees at an index. *)
Definition visible (l : Log) (i : N) : option bytes :=
  if l_held l i then l_blocks l !! N.to_nat i else None.

Lemma has_spec l (c : Hypercore S) i : content l c -> has c i = l_held l i.
Proof.
  intros Hc. unfold has. change (Merkle.length (tree c)) with (len c).
  assert (len c = l_len l) as -> by apply (r_tree _ _ Hc). rewrite (r_held _ _ Hc).
  destruct (l_held l i) eqn:Eh; [|by rewrite andb_false_r].
  by rewrite (proj2 (N.ltb_lt _ _)) by apply (r_bound _ _ Hc i Eh).
Qed.

Lemma held_block l (c : Hypercore S) i :
  content l c -> l_held l i = true -> exists b, l_blocks l !! N.to_nat i = Some b.
Proof.
  intros Hc Hh. pose proof (r_bound _ _ Hc i Hh) as Hlt. unfold l_len, lenN in Hlt.
  destruct (lookup_lt_is_Some_2 (l_blocks l) (N.to_nat i)) as [b Hb]; [lia|by exists b].
Qed.

Lemma block_spec l (c : Hypercore S) i :
  repr l c ->
  block c i = Ok (visible l i) \/ store_fails /\ exists e, block (E:=E) c i = Err (Storage e).
Proof.
  intros (Hc & _ & Hst). unfold block, visible. rewrite (has_spec l) by done.
  destruct (l_held l i) eqn:Eh; cbn [negb]; [|by left].
  destruct (held_block l c i Hc Eh) as [b Hb]. rewrite Hb.
  destruct (store_get_spec c i (r_inv _ _ Hst)) as [->|(Hf & e & ->)]; [left|right; by eauto].
  rsimpl. by rewrite (r_block _ _ Hst i b Eh Hb).
Qed.

Lemma read_blocks_spec l (c : Hypercore S) L :
  repr l c -> Forall (λ i, l_held l i = true) L ->
  (exists bs, read_blocks c L = Ok bs /\ mapM (λ i, l_blocks l !! N.to_nat i) L = Some bs)
  \/ store_fails /\ exists e, read_blocks (E:=E) c L = Err (Storage e).
Proof.
  intros Hr HL'. induction HL' as [|i L Hi HL' IH]; [left; by exists []|].
  cbn [read_blocks mapM]. destruct (block_spec l c i Hr) as [->|(Hf & e & ->)]; [|right; by eauto].
  unfold visible. rewrite Hi. destruct (held_block l c i (proj1 Hr) Hi) as [b Hb]. rewrite Hb. rsimpl.
  cbn [ok_or]. rsimpl. destruct IH as [(bs & -> & ->)|(Hf & e & ->)]; [left; by exists (b :: bs)|right; by eauto].
Qed.

Lemma mapM_lookup_from {A} (l : list A) (n : nat) a :
  a + N.of_nat n <= lenN l ->
  mapM (λ i, l !! N.to_nat i) (rangeN a (a + N.of_nat n)) = Some (take n (drop (N.to_nat a) l)).
Proof.
  revert a. induction n as [|n IH]; intros a Hn; [by rewrite rangeN_nil by lia|].
  rewrite rangeN_cons by lia. destruct (lookup_lt_is_Some_2 l (N.to_nat a)) as [x Hx]; [unfold lenN in Hn; lia|].
  cbn [mapM]. rewrite Hx, (drop_S l x) by done. rsimpl.
  replace (a + N.of_nat (Datatypes.S n)) with (a + 1 + N.of_nat n) by lia. rewrite IH by lia. rsimpl.
  by replace (N.to_nat (a + 1)) with (Datatypes.S (N.to_nat a)) by lia.
Qed.

Lemma mapM_lookup_range {A} (l : list A) (n : N) :
  n <= lenN l -> mapM (λ i, l !! N.to_nat i) (rangeN 0 n) = Some (take (N.to_nat n) l).
Proof.
  intros Hn. rewrite <- (N2Nat.id n), <- (N.add_0_l (N.of_nat _)), mapM_lookup_from by lia.
  by rewrite drop_0, N.add_0_l, Nat2N.id.
Qed.

(** ** Reloading *)

(** What [persist] writes. *)
Definition saved (c : Hypercore S) (s : S) : Prop :=
  Store.contents s !! KEY_TREE = Some (Merkle.serialize (tree c))
  /\ Store.contents s !! KEY_PRESENCE = Some (Bitfield.serialize (presence c))
  /\ Store.contents s !! KEY_META = Some (encode_meta c).

Lemma held_key l (c : Hypercore S) k :
  content l c -> Flat.max_blocks <= k -> l_held l k = false.
Proof.
  intros Hc Hk. destruct (l_held l k) eqn:Eh; [|done].
  pose proof (r_bound _ _ Hc k Eh). pose proof (r_small _ _ Hc). lia.
Qed.

Lemma max_keys : Flat.max_blocks <= KEY_TREE /\ Flat.max_blocks <= KEY_PRESENCE
  /\ Flat.max_blocks <= KEY_META /\ KEY_TREE <> KEY_USERDATA /\ KEY_PRESENCE <> KEY_USERDATA
  /\ KEY_META <> KEY_USERDATA /\ KEY_TREE <> KEY_PRESENCE /\ KEY_TREE <> KEY_META
  /\ KEY_PRESENCE <> KEY_META.
Proof. unfold Flat.max_blocks, KEY_META, KEY_TREE, KEY_PRESENCE, KEY_USERDATA, u64_max. lia. Qed.

Lemma persist_saves l (c : Hypercore S) :
  repr l c ->
  Store.fits KEY_TREE (Merkle.serialize (tree c)) ->
  Store.fits KEY_PRESENCE (Bitfield.serialize (presence c)) -> Store.fits KEY_META (encode_meta c) ->
  wp persist (λ _ c', (exists s', c' = set_store c s') /\ repr l c' /\ saved c (store c'))
    (failed c) c.
Proof.
  intros (Hc & Hs & Hst) Ft Fp Fm. destruct max_keys as (M1 & M2 & M3 & U1 & U2 & U3 & D1 & D2 & D3).
  assert (Hfail : store_fails -> forall s e, failed (E:=E) c (Storage e) (set_store c s))
    by (intros Hf s e; split_and!; eauto).
  apply wp_bind, wp_reads, wp_bind, wp_reads, wp_bind, wp_reads.
  apply wp_bind, wp_put; [apply Hst|done| |done]. intros s1 I1 C1.
  assert (S1 : stored l s1) by (eapply stored_put; [done..|by eapply held_key|done]).
  apply wp_bind, wp_put; [done..| |done]. intros s2 I2 C2.
  assert (S2 : stored l s2) by (eapply stored_put; [exact S1|done..|by eapply held_key|done]).
  apply wp_put; [done..| |done]. intros s3 I3 C3.
  assert (S3 : stored l s3) by (eapply stored_put; [exact S2|done..|by eapply held_key|done]).
  fields. split; [by exists s3|]. split.
  - split_and!; [by eapply content_fields|done..].
  - unfold saved. rewrite C3. fields. rewrite C2. fields. rewrite C1.
    rewrite (lookup_insert_ne _ KEY_META KEY_TREE), (lookup_insert_ne _ KEY_META KEY_PRESENCE) by done.
    rewrite (lookup_insert_ne _ KEY_PRESENCE KEY_TREE), !lookup_insert_eq by done. done.
Qed.

Lemma head_ok_wf pk f blocks h :
  u64_ok f -> lenN blocks <= Flat.max_blocks -> head_ok pk f blocks h -> head_wf h.
Proof.
  intros Hf Hn (Ef & El & Er & _). unfold head_wf. rewrite Ef, El, Er. split_and!; [done| |apply blake3_length].
  unfold u64_ok, Flat.max_blocks, two64 in *. lia.
Qed.

Lemma verify_head_spec l (c : Hypercore S) :
  content l c -> signed l c -> verify_head c = Done true.
Proof.
  intros Hc Hs. unfold verify_head, signed in *. destruct (head c) as [h|].
  - destruct Hs as (Hf & Hl & Hroot & Hv). destruct (r_tree _ _ Hc) as [El _].
    rewrite Hf, (r_fork _ _ Hc), N.eqb_refl, Hl, El, N.eqb_refl. cbn [negb].
    rewrite (root_hash_full (l_blocks l)) by apply Hc. rsimpl. by rewrite Hroot, bool_decide_true, Hv.
  - unfold Merkle.is_empty. destruct (r_tree _ _ Hc) as [-> _]. by rewrite Hs.
Qed.

Lemma open_spec l (c : Hypercore S) s :
  content l c -> signed l c -> stored l s -> saved c s ->
  (exists c', open_ (author c) s = Done (Ok c') /\ repr l c' /\ store c' = s /\ tree c' = tree c
     /\ head c' = head c /\ author c' = author c)
  \/ store_fails /\ exists e, open_ (E:=E) (author c) s = Done (Err (Storage e)).
Proof.
  intros Hc Hs Hst (Et & Ep & Em). unfold open_.
  assert (Hget : forall k, Store.get s k = Ok (Store.contents s !! k) \/ store_fails /\ exists e, Store.get s k = Err e).
  { intros k. destruct (Store.get s k) as [r|e] eqn:Eg.
    - left. by rewrite (Store.get_ok _ _ _ (r_inv _ _ Hst) Eg).
    - right. split; [|by exists e]. right; left. exists s, k, e. split; [apply Hst|done]. }
  destruct (Hget KEY_META) as [->|(Hf & e & ->)]; [rewrite Em|right; split; [done|by exists e]].
  destruct (Hget KEY_TREE) as [->|(Hf & e & ->)]; [rewrite Et|right; split; [done|by exists e]].
  destruct (Hget KEY_PRESENCE) as [->|(Hf & e & ->)]; [rewrite Ep; left|right; split; [done|by exists e]].
  rewrite deserialize_serialize by (eapply full_tree_ok; apply Hc).
  destruct (Bitfield.field_roundtrip (presence c)) as (b & -> & Hb & Hsub & Hg);
    [apply Hc|apply BitfieldTheorems.page_keys_ok, Hc|].
  unfold encode_meta. rewrite meta_roundtrip.
  - set (c' := mkCore _ _ _ _ _ _ _ _ _).
    assert (Hc' : content l c').
    { destruct Hc. constructor; cbn [c' author public store tree presence head fork last_truncation prologue]; try done.
      - intros i p Hi. by eapply r_keys0, lookup_weaken.
      - intros i. by rewrite Hg. }
    assert (Hs' : signed l c').
    { unfold signed in *. cbn. rewrite (r_public _ _ Hc) in Hs. done. }
    rewrite (verify_head_spec l c') by done. rsimpl. exists c'. split_and!; done.
  - rewrite (r_fork _ _ Hc). apply Hc.
  - unfold signed in Hs. destruct (head c) as [h|]; [|done]. eapply head_ok_wf; [apply Hc|apply Hc|exact Hs].
  - rewrite (r_prologue _ _ Hc). apply Hc.
Qed.

(** ** Blocks from elsewhere *)

Lemma rebuild_full blocks :
  lenN blocks <= Flat.max_blocks ->
  rebuild blocks = Done (MerkleHistory.build blocks) /\ full_tree blocks (MerkleHistory.build blocks).
Proof.
  intros Hn. split; [|by apply MerkleHistory.history_full, MerkleHistory.build_history].
  destruct (MerkleHistory.history_appends [] blocks Merkle.new MerkleHistory.h_new Hn) as (t & Et & _).
  unfold MerkleHistory.build, rebuild. unfold append_all in Et. unfold append_all. by rewrite Et.
Qed.

Lemma archived_feed_spec pk h blocks :
  lenN blocks <= Flat.max_blocks ->
  verify_archived_feed pk h blocks
  = Done ((h_length h =? lenN blocks) && bool_decide (h_root h = ref_root_hash blocks)
          && verify_signed_head pk h).
Proof.
  intros Hn. destruct (rebuild_full blocks Hn) as [Er Hf]. unfold verify_archived_feed. rewrite Er. rsimpl.
  rewrite (root_hash_full blocks) by done. destruct Hf as [-> _]. rsimpl.
  by destruct (h_length h =? lenN blocks).
Qed.

Lemma presence_fold L b :
  Bitfield.field_ok b -> BitfieldTheorems.page_keys b -> Forall u64_ok L ->
  let b' := foldl (λ b i, Bitfield.set b i true) b L in
  Bitfield.field_ok b' /\ BitfieldTheorems.page_keys b'
  /\ forall i, Bitfield.get b' i = mem L i || Bitfield.get b i.
Proof.
  intros Hb Hk HL'. revert b Hb Hk. induction HL' as [|x L Hx HL' IH]; intros b Hb Hk; cbn [foldl].
  { split_and!; done. }
  destruct (IH (Bitfield.set b x true)) as (Hb' & Hk' & Hg);
    [by apply Bitfield.set_field_ok|by apply BitfieldTheorems.set_keys|].
  split_and!; [done..|]. intros i. rewrite Hg, Bitfield.get_set, mem_cons by done.
  destruct (x =? i), (mem L i); done.
Qed.

Lemma full_presence_spec n :
  n <= Flat.max_blocks ->
  Bitfield.field_ok (full_presence n) /\ BitfieldTheorems.page_keys (full_presence n)
  /\ forall i, Bitfield.get (full_presence n) i = (i <? n).
Proof.
  intros Hn. destruct (presence_fold (rangeN 0 n) Bitfield.new) as (Hb & Hk & Hg).
  - intros i p Hi. done.
  - intros i p Hi. done.
  - apply Forall_forall. intros i Hi%elem_of_rangeN. unfold u64_ok, Flat.max_blocks, two64 in *. lia.
  - split_and!; [done..|]. intros i. unfold full_presence. rewrite Hg, mem_range, BitfieldTheorems.get_new.
    unfold in_range. rewrite orb_false_r, (proj2 (N.leb_le 0 i)) by lia. done.
Qed.

(** Every block of the log is held. *)
Definition all_held (l : Log) : Prop := forall i, i < l_len l -> l_held l i = true.

Lemma content_adopt l (c c' : Hypercore S) blocks :
  content l c -> lenN blocks <= Flat.max_blocks -> blocks_ok blocks ->
  author c' = author c -> public c' = public c -> tree c' = MerkleHistory.build blocks ->
  presence c' = full_presence (lenN blocks) -> fork c' = fork c -> prologue c' = prologue c ->
  content (spec_adopt l blocks) c'.
Proof.
  intros Hc Hn Hb Ea Ep Et Epr Ef Eq. destruct (full_presence_spec (lenN blocks) Hn) as (F1 & F2 & F3).
  destruct Hc. constructor; unfold spec_adopt, l_len; fields; rewrite ?Ea, ?Ep, ?Et, ?Epr, ?Ef, ?Eq; try done.
  - by apply rebuild_full.
  - intros i. by rewrite N.ltb_lt.
Qed.

Lemma stored_adopt l (c : Hypercore S) s suffix :
  repr l c -> all_held l -> l_len l + lenN suffix <= Flat.max_blocks -> Store.store_inv s ->
  (forall k, Store.contents s !! k
     = if in_range (l_len l) (l_len l + lenN suffix) k then suffix !! N.to_nat (k - l_len l)
       else Store.contents (store c) !! k) ->
  stored (spec_adopt l (l_blocks l ++ suffix)) s.
Proof.
  intros (Hc & _ & Hst) Hall Hn Hi Hk.
  destruct (stored_appends l (store c) s suffix Hst Hn (r_bound _ _ Hc) Hi Hk) as [_ Hb Hu].
  destruct (spec_appends_blocks l suffix) as (Eb & _ & _ & Eu).
  constructor; unfold spec_adopt; fields; [done| |by rewrite Eu in Hu].
  intros i b Hlt%N.ltb_lt El. apply Hb; [|by rewrite Eb]. rewrite spec_appends_held.
  rewrite lenN_app in Hlt. fold (l_len l) in Hlt. unfold in_range.
  destruct (N.leb_spec (l_len l) i); cbn [andb]; [by rewrite (proj2 (N.ltb_lt _ _))|].
  by rewrite Hall.
Qed.

(** The head and the suffix continue this log under its author's key. *)
Definition recover_valid (l : Log) (pk : PublicKey) (h : SignedHead) (suffix : list bytes) : bool :=
  (h_fork h =? l_fork l) && (l_len l + lenN suffix =? h_length h)
  && bool_decide (h_root h = ref_root_hash (l_blocks l ++ suffix)) && verify_signed_head pk h.

(** The suffix and the metadata written with it fit the store. *)
Definition recover_fits (l : Log) (h : SignedHead) (suffix : list bytes) : Prop :=
  let blocks := l_blocks l ++ suffix in
  all_fit (l_len l) suffix /\ Store.fits KEY_TREE (Merkle.serialize (MerkleHistory.build blocks))
  /\ Store.fits KEY_PRESENCE (Bitfield.serialize (full_presence (lenN blocks)))
  /\ Store.fits KEY_META (encode_meta_parts (l_fork l) (Some h) (l_prologue l)).

Lemma recover_prefix l (c : Hypercore S) :
  repr l c -> all_held l ->
  read_blocks c (rangeN 0 (l_len l)) = Ok (l_blocks l)
  \/ store_fails /\ exists e, read_blocks (E:=E) c (rangeN 0 (l_len l)) = Err (Storage e).
Proof.
  intros Hr Hall. destruct (read_blocks_spec l c (rangeN 0 (l_len l)) Hr) as [(bs & -> & Hm)|?];
    [|left|by right].
  - apply Forall_forall. intros i Hi%elem_of_rangeN. apply Hall. lia.
  - rewrite mapM_lookup_range in Hm by done. injection Hm as <-. f_equal.
    apply take_ge. unfold l_len, lenN. lia.
Qed.

Lemma recover_refines l (c : Hypercore S) h suffix :
  repr l c -> all_held l -> l_len l + lenN suffix <= Flat.max_blocks -> blocks_ok suffix ->
  recover_fits l h suffix ->
  wp (recover_signed_suffix h suffix)
    (λ _ c', recover_valid l (public c) h suffix = true /\ head c' = Some h
             /\ repr (spec_adopt l (l_blocks l ++ suffix)) c' /\ saved c' (store c'))
    (λ e c', e = Corrupt /\ recover_valid l (public c) h suffix = false /\ c' = c \/ failed (E:=E) c e c') c.
Proof.
  intros Hr Hall Hn Hbo (Ff & Ft & Fp & Fm). pose proof Hr as (Hc & Hs & Hst).
  assert (El : len c = l_len l) by apply (r_tree _ _ Hc). set (blocks := l_blocks l ++ suffix) in *.
  assert (Elb : lenN blocks = l_len l + lenN suffix) by apply lenN_app.
  assert (Hfail : store_fails -> forall s e, failed (E:=E) c (Storage e) (set_store c s))
    by (intros Hf s e; split_and!; eauto).
  apply wp_bind, wp_reads, wp_bind, wp_reads. rewrite El, (r_fork _ _ Hc). unfold recover_valid.
  rewrite (proj2 (N.leb_gt two64 _)) by (unfold Flat.max_blocks, two64 in *; lia). rewrite orb_false_r.
  destruct (h_fork h =? l_fork l) eqn:Ehf; cbn [negb orb andb]; [|apply wp_fail; by left].
  destruct (l_len l + lenN suffix =? h_length h) eqn:Ehl; cbn [negb orb andb]; [|apply wp_fail; by left].
  apply wp_bind, wp_asks.
  destruct (recover_prefix l c Hr Hall) as [->|(Hf & e & ->)].
  2: { right. replace c with (set_store c (store c)) at 2 by (by destruct c). by apply Hfail. }
  fold blocks. apply wp_bind.
  eapply wp_calls; [apply archived_feed_spec; rewrite Elb; done|].
  apply N.eqb_eq in Ehl. rewrite (proj2 (N.eqb_eq (h_length h) (lenN blocks))) by congruence. cbn [andb].
  destruct (bool_decide (h_root h = ref_root_hash blocks)) eqn:Ehr; cbn [andb negb]; [|apply wp_fail; by left].
  destruct (verify_signed_head (public c) h) eqn:Ehv; cbn [andb negb]; [|apply wp_fail; by left].
  apply wp_bind. eapply wp_runs; [apply rebuild_full; rewrite Elb; done|].
  destruct max_keys as (M1 & M2 & M3 & U1 & U2 & U3 & D1 & D2 & D3).
  assert (Hk : forall k, Flat.max_blocks <= k -> l_held (spec_adopt l blocks) k = false).
  { intros k Hk. unfold spec_adopt. fields. apply N.ltb_ge. lia. }
  apply wp_bind, wp_put_from; [apply Hst|done|unfold Flat.max_blocks, two64 in *; lia| |intros; right; by apply Hfail].
  intros s1 I1 C1. assert (S1 : stored (spec_adopt l blocks) s1) by (by eapply stored_adopt).
  apply wp_bind, wp_put; [done..| |intros; right; by apply Hfail]. intros s2 I2 C2.
  assert (S2 : stored (spec_adopt l blocks) s2) by (eapply stored_put; [exact S1|done..|by apply Hk|done]).
  apply wp_bind, wp_put; [done..| |intros; right; by apply Hfail]. intros s3 I3 C3.
  assert (S3 : stored (spec_adopt l blocks) s3) by (eapply stored_put; [exact S2|done..|by apply Hk|done]).
  apply wp_bind, wp_reads. fields. rewrite (r_fork _ _ Hc), (r_prologue _ _ Hc).
  apply wp_bind, wp_put; [done..| |intros; right; by apply Hfail]. intros s4 I4 C4.
  assert (S4 : stored (spec_adopt l blocks) s4) by (eapply stored_put; [exact S3|done..|by apply Hk|done]).
  apply wp_modify. split; [done|]. fields. split; [done|]. split.
  - split_and!.
    + eapply content_adopt; [exact Hc|rewrite Elb; done|by apply Forall_app; split; [apply Hc|]|done..].
    + unfold signed, head_ok, spec_adopt. fields. apply N.eqb_eq in Ehf. apply bool_decide_eq_true in Ehr.
      by rewrite Elb.
    + exact S4.
  - unfold saved, encode_meta. fields. rewrite C4. fields. rewrite C3. fields. rewrite C2.
    rewrite (lookup_insert_ne _ KEY_META KEY_TREE), (lookup_insert_ne _ KEY_META KEY_PRESENCE) by done.
    rewrite (lookup_insert_ne _ KEY_PRESENCE KEY_TREE), !lookup_insert_eq by done.
    by rewrite (r_fork _ _ Hc), (r_prologue _ _ Hc).
Qed.

(** ** Adopting a prologue *)

(** The state of the copy after some blocks: nothing is signed yet. *)
Definition copying (l : Log) (blocks : list bytes) (n : N) (rest : list N) (c : Hypercore S) : Prop :=
  exists i, i <= n /\ rest = rangeN i n
    /\ content (foldl spec_append l (take (N.to_nat i) blocks)) c
    /\ stored (foldl spec_append l (take (N.to_nat i) blocks)) (store c).

Lemma copy_step l ls (src : Hypercore S) n x rest c :
  repr ls src -> l_blocks l = [] -> n <= l_len ls -> n <= Flat.max_blocks ->
  (forall i, i < n -> l_held ls i = true) -> all_fit 0 (take (N.to_nat n) (l_blocks ls)) ->
  copying l (l_blocks ls) n (x :: rest) c ->
  wp (v ← tries (block src x); enc ← tries (ok_or PrologueMismatch v); _ ← store_put x enc;
      _ ← tree_append enc; presence_set x true)
    (λ _, copying l (l_blocks ls) n rest) (λ (e : Error E) _, store_fails /\ exists e', e = Storage e') c.
Proof.
  intros Hr Hl0 Hn Hmax Hheld Hfit (i & Hi & Erest & Hco & Hst).
  destruct (decide (i = n)) as [->|Hne]; [by rewrite rangeN_nil in Erest|].
  rewrite rangeN_cons in Erest by lia. injection Erest as -> ->.
  destruct (lookup_lt_is_Some_2 (l_blocks ls) (N.to_nat i)) as [b Hb]; [unfold l_len, lenN in Hn; lia|].
  set (li := foldl spec_append l (take (N.to_nat i) (l_blocks ls))) in *.
  destruct (spec_appends_blocks l (take (N.to_nat i) (l_blocks ls))) as (Eb & _). fold li in Eb.
  rewrite Hl0 in Eb. cbn in Eb.
  assert (El : l_len li = i) by (unfold l_len; rewrite Eb; apply lenN_take; unfold l_len in Hn; lia).
  assert (Enext : foldl spec_append l (take (N.to_nat (i + 1)) (l_blocks ls)) = spec_append li b).
  { replace (N.to_nat (i + 1)) with (Datatypes.S (N.to_nat i)) by lia.
    rewrite (take_S_r _ _ b) by done. by rewrite foldl_app. }
  assert (Hbo : u64_ok (lenN b)) by (exact (Forall_lookup_1 _ _ _ _ (r_blocks _ _ (proj1 Hr)) Hb)).
  apply wp_bind. unfold tries. unfold wp at 1.
  destruct (block_spec ls src i Hr) as [->|(Hf & e & ->)]; [|by eauto].
  unfold visible. rewrite Hheld, Hb by lia. apply wp_bind. cbn [ok_or]. unfold wp at 1.
  apply wp_bind, wp_put; [apply Hst| | |by eauto].
  { rewrite <- (N2Nat.id i), <- (N.add_0_l (N.of_nat _)). apply Hfit.
    apply lookup_take_Some. split; [done|lia]. }
  intros s' I' C'. apply wp_bind, (wp_tree_append (take (N.to_nat i) (l_blocks ls))).
  { fields. rewrite <- Eb. apply Hco. }
  { rewrite <- Eb. fold (l_len li). lia. }
  intros t Ht. apply wp_modify. exists (i + 1). split_and!; [lia|done| |]; rewrite Enext.
  - eapply content_fields; [apply (content_append li c b t); [done|lia|done|by rewrite Eb]| |..]; try done.
    fields. by rewrite El.
  - fields. eapply stored_append; [exact Hst|lia|apply Hco|done|by rewrite El].
Qed.

(** What the source must offer. *)
Definition prologue_backed (ls : Log) (pr : Prologue) : Prop :=
  p_length pr <= l_len ls /\ p_hash pr = ref_root_hash (take (N.to_nat (p_length pr)) (l_blocks ls)).

Lemma copy_prologue_refines l ls (c src : Hypercore S) pr :
  repr l c -> repr ls src -> l_prologue l = Some pr -> l_blocks l = [] -> prologue_backed ls pr ->
  (forall i, i < p_length pr -> l_held ls i = true) ->
  all_fit 0 (take (N.to_nat (p_length pr)) (l_blocks ls)) ->
  wp (copy_prologue src)
    (λ n c', n = p_length pr
       /\ repr (foldl spec_append l (take (N.to_nat (p_length pr)) (l_blocks ls))) c')
    (λ (e : Error E) _, store_fails /\ exists e', e = Storage e') c.
Proof.
  intros Hr Hrs Hpr Hl0 [Hn Hhash] Hheld Hfit. pose proof Hr as (Hc & _ & Hst).
  pose proof (r_small _ _ (proj1 Hrs)) as Hmax.
  assert (El : l_len l = 0) by (unfold l_len; by rewrite Hl0).
  apply wp_bind, wp_asks. rewrite (r_prologue _ _ Hc), Hpr. cbn [ok_or]. apply wp_bind, wp_reads.
  unfold is_empty, Merkle.is_empty. rewrite (proj1 (r_tree _ _ Hc)). fold (l_len l). rewrite El. cbn [negb N.eqb].
  unfold Merkle.prefix_root_hash. rewrite (prefix_roots_full (l_blocks ls)) by (assumption || apply Hrs). rsimpl.
  fold (ref_root_hash (take (N.to_nat (p_length pr)) (l_blocks ls))). rewrite <- Hhash.
  rewrite bool_decide_true by done. cbn [negb]. apply wp_bind.
  eapply wp_mono; [apply (wp_for_each (copying l (l_blocks ls) (p_length pr))) | |intros e s' He; exact He].
  - exists 0. split_and!; [lia|done|by rewrite take_0..].
  - intros x rest c' Hcp. eapply copy_step; [done..|lia|done|done|done].
  - intros [] c' (i & Hi & Enil & Hco & Hst').
    assert (i = p_length pr) as ->.
    { destruct (decide (i = p_length pr)); [done|]. by rewrite rangeN_cons in Enil by lia. }
    destruct (spec_appends_blocks l (take (N.to_nat (p_length pr)) (l_blocks ls))) as (Eb & Ef & _).
    apply wp_bind, wp_modify, wp_bind. apply (wp_resign (take (N.to_nat (p_length pr)) (l_blocks ls))).
    + fields. rewrite <- (app_nil_l (take _ _)), <- Hl0, <- Eb. apply Hco.
    + rewrite lenN_take by done. lia.
    + apply wp_ret. split; [done|]. split_and!; [by eapply content_fields| |exact Hst'].
      apply signed_resigned; [apply Hco|by rewrite Eb, Hl0|apply Hco].
Qed.

(** ** Purging *)

Lemma wp_deletes L (Q : unit -> Hypercore S -> Prop) (R : Error E -> Hypercore S -> Prop) c :
  Store.store_inv (store c) ->
  (forall s', Store.store_inv s' ->
     (forall k, Store.contents s' !! k = if mem L k then None else Store.contents (store c) !! k) ->
     Q tt (set_store c s')) ->
  (store_fails -> forall s' e, R (Storage e) (set_store c s')) ->
  wp (for_each L store_delete) Q R c.
Proof.
  revert c. induction L as [|x L IH]; intros c Hi HQ HR.
  - apply wp_ret. replace c with (set_store c (store c)) by (by destruct c). by apply HQ.
  - cbn [for_each]. apply wp_bind, wp_delete; [done| |done]. intros s1 I1 C1.
    apply (IH (set_store c s1)); [done| |done].
    intros s2 I2 C2. fields. apply HQ; [done|]. intros k. rewrite C2, mem_cons. fields. rewrite C1.
    destruct (mem L k); [by rewrite orb_true_r|]. rewrite orb_false_r.
    destruct (N.eqb_spec x k) as [->|Hne]; [by rewrite lookup_delete_eq|by rewrite lookup_delete_ne].
Qed.

Lemma purge_refines l (c : Hypercore S) :
  repr l c -> wp purge (λ _ c', repr (empty_log None) c' /\ author c' = author c) (failed (E:=E) c) c.
Proof.
  intros (Hc & _ & Hst).
  assert (Hfail : store_fails -> forall s e, failed (E:=E) c (Storage e) (set_store c s))
    by (intros Hf s e; split_and!; eauto).
  apply wp_bind, wp_reads, wp_bind, wp_deletes; [apply Hst| |done]. intros s1 I1 C1.
  apply wp_bind, wp_deletes; [done| |done]. intros s2 I2 C2. apply wp_modify. fields. split; [|done]. split_and!.
  - destruct Hc. constructor; unfold empty_log, l_len; fields; try done.
    + apply full_tree_new.
    + constructor.
  - done.
  - constructor; fields; [done|done|]. by rewrite C2.
Qed.
End Durable.
End HypercoreDurable.
