(* ===== verification/HypercoreTrace.v ===== *)
(** * [hypercore]: sequences of calls on a core

    The methods of a core as one operation type, what each means on the abstract
    log, and the runs of operations from a fresh core. *)
From S2P Require Import Prelude Codec Flat Merkle MerkleSpec MerkleProofs MerkleFork MerkleHistory.
From S2P Require Import Store Bitfield BitfieldTheorems Identity.
From S2P Require Import Hypercore HypercoreMeta HypercoreLog HypercoreOps HypercoreDurable.
From Stdlib Require Import Strings.Byte.

Module HypercoreTrace.
Import MerkleSpec Hypercore HypercoreMeta HypercoreLog HypercoreOps HypercoreDurable.
Import Identity (PublicKey, SecretKey, Sig).

Section Trace.
Context `{HL : HasherLaws} `{EL : Ed25519Laws} {T : Type} `{CL : Codec.CodecLaws T}.
Context {S E : Type} `{SL : Store.StoreLaws S E}.

(** A call of a method; [Reload] persists the core and opens its store again,
    [CopyPrologue] names the log its source holds. *)
Inductive op :=
| Append (v : T)
| AppendAll (vs : list T)
| Truncate (n : N)
| Clear (a b : N)
| Sweep (keep : N -> bool)
| SetUserData (k v : bytes)
| Reload
| Recover (h : SignedHead) (suffix : list bytes)
| CopyPrologue (src : Hypercore S) (ls : Log)
| Purge.

Inductive answer := Num (n : N) | Cut (t : option Truncation) | Unit_.

Abbreviation method := (act (Hypercore S) (Error E)).

Definition reopen : method unit := λ c,
  r ← open_ (author c) (store c);
  match r with Ok c' => Done (c', Ok tt) | Err e => Done (c, Err e) end.

Definition exec (o : op) : method answer :=
  match o with
  | Append v => i ← append v; mret (Num i)
  | AppendAll vs => n ← append_all vs; mret (Num n)
  | Truncate n => t ← truncate n; mret (Cut t)
  | Clear a b => n ← clear a b; mret (Num n)
  | Sweep keep => n ← sweep keep; mret (Num n)
  | SetUserData k v => _ ← set_user_data k v; mret Unit_
  | Reload => _ ← persist; _ ← reopen; mret Unit_
  | Recover h suffix => _ ← recover_signed_suffix h suffix; mret Unit_
  | CopyPrologue src _ => n ← copy_prologue src; mret (Num n)
  | Purge => _ ← purge; mret Unit_
  end.

Definition encodings (vs : list T) : list bytes := Codec.encode <$> vs.

Definition spec (l : Log) (o : op) : Log * answer :=
  match o with
  | Append v => (spec_append l (Codec.encode v), Num (l_len l))
  | AppendAll vs => (foldl spec_append l (encodings vs), Num (l_len l + lenN vs))
  | Truncate n => ((spec_truncate l n).1, Cut (spec_truncate l n).2)
  | Clear a b => ((spec_clear l a b).1, Num (spec_clear l a b).2)
  | Sweep keep => ((spec_sweep l keep).1, Num (spec_sweep l keep).2)
  | SetUserData k v => (spec_user l k v, Unit_)
  | Reload => (l, Unit_)
  | Recover h suffix => (spec_adopt l (l_blocks l ++ suffix), Unit_)
  | CopyPrologue _ ls =>
      match l_prologue l with
      | Some pr => (foldl spec_append l (take (N.to_nat (p_length pr)) (l_blocks ls)), Num (p_length pr))
      | None => (l, Unit_)
      end
  | Purge => (empty_log None, Unit_)
  end.

(** The bounds a call stays within: 2^62 blocks, 64-bit lengths and counters, and
    values the store can hold.  A source of a prologue backs the commitment. *)
Definition op_ok (l : Log) (c : Hypercore S) (o : op) : Prop :=
  match o with
  | Append v =>
      l_len l < Flat.max_blocks /\ u64_ok (lenN (Codec.encode v)) /\ Store.fits (l_len l) (Codec.encode v)
  | AppendAll vs =>
      l_len l + lenN vs <= Flat.max_blocks /\ blocks_ok (encodings vs) /\ all_fit (l_len l) (encodings vs)
  | Truncate _ => l_fork l + 1 < two64
  | Clear _ _ | Sweep _ | Purge => True
  | SetUserData k v =>
      user_ok (<[k := v]> (l_user l))
      /\ Store.fits KEY_USERDATA (encode_user_data (<[k := v]> (l_user l)))
  | Reload =>
      Store.fits KEY_TREE (Merkle.serialize (tree c))
      /\ Store.fits KEY_PRESENCE (Bitfield.serialize (presence c)) /\ Store.fits KEY_META (encode_meta c)
  | Recover h suffix =>
      all_held l /\ l_len l + lenN suffix <= Flat.max_blocks /\ blocks_ok suffix /\ recover_fits l h suffix
  | CopyPrologue src ls =>
      exists pr, repr ls src /\ l_prologue l = Some pr /\ l_blocks l = [] /\ prologue_backed ls pr
        /\ (forall i, i < p_length pr -> l_held ls i = true)
        /\ all_fit 0 (take (N.to_nat (p_length pr)) (l_blocks ls))
  end.

(** How a call may fail: on the store, and [Recover] on a head that does not
    continue the log. *)
Definition error_ok (l : Log) (c : Hypercore S) (o : op) (e : Error E) (c' : Hypercore S) : Prop :=
  match o with
  | Truncate _ => False
  | Clear _ _ | Sweep _ => drop_failed c e c'
  | CopyPrologue _ _ => store_fails /\ exists e', e = Storage e'
  | Recover h suffix => e = Corrupt /\ recover_valid l (public c) h suffix = false /\ c' = c \/ failed c e c'
  | _ => failed c e c'
  end.

(** ** One call *)

Lemma stage_all vs b : foldl stage b vs = mkBatch (base b) (encoded b ++ encodings vs).
Proof.
  revert b. induction vs as [|v vs IH]; intros b; cbn [foldl].
  - unfold encodings. cbn. rewrite app_nil_r. by destruct b.
  - rewrite IH. unfold stage, encodings. cbn. by rewrite <- app_assoc.
Qed.

Lemma append_all_refines l (c : Hypercore S) vs :
  repr l c -> op_ok l c (AppendAll vs) ->
  wp (append_all vs) (λ n c', n = l_len l + lenN vs /\ repr (foldl spec_append l (encodings vs)) c')
    (failed (E:=E) c) c.
Proof.
  intros Hr (Hn & Hb & Hf). assert (El : len c = l_len l) by apply (r_tree _ _ (proj1 Hr)).
  assert (Ee : lenN (encodings vs) = lenN vs) by (unfold lenN, encodings; by rewrite length_fmap).
  unfold append_all. destruct (decide (vs = [])) as [->|Hne].
  - rewrite bool_decide_true by done. apply wp_reads. rewrite El. split; [by rewrite N.add_0_r|done].
  - rewrite bool_decide_false by done. apply wp_bind, wp_reads, wp_bind. rewrite stage_all. cbn [base encoded batch app].
    change (Merkle.length (tree c)) with (len c). rewrite El.
    eapply wp_mono; [apply (commit_refines l c (mkBatch (l_len l) (encodings vs)))| |done];
      cbn [base encoded]; rewrite ?Ee; try done.
    + unfold encodings. by destruct vs.
    + intros r c' [-> Hr']. apply wp_reads. split; [|done]. unfold len.
      rewrite (proj1 (r_tree _ _ (proj1 Hr'))). destruct (spec_appends_blocks l (encodings vs)) as (-> & _).
      by rewrite lenN_app, Ee.
Qed.

Lemma reload_refines l (c : Hypercore S) :
  repr l c -> op_ok l c Reload -> wp (exec Reload) (λ a c', a = Unit_ /\ repr l c') (failed c) c.
Proof.
  intros Hr (Ft & Fp & Fm). apply wp_bind. eapply wp_mono; [by apply (persist_saves l c)| |done].
  intros [] c1 ((s1 & ->) & (Hc & Hs & Hst) & Hsv). apply wp_bind. unfold wp at 1, reopen. fields.
  destruct (open_spec l c s1) as [(c' & -> & Hr' & _)|(Hf & e & ->)]; [apply Hr|apply Hr|done|done| |].
  - rsimpl. apply wp_ret. done.
  - rsimpl. split_and!; [done|by exists e|by exists s1].
Qed.

Lemma op_refines l (c : Hypercore S) o :
  repr l c -> op_ok l c o ->
  wp (exec o) (λ a c', a = (spec l o).2 /\ repr (spec l o).1 c') (error_ok l c o) c.
Proof.
  intros Hr Ho. destruct o as [v|vs|n|a b|keep|k v| |h suffix|src ls|]; cbn [exec spec fst snd].
  - destruct Ho as (Hn & Hu & Hf). apply wp_bind. eapply wp_mono; [by apply append_refines| |done].
    intros i c' [-> Hr']. by apply wp_ret.
  - apply wp_bind. eapply wp_mono; [by apply append_all_refines| |done].
    intros i c' [-> Hr']. by apply wp_ret.
  - apply wp_bind. eapply wp_mono; [by apply truncate_refines| |done].
    intros i c' [-> Hr']. by apply wp_ret.
  - apply wp_bind. eapply wp_mono; [by apply clear_refines| |done].
    intros i c' [-> Hr']. by apply wp_ret.
  - apply wp_bind. eapply wp_mono; [by apply sweep_refines| |done].
    intros i c' [-> Hr']. by apply wp_ret.
  - destruct Ho as [Hu Hf]. apply wp_bind. eapply wp_mono; [by apply user_refines| |done].
    intros [] c' Hr'. by apply wp_ret.
  - by apply reload_refines.
  - destruct Ho as (Hall & Hn & Hb & Hf). apply wp_bind. eapply wp_mono; [by apply recover_refines| |].
    + intros [] c' (_ & _ & Hr' & _). by apply wp_ret.
    + intros e c' He. exact He.
  - destruct Ho as (pr & Hrs & Hpr & Hl0 & Hbk & Hh & Hf). rewrite Hpr. apply wp_bind.
    eapply wp_mono; [by apply (copy_prologue_refines l ls c src pr)| |done].
    intros n c' [-> Hr']. by apply wp_ret.
  - apply wp_bind. eapply wp_mono; [by apply (purge_refines l)| |done]. intros [] c' [Hr' _]. by apply wp_ret.
Qed.

(** ** Runs *)

(** A run of successful calls, with the log each leaves. *)
Inductive trace : Log -> Hypercore S -> list op -> Log -> Hypercore S -> Prop :=
| trace_nil l c : trace l c [] l c
| trace_snoc l c ops l1 c1 o a c2 :
    trace l c ops l1 c1 -> op_ok l1 c1 o -> exec o c1 = Done (c2, Ok a) ->
    trace l c (ops ++ [o]) (spec l1 o).1 c2.

Lemma trace_repr l c ops l' c' : trace l c ops l' c' -> repr l c -> repr l' c'.
Proof.
  induction 1 as [|l c ops l1 c1 o a c2 _ IH Ho He]; intros Hr; [done|].
  pose proof (op_refines l1 c1 o (IH Hr) Ho) as Hw. unfold wp in Hw. rewrite He in Hw. apply Hw.
Qed.

(** The core a program starts with. *)
Definition fresh (sk : SecretKey) (s : S) (pr : option Prologue) : Hypercore S :=
  match pr with None => new sk s | Some pr => with_prologue sk s pr end.

Lemma fresh_repr sk s pr :
  Store.store_inv s -> Store.contents s !! KEY_USERDATA = None -> from_option prologue_wf True pr ->
  repr (empty_log pr) (fresh sk s pr).
Proof.
  intros Hi Hu Hp. split_and!.
  - destruct pr; (constructor; unfold empty_log, l_len; fields; try done; [apply full_tree_new|constructor]).
  - by destruct pr.
  - destruct pr; (constructor; fields; [done|done|];
      match goal with |- context [store ?x] => change (store x) with s end; by rewrite Hu).
Qed.
End Trace.
#[global] Arguments op {_} T S.
End HypercoreTrace.
