(* ===== verification/HypercoreBatch.v ===== *)
(** * [hypercore]: a committed batch is a run of appends

    The batch of [src/crates/hypercore/src/core.rs] writes every block first and
    signs once; [append] writes, hashes and signs block by block.  Both leave the
    same core, over any store at all. *)
From S2P Require Import Prelude Codec Flat Merkle MerkleSpec MerkleHistory Store Bitfield Identity.
From S2P Require Import MerkleProofs Hypercore HypercoreMeta HypercoreLog HypercoreOps HypercoreDurable HypercoreTrace.
From Stdlib Require Import Strings.Byte.

Module HypercoreBatch.
Import MerkleSpec Hypercore HypercoreMeta HypercoreLog HypercoreDurable HypercoreTrace.

Section Batch.
Context `{HL : HasherLaws} `{EL : Ed25519Laws} {T : Type} `{CC : Codec.Codec T}.
Context {S E : Type} `{SS : !Store.Store S E}.

(** The blocks written one after the other. *)
Fixpoint puts (s : S) (i : N) (encs : list bytes) : S * result E unit :=
  match encs with
  | [] => (s, Ok tt)
  | enc :: encs' =>
      match Store.put s i enc with
      | (s', Ok _) => puts s' (wrap64 (i + 1)) encs'
      | (s', Err e) => (s', Err e)
      end
  end.

Fixpoint marks (b : Bitfield.Bitfield) (i : N) (encs : list bytes) : Bitfield.Bitfield :=
  match encs with
  | [] => b
  | _ :: encs' => marks (Bitfield.set b i true) (wrap64 (i + 1)) encs'
  end.

(** The core after blocks were added and signed. *)
Definition after (l : Log) (c : Hypercore S) (s : S) (encs : list bytes) : Hypercore S :=
  mkCore (author c) (public c) s (MerkleHistory.build (l_blocks l ++ encs))
    (marks (presence c) (l_len l) encs)
    (Some (signed_head (author c) (fork c) (l_blocks l ++ encs))) (fork c) None (prologue c).

Lemma build_eq blocks t :
  full_tree blocks t -> lenN blocks <= Flat.max_blocks -> t = MerkleHistory.build blocks.
Proof.
  intros Hf Hn. eapply full_tree_unique; [exact Hf|]. by apply rebuild_full.
Qed.

Lemma tree_append_eq l (c : Hypercore S) enc :
  content l c -> l_len l < Flat.max_blocks ->
  tree_append (E:=E) enc c = Done (set_tree c (MerkleHistory.build (l_blocks l ++ [enc])), Ok tt).
Proof.
  intros Hc Hn. unfold tree_append.
  destruct (append_full (l_blocks l) (tree c) enc) as (t & -> & Ht); [apply Hc|done|]. rsimpl.
  rewrite (build_eq _ t Ht); [done|]. rewrite lenN_snoc. unfold l_len in Hn. lia.
Qed.

Lemma resign_eq blocks (c : Hypercore S) :
  tree c = MerkleHistory.build blocks -> lenN blocks <= Flat.max_blocks ->
  resign (E:=E) c = Done (set_head c (Some (signed_head (author c) (fork c) blocks)), Ok tt).
Proof.
  intros Et Hn. destruct (rebuild_full blocks Hn) as [_ Hf]. unfold resign. rewrite Et.
  rewrite (root_hash_full blocks) by done. destruct Hf as [-> _]. done.
Qed.

Lemma append_eq l (c : Hypercore S) (v : T) :
  content l c -> l_len l < Flat.max_blocks ->
  append (E:=E) v c
  = match Store.put (store c) (l_len l) (Codec.encode v) with
    | (s, Ok _) => Done (after l c s [Codec.encode v], Ok (l_len l))
    | (s, Err e) => Done (set_store c s, Err (Storage e))
    end.
Proof.
  intros Hc Hn. assert (El : len c = l_len l) by apply (r_tree _ _ Hc).
  unfold append, mbind, act_bind, reads, store_put. rewrite El.
  destruct (Store.put _ _ _) as [s [[]|e]]; cbn [map_err]; [|done].
  rewrite (tree_append_eq l) by (done || by eapply content_fields). unfold presence_set, modify.
  rewrite (resign_eq (l_blocks l ++ [Codec.encode v])); [done|done|].
  rewrite lenN_snoc. unfold l_len in Hn. lia.
Qed.

Lemma content_after l (c : Hypercore S) s enc :
  content l c -> l_len l < Flat.max_blocks -> u64_ok (lenN enc) ->
  content (spec_append l enc) (after l c s [enc]).
Proof.
  intros Hc Hn Hu. eapply content_fields;
    [apply (content_append l c enc (MerkleHistory.build (l_blocks l ++ [enc]))); [done..|]|done..].
  apply rebuild_full. rewrite lenN_snoc. unfold l_len in Hn. lia.
Qed.

Lemma after_after l (c : Hypercore S) s1 s2 enc encs :
  l_len l < Flat.max_blocks ->
  after (spec_append l enc) (after l c s1 [enc]) s2 encs = after l c s2 (enc :: encs).
Proof.
  intros Hn. assert (El : l_len (spec_append l enc) = wrap64 (l_len l + 1)).
  { rewrite wrap64_small by (unfold Flat.max_blocks, two64 in *; lia). apply lenN_snoc. }
  unfold after. rewrite El. unfold spec_append. fields. rewrite <- app_assoc. done.
Qed.

Definition appends (vs : list T) : act (Hypercore S) (Error E) unit :=
  for_each vs (λ v, _ ← append v; mret tt).

(** Successful appends are successful writes, and leave [after]. *)
Lemma appends_eq l (c c' : Hypercore S) vs :
  content l c -> l_len l + lenN vs <= Flat.max_blocks -> blocks_ok (encodings vs) -> vs <> [] ->
  appends vs c = Done (c', Ok tt) ->
  exists s, puts (store c) (l_len l) (encodings vs) = (s, Ok tt) /\ c' = after l c s (encodings vs).
Proof.
  revert l c. induction vs as [|v vs IH]; intros l c Hc Hn Hb Hne Ha; [done|].
  rewrite lenN_cons in Hn. apply Forall_cons in Hb as [Hb Hbs].
  unfold appends in Ha. cbn [for_each] in Ha. unfold mbind, act_bind in Ha.
  rewrite (append_eq l) in Ha by (done || lia). cbn [encodings fmap list_fmap puts].
  destruct (Store.put (store c) (l_len l) (Codec.encode v)) as [s1 [[]|e]]; [|done].
  cbn [mret act_ret] in Ha. assert (El : l_len (spec_append l (Codec.encode v)) = l_len l + 1) by apply lenN_snoc.
  destruct (decide (vs = [])) as [->|Hvs].
  - injection Ha as <-. exists s1. done.
  - destruct (IH (spec_append l (Codec.encode v)) (after l c s1 [Codec.encode v])) as (s2 & Ep & ->); try done.
    + apply content_after; (done || lia).
    + rewrite El. lia.
    + exists s2. rewrite El in Ep. rewrite wrap64_small by (unfold Flat.max_blocks, two64 in *; lia).
      split; [exact Ep|]. apply after_after. lia.
Qed.

Lemma commit_writes_eq i encs w (c : Hypercore S) s :
  puts (store c) i encs = (s, Ok tt) ->
  commit_writes i encs w c = Done (set_store c s, Ok tt).
Proof.
  revert i w c. induction encs as [|enc encs IH]; intros i w c; cbn [puts commit_writes].
  - intros [= <-]. unfold mret, act_ret. by destruct c.
  - destruct (Store.put (store c) i enc) as [s1 [[]|e]]; [|done]. intros Hp.
    by rewrite (IH _ _ (set_store c s1)).
Qed.

(** The writes touch the store alone, and fail with its error. *)
Lemma commit_writes_store i encs w (c c' : Hypercore S) r :
  commit_writes i encs w c = Done (c', r) ->
  exists s, c' = set_store c s /\ match r with Ok _ => True | Err e => exists e', e = Storage (SE:=E) e' end.
Proof.
  revert i w c. induction encs as [|enc encs IH]; intros i w c; cbn [commit_writes].
  - intros [= <- <-]. exists (store c). by destruct c.
  - destruct (Store.put (store c) i enc) as [s1 [[]|e1]].
    + intros (s & -> & Hr)%IH. by exists s.
    + intros [= <- <-]. exists (rollback s1 w). eauto.
Qed.

Lemma fold_blocks_eq l (c : Hypercore S) encs :
  content l c -> l_len l + lenN encs <= Flat.max_blocks -> blocks_ok encs ->
  fold_blocks (E:=E) (l_len l) encs c
  = Done (set_presence (set_tree c (MerkleHistory.build (l_blocks l ++ encs)))
            (marks (presence c) (l_len l) encs), Ok tt).
Proof.
  revert l c. induction encs as [|enc encs IH]; intros l c Hc Hn Hb; cbn [fold_blocks marks].
  - rewrite app_nil_r, <- (build_eq (l_blocks l) (tree c)) by apply Hc. unfold mret, act_ret. by destruct c.
  - rewrite lenN_cons in Hn. apply Forall_cons in Hb as [Hb Hbs]. unfold mbind, act_bind.
    rewrite (tree_append_eq l) by (done || lia). unfold presence_set, modify. fields.
    assert (El : l_len (spec_append l enc) = l_len l + 1) by apply lenN_snoc.
    rewrite wrap64_small by (unfold Flat.max_blocks, two64 in *; lia). rewrite <- El, IH.
    + unfold spec_append. fields. by rewrite <- app_assoc.
    + apply content_append; [done|lia|done|]. apply rebuild_full. rewrite lenN_snoc. unfold l_len in Hn. lia.
    + rewrite El. lia.
    + done.
Qed.

Lemma commit_eq l (c : Hypercore S) b s :
  content l c -> base b = l_len l -> encoded b <> [] -> l_len l + lenN (encoded b) <= Flat.max_blocks ->
  blocks_ok (encoded b) -> puts (store c) (l_len l) (encoded b) = (s, Ok tt) ->
  commit b c = Done (after l c s (encoded b), Ok (Some (l_len l + lenN (encoded b)))).
Proof.
  intros Hc Hbase Hne Hn Hb Hp. assert (El : len c = l_len l) by apply (r_tree _ _ Hc).
  unfold commit, mbind, act_bind, reads. rewrite El, Hbase, N.eqb_refl, bool_decide_false by done. cbn [negb].
  rewrite (commit_writes_eq _ _ _ _ s) by done.
  rewrite (fold_blocks_eq l) by (done || by eapply content_fields). unfold modify.
  rewrite (resign_eq (l_blocks l ++ encoded b)); [|done|by rewrite lenN_app]. unfold mret, act_ret.
  assert (Elen : len (after l c s (encoded b)) = l_len l + lenN (encoded b)).
  { unfold len, after, l_len in *. fields. rewrite <- lenN_app. apply rebuild_full. by rewrite lenN_app. }
  by rewrite <- Elen.
Qed.

(** A commit that fails changes the store alone. *)
Lemma commit_error l (c c' : Hypercore S) b e :
  content l c -> l_len l + lenN (encoded b) <= Flat.max_blocks -> blocks_ok (encoded b) ->
  commit b c = Done (c', Err e) -> exists s e', c' = set_store c s /\ e = Storage (SE:=E) e'.
Proof.
  intros Hc Hn Hb. assert (El : len c = l_len l) by apply (r_tree _ _ Hc).
  unfold commit, mbind, act_bind, reads. rewrite El.
  destruct (base b =? l_len l); cbn [negb]; [|done]. destruct (bool_decide _); [done|].
  destruct (commit_writes _ _ _ c) as [[c1 r]| |] eqn:Ew; [|done..].
  apply commit_writes_store in Ew as (s & -> & Hr). destruct r as [[]|e1].
  - rewrite (fold_blocks_eq l) by (done || by eapply content_fields). unfold modify.
    by rewrite (resign_eq (l_blocks l ++ encoded b)); [|done|by rewrite lenN_app].
  - intros [= <- <-]. destruct Hr as [e' ->]. by exists s, e'.
Qed.
End Batch.
End HypercoreBatch.
