(* ===== verification/HypercoreTheorems.v ===== *)
(** * [hypercore]: what a core promises

    The properties of [src/crates/hypercore/src/lib.rs], [core.rs], [stream.rs]
    and [snapshot.rs], stated of every core a program can hold: one made by [new]
    or [with_prologue] over an empty store and used through its methods. *)
From S2P Require Import Prelude Codec Flat Merkle MerkleSpec MerkleProofs MerkleFork MerkleHistory.
From S2P Require Import Store Bitfield BitfieldTheorems Identity IdentityTheorems.
From S2P Require Import Hypercore HypercoreMeta HypercoreLog HypercoreOps HypercoreDurable HypercoreTrace HypercoreBatch.
From Stdlib Require Import Strings.Byte.

Module HypercoreTheorems.
Import MerkleSpec MerkleProofs Hypercore HypercoreMeta HypercoreLog HypercoreOps HypercoreDurable.
Import HypercoreTrace HypercoreBatch.
Import Identity (PublicKey, SecretKey, Sig).

Section Theorems.
Context `{HL : HasherLaws} `{EL : Ed25519Laws} {T : Type} `{CL : Codec.CodecLaws T}.
Context {S E : Type} `{SL : Store.StoreLaws S E}.

(** A core in use, the calls that led to it and the log it stands for. *)
Definition life (ops : list (op T S)) (l : Log) (c : Hypercore S) : Prop :=
  exists sk s pr, Store.store_inv s /\ Store.contents s = ∅ /\ from_option prologue_wf True pr
    /\ trace (empty_log pr) (fresh sk s pr) ops l c.

Lemma life_repr ops l c : life ops l c -> repr l c.
Proof.
  intros (sk & s & pr & Hi & Hc & Hp & Ht). eapply trace_repr; [exact Ht|].
  apply fresh_repr; [done|by rewrite Hc|done].
Qed.

(** ** Lemmas *)

Lemma get_spec l (c : Hypercore S) i :
  repr l c ->
  get (T:=T) c i = match visible l i with
                   | Some b => v ← map_err Codec_ (Codec.decode b); Ok (Some v)
                   | None => Ok None
                   end
  \/ store_fails /\ exists e, get (T:=T) (E:=E) c i = Err (Storage e).
Proof.
  intros (Hc & _ & Hst). unfold get, visible. rewrite (has_spec l) by done.
  destruct (l_held l i) eqn:Eh; cbn [negb]; [|by left].
  destruct (held_block l c i Hc Eh) as [b Hb]. rewrite Hb.
  destruct (store_get_spec c i (r_inv _ _ Hst)) as [->|(Hf & e & ->)]; [left|right; by eauto].
  rsimpl. by rewrite (r_block _ _ Hst i b Eh Hb).
Qed.

Lemma contiguous_spec l (c : Hypercore S) :
  content l c ->
  exists n, contiguous_length c = Done n /\ n <= l_len l /\ (forall i, i < n -> l_held l i = true)
    /\ (n < l_len l -> l_held l n = false).
Proof.
  intros Hc. unfold contiguous_length.
  destruct (Bitfield.find_first_spec (presence c) false 0) as (r & -> & Hr); [apply Hc|]. rsimpl.
  rewrite (proj1 (r_tree _ _ Hc)). fold (l_len l). eexists. split; [done|].
  destruct r as [x|]; cbn [default from_option id].
  - destruct Hr as (_ & Hx & Hy). rewrite (r_held _ _ Hc) in Hx. split_and!; [lia| |].
    + intros i Hi. rewrite <- (r_held _ _ Hc). apply (Hy i). lia.
    + intros Hn. by replace (N.min x (l_len l)) with x by lia.
  - exfalso. unfold Bitfield.find_first_ok in Hr. specialize (Hr (l_len l) (N.le_0_l _)).
    rewrite (r_held _ _ Hc) in Hr. apply (r_bound _ _ Hc) in Hr. lia.
Qed.

(** Only [purge] forgets what was signed. *)
Definition keeps_history (o : op T S) : Prop := match o with Purge => False | _ => True end.

Lemma spec_history l o c :
  keeps_history o -> op_ok l c o ->
  l_fork l <= l_fork (spec l o).1
  /\ (l_fork l = l_fork (spec l o).1 -> l_blocks l `prefix_of` l_blocks (spec l o).1).
Proof.
  destruct o as [v|vs|n|a b|keep|k v| |h suffix|src ls|]; cbn [keeps_history spec fst]; intros Hk Ho; try done.
  - split; [done|]. intros _. by eexists.
  - destruct (spec_appends_blocks l (encodings vs)) as (-> & -> & _). split; [done|]. intros _. by eexists.
  - unfold spec_truncate. destruct (match l_prologue l with Some _ => _ | None => _ end); [done|].
    destruct (l_len l <=? n); [done|]. fields. split; lia.
  - split; [done|]. intros _. by eexists.
  - destruct (l_prologue l) as [pr|]; [|done]. cbn [fst].
    destruct (spec_appends_blocks l (take (N.to_nat (p_length pr)) (l_blocks ls))) as (-> & -> & _).
    split; [done|]. intros _. by eexists.
Qed.

Lemma trace_history l c ops l' c' :
  trace l c ops l' c' -> Forall keeps_history ops ->
  l_fork l <= l_fork l' /\ (l_fork l = l_fork l' -> l_blocks l `prefix_of` l_blocks l').
Proof.
  induction 1 as [|l c ops l1 c1 o a c2 _ IH Ho He]; intros Hk; [done|].
  apply Forall_app in Hk as [Hk Hko]. apply Forall_cons in Hko as [Hko _]. destruct (IH Hk) as [Hle Hpre].
  destruct (spec_history l1 o c1 Hko Ho) as [Hle2 Hpre2]. split; [lia|].
  intros Hf. etrans; [apply Hpre; lia|apply Hpre2; lia].
Qed.

(** A block accepted against the head of a log is the block of the log. *)
Lemma verify_block_sound pk f blocks h i data p :
  head_ok pk f blocks h -> lenN blocks <= Flat.max_blocks -> blocks_ok blocks -> u64_ok (lenN data) ->
  proof_ok p -> collision_free (hash_inputs blocks ++ proof_inputs p data) ->
  verify_block pk h i data p = true -> blocks !! N.to_nat (i mod 2 ^ 63) = Some data.
Proof.
  intros (_ & _ & Hroot & _) Hn Hb Hd Hp Hcf. unfold verify_block. rewrite Hroot, !andb_true_iff.
  intros [[_ <-%N.eqb_eq] Hv]. by eapply Proof_verify_sound.
Qed.

(** The root a prologue commits to, as [verify_prologue] sees it. *)
Lemma verify_prologue_spec l (c : Hypercore S) :
  content l c ->
  verify_prologue c = true <-> forall pr, l_prologue l = Some pr -> prologue_backed l pr.
Proof.
  intros Hc. unfold verify_prologue. rewrite (r_prologue _ _ Hc). destruct (l_prologue l) as [pr|]; [|done].
  rewrite bool_decide_eq_true. unfold Merkle.prefix_root_hash, prologue_backed.
  destruct (N.leb_spec (p_length pr) (l_len l)) as [Hle|Hgt].
  - rewrite (prefix_roots_full (l_blocks l)) by (assumption || apply Hc). rsimpl.
    fold (ref_root_hash (take (N.to_nat (p_length pr)) (l_blocks l))).
    split; [intros [= Hh] pr' [= <-]; done|]. intros Hb. by rewrite (proj2 (Hb pr eq_refl)).
  - unfold Merkle.prefix_roots. rewrite (proj1 (r_tree _ _ Hc)). fold (l_len l).
    rewrite (proj2 (N.ltb_lt _ _)) by done. split; [done|]. intros Hb. destruct (Hb pr eq_refl). lia.
Qed.

Lemma backed_extend l l' pr :
  l_blocks l `prefix_of` l_blocks l' -> prologue_backed l pr -> prologue_backed l' pr.
Proof.
  intros [x Hx] [Hn Hh]. unfold prologue_backed, l_len in *. rewrite Hx, lenN_app. split; [lia|].
  rewrite take_app_le; [done|]. unfold lenN in Hn. lia.
Qed.

(** No call but [purge] breaks a commitment that holds. *)
Lemma spec_prologue l o c pr :
  keeps_history o -> op_ok l c o -> l_prologue l = Some pr -> prologue_backed l pr ->
  l_prologue (spec l o).1 = Some pr /\ prologue_backed (spec l o).1 pr.
Proof.
  intros Hk Ho Hp Hb. destruct (decide (l_fork l = l_fork (spec l o).1)) as [Hf|Hf].
  - split; [|by eapply backed_extend; [apply (spec_history l o c)|]].
    destruct o as [v|vs|n|a b|keep|k v| |h suffix|src ls|]; cbn [spec fst]; try done.
    + by destruct (spec_appends_blocks l (encodings vs)) as (_ & _ & -> & _).
    + unfold spec_truncate. destruct (match l_prologue l with Some _ => _ | None => _ end); [done|].
      by destruct (l_len l <=? n).
    + rewrite Hp. cbn [fst].
      by destruct (spec_appends_blocks l (take (N.to_nat (p_length pr)) (l_blocks ls))) as (_ & _ & -> & _).
  - destruct o as [v|vs|n|a b|keep|k v| |h suffix|src ls|]; cbn [spec fst] in *; try done.
    + by destruct (spec_appends_blocks l (encodings vs)) as (_ & Hf' & _ & _).
    + revert Hf. unfold spec_truncate. rewrite Hp. destruct (N.ltb_spec n (p_length pr)) as [Hlt|Hge]; [done|].
      destruct (N.leb_spec (l_len l) n) as [Hle|Hgt]; [done|]. intros _. fields. split; [done|].
      destruct Hb as [Hn Hh]. unfold prologue_backed, l_len in *. fields. rewrite lenN_take by lia.
      split; [done|]. by rewrite take_take, Nat.min_l by lia.
    + rewrite Hp in Hf. cbn [fst] in Hf.
      by destruct (spec_appends_blocks l (take (N.to_nat (p_length pr)) (l_blocks ls))) as (_ & Hf' & _ & _).
Qed.

Lemma trace_prologue l c ops l' c' pr :
  trace l c ops l' c' -> Forall keeps_history ops -> l_prologue l = Some pr -> prologue_backed l pr ->
  l_prologue l' = Some pr /\ prologue_backed l' pr.
Proof.
  induction 1 as [|l c ops l1 c1 o a c2 _ IH Ho He]; intros Hk Hp Hb; [done|].
  apply Forall_app in Hk as [Hk Hko]. apply Forall_cons in Hko as [Hko _].
  destruct (IH Hk Hp Hb) as [Hp1 Hb1]. by eapply spec_prologue.
Qed.

(** *** Writes against the store *)

Lemma put_from_puts i encs (c : Hypercore S) :
  put_from i encs c
  = Done (set_store c (puts (store c) i encs).1, map_err Storage (puts (E:=E) (store c) i encs).2).
Proof.
  revert i c. induction encs as [|enc encs IH]; intros i c; cbn [put_from puts].
  - unfold mret, act_ret. by destruct c.
  - unfold mbind, act_bind, store_put. destruct (Store.put (store c) i enc) as [s [[]|e]]; cbn [map_err]; [|done].
    by rewrite IH.
Qed.

Lemma puts_contents i encs (c : Hypercore S) s :
  Store.store_inv (store c) -> all_fit i encs -> i + lenN encs < two64 ->
  puts (E:=E) (store c) i encs = (s, Ok tt) ->
  Store.store_inv s /\ forall k, Store.contents s !! k
    = if in_range i (i + lenN encs) k then encs !! N.to_nat (k - i) else Store.contents (store c) !! k.
Proof.
  intros Hi Hf Hlt Hp.
  cut (wp (put_from (E:=E) i encs) (λ _ c', Store.store_inv (store c') /\ forall k, Store.contents (store c') !! k
    = if in_range i (i + lenN encs) k then encs !! N.to_nat (k - i) else Store.contents (store c) !! k)
    (λ _ _, True) c).
  { unfold wp. rewrite put_from_puts, Hp. done. }
  by apply wp_put_from.
Qed.

Lemma stored_beyond l (c : Hypercore S) s s' encs :
  content l c -> stored l s -> saved c s -> l_len l + lenN encs <= Flat.max_blocks -> Store.store_inv s' ->
  (forall k, Store.contents s' !! k
     = if in_range (l_len l) (l_len l + lenN encs) k then encs !! N.to_nat (k - l_len l)
       else Store.contents s !! k) ->
  stored l s' /\ saved c s'.
Proof.
  intros Hc [Hi Hb Hu] Hsv Hn Hi' Hk.
  assert (Hhigh : forall k, Flat.max_blocks <= k -> Store.contents s' !! k = Store.contents s !! k).
  { intros k Hm. rewrite Hk. unfold in_range. by rewrite (proj2 (N.ltb_ge k _)), andb_false_r by lia. }
  destruct max_keys as (M1 & M2 & M3 & _). split.
  - split; [done| |].
    + intros i b Hh El. rewrite Hk. unfold in_range. rewrite (proj2 (N.leb_gt _ _)) by apply (r_bound _ _ Hc i Hh).
      by apply Hb.
    + rewrite Hhigh; [done|]. unfold KEY_USERDATA, u64_max, Flat.max_blocks. lia.
  - unfold saved. by rewrite !Hhigh.
Qed.

(** ** Properties *)

(** C3: A core refines an abstract log: after any run of calls, the next call
    returns (no panic, no endless loop); a success gives the answer and leaves the
    log of its counterpart, an error is the store's own, except that
    [recover_signed_suffix] also refuses a head that does not continue the log,
    and unless the call was [clear], [sweep] or [copy_prologue] it leaves all but
    the store untouched. *)
Theorem core_refines_log ops l c o :
  life ops l c -> op_ok l c o ->
  exists c' r, exec o c = Done (c', r)
    /\ match r with
       | Ok a => a = (spec l o).2 /\ repr (spec l o).1 c'
       | Err e => error_ok l c o e c'
       end.
Proof.
  intros Hr%life_repr Ho. pose proof (op_refines l c o Hr Ho) as Hw. unfold wp in Hw.
  destruct (exec o c) as [[c' [a|e]]| |]; [|by eauto..|done|done]. exists c', (Ok a). done.
Qed.

(** What the readers of a core see: [has], [block], [get] and [get_user_data]
    answer from the log, [contiguous_length] is the first gap, the own head
    verifies, and every block of the log, held or not, has a proof that the
    holder of the public key accepts. *)
Theorem core_reads ops l c i k :
  life ops l c ->
  has c i = l_held l i
  /\ (store_fails \/ (block c i = Ok (visible l i)
        /\ get (T:=T) c i = match visible l i with
                            | Some b => v ← map_err Codec_ (Codec.decode b); Ok (Some v)
                            | None => Ok None
                            end
        /\ get_user_data c k = Ok (l_user l !! k)))
  /\ (exists n, contiguous_length c = Done n /\ n <= l_len l /\ (forall j, j < n -> l_held l j = true)
        /\ (n < l_len l -> l_held l n = false))
  /\ verify_head c = Done true
  /\ forall b h, l_blocks l !! N.to_nat i = Some b -> head c = Some h ->
       exists p, proof c i = Done (Some p) /\ verify_block (public c) h i b p = true.
Proof.
  intros Hr%life_repr. pose proof Hr as (Hc & Hs & Hst). split_and!.
  - by apply has_spec.
  - destruct (block_spec l c i Hr) as [->|[? _]]; [|by left].
    destruct (get_spec l c i Hr) as [->|[? _]]; [|by left].
    destruct (get_user_spec l c k Hr) as [->|[? _]]; [by right|by left].
  - by apply contiguous_spec.
  - by apply (verify_head_spec l).
  - intros b h Hb Hh. unfold signed in Hs. rewrite Hh in Hs. destruct Hs as (_ & _ & Hroot & Hv).
    destruct (proof_complete (l_blocks l) (tree c) i b) as (p & Ep & Epb & Hpv); [apply Hc|apply Hc|done|].
    exists p. split; [done|]. unfold verify_block. by rewrite Hv, Epb, N.eqb_refl, Hroot.
Qed.

(** A value appended is the value read: over a store that does not fail,
    [append] returns the next index, [get] there returns the value, and every
    other index reads as before. *)
Theorem append_get ops l c v :
  Store.StoreTotal S E -> life ops l c -> op_ok l c (Append v) -> Codec.codec_valid v ->
  exists c', append v c = Done (c', Ok (l_len l)) /\ get c' (l_len l) = Ok (Some v)
    /\ forall i, i <> l_len l -> get (T:=T) c' i = get c i.
Proof.
  intros Ht Hr%life_repr Ho Hv. pose proof (total_never_fails Ht) as Hnf. destruct Ho as (Hn & Hu & Hf).
  pose proof (append_refines l c v Hr Hn Hu Hf) as Hw. unfold wp in Hw.
  destruct (append v c) as [[c' [a|e]]| |]; [|destruct Hw as [? _]; done|done|done].
  destruct Hw as [-> Hr']. exists c'. split; [done|].
  assert (Hget : forall l0 c0 i, repr l0 c0 -> get (T:=T) c0 i
    = match visible l0 i with Some b => v ← map_err Codec_ (Codec.decode b); Ok (Some v) | None => Ok None end).
  { intros l0 c0 i H0'. destruct (get_spec l0 c0 i H0') as [?|[? _]]; done. }
  split.
  - rewrite (Hget _ _ _ Hr'). unfold visible, spec_append. fields. rewrite N.eqb_refl. cbn [orb].
    unfold l_len, lenN. rewrite Nat2N.id, list_lookup_middle by done. rewrite Codec.codec_roundtrip by done. done.
  - intros i Hi. rewrite (Hget _ _ _ Hr), (Hget _ _ _ Hr'). unfold visible, spec_append. fields.
    rewrite (proj2 (N.eqb_neq _ _)) by done. cbn [orb]. destruct (l_held l i) eqn:Eh; [|done].
    rewrite lookup_app_l; [done|]. apply (r_bound _ _ (proj1 Hr)) in Eh. unfold l_len, lenN in Eh. lia.
Qed.

(** A batch is atomic and equal to its appends, over any store: appending the
    values one by one and succeeding leaves the very core that [append_all]
    leaves under its single signature; a batch opened before the log moved is
    refused and changes nothing; a commit that fails changes the store alone. *)
Theorem batch_correct ops l c vs c' b :
  life ops l c -> l_len l + lenN vs <= Flat.max_blocks -> blocks_ok (encodings vs) -> vs <> [] ->
  l_len l + lenN (encoded b) <= Flat.max_blocks -> blocks_ok (encoded b) ->
  appends vs c = Done (c', Ok tt) ->
  append_all vs c = Done (c', Ok (l_len l + lenN vs))
  /\ (base b <> l_len l -> commit b c = Done (c, Ok None))
  /\ (forall c1 e, commit b c = Done (c1, Err e) ->
       exists s e', c1 = set_store c s /\ e = Storage (SE:=E) e').
Proof.
  intros (Hc & _)%life_repr Hn Hb Hne Hnb Hbb Ha. assert (El : len c = l_len l) by apply (r_tree _ _ Hc).
  assert (Ee : lenN (encodings vs) = lenN vs) by (unfold lenN, encodings; by rewrite length_fmap).
  destruct (appends_eq l c c' vs Hc Hn Hb Hne Ha) as (s & Hp & ->). split_and!.
  - unfold append_all. rewrite bool_decide_false by done. unfold mbind, act_bind, reads.
    rewrite stage_all. cbn [base encoded batch app]. change (Merkle.length (tree c)) with (len c). rewrite El. rewrite (commit_eq l c _ s); cbn [base encoded]; rewrite ?Ee; try done; [|by destruct vs].
    do 2 f_equal. unfold len, after. fields. f_equal.
    rewrite <- Ee. unfold l_len. rewrite <- lenN_app. apply rebuild_full. rewrite lenN_app, Ee. done.
  - intros Hbase. unfold commit, mbind, act_bind, reads. rewrite El, (proj2 (N.eqb_neq _ _)) by done. done.
  - intros c1 e. by apply (commit_error l).
Qed.

(** C4: An honest author is never convicted: of two heads one core signed or
    adopted, with any calls but [purge] between them, neither [conflicting_heads]
    nor any [ForkProof] is evidence of equivocation, unless BLAKE3 collides on the
    inputs hashed. *)
Theorem never_equivocates ops1 l1 c1 ops2 l2 c2 h1 h2 pk p :
  life ops1 l1 c1 -> trace l1 c1 ops2 l2 c2 -> Forall keeps_history ops2 ->
  head c1 = Some h1 -> head c2 = Some h2 ->
  head_a p = h1 -> head_b p = h2 -> proof_ok (proof_a p) -> proof_ok (proof_b p) ->
  u64_ok (lenN (data_a p)) -> u64_ok (lenN (data_b p)) ->
  collision_free (hash_inputs (l_blocks l1) ++ proof_inputs (proof_a p) (data_a p)) ->
  collision_free (hash_inputs (l_blocks l2) ++ proof_inputs (proof_b p) (data_b p)) ->
  conflicting_heads pk h1 h2 = false /\ ForkProof_verify p pk = false.
Proof.
  intros Hr1%life_repr Ht Hk E1 E2 Ea Eb Hpa Hpb Hua Hub Hca Hcb.
  pose proof (trace_repr _ _ _ _ _ Ht Hr1) as (Hc2 & Hs2 & _). destruct Hr1 as (Hc1 & Hs1 & _).
  destruct (trace_history _ _ _ _ _ Ht Hk) as [_ Hpre]. unfold signed in Hs1, Hs2. rewrite E1 in Hs1. rewrite E2 in Hs2.
  pose proof Hs1 as (Hf1 & Hl1 & Hr1 & _). pose proof Hs2 as (Hf2 & Hl2 & Hr2 & _). split.
  - unfold conflicting_heads. destruct (N.eqb_spec (h_fork h1) (h_fork h2)) as [Ef|]; [|done].
    destruct (N.eqb_spec (h_length h1) (h_length h2)) as [El|]; [|done]. cbn [andb].
    rewrite Hf1, Hf2 in Ef. destruct (Hpre Ef) as [x Hx]. rewrite Hl1, Hl2, Hx, lenN_app in El.
    destruct x; [|rewrite lenN_cons in El; lia]. rewrite app_nil_r in Hx.
    rewrite bool_decide_true; [done|]. by rewrite Hr1, Hr2, Hx.
  - apply not_true_is_false. unfold ForkProof_verify. rewrite !andb_true_iff, Ea, Eb.
    intros [[[Ef%N.eqb_eq Hva] Hvb] Hne%negb_true_iff]. rewrite Hf1, Hf2 in Ef. destruct (Hpre Ef) as [x Hx].
    assert (Hver : forall h i d q, verify_block pk h i d q = true -> verify_signed_head pk h = true)
      by (intros h i d q; unfold verify_block; rewrite !andb_true_iff; tauto).
    assert (Da : l_blocks l1 !! N.to_nat (fp_index p mod 2 ^ 63) = Some (data_a p))
      by (apply (verify_block_sound pk (l_fork l1) _ h1 _ _ (proof_a p)); [|apply Hc1|apply Hc1|done..];
          split_and!; [done..|by eapply Hver]).
    assert (Db : l_blocks l2 !! N.to_nat (fp_index p mod 2 ^ 63) = Some (data_b p))
      by (apply (verify_block_sound pk (l_fork l2) _ h2 _ _ (proof_b p)); [|apply Hc2|apply Hc2|done..];
          split_and!; [done..|by eapply Hver]).
    rewrite Hx, (lookup_app_l_Some _ _ _ _ Da) in Db. injection Db as Db.
    by rewrite Db, bool_decide_true in Hne.
Qed.

(** [purge] is the exception: it resets the fork counter, so a core of one
    block that is purged and given another block signs a head that
    [conflicting_heads] takes as proof of equivocation by its honest author. *)
Theorem purge_equivocates ops l c b v h :
  Store.StoreTotal S E -> life ops l c -> l_blocks l = [b] -> l_fork l = 0 -> head c = Some h ->
  op_ok (empty_log None) c (Append v) -> Codec.encode v <> b ->
  collision_free (hash_inputs [b] ++ hash_inputs [Codec.encode v]) ->
  exists c1 c2 h2, purge c = Done (c1, Ok tt) /\ append v c1 = Done (c2, Ok 0) /\ head c2 = Some h2
    /\ conflicting_heads (public c) h h2 = true.
Proof.
  intros Ht Hr%life_repr Hb Hf0 Hh (Hn & Hu & Hf) Hne Hcf. pose proof (total_never_fails Ht) as Hnf.
  pose proof (purge_refines l c Hr) as Hw. unfold wp in Hw.
  destruct (purge c) as [[c1 [[]|e]]| |] eqn:Epu; [|destruct Hw as [? _]; done|done|done]. destruct Hw as [Hw Ea].
  pose proof (append_refines _ c1 v Hw Hn Hu Hf) as Hw2. unfold wp in Hw2.
  pose proof (append_eq (E:=E) _ c1 v (proj1 Hw) Hn) as He.
  destruct (append v c1) as [[c2 [n|e]]| |] eqn:Eap; [|destruct Hw2 as [? _]; done|done|done].
  assert (Ea2 : author c2 = author c1) by (destruct (Store.put _ _ _) as [s [[]|e]]; by simplify_eq).
  destruct Hw2 as [-> (Hc2 & Hs2 & _)]. unfold signed in Hs2. destruct (head c2) as [h2|] eqn:Eh2; [|done].
  destruct Hr as (Hc & Hs & _). rewrite (r_public _ _ Hc2), Ea2, Ea, <- (r_public _ _ Hc) in Hs2.
  exists c1, c2, h2. split_and!; [done..|].
  unfold signed in Hs. rewrite Hh in Hs. destruct Hs as (F1 & L1 & R1 & V1). destruct Hs2 as (F2 & L2 & R2 & V2).
  unfold conflicting_heads. rewrite F1, F2, L1, L2, R1, R2, V1, V2, Hb, Hf0. unfold empty_log, spec_append. fields.
  cbn [app]. rewrite (bool_decide_false (ref_root_hash [b] = _)); [done|].
  intros Er. apply Hne. apply MerkleFork.root_hash_commits in Er; [congruence|done|done| | |done].
  - rewrite <- Hb. apply Hc.
  - by constructor.
Qed.

(** C32: Crash recovery: whatever is appended after a [persist] and never persisted
    itself, [open] on the store brings back the log as it was persisted, with its
    head, its held blocks and its metadata; only the store can make it fail. *)
Theorem reopen_after_crash ops l c c1 vs c2 :
  life ops l c -> op_ok l c Reload -> persist c = Done (c1, Ok tt) ->
  l_len l + lenN vs <= Flat.max_blocks -> blocks_ok (encodings vs) -> all_fit (l_len l) (encodings vs) ->
  appends vs c1 = Done (c2, Ok tt) ->
  store_fails \/ exists c3, open_ (author c) (store c2) = Done (Ok c3) /\ repr l c3
    /\ store c3 = store c2 /\ tree c3 = tree c /\ head c3 = head c.
Proof.
  intros Hr%life_repr (Ft & Fp & Fm) Hp Hn Hb Hf Ha.
  pose proof (persist_saves l c Hr Ft Fp Fm) as Hw. unfold wp in Hw. rewrite Hp in Hw.
  destruct Hw as ((s1 & ->) & (Hc1 & _ & Hst1) & Hsv). destruct Hr as (Hc & Hs & _). fields.
  assert (Ee : lenN (encodings vs) = lenN vs) by (unfold lenN, encodings; by rewrite length_fmap).
  assert (Hst2 : stored l (store c2) /\ saved c (store c2)).
  { destruct (decide (vs = [])) as [->|Hne]; [by injection Ha as <-|].
    destruct (appends_eq l _ c2 vs Hc1 Hn Hb Hne Ha) as (s2 & Hps & ->).
    assert (Hlt : l_len l + lenN (encodings vs) < two64) by (rewrite Ee; unfold Flat.max_blocks, two64 in *; lia).
    destruct (puts_contents _ _ _ s2 (r_inv _ _ Hst1) Hf Hlt Hps) as [Hi2 Hk2].
    eapply stored_beyond; [exact Hc|exact Hst1|exact Hsv|by rewrite Ee|done|done]. }
  destruct (open_spec l c (store c2)) as [(c3 & E3 & Hr3 & Es & Et & Eh & _)|[? _]]; [done|done|apply Hst2..| |by left].
  right. by exists c3.
Qed.

(** C23: A signed head authenticates the log: against a head of a core, an archive
    verifies exactly when it is the whole log, and a block with a proof only when
    it is the block at that index (the index taken modulo 2^63, as the doubling of
    the proof's position is), unless BLAKE3 collides on the inputs hashed. *)
Theorem head_authenticates ops l c h feed i data p :
  life ops l c -> head c = Some h ->
  lenN feed <= Flat.max_blocks -> blocks_ok feed -> u64_ok (lenN data) -> proof_ok p ->
  collision_free (hash_inputs (l_blocks l) ++ hash_inputs feed) ->
  collision_free (hash_inputs (l_blocks l) ++ proof_inputs p data) ->
  verify_archived_feed (public c) h feed = Done (bool_decide (feed = l_blocks l))
  /\ (verify_block (public c) h i data p = true -> l_blocks l !! N.to_nat (i mod 2 ^ 63) = Some data).
Proof.
  intros (Hc & Hs & _)%life_repr Hh Hn Hb Hd Hp Hcf1 Hcf2. unfold signed in Hs. rewrite Hh in Hs. split.
  - rewrite archived_feed_spec by done. destruct Hs as (_ & Hl & Hr & Hv). rewrite Hl, Hr, Hv, andb_true_r.
    f_equal. destruct (decide (feed = l_blocks l)) as [->|Hne].
    + by rewrite N.eqb_refl, !bool_decide_true.
    + rewrite (bool_decide_false (feed = _)) by done. apply andb_false_iff. right. apply bool_decide_false.
      intros Er. apply Hne. symmetry. by apply MerkleFork.root_hash_commits in Er; [|apply Hc|done|apply Hc|..].
  - eapply verify_block_sound; [exact Hs|apply Hc|apply Hc|done..].
Qed.

(** A prologue stays pinned: [copy_prologue] makes [verify_prologue] true, and
    once it is true no sequence of calls without [purge] makes it false. *)
Theorem prologue_pinned ops l c src ls a c1 ops' l' c' :
  life ops l c -> op_ok l c (CopyPrologue src ls) -> exec (CopyPrologue src ls) c = Done (c1, Ok a) ->
  trace (spec l (CopyPrologue src ls)).1 c1 ops' l' c' -> Forall keeps_history ops' ->
  verify_prologue c1 = true /\ verify_prologue c' = true.
Proof.
  intros Hr%life_repr Ho He Ht Hk. pose proof (op_refines l c _ Hr Ho) as Hw. unfold wp in Hw. rewrite He in Hw.
  destruct Hw as [_ Hr1]. pose proof (trace_repr _ _ _ _ _ Ht Hr1) as (Hc' & _). destruct Hr1 as (Hc1 & _).
  destruct Ho as (pr & Hrs & Hpr & Hl0 & [Hn Hh] & _). cbn [spec] in *. rewrite Hpr in *. cbn [fst] in *.
  set (blocks := take (N.to_nat (p_length pr)) (l_blocks ls)) in *.
  destruct (spec_appends_blocks l blocks) as (Eb & _ & Ep & _). rewrite Hl0 in Eb. cbn [app] in Eb.
  assert (Hb : prologue_backed (foldl spec_append l blocks) pr).
  { unfold prologue_backed, l_len. rewrite Eb. unfold blocks. rewrite lenN_take by done.
    split; [done|]. by rewrite take_take, Nat.min_id. }
  rewrite (verify_prologue_spec _ c1 Hc1), (verify_prologue_spec _ c' Hc').
  destruct (trace_prologue _ _ _ _ _ pr Ht Hk) as [Ep' Hb']; [by rewrite Ep|done|].
  split; intros pr'; [rewrite Ep, Hpr|rewrite Ep']; by intros [= <-].
Qed.
End Theorems.
End HypercoreTheorems.
