(* ===== verification/HypercoreViews.v ===== *)
(** * [hypercore]: streams and snapshots

    The iterators of [src/crates/hypercore/src/stream.rs] and the snapshots of
    [snapshot.rs]: what a consumer that drains a stream receives, and what a
    snapshot keeps while the core moves on. *)
From S2P Require Import Prelude Codec Flat Merkle MerkleSpec MerkleProofs MerkleSeek MerkleFork MerkleHistory.
From S2P Require Import Store Bitfield BitfieldTheorems Identity.
From S2P Require Import Hypercore HypercoreMeta HypercoreLog HypercoreOps HypercoreDurable HypercoreTrace HypercoreTheorems.
From Stdlib Require Import Strings.Byte.

Module HypercoreViews.
Import MerkleSpec MerkleProofs Hypercore HypercoreMeta HypercoreLog HypercoreOps HypercoreDurable.
Import HypercoreTrace HypercoreTheorems.

Section Read.
Context `{H0 : Ed25519} {T : Type} `{CC : Codec.Codec T} {S E : Type} `{SS : !Store.Store S E}.

(** What the stream gives at one index: nothing for an absent block. *)
Definition item (c : Hypercore S) (i : N) : option (result (Error E) T) :=
  match get c i with
  | Ok (Some v) => Some (Ok v)
  | Ok None => None
  | Err e => Some (Err e)
  end.

(** Call [next] until it returns [None]. *)
Fixpoint drain (n : nat) (r : ReadStream S) : list (result (Error E) T) :=
  match n with
  | O => []
  | Datatypes.S n' =>
      match read_next r with
      | (Some x, r') => x :: drain n' r'
      | (None, _) => []
      end
  end.

Definition indices (r : ReadStream S) : list N :=
  if rs_reverse r then rev (rangeN (rs_lo r) (rs_hi r)) else rangeN (rs_lo r) (rs_hi r).
Definition remaining (r : ReadStream S) : nat := N.to_nat (rs_hi r - rs_lo r).

Lemma omap_step {A B} (f : A -> option B) x l :
  omap f (x :: l) = match f x with Some y => y :: omap f l | None => omap f l end.
Proof. done. Qed.

(** One round takes the first index off. *)
Lemma indices_step r :
  rs_lo r < rs_hi r ->
  let '(i, r') :=
    if rs_reverse r then
      (rs_hi r - 1, mkReadStream (rs_core r) (rs_lo r) (rs_hi r - 1) (rs_reverse r))
    else (rs_lo r, mkReadStream (rs_core r) (rs_lo r + 1) (rs_hi r) (rs_reverse r)) in
  indices r = i :: indices r' /\ rs_core r' = rs_core r /\ remaining r = Datatypes.S (remaining r').
Proof.
  intros Hlt. unfold indices, remaining. destruct r as [c lo hi b]. cbn [rs_core rs_lo rs_hi rs_reverse] in *.
  destruct b; cbn [rs_core rs_lo rs_hi rs_reverse]; (split; [|split; [done|lia]]).
  - replace hi with (hi - 1 + 1) at 1 by lia. rewrite rangeN_snoc by lia. by rewrite rev_app_distr.
  - by rewrite rangeN_cons.
Qed.

Lemma indices_end r : rs_hi r <= rs_lo r -> indices r = [].
Proof. intros Hle. unfold indices. rewrite rangeN_nil by done. by destruct (rs_reverse r). Qed.

Lemma read_next_loop_spec fuel r :
  (remaining r <= fuel)%nat ->
  match read_next_loop fuel r with
  | (Some x, r') => omap (item (rs_core r)) (indices r) = x :: omap (item (rs_core r)) (indices r')
      /\ rs_core r' = rs_core r /\ (remaining r' < remaining r)%nat
  | (None, _) => omap (item (rs_core r)) (indices r) = []
  end.
Proof.
  revert r. induction fuel as [|fuel IH]; intros r Hf; cbn [read_next_loop].
  { rewrite indices_end; [done|]. unfold remaining in Hf. lia. }
  destruct (N.ltb_spec (rs_lo r) (rs_hi r)) as [Hlt|Hge]; [|by rewrite indices_end].
  pose proof (indices_step r Hlt) as Hstep. destruct (if rs_reverse r then _ else _) as [i r'] eqn:Er.
  destruct Hstep as (Hi & Hc & Hm). rewrite Hi, omap_step.
  assert (Hit : item (rs_core r) i = match get (rs_core r) i with
    Ok (Some v) => Some (Ok v) | Ok None => None | Err e => Some (Err e) end) by done.
  destruct (get (rs_core r) i) as [[v|]|e]; rewrite Hit.
  - split_and!; [done..|lia].
  - specialize (IH r' ltac:(lia)). rewrite Hc in IH. destruct (read_next_loop fuel r') as [[x|] r''].
    + destruct IH as (-> & ? & ?). split_and!; [done..|lia].
    + done.
  - split_and!; [done..|lia].
Qed.

Lemma drain_spec n r : (remaining r <= n)%nat -> drain n r = omap (item (rs_core r)) (indices r).
Proof.
  revert r. induction n as [|n IH]; intros r Hn; cbn [drain].
  { rewrite indices_end; [done|]. unfold remaining in Hn. lia. }
  pose proof (read_next_loop_spec (N.to_nat (rs_hi r - rs_lo r)) r ltac:(reflexivity)) as Hs.
  unfold read_next. destruct (read_next_loop _ r) as [[x|] r']; [|done]. destruct Hs as (-> & Hc & Hm).
  rewrite IH by lia. by rewrite Hc.
Qed.

(** A read stream gives, in order or in reverse, exactly the present blocks of
    [start..end) clamped to the length, each as [get] returns it, absent ones
    skipped; draining it terminates within the number of indices. *)
Theorem read_stream_correct (c : Hypercore S) opts n :
  let stop := N.min (default (len c) (ro_end opts)) (len c) in
  let range := rangeN (N.min (ro_start opts) stop) stop in
  (length range <= n)%nat ->
  drain n (read_stream c opts) = omap (item c) (if ro_reverse opts then rev range else range).
Proof.
  intros stop range Hn. rewrite drain_spec; [done|].
  unfold range in Hn. rewrite rangeN_length in Hn. exact Hn.
Qed.

(** *** Byte streams *)

Fixpoint drain_bytes (n : nat) (r : ByteStream S) : list (result (Error E) bytes) :=
  match n with
  | O => []
  | Datatypes.S n' =>
      match byte_next r with
      | (Some x, r') => x :: drain_bytes n' r'
      | (None, _) => []
      end
  end.
End Read.

Section Views.
Context `{HL : HasherLaws} `{EL : Ed25519Laws} {T : Type} `{CL : Codec.CodecLaws T}.
Context {S E : Type} `{SL : Store.StoreLaws S E}.

(** Draining from a block on, when every block is there. *)
Lemma drain_bytes_spec l (c : Hypercore S) n i budget :
  repr l c -> all_held l -> ~ store_fails -> i <= l_len l -> (N.to_nat (l_len l - i) <= n)%nat ->
  exists stop, i <= stop <= l_len l
    /\ drain_bytes (E:=E) n (mkByteStream c i budget)
       = Ok <$> take (N.to_nat (stop - i)) (drop (N.to_nat i) (l_blocks l))
    /\ (stop = l_len l \/ cum (l_blocks l) i + budget <= cum (l_blocks l) stop)
    /\ (forall k, i <= k < stop -> cum (l_blocks l) k < cum (l_blocks l) i + budget).
Proof.
  intros Hr Hall Hnf. assert (El : len c = l_len l) by apply (r_tree _ _ (proj1 Hr)).
  assert (Hstop : forall i0 b0, drain_bytes (E:=E) 0 (mkByteStream c i0 b0) = []) by done.
  revert i budget. induction n as [|n IH]; intros i budget Hi Hn.
  { exists i. rewrite N.sub_diag. split_and!; [lia|lia|done|left; lia|lia]. }
  cbn [drain_bytes]. unfold byte_next. cbn [bs_core bs_next bs_budget]. rewrite El.
  destruct (N.to_nat (l_len l - i)) as [|f] eqn:Ef; cbn [byte_next_loop bs_core bs_next bs_budget].
  { exists i. rewrite N.sub_diag. split_and!; [lia|lia|done|left; lia|lia]. }
  rewrite El, (proj2 (N.ltb_lt i (l_len l))) by lia. rewrite andb_true_r.
  destruct (N.ltb_spec 0 budget) as [Hb|Hb].
  2: { exists i. rewrite N.sub_diag. split_and!; [lia|lia|done|right; lia|lia]. }
  destruct (block_spec l c i Hr) as [->|[? _]]; [|done]. unfold visible. rewrite Hall by lia.
  destruct (lookup_lt_is_Some_2 (l_blocks l) (N.to_nat i)) as [b Hlk]; [unfold l_len, lenN in *; lia|].
  rewrite Hlk. destruct (IH (i + 1) (budget - lenN b)) as (stop & Hs & Hd & Hend & Hmid); [lia|lia|].
  assert (Hcum : cum (l_blocks l) (i + 1) = cum (l_blocks l) i + lenN b).
  { rewrite (cum_succ (l_blocks l) i). unfold block_at. by rewrite Hlk. }
  exists stop. split_and!; [lia|lia| | |].
  - rewrite Hd, (drop_S _ _ _ Hlk). replace (N.to_nat (stop - i)) with (Datatypes.S (N.to_nat (stop - (i + 1)))) by lia.
    cbn [take fmap list_fmap]. by replace (N.to_nat (i + 1)) with (Datatypes.S (N.to_nat i)) by lia.
  - destruct Hend as [->|Hend]; [by left|right]. lia.
  - intros k Hk. destruct (decide (k = i)) as [->|Hne]; [lia|].
    specialize (Hmid k ltac:(lia)). assert (cum (l_blocks l) (i + 1) <= cum (l_blocks l) k) by (apply cum_mono; lia). lia.
Qed.

(** A byte stream over a log whose blocks are all held gives whole blocks in
    order: it starts at the block the offset falls in, stops only at the end of
    the log or when the bytes given reach the budget, and gives no block once they
    did. *)
Theorem byte_stream_correct ops l (c : Hypercore S) opts n :
  Store.StoreTotal S E -> life (T:=T) ops l c -> all_held l -> total_bytes (l_blocks l) < two64 ->
  (N.to_nat (l_len l) <= n)%nat ->
  exists r stop, byte_stream c opts = Done r
    /\ let start := (seek_linear (l_blocks l) 0 (bo_offset opts)).1 in
       let budget := default (total_bytes (l_blocks l) - bo_offset opts) (bo_length opts) in
       drain_bytes n r = Ok <$> take (N.to_nat (stop - start)) (drop (N.to_nat start) (l_blocks l))
       /\ start <= stop <= l_len l
       /\ (stop = l_len l \/ cum (l_blocks l) start + budget <= cum (l_blocks l) stop)
       /\ forall k, start <= k < stop -> cum (l_blocks l) k < cum (l_blocks l) start + budget.
Proof.
  intros Ht Hr%life_repr Hall Hb Hn. pose proof (total_never_fails Ht) as Hnf. pose proof Hr as (Hc & _).
  unfold byte_stream. rewrite (MerkleHistory.byte_length_full (l_blocks l)) by (done || apply Hc). rsimpl.
  rewrite (seek_full (l_blocks l)) by (done || apply Hc).
  destruct (seek_linear (l_blocks l) 0 (bo_offset opts)) as [start off] eqn:Es. rsimpl.
  assert (Hle : start <= l_len l).
  { unfold l_len. destruct (N.lt_ge_cases (bo_offset opts) (total_bytes (l_blocks l))) as [Hlt|Hge].
    - destruct (MerkleSeek.seek_linear_in _ _ Hlt) as (k & Ek & ? & _). rewrite Ek in Es. injection Es as <-. lia.
    - rewrite seek_linear_past in Es by done. injection Es as <-. lia. }
  set (budget := default _ (bo_length opts)).
  destruct (drain_bytes_spec l c n start budget Hr Hall Hnf Hle) as (stop & Hs & Hd & Hend & Hmid); [lia|].
  by exists (mkByteStream c start budget), stop.
Qed.

(** ** Snapshots *)

Lemma snapshot_blocks_spec l (c : Hypercore S) L m m' :
  repr l c -> snapshot_blocks (E:=E) c L m = Ok m' ->
  forall i, m' !! i = if mem L i && l_held l i then l_blocks l !! N.to_nat i else m !! i.
Proof.
  intros Hr. pose proof Hr as (Hc & _ & Hst). revert m. induction L as [|x L IH]; intros m; cbn [snapshot_blocks].
  { intros [= <-] i. done. }
  rewrite (r_held _ _ Hc). destruct (l_held l x) eqn:Ex.
  - destruct (store_get_spec (E:=E) c x (r_inv _ _ Hst)) as [->|(_ & e & ->)]; [|done]. rsimpl.
    destruct (held_block l c x Hc Ex) as [b Hb]. rewrite (r_block _ _ Hst x b Ex Hb). intros Hm i.
    rewrite (IH _ Hm i), mem_cons. destruct (N.eqb_spec x i) as [<-|Hne]; cbn [orb andb].
    + rewrite Ex, andb_true_r, Hb. destruct (mem L x); [done|]. by rewrite lookup_insert_eq.
    + by rewrite lookup_insert_ne.
  - intros Hm i. rewrite (IH _ Hm i), mem_cons. destruct (N.eqb_spec x i) as [<-|Hne]; [|done].
    by rewrite Ex, !andb_false_r.
Qed.

(** A snapshot keeps the log of the moment it was taken: whatever the core does
    afterwards, the snapshot's blocks, root hash and proofs are those of the log
    then, and [signed_length] is how much of it the core still shares, unless
    BLAKE3 collides. *)
Theorem snapshot_correct ops l (c : Hypercore S) sn ops' l' c' i :
  life (T:=T) ops l c -> snapshot (E:=E) c = Ok sn -> trace l c ops' l' c' ->
  collision_free (hash_inputs (l_blocks l) ++ hash_inputs (l_blocks l')) ->
  Snapshot_block sn i = visible l i
  /\ Snapshot_root_hash sn = Done (ref_root_hash (l_blocks l))
  /\ signed_length sn c' = MerkleFork.common_prefix (l_blocks l) (l_blocks l')
  /\ forall b h, l_blocks l !! N.to_nat i = Some b -> sn_head sn = Some h ->
       exists p, Snapshot_proof sn i = Done (Some p) /\ verify_block (public c) h i b p = true.
Proof.
  intros Hr%life_repr Hsn Ht Hcf. pose proof (trace_repr _ _ _ _ _ Ht Hr) as (Hc' & _).
  pose proof Hr as (Hc & Hs & _). unfold snapshot in Hsn. rewrite (proj1 (r_tree _ _ Hc)) in Hsn.
  destruct (snapshot_blocks c _ ∅) as [m|e] eqn:Em; [|done]. injection Hsn as <-.
  pose proof (snapshot_blocks_spec l c _ _ m Hr Em) as Hm. split_and!.
  - unfold Snapshot_block, visible. cbn [sn_length sn_blocks]. fold (l_len l).
    destruct (N.leb_spec (l_len l) i) as [Hge|Hlt].
    + destruct (l_held l i) eqn:Eh; [|done]. apply (r_bound _ _ Hc) in Eh. lia.
    + rewrite Hm, mem_range. unfold in_range. fold (l_len l).
      by rewrite (proj2 (N.ltb_lt _ _)), (proj2 (N.leb_le 0 i)) by lia.
  - apply root_hash_full; apply Hc.
  - apply MerkleFork.lca_full; (apply Hc || apply Hc' || done).
  - cbn [sn_head Snapshot_proof sn_tree]. intros b h Hb Hh. unfold signed in Hs. rewrite Hh in Hs.
    destruct Hs as (_ & _ & Hroot & Hv).
    destruct (proof_complete (l_blocks l) (tree c) i b) as (p & Ep & Epb & Hpv); [apply Hc|apply Hc|done|].
    exists p. split; [done|]. unfold verify_block. by rewrite Hv, Epb, N.eqb_refl, Hroot.
Qed.
End Views.
End HypercoreViews.
