(* ===== verification/Replica.v ===== *)
(** * [hypercore::replica]: the verify-only replica

    The model of [src/crates/hypercore/src/replica.rs]: a replica holds the
    writer's public key, a store, the Merkle tree of the blocks it accepted and
    the head it fully matched.  The theorems relate it to the writer's log. *)
From S2P Require Import Prelude Codec Merkle Store Identity Hypercore.
From Stdlib Require Import Strings.Byte.

Module Replica.
Import Hypercore.
Import Identity (PublicKey, SecretKey, Sig).

Section Replica.
Context `{Hasher} `{Ed25519} {T : Type} `{!Codec.Codec T} {S E : Type} `{!Store.Store S E}.

Record Replica := mkReplica {
  rp_public : PublicKey; rp_store : S; rp_tree : Merkle.MerkleTree; rp_head : option SignedHead }.

Definition set_rstore (r : Replica) (s : S) : Replica := mkReplica (rp_public r) s (rp_tree r) (rp_head r).
Definition set_rtree (r : Replica) (t : Merkle.MerkleTree) : Replica :=
  mkReplica (rp_public r) (rp_store r) t (rp_head r).
Definition set_rhead (r : Replica) (h : option SignedHead) : Replica :=
  mkReplica (rp_public r) (rp_store r) (rp_tree r) h.

Abbreviation rmethod := (act Replica (Error E)).

Definition rstore_put (k : N) (v : bytes) : rmethod unit := λ r,
  let '(s, res) := Store.put (rp_store r) k v in Done (set_rstore r s, map_err Storage res).

Definition Replica_new (public : PublicKey) (store : S) : Replica :=
  mkReplica public store Merkle.new None.

Definition Replica_len (r : Replica) : N := Merkle.length (rp_tree r).
Definition Replica_is_empty (r : Replica) : bool := Merkle.is_empty (rp_tree r).
Definition Replica_root_hash (r : Replica) : run bytes := Merkle.root_hash (rp_tree r).
Definition verified_head (r : Replica) : option SignedHead := rp_head r.

(** The head is recorded when the tree reaches it. *)
Definition match_head (head : SignedHead) : rmethod unit := λ r,
  if Merkle.length (rp_tree r) =? h_length head then
    root ← Merkle.root_hash (rp_tree r);
    Done (if bool_decide (root = h_root head) then set_rhead r (Some head) else r, Ok tt)
  else Done (r, Ok tt).

Definition add_block (head : SignedHead) (index : N) (enc : bytes) (proof : Merkle.Proof_)
    : rmethod bool :=
  n ← reads Replica_len;
  if negb (index =? n) then mret false
  else
    ok ← reads (λ r, verify_block (rp_public r) head index enc proof);
    if negb ok then mret false
    else
      _ ← rstore_put index enc;
      _ ← (λ r, '(t, _) ← Merkle.append (rp_tree r) enc; Done (set_rtree r t, Ok tt));
      _ ← match_head head;
      mret true.

Definition verify_upgrade (r : Replica) (new_head : SignedHead) (proof : Merkle.UpgradeProof)
    : run bool :=
  if (Merkle.old_len proof =? Merkle.length (rp_tree r)) && (Merkle.new_len proof =? h_length new_head)
     && (Merkle.length (rp_tree r) <? h_length new_head) && verify_signed_head (rp_public r) new_head
  then
    roots ← Merkle.tree_roots (rp_tree r);
    Done (Merkle.UpgradeProof_verify proof roots (h_root new_head))
  else Done false.

Definition verify_reorg (r : Replica) (new_head : SignedHead) (ancestors : N)
    (proof : option Merkle.UpgradeProof) : bool :=
  match rp_head r with
  | None => false
  | Some cur =>
      if h_fork new_head <=? h_fork cur then false
      else if negb (verify_signed_head (rp_public r) new_head) then false
      else if (Merkle.length (rp_tree r) <? ancestors) || (h_length new_head <? ancestors) then false
      else
        match Merkle.prefix_roots (rp_tree r) ancestors with
        | None => false
        | Some anchor =>
            if ancestors =? h_length new_head then
              bool_decide (Merkle.prefix_root_hash (rp_tree r) ancestors = Some (h_root new_head))
            else if ancestors =? 0 then true
            else
              match proof with
              | Some p =>
                  (Merkle.old_len p =? ancestors) && (Merkle.new_len p =? h_length new_head)
                    && Merkle.UpgradeProof_verify p anchor (h_root new_head)
              | None => false
              end
        end
  end.

Definition reorg (new_head : SignedHead) (ancestors : N) (proof : option Merkle.UpgradeProof)
    : rmethod bool := λ r,
  if negb (verify_reorg r new_head ancestors proof) then Done (r, Ok false)
  else
    let r := set_rtree r (Merkle.truncate (rp_tree r) ancestors).1 in
    if Merkle.length (rp_tree r) =? h_length new_head then
      root ← Merkle.root_hash (rp_tree r);
      Done (set_rhead r (if bool_decide (root = h_root new_head) then Some new_head else None), Ok true)
    else Done (set_rhead r None, Ok true).

Definition Replica_get (r : Replica) (index : N) : result (Error E) (option T) :=
  if Merkle.length (rp_tree r) <=? index then Ok None
  else
    v ← map_err Storage (Store.get (rp_store r) index);
    bs ← ok_or Corrupt v;
    value ← map_err Codec_ (Codec.decode bs);
    Ok (Some value).

Definition Replica_block (r : Replica) (index : N) : result (Error E) (option bytes) :=
  if Merkle.length (rp_tree r) <=? index then Ok None
  else map_err Storage (Store.get (rp_store r) index).

Definition Replica_proof (r : Replica) (index : N) : run (option Merkle.Proof_) :=
  Merkle.proof (rp_tree r) index.

(** ** Durable state *)

Definition encode_replica_meta (head : option SignedHead) : bytes :=
  match head with
  | None => [x00]
  | Some h => [x01] ++ head_bytes h
  end.

(** Bytes after the 112 of a head are not looked at. *)
Definition decode_replica_meta (bs : bytes) : option (option SignedHead) :=
  match bs with
  | [] => None
  | tag :: rest =>
      match tag with
      | x00 => Some None
      | x01 => if lenN rest <? 112 then None else '(h, _) ← head_at rest; Some (Some h)
      | _ => None
      end
  end.

Definition Replica_persist : rmethod unit :=
  t ← reads (λ r, Merkle.serialize (rp_tree r));
  m ← reads (λ r, encode_replica_meta (rp_head r));
  _ ← rstore_put KEY_TREE t;
  rstore_put KEY_META m.

Definition Replica_open (public : PublicKey) (store : S) : run (result (Error E) Replica) :=
  match Store.get store KEY_TREE, Store.get store KEY_META with
  | Err e, _ | Ok _, Err e => Done (Err (Storage e))
  | Ok (Some t), Ok (Some m) =>
      match Merkle.deserialize t, decode_replica_meta m with
      | Some t, Some head =>
          let t := match head with
                   | Some h =>
                       if h_length h <? Merkle.length t then (Merkle.truncate t (h_length h)).1 else t
                   | None => t
                   end in
          let r := mkReplica public store t head in
          match head with
          | None => Done (Ok r)
          | Some h =>
              if verify_signed_head public h && (Merkle.length t =? h_length h) then
                root ← Merkle.root_hash t;
                Done (if bool_decide (root = h_root h) then Ok r else Err Corrupt)
              else Done (Err Corrupt)
          end
      | _, _ => Done (Err Corrupt)
      end
  | _, _ => Done (Err NotPersisted)
  end.
End Replica.
#[global] Arguments Replica {_} S.
End Replica.
