(* ===== verification/ReplicaTheorems.v ===== *)
(** * [hypercore::replica]: a replica follows its writer

    The properties of [src/crates/hypercore/src/replica.rs] against the writer's
    log: [replica_of] says which blocks a replica holds, and the theorems that the
    blocks it accepts, the heads it adopts and the log it reopens with are the
    writer's. *)
From S2P Require Import Prelude Codec Flat Merkle MerkleSpec MerkleProofs MerkleSeek MerkleFork MerkleHistory.
From S2P Require Import Store Identity Hypercore HypercoreMeta HypercoreLog HypercoreOps HypercoreDurable HypercoreTheorems Replica.
From Stdlib Require Import Strings.Byte.

Module ReplicaTheorems.
Import MerkleSpec MerkleProofs Hypercore HypercoreMeta HypercoreLog HypercoreDurable Replica.
Import Identity (PublicKey, SecretKey, Sig).

Section Theorems.
Context `{HL : HasherLaws} `{EL : Ed25519Laws} {S E : Type} `{SL : Store.StoreLaws S E}.

(** A head that vouches for a prefix of the blocks. *)
Definition vouches (pk : PublicKey) (blocks : list bytes) (h : SignedHead) : Prop :=
  h_length h <= lenN blocks /\ u64_ok (h_fork h)
  /\ head_ok pk (h_fork h) (take (N.to_nat (h_length h)) blocks) h.

(** The replica holds exactly these blocks. *)
Record replica_of (blocks : list bytes) (r : Replica S) : Prop := mkReplicaOf {
  o_tree : full_tree blocks (rp_tree r);
  o_small : lenN blocks <= Flat.max_blocks;
  o_blocks : blocks_ok blocks;
  o_inv : Store.store_inv (rp_store r);
  o_stored : forall i b, blocks !! i = Some b -> Store.contents (rp_store r) !! N.of_nat i = Some b;
  o_head : forall h, rp_head r = Some h -> vouches (rp_public r) blocks h }.

Lemma new_replica pk (s : S) : Store.store_inv s -> replica_of [] (Replica_new pk s).
Proof. intros Hi. constructor; cbn; try done; [apply full_tree_new|constructor]. Qed.

Lemma vouches_app pk blocks h x : vouches pk blocks h -> vouches pk (blocks ++ x) h.
Proof.
  intros (Hl & Hf & Hh). unfold vouches. rewrite lenN_app. split_and!; [lia|done|].
  rewrite take_app_le; [done|]. unfold lenN in Hl. lia.
Qed.

Lemma head_ok_vouches pk f blocks h : u64_ok f -> head_ok pk f blocks h -> vouches pk blocks h.
Proof.
  intros Hf Hh. pose proof Hh as (Ef & El & Hr & Hv). unfold vouches. rewrite Ef, El. split_and!; [done..|].
  by rewrite take_ge by (unfold lenN; lia).
Qed.

Lemma wp_rput k v (Q : unit -> Replica S -> Prop) R r :
  Store.store_inv (rp_store r) -> Store.fits k v ->
  (forall s', Store.store_inv s' -> Store.contents s' = <[k := v]> (Store.contents (rp_store r)) ->
     Q tt (set_rstore r s')) ->
  (store_fails (S:=S) -> forall s' e, R (Storage e) (set_rstore r s')) ->
  wp (rstore_put (E:=E) k v) Q R r.
Proof.
  intros Hi Hf HQ HR. unfold wp, rstore_put.
  destruct (Store.put (rp_store r) k v) as [s' [[]|e]] eqn:Ep; cbn [map_err].
  - destruct (Store.put_ok _ _ _ _ Hi Hf Ep). by apply HQ.
  - apply HR. left. exists (rp_store r), k, v, e. by rewrite Ep.
Qed.

Definition rfailed (r : Replica S) (e : Error E) (r' : Replica S) : Prop :=
  store_fails (S:=S) /\ (exists e', e = Storage e') /\ exists s', r' = set_rstore r s'.

(** ** Adding a block *)

Lemma match_head_spec blocks h (r : Replica S) (Q : unit -> Replica S -> Prop) R :
  full_tree blocks (rp_tree r) -> lenN blocks <= Flat.max_blocks ->
  Q tt (if (lenN blocks =? h_length h) && bool_decide (ref_root_hash blocks = h_root h)
        then set_rhead r (Some h) else r) ->
  wp (match_head (E:=E) h) Q R r.
Proof.
  intros Hf Hn HQ. unfold wp, match_head. rewrite (root_hash_full blocks) by done.
  destruct Hf as [-> _]. destruct (lenN blocks =? h_length h); [|done]. rsimpl. by cbn [andb] in HQ.
Qed.

(** The head a replica shows after a block was added against [h]. *)
Definition head_after (r : Replica S) (blocks : list bytes) (h : SignedHead) : option SignedHead :=
  if (lenN blocks =? h_length h) && bool_decide (ref_root_hash blocks = h_root h)
  then Some h else rp_head r.

Lemma replica_append blocks (r r' : Replica S) enc s t h :
  replica_of blocks r -> lenN blocks < Flat.max_blocks -> u64_ok (lenN enc) -> u64_ok (h_fork h) ->
  verify_signed_head (rp_public r) h = true -> Store.store_inv s ->
  Store.contents s = <[lenN blocks := enc]> (Store.contents (rp_store r)) ->
  full_tree (blocks ++ [enc]) t ->
  rp_public r' = rp_public r -> rp_store r' = s -> rp_tree r' = t ->
  rp_head r' = head_after r (blocks ++ [enc]) h -> replica_of (blocks ++ [enc]) r'.
Proof.
  intros Hr Hn Hu Hfk Hv Hi Hc Ht Ep Es Et Eh. constructor; rewrite ?Ep, ?Es, ?Et; try done.
  - rewrite lenN_snoc. lia.
  - apply Forall_app. split; [apply Hr|by constructor].
  - intros i b Hib. rewrite Hc. apply lookup_app_Some in Hib as [Hib|[Hge Hib]].
    + rewrite lookup_insert_ne; [by apply Hr|]. apply lookup_lt_Some in Hib. unfold lenN. lia.
    + apply list_lookup_singleton_Some in Hib as [Hi0 <-].
      replace (N.of_nat i) with (lenN blocks) by (unfold lenN; lia). by rewrite lookup_insert_eq.
  - intros h'. rewrite Eh. unfold head_after. case_if.
    + intros [= <-]. eapply (head_ok_vouches _ (h_fork h)); [done|]. by split_and!.
    + intros Hh. by apply vouches_app, Hr.
Qed.

(** The writer's head and log, as a replica of that writer meets them. *)
Definition writer_log (pk : PublicKey) (blocks : list bytes) (h : SignedHead) : Prop :=
  u64_ok (h_fork h) /\ head_ok pk (h_fork h) blocks h /\ lenN blocks <= Flat.max_blocks /\ blocks_ok blocks.

Lemma take_next {A} (l : list A) (k : N) x :
  l !! N.to_nat k = Some x -> take (N.to_nat (k + 1)) l = take (N.to_nat k) l ++ [x].
Proof.
  intros Hx. replace (N.to_nat (k + 1)) with (Datatypes.S (N.to_nat k)) by lia. by apply take_S_r.
Qed.

(** A verified next block is appended. *)
Lemma add_block_accepts blocks h (r : Replica S) k enc p :
  writer_log (rp_public r) blocks h -> replica_of (take (N.to_nat k) blocks) r ->
  blocks !! N.to_nat k = Some enc -> verify_block (rp_public r) h k enc p = true -> Store.fits k enc ->
  wp (add_block h k enc p)
    (λ ok r', ok = true /\ replica_of (take (N.to_nat (k + 1)) blocks) r' /\ rp_public r' = rp_public r
              /\ (k + 1 = lenN blocks -> rp_head r' = Some h)) (rfailed r) r.
Proof.
  intros (Hfk & Hh & Hn & Hb) Hr Hx Hv Hf. pose proof (lookup_lt_Some _ _ _ Hx) as Hlt.
  set (pre := take (N.to_nat k) blocks) in *.
  assert (El : lenN pre = k) by (apply lenN_take; unfold lenN; lia).
  assert (Elen : Replica_len r = k) by (unfold Replica_len; rewrite (proj1 (o_tree _ _ Hr)); done).
  apply wp_bind, wp_reads. rewrite Elen, N.eqb_refl. cbn [negb]. apply wp_bind, wp_reads. rewrite Hv. cbn [negb].
  apply wp_bind, wp_rput; [apply Hr|done| |intros Hsf s' e; split_and!; eauto]. intros s Hi Hc.
  apply wp_bind. unfold wp at 1. cbn [set_rstore rp_tree].
  destruct (append_full pre (rp_tree r) enc) as (t & -> & Ht); [apply Hr|unfold lenN in *; lia|]. rsimpl.
  apply wp_bind, (match_head_spec (pre ++ [enc])); [done|rewrite lenN_snoc; unfold lenN in *; lia|].
  apply wp_ret. split; [done|]. rewrite (take_next _ _ _ Hx). fold pre. split_and!.
  - eapply (replica_append pre r _ enc s t h); try done.
    + unfold lenN in *. lia.
    + exact (Forall_lookup_1 _ _ _ _ Hb Hx).
    + apply Hh.
    + by rewrite El.
    + by destruct (_ && _).
    + by destruct (_ && _).
    + by destruct (_ && _).
    + unfold head_after. by destruct (_ && _).
  - by destruct (_ && _).
  - intros Hlast. assert (Eb : pre ++ [enc] = blocks).
    { unfold pre. rewrite <- (take_next _ _ _ Hx). apply take_ge. unfold lenN in Hlast. lia. }
    rewrite Eb. destruct Hh as (_ & -> & -> & _). by rewrite N.eqb_refl, bool_decide_true.
Qed.

(** ** Properties *)

(** C27: A replica takes in nothing but the writer's log: of the blocks offered
    against the head of a log, [add_block] accepts only the next block of that
    log, stores it, and on the last one records the head; anything else changes
    nothing, unless BLAKE3 collides on the inputs hashed. *)
Theorem add_block_sound blocks h (r : Replica S) k i enc p :
  writer_log (rp_public r) blocks h -> replica_of (take (N.to_nat k) blocks) r -> k <= lenN blocks ->
  u64_ok (lenN enc) -> proof_ok p -> Store.fits i enc ->
  collision_free (hash_inputs blocks ++ proof_inputs p enc) ->
  exists r' res, add_block h i enc p r = Done (r', res)
    /\ match res with
       | Ok true => i = k /\ blocks !! N.to_nat k = Some enc /\ replica_of (take (N.to_nat (k + 1)) blocks) r'
                    /\ (k + 1 = lenN blocks -> verified_head r' = Some h)
       | Ok false => r' = r
       | Err e => rfailed r e r'
       end.
Proof.
  intros Hw Hr Hk Hu Hp Hf Hcf. pose proof Hw as (Hfk & Hh & Hn & Hb).
  assert (Elen : Replica_len r = k).
  { unfold Replica_len. rewrite (proj1 (o_tree _ _ Hr)). by apply lenN_take. }
  destruct (decide (i = k)) as [->|Hne].
  2: { exists r, (Ok false). split; [|done]. unfold add_block, mbind, act_bind, reads.
       by rewrite Elen, (proj2 (N.eqb_neq _ _)). }
  destruct (verify_block (rp_public r) h k enc p) eqn:Ev.
  2: { exists r, (Ok false). split; [|done]. unfold add_block, mbind, act_bind, reads.
       rewrite Elen, N.eqb_refl. cbn [negb]. by rewrite Ev. }
  pose proof (HypercoreTheorems.verify_block_sound _ _ _ _ _ _ _ Hh Hn Hb Hu Hp Hcf Ev) as Hx.
  rewrite N.mod_small in Hx by (unfold Flat.max_blocks in *; lia).
  pose proof (add_block_accepts blocks h r k enc p Hw Hr Hx Ev Hf) as Ha. unfold wp in Ha.
  destruct (add_block h k enc p r) as [[r' [ok|e]]| |]; [| |done|done].
  - destruct Ha as (-> & Hr' & _ & Hhd). exists r', (Ok true). done.
  - exists r', (Err e). done.
Qed.

(** One round of the exchange: the writer serves a block and its proof, the
    replica adds it. *)
Definition fetch (c : Hypercore S) (h : SignedHead) (i : N) : act (Replica S) (Error E) unit :=
  v ← tries (block c i);
  b ← tries (ok_or Corrupt v);
  q ← runs (proof c i);
  p ← tries (ok_or Corrupt q);
  ok ← add_block h i b p;
  if ok : bool then mret tt else fail Corrupt.

Lemma fetch_spec l (c : Hypercore S) h (r : Replica S) k :
  repr l c -> head c = Some h -> rp_public r = public c -> all_held l -> k < l_len l ->
  all_fit 0 (l_blocks l) -> replica_of (take (N.to_nat k) (l_blocks l)) r ->
  wp (fetch c h k)
    (λ _ r', replica_of (take (N.to_nat (k + 1)) (l_blocks l)) r' /\ rp_public r' = rp_public r
             /\ (k + 1 = l_len l -> rp_head r' = Some h)) (λ _ _, store_fails (S:=S)) r.
Proof.
  intros Hr Hh Hpk Hall Hk Hfit Hrep. pose proof Hr as (Hc & Hs & _). unfold signed in Hs. rewrite Hh in Hs.
  destruct (lookup_lt_is_Some_2 (l_blocks l) (N.to_nat k)) as [b Hb]; [unfold l_len, lenN in Hk; lia|].
  apply wp_bind. unfold wp at 1, tries at 1. destruct (block_spec l c k Hr) as [->|(Hf & e & ->)]; [|done].
  unfold visible. rewrite Hall, Hb by done. apply wp_bind. unfold wp at 1. cbn [tries ok_or].
  destruct (proof_complete (l_blocks l) (tree c) k b) as (p & Ep & Epb & Hpv); [apply Hc|apply Hc|done|].
  apply wp_bind. eapply wp_runs; [exact Ep|]. apply wp_bind. unfold wp at 1. cbn [tries ok_or]. apply wp_bind.
  assert (Hfk : h_fork h = l_fork l) by apply Hs.
  eapply wp_mono; [apply (add_block_accepts (l_blocks l) h r k b p)| |].
  - rewrite Hpk. split_and!; [rewrite Hfk; apply Hc|by rewrite Hfk|apply Hc|apply Hc].
  - done.
  - done.
  - rewrite Hpk. destruct Hs as (_ & _ & Hroot & Hv). unfold verify_block. by rewrite Hv, Epb, N.eqb_refl, Hroot.
  - specialize (Hfit (N.to_nat k) b Hb). by rewrite N.add_0_l, N2Nat.id in Hfit.
  - intros ok r' (-> & Hr' & Ep' & Hl'). apply wp_ret. done.
  - intros e r' [Hf _]. exact Hf.
Qed.

(** C28: Replication completes: a replica that holds a prefix of the log of a core
    whose blocks are all held fetches the rest block by block, every block is
    accepted, and it ends with the whole log, the writer's root hash and, once
    anything was fetched, the writer's head. *)
Theorem replicate_complete {T : Type} `{!Codec.Codec T, !Codec.CodecLaws T} ops l (c : Hypercore S) h (r : Replica S) k :
  Store.StoreTotal S E -> HypercoreTheorems.life (T:=T) ops l c -> head c = Some h -> rp_public r = public c ->
  all_held l -> all_fit 0 (l_blocks l) -> replica_of (take (N.to_nat k) (l_blocks l)) r -> k <= l_len l ->
  exists r', for_each (rangeN k (l_len l)) (fetch c h) r = Done (r', Ok tt)
    /\ replica_of (l_blocks l) r' /\ Replica_root_hash r' = Done (h_root h)
    /\ (k < l_len l -> verified_head r' = Some h).
Proof.
  intros Ht Hr%HypercoreTheorems.life_repr Hh Hpk Hall Hfit Hrep Hk. pose proof (total_never_fails Ht) as Hnf.
  set (Inv := λ (rest : list N) (r' : Replica S), exists i, k <= i <= l_len l /\ rest = rangeN i (l_len l)
    /\ replica_of (take (N.to_nat i) (l_blocks l)) r' /\ rp_public r' = public c
    /\ (k < i -> i = l_len l -> rp_head r' = Some h)).
  assert (Hw : wp (for_each (rangeN k (l_len l)) (fetch c h)) (λ _, Inv []) (λ _ _, store_fails (S:=S)) r).
  { apply wp_for_each.
    - exists k. split_and!; [lia|done..|lia].
    - intros x rest r' (i & Hi & Er & Hri & Hpi & _).
      destruct (decide (i = l_len l)) as [->|Hne]; [by rewrite rangeN_nil in Er|].
      rewrite rangeN_cons in Er by lia. injection Er as -> ->.
      eapply wp_mono; [apply (fetch_spec l c h r' i Hr Hh Hpi Hall); (done || lia)| |done].
      intros [] r'' (Hr'' & Hp'' & Hh''). exists (i + 1). split_and!; [lia|lia|done|done|congruence|by auto]. }
  unfold wp in Hw. destruct (for_each _ _ r) as [[r' [[]|e]]| |]; [|done..].
  destruct Hw as (i & Hi & Er & Hri & _ & Hhd).
  assert (i = l_len l) as -> by (destruct (decide (i = l_len l)); [done|by rewrite rangeN_cons in Er by lia]).
  rewrite take_ge in Hri by (unfold l_len, lenN; lia). exists r'. split_and!; [done..| |].
  - unfold Replica_root_hash. rewrite (root_hash_full (l_blocks l)) by apply Hri. f_equal.
    destruct Hr as (_ & Hs & _). unfold signed in Hs. rewrite Hh in Hs. symmetry. apply Hs.
  - intros Hlt. apply Hhd; [lia|done].
Qed.

(** An accepted upgrade extends what the replica holds: when [verify_upgrade]
    accepts the head of a log, the replica's blocks are a proper prefix of that
    log, unless BLAKE3 collides. *)
Theorem verify_upgrade_sound blocks h (r : Replica S) mine p :
  writer_log (rp_public r) blocks h -> replica_of mine r -> Forall node_ok (Merkle.up_nodes p) ->
  collision_free (hash_inputs mine ++ hash_inputs blocks ++ MerkleFork.upgrade_inputs p (ref_roots mine)) ->
  exists ok, verify_upgrade r h p = Done ok
    /\ (ok = true -> mine `prefix_of` blocks /\ lenN mine < lenN blocks).
Proof.
  intros (_ & (_ & Hl & Hroot & _) & Hn & Hb) Hr Hup Hcf. unfold verify_upgrade.
  rewrite (proj1 (o_tree _ _ Hr)), (tree_roots_full mine) by apply Hr. rsimpl.
  destruct ((_ =? lenN mine) && _ && _ && _) eqn:Eg; [|by exists false].
  apply andb_true_iff in Eg as [[[Eo En]%andb_true_iff Elt]%andb_true_iff _]. reflect_bools.
  eexists. split; [done|]. rewrite Hroot. intros Hv. rewrite Hl in *.
  destruct (MerkleFork.UpgradeProof_verify_sound mine blocks p) as (_ & _ & Hp); [apply Hr|done|lia|apply Hr|done..|].
  split; [|lia]. rewrite <- Hp. exists (drop (N.to_nat (Merkle.old_len p)) blocks). by rewrite take_drop.
Qed.

Lemma replica_truncate mine (r r' : Replica S) a :
  replica_of mine r -> a <= lenN mine -> rp_public r' = rp_public r -> rp_store r' = rp_store r ->
  rp_tree r' = (Merkle.truncate (rp_tree r) a).1 ->
  (forall h, rp_head r' = Some h -> vouches (rp_public r) (take (N.to_nat a) mine) h) ->
  replica_of (take (N.to_nat a) mine) r'.
Proof.
  intros Hr Ha Ep Es Et Eh. assert (El : lenN (take (N.to_nat a) mine) = a) by (by apply lenN_take).
  constructor; rewrite ?Ep, ?Es, ?Et; try done.
  - destruct (decide (a = lenN mine)) as [->|Hne].
    + unfold Merkle.truncate. rewrite (proj1 (o_tree _ _ Hr)), N.leb_refl. cbn [fst].
      rewrite take_ge by (unfold lenN; lia). apply Hr.
    + destruct (truncate_full mine (rp_tree r) a) as (t & -> & Ht); [apply Hr|apply Hr|lia|done].
  - rewrite El. pose proof (o_small _ _ Hr). lia.
  - apply MerkleFork.blocks_ok_take, Hr.
  - apply Hr.
  - intros i b [Hib _]%lookup_take_Some. by apply Hr.
Qed.

(** The anchor checks of a reorg: the claimed ancestors are shared. *)
Lemma verify_reorg_shared blocks h (r : Replica S) mine a q :
  writer_log (rp_public r) blocks h -> replica_of mine r -> (forall p, q = Some p -> Forall node_ok (Merkle.up_nodes p)) ->
  (forall p, q = Some p -> collision_free (hash_inputs (take (N.to_nat a) mine) ++ hash_inputs blocks
     ++ MerkleFork.upgrade_inputs p (ref_roots (take (N.to_nat a) mine)))) ->
  collision_free (hash_inputs (take (N.to_nat a) mine) ++ hash_inputs blocks) ->
  verify_reorg r h a q = true ->
  a <= lenN mine /\ a <= lenN blocks /\ take (N.to_nat a) mine = take (N.to_nat a) blocks
  /\ exists cur, rp_head r = Some cur /\ h_fork cur < h_fork h.
Proof.
  intros (_ & (_ & Hl & Hroot & _) & Hn & Hb) Hr Hup Hcfu Hcf. unfold verify_reorg.
  destruct (rp_head r) as [cur|]; [|done]. destruct (N.leb_spec (h_fork h) (h_fork cur)) as [|Hfk]; [done|].
  destruct (verify_signed_head _ _); [cbn [negb]|done]. rewrite (proj1 (o_tree _ _ Hr)), Hl.
  destruct (N.ltb_spec (lenN mine) a) as [|Ha]; [done|].
  destruct (N.ltb_spec (lenN blocks) a) as [|Hab]; [done|]. cbn [orb].
  unfold Merkle.prefix_root_hash. rewrite (prefix_roots_full mine) by (done || apply Hr). rsimpl.
  set (pre := take (N.to_nat a) mine) in *. fold (ref_root_hash pre). rewrite Hroot.
  assert (Elp : lenN pre = a) by (by apply lenN_take).
  assert (Hpn : lenN pre <= Flat.max_blocks) by (rewrite Elp; lia).
  assert (Hpb : blocks_ok pre) by (apply MerkleFork.blocks_ok_take, Hr).
  destruct (N.eqb_spec a (lenN blocks)) as [Ea|Hne].
  - intros [= Er]%bool_decide_eq_true. apply MerkleFork.root_hash_commits in Er; [|done..].
    rewrite Er. split_and!; [done|done| |by exists cur]. rewrite take_ge by (rewrite Ea; unfold lenN; lia). done.
  - destruct (N.eqb_spec a 0) as [->|Hz]; [intros _; split_and!; [done|done|done|by exists cur]|].
    destruct q as [p|]; [|done]. rewrite !andb_true_iff, !N.eqb_eq. intros [[Eo En] Hv].
    destruct (MerkleFork.UpgradeProof_verify_sound pre blocks p) as (_ & _ & Hp);
      [done|done|lia|done|done|by apply Hup|by apply Hcfu|done|].
    rewrite Eo in Hp. split_and!; [done|done|by rewrite Hp|by exists cur].
Qed.

(** C29: Following a reorg is safe: [reorg] returns; a refusal changes nothing; an
    acceptance means a higher fork and ancestors that the new log shares, and
    leaves the replica holding exactly them, with the new head already verified
    when there is nothing left to fetch. *)
Theorem reorg_sound blocks h (r : Replica S) mine a q :
  writer_log (rp_public r) blocks h -> replica_of mine r -> (forall p, q = Some p -> Forall node_ok (Merkle.up_nodes p)) ->
  (forall p, q = Some p -> collision_free (hash_inputs (take (N.to_nat a) mine) ++ hash_inputs blocks
     ++ MerkleFork.upgrade_inputs p (ref_roots (take (N.to_nat a) mine)))) ->
  collision_free (hash_inputs (take (N.to_nat a) mine) ++ hash_inputs blocks) ->
  exists r' ok, reorg (E:=E) h a q r = Done (r', Ok ok)
    /\ if ok : bool then
         replica_of (take (N.to_nat a) blocks) r' /\ take (N.to_nat a) mine = take (N.to_nat a) blocks
         /\ (exists cur, rp_head r = Some cur /\ h_fork cur < h_fork h)
         /\ verified_head r' = (if a =? lenN blocks then Some h else None)
       else r' = r.
Proof.
  intros Hw Hr Hup Hcfu Hcf. unfold reorg. destruct (verify_reorg r h a q) eqn:Ev; cbn [negb].
  2: { by exists r, false. }
  destruct (verify_reorg_shared blocks h r mine a q Hw Hr Hup Hcfu Hcf Ev) as (Ha & Hab & Hsh & Hcur).
  pose proof Hw as (Hfk & Hh & Hn & Hb). destruct Hh as (_ & Hl & Hroot & Hsig).
  pose proof (replica_truncate mine r (set_rhead (set_rtree r (Merkle.truncate (rp_tree r) a).1) None) a Hr Ha
    eq_refl eq_refl eq_refl ltac:(done)) as Hnone.
  pose proof (o_tree _ _ Hnone) as Ht. cbn [set_rhead set_rtree rp_tree] in Ht |- *.
  rewrite (proj1 Ht), lenN_take, Hl by done. rewrite (root_hash_full (take (N.to_nat a) mine)) by (done || apply Hnone).
  rsimpl. rewrite Hsh in Hnone |- *. destruct (N.eqb_spec a (lenN blocks)) as [Ea|Hne].
  - rewrite (take_ge blocks) in Hnone |- * by (rewrite Ea; unfold lenN; lia). rewrite Hroot, bool_decide_true by done.
    eexists _, true. split; [done|]. split_and!; [|done..].
    destruct Hnone. constructor; try done. intros h' [= <-].
    apply (head_ok_vouches _ (h_fork h)); done.
  - eexists _, true. split; [done|]. split_and!; done.
Qed.

(** *** Reloading *)

Lemma replica_meta_roundtrip o :
  from_option head_wf True o -> decode_replica_meta (encode_replica_meta o) = Some o.
Proof.
  intros Ho. destruct o as [h|]; [|done]. unfold encode_replica_meta, decode_replica_meta. cbn [app].
  pose proof Ho as (_ & _ & Hr).
  rewrite (proj2 (N.ltb_ge _ _)).
  - rewrite <- (app_nil_r (head_bytes h)), head_at_bytes by done. done.
  - unfold head_bytes, lenN, Identity.Sig_to_bytes. rewrite !length_app, !to_le_length, Hr, sig_bytes_length. done.
Qed.

Lemma replica_persist_saves mine (r : Replica S) :
  replica_of mine r -> Store.fits KEY_TREE (Merkle.serialize (rp_tree r)) ->
  Store.fits KEY_META (encode_replica_meta (rp_head r)) ->
  wp Replica_persist (λ _ r', (exists s', r' = set_rstore r s') /\ replica_of mine r'
      /\ Store.contents (rp_store r') !! KEY_TREE = Some (Merkle.serialize (rp_tree r))
      /\ Store.contents (rp_store r') !! KEY_META = Some (encode_replica_meta (rp_head r)))
    (rfailed r) r.
Proof.
  intros Hr Ft Fm. apply wp_bind, wp_reads, wp_bind, wp_reads.
  apply wp_bind, wp_rput; [apply Hr|done| |intros Hf s' e; split_and!; eauto]. intros s1 I1 C1.
  apply wp_rput; [done..| |intros Hf s' e; split_and!; eauto]. intros s2 I2 C2.
  destruct max_keys as (M1 & _ & M3 & _ & _ & _ & _ & D2 & _). cbn [set_rstore rp_store] in *. split_and!.
  - by exists s2.
  - destruct Hr. constructor; cbn; try done. intros i b Hib. rewrite C2, C1.
    assert (N.of_nat i < Flat.max_blocks) by (apply lookup_lt_Some in Hib; unfold lenN in *; lia).
    rewrite !lookup_insert_ne by lia. by apply o_stored0.
  - rewrite C2, lookup_insert_ne, C1, lookup_insert_eq by done. done.
  - by rewrite C2, lookup_insert_eq.
Qed.

(** A store that holds what [persist] wrote reopens: at the head the replica had
    fully matched, or with all its blocks when it had matched none. *)
Lemma replica_open_saved mine (r : Replica S) :
  replica_of mine r -> Store.contents (rp_store r) !! KEY_TREE = Some (Merkle.serialize (rp_tree r)) ->
  Store.contents (rp_store r) !! KEY_META = Some (encode_replica_meta (rp_head r)) ->
  store_fails (S:=S) \/ exists r2, Replica_open (rp_public r) (rp_store r) = Done (Ok r2)
    /\ rp_head r2 = rp_head r /\ rp_public r2 = rp_public r /\ rp_store r2 = rp_store r
    /\ replica_of (match rp_head r with Some h => take (N.to_nat (h_length h)) mine | None => mine end) r2.
Proof.
  intros Hr Et Em. unfold Replica_open.
  assert (Hget : forall k, Store.get (rp_store r) k = Ok (Store.contents (rp_store r) !! k) \/ store_fails (S:=S)).
  { intros k. destruct (Store.get (rp_store r) k) as [v|e] eqn:Eg.
    - left. by rewrite (Store.get_ok _ _ _ (o_inv _ _ Hr) Eg).
    - right. right; left. exists (rp_store r), k, e. split; [apply Hr|done]. }
  destruct (Hget KEY_TREE) as [->|?]; [rewrite Et|by left].
  destruct (Hget KEY_META) as [->|?]; [rewrite Em; right|by left].
  rewrite deserialize_serialize by (eapply full_tree_ok; apply Hr).
  rewrite replica_meta_roundtrip.
  2: { destruct (rp_head r) as [h|] eqn:Eh; [|done]. destruct (o_head _ _ Hr h Eh) as (Hl & Hf & Hh).
       eapply head_ok_wf; [exact Hf| |exact Hh]. rewrite lenN_take by done. pose proof (o_small _ _ Hr). lia. }
  destruct (rp_head r) as [h|] eqn:Eh.
  2: { eexists. split_and!; [done..|]. destruct Hr. constructor; done. }
  destruct (o_head _ _ Hr h Eh) as (Hl & Hf & Hh). pose proof Hh as (_ & Elen & Hroot & Hsig).
  assert (Etr : (if h_length h <? Merkle.length (rp_tree r) then (Merkle.truncate (rp_tree r) (h_length h)).1
                 else rp_tree r) = (Merkle.truncate (rp_tree r) (h_length h)).1).
  { unfold Merkle.truncate. rewrite (proj1 (o_tree _ _ Hr)).
    destruct (N.ltb_spec (h_length h) (lenN mine)); [done|]. by rewrite (proj2 (N.leb_le _ _)). }
  rewrite Etr.
  assert (Hrep : replica_of (take (N.to_nat (h_length h)) mine)
    (mkReplica (rp_public r) (rp_store r) (Merkle.truncate (rp_tree r) (h_length h)).1 (Some h))).
  { eapply (replica_truncate mine r); try done. intros h' [= <-].
    apply (head_ok_vouches _ (h_fork h)); done. }
  pose proof (o_tree _ _ Hrep) as Htree. cbn [rp_tree] in Htree.
  rewrite Hsig, (proj1 Htree), lenN_take, N.eqb_refl by done. cbn [andb].
  rewrite (root_hash_full (take (N.to_nat (h_length h)) mine)) by (done || apply Hrep). rsimpl.
  rewrite Hroot, bool_decide_true by done. by eexists.
Qed.

(** A replica that was persisted reopens; only the store can make it fail. *)
Theorem replica_reopens mine (r r1 : Replica S) :
  replica_of mine r -> Store.fits KEY_TREE (Merkle.serialize (rp_tree r)) ->
  Store.fits KEY_META (encode_replica_meta (rp_head r)) -> Replica_persist r = Done (r1, Ok tt) ->
  store_fails (S:=S) \/ exists r2, Replica_open (rp_public r) (rp_store r1) = Done (Ok r2)
    /\ rp_head r2 = rp_head r
    /\ replica_of (match rp_head r with Some h => take (N.to_nat (h_length h)) mine | None => mine end) r2.
Proof.
  intros Hr Ft Fm Hp. pose proof (replica_persist_saves mine r Hr Ft Fm) as Hw. unfold wp in Hw. rewrite Hp in Hw.
  destruct Hw as ((s1 & ->) & Hr1 & Et & Em).
  destruct (replica_open_saved mine _ Hr1 Et Em) as [?|(r2 & Eo & Eh & _ & _ & Hr2)]; [by left|right; by exists r2].
Qed.
End Theorems.
End ReplicaTheorems.
