(* ===== verification/ManifestCore.v ===== *)
(** * [hypercore::manifest_core]: the log of a signer quorum

    The model of [src/crates/hypercore/src/manifest_core.rs]: a log whose heads
    carry the partial signatures of a manifest's signers, and its verify-only
    replica. *)
From S2P Require Import Prelude Codec Merkle Store Identity Hypercore.

Module ManifestCore.
Import Hypercore.
Import Identity (PublicKey, SecretKey, PartialSig, ps_signer, Manifest, Manifest_sign, Manifest_verify, Manifest_hash).

(** [sort_by_key]: stable, equal keys keep their order. *)
Fixpoint insert_by_key {A} (key : A -> nat) (x : A) (l : list A) : list A :=
  match l with
  | [] => [x]
  | y :: l' => if (key x <=? key y)%nat then x :: l else y :: insert_by_key key x l'
  end.
Definition sort_by_key {A} (key : A -> nat) (l : list A) : list A := foldr (insert_by_key key) [] l.

(** [dedup_by_key]: of a run of equal keys the first stays. *)
Fixpoint dedup_from {A} (key : A -> nat) (x : A) (l : list A) : list A :=
  match l with
  | [] => [x]
  | y :: l' => if (key x =? key y)%nat then dedup_from key x l' else x :: dedup_from key y l'
  end.
Definition dedup_by_key {A} (key : A -> nat) (l : list A) : list A :=
  match l with [] => [] | x :: l' => dedup_from key x l' end.

Section Core.
Context `{Hasher} `{Ed25519} {T : Type} `{!Codec.Codec T} {S E : Type} `{!Store.Store S E}.

Record ManifestHead := mkManifestHead { mh_length : N; mh_root : bytes; mh_sigs : list PartialSig }.

Record ManifestCore := mkManifestCore {
  mc_manifest : Manifest; mc_signers : list SecretKey; mc_store : S; mc_tree : Merkle.MerkleTree;
  mc_head : option ManifestHead }.

Definition ManifestCore_new (manifest : Manifest) (signers : list SecretKey) (store : S) : ManifestCore :=
  mkManifestCore manifest signers store Merkle.new None.

Definition key (c : ManifestCore) : bytes := Manifest_hash (mc_manifest c).
Definition mc_len (c : ManifestCore) : N := Merkle.length (mc_tree c).
Definition mc_is_empty (c : ManifestCore) : bool := Merkle.is_empty (mc_tree c).

Definition collect_sigs (m : Manifest) (signers : list SecretKey) (length : N) (root : bytes)
    : list PartialSig :=
  let sigs := omap (λ s, Manifest_sign m s length root) signers in
  dedup_by_key ps_signer (sort_by_key ps_signer sigs).

Definition mc_resign : act ManifestCore (Error E) unit := λ c,
  let length := Merkle.length (mc_tree c) in
  root ← Merkle.root_hash (mc_tree c);
  let sigs := collect_sigs (mc_manifest c) (mc_signers c) length root in
  Done (mkManifestCore (mc_manifest c) (mc_signers c) (mc_store c) (mc_tree c)
          (Some (mkManifestHead length root sigs)), Ok tt).

Definition mc_store_put (k : N) (v : bytes) : act ManifestCore (Error E) unit := λ c,
  let '(s, r) := Store.put (mc_store c) k v in
  Done (mkManifestCore (mc_manifest c) (mc_signers c) s (mc_tree c) (mc_head c), map_err Storage r).
Definition mc_tree_append (data : bytes) : act ManifestCore (Error E) unit := λ c,
  '(t, _) ← Merkle.append (mc_tree c) data;
  Done (mkManifestCore (mc_manifest c) (mc_signers c) (mc_store c) t (mc_head c), Ok tt).

Definition mc_append (value : T) : act ManifestCore (Error E) N :=
  let bs := Codec.encode value in
  index ← reads mc_len;
  _ ← mc_store_put index bs;
  _ ← mc_tree_append bs;
  _ ← mc_resign;
  mret index.

Definition mc_block (c : ManifestCore) (index : N) : result (Error E) (option bytes) :=
  if Merkle.length (mc_tree c) <=? index then Ok None
  else
    v ← map_err Storage (Store.get (mc_store c) index);
    bs ← ok_or Corrupt v;
    Ok (Some bs).

Definition mc_get (c : ManifestCore) (index : N) : result (Error E) (option T) :=
  v ← mc_block c index;
  match v with
  | Some bs => value ← map_err Codec_ (Codec.decode bs); Ok (Some value)
  | None => Ok None
  end.

Definition mc_proof (c : ManifestCore) (index : N) : run (option Merkle.Proof_) :=
  Merkle.proof (mc_tree c) index.

Definition mc_verify_head (c : ManifestCore) : run bool :=
  match mc_head c with
  | None => Done (Merkle.is_empty (mc_tree c))
  | Some h =>
      if negb (mh_length h =? Merkle.length (mc_tree c)) then Done false
      else
        root ← Merkle.root_hash (mc_tree c);
        Done (bool_decide (mh_root h = root)
              && Manifest_verify (mc_manifest c) (mh_length h) (mh_root h) (mh_sigs h))
  end.

Definition verify_manifest_block (manifest : Manifest) (head : ManifestHead) (index : N) (data : bytes)
    (proof : Merkle.Proof_) : bool :=
  Manifest_verify manifest (mh_length head) (mh_root head) (mh_sigs head)
    && (Merkle.block proof =? index) && Merkle.Proof_verify proof data (mh_root head).

(** ** The replica *)

Record ManifestReplica := mkManifestReplica {
  mr_manifest : Manifest; mr_store : S; mr_tree : Merkle.MerkleTree; mr_head : option ManifestHead }.

Definition ManifestReplica_new (manifest : Manifest) (store : S) : ManifestReplica :=
  mkManifestReplica manifest store Merkle.new None.

Definition mr_len (r : ManifestReplica) : N := Merkle.length (mr_tree r).
Definition mr_root_hash (r : ManifestReplica) : run bytes := Merkle.root_hash (mr_tree r).

Definition mr_store_put (k : N) (v : bytes) : act ManifestReplica (Error E) unit := λ r,
  let '(s, res) := Store.put (mr_store r) k v in
  Done (mkManifestReplica (mr_manifest r) s (mr_tree r) (mr_head r), map_err Storage res).
Definition mr_tree_append (data : bytes) : act ManifestReplica (Error E) unit := λ r,
  '(t, _) ← Merkle.append (mr_tree r) data;
  Done (mkManifestReplica (mr_manifest r) (mr_store r) t (mr_head r), Ok tt).
Definition mr_match_head (head : ManifestHead) : act ManifestReplica (Error E) unit := λ r,
  if Merkle.length (mr_tree r) =? mh_length head then
    root ← Merkle.root_hash (mr_tree r);
    Done (if bool_decide (root = mh_root head)
          then mkManifestReplica (mr_manifest r) (mr_store r) (mr_tree r) (Some head) else r, Ok tt)
  else Done (r, Ok tt).

Definition mr_add_block (head : ManifestHead) (index : N) (enc : bytes) (proof : Merkle.Proof_)
    : act ManifestReplica (Error E) bool :=
  n ← reads mr_len;
  if negb (index =? n) then mret false
  else
    ok ← reads (λ r, verify_manifest_block (mr_manifest r) head index enc proof);
    if negb ok then mret false
    else
      _ ← mr_store_put index enc;
      _ ← mr_tree_append enc;
      _ ← mr_match_head head;
      mret true.

Definition mr_get (r : ManifestReplica) (index : N) : result (Error E) (option T) :=
  if Merkle.length (mr_tree r) <=? index then Ok None
  else
    v ← map_err Storage (Store.get (mr_store r) index);
    bs ← ok_or Corrupt v;
    value ← map_err Codec_ (Codec.decode bs);
    Ok (Some value).
End Core.
#[global] Arguments ManifestCore {_} S.
#[global] Arguments ManifestReplica {_} S.
End ManifestCore.
