(* ===== verification/ManifestTheorems.v ===== *)
(** * [hypercore::manifest_core]: what a quorum authorizes

    The properties of [src/crates/hypercore/src/manifest_core.rs]: a manifest core
    authorizes its heads exactly when the local signers fill enough slots, and a
    replica with the public manifest takes in nothing but the log behind an
    authorized head. *)
From S2P Require Import Prelude Codec Flat Merkle MerkleSpec MerkleProofs MerkleHistory Store Identity.
From S2P Require Import IdentityTheorems Hypercore HypercoreLog HypercoreDurable ManifestCore.
From Stdlib Require Import Strings.Byte.

Module ManifestTheorems.
Import MerkleSpec MerkleProofs Hypercore ManifestCore.
Import Identity (PublicKey, SecretKey, PartialSig, ps_signer, Manifest, Manifest_sign, Manifest_verify, quorum, signers, prologue, signable, sig_valid, position).

(** ** Sorting and deduplication by key *)

Section Keys.
Context {A : Type} (key : A -> nat).

Lemma insert_by_key_perm x l : insert_by_key key x l ≡ₚ x :: l.
Proof.
  induction l as [|y l IH]; cbn [insert_by_key]; [done|]. destruct (key x <=? key y)%nat; [done|].
  rewrite IH. apply Permutation_swap.
Qed.

Lemma sort_by_key_perm l : sort_by_key key l ≡ₚ l.
Proof.
  induction l as [|x l IH]; [done|]. unfold sort_by_key in *. cbn [foldr]. by rewrite insert_by_key_perm, IH.
Qed.

Definition key_order (x y : A) : Prop := (key x <= key y)%nat.

Lemma insert_by_key_sorted x l : StronglySorted key_order l -> StronglySorted key_order (insert_by_key key x l).
Proof.
  induction 1 as [|y l Hl IH Hy]; cbn [insert_by_key]; [repeat constructor|].
  destruct (Nat.leb_spec (key x) (key y)) as [Hle|Hgt].
  - constructor; [by constructor|]. constructor; [done|]. eapply Forall_impl; [exact Hy|].
    intros z Hz. unfold key_order in *. lia.
  - constructor; [done|]. rewrite insert_by_key_perm. constructor; [unfold key_order; lia|done].
Qed.

Lemma sort_by_key_sorted l : StronglySorted key_order (sort_by_key key l).
Proof. induction l as [|x l IH]; [constructor|]. by apply insert_by_key_sorted. Qed.

(** On a sorted list the result has every key once. *)
Lemma dedup_from_spec x l :
  StronglySorted key_order (x :: l) ->
  dedup_from key x l ⊆ x :: l /\ NoDup (key <$> dedup_from key x l)
  /\ forall k, k ∈ (key <$> dedup_from key x l) <-> k ∈ (key <$> x :: l).
Proof.
  revert x. induction l as [|y l IH]; intros x Hs; cbn [dedup_from].
  { split_and!; [done|apply NoDup_singleton|done]. }
  apply StronglySorted_inv in Hs as [Hl Hx]. apply Forall_cons in Hx as [Hxy Hx].
  destruct (Nat.eqb_spec (key x) (key y)) as [E|Hne].
  - destruct (IH x) as (Hsub & Hnd & Hk).
    { apply StronglySorted_inv in Hl as [Hl _]. by constructor. }
    split_and!; [|done|].
    + intros z Hz%Hsub. apply elem_of_cons in Hz as [->|Hz]; [by left|by right; right].
    + intros k. rewrite Hk, !fmap_cons, !elem_of_cons, E. tauto.
  - destruct (IH y Hl) as (Hsub & Hnd & Hk). split_and!.
    + intros z [->|Hz]%elem_of_cons; [by left|]. right. by apply Hsub.
    + rewrite fmap_cons. apply NoDup_cons. split; [|done]. rewrite Hk. intros Hin.
      apply list_elem_of_fmap in Hin as (z & Ez & Hz). apply StronglySorted_inv in Hl as [_ Hy].
      unfold key_order in *. apply elem_of_cons in Hz as [->|Hz]; [done|].
      eapply Forall_forall in Hy; [|exact Hz]. cbn in Hy. lia.
    + intros k. rewrite fmap_cons, elem_of_cons, Hk, (fmap_cons _ x), elem_of_cons. done.
Qed.

Lemma dedup_sorted_spec l :
  let d := dedup_by_key key (sort_by_key key l) in
  d ⊆ l /\ NoDup (key <$> d) /\ forall k, k ∈ (key <$> d) <-> k ∈ (key <$> l).
Proof.
  pose proof (sort_by_key_sorted l) as Hs. pose proof (sort_by_key_perm l) as Hp.
  destruct (sort_by_key key l) as [|x l'] eqn:E; cbn [dedup_by_key].
  - apply Permutation_nil in Hp as ->. split_and!; [done|constructor|done].
  - destruct (dedup_from_spec x l' Hs) as (Hsub & Hnd & Hk). split_and!; [|done|].
    + intros z Hz%Hsub. by rewrite <- Hp.
    + intros k. by rewrite Hk, Hp.
Qed.
End Keys.

Section Theorems.
Context `{HL : HasherLaws} `{EL : Ed25519Laws} {T : Type} `{CL : Codec.CodecLaws T}.
Context {S E : Type} `{SL : Store.StoreLaws S E}.

(** The declared slots that the local keys fill. *)
Definition slots (m : Manifest) (sks : list SecretKey) : gset nat :=
  list_to_set (omap (λ sk, position (Identity.public sk) (signers m)) sks).

Lemma signers_omap m (sks : list SecretKey) n root :
  ps_signer <$> omap (λ s, Manifest_sign m s n root) sks
  = omap (λ sk, position (Identity.public sk) (signers m)) sks.
Proof.
  induction sks as [|sk sks IH]; [done|]. cbn. unfold Manifest_sign at 1.
  destruct (position (Identity.public sk) (signers m)); cbn; [f_equal|]; exact IH.
Qed.

Lemma collect_sigs_spec m sks n root :
  let sigs := collect_sigs m sks n root in
  NoDup (ps_signer <$> sigs) /\ Forall (sig_valid m (signable m n root)) sigs /\ length sigs = size (slots m sks).
Proof.
  destruct (dedup_sorted_spec ps_signer (omap (λ s, Manifest_sign m s n root) sks)) as (Hsub & Hnd & Hk).
  fold (collect_sigs m sks n root) in *. split_and!; [done| |].
  - apply Forall_forall. intros ps Hps%Hsub. apply list_elem_of_omap in Hps as (sk & _ & Hs).
    by eapply Identity.Manifest_sign_valid.
  - rewrite <- (length_fmap ps_signer), <- (size_list_to_set (C:=gset nat)) by done. f_equal. unfold slots.
    apply leibniz_equiv. intros k. rewrite !elem_of_list_to_set, Hk, signers_omap. done.
Qed.

(** The core holds these blocks, under the head its signers made. *)
Definition mcore_of (blocks : list bytes) (c : ManifestCore S) : Prop :=
  full_tree blocks (mc_tree c) /\ lenN blocks <= Flat.max_blocks /\ Store.store_inv (mc_store c)
  /\ (forall i b, blocks !! i = Some b -> Store.contents (mc_store c) !! N.of_nat i = Some b)
  /\ mc_head c = if bool_decide (blocks = []) then None
                 else Some (mkManifestHead (lenN blocks) (ref_root_hash blocks)
                        (collect_sigs (mc_manifest c) (mc_signers c) (lenN blocks) (ref_root_hash blocks))).

Lemma mcore_new m sks (s : S) : Store.store_inv s -> mcore_of [] (ManifestCore_new m sks s).
Proof. intros Hi. split_and!; [apply full_tree_new|done|done|done|done]. Qed.

(** Appending to a manifest core writes the block, extends the tree and signs
    the new head with every local signer of the manifest; a failure is the
    store's and leaves tree and head alone. *)
Theorem manifest_append blocks (c : ManifestCore S) (v : T) :
  mcore_of blocks c -> lenN blocks < Flat.max_blocks -> Store.fits (lenN blocks) (Codec.encode v) ->
  exists c' r, mc_append v c = Done (c', r)
    /\ mc_manifest c' = mc_manifest c /\ mc_signers c' = mc_signers c
    /\ match r with
       | Ok i => i = lenN blocks /\ mcore_of (blocks ++ [Codec.encode v]) c'
       | Err e => mc_tree c' = mc_tree c /\ mc_head c' = mc_head c /\ exists e', e = Storage e'
       end.
Proof.
  intros (Ht & Hn & Hi & Hst & Hh) Hlt Hf. unfold mc_append, mbind, act_bind, reads, mc_store_put, mc_tree_append.
  assert (El : mc_len c = lenN blocks) by apply Ht. rewrite El.
  destruct (Store.put (mc_store c) (lenN blocks) (Codec.encode v)) as [s [[]|e]] eqn:Ep; cbn [map_err].
  2: { eexists _, _. split; [done|]. split_and!; [done..|by exists e]. }
  destruct (Store.put_ok _ _ _ _ Hi Hf Ep) as [Hi' Hc'].
  destruct (append_full blocks (mc_tree c) (Codec.encode v) Ht Hlt) as (t & Ea & Ht'). cbn [mc_tree].
  rewrite Ea. rsimpl. unfold mc_resign. cbn [mc_tree mc_manifest mc_signers mc_store].
  assert (Hn' : lenN (blocks ++ [Codec.encode v]) <= Flat.max_blocks) by (rewrite lenN_snoc; lia).
  rewrite (root_hash_full (blocks ++ [Codec.encode v])) by done. rsimpl. unfold mret, act_ret.
  eexists _, _. split; [done|]. split_and!; [done..|]. split_and!; [done|done|done| |].
  - cbn [mc_store]. intros i b Hib. rewrite Hc'. apply lookup_app_Some in Hib as [Hib|[Hge Hib]].
    + rewrite lookup_insert_ne; [by apply Hst|]. apply lookup_lt_Some in Hib. unfold lenN. lia.
    + apply list_lookup_singleton_Some in Hib as [Hi0 <-].
      replace (N.of_nat i) with (lenN blocks) by (unfold lenN; lia). by rewrite lookup_insert_eq.
  - cbn [mc_head mc_manifest mc_signers]. rewrite (proj1 Ht').
    rewrite bool_decide_false; [done|]. by destruct blocks.
Qed.

(** Who the manifest lets sign a head of these blocks with these keys: nobody for an
    empty log, which has no head; anybody for the declared prologue itself and nobody
    for another log that is not longer; and past it the keys of a quorum of slots. *)
Definition authorized (m : Manifest) (sks : list SecretKey) (blocks : list bytes) : bool :=
  let filled := bool_decide (0 < quorum m <= size (slots m sks))%nat in
  match prologue m with
  | Some p =>
      if lenN blocks <=? Identity.p_length p
      then (lenN blocks =? Identity.p_length p) && bool_decide (ref_root_hash blocks = Identity.p_hash p)
      else filled
  | None => filled
  end.

Lemma collected_verify m sks blocks :
  Manifest_verify m (lenN blocks) (ref_root_hash blocks) (collect_sigs m sks (lenN blocks) (ref_root_hash blocks))
  = authorized m sks blocks.
Proof.
  destruct (collect_sigs_spec m sks (lenN blocks) (ref_root_hash blocks)) as (Hnd & Hval & Hlen).
  assert (Hq : (forall p, prologue m = Some p -> Identity.p_length p < lenN blocks) ->
    Manifest_verify m (lenN blocks) (ref_root_hash blocks) (collect_sigs m sks (lenN blocks) (ref_root_hash blocks))
    = bool_decide (0 < quorum m <= size (slots m sks))%nat).
  { intros Hp. apply eq_bool_prop_intro. rewrite bool_decide_spec, Is_true_true, Identity.Manifest_verify_quorum, Hlen by done. tauto. }
  unfold authorized. destruct (prologue m) as [p|] eqn:Ep; [|by apply Hq].
  destruct (N.leb_spec (lenN blocks) (Identity.p_length p)) as [Hle|Hgt].
  - apply eq_bool_prop_intro. rewrite !Is_true_true, (Identity.Manifest_verify_prologue m p) by done.
    by rewrite andb_true_iff, N.eqb_eq, bool_decide_eq_true.
  - apply Hq. by intros p' [= <-].
Qed.

(** C38: The head of a log that is not empty is authorized exactly when the log is
    the declared prologue, or is longer than any prologue and the local keys fill at
    least [quorum] of the declared slots: otherwise the core's own check fails, and
    then every block of the log verifies for the holder of the public manifest.  An
    empty core has no head and passes its check. *)
Theorem manifest_authorized blocks (c : ManifestCore S) :
  mcore_of blocks c ->
  let ok := authorized (mc_manifest c) (mc_signers c) blocks in
  (blocks = [] -> mc_head c = None /\ mc_verify_head c = Done true)
  /\ (blocks <> [] -> exists h, mc_head c = Some h /\ mc_verify_head c = Done ok
       /\ forall i b, blocks !! N.to_nat i = Some b ->
          exists p, mc_proof c i = Done (Some p) /\ verify_manifest_block (mc_manifest c) h i b p = ok).
Proof.
  intros (Ht & Hn & _ & _ & Hh) ok. split; intros Hne.
  - rewrite bool_decide_true in Hh by done. split; [done|]. unfold mc_verify_head. rewrite Hh. subst blocks.
    unfold Merkle.is_empty. by rewrite (proj1 Ht).
  - rewrite bool_decide_false in Hh by done. eexists. split; [exact Hh|]. split.
    + unfold mc_verify_head. rewrite Hh. cbn [mh_length mh_root mh_sigs]. rewrite (proj1 Ht), N.eqb_refl. cbn [negb].
      rewrite (root_hash_full blocks) by done. rsimpl. rewrite (bool_decide_true (_ = _)) by done. cbn [andb].
      f_equal. apply collected_verify.
    + intros i b Hb. destruct (proof_complete blocks (mc_tree c) i b Ht Hn Hb) as (p & Ep & Epb & Hpv).
      exists p. split; [done|]. unfold verify_manifest_block. cbn [mh_length mh_root mh_sigs].
      rewrite collected_verify, Epb, N.eqb_refl, Hpv. fold ok. by destruct ok.
Qed.

(** *** The replica *)

Definition mreplica_of (blocks : list bytes) (r : ManifestReplica S) : Prop :=
  full_tree blocks (mr_tree r) /\ Store.store_inv (mr_store r)
  /\ (forall i b, blocks !! i = Some b -> Store.contents (mr_store r) !! N.of_nat i = Some b).

(** A manifest replica takes in nothing but the log behind the root of the
    head it is shown, and only with a head its manifest authorizes; the last block
    records the head; a refusal changes nothing. *)
Theorem manifest_replica_sound blocks (h : ManifestHead) (r : ManifestReplica S) k i enc p :
  mh_length h = lenN blocks -> mh_root h = ref_root_hash blocks -> lenN blocks <= Flat.max_blocks ->
  blocks_ok blocks -> mreplica_of (take (N.to_nat k) blocks) r -> k <= lenN blocks ->
  u64_ok (lenN enc) -> proof_ok p -> Store.fits i enc ->
  collision_free (hash_inputs blocks ++ proof_inputs p enc) ->
  exists r' res, mr_add_block (E:=E) h i enc p r = Done (r', res)
    /\ match res with
       | Ok true => i = k /\ blocks !! N.to_nat k = Some enc /\ mreplica_of (take (N.to_nat (k + 1)) blocks) r'
           /\ Manifest_verify (mr_manifest r) (mh_length h) (mh_root h) (mh_sigs h) = true
           /\ (k + 1 = lenN blocks -> mr_head r' = Some h)
       | Ok false => r' = r
       | Err e => mr_tree r' = mr_tree r /\ mr_head r' = mr_head r /\ exists e', e = Storage e'
       end.
Proof.
  intros Hl Hroot Hn Hb (Ht & Hi & Hst) Hk Hu Hp Hf Hcf. set (pre := take (N.to_nat k) blocks) in *.
  assert (El : lenN pre = k) by (by apply lenN_take).
  assert (Elen : mr_len r = k) by (unfold mr_len; rewrite (proj1 Ht); done).
  unfold mr_add_block, mbind, act_bind, reads, mr_store_put, mr_tree_append, mr_match_head. rewrite Elen.
  destruct (N.eqb_spec i k) as [->|Hne]; cbn [negb]; [|by eexists _, _].
  destruct (verify_manifest_block _ h k enc p) eqn:Ev; cbn [negb]; [|by eexists _, _].
  unfold verify_manifest_block in Ev. rewrite !andb_true_iff, N.eqb_eq in Ev. destruct Ev as [[Hm Hpb] Hpv].
  rewrite Hroot in Hpv. destruct (Proof_verify_sound blocks p enc Hn Hb Hu Hp Hcf Hpv) as [Hx _].
  rewrite Hpb, N.mod_small in Hx by (unfold Flat.max_blocks in *; lia). pose proof (lookup_lt_Some _ _ _ Hx) as Hlt.
  destruct (Store.put (mr_store r) k enc) as [s [[]|e]] eqn:Ep; cbn [map_err].
  2: { eexists _, _. split; [done|]. split_and!; [done..|by exists e]. }
  destruct (Store.put_ok _ _ _ _ Hi Hf Ep) as [Hi' Hc']. cbn [mr_tree].
  destruct (append_full pre (mr_tree r) enc Ht) as (t & Ea & Ht'); [rewrite El; unfold lenN in *; lia|].
  rewrite Ea. rsimpl. cbn [mr_tree]. assert (Epre : pre ++ [enc] = take (N.to_nat (k + 1)) blocks).
  { unfold pre. replace (N.to_nat (k + 1)) with (Datatypes.S (N.to_nat k)) by lia. symmetry. by apply take_S_r. }
  assert (Hn' : lenN (pre ++ [enc]) <= Flat.max_blocks) by (rewrite lenN_snoc, El; unfold lenN in *; lia).
  rewrite (root_hash_full (pre ++ [enc])) by done. rewrite (proj1 Ht'). rsimpl. rewrite Hl, Hroot.
  assert (Hrep : forall hd, mreplica_of (take (N.to_nat (k + 1)) blocks) (mkManifestReplica (mr_manifest r) s t hd)).
  { intros hd. rewrite <- Epre. split_and!; [done..|]. cbn [mr_store]. intros j b Hjb. rewrite Hc'.
    apply lookup_app_Some in Hjb as [Hjb|[Hge Hjb]].
    - rewrite lookup_insert_ne; [by apply Hst|]. apply lookup_lt_Some in Hjb. unfold lenN in El. lia.
    - apply list_lookup_singleton_Some in Hjb as [Hj0 <-].
      replace (N.of_nat j) with k by (unfold lenN in El; lia). by rewrite lookup_insert_eq. }
  destruct (N.eqb_spec (lenN (pre ++ [enc])) (lenN blocks)) as [Efull|Hnf].
  - assert (Eb : pre ++ [enc] = blocks) by (rewrite Epre; apply take_ge; rewrite lenN_snoc, El in Efull; unfold lenN in Efull; lia).
    rewrite Eb, bool_decide_true by done. eexists _, _. split; [done|]. rewrite Hroot, Hl in Hm. split_and!; done || apply Hrep.
  - eexists _, _. split; [done|]. rewrite Hroot, Hl in Hm. split_and!; [done|done|apply Hrep|done|].
    intros Hlast. rewrite lenN_snoc, El in Hnf. done.
Qed.
End Theorems.
End ManifestTheorems.
