(* ===== verification/HypercoreWitnesses.v ===== *)
(** * [hypercore]: the theorems at concrete cores

    A core of two blocks over the in-memory store, with the concrete hash and
    signature functions of MerkleHistory and IdentityTheorems, run by evaluation;
    every theorem about cores, replicas and manifest cores is applied to it. *)
From S2P Require Import Prelude Codec Flat Merkle MerkleSpec MerkleProofs MerkleSeek MerkleFork MerkleHistory.
From S2P Require Import Store Bitfield BitfieldTheorems Identity IdentityTheorems.
From S2P Require Import Hypercore HypercoreMeta HypercoreLog HypercoreOps HypercoreDurable HypercoreTrace HypercoreBatch.
From S2P Require Import HypercoreTheorems HypercoreViews Replica ReplicaTheorems ManifestCore ManifestTheorems.
From Stdlib Require Import Strings.Byte.

Module HypercoreWitnesses.
Import MerkleSpec MerkleProofs MerkleHistory Hypercore HypercoreMeta HypercoreLog HypercoreOps HypercoreDurable.
Import HypercoreTrace HypercoreBatch HypercoreTheorems HypercoreViews Replica ReplicaTheorems.
Import Identity (PublicKey, SecretKey, Sig).

#[local] Existing Instance toy_hash.
#[local] Existing Instance toy_laws.
#[local] Existing Instance IdentityTheorems.toy_ed.
#[local] Existing Instance IdentityTheorems.toy_ed_laws.
#[local] Existing Instance Codec.U64.
#[local] Existing Instance Codec.U64_laws.

Abbreviation core := (Hypercore Store.MemoryStore).
Abbreviation mem_op := (op N Store.MemoryStore).

Definition ran {A} (c : core) (r : run (core * A)) : core := match r with Done (c', _) => c' | _ => c end.

Abbreviation exec_ := (exec (E:=Store.Infallible)).

Definition core0 : core := fresh IdentityTheorems.sk1 Store.Memory_new None.
Definition core1 : core := Eval vm_compute in ran core0 (exec_ (Append 5) core0).
Definition core2 : core := Eval vm_compute in ran core1 (exec_ (Append 7) core1).
Definition log0 : Log := empty_log None.
Definition log1 : Log := (spec log0 (Append 5 : mem_op)).1.
Definition log2 : Log := (spec log1 (Append 7 : mem_op)).1.
Definition head1 : SignedHead := signed_head IdentityTheorems.sk1 0 [[x05]].
Definition head2 : SignedHead := signed_head IdentityTheorems.sk1 0 [[x05]; [x07]].

(** The side conditions at concrete cores. *)
Ltac small_ok :=
  match goal with
  | |- collision_free _ => apply collision_freeb_spec; vm_compute; reflexivity
  | |- blocks_ok _ => repeat constructor
  | |- proof_ok _ => split; apply node_okb_all; vm_compute; reflexivity
  | |- Forall node_ok _ => apply node_okb_all; vm_compute; reflexivity
  | |- op_ok _ _ (Append _) => split_and!; [vm_compute; reflexivity..|exact I]
  | |- _ <> _ => vm_compute; discriminate
  | |- _ <= _ => vm_compute; discriminate
  | |- ?a = ?b => vm_cast_no_check (@eq_refl _ b)
  | |- _ => vm_compute; reflexivity
  end.

Lemma trace1 : trace log0 core0 [Append 5 : mem_op] log1 core1.
Proof. apply (trace_snoc log0 core0 [] log0 core0 (Append 5) (Num 0)); [constructor|small_ok|small_ok]. Qed.

Lemma life1 : life [Append 5 : mem_op] log1 core1.
Proof. exists IdentityTheorems.sk1, Store.Memory_new, None. split_and!; [done..|exact trace1]. Qed.

Lemma trace12 : trace log1 core1 [Append 7 : mem_op] log2 core2.
Proof. apply (trace_snoc log1 core1 [] log1 core1 (Append 7) (Num 1)); [constructor|small_ok|small_ok]. Qed.

Lemma life2 : life [Append 5; Append 7 : mem_op] log2 core2.
Proof.
  exists IdentityTheorems.sk1, Store.Memory_new, None. split_and!; [done..|].
  apply (trace_snoc log0 core0 [Append 5] log1 core1 (Append 7) (Num 1)); [exact trace1|small_ok|small_ok].
Qed.

Lemma all_held2 : all_held log2.
Proof. intros i Hi. change (l_len log2) with 2 in Hi. assert (i = 0 \/ i = 1) as [->| ->] by lia; done. Qed.

(** ** Cores *)

Lemma core_refines_log_witness :
  exists c' r, exec_ (Append 9) core2 = Done (c', r)
    /\ match r with
       | Ok a => a = Num 2 /\ repr (spec log2 (Append 9 : mem_op)).1 c'
       | Err e => error_ok log2 core2 (Append 9) e c'
       end.
Proof. apply (core_refines_log [Append 5; Append 7] log2 core2 (Append 9) life2). small_ok. Defined.

Lemma core_reads_witness :
  has core2 1 = true /\ (forall b h, l_blocks log2 !! 1%nat = Some b -> head core2 = Some h ->
    exists p, proof core2 1 = Done (Some p) /\ verify_block (public core2) h 1 b p = true).
Proof.
  destruct (core_reads (E:=Store.Infallible) [Append 5; Append 7] log2 core2 1 [] life2) as (Hh & _ & _ & _ & Hp). done.
Defined.

Lemma append_get_witness :
  exists c', append (E:=Store.Infallible) 9 core2 = Done (c', Ok 2) /\ get c' 2 = Ok (Some 9)
    /\ forall i, i <> 2 -> get (T:=N) (E:=Store.Infallible) c' i = get core2 i.
Proof. apply (append_get (E:=Store.Infallible) [Append 5; Append 7] log2 core2 9); [apply _|exact life2|small_ok|done]. Defined.

Definition core4 : core :=
  Eval vm_compute in ran core2 (appends (E:=Store.Infallible) [9; 11] core2).

Lemma batch_correct_witness :
  append_all (E:=Store.Infallible) [9; 11] core2 = Done (core4, Ok 4)
  /\ commit (E:=Store.Infallible) (mkBatch 1 [[x01]]) core2 = Done (core2, Ok None).
Proof.
  destruct (batch_correct (E:=Store.Infallible) [Append 5; Append 7] log2 core2 [9; 11] core4 (mkBatch 1 [[x01]]) life2) as (Ha & Hs & _);
    [small_ok..|]. split; [exact Ha|apply Hs; small_ok].
Defined.

(** Two proofs that would convict the author if the blocks differed. *)
Definition honest_pair : ForkProof :=
  mkForkProof 0 head1 [x05] (get_or (Merkle.mkProof 0 0 [] []) (proof core1 0))
    head2 [x05] (get_or (Merkle.mkProof 0 0 [] []) (proof core2 0)).

Lemma never_equivocates_witness :
  conflicting_heads (public core2) head1 head2 = false
  /\ ForkProof_verify honest_pair (public core2) = false.
Proof.
  apply (never_equivocates [Append 5] log1 core1 [Append 7] log2 core2 head1 head2 (public core2) honest_pair life1 trace12);
    [repeat constructor|small_ok..].
Defined.

Lemma purge_equivocates_witness :
  exists c1 c2 h2, purge (E:=Store.Infallible) core1 = Done (c1, Ok tt)
    /\ append (E:=Store.Infallible) 6 c1 = Done (c2, Ok 0) /\ head c2 = Some h2
    /\ conflicting_heads (public core1) head1 h2 = true.
Proof.
  apply (purge_equivocates (E:=Store.Infallible) [Append 5] log1 core1 [x05] 6 head1);
    [apply _|exact life1|small_ok..].
Defined.

Definition saved2 : core := Eval vm_compute in ran core2 (persist (E:=Store.Infallible) core2).
Definition crashed : core := Eval vm_compute in ran saved2 (appends (E:=Store.Infallible) [9] saved2).

Lemma reopen_after_crash_witness :
  store_fails (S:=Store.MemoryStore) \/ exists c3, open_ (author core2) (store crashed) = Done (Ok c3) /\ repr log2 c3
    /\ store c3 = store crashed /\ tree c3 = tree core2 /\ head c3 = head core2.
Proof.
  apply (reopen_after_crash [Append 5; Append 7] log2 core2 saved2 [9] crashed life2); [done|small_ok..|done|small_ok].
Defined.

Definition proof_of_1 : Merkle.Proof_ := get_or (Merkle.mkProof 0 0 [] []) (proof core2 1).

Lemma head_authenticates_witness :
  verify_archived_feed (public core2) head2 [[x05]; [x07]] = Done true
  /\ verify_block (public core2) head2 1 [x07] proof_of_1 = true /\ l_blocks log2 !! 1%nat = Some [x07].
Proof.
  destruct (head_authenticates (E:=Store.Infallible) [Append 5; Append 7] log2 core2 head2 [[x05]; [x07]] 1 [x07] proof_of_1 life2) as [Hf Hb];
    [small_ok..|]. split; [exact Hf|]. split; [small_ok|apply Hb; small_ok].
Defined.

(** A core that adopts the first block of [core2]. *)
Definition pr1 : Prologue := mkPrologue 1 (ref_root_hash [[x05]]).
Definition sk2 : SecretKey := (x02 : SigningKey).
Definition bound0 : core := fresh sk2 Store.Memory_new (Some pr1).
Definition bound1 : core := Eval vm_compute in ran bound0 (copy_prologue (E:=Store.Infallible) core2 bound0).

Lemma prologue_pinned_witness : verify_prologue bound1 = true /\ verify_prologue bound1 = true.
Proof.
  apply (prologue_pinned [] (empty_log (Some pr1)) bound0 core2 log2 (Num 1) bound1 []
           (spec (empty_log (Some pr1)) (CopyPrologue core2 log2 : mem_op)).1 bound1).
  - exists sk2, Store.Memory_new, (Some pr1). split_and!; [done..| |constructor].
    split; [done|]. apply blake3_length.
  - exists pr1. split_and!; [apply (life_repr _ _ _ life2)|done|done|split; small_ok| |done].
    intros i Hi. cbn in Hi. assert (i = 0) as -> by lia. done.
  - small_ok.
  - constructor.
  - constructor.
Defined.

Lemma read_stream_correct_witness :
  drain (T:=N) (E:=Store.Infallible) 2 (read_stream core2 (mkReadOpts 0 None true false)) = [Ok 7; Ok 5].
Proof.
  transitivity (omap (item (T:=N) (E:=Store.Infallible) core2) [1; 0]); [|small_ok].
  apply (read_stream_correct core2 (mkReadOpts 0 None true false) 2). vm_compute. lia.
Defined.

Lemma byte_stream_correct_witness :
  exists r stop, byte_stream core2 (mkByteOpts 1 None) = Done r
    /\ drain_bytes (E:=Store.Infallible) 2 r = Ok <$> take (N.to_nat (stop - 1)) [[x07]].
Proof.
  destruct (byte_stream_correct (E:=Store.Infallible) [Append 5; Append 7] log2 core2 (mkByteOpts 1 None) 2) as (r & stop & Hr & Hd & _);
    [apply _|exact life2|exact all_held2|small_ok|vm_compute; lia|].
  exists r, stop. split; [exact Hr|]. change (bo_offset (mkByteOpts 1 None)) with 1 in Hd.
  assert (Es : (seek_linear (l_blocks log2) 0 1).1 = 1) by small_ok. rewrite Es in Hd. exact Hd.
Defined.

Definition snap1 : Snapshot :=
  match snapshot (E:=Store.Infallible) core1 with Ok s => s | Err _ => mkSnapshot 0 0 None Merkle.new ∅ end.

Lemma snapshot_correct_witness :
  Snapshot_block snap1 0 = Some [x05] /\ signed_length snap1 core2 = 1.
Proof.
  destruct (snapshot_correct (E:=Store.Infallible) [Append 5] log1 core1 snap1 [Append 7] log2 core2 0 life1)
    as (Hb & _ & Hl & _); [small_ok|exact trace12|small_ok|].
  split; [rewrite Hb|rewrite Hl]; small_ok.
Defined.

(** ** Replicas *)

Abbreviation replica := (Replica Store.MemoryStore).
Definition rran {A} (r : replica) (x : run (replica * A)) : replica := match x with Done (r', _) => r' | _ => r end.

Definition blocks2 : list bytes := [[x05]; [x07]].
Definition rep0 : replica := Replica_new (public core2) Store.Memory_new.
Definition proof_of_0 : Merkle.Proof_ := get_or (Merkle.mkProof 0 0 [] []) (proof core2 0).
Definition rep1 : replica :=
  Eval vm_compute in rran rep0 (add_block (E:=Store.Infallible) head2 0 [x05] proof_of_0 rep0).
Definition rep2 : replica :=
  Eval vm_compute in rran rep1 (add_block (E:=Store.Infallible) head2 1 [x07] proof_of_1 rep1).

Lemma writer2 : writer_log (public core2) blocks2 head2.
Proof. split_and!; [done|split_and!; small_ok|done|repeat constructor]. Qed.

Lemma rep0_of : replica_of [] rep0.
Proof. by apply (new_replica (E:=Store.Infallible)). Qed.

Lemma rep1_of : replica_of (take 1 blocks2) rep1.
Proof.
  pose proof (add_block_accepts (E:=Store.Infallible) blocks2 head2 rep0 0 [x05] proof_of_0 writer2 rep0_of eq_refl) as Ha.
  unfold wp in Ha. assert (Er : add_block (E:=Store.Infallible) head2 0 [x05] proof_of_0 rep0 = Done (rep1, Ok true)) by small_ok.
  rewrite Er in Ha. apply Ha; [small_ok|done].
Qed.

Lemma rep2_of : replica_of blocks2 rep2.
Proof.
  pose proof (add_block_accepts (E:=Store.Infallible) blocks2 head2 rep1 1 [x07] proof_of_1 writer2 rep1_of eq_refl) as Ha.
  unfold wp in Ha. assert (Er : add_block (E:=Store.Infallible) head2 1 [x07] proof_of_1 rep1 = Done (rep2, Ok true)) by small_ok.
  rewrite Er in Ha. apply Ha; [small_ok|done].
Qed.

Lemma add_block_sound_witness :
  exists r' res, add_block (E:=Store.Infallible) head2 1 [x07] proof_of_1 rep1 = Done (r', res)
    /\ match res with
       | Ok true => 1 = 1 /\ blocks2 !! 1%nat = Some [x07] /\ replica_of blocks2 r'
                    /\ (1 + 1 = lenN blocks2 -> verified_head r' = Some head2)
       | Ok false => r' = rep1
       | Err e => rfailed rep1 e r'
       end.
Proof. apply (add_block_sound blocks2 head2 rep1 1 1 [x07] proof_of_1 writer2 rep1_of); (small_ok || exact I). Defined.

Lemma replicate_complete_witness :
  exists r', for_each (rangeN 1 2) (fetch (E:=Store.Infallible) core2 head2) rep1 = Done (r', Ok tt)
    /\ replica_of blocks2 r' /\ Replica_root_hash r' = Done (h_root head2)
    /\ (1 < 2 -> verified_head r' = Some head2).
Proof.
  apply (replicate_complete (E:=Store.Infallible) (T:=N) [Append 5; Append 7] log2 core2 head2 rep1 1);
    [apply _|exact life2|small_ok|small_ok|exact all_held2|done|exact rep1_of|small_ok].
Defined.

Definition upgrade12 : Merkle.UpgradeProof :=
  get_or (Merkle.mkUpgradeProof 0 0 []) (upgrade_proof core2 1 2).

Lemma verify_upgrade_sound_witness :
  verify_upgrade rep1 head2 upgrade12 = Done true
  /\ exists ok, verify_upgrade rep1 head2 upgrade12 = Done ok
     /\ (ok = true -> [[x05]] `prefix_of` blocks2 /\ lenN [[x05]] < lenN blocks2).
Proof.
  split; [small_ok|]. apply (verify_upgrade_sound (E:=Store.Infallible) blocks2 head2 rep1 [[x05]] upgrade12 writer2 rep1_of);
    small_ok.
Defined.

(** The writer rewinds to one block; the replica follows. *)
Definition core3 : core := Eval vm_compute in ran core2 (exec_ (Truncate 1) core2).
Definition head3 : SignedHead := signed_head IdentityTheorems.sk1 1 [[x05]].

Lemma writer3 : writer_log (public core2) [[x05]] head3.
Proof. split_and!; [done|split_and!; small_ok|done|repeat constructor]. Qed.

Lemma reorg_sound_witness :
  head core3 = Some head3
  /\ exists r' ok, reorg (E:=Store.Infallible) head3 1 None rep2 = Done (r', Ok ok)
    /\ if ok : bool then
         replica_of [[x05]] r' /\ take 1 blocks2 = take 1 [[x05]]
         /\ (exists cur, rp_head rep2 = Some cur /\ h_fork cur < h_fork head3)
         /\ verified_head r' = (if 1 =? lenN [[x05]] then Some head3 else None)
       else r' = rep2.
Proof.
  split; [small_ok|]. apply (reorg_sound [[x05]] head3 rep2 blocks2 1 None writer3 rep2_of); [done|done|small_ok].
Defined.

Definition saved_rep2 : replica := Eval vm_compute in rran rep2 (Replica_persist (E:=Store.Infallible) rep2).

Lemma replica_reopens_witness :
  store_fails (S:=Store.MemoryStore)
  \/ exists r2, Replica_open (rp_public rep2) (rp_store saved_rep2) = Done (Ok r2) /\ rp_head r2 = rp_head rep2
     /\ replica_of (match rp_head rep2 with Some h => take (N.to_nat (h_length h)) blocks2 | None => blocks2 end) r2.
Proof. apply (replica_reopens blocks2 rep2 saved_rep2 rep2_of); (done || small_ok). Defined.

(** ** Manifest cores *)

Import ManifestCore ManifestTheorems.
Abbreviation mcore := (ManifestCore Store.MemoryStore).
Definition mcore0 : mcore :=
  ManifestCore_new IdentityTheorems.two_of_three [IdentityTheorems.sk1; sk2] Store.Memory_new.
Definition mcore1 : mcore :=
  Eval vm_compute in match mc_append (E:=Store.Infallible) 5 mcore0 with Done (c, _) => c | _ => mcore0 end.

Lemma mcore0_of : mcore_of [] mcore0.
Proof. by apply (mcore_new (E:=Store.Infallible)). Qed.

Lemma manifest_append_witness :
  exists c' r, mc_append (E:=Store.Infallible) 5 mcore0 = Done (c', r)
    /\ mc_manifest c' = mc_manifest mcore0 /\ mc_signers c' = mc_signers mcore0
    /\ match r with
       | Ok i => i = lenN (A:=bytes) [] /\ mcore_of ([] ++ [Codec.encode 5]) c'
       | Err e => mc_tree c' = mc_tree mcore0 /\ mc_head c' = mc_head mcore0 /\ exists e', e = Storage e'
       end.
Proof. apply (manifest_append [] mcore0 5 mcore0_of); [small_ok|exact I]. Defined.

Lemma mcore1_of : mcore_of [[x05]] mcore1.
Proof.
  split_and!.
  - destruct (rebuild_full [[x05]]) as [_ Hf]; [done|].
    assert (Et : build [[x05]] = mc_tree mcore1) by small_ok. by rewrite <- Et.
  - done.
  - done.
  - intros [|i] b Hb; [|done]. injection Hb as <-. small_ok.
  - small_ok.
Qed.

Lemma manifest_authorized_witness :
  mc_verify_head mcore1 = Done true
  /\ exists p, mc_proof mcore1 0 = Done (Some p)
     /\ forall h, mc_head mcore1 = Some h -> verify_manifest_block IdentityTheorems.two_of_three h 0 [x05] p = true.
Proof.
  destruct (manifest_authorized (E:=Store.Infallible) [[x05]] mcore1 mcore1_of) as [_ Hb].
  destruct Hb as (h & Eh & Hv & Hb); [done|]. split; [rewrite Hv; small_ok|].
  destruct (Hb 0 [x05] eq_refl) as (p & Ep & Hp). exists p. split; [exact Ep|]. intros h' Hh'.
  rewrite Eh in Hh'. apply (inj Some) in Hh' as <-. etrans; [exact Hp|small_ok].
Defined.

Definition mhead1 : ManifestHead := default (mkManifestHead 0 [] []) (mc_head mcore1).
Definition mproof0 : Merkle.Proof_ := get_or (Merkle.mkProof 0 0 [] []) (mc_proof mcore1 0).
Definition mrep0 : ManifestReplica Store.MemoryStore :=
  ManifestReplica_new IdentityTheorems.two_of_three Store.Memory_new.

Lemma manifest_replica_sound_witness :
  exists r' res, mr_add_block (E:=Store.Infallible) mhead1 0 [x05] mproof0 mrep0 = Done (r', res)
    /\ match res with
       | Ok true => 0 = 0 /\ [[x05]] !! 0%nat = Some [x05] /\ mreplica_of [[x05]] r'
           /\ Identity.Manifest_verify (mr_manifest mrep0) (mh_length mhead1) (mh_root mhead1) (mh_sigs mhead1) = true
           /\ (0 + 1 = lenN [[x05]] -> mr_head r' = Some mhead1)
       | Ok false => r' = mrep0
       | Err e => mr_tree r' = mr_tree mrep0 /\ mr_head r' = mr_head mrep0 /\ exists e', e = Storage e'
       end.
Proof.
  apply (manifest_replica_sound [[x05]] mhead1 mrep0 0 0 [x05] mproof0);
    [small_ok|small_ok|small_ok|small_ok| |small_ok|small_ok|small_ok|exact I|small_ok].
  split_and!; [apply full_tree_new|exact I|done].
Defined.
End HypercoreWitnesses.
