(* ===== verification/Hyperbee.v ===== *)
(** * [hyperbee]: an ordered key/value B-tree over a core

    The model of [src/crates/hyperbee/src/lib.rs] and [btree.rs].  A tree is a core
    of encoded nodes and, while a batch is open, the batch its writes are staged
    in; the latest block is the root and a child pointer is a block number.  Every
    method is an [act] on the tree, the [&self] ones too (they leave it as it is).
    A slice access that is out of range is a [Panic].  The recursions descend from
    a block to blocks written before it, so a block number bounds their depth and
    is the fuel they are given. *)
From S2P Require Import Prelude Codec Merkle Store Identity Hypercore.
From Stdlib Require Import Strings.Byte.

(** ** Slices and vectors *)

Module Vec.
Section Vec.
Context {A : Type}.
Implicit Types (l : list A) (i : nat).

(** [l[i]], [l[i] = x], [l.insert(i, x)], [l.remove(i)], [l.pop()] and
    [l.split_off(i)]. *)
Definition get l i : run A := expect (l !! i).
Definition set l i (x : A) : run (list A) := if (i <? length l)%nat then Done (<[i := x]> l) else Panic.
Definition insert l i (x : A) : run (list A) :=
  if (i <=? length l)%nat then Done (take i l ++ x :: drop i l) else Panic.
Definition remove l i : run (A * list A) := x ← get l i; Done (x, take i l ++ drop (S i) l).
Definition pop l : run (A * list A) :=
  match last l with Some x => Done (x, take (pred (length l)) l) | None => Panic end.
Definition split_off l i : run (list A * list A) :=
  if (i <=? length l)%nat then Done (take i l, drop i l) else Panic.
End Vec.

(** [slice::binary_search_by]: halve the window until one element is left. *)
Fixpoint search_loop (fuel : nat) (cmp : nat -> comparison) (base size : nat) : nat :=
  match fuel with
  | O => base
  | S fuel' =>
      if (size <=? 1)%nat then base
      else
        let half := (size / 2)%nat in
        let mid := (base + half)%nat in
        search_loop fuel' cmp (match cmp mid with Gt => base | _ => mid end) (size - half)
  end.
Definition binary_search_by (n : nat) (cmp : nat -> comparison) : result nat nat :=
  if (n =? 0)%nat then Err 0%nat
  else
    let base := search_loop n cmp 0 n in
    match cmp base with
    | Eq => Ok base
    | Lt => Err (S base)
    | Gt => Err base
    end.
End Vec.

Module Hyperbee.
Import Hypercore.

Definition MAX_CHILDREN : nat := 9.
Definition MIN_KEYS : nat := (MAX_CHILDREN - 1) / 2.

Abbreviation entry := (bytes * bytes)%type.

Record Node := mkNode { entries : list entry; children : list N }.
Definition is_leaf (n : Node) : bool := bool_decide (children n = []).

(** ** The encoding of a node *)

Definition entry_bytes (e : entry) : bytes :=
  Codec.varint_bytes (lenN e.1) ++ e.1 ++ Codec.varint_bytes (lenN e.2) ++ e.2.

Definition take_n (n : N) (b : bytes) : result Codec.Error (bytes * bytes) :=
  if lenN b <? n then Err Codec.Eof else Ok (take (N.to_nat n) b, drop (N.to_nat n) b).

(** A round reads a byte at least: the fuel is the length of the buffer. *)
Fixpoint read_entries (fuel : nat) (n : N) (b : bytes) (acc : list entry)
    : result Codec.Error (list entry * bytes) :=
  if n =? 0 then Ok (acc, b)
  else
    match fuel with
    | O => Err Codec.Eof
    | S fuel' =>
        '(kl, b) ← Codec.varint_read b;
        '(k, b) ← take_n kl b;
        '(vl, b) ← Codec.varint_read b;
        '(v, b) ← take_n vl b;
        read_entries fuel' (n - 1) b (acc ++ [(k, v)])
    end.
Fixpoint read_children (fuel : nat) (n : N) (b : bytes) (acc : list N)
    : result Codec.Error (list N * bytes) :=
  if n =? 0 then Ok (acc, b)
  else
    match fuel with
    | O => Err Codec.Eof
    | S fuel' =>
        '(c, b) ← Codec.varint_read b;
        read_children fuel' (n - 1) b (acc ++ [c])
    end.

#[export] Instance NodeCodec : Codec.Codec Node := {|
  Codec.encode_into node out :=
    out ++ Codec.varint_bytes (lenN (entries node)) ++ concat (entry_bytes <$> entries node)
      ++ Codec.varint_bytes (lenN (children node)) ++ concat (Codec.varint_bytes <$> children node);
  Codec.decode bs :=
    '(ne, b) ← Codec.varint_read bs;
    '(es, b) ← read_entries (length b) ne b [];
    '(nc, b) ← Codec.varint_read b;
    '(cs, b) ← read_children (length b) nc b [];
    Ok (mkNode es cs);
|}.

(** ** Bounds and results *)

Record Range := mkRange {
  gt : option bytes; gte : option bytes; lt : option bytes; lte : option bytes;
  reverse : bool; limit : option N }.
Definition Range_default : Range := mkRange None None None None false None.

Inductive Ins := Ins_Down (seq : N) | Ins_Split (left : N) (median : entry) (right : N).
Inductive Del := NotFound | Del_Down (seq : N) (underflow : bool).

(** The comparisons of byte strings [a > b] and the like. *)
Definition gtb (a b : bytes) : bool := match bytes_cmp a b with Gt => true | _ => false end.
Definition geb (a b : bytes) : bool := match bytes_cmp a b with Lt => false | _ => true end.
Definition ltb (a b : bytes) : bool := match bytes_cmp a b with Lt => true | _ => false end.
Definition leb (a b : bytes) : bool := match bytes_cmp a b with Gt => false | _ => true end.

Definition in_bounds (bounds : Range) (k : bytes) : bool :=
  from_option (gtb k) true (gt bounds) && from_option (geb k) true (gte bounds)
    && from_option (ltb k) true (lt bounds) && from_option (leb k) true (lte bounds).

(** [retain], [reverse] and [truncate], in this order. *)
Definition select (bounds : Range) (out : list entry) : list entry :=
  let out := filter (λ e, in_bounds bounds e.1 = true) out in
  let out := if reverse bounds then rev out else out in
  match limit bounds with Some n => take (N.to_nat n) out | None => out end.

Definition search (es : list entry) (key : bytes) : result nat nat :=
  Vec.binary_search_by (length es) (λ i, bytes_cmp (default [] (fst <$> es !! i)) key).

Section Bee.
Context `{Hasher} `{Ed25519} {S E : Type} `{!Store.Store S E}.

Record Hyperbee := mkBee { core : Hypercore S; pending : option Batch }.

Abbreviation method := (act Hyperbee (Error E)).

(** A call of a method of the core. *)
Definition on_core {A} (m : act (Hypercore S) (Error E) A) : method A := λ b,
  '(c, r) ← m (core b); Done (mkBee c (pending b), r).

Definition new (author : Identity.SecretKey) (store : S) : Hyperbee :=
  mkBee (Hypercore.new author store) None.

Definition version (b : Hyperbee) : N := len (core b).
Definition is_empty (b : Hyperbee) : bool := len (core b) =? 0.

(** [n.checked_sub(1)]. *)
Definition checked_pred (n : N) : option N := if n =? 0 then None else Some (n - 1).

Definition node (b : Hyperbee) (seq : N) : result (Error E) Node :=
  match pending b with
  | Some bt =>
      if base bt <=? seq then v ← batch_get (core b) bt seq; ok_or Corrupt v
      else v ← get (core b) seq; ok_or Corrupt v
  | None => v ← get (core b) seq; ok_or Corrupt v
  end.
Definition read (seq : N) : method Node := asks (λ b, node b seq).

Definition root_seq (b : Hyperbee) : option N :=
  match pending b with
  | Some bt =>
      let staged := N.of_nat (Batch_staged bt) in
      if 0 <? staged then Some (wsub64 (wrap64 (base bt + staged)) 1) else checked_pred (len (core b))
  | None => checked_pred (len (core b))
  end.

Definition append_node (n : Node) : method N := λ b,
  match pending b with
  | Some bt =>
      let bt := stage bt n in
      let seq := wsub64 (wrap64 (base bt + N.of_nat (Batch_staged bt))) 1 in
      Done (mkBee (core b) (Some bt), Ok seq)
  | None => on_core (append n) b
  end.

(** ** Reading *)

Definition hang {A} : method A := λ _, OutOfFuel.

Fixpoint get_from (fuel : nat) (seq : N) (key : bytes) : method (option bytes) :=
  match fuel with
  | O => hang
  | Datatypes.S fuel' =>
      n ← read seq;
      match search (entries n) key with
      | Ok i => e ← runs (Vec.get (entries n) i); mret (Some e.2)
      | Err i =>
          if is_leaf n then mret None
          else c ← runs (Vec.get (children n) i); get_from fuel' c key
      end
  end.
Definition depth (seq : N) : nat := Datatypes.S (N.to_nat seq).

Definition get_at_root (root : option N) (key : bytes) : method (option bytes) :=
  match root with Some r => get_from (depth r) r key | None => mret None end.
Definition get (key : bytes) : method (option bytes) :=
  root ← reads root_seq; get_at_root root key.

Definition root_at (b : Hyperbee) (version_ : N) : option N := checked_pred (N.min version_ (version b)).
Definition get_at (version_ : N) (key : bytes) : method (option bytes) :=
  root ← reads (λ b, root_at b version_); get_at_root root key.

(** In-order traversal, appended to [out]: [collect_slots] is the loop over the
    entries of an internal node. *)
Fixpoint collect_slots (visit : N -> list entry -> method (list entry)) (n : Node) (slots : list nat)
    (out : list entry) : method (list entry) :=
  match slots with
  | [] => mret out
  | i :: slots =>
      c ← runs (Vec.get (children n) i);
      out ← visit c out;
      e ← runs (Vec.get (entries n) i);
      collect_slots visit n slots (out ++ [e])
  end.
Fixpoint collect (fuel : nat) (seq : N) (out : list entry) : method (list entry) :=
  match fuel with
  | O => hang
  | Datatypes.S fuel' =>
      n ← read seq;
      if is_leaf n then mret (out ++ entries n)
      else
        out ← collect_slots (collect fuel') n (List.seq 0 (length (entries n))) out;
        c ← runs (Vec.get (children n) (length (entries n)));
        collect fuel' c out
  end.

Definition range_from (root : option N) (bounds : Range) : method (list entry) :=
  out ← match root with Some r => collect (depth r) r [] | None => mret [] end;
  mret (select bounds out).
Definition range (bounds : Range) : method (list entry) :=
  root ← reads root_seq; range_from root bounds.
Definition range_at (version_ : N) (bounds : Range) : method (list entry) :=
  root ← reads (λ b, root_at b version_); range_from root bounds.

Definition peek (bounds : Range) : method (option entry) :=
  root ← reads root_seq;
  out ← range_from root (mkRange (gt bounds) (gte bounds) (lt bounds) (lte bounds) (reverse bounds) (Some 1));
  mret (hd_error out).

(** ** Checkouts, differences, history *)

Record Checkout := mkCheckout { co_root : option N; co_version : N }.
Definition checkout (b : Hyperbee) (version_ : N) : Checkout :=
  let v := N.min version_ (version b) in mkCheckout (checked_pred v) v.
Definition Checkout_get (co : Checkout) (key : bytes) : method (option bytes) :=
  get_at_root (co_root co) key.
Definition Checkout_range (co : Checkout) (bounds : Range) : method (list entry) :=
  range_from (co_root co) bounds.

Abbreviation change := (bytes * option bytes * option bytes)%type.

(** The merge of two sorted listings; a round consumes an entry at least. *)
Fixpoint diff_loop (fuel : nat) (a b : list entry) (out : list change) : list change :=
  match fuel with
  | O => out
  | Datatypes.S fuel' =>
      match a, b with
      | (ka, va) :: a', (kb, vb) :: b' =>
          match bytes_cmp ka kb with
          | Lt => diff_loop fuel' a' b (out ++ [(ka, Some va, None)])
          | Gt => diff_loop fuel' a b' (out ++ [(kb, None, Some vb)])
          | Eq => diff_loop fuel' a' b' (if bool_decide (va = vb) then out else out ++ [(ka, Some va, Some vb)])
          end
      | (ka, va) :: a', [] => diff_loop fuel' a' [] (out ++ [(ka, Some va, None)])
      | [], (kb, vb) :: b' => diff_loop fuel' [] b' (out ++ [(kb, None, Some vb)])
      | [], [] => out
      end
  end.
Definition diff (old new_ : N) : method (list change) :=
  a ← range_at old Range_default;
  b ← range_at new_ Range_default;
  mret (diff_loop (length a + length b) a b []).

Fixpoint referenced_loop (l : list N) (acc : gset N) : method (gset N) :=
  match l with
  | [] => mret acc
  | seq :: l => n ← read seq; referenced_loop l (acc ∪ list_to_set (children n))
  end.
Fixpoint history_loop (roots : list N) (prev : N) (out : list (bytes * option bytes))
    : method (list (bytes * option bytes)) :=
  match roots with
  | [] => mret out
  | r :: roots =>
      let v := r + 1 in
      d ← diff prev v;
      history_loop roots v (out ++ ((λ c : change, (c.1.1, c.2)) <$> d))
  end.
Definition history : method (list (bytes * option bytes)) :=
  n ← reads version;
  if n =? 0 then mret []
  else
    referenced ← referenced_loop (rangeN 0 n) ∅;
    history_loop (filter (λ s, s ∉ referenced) (rangeN 0 n)) 0 [].

(** ** Inserting *)

Definition finish (n : Node) : method Ins :=
  if (length (entries n) <? MAX_CHILDREN)%nat then s ← append_node n; mret (Ins_Down s)
  else
    let mid := (length (entries n) / 2)%nat in
    '(es, right_entries) ← runs (Vec.split_off (entries n) (Datatypes.S mid));
    '(median, es) ← runs (Vec.pop es);
    '(cs, right_children) ←
      (if is_leaf n then mret (children n, []) else runs (Vec.split_off (children n) (Datatypes.S mid)));
    l ← append_node (mkNode es cs);
    r ← append_node (mkNode right_entries right_children);
    mret (Ins_Split l median r).

Fixpoint insert (fuel : nat) (seq : N) (key value : bytes) : method Ins :=
  match fuel with
  | O => hang
  | Datatypes.S fuel' =>
      n ← read seq;
      match search (entries n) key with
      | Ok i =>
          e ← runs (Vec.get (entries n) i);
          es ← runs (Vec.set (entries n) i (e.1, value));
          s ← append_node (mkNode es (children n));
          mret (Ins_Down s)
      | Err i =>
          if is_leaf n then
            es ← runs (Vec.insert (entries n) i (key, value));
            finish (mkNode es (children n))
          else
            c ← runs (Vec.get (children n) i);
            ins ← insert fuel' c key value;
            match ins with
            | Ins_Down child =>
                cs ← runs (Vec.set (children n) i child);
                s ← append_node (mkNode (entries n) cs);
                mret (Ins_Down s)
            | Ins_Split l median r =>
                cs ← runs (Vec.set (children n) i l);
                es ← runs (Vec.insert (entries n) i median);
                cs ← runs (Vec.insert cs (Datatypes.S i) r);
                finish (mkNode es cs)
            end
      end
  end.

Definition put (key value : bytes) : method unit :=
  root ← reads root_seq;
  match root with
  | None => _ ← append_node (mkNode [(key, value)] []); mret tt
  | Some root =>
      ins ← insert (depth root) root key value;
      match ins with
      | Ins_Split l median r => _ ← append_node (mkNode [median] [l; r]); mret tt
      | Ins_Down _ => mret tt
      end
  end.

Definition put_cas (key value : bytes) (expected : option bytes) : method bool :=
  cur ← get key;
  if negb (bool_decide (cur = expected)) then mret false
  else _ ← put key value; mret true.

(** ** Deleting *)

(** The smallest (largest) number of keys a leaf at the edge of a subtree holds. *)
Fixpoint boundary_leaf_loop (fuel : nat) (n : Node) (leftmost : bool) : method nat :=
  if is_leaf n then mret (length (entries n))
  else
    match fuel with
    | O => hang
    | Datatypes.S fuel' =>
        c ← runs (if leftmost then Vec.get (children n) 0 else expect (last (children n)));
        n ← read c;
        boundary_leaf_loop fuel' n leftmost
    end.
Definition boundary_leaf_len (seq : N) (leftmost : bool) : method nat :=
  n ← read seq; boundary_leaf_loop (depth seq) n leftmost.

Definition borrow_left (n : Node) (i : nat) (sib : Node) : method Node :=
  c ← runs (Vec.get (children n) i);
  child ← read c;
  sep ← runs (Vec.get (entries n) (pred i));
  ces ← runs (Vec.insert (entries child) 0 sep);
  '(scs, ccs) ←
    (if is_leaf sib then mret (children sib, children child)
     else
       '(moved, scs) ← runs (Vec.pop (children sib));
       ccs ← runs (Vec.insert (children child) 0 moved);
       mret (scs, ccs));
  '(up, ses) ← runs (Vec.pop (entries sib));
  es ← runs (Vec.set (entries n) (pred i) up);
  s ← append_node (mkNode ses scs);
  cs ← runs (Vec.set (children n) (pred i) s);
  s ← append_node (mkNode ces ccs);
  cs ← runs (Vec.set cs i s);
  mret (mkNode es cs).

Definition borrow_right (n : Node) (i : nat) (sib : Node) : method Node :=
  c ← runs (Vec.get (children n) i);
  child ← read c;
  sep ← runs (Vec.get (entries n) i);
  let ces := entries child ++ [sep] in
  '(scs, ccs) ←
    (if is_leaf sib then mret (children sib, children child)
     else
       '(moved, scs) ← runs (Vec.remove (children sib) 0);
       mret (scs, children child ++ [moved]));
  '(up, ses) ← runs (Vec.remove (entries sib) 0);
  es ← runs (Vec.set (entries n) i up);
  s ← append_node (mkNode ces ccs);
  cs ← runs (Vec.set (children n) i s);
  s ← append_node (mkNode ses scs);
  cs ← runs (Vec.set cs (Datatypes.S i) s);
  mret (mkNode es cs).

Definition merge_child (n : Node) (i : nat) : method Node :=
  let '(li, ri) := if (0 <? i)%nat then (pred i, i) else (i, Datatypes.S i) in
  c ← runs (Vec.get (children n) li);
  l ← read c;
  c ← runs (Vec.get (children n) ri);
  r ← read c;
  sep ← runs (Vec.get (entries n) li);
  merged ← append_node (mkNode (entries l ++ [sep] ++ entries r) (children l ++ children r));
  '(_, es) ← runs (Vec.remove (entries n) li);
  '(_, cs) ← runs (Vec.remove (children n) ri);
  cs ← runs (Vec.set cs li merged);
  mret (mkNode es cs).

(** The node that is left when the under-full child [i] was given a key by a
    sibling, or merged with one: the left sibling is asked first. *)
Definition try_right (n : Node) (i : nat) : method Node :=
  if (Datatypes.S i <? length (children n))%nat then
    c ← runs (Vec.get (children n) (Datatypes.S i));
    sib ← read c;
    if (MIN_KEYS <? length (entries sib))%nat then borrow_right n i sib else merge_child n i
  else merge_child n i.
Definition rebalance (n : Node) (i : nat) : method Node :=
  if (0 <? i)%nat then
    c ← runs (Vec.get (children n) (pred i));
    sib ← read c;
    if (MIN_KEYS <? length (entries sib))%nat then borrow_left n i sib else try_right n i
  else try_right n i.

Definition rebalance_if (under : bool) (n : Node) (i : nat) : method Node :=
  if under then rebalance n i else mret n.

(** Append the node and say whether it is under-full. *)
Definition seal (n : Node) : method (N * bool) :=
  let under := (length (entries n) <? MIN_KEYS)%nat in
  s ← append_node n;
  mret (s, under).

Definition refit (n : Node) (i : nat) (child_under : bool) : method (N * bool) :=
  n ← rebalance_if child_under n i; seal n.

Definition fix_child (n : Node) (i : nat) (child_under : bool) : method Del :=
  '(s, under) ← refit n i child_under;
  mret (Del_Down s under).

Fixpoint delete_min (fuel : nat) (seq : N) : method (entry * N * bool) :=
  match fuel with
  | O => hang
  | Datatypes.S fuel' =>
      n ← read seq;
      if is_leaf n then
        '(min, es) ← runs (Vec.remove (entries n) 0);
        '(s, under) ← seal (mkNode es (children n));
        mret (min, s, under)
      else
        c ← runs (Vec.get (children n) 0);
        '(min, new_child, child_under) ← delete_min fuel' c;
        cs ← runs (Vec.set (children n) 0 new_child);
        '(s, under) ← refit (mkNode (entries n) cs) 0 child_under;
        mret (min, s, under)
  end.

Fixpoint delete_max (fuel : nat) (seq : N) : method (entry * N * bool) :=
  match fuel with
  | O => hang
  | Datatypes.S fuel' =>
      n ← read seq;
      if is_leaf n then
        '(max, es) ← runs (Vec.pop (entries n));
        '(s, under) ← seal (mkNode es (children n));
        mret (max, s, under)
      else
        let last := pred (length (children n)) in
        c ← runs (Vec.get (children n) last);
        '(max, new_child, child_under) ← delete_max fuel' c;
        cs ← runs (Vec.set (children n) last new_child);
        '(s, under) ← refit (mkNode (entries n) cs) last child_under;
        mret (max, s, under)
  end.

(** Replace the separator [i] by a neighbour from the fuller side. *)
Definition replace_separator (n : Node) (i : nat) : method Del :=
  left_child ← runs (Vec.get (children n) i);
  right_child ← runs (Vec.get (children n) (Datatypes.S i));
  ls ← boundary_leaf_len left_child false;
  rs ← boundary_leaf_len right_child true;
  if (ls <? rs)%nat then
    '(succ, new_right, under) ← delete_min (depth right_child) right_child;
    es ← runs (Vec.set (entries n) i succ);
    cs ← runs (Vec.set (children n) (Datatypes.S i) new_right);
    fix_child (mkNode es cs) (Datatypes.S i) under
  else
    '(pred_, new_left, under) ← delete_max (depth left_child) left_child;
    es ← runs (Vec.set (entries n) i pred_);
    cs ← runs (Vec.set (children n) i new_left);
    fix_child (mkNode es cs) i under.

Fixpoint delete (fuel : nat) (seq : N) (key : bytes) : method Del :=
  match fuel with
  | O => hang
  | Datatypes.S fuel' =>
      n ← read seq;
      match search (entries n) key with
      | Ok i =>
          if is_leaf n then
            '(_, es) ← runs (Vec.remove (entries n) i);
            '(s, under) ← seal (mkNode es (children n));
            mret (Del_Down s under)
          else replace_separator n i
      | Err i =>
          if is_leaf n then mret NotFound
          else
            c ← runs (Vec.get (children n) i);
            d ← delete fuel' c key;
            match d with
            | NotFound => mret NotFound
            | Del_Down child underflow =>
                cs ← runs (Vec.set (children n) i child);
                fix_child (mkNode (entries n) cs) i underflow
            end
      end
  end.

Definition del (key : bytes) : method bool :=
  root ← reads root_seq;
  match root with
  | None => mret false
  | Some root =>
      d ← delete (depth root) root key;
      match d with
      | NotFound => mret false
      | Del_Down s _ =>
          n ← read s;
          _ ← (if bool_decide (entries n = []) && negb (is_leaf n) then
                 c ← runs (Vec.get (children n) 0);
                 child ← read c;
                 _ ← append_node child;
                 mret tt
               else mret tt);
          mret true
      end
  end.

Definition del_cas (key : bytes) (expected : option bytes) : method bool :=
  cur ← get key;
  if negb (bool_decide (cur = expected)) then mret false else del key.

(** ** Sub-databases: the keys under a prefix *)

Definition Sub_put (prefix key value : bytes) : method unit := put (prefix ++ key) value.
Definition Sub_get (prefix key : bytes) : method (option bytes) := get (prefix ++ key).
Definition Sub_del (prefix key : bytes) : method bool := del (prefix ++ key).

(** [p.pop()] until the last byte is below [0xff]: [rp] is the prefix reversed. *)
Fixpoint successor_loop (rp : bytes) : option bytes :=
  match rp with
  | [] => None
  | b :: rp' => if bval b <? 255 then Some (rev (byte_of (bval b + 1) :: rp')) else successor_loop rp'
  end.
Definition prefix_successor (prefix : bytes) : option bytes := successor_loop (rev prefix).

Definition or_else {A} (o : option A) (d : option A) : option A :=
  match o with Some _ => o | None => d end.

Definition sub_bounds (p : bytes) (bounds : Range) : Range :=
  let lower_given := bool_decide (is_Some (gt bounds)) || bool_decide (is_Some (gte bounds)) in
  let upper_given := bool_decide (is_Some (lt bounds)) || bool_decide (is_Some (lte bounds)) in
  mkRange (app p <$> gt bounds)
    (or_else (app p <$> gte bounds) (if lower_given then None else Some p))
    (or_else (app p <$> lt bounds) (if upper_given then None else prefix_successor p))
    (app p <$> lte bounds) (reverse bounds) (limit bounds).

(** [k[n..].to_vec()]. *)
Definition strip (n : nat) (e : entry) : run entry :=
  if (n <=? length e.1)%nat then Done (drop n e.1, e.2) else Panic.

Definition Sub_range (prefix : bytes) (bounds : Range) : method (list entry) :=
  out ← range (sub_bounds prefix bounds);
  runs (mapM (strip (length prefix)) out).

(** ** Batches *)

Definition begin_batch : method unit := modify (λ b, mkBee (core b) (Some (batch (core b)))).
Definition drop_batch : method unit := modify (λ b, mkBee (core b) None).
Definition take_pending : method (option Batch) := λ b, Done (mkBee (core b) None, Ok (pending b)).

(** [commit] takes the batch out, so the drop at its end finds none. *)
Definition BeeBatch_commit : method unit :=
  bt ← take_pending;
  match bt with
  | Some bt => _ ← on_core (commit bt); mret tt
  | None => mret tt
  end.

(** ** The lazy iterator

    The stack is kept with its top first; [next] returns the iterator it leaves.
    A call does as many rounds as it visits slots, which the caller bounds. *)

Record RangeIter := mkIter {
  it_stack : list (Node * nat); it_start : option N; it_bounds : Range;
  it_remaining : option N; it_done : bool }.

Definition iter (b : Hyperbee) (bounds : Range) : RangeIter :=
  mkIter [] (root_seq b) bounds (limit bounds) false.

Definition stop (it : RangeIter) : RangeIter :=
  mkIter (it_stack it) (it_start it) (it_bounds it) (it_remaining it) true.
Definition set_stack (it : RangeIter) (st : list (Node * nat)) : RangeIter :=
  mkIter st (it_start it) (it_bounds it) (it_remaining it) (it_done it).
Definition dec_limit (it : RangeIter) : RangeIter :=
  match it_remaining it with
  | Some r =>
      let r := wsub64 r 1 in
      mkIter (it_stack it) (it_start it) (it_bounds it) (Some r) (if r =? 0 then true else it_done it)
  | None => it
  end.

Abbreviation item := (result (Error E) entry).

Fixpoint next_loop (fuel : nat) (b : Hyperbee) (it : RangeIter) : run (RangeIter * option item) :=
  match fuel with
  | O => OutOfFuel
  | Datatypes.S fuel' =>
      match it_stack it with
      | [] => Done (stop it, None)
      | (n, slot) :: st =>
          let len := length (entries n) in
          if is_leaf n then
            if (len <=? slot)%nat then next_loop fuel' b (set_stack it st)
            else
              let it := set_stack it ((n, Datatypes.S slot) :: st) in
              e ← Vec.get (entries n) (if reverse (it_bounds it) then len - 1 - slot else slot);
              if in_bounds (it_bounds it) e.1 then Done (dec_limit it, Some (Ok e)) else next_loop fuel' b it
          else if (2 * len <? slot)%nat then next_loop fuel' b (set_stack it st)
          else
            let it := set_stack it ((n, Datatypes.S slot) :: st) in
            let k := (slot / 2)%nat in
            if (slot mod 2 =? 0)%nat then
              c ← Vec.get (children n) (if reverse (it_bounds it) then len - k else k);
              match node b c with
              | Ok child => next_loop fuel' b (set_stack it ((child, 0%nat) :: it_stack it))
              | Err e => Done (stop it, Some (Err e))
              end
            else
              e ← Vec.get (entries n) (if reverse (it_bounds it) then len - 1 - k else k);
              if in_bounds (it_bounds it) e.1 then Done (dec_limit it, Some (Ok e)) else next_loop fuel' b it
      end
  end.

Definition next (fuel : nat) (b : Hyperbee) (it : RangeIter) : run (RangeIter * option item) :=
  if it_done it then Done (it, None)
  else if bool_decide (it_remaining it = Some 0) then Done (stop it, None)
  else
    let unseeded := mkIter (it_stack it) None (it_bounds it) (it_remaining it) (it_done it) in
    match it_start it with
    | Some root =>
        match node b root with
        | Ok n => next_loop fuel b (set_stack unseeded ((n, 0%nat) :: it_stack it))
        | Err e => Done (stop unseeded, Some (Err e))
        end
    | None => next_loop fuel b unseeded
    end.
End Bee.

#[global] Arguments Hyperbee {_} S.
End Hyperbee.
