(* ===== verification/HyperbeeSpec.v ===== *)
(** * [hyperbee]: sorted listings

    What a tree stands for: a list of entries with strictly increasing keys, the
    listing of a map.  Inserting, deleting and looking up are defined on listings;
    a key splits a listing into what is below it and what is above it; and binary
    search over a sorted slice finds the split. *)
From S2P Require Import Prelude Hyperbee.

Module HyperbeeSpec.
Import Hyperbee.

(** ** Vectors *)

Section Vectors.
Context {A : Type}.
Implicit Types (l : list A) (x y : A).

Lemma vec_get l1 x l2 : Vec.get (l1 ++ x :: l2) (length l1) = Done x.
Proof. unfold Vec.get. by rewrite list_lookup_middle. Qed.
Lemma vec_set l1 x y l2 : Vec.set (l1 ++ x :: l2) (length l1) y = Done (l1 ++ y :: l2).
Proof.
  unfold Vec.set. rewrite length_app. cbn [length].
  destruct (Nat.ltb_spec (length l1) (length l1 + S (length l2))); [|lia].
  by rewrite insert_app_r_alt, Nat.sub_diag by lia.
Qed.
Lemma vec_insert l1 x l2 : Vec.insert (l1 ++ l2) (length l1) x = Done (l1 ++ x :: l2).
Proof.
  unfold Vec.insert. rewrite length_app. destruct (Nat.leb_spec (length l1) (length l1 + length l2)); [|lia].
  by rewrite take_app_length, drop_app_length.
Qed.
Lemma vec_remove l1 x l2 : Vec.remove (l1 ++ x :: l2) (length l1) = Done (x, l1 ++ l2).
Proof.
  unfold Vec.remove. rewrite vec_get. rsimpl. rewrite take_app_length.
  by rewrite <- Nat.add_1_r, drop_app_add.
Qed.
Lemma vec_pop l x : Vec.pop (l ++ [x]) = Done (x, l).
Proof.
  unfold Vec.pop. rewrite last_snoc, length_app. cbn. by rewrite Nat.add_1_r; cbn; rewrite take_app_length.
Qed.
Lemma vec_split_off l1 l2 : Vec.split_off (l1 ++ l2) (length l1) = Done (l1, l2).
Proof.
  unfold Vec.split_off. rewrite length_app. destruct (Nat.leb_spec (length l1) (length l1 + length l2)); [|lia].
  by rewrite take_app_length, drop_app_length.
Qed.

(** The same at an index that is the length of what comes before, and one after. *)
Lemma vec_get_at l1 x l2 i : i = length l1 -> Vec.get (l1 ++ x :: l2) i = Done x.
Proof. intros ->. apply vec_get. Qed.
Lemma vec_set_at l1 x y l2 i : i = length l1 -> Vec.set (l1 ++ x :: l2) i y = Done (l1 ++ y :: l2).
Proof. intros ->. apply vec_set. Qed.
Lemma vec_insert_at l1 x l2 i : i = length l1 -> Vec.insert (l1 ++ l2) i x = Done (l1 ++ x :: l2).
Proof. intros ->. apply vec_insert. Qed.
Lemma vec_remove_at l1 x l2 i : i = length l1 -> Vec.remove (l1 ++ x :: l2) i = Done (x, l1 ++ l2).
Proof. intros ->. apply vec_remove. Qed.
Lemma vec_get_next l1 y x l2 i : i = S (length l1) -> Vec.get (l1 ++ y :: x :: l2) i = Done x.
Proof. intros ->. rewrite (cons_middle y), app_assoc. apply vec_get_at. rewrite length_app. cbn. lia. Qed.
Lemma vec_set_next l1 y x z l2 i : i = S (length l1) -> Vec.set (l1 ++ y :: x :: l2) i z = Done (l1 ++ y :: z :: l2).
Proof.
  intros ->. rewrite (cons_middle y), app_assoc, (vec_set_at (l1 ++ [y])); [by rewrite <- app_assoc|].
  rewrite length_app. cbn. lia.
Qed.
Lemma vec_insert_next l1 y x l2 i : i = S (length l1) -> Vec.insert (l1 ++ y :: l2) i x = Done (l1 ++ y :: x :: l2).
Proof.
  intros ->. rewrite (cons_middle y), app_assoc, (vec_insert_at (l1 ++ [y])); [by rewrite <- app_assoc|].
  rewrite length_app. cbn. lia.
Qed.
Lemma vec_remove_next l1 y x l2 i : i = S (length l1) -> Vec.remove (l1 ++ y :: x :: l2) i = Done (x, l1 ++ y :: l2).
Proof.
  intros ->. rewrite (cons_middle y), app_assoc, (vec_remove_at (l1 ++ [y])); [by rewrite <- app_assoc|].
  rewrite length_app. cbn. lia.
Qed.

(** A list cut at a position, and at an element. *)
Lemma cut l n : (n <= length l)%nat -> exists l1 l2, l = l1 ++ l2 /\ length l1 = n.
Proof. intros Hn. exists (take n l), (drop n l). by rewrite take_drop, length_take_le. Qed.
Lemma cut_at l n : (n < length l)%nat -> exists l1 x l2, l = l1 ++ x :: l2 /\ length l1 = n.
Proof.
  intros Hn. destruct (lookup_lt_is_Some_2 l n Hn) as [x Hx].
  exists (take n l), x, (drop (S n) l). split; [by rewrite take_drop_middle|]. rewrite length_take_le; lia.
Qed.
End Vectors.

(** ** The order of keys *)

Definition klt (a b : bytes) : Prop := bytes_cmp a b = Lt.

#[export] Instance klt_trans : Transitive klt.
Proof. intros a b c. apply bytes_cmp_lt_trans. Qed.
#[export] Instance klt_irrefl : Irreflexive klt.
Proof. intros a. unfold complement, klt. by rewrite bytes_cmp_refl. Qed.
Lemma klt_gt a b : bytes_cmp a b = Gt <-> klt b a.
Proof. unfold klt. rewrite (bytes_cmp_antisym a b). by destruct (bytes_cmp a b). Qed.
Lemma klt_ne a b : klt a b -> a <> b.
Proof. intros Hl ->. by apply (klt_irrefl b). Qed.

Definition below (k : bytes) : list entry -> Prop := Forall (λ e, klt e.1 k).
Definition above (k : bytes) : list entry -> Prop := Forall (λ e, klt k e.1).
Definition ordered : list entry -> Prop := StronglySorted (λ a b : entry, klt a.1 b.1).

Lemma below_elem k l e : below k l -> e ∈ l -> klt e.1 k.
Proof. intros Hl He. by apply (proj1 (Forall_forall _ _) Hl). Qed.
Lemma above_elem k l e : above k l -> e ∈ l -> klt k e.1.
Proof. intros Hl He. by apply (proj1 (Forall_forall _ _) Hl). Qed.

Lemma ordered_app a b :
  ordered (a ++ b) <-> ordered a /\ ordered b /\ forall x y, x ∈ a -> y ∈ b -> klt x.1 y.1.
Proof.
  unfold ordered. induction a as [|x a IH]; cbn.
  - split; [|by intros (_ & ? & _)]. intros Hb. split_and!; [constructor|done|]. by intros x y ?%elem_of_nil.
  - split.
    + intros [Ha Hf]%StronglySorted_inv. apply IH in Ha as (Ha & Hb & Hab). apply Forall_app in Hf as [Hf1 Hf2].
      split_and!; [by constructor|done|]. intros y z [->|Hy]%elem_of_cons Hz; [|by apply Hab].
      rewrite Forall_forall in Hf2. by apply Hf2.
    + intros ([Ha Hf]%StronglySorted_inv & Hb & Hab). constructor.
      * apply IH. split_and!; [done..|]. intros y z Hy Hz. apply Hab; [by right|done].
      * apply Forall_app. split; [done|]. apply Forall_forall. intros z Hz. apply Hab; [by left|done].
Qed.

Lemma ordered_cons e l : ordered (e :: l) <-> above e.1 l /\ ordered l.
Proof.
  split; [by intros [??]%StronglySorted_inv|]. intros [Ha Ho]. by constructor.
Qed.
Lemma ordered_mid a e b :
  ordered (a ++ e :: b) <-> ordered a /\ ordered b /\ below e.1 a /\ above e.1 b.
Proof.
  rewrite ordered_app, ordered_cons. split.
  - intros (Ha & (Hb & Ho) & Hab). split_and!; [done..| |done].
    apply Forall_forall. intros x Hx. apply Hab; [done|by left].
  - intros (Ha & Hb & Hl & Hu). split_and!; [done..|]. unfold below, above in *. rewrite Forall_forall in Hl, Hu.
    intros x y Hx [->|Hy]%elem_of_cons; [by apply Hl|]. etrans; [by apply Hl|by apply Hu].
Qed.

Lemma below_trans k k' l : below k l -> klt k k' -> below k' l.
Proof. intros Hl Hk. eapply Forall_impl; [exact Hl|]. cbn. intros e He. by etrans. Qed.
Lemma above_trans k k' l : above k l -> klt k' k -> above k' l.
Proof. intros Hl Hk. eapply Forall_impl; [exact Hl|]. cbn. intros e He. by etrans. Qed.

(** ** Listings as maps *)

Definition to_map (l : list entry) : gmap bytes bytes := list_to_map l.

(** The reference operations. *)
Fixpoint kv_insert (k v : bytes) (l : list entry) : list entry :=
  match l with
  | [] => [(k, v)]
  | e :: l' =>
      match bytes_cmp e.1 k with
      | Lt => e :: kv_insert k v l'
      | Eq => (k, v) :: l'
      | Gt => (k, v) :: l
      end
  end.
Definition kv_delete (k : bytes) (l : list entry) : list entry := filter (λ e : entry, e.1 <> k) l.

Lemma kv_insert_below k v l r : below k l -> kv_insert k v (l ++ r) = l ++ kv_insert k v r.
Proof.
  induction l as [|e l IH]; [done|]. intros [He Hl]%Forall_cons. cbn. unfold klt in He. by rewrite He, IH.
Qed.
Lemma kv_insert_above k v r x : above k r -> kv_insert k v (x ++ r) = kv_insert k v x ++ r.
Proof.
  intros Hr. induction x as [|e x IH]; cbn.
  - destruct r as [|f r]; [done|]. apply Forall_cons in Hr as [Hf _]. cbn. by apply klt_gt in Hf as ->.
  - rewrite IH. by destruct (bytes_cmp e.1 k).
Qed.
Lemma kv_insert_mid k v l x r :
  below k l -> above k r -> kv_insert k v (l ++ x ++ r) = l ++ kv_insert k v x ++ r.
Proof. intros Hl Hr. by rewrite kv_insert_below, kv_insert_above. Qed.
Lemma kv_insert_same k v w l r : below k l -> kv_insert k v (l ++ (k, w) :: r) = l ++ (k, v) :: r.
Proof. intros Hl. rewrite kv_insert_below by done. cbn. by rewrite bytes_cmp_refl. Qed.
Lemma kv_insert_new k v l r : below k l -> above k r -> kv_insert k v (l ++ r) = l ++ (k, v) :: r.
Proof. intros Hl Hr. by apply (kv_insert_mid k v l [] r). Qed.

Lemma kv_delete_out k l : below k l \/ above k l -> kv_delete k l = l.
Proof.
  intros Hl. unfold kv_delete. induction l as [|e l IH]; [done|]. rewrite filter_cons_True.
  - f_equal. apply IH. destruct Hl as [[_ ?]%Forall_cons|[_ ?]%Forall_cons]; auto.
  - destruct Hl as [[He _]%Forall_cons|[He _]%Forall_cons]; cbn in He; apply klt_ne in He; congruence.
Qed.
Lemma kv_delete_mid k l x r :
  below k l -> above k r -> kv_delete k (l ++ x ++ r) = l ++ kv_delete k x ++ r.
Proof.
  intros Hl Hr. unfold kv_delete. rewrite !filter_app. fold (kv_delete k l) (kv_delete k x) (kv_delete k r).
  by rewrite (kv_delete_out k l), (kv_delete_out k r) by auto.
Qed.
Lemma kv_delete_key k v l r : below k l -> above k r -> kv_delete k (l ++ (k, v) :: r) = l ++ r.
Proof.
  intros Hl Hr. change (l ++ (k, v) :: r) with (l ++ [(k, v)] ++ r). rewrite kv_delete_mid by done.
  unfold kv_delete. by rewrite filter_cons_False by (cbn; auto).
Qed.

Lemma insert_ordered k v l : ordered l -> ordered (kv_insert k v l).
Proof.
  induction l as [|e l IH]; intros Ho; cbn.
  - repeat constructor.
  - apply ordered_cons in Ho as [Ha Ho]. destruct (bytes_cmp e.1 k) eqn:Ec.
    + apply bytes_cmp_eq in Ec as <-. by apply ordered_cons.
    + apply ordered_cons. split; [|by apply IH]. clear IH. induction l as [|f l IHl]; cbn.
      * by repeat constructor.
      * apply ordered_cons in Ho as [Hf Ho]. apply Forall_cons in Ha as [Hef Ha].
        destruct (bytes_cmp f.1 k); repeat constructor; try done. by apply IHl.
    + apply klt_gt in Ec. apply ordered_cons. split; [|by apply ordered_cons].
      constructor; [done|]. by eapply above_trans.
Qed.
Lemma delete_ordered k l : ordered l -> ordered (kv_delete k l).
Proof.
  unfold kv_delete. induction l as [|e l IH]; intros Ho; [constructor|]. apply ordered_cons in Ho as [Ha Ho].
  rewrite filter_cons. case_decide; [|by apply IH]. apply ordered_cons. split; [|by apply IH].
  apply Forall_forall. intros x [_ Hx]%list_elem_of_filter. by eapply above_elem.
Qed.

Lemma to_map_above k l : above k l -> to_map l !! k = None.
Proof.
  intros Ha. apply not_elem_of_list_to_map_1. intros (e & -> & He)%list_elem_of_fmap.
  by apply (klt_irrefl e.1), (above_elem e.1 l).
Qed.
Lemma to_map_below k l : below k l -> to_map l !! k = None.
Proof.
  intros Ha. apply not_elem_of_list_to_map_1. intros (e & -> & He)%list_elem_of_fmap.
  by apply (klt_irrefl e.1), (below_elem e.1 l).
Qed.
Lemma to_map_app l r k : to_map (l ++ r) !! k = to_map l !! k ∪ to_map r !! k.
Proof. unfold to_map. by rewrite list_to_map_app, lookup_union. Qed.

Lemma to_map_insert k v l : ordered l -> to_map (kv_insert k v l) = <[k := v]> (to_map l).
Proof.
  induction l as [|e l IH]; intros Ho; [done|]. apply ordered_cons in Ho as [Ha Ho]. destruct e as [k' v']. cbn.
  destruct (bytes_cmp k' k) eqn:Ec; cbn.
  - apply bytes_cmp_eq in Ec as ->. by rewrite insert_insert_eq.
  - unfold to_map in IH. rewrite IH by done. apply insert_insert_ne. intros ->. by rewrite bytes_cmp_refl in Ec.
  - done.
Qed.
Lemma to_map_delete k l : ordered l -> to_map (kv_delete k l) = base.delete k (to_map l).
Proof.
  unfold kv_delete. induction l as [|[k' v'] l IH]; intros Ho; [symmetry; apply (delete_empty (M:=gmap bytes))|].
  apply ordered_cons in Ho as [Ha Ho]. rewrite filter_cons. case_decide as Hk; cbn in Hk |- *.
  - unfold to_map in IH. by rewrite IH, delete_insert_ne by auto.
  - subst. by rewrite delete_insert_eq, IH by done.
Qed.

(** An ordered listing is the listing of its map. *)
Lemma ordered_nodup l : ordered l -> NoDup l.*1.
Proof.
  induction l as [|e l IH]; intros Ho; [constructor|]. apply ordered_cons in Ho as [Ha Ho]. cbn.
  constructor; [|by apply IH]. intros (f & Ef & Hf)%list_elem_of_fmap. 
  apply (klt_irrefl f.1). rewrite <- Ef at 1. by eapply above_elem.
Qed.
Lemma ordered_unique l l' : ordered l -> ordered l' -> to_map l = to_map l' -> l = l'.
Proof.
  intros Ho Ho' Em. assert (AntiSymm eq (λ a b : entry, klt a.1 b.1)).
  { intros a b Hab Hba. destruct (klt_irrefl a.1). by etrans. }
  eapply (StronglySorted_unique (λ a b : entry, klt a.1 b.1)); [done..|].
  apply NoDup_Permutation; [by eapply NoDup_fmap_1, ordered_nodup..|].
  intros [k v]. unfold to_map in Em.
  by rewrite !(elem_of_list_to_map (M:=gmap bytes)), Em by (by apply ordered_nodup).
Qed.
Lemma bmap_ordered (m : gmap bytes bytes) : ordered (bmap_list m).
Proof.
  pose proof (bmap_list_nodup m) as Hn. assert (Hs : StronglySorted key_le (bmap_list m).*1).
  { rewrite bmap_list_keys. apply bset_list_sorted. }
  induction (bmap_list m) as [|e l IH]; [constructor|]. cbn in Hn, Hs.
  apply NoDup_cons in Hn as [He Hn]. apply StronglySorted_inv in Hs as [Hs Hf]. apply ordered_cons.
  split; [|by apply IH]. apply Forall_forall. intros f Hin. assert (Hk : f.1 ∈ l.*1) by (by apply list_elem_of_fmap_2).
  rewrite Forall_forall in Hf. specialize (Hf _ Hk). cbn in Hf. unfold bytes_le in Hf. unfold klt.
  destruct (bytes_cmp e.1 f.1) eqn:Ec; [|done..]. apply bytes_cmp_eq in Ec. by rewrite Ec in He.
Qed.
Lemma ordered_listing l : ordered l -> l = bmap_list (to_map l).
Proof. intros Ho. apply ordered_unique; [done|apply bmap_ordered|]. unfold to_map. by rewrite bmap_list_to_map. Qed.

(** ** Binary search *)

Section Search.
Context (n : nat) (cmp : nat -> comparison).
Hypothesis up : forall i j, (i < j < n)%nat -> cmp j <> Gt -> cmp i = Lt.
Hypothesis down : forall i j, (i < j < n)%nat -> cmp i <> Lt -> cmp j = Gt.

(** The window keeps the last element that is not above the key. *)
Lemma search_loop_spec fuel base size :
  (size <= fuel)%nat -> (1 <= size)%nat -> (base + size <= n)%nat ->
  (base = 0%nat \/ cmp base <> Gt) -> (forall j, (base + size <= j < n)%nat -> cmp j = Gt) ->
  let b := Vec.search_loop fuel cmp base size in
  (b < n)%nat /\ (b = 0%nat \/ cmp b <> Gt) /\ forall j, (b < j < n)%nat -> cmp j = Gt.
Proof.
  revert base size. induction fuel as [|fuel IH]; intros base size Hf H1 Hn Hb Ha; [lia|]. cbn [Vec.search_loop].
  destruct (Nat.leb_spec size 1) as [Hs|Hs].
  - cbn zeta. split_and!; [lia|done|]. intros j Hj. apply Ha. lia.
  - assert (size / 2 < size)%nat by (apply Nat.div_lt; lia). assert (1 <= size / 2)%nat by (apply Nat.div_le_lower_bound; lia).
    destruct (cmp (base + size / 2)) eqn:Ec.
    + apply IH; [lia..|right; congruence|]. intros j Hj. apply (Ha j). lia.
    + apply IH; [lia..|right; congruence|]. intros j Hj. apply (Ha j). lia.
    + apply IH; [lia..|done|]. intros j Hj. pose proof (Nat.Div0.mul_div_le size 2). destruct (decide (j = base + size / 2)%nat) as [->|]; [done|].
      apply (down (base + size / 2)); [lia|]. congruence.
Qed.

Lemma binary_search_spec :
  match Vec.binary_search_by n cmp with
  | Ok i => (i < n)%nat /\ cmp i = Eq
  | Err i => (i <= n)%nat /\ (forall j, (j < i)%nat -> cmp j = Lt) /\ forall j, (i <= j < n)%nat -> cmp j = Gt
  end.
Proof.
  unfold Vec.binary_search_by. destruct (Nat.eqb_spec n 0) as [En|En]; [split_and!; intros; lia|].
  destruct (search_loop_spec n 0 n) as (Hb & H0 & Ha); [lia..|by left|intros; lia|].
  set (b := Vec.search_loop _ _ _ _) in *. destruct (cmp b) eqn:Ec; [done| |].
  - split_and!; [lia| |].
    + intros j Hj. destruct (decide (j = b)) as [->|]; [done|]. apply (up j b); [lia|congruence].
    + intros j Hj. apply Ha. lia.
  - destruct H0 as [H0|]; [|done]. split_and!; [lia|intros; lia|].
    intros j Hj. destruct (decide (j = b)) as [->|]; [done|]. apply Ha. lia.
Qed.
End Search.

(** The result of a search in an ordered slice. *)
Definition found (k : bytes) (es : list entry) (r : result nat nat) : Prop :=
  match r with
  | Ok i => exists l v r, es = l ++ (k, v) :: r /\ i = length l /\ below k l /\ above k r
  | Err i => exists l r, es = l ++ r /\ i = length l /\ below k l /\ above k r
  end.

Lemma ordered_lookup es i j a b :
  ordered es -> es !! i = Some a -> es !! j = Some b -> (i < j)%nat -> klt a.1 b.1.
Proof.
  intros Ho Ha Hb Hij. destruct (cut_at es i) as (l & x & r & -> & Hl); [by eapply lookup_lt_Some|].
  rewrite <- Hl, list_lookup_middle in Ha by done. injection Ha as ->. apply ordered_mid in Ho as (_ & _ & _ & Hu).
  rewrite lookup_app_r, lookup_cons_ne_0 in Hb by lia. 
  by eapply above_elem, list_elem_of_lookup_2.
Qed.

Lemma search_spec es k : ordered es -> found k es (search es k).
Proof.
  intros Ho. unfold search. set (cmp := λ i, bytes_cmp (default [] (fst <$> es !! i)) k).
  assert (Hc : forall i e, es !! i = Some e -> cmp i = bytes_cmp e.1 k) by (intros i e He; unfold cmp; by rewrite He).
  assert (Hs : forall i, (i < length es)%nat -> exists e, es !! i = Some e) by (intros i; apply lookup_lt_is_Some_2).
  assert (Hlt : forall i j, (i < j < length es)%nat -> exists a b, cmp i = bytes_cmp a k /\ cmp j = bytes_cmp b k /\ klt a b).
  { intros i j Hij. destruct (Hs i) as [a Ha]; [lia|]. destruct (Hs j) as [b Hb']; [lia|]. exists a.1, b.1.
    split_and!; [by apply Hc..|]. eapply ordered_lookup; [done..|]. lia. }
  pose proof (binary_search_spec (length es) cmp) as Hb.
  match type of Hb with ?P -> ?Q -> _ => assert (Hup : P); [|assert (Hdown : Q)] end.
    { intros p q Hpq Hq. destruct (Hlt p q Hpq) as (a & b & -> & Eq & Hab). rewrite Eq in Hq.
      destruct (bytes_cmp b k) eqn:Eb; [apply bytes_cmp_eq in Eb as <-; done|by apply (klt_trans _ b)|done]. }
    { intros p q Hpq Hp. destruct (Hlt p q Hpq) as (a & b & Ea & -> & Hab). rewrite Ea in Hp. apply klt_gt.
      destruct (bytes_cmp a k) eqn:Eb; [apply bytes_cmp_eq in Eb as <-; done|done|]. apply klt_gt in Eb. by apply (klt_trans _ a). }
  specialize (Hb Hup Hdown).
  destruct Vec.binary_search_by as [i|i]; cbn [found].
  - destruct Hb as [Hi Ei].
    destruct (cut_at es i Hi) as (l & [k' v] & r & -> & Hl). rewrite (Hc i (k', v)) in Ei; [|by apply list_lookup_middle].
    apply bytes_cmp_eq in Ei. cbn in Ei. subst k'. apply ordered_mid in Ho as (_ & _ & Hb & Ha). by exists l, v, r.
  - destruct Hb as (Hi & Hb & Ha).
    destruct (cut es i Hi) as (l & r & -> & Hl). exists l, r. split_and!; [done..| |].
    + apply Forall_lookup. intros j e He. unfold klt. rewrite <- (Hc j e), Hb; [done| |].
      * rewrite <- Hl. by eapply lookup_lt_Some.
      * by apply lookup_app_l_Some.
    + apply Forall_lookup. intros j e He. apply klt_gt. rewrite <- (Hc (i + j)%nat e), Ha; [done| |].
      * pose proof (lookup_lt_Some _ _ _ He). rewrite length_app. lia.
      * rewrite lookup_app_r by lia. by replace (i + j - length l)%nat with j by lia.
Qed.
End HyperbeeSpec.
