(* ===== verification/HyperbeeTree.v ===== *)
(** * [hyperbee]: the trees in a list of nodes

    The blocks of a tree are a list of nodes [ns], a child pointer a position in
    it.  [shape ns h n l] says that the node [n] roots a tree of height [h] whose
    in-order listing is [l], with every node below [n] filled as a B-tree node
    must be.  A node is taken apart at a child into what is left of it, the
    child, and what is right of it ([lhole], [rhole]), and put together again
    with another child; a node is cut at one of its own entries into two nodes
    and joined from two ([shape_cut], [shape_join]). *)
From S2P Require Import Prelude Hyperbee HyperbeeSpec.

Module HyperbeeTree.
Import Hyperbee HyperbeeSpec.

(** ** In-order listings *)

(** The listings of the children of a node between its entries: children before
    the entries, after them, and around them. *)
Fixpoint zl (ks : list (list entry)) (es : list entry) : list entry :=
  match ks, es with k :: ks, e :: es => k ++ e :: zl ks es | _, _ => [] end.
Fixpoint zr (es : list entry) (ks : list (list entry)) : list entry :=
  match es, ks with e :: es, k :: ks => e :: k ++ zr es ks | _, _ => [] end.
Definition flat (es : list entry) (ks : list (list entry)) : list entry :=
  match ks with [] => es | k :: ks => k ++ zr es ks end.

Lemma zl_snoc ks es k e : length ks = length es -> zl (ks ++ [k]) (es ++ [e]) = zl ks es ++ k ++ [e].
Proof.
  revert es. induction ks as [|k' ks IH]; intros [|e' es] Hl; try done. injection Hl as Hl. cbn.
  by rewrite IH, <- app_assoc.
Qed.
Lemma flat_split e1 k1 e2 x k2 :
  length k1 = length e1 -> flat (e1 ++ e2) (k1 ++ x :: k2) = zl k1 e1 ++ x ++ zr e2 k2.
Proof.
  intros Hl. destruct k1 as [|k k1], e1 as [|e e1]; try done. injection Hl as Hl. cbn. rewrite <- app_assoc. f_equal.
  cbn. f_equal. revert e1 k x e Hl. induction k1 as [|k' k1 IH]; intros [|e' e1] k x e Hl; try done.
  injection Hl as Hl. cbn. rewrite <- app_assoc. f_equal. cbn. f_equal. by apply IH.
Qed.
Lemma flat_join e1 k1 s e2 k2 :
  length k1 = S (length e1) -> length k2 = S (length e2) ->
  flat (e1 ++ s :: e2) (k1 ++ k2) = flat e1 k1 ++ s :: flat e2 k2.
Proof.
  intros H1 H2. destruct k2 as [|y k2]; [done|]. destruct (exists_last (l:=k1)) as (k1' & x & ->); [by destruct k1|].
  rewrite length_app in H1. cbn in H1. assert (Hl : length k1' = length e1) by lia.
  replace (flat e1 (k1' ++ [x])) with (flat (e1 ++ []) (k1' ++ [x])) by (by rewrite app_nil_r).
  rewrite <- app_assoc. cbn [app]. rewrite !flat_split by done. cbn. by rewrite app_nil_r, <- !app_assoc.
Qed.

Section Tree.
Implicit Types (ns : list Node) (n : Node) (h lo : nat) (l L R x y : list entry).

Fixpoint shape ns h n l : Prop :=
  match h with
  | O => children n = [] /\ l = entries n
  | S h' =>
      exists ks, length (children n) = S (length (entries n))
        /\ Forall2 (λ c l, exists n', ns !! N.to_nat c = Some n'
             /\ (MIN_KEYS <= length (entries n') < MAX_CHILDREN)%nat /\ shape ns h' n' l) (children n) ks
        /\ l = flat (entries n) ks
  end.

(** The block [c] roots a tree, and its node has at least [lo] keys. *)
Definition sub ns lo h (c : N) l : Prop :=
  exists n, ns !! N.to_nat c = Some n /\ (lo <= length (entries n) < MAX_CHILDREN)%nat /\ shape ns h n l.
Definition kids ns h : list N -> list (list entry) -> Prop := Forall2 (sub ns MIN_KEYS h).

Lemma shape_S ns h n l :
  shape ns (S h) n l <-> exists ks, length (children n) = S (length (entries n))
    /\ kids ns h (children n) ks /\ l = flat (entries n) ks.
Proof. done. Qed.

Lemma sub_weaken ns lo lo' h c l : (lo' <= lo)%nat -> sub ns lo h c l -> sub ns lo' h c l.
Proof. intros Hlo (n & En & Hn & Hs). exists n. split_and!; [done|lia..|done]. Qed.

(** ** More blocks *)

Lemma shape_mono ns ns' h n l : ns `prefix_of` ns' -> shape ns h n l -> shape ns' h n l.
Proof.
  intros Hp. revert n l. induction h as [|h IH]; intros n l; [done|]. intros (ks & Hl & Hk & ->).
  exists ks. split_and!; [done| |done]. eapply Forall2_impl; [exact Hk|]. cbn. intros c l (n' & En & Hn & Hs).
  exists n'. split_and!; [by eapply prefix_lookup_Some|lia..|by apply IH].
Qed.
Lemma sub_mono ns ns' lo h c l : ns `prefix_of` ns' -> sub ns lo h c l -> sub ns' lo h c l.
Proof.
  intros Hp (n & En & Hn & Hs). exists n. split_and!; [by eapply prefix_lookup_Some|lia..|by eapply shape_mono].
Qed.
Lemma kids_mono ns ns' h cs ks : ns `prefix_of` ns' -> kids ns h cs ks -> kids ns' h cs ks.
Proof. intros Hp Hk. eapply Forall2_impl; [exact Hk|]. cbn. intros c l. by apply sub_mono. Qed.

(** ** Cutting and joining at an entry *)

Definition leafy h (cs : list N) (es : list entry) : Prop :=
  match h with O => cs = [] | S _ => length cs = S (length es) end.

Lemma shape_leafy ns h n l : shape ns h n l -> leafy h (children n) (entries n).
Proof. destruct h; [by intros []|]. by intros (ks & ? & _). Qed.
Lemma shape_is_leaf ns h n l : shape ns h n l -> is_leaf n = (h =? 0)%nat.
Proof.
  intros Hs%shape_leafy. unfold is_leaf. destruct h; cbn in *.
  - by apply bool_decide_eq_true.
  - apply bool_decide_eq_false. by destruct (children n).
Qed.

Lemma shape_join ns h e1 c1 l1 s e2 c2 l2 :
  shape ns h (mkNode e1 c1) l1 -> shape ns h (mkNode e2 c2) l2 ->
  shape ns h (mkNode (e1 ++ s :: e2) (c1 ++ c2)) (l1 ++ s :: l2).
Proof.
  destruct h as [|h].
  - cbn. intros [-> ->] [-> ->]. done.
  - rewrite !shape_S. cbn [entries children]. intros (k1 & H1 & Hk1 & ->) (k2 & H2 & Hk2 & ->).
    exists (k1 ++ k2). split_and!.
    + rewrite !length_app. cbn. lia.
    + by apply Forall2_app.
    + rewrite flat_join; [done|..]; rewrite <- ?(Forall2_length _ _ _ Hk1), <- ?(Forall2_length _ _ _ Hk2); done.
Qed.

Lemma shape_cut ns h e1 s e2 cs l :
  shape ns h (mkNode (e1 ++ s :: e2) cs) l ->
  exists c1 c2 l1 l2, cs = c1 ++ c2 /\ l = l1 ++ s :: l2 /\ leafy h c1 e1 /\ leafy h c2 e2
    /\ shape ns h (mkNode e1 c1) l1 /\ shape ns h (mkNode e2 c2) l2.
Proof.
  destruct h as [|h].
  - cbn. intros [-> ->]. by exists [], [], e1, e2.
  - rewrite shape_S. cbn [entries children]. intros (ks & Hl & Hk & ->). rewrite length_app in Hl. cbn in Hl.
    destruct (cut cs (S (length e1))) as (c1 & c2 & -> & Hc1); [lia|]. rewrite length_app in Hl.
    apply Forall2_app_inv_l in Hk as (k1 & k2 & Hk1 & Hk2 & ->).
    pose proof (Forall2_length _ _ _ Hk1). pose proof (Forall2_length _ _ _ Hk2).
    exists c1, c2, (flat e1 k1), (flat e2 k2). rewrite flat_join by lia. cbn [leafy].
    split_and!; [done|done|lia|lia| |]; apply shape_S; cbn [entries children].
    + exists k1. split_and!; [lia|done..].
    + exists k2. split_and!; [lia|done..].
Qed.

(** ** Taking a node apart at a child *)

Definition lhole ns h (es : list entry) (cs : list N) L : Prop :=
  exists ks, length cs = length es /\ kids ns h cs ks /\ L = zl ks es.
Definition rhole ns h (es : list entry) (cs : list N) R : Prop :=
  exists ks, length cs = length es /\ kids ns h cs ks /\ R = zr es ks.

Lemma lhole_mono ns ns' h es cs L : ns `prefix_of` ns' -> lhole ns h es cs L -> lhole ns' h es cs L.
Proof. intros Hp (ks & ? & ? & ->). exists ks. eauto using kids_mono. Qed.
Lemma rhole_mono ns ns' h es cs R : ns `prefix_of` ns' -> rhole ns h es cs R -> rhole ns' h es cs R.
Proof. intros Hp (ks & ? & ? & ->). exists ks. eauto using kids_mono. Qed.

Lemma lhole_nil ns h : lhole ns h [] [] [].
Proof. exists []. split_and!; [done|constructor|done]. Qed.
Lemma rhole_nil ns h : rhole ns h [] [] [].
Proof. exists []. split_and!; [done|constructor|done]. Qed.
Lemma lhole_snoc ns h es cs L c x s :
  lhole ns h es cs L -> sub ns MIN_KEYS h c x -> lhole ns h (es ++ [s]) (cs ++ [c]) (L ++ x ++ [s]).
Proof.
  intros (ks & Hl & Hk & ->) Hx. exists (ks ++ [x]). pose proof (Forall2_length _ _ _ Hk).
  split_and!; [rewrite !length_app; cbn; lia|by apply Forall2_app; [|constructor]|by rewrite zl_snoc by lia].
Qed.
Lemma rhole_cons ns h es cs R c x s :
  rhole ns h es cs R -> sub ns MIN_KEYS h c x -> rhole ns h (s :: es) (c :: cs) (s :: x ++ R).
Proof. intros (ks & Hl & Hk & ->) Hx. exists (x :: ks). split_and!; [cbn; lia|by constructor|done]. Qed.
Lemma lhole_inv ns h es s cs L :
  lhole ns h (es ++ [s]) cs L ->
  exists cs' c L' x, cs = cs' ++ [c] /\ L = L' ++ x ++ [s] /\ lhole ns h es cs' L' /\ sub ns MIN_KEYS h c x.
Proof.
  intros (ks & Hl & Hk & ->). rewrite length_app in Hl. cbn in Hl.
  destruct (exists_last (l:=cs)) as (cs' & c & ->); [by destruct cs; cbn in Hl; [lia|]|].
  apply Forall2_app_inv_l in Hk as (ks' & kx & Hk & (x & ? & Hx & ->%Forall2_nil_inv_l & ->)%Forall2_cons_inv_l & ->).
  pose proof (Forall2_length _ _ _ Hk). rewrite length_app in Hl. cbn in Hl.
  exists cs', c, (zl ks' es), x. rewrite zl_snoc by lia. split_and!; [done..| |done]. exists ks'. split_and!; [lia|done..].
Qed.
Lemma rhole_inv ns h es s cs R :
  rhole ns h (s :: es) cs R ->
  exists c cs' x R', cs = c :: cs' /\ R = s :: x ++ R' /\ rhole ns h es cs' R' /\ sub ns MIN_KEYS h c x.
Proof.
  intros (ks & Hl & Hk & ->). destruct cs as [|c cs]; [done|]. apply Forall2_cons_inv_l in Hk as (x & ks' & Hx & Hk & ->).
  injection Hl as Hl. exists c, cs, x, (zr es ks'). split_and!; [done..| |done]. by exists ks'.
Qed.

Lemma shape_focus ns h n l i :
  shape ns (S h) n l -> (i <= length (entries n))%nat ->
  exists e1 e2 c1 c c2 L x R, n = mkNode (e1 ++ e2) (c1 ++ c :: c2) /\ length e1 = i /\ length c1 = i
    /\ l = L ++ x ++ R /\ lhole ns h e1 c1 L /\ sub ns MIN_KEYS h c x /\ rhole ns h e2 c2 R.
Proof.
  rewrite shape_S. destruct n as [es cs]. cbn [entries children]. intros (ks & Hl & Hk & ->) Hi.
  destruct (cut es i) as (e1 & e2 & -> & H1); [done|]. rewrite length_app in Hl.
  destruct (cut_at cs i) as (c1 & c & c2 & -> & Hc); [lia|]. rewrite length_app in Hl. cbn in Hl.
  apply Forall2_app_inv_l in Hk as (k1 & k2 & Hk1 & (x & k2' & Hx & Hk2 & ->)%Forall2_cons_inv_l & ->).
  pose proof (Forall2_length _ _ _ Hk1).
  exists e1, e2, c1, c, c2, (zl k1 e1), x, (zr e2 k2'). rewrite flat_split by lia. split_and!; try done.
  - exists k1. split_and!; [lia|done..].
  - exists k2'. split_and!; [lia|done..].
Qed.
Lemma shape_plug ns h e1 e2 c1 c c2 L x R :
  lhole ns h e1 c1 L -> sub ns MIN_KEYS h c x -> rhole ns h e2 c2 R ->
  shape ns (S h) (mkNode (e1 ++ e2) (c1 ++ c :: c2)) (L ++ x ++ R).
Proof.
  intros (k1 & H1 & Hk1 & ->) Hx (k2 & H2 & Hk2 & ->). apply shape_S. exists (k1 ++ x :: k2).
  pose proof (Forall2_length _ _ _ Hk1). cbn [entries children]. rewrite flat_split by lia. split_and!; [|by apply Forall2_app; [|constructor]|done].
  rewrite !length_app. cbn. lia.
Qed.

Lemma lhole_below ns h es cs L k : lhole ns h es cs L -> ordered L -> below k es -> below k L.
Proof.
  intros (ks & Hl & Hk & ->). assert (Hle : length ks = length es) by (by rewrite <- (Forall2_length _ _ _ Hk)).
  clear Hl Hk. revert es Hle. induction ks as [|x ks IH]; intros [|e es] Hle Ho Hb; try done.
  injection Hle as Hle. cbn in Ho |- *. apply ordered_mid in Ho as (_ & Ho & Hx & _). apply Forall_cons in Hb as [He Hb].
  apply Forall_app. split; [by eapply below_trans|]. constructor; [done|]. by apply IH.
Qed.
Lemma rhole_above ns h es cs R k : rhole ns h es cs R -> ordered R -> above k es -> above k R.
Proof.
  intros (ks & Hl & Hk & ->). assert (Hle : length ks = length es) by (by rewrite <- (Forall2_length _ _ _ Hk)).
  clear Hl Hk. revert es Hle. induction ks as [|x ks IH]; intros [|e es] Hle Ho Hb; try done.
  injection Hle as Hle. cbn in Ho |- *. apply ordered_cons in Ho as (Hx & Ho). apply Forall_cons in Hb as [He Hb].
  constructor; [done|]. by eapply above_trans.
Qed.

(** The entries of a node are ordered when its listing is. *)
Lemma zr_ordered es ks : length ks = length es -> ordered (zr es ks) -> ordered es.
Proof.
  revert ks. induction es as [|e es IH]; intros [|x ks] Hl Ho; try done. injection Hl as Hl. cbn in Ho.
  apply ordered_cons in Ho as [Ha Ho]. apply Forall_app in Ha as [_ Ha]. apply ordered_app in Ho as (_ & Ho & _).
  apply ordered_cons. split; [|by eapply IH]. clear IH Ho. revert ks Hl Ha.
  induction es as [|f es IH]; intros [|y ks] Hl Ha; try done. injection Hl as Hl. cbn in Ha.
  apply Forall_cons in Ha as [Hf Ha]. apply Forall_app in Ha as [_ Ha]. constructor; [done|]. by eapply IH.
Qed.
Lemma shape_ordered ns h n l : shape ns h n l -> ordered l -> ordered (entries n).
Proof.
  destruct h as [|h]; [by intros [_ ->]|]. rewrite shape_S. intros (ks & Hl & Hk & ->) Ho.
  pose proof (Forall2_length _ _ _ Hk). destruct ks as [|x ks]; [cbn in *; lia|]. cbn in *.
  apply ordered_app in Ho as (_ & Ho & _). eapply zr_ordered; [|done]. lia.
Qed.

(** ** Heights *)

(** A child comes before its parent. *)
Definition downward ns : Prop :=
  forall i n, ns !! i = Some n -> Forall (λ c, (N.to_nat c < i)%nat) (children n).

Lemma sub_height ns lo h c l : downward ns -> sub ns lo h c l -> (h <= N.to_nat c)%nat.
Proof.
  intros Hd. revert lo c l. induction h as [|h IH]; intros lo c l; [lia|].
  intros (n & En & _ & (ks & Hl & Hk & _)%shape_S). specialize (Hd _ _ En).
  destruct (children n) as [|c' cs]; [done|]. apply Forall_cons in Hd as [Hc _].
  apply Forall2_cons_inv_l in Hk as (x & ? & Hx & _ & _). specialize (IH _ _ _ Hx). lia.
Qed.

(** A tree of height [h] holds at least [5^h] times the keys of a leaf. *)
Lemma flat_length es ks m :
  length ks = S (length es) -> Forall (λ x, (m <= length x)%nat) ks ->
  (length es + S (length es) * m <= length (flat es ks))%nat.
Proof.
  destruct ks as [|x ks]; [done|]. intros [= Hl] [Hx Hk]%Forall_cons. cbn [flat]. rewrite length_app.
  assert (length es + length es * m <= length (zr es ks))%nat; [|lia]. clear Hx x.
  revert ks Hl Hk. induction es as [|e es IH]; intros [|y ks] Hl Hk; try done.
  injection Hl as Hl. apply Forall_cons in Hk as [Hy Hk]. cbn [zr length]. rewrite length_app.
  specialize (IH ks Hl Hk). lia.
Qed.
Lemma shape_length ns h n l :
  shape ns h n l -> (S (length (entries n)) * (MIN_KEYS + 1) ^ h <= S (length l))%nat.
Proof.
  revert n l. induction h as [|h IH]; intros n l; [intros [_ ->]; cbn; lia|].
  rewrite shape_S. intros (ks & Hl & Hk & ->). pose proof (Forall2_length _ _ _ Hk) as Hlk. rewrite Hl in Hlk.
  pose proof (flat_length (entries n) ks ((MIN_KEYS + 1) ^ S h - 1)) as Hf.
  assert (Hm : Forall (λ x, ((MIN_KEYS + 1) ^ S h - 1 <= length x)%nat) ks).
  { apply Forall_forall. intros x Hx. apply list_elem_of_lookup_1 in Hx as [i Hi].
    destruct (Forall2_lookup_r _ _ _ _ _ Hk Hi) as (c & _ & n' & _ & Hn & Hs). specialize (IH _ _ Hs).
    cbn [Nat.pow]. assert ((MIN_KEYS + 1) * (MIN_KEYS + 1) ^ h <= S (length (entries n')) * (MIN_KEYS + 1) ^ h)%nat; [|lia].
    apply Nat.mul_le_mono_r. lia. }
  specialize (Hf (eq_sym Hlk) Hm). assert (1 <= (MIN_KEYS + 1) ^ S h)%nat by (apply Nat.neq_0_lt_0, Nat.pow_nonzero; done).
  nia.
Qed.
End Tree.
End HyperbeeTree.
