(* ===== verification/HyperbeeCodec.v ===== *)
(** * [hyperbee]: the encoding of nodes

    A node reads back from its encoding, and a node within the bounds of a B-tree
    has an encoding of bounded length. *)
From S2P Require Import Prelude Codec Hyperbee.
From Stdlib Require Import Strings.Byte.

Module HyperbeeCodec.
Import Hyperbee.

(** What the encoding can carry: lengths and pointers of 64 bits. *)
Definition entry_valid (e : entry) : Prop := u64_ok (lenN e.1) /\ u64_ok (lenN e.2).
Definition node_valid (n : Node) : Prop :=
  u64_ok (lenN (entries n)) /\ Forall entry_valid (entries n)
  /\ u64_ok (lenN (children n)) /\ Forall u64_ok (children n).

Lemma varint_nonempty v : (1 <= length (Codec.varint_bytes v))%nat.
Proof.
  unfold Codec.varint_bytes. rewrite Codec.varint_loop_S. destruct (_ =? 0); cbn; lia.
Qed.

Lemma concat_length {A} (f : A -> bytes) (l : list A) :
  (forall x, (1 <= length (f x))%nat) -> (length l <= length (concat (f <$> l)))%nat.
Proof.
  intros Hf. induction l as [|x l IH]; cbn; [lia|]. rewrite length_app. specialize (Hf x). lia.
Qed.

Lemma take_n_app a b : take_n (lenN a) (a ++ b) = Ok (a, b).
Proof.
  unfold take_n. rewrite lenN_app. destruct (N.ltb_spec (lenN a + lenN b) (lenN a)); [lia|].
  by rewrite Codec.take_app_lenN, Codec.drop_app_lenN.
Qed.

Lemma read_entries_ok fuel es acc rest :
  (length es <= fuel)%nat -> Forall entry_valid es ->
  read_entries fuel (lenN es) (concat (entry_bytes <$> es) ++ rest) acc = Ok (acc ++ es, rest).
Proof.
  revert fuel acc. induction es as [|e es IH]; intros fuel acc Hf Hv.
  - rewrite app_nil_r. by destruct fuel.
  - destruct fuel as [|fuel]; cbn in Hf; [lia|]. apply Forall_cons in Hv as [[Hk Hw] Hv].
    cbn [read_entries fmap list_fmap concat]. rewrite lenN_cons. destruct (N.eqb_spec (lenN es + 1) 0); [lia|].
    unfold entry_bytes at 1. rewrite <- !app_assoc.
    rewrite Codec.varint_read_write by done. rsimpl. rewrite take_n_app. rsimpl.
    rewrite Codec.varint_read_write by done. rsimpl. rewrite take_n_app. rsimpl.
    replace (lenN es + 1 - 1) with (lenN es) by lia. rewrite IH by (done || lia). rewrite <- app_assoc. by destruct e.
Qed.
Lemma read_children_ok fuel cs acc rest :
  (length cs <= fuel)%nat -> Forall u64_ok cs ->
  read_children fuel (lenN cs) (concat (Codec.varint_bytes <$> cs) ++ rest) acc = Ok (acc ++ cs, rest).
Proof.
  revert fuel acc. induction cs as [|c cs IH]; intros fuel acc Hf Hv.
  - rewrite app_nil_r. by destruct fuel.
  - destruct fuel as [|fuel]; cbn in Hf; [lia|]. apply Forall_cons in Hv as [Hc Hv].
    cbn [read_children fmap list_fmap concat]. rewrite lenN_cons. destruct (N.eqb_spec (lenN cs + 1) 0); [lia|].
    rewrite <- !app_assoc, Codec.varint_read_write by done. rsimpl.
    replace (lenN cs + 1 - 1) with (lenN cs) by lia. rewrite IH by (done || lia). by rewrite <- app_assoc.
Qed.

Lemma entry_nonempty e : (1 <= length (entry_bytes e))%nat.
Proof. unfold entry_bytes. rewrite length_app. pose proof (varint_nonempty (lenN e.1)). lia. Qed.

Lemma node_roundtrip n : node_valid n -> Codec.decode (Codec.encode n) = Ok n.
Proof.
  intros (He & Hes & Hc & Hcs). destruct n as [es cs]. cbn [entries children] in *.
  unfold Codec.encode. cbn [Codec.encode_into Codec.decode NodeCodec entries children app].
  rewrite Codec.varint_read_write by done. rsimpl. rewrite read_entries_ok; [|rewrite length_app|done].
  2: { pose proof (concat_length entry_bytes es entry_nonempty). lia. }
  rsimpl. rewrite Codec.varint_read_write by done. rsimpl.
  rewrite <- (app_nil_r (concat (Codec.varint_bytes <$> cs))) at 2. rewrite read_children_ok; [done| |done].
  apply (concat_length Codec.varint_bytes), varint_nonempty.
Qed.

#[export] Instance node_laws : Codec.CodecLaws Node := {|
  Codec.codec_valid := node_valid; Codec.codec_roundtrip := node_roundtrip |}.

(** ** Lengths *)

Lemma varint_length v : lenN (Codec.varint_bytes v) <= 10.
Proof. unfold lenN, Codec.varint_bytes. pose proof (Codec.varint_loop_length 10 v). lia. Qed.

Lemma concat_bound {A} (f : A -> bytes) (P : A -> Prop) (k : N) (l : list A) :
  (forall x, P x -> lenN (f x) <= k) -> Forall P l -> lenN (concat (f <$> l)) <= lenN l * k.
Proof.
  intros Hf. induction 1 as [|x l Hx _ IH]; cbn; [done|]. rewrite lenN_app, lenN_cons. specialize (Hf x Hx). lia.
Qed.

(** A node of a tree: at most eight entries of at most [max] bytes, nine children. *)
Definition entry_ok (max : N) (e : entry) : Prop := lenN e.1 + lenN e.2 <= max.
Definition node_ok (max : N) (n : Node) : Prop :=
  (length (entries n) < MAX_CHILDREN)%nat /\ Forall (entry_ok max) (entries n)
  /\ (length (children n) <= MAX_CHILDREN)%nat /\ Forall u64_ok (children n).
Definition node_bytes (max : N) : N := 8 * (max + 20) + 110.

Lemma node_length max n : node_ok max n -> lenN (Codec.encode n) <= node_bytes max.
Proof.
  intros (He & Hes & Hc & Hcs). destruct n as [es cs]. cbn [entries children] in *. unfold MAX_CHILDREN in *.
  unfold Codec.encode. cbn [Codec.encode_into NodeCodec entries children app]. rewrite !lenN_app.
  pose proof (varint_length (lenN es)). pose proof (varint_length (lenN cs)).
  assert (lenN (concat (entry_bytes <$> es)) <= lenN es * (max + 20)).
  { apply (concat_bound _ (entry_ok max)); [|done]. intros e Hok. unfold entry_bytes, entry_ok in *. rewrite !lenN_app.
    pose proof (varint_length (lenN e.1)). pose proof (varint_length (lenN e.2)). lia. }
  assert (lenN (concat (Codec.varint_bytes <$> cs)) <= lenN cs * 10).
  { apply (concat_bound _ u64_ok); [|done]. intros c _. apply varint_length. }
  assert (lenN es <= 8 /\ lenN cs <= 9) as [] by (unfold lenN; lia). unfold node_bytes. nia.
Qed.

Lemma node_ok_valid max n : max < two64 -> node_ok max n -> node_valid n.
Proof.
  intros Hm (He & Hes & Hc & Hcs). unfold MAX_CHILDREN in *. split_and!; [unfold u64_ok, lenN, two64; lia| |unfold u64_ok, lenN, two64; lia|done].
  eapply Forall_impl; [exact Hes|]. unfold entry_ok, entry_valid, u64_ok. intros e. lia.
Qed.
End HyperbeeCodec.
