(* ===== verification/HyperbeeBlocks.v ===== *)
(** * [hyperbee]: the blocks of a tree

    What the tree needs of the core and of an open batch, and nothing else: a list
    of nodes in which a stored node reads back, the last one is the root, and a new
    node goes to the end ([holds]).  While a batch is open the core stands still
    ([mode] is the core then).  The tree's own operations are verified against
    this interface. *)
From S2P Require Import Prelude Codec Flat Merkle MerkleSpec MerkleProofs Store Identity.
From S2P Require Import Hypercore HypercoreMeta HypercoreLog HypercoreOps HypercoreDurable.
From S2P Require Import Hyperbee HyperbeeSpec HyperbeeTree HyperbeeCodec.
From Stdlib Require Import Strings.Byte.

Module HyperbeeBlocks.
Import MerkleSpec Hypercore HypercoreLog HypercoreDurable.
Import Hyperbee HyperbeeSpec HyperbeeTree HyperbeeCodec.

Section Blocks.
Context `{HL : HasherLaws} `{EL : Ed25519Laws} {S E : Type} `{SL : Store.StoreLaws S E}.

(** Entries of at most [max] bytes, in nodes the store can hold. *)
Definition limits (max : N) : Prop :=
  node_bytes max < two64
  /\ forall i n, i < Flat.max_blocks -> node_ok max n -> Store.fits i (Codec.encode n).

Context (max : N) (Hmax : limits max).
Implicit Types (ns : list Node) (b : Hyperbee S) (mode : option (Hypercore S)).

Abbreviation method := (act (Hyperbee S) (Error E)).

Record blocks_wf ns : Prop := mkBlocksWf {
  bw_nodes : Forall (node_ok max) ns;
  bw_down : downward ns;
  bw_len : lenN ns <= Flat.max_blocks }.

Definition holds mode ns b : Prop :=
  blocks_wf ns /\ exists l old, repr l (core b) /\ all_held l /\ l_blocks l = Codec.encode <$> old
  /\ match mode, pending b with
     | None, None => ns = old
     | Some c, Some bt => core b = c /\ base bt = l_len l
         /\ exists new, encoded bt = Codec.encode <$> new /\ ns = old ++ new
     | _, _ => False
     end.

(** The store failed; in a batch the core is as it was. *)
Definition stopped mode (e : Error E) b : Prop :=
  store_fails (S:=S) (E:=E) /\ (exists e', e = Storage e')
  /\ match mode with Some c => core b = c | None => True end.

(** ** Reading a node *)

Lemma core_get l (c : Hypercore S) old s n :
  repr l c -> all_held l -> l_blocks l = Codec.encode <$> old -> old !! N.to_nat s = Some n -> node_valid n ->
  Hypercore.get c s = Ok (Some n)
  \/ store_fails (S:=S) (E:=E) /\ exists e, Hypercore.get (T:=Node) c s = Err (Storage e).
Proof.
  intros (Hc & _ & Hst) Hall Eb En Hn. unfold Hypercore.get. rewrite (has_spec l) by done.
  assert (Hs : l_held l s = true).
  { apply Hall. unfold l_len. rewrite Eb. pose proof (lookup_lt_Some _ _ _ En). unfold lenN. rewrite length_fmap. lia. }
  rewrite Hs. cbn [negb]. assert (Hb : l_blocks l !! N.to_nat s = Some (Codec.encode n)).
  { rewrite Eb, list_lookup_fmap, En. done. }
  destruct (store_get_spec c s (r_inv _ _ Hst)) as [->|(Hf & e & ->)]; [left|right; by eauto].
  rsimpl. rewrite (r_block _ _ Hst s _ Hs Hb). cbn [ok_or]. rsimpl.
  by rewrite (Codec.codec_roundtrip (CodecLaws:=node_laws) n Hn).
Qed.

Lemma node_spec mode ns b s n :
  holds mode ns b -> ns !! N.to_nat s = Some n ->
  node b s = Ok n \/ store_fails (S:=S) (E:=E) /\ exists e, node b s = Err (Storage e).
Proof.
  intros (Hw & l & old & Hr & Hall & Eb & Hm) En.
  assert (Hn : node_valid n).
  { eapply node_ok_valid; [|eapply Forall_lookup_1; [apply Hw|exact En]]. destruct Hmax as [Hm1 _].
    unfold node_bytes in Hm1. lia. }
  assert (El : l_len l = lenN old) by (unfold l_len, lenN; by rewrite Eb, length_fmap).
  assert (Hcore : old !! N.to_nat s = Some n -> (v ← Hypercore.get (core b) s; ok_or Corrupt v) = Ok n
    \/ store_fails (S:=S) (E:=E) /\ exists e, (v ← Hypercore.get (core b) s; ok_or Corrupt v) = Err (Storage (SE:=E) e) :> result _ Node).
  { intros Eo. destruct (core_get l (core b) old s n) as [->|(Hf & e & ->)]; [done..|by left|right; by eauto]. }
  unfold node. destruct mode as [c|], (pending b) as [bt|]; try done; [|subst; by apply Hcore].
  destruct Hm as (_ & Ebase & new & Enew & ->). destruct (N.leb_spec (base bt) s) as [Hs|Hs].
  - left. unfold batch_get. destruct (N.ltb_spec s (base bt)); [lia|]. rewrite Enew, list_lookup_fmap.
    rewrite lookup_app_r in En by (unfold lenN in El; lia). replace (N.to_nat (s - base bt)) with (N.to_nat s - length old)%nat by (unfold lenN in El; lia).
    rewrite En. rsimpl. by rewrite (Codec.codec_roundtrip (CodecLaws:=node_laws) n Hn).
  - apply Hcore. rewrite lookup_app_l in En by (unfold lenN in El; lia). done.
Qed.

Lemma wp_read mode ns b s n (Q : Node -> Hyperbee S -> Prop) :
  holds mode ns b -> ns !! N.to_nat s = Some n -> Q n b -> wp (read s) Q (stopped mode) b.
Proof.
  intros Hh En HQ. apply wp_asks. destruct (node_spec mode ns b s n Hh En) as [->|(Hf & e & ->)]; [done|].
  split_and!; [done|by eauto|]. destruct Hh as (_ & l & old & _ & _ & _ & Hm). destruct mode, (pending b); try done. apply Hm.
Qed.

(** ** Adding a node *)

Lemma blocks_snoc ns n :
  blocks_wf ns -> node_ok max n -> lenN ns < Flat.max_blocks -> Forall (λ c, c < lenN ns) (children n) ->
  blocks_wf (ns ++ [n]).
Proof.
  intros [Hn Hd Hl] Hok Hlt Hc. constructor.
  - apply Forall_app. split; [done|]. by apply Forall_singleton.
  - intros i m Hi. apply lookup_app_Some in Hi as [Hi|[Hi Em]]; [by apply Hd|].
    apply list_lookup_singleton_Some in Em as [Ei <-]. eapply Forall_impl; [exact Hc|]. unfold lenN. cbn. lia.
  - rewrite lenN_snoc. lia.
Qed.

Lemma wp_append mode ns b n (Q : N -> Hyperbee S -> Prop) :
  holds mode ns b -> node_ok max n -> lenN ns < Flat.max_blocks -> Forall (λ c, c < lenN ns) (children n) ->
  (forall b', holds mode (ns ++ [n]) b' -> Q (lenN ns) b') -> wp (append_node n) Q (stopped mode) b.
Proof.
  intros (Hw & l & old & Hr & Hall & Eb & Hm) Hok Hlt Hc HQ. pose proof (blocks_snoc ns n Hw Hok Hlt Hc) as Hw'.
  assert (El : l_len l = lenN old) by (unfold l_len, lenN; by rewrite Eb, length_fmap).
  unfold append_node, wp. destruct mode as [c|], (pending b) as [bt|] eqn:Ep; try done.
  - destruct Hm as (Ec & Ebase & new & Enew & ->).
    assert (Eseq : wsub64 (wrap64 (base (stage bt n) + N.of_nat (Batch_staged (stage bt n)))) 1 = lenN (old ++ new)).
    { unfold Batch_staged, stage. cbn [base encoded]. rewrite Enew, length_app, length_fmap, Ebase, El. cbn.
      rewrite lenN_app in *. unfold lenN, Flat.max_blocks in *. rewrite wrap64_small, wsub64_small by (unfold two64; lia). lia. }
    rewrite Eseq. apply HQ. split; [done|]. exists l, old. cbn [core pending]. split_and!; [done..|].
    exists (new ++ [n]). unfold stage. cbn [encoded]. rewrite Enew, fmap_app. split; [done|by rewrite app_assoc].
  - subst ns. unfold on_core. pose proof (append_refines l (core b) n Hr) as Ha. destruct Hmax as [Hm1 Hm2].
    pose proof (node_length max n Hok). unfold wp in Ha. rewrite El in Ha. specialize (Ha Hlt).
    assert (Hu : u64_ok (lenN (Codec.encode n))) by (unfold u64_ok; lia). specialize (Ha Hu (Hm2 _ _ Hlt Hok)).
    destruct (append n (core b)) as [[c' [i|e]]| |]; rsimpl; [|by destruct Ha as (Hf & He & _)|done..].
    destruct Ha as [-> Hr']. apply HQ. rewrite Ep. split; [done|]. exists (spec_append l (Codec.encode n)), (old ++ [n]).
    cbn [core pending]. split_and!; [done| | |done].
    + intros i Hi. unfold spec_append, l_len in Hi |- *. cbn [l_blocks l_held] in *. rewrite lenN_snoc in Hi.
      destruct (N.eqb_spec (lenN (l_blocks l)) i); [done|]. apply Hall. unfold l_len. lia.
    + unfold spec_append. cbn [l_blocks]. by rewrite Eb, fmap_app.
Qed.

(** ** The root *)

Lemma root_spec mode ns b :
  holds mode ns b -> root_seq b = checked_pred (lenN ns).
Proof.
  intros (Hw & l & old & Hr & Hall & Eb & Hm). unfold root_seq.
  assert (El : l_len l = lenN old) by (unfold l_len, lenN; by rewrite Eb, length_fmap).
  assert (Elen : len (core b) = lenN old) by (rewrite <- El; apply (r_tree _ _ (proj1 Hr))).
  destruct mode as [c|], (pending b) as [bt|]; try done; [|by subst; rewrite Elen].
  destruct Hm as (Ec & Ebase & new & Enew & ->). destruct Hw as [_ _ Hlen]. unfold Batch_staged. rewrite Enew, length_fmap.
  rewrite lenN_app in *. destruct (N.ltb_spec 0 (N.of_nat (length new))) as [Hn|Hn].
  - unfold checked_pred. rewrite Ebase, El. destruct (N.eqb_spec (lenN old + lenN new) 0); [unfold lenN in *; lia|].
    unfold Flat.max_blocks, lenN in *. by rewrite wrap64_small, wsub64_small by (unfold two64; lia).
  - rewrite Elen. f_equal. unfold lenN in *. lia.
Qed.
End Blocks.
End HyperbeeBlocks.
