(* ===== verification/HyperbeeInsert.v ===== *)
(** * [hyperbee]: lookups and insertions

    [get_from] finds what the listing of a tree says, [insert] leaves the tree of
    the listing with the entry added (or two trees and a median), and [put] the
    tree of the new map. *)
From S2P Require Import Prelude Codec Flat Merkle MerkleSpec Store Identity Hypercore HypercoreLog.
From S2P Require Import Hyperbee HyperbeeSpec HyperbeeTree HyperbeeCodec HyperbeeBlocks.

Module HyperbeeInsert.
Import MerkleSpec Hypercore HypercoreLog.
Import Hyperbee HyperbeeSpec HyperbeeTree HyperbeeCodec HyperbeeBlocks.

(** ** Listings and entries *)

Lemma flat_Forall (P : entry -> Prop) es ks :
  length ks = S (length es) -> Forall P (flat es ks) <-> Forall P es /\ Forall (Forall P) ks.
Proof.
  destruct ks as [|x ks]; [done|]. intros [= Hl]. cbn [flat]. rewrite Forall_app, Forall_cons.
  assert (Forall P (zr es ks) <-> Forall P es /\ Forall (Forall P) ks); [|tauto].
  revert ks Hl. induction es as [|e es IH]; intros [|y ks] Hl; try done. injection Hl as Hl.
  cbn [zr]. rewrite !Forall_cons, Forall_app, IH by done. tauto.
Qed.

Lemma shape_entries (P : entry -> Prop) ns h n l : shape ns h n l -> Forall P l -> Forall P (entries n).
Proof.
  destruct h as [|h]; [by intros [_ ->]|]. rewrite shape_S. intros (ks & Hl & Hk & ->).
  rewrite flat_Forall; [tauto|]. by rewrite <- (Forall2_length _ _ _ Hk).
Qed.

Lemma sub_entries (P : entry -> Prop) ns lo h c l :
  Forall (λ n, Forall P (entries n)) ns -> sub ns lo h c l -> Forall P l.
Proof.
  intros Hns. revert lo c l. induction h as [|h IH]; intros lo c l (n & En & _ & Hs).
  - destruct Hs as [_ ->]. apply (Forall_lookup_1 _ _ _ _ Hns En).
  - apply shape_S in Hs as (ks & Hl & Hk & ->). apply flat_Forall; [by rewrite <- (Forall2_length _ _ _ Hk)|].
    split; [apply (Forall_lookup_1 _ _ _ _ Hns En)|]. eapply Forall2_Forall_r; [exact Hk|].
    apply Forall_forall. intros c' _ x. apply IH.
Qed.

Lemma shape_children ns h n l : shape ns h n l -> Forall (λ c, c < lenN ns) (children n).
Proof.
  destruct h as [|h]; [by intros [-> _]|]. rewrite shape_S. intros (ks & _ & Hk & _).
  eapply Forall2_Forall_l; [exact Hk|]. apply Forall_forall. intros x _ c (n' & En & _).
  apply lookup_lt_Some in En. unfold lenN. lia.
Qed.

(** The child a search sends us to. *)
Lemma shape_descend ns h n l k e1 e2 :
  shape ns (S h) n l -> ordered l -> entries n = e1 ++ e2 -> below k e1 -> above k e2 ->
  exists c1 c c2 L x R, n = mkNode (e1 ++ e2) (c1 ++ c :: c2) /\ length c1 = length e1
    /\ l = L ++ x ++ R /\ ordered x /\ below k L /\ above k R
    /\ lhole ns h e1 c1 L /\ sub ns MIN_KEYS h c x /\ rhole ns h e2 c2 R.
Proof.
  intros Hs Ho Ee Hb Ha. destruct (shape_focus ns h n l (length e1) Hs) as
    (e1' & e2' & c1 & c & c2 & L & x & R & -> & H1 & Hc & -> & HL & Hx & HR); [rewrite Ee, length_app; lia|].
  cbn in Ee. apply app_inj_1 in Ee as [-> ->]; [|done]. apply ordered_app in Ho as (HoL & Ho & _).
  apply ordered_app in Ho as (Hox & HoR & _). exists c1, c, c2, L, x, R.
  split_and!; try done; [by eapply lhole_below|by eapply rhole_above].
Qed.

Lemma to_map_mid k L x R : below k L -> above k R -> to_map (L ++ x ++ R) !! k = to_map x !! k.
Proof.
  intros HL HR. rewrite !to_map_app, (to_map_below k L), (to_map_above k R) by done.
  by destruct (to_map x !! k).
Qed.
Lemma to_map_key k v L R : below k L -> to_map (L ++ (k, v) :: R) !! k = Some v.
Proof.
  intros HL. rewrite to_map_app, (to_map_below k L) by done. change ((k, v) :: R) with ([(k, v)] ++ R).
  rewrite to_map_app. unfold to_map at 1. cbn. rewrite lookup_insert_eq. by destruct (to_map R !! k).
Qed.

(** The tactic for the [runs] of vector operations. *)
Ltac vec_index := cbn [length pred] in *; rewrite ?length_app; cbn [length]; lia.
Ltac vec :=
  first
  [ apply vec_pop
  | apply vec_get_at; vec_index | apply vec_set_at; vec_index | apply vec_remove_at; vec_index
  | apply vec_insert_at; vec_index
  | apply vec_get_next; vec_index | apply vec_set_next; vec_index | apply vec_remove_next; vec_index
  | apply vec_insert_next; vec_index
  | apply (vec_get_at []); vec_index | apply (vec_set_at []); vec_index
  | apply (vec_remove_at []); vec_index | apply (vec_insert_at []); vec_index ].
Ltac run := apply wp_bind; eapply wp_runs; [vec|cbn beta iota; cbn [app]].

(** The number of entries of a node. *)
Ltac fill :=
  cbn [entries] in *; change MIN_KEYS with 4%nat in *; change MAX_CHILDREN with 9%nat in *;
  rewrite ?length_app in *; cbn [length] in *; lia.

Section Insert.
Context `{HL : HasherLaws} `{EL : Ed25519Laws} {S E : Type} `{SL : Store.StoreLaws S E}.
Context (max : N) (Hmax : limits max).
Implicit Types (ns : list Node) (b : Hyperbee S) (mode : option (Hypercore S)) (l : list entry).
Abbreviation holds := (holds max).
Abbreviation sub := HyperbeeTree.sub.

(** ** Looking up *)

Lemma get_from_spec fuel mode ns b lo h s l k :
  holds mode ns b -> sub ns lo h s l -> ordered l -> (h < fuel)%nat ->
  wp (get_from fuel s k) (λ r b', b' = b /\ r = to_map l !! k) (stopped mode) b.
Proof.
  intros Hh. revert fuel lo s l. induction h as [|h IH]; intros fuel lo s l (n & En & Hn & Hs) Ho Hf;
    (destruct fuel as [|fuel]; [lia|]); cbn [get_from]; apply wp_bind; apply (wp_read max Hmax mode ns b s n); [done..| |done|done|];
    pose proof (search_spec (entries n) k (shape_ordered _ _ _ _ Hs Ho)) as Hse;
    destruct (search (entries n) k) as [i|i].
  - destruct Hs as [_ ->]. destruct Hse as (e1 & v & e2 & -> & -> & Hb & _). run. apply wp_ret. by rewrite to_map_key.
  - rewrite (shape_is_leaf _ _ _ _ Hs). destruct Hs as [_ ->]. destruct Hse as (e1 & e2 & -> & -> & Hb & Ha). apply wp_ret.
    by rewrite to_map_app, (to_map_below k e1), (to_map_above k e2).
  - destruct Hse as (e1 & v & e2 & Ee & -> & Hb & _). destruct n as [es cs]. cbn in Ee. subst es.
    apply shape_cut in Hs as (c1 & c2 & l1 & l2 & -> & -> & _). cbn [entries]. run. apply wp_ret.
    apply ordered_mid in Ho as (_ & _ & Hb' & _). by rewrite to_map_key.
  - rewrite (shape_is_leaf _ _ _ _ Hs). destruct Hse as (e1 & e2 & Ee & -> & Hb & Ha).
    destruct (shape_descend ns h n l k e1 e2) as (c1 & c & c2 & L & x & R & -> & Hl & -> & Hox & HL' & HR & _ & Hx & _); [done..|].
    cbn [children]. rewrite <- Hl. run. rewrite to_map_mid by done. eapply IH; [done..|lia].
Qed.

(** ** Appending a node of a tree *)

Definition room ns (k : nat) : Prop := lenN ns + N.of_nat k <= Flat.max_blocks.

Lemma wp_append_shape mode ns b lo h n l (Q : N -> Hyperbee S -> Prop) :
  holds mode ns b -> shape ns h n l -> (lo <= length (entries n) < MAX_CHILDREN)%nat ->
  Forall (entry_ok max) l -> room ns 1 ->
  (forall ns' b', ns' = ns ++ [n] -> holds mode ns' b' -> ns `prefix_of` ns' -> length ns' = Datatypes.S (length ns) ->
     sub ns' lo h (lenN ns) l -> Q (lenN ns) b') ->
  wp (append_node n) Q (stopped mode) b.
Proof.
  intros Hh Hs Hn Hl Hr HQ. pose proof (shape_children _ _ _ _ Hs) as Hc. unfold room in Hr.
  apply (wp_append max Hmax mode ns b n); [done| |lia|done|].
  - split_and!; [lia|by eapply shape_entries| |].
    + pose proof (shape_leafy _ _ _ _ Hs) as Hlf. destruct h; cbn in Hlf; [rewrite Hlf; cbn; lia|lia].
    + eapply Forall_impl; [exact Hc|]. unfold u64_ok, Flat.max_blocks, two64 in *. intros c Hc'. cbn in Hc'. lia.
  - intros b' Hh'. apply (HQ (ns ++ [n])); [done..|by apply prefix_app_r| |].
    + rewrite length_app. cbn. lia.
    + exists n. split_and!; [|lia..|eapply shape_mono; [by apply prefix_app_r|done]].
      unfold lenN. rewrite Nat2N.id. by apply list_lookup_middle.
Qed.

(** ** Inserting *)

(** At most [k] blocks more, and the tree of [l'], whole or cut at a median. *)
Definition ins_ok mode ns k lo h l' (r : Ins) b' : Prop :=
  exists ns', holds mode ns' b' /\ ns `prefix_of` ns' /\ (length ns' <= length ns + k)%nat
    /\ match r with
       | Ins_Down s => lenN ns' = s + 1 /\ sub ns' lo h s l'
       | Ins_Split a m c => exists l1 l2, l' = l1 ++ m :: l2 /\ sub ns' MIN_KEYS h a l1 /\ sub ns' MIN_KEYS h c l2
       end.

Lemma down_spec mode ns b lo h n l :
  holds mode ns b -> shape ns h n l -> (lo <= length (entries n) < MAX_CHILDREN)%nat ->
  Forall (entry_ok max) l -> room ns 2 ->
  wp (s ← append_node n; mret (Ins_Down s)) (ins_ok mode ns 2 lo h l) (stopped mode) b.
Proof.
  intros Hh Hs Hn Hl Hr. apply wp_bind. eapply wp_append_shape; [done..|unfold room in *; lia|].
  intros ns' b' En Hh' Hp Hlen Hsub. apply wp_ret. exists ns'. split_and!; [done..|lia| |done]. unfold lenN. lia.
Qed.

Lemma room_app ns n k : room ns (Datatypes.S k) -> room (ns ++ [n]) k.
Proof. unfold room. rewrite lenN_snoc. lia. Qed.

Lemma finish_spec mode ns b lo h n l :
  holds mode ns b -> shape ns h n l -> (lo <= length (entries n) <= MAX_CHILDREN)%nat ->
  Forall (entry_ok max) l -> room ns 2 -> wp (finish n) (ins_ok mode ns 2 lo h l) (stopped mode) b.
Proof.
  intros Hh Hs Hn Hl Hr. unfold finish. destruct (Nat.ltb_spec (length (entries n)) MAX_CHILDREN) as [Hlt|Hge].
  { apply down_spec; (done || lia). }
  assert (E9 : length (entries n) = 9%nat) by (unfold MAX_CHILDREN in *; lia). rewrite E9.
  destruct n as [es cs]. cbn [entries children] in *.
  destruct (cut_at es 4) as (e1 & m & e2 & -> & H1); [lia|]. rewrite length_app in E9. cbn in E9.
  pose proof (shape_is_leaf _ _ _ _ Hs) as Hleaf.
  apply shape_cut in Hs as (c1 & c2 & l1 & l2 & -> & -> & Hf1 & Hf2 & Hs1 & Hs2).
  apply wp_bind. eapply wp_runs; [rewrite cons_middle, app_assoc; change (Datatypes.S (9 / 2))%nat with 5%nat;
    replace 5%nat with (length (e1 ++ [m])) by (rewrite length_app; cbn; lia); apply vec_split_off|]. cbn beta iota.
  run. apply wp_bind.
  assert (Hcs : wp (if is_leaf (mkNode (e1 ++ m :: e2) (c1 ++ c2)) then mret (c1 ++ c2, [])
                    else runs (Vec.split_off (c1 ++ c2) 5)) (λ r b', r = (c1, c2) /\ b' = b) (stopped mode) b).
  { rewrite Hleaf. destruct h as [|h]; cbn [leafy] in Hf1, Hf2; cbn [Nat.eqb].
    - subst. by apply wp_ret.
    - eapply wp_runs; [|done]. replace 5%nat with (length c1) by lia. apply vec_split_off. }
  eapply wp_mono; [exact Hcs| |done]. cbn beta. intros r b' [-> ->]. clear Hcs.
  apply Forall_app in Hl as [Hl1 [Hm Hl2]%Forall_cons].
  apply wp_bind. eapply (wp_append_shape _ _ _ MIN_KEYS); [done|exact Hs1|fill|done|unfold room in *; lia|].
  intros ns1 b1 -> Hh1 Hp1 Hlen1 Hsub1. apply wp_bind.
  eapply (wp_append_shape _ _ _ MIN_KEYS); [done|eapply shape_mono; [exact Hp1|exact Hs2]|fill|done|by apply room_app|].
  intros ns2 b2 E2 Hh2 Hp2 Hlen2 Hsub2. apply wp_ret. exists ns2. split_and!; [done|by etrans|lia|].
  exists l1, l2. split_and!; [done|by eapply sub_mono|done].
Qed.

Lemma insert_entry_ok k v l : Forall (entry_ok max) l -> entry_ok max (k, v) -> Forall (entry_ok max) (kv_insert k v l).
Proof.
  intros Hl He. induction Hl as [|e l Hx Hl IH]; cbn; [by apply Forall_singleton|].
  destruct (bytes_cmp e.1 k); by repeat constructor.
Qed.

Lemma ins_weaken mode ns ns1 k k' lo h l r b :
  ns `prefix_of` ns1 -> (length ns1 + k <= length ns + k')%nat ->
  ins_ok mode ns1 k lo h l r b -> ins_ok mode ns k' lo h l r b.
Proof. intros Hp Hk (ns' & Hh & Hp' & Hlen & Hm). exists ns'. split_and!; [done|by etrans|lia|done]. Qed.

Lemma insert_spec fuel mode ns b lo h s l k v :
  holds mode ns b -> sub ns lo h s l -> ordered l -> (h < fuel)%nat ->
  Forall (entry_ok max) l -> entry_ok max (k, v) -> room ns (2 * Datatypes.S h) ->
  wp (insert fuel s k v) (ins_ok mode ns (2 * Datatypes.S h) lo h (kv_insert k v l)) (stopped mode) b.
Proof.
  revert fuel mode ns b lo s l. induction h as [|h IH]; intros fuel mode ns b lo s l Hh (n & En & Hn & Hs) Ho Hf Hl Hkv Hr;
    (destruct fuel as [|fuel]; [lia|]); cbn [insert]; apply wp_bind; apply (wp_read max Hmax mode ns b s n); [done..| |done|done|];
    pose proof (search_spec (entries n) k (shape_ordered _ _ _ _ Hs Ho)) as Hse;
    pose proof (insert_entry_ok k v l Hl Hkv) as Hl'; destruct (search (entries n) k) as [i|i].
  1,3: destruct Hse as (e1 & w & e2 & Ee & -> & Hb & _); destruct n as [es cs]; cbn [entries children] in *; subst es;
    run; run; apply shape_cut in Hs as (c1 & c2 & l1 & l2 & -> & -> & _ & _ & Hs1 & Hs2);
    apply ordered_mid in Ho as (_ & _ & Hb' & _); cbn [fst] in *; rewrite kv_insert_same in Hl' |- * by done;
    eapply wp_mono; [apply (down_spec mode ns b lo); [done|by apply shape_join|fill|done|unfold room in *; lia]| |done];
    intros r b'; apply ins_weaken; [done|lia].
  - rewrite (shape_is_leaf _ _ _ _ Hs). cbn [Nat.eqb]. destruct Hs as [Ec ->]. destruct Hse as (e1 & e2 & Ee & -> & Hb & Ha).
    rewrite Ee in *. run. rewrite kv_insert_new in Hl' |- * by done. rewrite length_app in Hn.
    apply finish_spec; [done| |fill|done|done]. by rewrite Ec.
  - rewrite (shape_is_leaf _ _ _ _ Hs). cbn [Nat.eqb]. destruct Hse as (e1 & e2 & Ee & -> & Hb & Ha).
    destruct (shape_descend ns h n l k e1 e2) as (c1 & c & c2 & L & x & R & -> & Hc & -> & Hox & HL' & HR & Hlh & Hx & Hrh); [done..|].
    cbn [children entries] in *. rewrite kv_insert_mid in Hl' |- * by done. rewrite length_app in Hn.
    apply Forall_app in Hl as [_ [Hlx _]%Forall_app]. rewrite <- Hc. run. apply wp_bind.
    eapply wp_mono; [apply (IH fuel mode ns b MIN_KEYS c x); [done..|lia|done|done|unfold room in *; lia]| |done].
    intros r b1 (ns1 & Hh1 & Hp1 & Hlen1 & Hres). apply (lhole_mono _ _ _ _ _ _ Hp1) in Hlh. apply (rhole_mono _ _ _ _ _ _ Hp1) in Hrh.
    assert (Hr1 : room ns1 2) by (unfold room, lenN in *; lia).
    assert (Hw : forall r' b', ins_ok mode ns1 2 lo (Datatypes.S h) (L ++ kv_insert k v x ++ R) r' b' ->
      ins_ok mode ns (2 * Datatypes.S (Datatypes.S h)) lo (Datatypes.S h) (L ++ kv_insert k v x ++ R) r' b').
    { intros r' b'. apply ins_weaken; [done|lia]. }
    destruct r as [s'|a m d].
    + destruct Hres as [_ Hx']. run. eapply wp_mono; [apply (down_spec mode ns1 b1 lo); [done|by apply shape_plug| |done..]|exact Hw|done].
      fill.
    + destruct Hres as (l1 & l2 & Ex & Hx1 & Hx2). run. rewrite Hc. run. cbn [children].
      run.
      rewrite Ex in Hl', Hw |- *. replace (L ++ (l1 ++ m :: l2) ++ R) with ((L ++ l1 ++ [m]) ++ l2 ++ R) in * by (by rewrite <- !app_assoc).
      eapply wp_mono; [apply (finish_spec mode ns1 b1 lo (Datatypes.S h)); [done| | |done|done]|exact Hw|done].
      * rewrite (cons_middle m e1 e2), (cons_middle a c1), !(app_assoc _ [_]).
        apply shape_plug; [by apply lhole_snoc|done|done].
      * fill.
Qed.
End Insert.
End HyperbeeInsert.
