(* ===== verification/HyperbeeDelete.v ===== *)
(** * [hyperbee]: deletions

    A child that lost a key is refilled from a sibling or merged with one
    ([rebalance]); the smallest and the largest entry of a tree come off with the
    rest intact; [delete] leaves the tree of the listing without the key. *)
From S2P Require Import Prelude Codec Flat Merkle MerkleSpec Store Identity Hypercore HypercoreLog.
From S2P Require Import Hyperbee HyperbeeSpec HyperbeeTree HyperbeeCodec HyperbeeBlocks HyperbeeInsert.

Module HyperbeeDelete.
Import MerkleSpec Hypercore HypercoreLog.
Import Hyperbee HyperbeeSpec HyperbeeTree HyperbeeCodec HyperbeeBlocks HyperbeeInsert.

(** ** A node at one of its separators *)

Lemma shape_plug2 ns h e1 s e2 c1 a c c2 L y x R :
  lhole ns h e1 c1 L -> sub ns MIN_KEYS h a y -> sub ns MIN_KEYS h c x -> rhole ns h e2 c2 R ->
  shape ns (S h) (mkNode (e1 ++ s :: e2) (c1 ++ a :: c :: c2)) (L ++ (y ++ s :: x) ++ R).
Proof.
  intros HL Hy Hx HR. rewrite (cons_middle s e1), (cons_middle a c1), !app_assoc.
  replace (((L ++ y) ++ s :: x) ++ R) with ((L ++ y ++ [s]) ++ x ++ R) by (by rewrite <- !app_assoc).
  apply shape_plug; [by apply lhole_snoc|done|done].
Qed.
Lemma shape_focus2 ns h n l e1 s e2 :
  shape ns (S h) n l -> entries n = e1 ++ s :: e2 ->
  exists c1 a c c2 L y x R, n = mkNode (e1 ++ s :: e2) (c1 ++ a :: c :: c2) /\ length c1 = length e1
    /\ l = L ++ (y ++ s :: x) ++ R /\ lhole ns h e1 c1 L /\ sub ns MIN_KEYS h a y /\ sub ns MIN_KEYS h c x
    /\ rhole ns h e2 c2 R.
Proof.
  intros Hs Ee. destruct (shape_focus ns h n l (length e1) Hs) as
    (e1' & e2' & c1 & a & c2 & L & y & R & -> & H1 & Hc & -> & HL & Hy & HR); [rewrite Ee, length_app; lia|].
  cbn in Ee. apply app_inj_1 in Ee as [-> ->]; [|done]. apply rhole_inv in HR as (c & c2' & x & R' & -> & -> & HR & Hx).
  exists c1, a, c, c2', L, y, x, R'. split_and!; try done. by rewrite <- !app_assoc.
Qed.

Section Delete.
Context `{HL : HasherLaws} `{EL : Ed25519Laws} {S E : Type} `{SL : Store.StoreLaws S E}.
Context (max : N) (Hmax : limits max).
Implicit Types (ns : list Node) (b : Hyperbee S) (mode : option (Hypercore S)) (l : list entry).
Abbreviation holds := (holds max).
Abbreviation sub := HyperbeeTree.sub.

(** ** Rebalancing *)

(** At most two blocks more, and a node with the same listing and at most one
    entry less. *)
Definition rebalanced mode ns h l (m : nat) (n' : Node) b' : Prop :=
  exists ns', holds mode ns' b' /\ ns `prefix_of` ns' /\ (length ns' <= length ns + 2)%nat
    /\ shape ns' (Datatypes.S h) n' l /\ (m <= length (entries n') + 1 /\ length (entries n') <= m)%nat.

(** The children of two neighbours when an entry of one moves to the other. *)
Lemma leafy_nil h (mv : list N) : leafy h mv [] -> h = 0%nat /\ mv = [] \/ (0 < h)%nat /\ exists c, mv = [c].
Proof.
  destruct h as [|h]; cbn; [by left|]. intros Hl. right. split; [lia|]. destruct mv as [|c [|]]; try done. by exists c.
Qed.

Lemma borrow_left_spec mode ns b h e1 s e2 c1 a c c2 L y x R na nc :
  holds mode ns b -> lhole ns h e1 c1 L -> rhole ns h e2 c2 R -> length c1 = length e1 ->
  ns !! N.to_nat a = Some na -> shape ns h na y -> (MIN_KEYS < length (entries na) < MAX_CHILDREN)%nat ->
  ns !! N.to_nat c = Some nc -> shape ns h nc x -> (MIN_KEYS <= length (entries nc) + 1 /\ length (entries nc) < MIN_KEYS)%nat ->
  Forall (entry_ok max) (y ++ s :: x) -> room ns 2 ->
  wp (borrow_left (mkNode (e1 ++ s :: e2) (c1 ++ a :: c :: c2)) (Datatypes.S (length e1)) na)
    (rebalanced mode ns h (L ++ (y ++ s :: x) ++ R) (length (e1 ++ s :: e2))) (stopped mode) b.
Proof.
  intros Hh Hlh Hrh Hc Ea Hsa Hna Ec Hsc Hnc Hok Hr. unfold borrow_left. cbn [entries children pred].
  run. apply wp_bind. apply (wp_read max Hmax mode ns b c nc); [done..|]. run. run.
  destruct na as [ses scs], nc as [ces ccs]. cbn [entries children] in *.
  destruct (exists_last (l:=ses)) as (ses' & u & ->); [by destruct ses; cbn in Hna; [lia|]|].
  pose proof (shape_is_leaf _ _ _ _ Hsa) as Hleaf.
  apply shape_cut in Hsa as (scs' & mv & y1 & y2 & -> & -> & Hf1 & Hf2 & Hs1 & Hs2).
  apply wp_bind.
  eapply (wp_mono _ (λ r b', r = (scs', mv ++ ccs) /\ b' = b)); [|intros r b' [-> ->]|exact (λ _ _ H, H)].
  { rewrite Hleaf. destruct (leafy_nil h mv Hf2) as [[-> ->]|[Hh0 [d ->]]].
    - cbn in Hf1. subst scs'. by apply wp_ret.
    - destruct h as [|h]; [lia|]. cbn [Nat.eqb]. run. run. by apply wp_ret. }
  rewrite Forall_app, Forall_cons in Hok. destruct Hok as ([Hy1 [Hu Hy2]%Forall_cons]%Forall_app & Hs & Hx).
  run. run. apply wp_bind.
  eapply (wp_append_shape max Hmax _ _ _ MIN_KEYS); [done|exact Hs1|fill|done|unfold room in *; lia|].
  intros ns1 b1 -> Hh1 Hp1 Hlen1 Hsub1. run. apply wp_bind.
  assert (Hs3 : shape ns h (mkNode (s :: ces) (mv ++ ccs)) (y2 ++ s :: x)) by (by apply (shape_join ns h [] mv y2 s)).
  eapply (wp_append_shape max Hmax _ _ _ MIN_KEYS); [done|eapply shape_mono; [exact Hp1|exact Hs3]|fill|by apply Forall_app; split; [|constructor]|by apply room_app|].
  intros ns2 b2 E2 Hh2 Hp2 Hlen2 Hsub2.
  run.
  apply wp_ret. exists ns2. split_and!; [done|by etrans|lia| |fill|fill].
  assert (Hp : ns `prefix_of` ns2) by (by etrans).
  replace ((y1 ++ u :: y2) ++ s :: x) with (y1 ++ u :: (y2 ++ s :: x)) by (by rewrite <- app_assoc).
  apply shape_plug2; [by eapply lhole_mono|eapply sub_mono; [exact Hp2|exact Hsub1]|done|by eapply rhole_mono].
Qed.

Lemma borrow_right_spec mode ns b h e1 s e2 c1 a c c2 L y x R na nc :
  holds mode ns b -> lhole ns h e1 c1 L -> rhole ns h e2 c2 R -> length c1 = length e1 ->
  ns !! N.to_nat a = Some na -> shape ns h na y -> (MIN_KEYS <= length (entries na) + 1 /\ length (entries na) < MIN_KEYS)%nat ->
  ns !! N.to_nat c = Some nc -> shape ns h nc x -> (MIN_KEYS < length (entries nc) < MAX_CHILDREN)%nat ->
  Forall (entry_ok max) (y ++ s :: x) -> room ns 2 ->
  wp (borrow_right (mkNode (e1 ++ s :: e2) (c1 ++ a :: c :: c2)) (length e1) nc)
    (rebalanced mode ns h (L ++ (y ++ s :: x) ++ R) (length (e1 ++ s :: e2))) (stopped mode) b.
Proof.
  intros Hh Hlh Hrh Hc Ea Hsa Hna Ec Hsc Hnc Hok Hr. unfold borrow_right. cbn [entries children].
  run. apply wp_bind. apply (wp_read max Hmax mode ns b a na); [done..|]. run.
  destruct na as [aes acs], nc as [ses scs]. cbn [entries children] in *.
  destruct ses as [|u ses]; [cbn in Hnc; lia|].
  pose proof (shape_is_leaf _ _ _ _ Hsc) as Hleaf.
  apply (shape_cut ns h [] u ses) in Hsc as (mv & scs' & x1 & x2 & -> & -> & Hf1 & Hf2 & Hs1 & Hs2).
  apply wp_bind.
  eapply (wp_mono _ (λ r b', r = (scs', acs ++ mv) /\ b' = b)); [|intros r b' [-> ->]|exact (λ _ _ H, H)].
  { rewrite Hleaf. destruct (leafy_nil h mv Hf1) as [[-> ->]|[Hh0 [d ->]]].
    - cbn in Hf2. subst scs'. apply wp_ret. by rewrite (app_nil_r acs).
    - destruct h as [|h]; [lia|]. cbn [Nat.eqb app]. run. by apply wp_ret. }
  rewrite Forall_app, Forall_cons in Hok. destruct Hok as (Hy & Hs & [Hx1 [Hu Hx2]%Forall_cons]%Forall_app).
  run. run. apply wp_bind.
  assert (Hs3 : shape ns h (mkNode (aes ++ [s]) (acs ++ mv)) (y ++ s :: x1)) by (by apply shape_join).
  eapply (wp_append_shape max Hmax _ _ _ MIN_KEYS); [done|exact Hs3|fill|by apply Forall_app; split; [|constructor]|unfold room in *; lia|].
  intros ns1 b1 -> Hh1 Hp1 Hlen1 Hsub1. run. apply wp_bind.
  eapply (wp_append_shape max Hmax _ _ _ MIN_KEYS); [done|eapply shape_mono; [exact Hp1|exact Hs2]|fill|done|by apply room_app|].
  intros ns2 b2 E2 Hh2 Hp2 Hlen2 Hsub2. run. apply wp_ret. exists ns2. split_and!; [done|by etrans|lia| |fill|fill].
  assert (Hp : ns `prefix_of` ns2) by (by etrans).
  replace (y ++ s :: x1 ++ u :: x2) with ((y ++ s :: x1) ++ u :: x2) by (by rewrite <- app_assoc).
  apply shape_plug2; [by eapply lhole_mono|eapply sub_mono; [exact Hp2|exact Hsub1]|done|by eapply rhole_mono].
Qed.

Lemma merge_spec mode ns b h e1 s e2 c1 a c c2 L y x R na nc i :
  holds mode ns b -> lhole ns h e1 c1 L -> rhole ns h e2 c2 R -> length c1 = length e1 ->
  ns !! N.to_nat a = Some na -> shape ns h na y -> ns !! N.to_nat c = Some nc -> shape ns h nc x ->
  (MIN_KEYS <= length (entries na) + 1 + length (entries nc) /\ length (entries na) + 1 + length (entries nc) < MAX_CHILDREN)%nat ->
  Forall (entry_ok max) (y ++ s :: x) -> room ns 2 -> i = Datatypes.S (length e1) \/ i = 0%nat /\ e1 = [] ->
  wp (merge_child (mkNode (e1 ++ s :: e2) (c1 ++ a :: c :: c2)) i)
    (rebalanced mode ns h (L ++ (y ++ s :: x) ++ R) (length (e1 ++ s :: e2))) (stopped mode) b.
Proof.
  intros Hh Hlh Hrh Hc Ea Hsa Ec Hsc Hn Hok Hr Hi. unfold merge_child.
  assert (Ei : (if (0 <? i)%nat then (pred i, i) else (i, Datatypes.S i)) = (length e1, Datatypes.S (length e1))).
  { destruct Hi as [->|[-> ->]]; done. }
  rewrite Ei. cbn [entries children]. destruct na as [aes acs], nc as [ces ccs]. cbn [entries children] in *.
  run. apply wp_bind. apply (wp_read max Hmax mode ns b a (mkNode aes acs)); [done..|].
  run. apply wp_bind. apply (wp_read max Hmax mode ns b c (mkNode ces ccs)); [done..|]. run. apply wp_bind. cbn [entries children].
  eapply (wp_append_shape max Hmax _ _ _ MIN_KEYS); [done|by apply shape_join|fill|done|unfold room in *; lia|].
  intros ns1 b1 E1 Hh1 Hp1 Hlen1 Hsub1. run. run. run. apply wp_ret. exists ns1. split_and!; [done..|lia| |fill|fill].
  apply shape_plug; [by eapply lhole_mono|done|by eapply rhole_mono].
Qed.

(** A child one key short. *)
Definition short (n : Node) : Prop := (MIN_KEYS <= length (entries n) + 1 /\ length (entries n) < MIN_KEYS)%nat.

Lemma try_right_spec mode ns b h e1 e2 c1 c c2 L x R nc :
  holds mode ns b -> lhole ns h e1 c1 L -> rhole ns h e2 c2 R -> length c1 = length e1 ->
  ns !! N.to_nat c = Some nc -> shape ns h nc x -> short nc ->
  Forall (entry_ok max) (x ++ R) -> room ns 2 ->
  let n := mkNode (e1 ++ e2) (c1 ++ c :: c2) in
  let Q := rebalanced mode ns h (L ++ x ++ R) (length (e1 ++ e2)) in
  (forall s e2' d c2' y R' nd, e2 = s :: e2' -> c2 = d :: c2' -> R = s :: y ++ R' -> rhole ns h e2' c2' R' ->
     ns !! N.to_nat d = Some nd -> shape ns h nd y -> length (entries nd) = MIN_KEYS ->
     wp (merge_child n (length e1)) Q (stopped mode) b) ->
  (e2 = [] -> wp (merge_child n (length e1)) Q (stopped mode) b) ->
  wp (try_right n (length e1)) Q (stopped mode) b.
Proof.
  intros Hh Hlh Hrh Hc Ec Hsc Hnc Hok Hr n Q Hm Hm0. unfold try_right. subst n. cbn [children] in *.
  destruct e2 as [|s e2].
  - destruct Hrh as (ks & Hl2 & _ & _). destruct c2 as [|]; [|done]. rewrite length_app. cbn [length].
    destruct (Nat.ltb_spec (Datatypes.S (length e1)) (length c1 + 1)); [lia|]. by apply Hm0.
  - apply rhole_inv in Hrh as (d & c2' & y & R' & -> & -> & Hrh & (nd & Ed & Hnd & Hsd)).
    rewrite length_app. cbn [length]. destruct (Nat.ltb_spec (Datatypes.S (length e1)) (length c1 + Datatypes.S (Datatypes.S (length c2')))); [|lia].
    run. apply wp_bind. apply (wp_read max Hmax mode ns b d nd); [done..|].
    destruct (Nat.ltb_spec MIN_KEYS (length (entries nd))) as [Hlt|Hge].
    + subst Q. replace (x ++ s :: y ++ R') with ((x ++ s :: y) ++ R') in * by (by rewrite <- app_assoc).
      apply Forall_app in Hok as [Hok _].
      eapply borrow_right_spec; (done || lia).
    + eapply Hm; (done || lia).
Qed.

Lemma rebalance_spec mode ns b h e1 e2 c1 c c2 L x R nc :
  holds mode ns b -> lhole ns h e1 c1 L -> rhole ns h e2 c2 R -> length c1 = length e1 ->
  ns !! N.to_nat c = Some nc -> shape ns h nc x -> short nc ->
  Forall (entry_ok max) (L ++ x ++ R) -> room ns 2 -> (1 <= length (e1 ++ e2))%nat ->
  wp (rebalance (mkNode (e1 ++ e2) (c1 ++ c :: c2)) (length e1))
    (rebalanced mode ns h (L ++ x ++ R) (length (e1 ++ e2))) (stopped mode) b.
Proof.
  intros Hh Hlh Hrh Hc Ec Hsc Hnc Hok Hr Hne. unfold rebalance. pose proof Hok as [_ Hxr]%Forall_app.
  destruct e1 as [|f e1'] eqn:Ee1.
  - cbn [length Nat.ltb Nat.leb]. eapply (try_right_spec mode ns b h []); [done..| |].
    + intros s e2' d c2' y R' nd -> -> -> Hrh' Ed Hsd Hnd. destruct c1; [|done]. cbn [length app].
      replace (x ++ s :: y ++ R') with ((x ++ s :: y) ++ R') in * by (by rewrite <- app_assoc).
      apply Forall_app in Hxr as [Hxy _].
      apply (merge_spec mode ns b h [] s e2' [] c d c2' L x y R' nc nd 0); try done; [|by right].
      unfold short in Hnc. fill.
    + intros ->. cbn in Hne. lia.
  - rewrite <- Ee1 in *. destruct (exists_last (l:=e1)) as (e1'' & s & Es); [by rewrite Ee1|]. clear f e1' Ee1. subst e1.
    pose proof Hlh as (c1' & a & L' & y & -> & -> & Hlh' & (na & Ea & Hna & Hsa))%lhole_inv.
    assert (Ees : (e1'' ++ [s]) ++ e2 = e1'' ++ s :: e2) by (by rewrite <- app_assoc).
    assert (Ecs : (c1' ++ [a]) ++ c :: c2 = c1' ++ a :: c :: c2) by (by rewrite <- app_assoc).
    assert (Ei : length (e1'' ++ [s]) = Datatypes.S (length e1'')) by (rewrite length_app; cbn; lia).
    rewrite length_app in Hc. cbn in Hc.
    assert (Elist : (L' ++ y ++ [s]) ++ x ++ R = L' ++ (y ++ s :: x) ++ R) by (by rewrite <- !app_assoc).
    assert (Hpair : Forall (entry_ok max) (y ++ s :: x)).
    { rewrite Elist in Hok. apply Forall_app in Hok as [_ [Hok _]%Forall_app]. done. }
    assert (Hmerge : length (entries na) = MIN_KEYS ->
      wp (merge_child (mkNode (e1'' ++ s :: e2) (c1' ++ a :: c :: c2)) (Datatypes.S (length e1'')))
        (rebalanced mode ns h (L' ++ (y ++ s :: x) ++ R) (length (e1'' ++ s :: e2))) (stopped mode) b).
    { intros Hlen. eapply merge_spec; try done; [lia| |by left]. unfold short in Hnc. fill. }
    pose proof (try_right_spec mode ns b h (e1'' ++ [s]) e2 (c1' ++ [a]) c c2 (L' ++ y ++ [s]) x R nc) as Hright.
    cbn zeta in Hright. rewrite Ees, Ecs, Elist, Ei in *. change (0 <? Datatypes.S (length e1''))%nat with true. cbn [pred children].
    run. apply wp_bind. apply (wp_read max Hmax mode ns b a na); [done..|].
    destruct (Nat.ltb_spec MIN_KEYS (length (entries na))) as [Hlt|Hge].
    + eapply borrow_left_spec; (done || lia).
    + assert (Hlen : length (entries na) = MIN_KEYS) by lia. apply Hright; try done.
      * rewrite length_app. cbn. lia.
      * intros. by apply Hmerge.
      * intros _. by apply Hmerge.
Qed.

(** ** Sealing a node *)

(** At most [k] blocks more, the last of them the node [s] of the tree of [l']. *)
Definition sealed mode ns (k lo h : nat) l' (s : N) (u : bool) b' : Prop :=
  exists ns' n, holds mode ns' b' /\ ns `prefix_of` ns' /\ (length ns' <= length ns + k)%nat /\ lenN ns' = s + 1
    /\ ns' !! N.to_nat s = Some n /\ (lo <= length (entries n) < MAX_CHILDREN)%nat
    /\ u = (length (entries n) <? MIN_KEYS)%nat /\ shape ns' h n l'.

Lemma seal_spec mode ns b lo h n l :
  holds mode ns b -> shape ns h n l -> (lo <= length (entries n) < MAX_CHILDREN)%nat ->
  Forall (entry_ok max) l -> room ns 1 ->
  wp (seal n) (λ r, sealed mode ns 1 lo h l r.1 r.2) (stopped mode) b.
Proof.
  intros Hh Hs Hn Hl Hr. unfold seal. apply wp_bind. eapply (wp_append_shape max Hmax); [done..|].
  intros ns' b' -> Hh' Hp Hlen _. apply wp_ret. cbn [fst snd]. exists (ns ++ [n]), n.
  split_and!; [done|done|lia|by rewrite lenN_snoc| |lia|lia|done|by eapply shape_mono].
  unfold lenN. rewrite Nat2N.id. by apply list_lookup_middle.
Qed.

Lemma refit_spec mode ns b lo h e1 e2 c1 c c2 L x R nc :
  holds mode ns b -> lhole ns h e1 c1 L -> rhole ns h e2 c2 R -> length c1 = length e1 ->
  ns !! N.to_nat c = Some nc -> shape ns h nc x -> (MIN_KEYS <= length (entries nc) + 1 /\ length (entries nc) < MAX_CHILDREN)%nat ->
  Forall (entry_ok max) (L ++ x ++ R) -> room ns 3 ->
  (1 <= length (e1 ++ e2))%nat -> (lo <= length (e1 ++ e2) < MAX_CHILDREN)%nat ->
  wp (refit (mkNode (e1 ++ e2) (c1 ++ c :: c2)) (length e1) (length (entries nc) <? MIN_KEYS)%nat)
    (λ r, sealed mode ns 3 (pred lo) (Datatypes.S h) (L ++ x ++ R) r.1 r.2) (stopped mode) b.
Proof.
  intros Hh Hlh Hrh Hc Ec Hsc Hnc Hok Hr Hne Hlo. unfold refit, rebalance_if. apply wp_bind.
  eapply (wp_mono _ (rebalanced mode ns h (L ++ x ++ R) (length (e1 ++ e2)))); [|intros n' b1 Hrb|exact (λ _ _ H, H)].
  - destruct (Nat.ltb_spec (length (entries nc)) MIN_KEYS) as [Hlt|Hge].
    + eapply rebalance_spec; try done; [unfold short; lia|unfold room in *; lia].
    + apply wp_ret. exists ns. split_and!; [done|done|lia| |cbn [entries]; lia|cbn [entries]; lia]. apply shape_plug; [done| |done].
      exists nc. split_and!; [done|lia..|done].
  - destruct Hrb as (ns1 & Hh1 & Hp1 & Hlen1 & Hs1 & Hm1 & Hm2).
    eapply wp_mono; [apply (seal_spec mode ns1 b1 (pred lo)); [done|exact Hs1|lia|done|unfold room, lenN in *; lia]| |done].
    intros [s u] b2 (ns2 & n2 & Hh2 & Hp2 & Hlen2 & Hrest). exists ns2, n2. split_and!; try apply Hrest; [done|by etrans|lia].
Qed.

Lemma sealed_weaken mode ns ns1 k k' lo h l s u b :
  ns `prefix_of` ns1 -> (length ns1 + k <= length ns + k')%nat ->
  sealed mode ns1 k lo h l s u b -> sealed mode ns k' lo h l s u b.
Proof.
  intros Hp Hk (ns2 & n2 & Hh2 & Hp2 & Hlen2 & Hrest). exists ns2, n2. split_and!; try apply Hrest; [done|by etrans|lia].
Qed.

(** The child at [length e1] was rewritten to a sealed node: refit the parent. *)
Lemma refit_sealed mode ns b k lo h e1 e2 c1 c2 L x R s u :
  lhole ns h e1 c1 L -> rhole ns h e2 c2 R -> length c1 = length e1 ->
  sealed mode ns k (pred MIN_KEYS) h x s u b -> Forall (entry_ok max) (L ++ x ++ R) -> room ns (k + 3) ->
  (1 <= length (e1 ++ e2))%nat -> (lo <= length (e1 ++ e2) < MAX_CHILDREN)%nat ->
  wp (refit (mkNode (e1 ++ e2) (c1 ++ s :: c2)) (length e1) u)
    (λ r, sealed mode ns (k + 3) (pred lo) (Datatypes.S h) (L ++ x ++ R) r.1 r.2) (stopped mode) b.
Proof.
  intros Hlh Hrh Hc (ns1 & nc & Hh1 & Hp1 & Hlen1 & _ & Es & Hnc & -> & Hsc) Hok Hr Hne Hlo.
  eapply wp_mono; [apply (refit_spec mode ns1 b lo h e1 e2 c1 s c2 L x R nc); try done| |done].
  - by eapply lhole_mono.
  - by eapply rhole_mono.
  - fill.
  - unfold room, lenN in *. lia.
  - intros r b'. apply sealed_weaken; [done|lia].
Qed.

(** ** The smallest and the largest entry *)

Lemma delete_min_spec fuel mode ns b h s l :
  holds mode ns b -> sub ns MIN_KEYS h s l -> (h < fuel)%nat -> Forall (entry_ok max) l ->
  room ns (3 * Datatypes.S h) ->
  wp (delete_min fuel s)
    (λ r b', exists l', l = r.1.1 :: l' /\ sealed mode ns (3 * Datatypes.S h) (pred MIN_KEYS) h l' r.1.2 r.2 b')
    (stopped mode) b.
Proof.
  revert fuel mode ns b s l. induction h as [|h IH]; intros fuel mode ns b s l Hh (n & En & Hn & Hs) Hf Hok Hr;
    (destruct fuel as [|fuel]; [lia|]); cbn [delete_min]; apply wp_bind; apply (wp_read max Hmax mode ns b s n); [done..| |done|done|];
    rewrite (shape_is_leaf _ _ _ _ Hs); cbn [Nat.eqb].
  - destruct Hs as [Ec ->]. destruct n as [[|e es] cs]; cbn [entries children] in *; [cbn in Hn; unfold MIN_KEYS in Hn; cbn in Hn; lia|].
    apply wp_bind. eapply wp_runs; [apply (vec_remove_at []); done|]. cbn [app]. apply Forall_cons in Hok as [He Hok]. apply wp_bind.
    eapply wp_mono; [apply (seal_spec mode ns b (pred MIN_KEYS) 0 _ es); [done| |fill|done|unfold room in *; lia]| |done].
    + done.
    + intros [s' u] b' Hse. apply wp_ret. exists es. split; [done|]. eapply sealed_weaken; [| |exact Hse]; [done|lia].
  - destruct (shape_focus ns h n l 0 Hs) as (e1 & e2 & c1 & c & c2 & L & x & R & -> & H1 & Hc & -> & Hlh & Hx & Hrh); [lia|].
    destruct e1, c1; try done. destruct Hlh as (ks & _ & Hk%Forall2_nil_inv_l & ->). subst ks. cbn [zl app entries children] in *.
    apply wp_bind. eapply wp_runs; [by apply (vec_get_at [])|]. apply Forall_app in Hok as [Hokx HokR].
    apply wp_bind. eapply wp_mono; [apply (IH fuel mode ns b c x); [done..|lia|done|unfold room in *; lia]| |done].
    intros [[e s'] u] b1 (x' & -> & Hse). cbn [fst snd] in *.
    apply wp_bind. eapply wp_runs; [by apply (vec_set_at [])|]. cbn [app]. apply wp_bind.
    apply Forall_cons in Hokx as [_ Hokx].
    eapply wp_mono; [apply (refit_sealed mode ns b1 (3 * Datatypes.S h) MIN_KEYS h [] e2 [] c2 [] x' R s' u);
      [apply lhole_nil|done|done|done|cbn [app]; by apply Forall_app|unfold room in *; lia|fill|done]| |done].
    intros [s2 u2] b2 Hse2. apply wp_ret. exists (x' ++ R). split; [done|].
    eapply sealed_weaken; [| |exact Hse2]; [done|lia].
Qed.

Lemma delete_max_spec fuel mode ns b h s l :
  holds mode ns b -> sub ns MIN_KEYS h s l -> (h < fuel)%nat -> Forall (entry_ok max) l ->
  room ns (3 * Datatypes.S h) ->
  wp (delete_max fuel s)
    (λ r b', exists l', l = l' ++ [r.1.1] /\ sealed mode ns (3 * Datatypes.S h) (pred MIN_KEYS) h l' r.1.2 r.2 b')
    (stopped mode) b.
Proof.
  revert fuel mode ns b s l. induction h as [|h IH]; intros fuel mode ns b s l Hh (n & En & Hn & Hs) Hf Hok Hr;
    (destruct fuel as [|fuel]; [lia|]); cbn [delete_max]; apply wp_bind; apply (wp_read max Hmax mode ns b s n); [done..| |done|done|];
    rewrite (shape_is_leaf _ _ _ _ Hs); cbn [Nat.eqb].
  - destruct Hs as [Ec ->]. destruct n as [es cs]; cbn [entries children] in *.
    destruct (exists_last (l:=es)) as (es' & e & ->); [by destruct es; cbn in Hn; [unfold MIN_KEYS in Hn; cbn in Hn; lia|]|].
    run. apply Forall_app in Hok as [Hok _]. apply wp_bind.
    eapply wp_mono; [apply (seal_spec mode ns b (pred MIN_KEYS) 0 _ es'); [done| |fill|done|unfold room in *; lia]| |done].
    + done.
    + intros [s' u] b' Hse. apply wp_ret. exists es'. split; [done|]. eapply sealed_weaken; [| |exact Hse]; [done|lia].
  - pose proof (shape_leafy _ _ _ _ Hs) as Hlen. cbn in Hlen.
    destruct (shape_focus ns h n l (length (entries n)) Hs) as (e1 & e2 & c1 & c & c2 & L & x & R & -> & H1 & Hc & -> & Hlh & Hx & Hrh); [lia|].
    cbn [entries children] in *. rewrite length_app in H1. destruct e2; [|cbn in H1; lia].
    destruct Hrh as (ks & Hlk & Hk & ->). destruct c2; [|done]. apply Forall2_nil_inv_l in Hk as ->. cbn [zr] in *.
    rewrite !app_nil_r in *. rewrite Hlen. cbn [pred]. run. apply Forall_app in Hok as [HokL Hokx].
    apply wp_bind. eapply wp_mono; [apply (IH fuel mode ns b c x); [done..|lia|done|unfold room in *; lia]| |done].
    intros [[e s'] u] b1 (x' & -> & Hse). cbn [fst snd] in *. run. apply wp_bind. apply Forall_app in Hokx as [Hokx _].
    assert (Hwp := refit_sealed mode ns b1 (3 * Datatypes.S h) MIN_KEYS h e1 [] c1 [] L x' [] s' u).
    rewrite !app_nil_r in Hwp.
    eapply wp_mono; [apply Hwp; [done|apply rhole_nil|lia|done|by apply Forall_app|unfold room in *; lia|fill|done]| |done].
    intros [s2 u2] b2 Hse2. apply wp_ret. exists (L ++ x'). split; [by rewrite app_assoc|].
    eapply sealed_weaken; [| |exact Hse2]; [done|lia].
Qed.

Lemma boundary_spec mode ns b lo h s l leftmost :
  holds mode ns b -> sub ns lo h s l -> wp (boundary_leaf_len s leftmost) (λ _ b', b' = b) (stopped mode) b.
Proof.
  intros Hh Hsub. assert (Hd : (h <= N.to_nat s)%nat) by (eapply sub_height; [apply Hh|done]).
  destruct Hsub as (n & En & _ & Hs). unfold boundary_leaf_len, depth. apply wp_bind.
  apply (wp_read max Hmax mode ns b s n); [done..|].
  assert (Hfu : (h <= Datatypes.S (N.to_nat s))%nat) by lia. clear Hd En. revert Hfu. generalize (Datatypes.S (N.to_nat s)) as fuel.
  revert n l Hs. induction h as [|h IH]; intros n l Hs fuel Hfu.
  - assert (Hl := shape_is_leaf _ _ _ _ Hs). destruct fuel; cbn [boundary_leaf_loop]; rewrite Hl; by apply wp_ret.
  - destruct fuel as [|fuel]; [lia|]. cbn [boundary_leaf_loop]. rewrite (shape_is_leaf _ _ _ _ Hs). cbn [Nat.eqb].
    apply shape_S in Hs as (ks & Hl & Hk & _).
    assert (exists i c, (if leftmost then Vec.get (children n) 0 else expect (last (children n))) = Done c /\ children n !! i = Some c)
      as (i & c & -> & Hc).
    { destruct leftmost.
      - destruct (children n) as [|c cs]; [done|]. by exists 0%nat, c.
      - destruct (exists_last (l:=children n)) as (cs & c & ->); [by destruct (children n)|]. rewrite last_snoc.
        exists (length cs), c. split; [done|]. by apply list_lookup_middle. }
    apply wp_bind. eapply wp_runs; [done|]. destruct (Forall2_lookup_l _ _ _ _ _ Hk Hc) as (x & _ & (n' & En' & _ & Hs')).
    apply wp_bind. apply (wp_read max Hmax mode ns b c n'); [done..|]. eapply IH; [exact Hs'|lia].
Qed.

(** ** Deleting a key *)

(** The answer of [delete] on the tree of [l]: nothing was changed, or the tree is
    that of the rest. *)
Definition deleted mode ns (lo h : nat) (k : bytes) l (r : Del) b' : Prop :=
  match r with
  | NotFound => holds mode ns b' /\ to_map l !! k = None
  | Del_Down s u => is_Some (to_map l !! k)
      /\ sealed mode ns (3 * Datatypes.S h) (pred lo) h (kv_delete k l) s u b'
  end.

Lemma replace_separator_spec mode ns b lo h n l e1 k v e2 :
  holds mode ns b -> shape ns (Datatypes.S h) n l -> entries n = e1 ++ (k, v) :: e2 -> ordered l ->
  (lo <= length (entries n) < MAX_CHILDREN)%nat -> Forall (entry_ok max) l -> room ns (3 * Datatypes.S (Datatypes.S h)) ->
  wp (replace_separator n (length e1)) (deleted mode ns lo (Datatypes.S h) k l) (stopped mode) b.
Proof.
  intros Hh Hs Ee Ho Hn Hok Hr. unfold replace_separator.
  destruct (shape_focus2 ns h n l e1 (k, v) e2 Hs Ee) as (c1 & a & c & c2 & L & y & x & R & -> & Hc & -> & Hlh & Hy & Hx & Hrh).
  cbn [entries children] in *. run. run. apply wp_bind.
  eapply wp_mono; [by eapply boundary_spec| |done]. intros ls ? ->.
  apply wp_bind. eapply wp_mono; [by eapply boundary_spec| |done]. intros rs ? ->.
  assert (Hda := sub_height _ _ _ _ _ (bw_down _ _ (proj1 Hh)) Hy). assert (Hdc := sub_height _ _ _ _ _ (bw_down _ _ (proj1 Hh)) Hx).
  replace (L ++ (y ++ (k, v) :: x) ++ R) with ((L ++ y) ++ (k, v) :: (x ++ R)) in * by (by rewrite <- !app_assoc).
  pose proof Ho as (_ & _ & Hb & Ha)%ordered_mid. cbn [fst] in Hb, Ha.
  assert (Hin : is_Some (to_map ((L ++ y) ++ (k, v) :: (x ++ R)) !! k)) by (rewrite to_map_key by done; eauto).
  assert (Hdel := kv_delete_key k v (L ++ y) (x ++ R) Hb Ha).
  apply Forall_app in Hok as [[HokL Hoky]%Forall_app [Hkv [Hokx HokR]%Forall_app]%Forall_cons].
  unfold fix_child. destruct (ls <? rs)%nat.
  - apply wp_bind. eapply wp_mono; [apply (delete_min_spec _ mode ns b h c x); [done..|unfold depth; lia|done|unfold room in *; lia]| |done].
    intros [[e s'] u] b1 (x' & -> & Hse). cbn [fst snd] in *. run. run. apply wp_bind. apply Forall_cons in Hokx as [He Hokx].
    pose proof (refit_sealed mode ns b1 (3 * Datatypes.S h) lo h (e1 ++ [e]) e2 (c1 ++ [a]) c2 (L ++ y ++ [e]) x' R s' u) as Hwp.
    rewrite <- !(app_assoc _ [_]) in Hwp. cbn [app] in Hwp.
    replace (Datatypes.S (length e1)) with (length (e1 ++ [e])) by (rewrite length_app; cbn; lia).
    eapply wp_mono; [apply Hwp; [by apply lhole_snoc|done|rewrite !length_app; cbn; lia|done| |unfold room in *; lia|fill|fill]| |done].
    + rewrite !Forall_app. split_and!; try done. by apply Forall_singleton.
    + intros [s2 u2] b2 Hse2. apply wp_ret. split; [done|]. cbn [app] in Hdel. rewrite Hdel.
      replace ((L ++ y) ++ e :: x' ++ R) with ((L ++ y ++ [e]) ++ x' ++ R) by (by rewrite <- !app_assoc).
      eapply sealed_weaken; [| |exact Hse2]; [done|lia].
  - apply wp_bind. eapply wp_mono; [apply (delete_max_spec _ mode ns b h a y); [done..|unfold depth; lia|done|unfold room in *; lia]| |done].
    intros [[e s'] u] b1 (y' & -> & Hse). cbn [fst snd] in *. run. run. apply wp_bind. apply Forall_app in Hoky as [Hoky He].
    eapply wp_mono; [apply (refit_sealed mode ns b1 (3 * Datatypes.S h) lo h e1 (e :: e2) c1 (c :: c2) L y' (e :: x ++ R) s' u);
      [done|by apply rhole_cons|lia|done| |unfold room in *; lia|fill|fill]| |done].
    + rewrite Forall_singleton in He. rewrite !Forall_app, Forall_cons, Forall_app. tauto.
    + intros [s2 u2] b2 Hse2. apply wp_ret. split; [done|]. rewrite Hdel.
      replace ((L ++ y' ++ [e]) ++ x ++ R) with (L ++ y' ++ e :: x ++ R) by (by rewrite <- !app_assoc).
      eapply sealed_weaken; [| |exact Hse2]; [done|lia].
Qed.

Lemma delete_entry_ok k l : Forall (entry_ok max) l -> Forall (entry_ok max) (kv_delete k l).
Proof.
  rewrite !Forall_forall. intros Hl e [_ He]%list_elem_of_filter. by apply Hl.
Qed.

Lemma delete_spec fuel mode ns b lo h s l k :
  holds mode ns b -> sub ns lo h s l -> ordered l -> (h < fuel)%nat -> (match h with O => 0 | Datatypes.S _ => 1 end <= lo)%nat ->
  Forall (entry_ok max) l -> room ns (3 * Datatypes.S h) ->
  wp (delete fuel s k) (deleted mode ns lo h k l) (stopped mode) b.
Proof.
  revert fuel mode ns b lo s l. induction h as [|h IH]; intros fuel mode ns b lo s l Hh (n & En & Hn & Hs) Ho Hf Hlo Hok Hr;
    (destruct fuel as [|fuel]; [lia|]); cbn [delete]; apply wp_bind; apply (wp_read max Hmax mode ns b s n); [done..| |done|done|];
    pose proof (search_spec (entries n) k (shape_ordered _ _ _ _ Hs Ho)) as Hse; destruct (search (entries n) k) as [i|i];
    rewrite (shape_is_leaf _ _ _ _ Hs); cbn [Nat.eqb].
  - destruct Hse as (e1 & v & e2 & Ee & -> & Hb & Ha). destruct Hs as [Ec ->]. destruct n as [es cs]. cbn [entries children] in *. subst.
    run. apply wp_bind. rewrite Forall_app, Forall_cons in Hok. destruct Hok as (Hok1 & Hkv & Hok2).
    eapply wp_mono; [apply (seal_spec mode ns b (pred lo) 0 _ (e1 ++ e2)); [done|done|fill|by apply Forall_app|unfold room in *; lia]| |done].
    intros [s' u] b' Hse. apply wp_ret. split; [rewrite to_map_key by done; eauto|]. rewrite kv_delete_key by done.
    eapply sealed_weaken; [| |exact Hse]; [done|lia].
  - destruct Hse as (e1 & e2 & Ee & -> & Hb & Ha). destruct Hs as [Ec ->]. rewrite Ee. apply wp_ret. split; [done|].
    by rewrite to_map_app, (to_map_below k e1), (to_map_above k e2).
  - destruct Hse as (e1 & v & e2 & Ee & -> & _). eapply replace_separator_spec; done.
  - destruct Hse as (e1 & e2 & Ee & -> & Hb & Ha).
    destruct (shape_descend ns h n l k e1 e2) as (c1 & c & c2 & L & x & R & -> & Hc & -> & Hox & HbL & HaR & Hlh & Hx & Hrh); [done..|].
    cbn [entries children] in *. run. pose proof Hok as (HokL & [Hokx HokR]%Forall_app)%Forall_app. apply wp_bind.
    eapply wp_mono; [apply (IH fuel mode ns b MIN_KEYS c x); [done..|lia|destruct h; unfold MIN_KEYS; cbn; lia|done|unfold room in *; lia]| |done].
    unfold fix_child, deleted. rewrite to_map_mid, kv_delete_mid by done. intros [|s' u] b1.
    + intros [Hh1 Hnone]. by apply wp_ret.
    + intros [Hin Hse]. run. apply wp_bind.
      eapply wp_mono; [apply (refit_sealed mode ns b1 (3 * Datatypes.S h) lo h e1 e2 c1 c2 L (kv_delete k x) R s' u);
        [done|done|lia|done| |unfold room in *; lia|lia|done]| |done].
      * rewrite !Forall_app. split_and!; [done|by apply delete_entry_ok|done].
      * intros [s2 u2] b2 Hse2. apply wp_ret. split; [done|]. eapply sealed_weaken; [| |exact Hse2]; [done|lia].
Qed.
End Delete.
End HyperbeeDelete.
