(* ===== verification/HyperbeeMap.v ===== *)
(** * [hyperbee]: the tree as a map

    The blocks of a tree stand for a map of keys to values ([tree_of]); the public
    methods read and change that map.  A read anchored at an older root sees the
    map of the blocks up to that root. *)
From S2P Require Import Prelude Codec Flat Merkle MerkleSpec Store Identity Hypercore HypercoreLog.
From S2P Require Import Hyperbee HyperbeeSpec HyperbeeTree HyperbeeCodec HyperbeeBlocks HyperbeeInsert HyperbeeDelete.

Module HyperbeeMap.
Import MerkleSpec Hypercore HypercoreLog.
Import Hyperbee HyperbeeSpec HyperbeeTree HyperbeeCodec HyperbeeBlocks HyperbeeInsert HyperbeeDelete.

(** The root may hold fewer keys than the other nodes. *)
Definition root_lo (h : nat) : nat := match h with O => 0 | S _ => 1 end.

Definition rooted (ns : list Node) (l : list entry) : Prop :=
  ordered l /\ match ns with [] => l = [] | _ => exists h, sub ns (root_lo h) h (lenN ns - 1) l end.
Definition tree_of (ns : list Node) (m : gmap bytes bytes) : Prop := rooted ns (bmap_list m).

Lemma rooted_tree ns l m : rooted ns l -> to_map l = m -> tree_of ns m.
Proof. intros Hr <-. unfold tree_of. rewrite <- ordered_listing; [done|apply Hr]. Qed.
Lemma to_map_listing m : to_map (bmap_list m) = m.
Proof. apply bmap_list_to_map. Qed.
Lemma bmap_list_empty : bmap_list (∅ : gmap bytes bytes) = [].
Proof. done. Qed.
Lemma tree_of_empty : tree_of [] ∅.
Proof. split; [constructor|done]. Qed.

(** The last block of a list that is not empty. *)
Lemma lenN_last {A} (ns : list A) s : lenN ns = s + 1 -> lenN ns - 1 = s /\ ns <> [].
Proof. intros Hl. split; [lia|]. intros ->. unfold lenN in Hl. cbn in Hl. lia. Qed.
Lemma rooted_last ns h s l : lenN ns = s + 1 -> ordered l -> sub ns (root_lo h) h s l -> rooted ns l.
Proof.
  intros [<- Hne]%lenN_last Ho Hs. split; [done|]. destruct ns; [done|]. by exists h.
Qed.

Section Map.
Context `{HL : HasherLaws} `{EL : Ed25519Laws} {S E : Type} `{SL : Store.StoreLaws S E}.
Context (max : N) (Hmax : limits max).
Implicit Types (ns : list Node) (b : Hyperbee S) (mode : option (Hypercore S)) (l : list entry).
Implicit Types (m : gmap bytes bytes) (k v : bytes).
Abbreviation holds := (holds max).
Abbreviation sub := HyperbeeTree.sub.

(** An operation on fewer than [2^64] keys writes at most 85 blocks: the tree is at
    most 27 levels deep. *)
Definition op_blocks : N := 85.
Definition spare ns m : Prop := lenN ns + op_blocks <= Flat.max_blocks /\ N.of_nat (size m) < two64.

Lemma root_height ns h l :
  ns <> [] -> sub ns (root_lo h) h (lenN ns - 1) l -> N.of_nat (length l) < two64 -> (h <= 27)%nat.
Proof.
  intros Hne (n & En & Hn & Hs%shape_length) Hl. destruct (decide (h <= 27)%nat) as [|Hh]; [done|exfalso].
  assert (Hpow : N.of_nat (Datatypes.S (length (entries n)) * (MIN_KEYS + 1) ^ h) <= two64) by lia.
  rewrite Nat2N.inj_mul, Nat2N.inj_pow in Hpow. change (N.of_nat (MIN_KEYS + 1)) with 5 in Hpow.
  assert (5 ^ 28 <= 5 ^ N.of_nat h) by (apply N.pow_le_mono_r; lia). assert (2 * 5 ^ 28 > two64) by done.
  destruct h as [|h]; [lia|]. cbn [root_lo] in Hn. assert (2 <= N.of_nat (Datatypes.S (length (entries n)))) by lia. nia.
Qed.

Lemma root_room mode ns b h m :
  holds mode ns b -> sub ns (root_lo h) h (lenN ns - 1) (bmap_list m) -> ns <> [] -> spare ns m ->
  (h < depth (lenN ns - 1))%nat /\ (3 * Datatypes.S h + 1 <= 85)%nat /\ room ns (3 * Datatypes.S h + 1)
  /\ Forall (entry_ok max) (bmap_list m).
Proof.
  intros Hh Hs Hne [Hsp Hm]. pose proof (sub_height _ _ _ _ _ (bw_down _ _ (proj1 Hh)) Hs). unfold depth.
  pose proof (root_height ns h _ Hne Hs) as Hht. rewrite bmap_list_length in Hht. specialize (Hht Hm).
  split_and!; [lia|lia|unfold room, op_blocks in *; lia|]. eapply sub_entries; [|exact Hs].
  eapply Forall_impl; [apply (bw_nodes _ _ (proj1 Hh))|]. intros n Hn. apply Hn.
Qed.

(** ** Reading *)

Lemma get_at_root_spec mode ns ns0 b m k :
  holds mode ns b -> ns0 `prefix_of` ns -> tree_of ns0 m ->
  wp (get_at_root (checked_pred (lenN ns0)) k) (λ r b', b' = b /\ r = m !! k) (stopped mode) b.
Proof.
  intros Hh Hp [Ho Ht]. unfold checked_pred, get_at_root. destruct ns0 as [|n0 ns0'] eqn:En.
  - cbn. apply wp_ret. split; [done|]. rewrite <- (to_map_listing m), Ht. done.
  - rewrite <- En in *. destruct (N.eqb_spec (lenN ns0) 0) as [E0|]; [by rewrite En in E0; unfold lenN in E0; cbn in E0|].
    destruct Ht as [h Hs]. apply (sub_mono _ _ _ _ _ _ Hp) in Hs.
    eapply wp_mono; [eapply get_from_spec; [done|done|exact Hs|done|]| |done].
    + pose proof (sub_height _ _ _ _ _ (bw_down _ _ (proj1 Hh)) Hs). unfold depth. lia.
    + intros r b' [-> ->]. by rewrite to_map_listing.
Qed.

(** In-order traversal. *)
Lemma collect_spec fuel mode ns b lo h s l out :
  holds mode ns b -> sub ns lo h s l -> (h < fuel)%nat ->
  wp (collect fuel s out) (λ r b', b' = b /\ r = out ++ l) (stopped mode) b.
Proof.
  intros Hh. revert fuel lo s l out. induction h as [|h IH]; intros fuel lo s l out (n & En & Hn & Hs) Hf;
    (destruct fuel as [|fuel]; [lia|]); cbn [collect]; apply wp_bind; apply (wp_read max Hmax mode ns b s n); [done..| |done|done|];
    rewrite (shape_is_leaf _ _ _ _ Hs); cbn [Nat.eqb].
  - destruct Hs as [_ ->]. by apply wp_ret.
  - destruct (shape_focus ns h n l (length (entries n)) Hs) as (e1 & e2 & c1 & c & c2 & L & x & R & -> & H1 & Hc & -> & Hlh & Hx & Hrh); [lia|].
    cbn [entries children] in *. rewrite length_app in H1. destruct e2; [|cbn in H1; lia].
    destruct Hrh as (ks & Hlk & Hk & ->). destruct c2; [|done]. apply Forall2_nil_inv_l in Hk as ->. cbn [zr]. rewrite !app_nil_r in *.
    assert (Hloop : forall ea eb ca cb kb out, e1 = ea ++ eb -> c1 = ca ++ cb -> length ca = length ea -> length cb = length eb ->
      kids ns h cb kb -> wp (collect_slots (collect fuel) (mkNode e1 (c1 ++ [c])) (seq (length ea) (length eb)) out)
        (λ r b', b' = b /\ r = out ++ zl kb eb) (stopped mode) b).
    { intros ea eb. revert ea. induction eb as [|e eb IHe]; intros ea ca cb kb out' -> -> Hla Hlb Hkb.
      - destruct cb; [|done]. apply Forall2_nil_inv_l in Hkb as ->. cbn [length seq collect_slots zl].
        apply wp_ret. by rewrite app_nil_r.
      - destruct cb as [|d cb]; [done|]. apply Forall2_cons_inv_l in Hkb as (y & kb' & Hy & Hkb & ->).
        cbn [seq collect_slots length children entries]. rewrite <- (app_assoc ca). cbn [app]. run.
        apply wp_bind. eapply wp_mono; [apply (IH fuel MIN_KEYS d y); [done|lia]| |done]. intros r ? [-> ->].
        run. specialize (IHe (ea ++ [e]) (ca ++ [d]) cb kb' ((out' ++ y) ++ [e])). rewrite <- !app_assoc in IHe. cbn [app] in IHe.
        rewrite !length_app in IHe. cbn [length] in IHe. rewrite !Nat.add_1_r in IHe. cbn [zl]. rewrite <- !app_assoc.
        apply IHe; [done..|lia|by injection Hlb|done]. }
    destruct Hlh as (ks & Hl1 & Hk1 & ->). apply wp_bind.
    eapply wp_mono; [apply (Hloop [] e1 [] c1 ks out); done| |done]. intros r ? [-> ->]. clear Hloop.
    run. eapply wp_mono; [apply (IH fuel MIN_KEYS c x); [done|lia]| |done]. intros r ? [-> ->]. by rewrite <- app_assoc.
Qed.

Lemma range_from_spec mode ns ns0 b m bounds :
  holds mode ns b -> ns0 `prefix_of` ns -> tree_of ns0 m ->
  wp (range_from (checked_pred (lenN ns0)) bounds) (λ r b', b' = b /\ r = select bounds (bmap_list m)) (stopped mode) b.
Proof.
  intros Hh Hp [Ho Ht]. unfold range_from, checked_pred. apply wp_bind. destruct ns0 as [|n0 ns0'] eqn:En.
  - cbn [N.eqb]. apply wp_ret, wp_ret. by rewrite Ht.
  - rewrite <- En in *. destruct (N.eqb_spec (lenN ns0) 0) as [E0|]; [by rewrite En in E0; unfold lenN in E0; cbn in E0|].
    destruct Ht as [h Hs]. apply (sub_mono _ _ _ _ _ _ Hp) in Hs.
    eapply wp_mono; [eapply collect_spec; [done|exact Hs|]| |done].
    + pose proof (sub_height _ _ _ _ _ (bw_down _ _ (proj1 Hh)) Hs). unfold depth. lia.
    + intros r ? [-> ->]. by apply wp_ret.
Qed.

(** ** Changing *)

(** The tree after a change: more blocks, another map. *)
Definition changed mode ns m' b' : Prop :=
  exists ns', holds mode ns' b' /\ ns `prefix_of` ns' /\ lenN ns' <= lenN ns + op_blocks /\ tree_of ns' m'.

Lemma put_spec mode ns b m k v :
  holds mode ns b -> tree_of ns m -> entry_ok max (k, v) -> spare ns m ->
  wp (put k v) (λ _, changed mode ns (<[k := v]> m)) (stopped mode) b.
Proof.
  intros Hh Ht Hkv Hsp. pose proof Ht as [Ho Hroot]. unfold put. apply wp_bind, wp_reads. rewrite (root_spec max mode ns) by done.
  pose proof (insert_ordered k v _ Ho) as Ho'. pose proof (to_map_insert k v _ Ho) as Em'. rewrite to_map_listing in Em'.
  unfold checked_pred. destruct (N.eqb_spec (lenN ns) 0) as [E0|Hne].
  - destruct ns; [|by unfold lenN in E0; cbn in E0]. apply wp_bind.
    eapply (wp_append_shape max Hmax mode [] b 0 0 (mkNode [(k, v)] [])); [done|done|fill|by apply Forall_singleton|unfold room, spare, Flat.max_blocks in *; cbn; lia|].
    intros ns' b' -> Hh' Hp Hlen Hs. apply wp_ret. exists [mkNode [(k, v)] []]. split_and!; [done|done|done|].
    eapply rooted_tree; [|exact Em']. rewrite Hroot. by apply (rooted_last _ 0 0); [|rewrite Hroot in Ho'|].
  - assert (Hns : ns <> []) by (by intros ->). assert (exists h, sub ns (root_lo h) h (lenN ns - 1) (bmap_list m)) as [h Hs].
    { by destruct ns. }
    destruct (root_room mode ns b h m Hh Hs Hns Hsp) as (Hd & H85 & Hr & Hok). apply wp_bind.
    eapply wp_mono; [apply (insert_spec max Hmax _ mode ns b (root_lo h) h _ (bmap_list m) k v); [done..|unfold room in *; lia]| |done].
    intros [s|a med c] b1 (ns1 & Hh1 & Hp1 & Hlen1 & Hres).
    + destruct Hres as [Hl Hs1]. apply wp_ret. exists ns1. split_and!; [done..|unfold op_blocks, lenN; lia|]. eapply rooted_tree; [by eapply rooted_last|done].
    + destruct Hres as (l1 & l2 & El & Ha & Hc). apply wp_bind.
      assert (Hs1 : shape ns1 (Datatypes.S h) (mkNode [med] [a; c]) (kv_insert k v (bmap_list m))).
      { rewrite El. apply (shape_plug2 ns1 h [] med [] [] a c [] [] l1 l2 []) in Ha; [|apply lhole_nil|done|apply rhole_nil].
        by rewrite app_nil_r in Ha. }
      eapply (wp_append_shape max Hmax mode ns1 b1 1); [done|exact Hs1|fill|by apply insert_entry_ok|unfold room, lenN in *; lia|].
      intros ns2 b2 E2 Hh2 Hp2 Hlen2 Hs2. apply wp_ret. exists ns2. split_and!; [done|by etrans|unfold op_blocks, lenN; lia|].
      eapply rooted_tree; [|exact Em']. apply (rooted_last _ (Datatypes.S h) (lenN ns1)); [unfold lenN; lia|done..].
Qed.

Lemma del_spec mode ns b m k :
  holds mode ns b -> tree_of ns m -> spare ns m ->
  wp (del k) (λ r b', r = bool_decide (is_Some (m !! k)) /\
    if r then changed mode ns (base.delete k m) b' else holds mode ns b') (stopped mode) b.
Proof.
  intros Hh Ht Hsp. pose proof Ht as [Ho Hroot]. unfold del. apply wp_bind, wp_reads. rewrite (root_spec max mode ns) by done.
  pose proof (delete_ordered k _ Ho) as Ho'. pose proof (to_map_delete k _ Ho) as Em'. rewrite to_map_listing in Em'.
  unfold checked_pred. destruct (N.eqb_spec (lenN ns) 0) as [E0|Hne].
  - destruct ns; [|by unfold lenN in E0; cbn in E0]. apply wp_ret. rewrite <- (to_map_listing m), Hroot. cbn.
    rewrite bool_decide_false; [done|]. by intros [? ?].
  - assert (Hns : ns <> []) by (by intros ->). assert (exists h, sub ns (root_lo h) h (lenN ns - 1) (bmap_list m)) as [h Hs].
    { by destruct ns. }
    destruct (root_room mode ns b h m Hh Hs Hns Hsp) as (Hd & H85 & Hr & Hok). apply wp_bind.
    eapply wp_mono; [apply (delete_spec max Hmax _ mode ns b (root_lo h) h _ (bmap_list m) k); [done|done|done|done| |done|unfold room in *; lia]| |done].
    { by destruct h. }
    intros [|s u] b1.
    + intros [Hh1 Hnone]. apply wp_ret. rewrite to_map_listing in Hnone. rewrite Hnone, bool_decide_false; [done|by intros [? ?]].
    + intros [Hin (ns1 & n1 & Hh1 & Hp1 & Hlen1 & Hl1 & En1 & Hn1 & _ & Hs1)]. rewrite to_map_listing in Hin.
      rewrite bool_decide_true by done. apply wp_bind. apply (wp_read max Hmax mode ns1 b1 s n1); [done..|].
      apply wp_bind. rewrite (shape_is_leaf _ _ _ _ Hs1).
      assert (Hplain : (length (entries n1) <> 0 \/ h = 0)%nat -> changed mode ns (base.delete k m) b1).
      { intros Hcase. exists ns1. split_and!; [done..|unfold op_blocks, lenN; lia|]. eapply rooted_tree; [|exact Em'].
        apply (rooted_last _ h s); [done..|]. exists n1. split_and!; [done| |lia|done]. destruct h; cbn; lia. }
      destruct (bool_decide_reflect (entries n1 = [])) as [Ee|Hne1]; cbn [andb]; [|apply wp_ret, wp_ret; split; [done|]].
      * destruct h as [|h]; cbn [Nat.eqb negb]; [apply wp_ret, wp_ret; split; [done|]; apply Hplain; by right|].
        destruct (shape_focus ns1 h n1 _ 0 Hs1) as (e1 & e2 & c1 & c & c2 & L & x & R & -> & H1 & Hc & El & Hlh & (nc & Enc & Hnc & Hsc) & Hrh); [lia|].
        cbn [entries children] in *. destruct e1, c1, e2; try done. destruct Hlh as (? & _ & ? & ->), Hrh as (ks & Hlk & ? & ->).
        cbn [zr app] in El. rewrite app_nil_r in El. assert (Ez : zl x0 [] = []) by (by destruct x0). rewrite Ez in El. cbn [app] in *.
        run. apply wp_bind. apply (wp_read max Hmax mode ns1 b1 c nc); [done..|]. apply wp_bind.
        eapply (wp_append_shape max Hmax mode ns1 b1 MIN_KEYS); [done|exact Hsc|done|rewrite <- El; by apply delete_entry_ok|unfold room, lenN in *; lia|].
        intros ns2 b2 E2 Hh2 Hp2 Hlen2 Hs2. apply wp_ret, wp_ret. split; [done|]. exists ns2. split_and!; [done|by etrans|unfold op_blocks, lenN; lia|].
        eapply rooted_tree; [|exact Em']. rewrite El. apply (rooted_last _ h (lenN ns1)); [unfold lenN; lia|by rewrite <- El|].
        eapply sub_weaken; [|exact Hs2]. destruct h; unfold MIN_KEYS; cbn; lia.
      * apply Hplain. left. by destruct (entries n1).
Qed.
End Map.
End HyperbeeMap.
