(* ===== verification/HyperbeeQueries.v ===== *)
(** * [hyperbee]: differences and sub-databases

    The merge of two listings finds exactly the keys whose values differ; the
    bounds of a sub-database select exactly the keys under its prefix. *)
From S2P Require Import Prelude Hyperbee HyperbeeSpec.
From Stdlib Require Import Strings.Byte.

Module HyperbeeQueries.
Import Hyperbee HyperbeeSpec.

(** ** Differences *)

Abbreviation change := (bytes * option bytes * option bytes)%type.

(** The changes from one map to another, in key order. *)
Definition changes_ok (m m' : gmap bytes bytes) (d : list change) : Prop :=
  StronglySorted (λ a b : change, klt a.1.1 b.1.1) d
  /\ forall k o n, (k, o, n) ∈ d <-> m !! k = o /\ m' !! k = n /\ o <> n.

Lemma diff_loop_out fuel a b out : diff_loop fuel a b out = out ++ diff_loop fuel a b [].
Proof.
  revert a b out. induction fuel as [|fuel IH]; intros a b out; [by rewrite app_nil_r|]. cbn [diff_loop].
  destruct a as [|[ka va] a], b as [|[kb vb] b].
  - by rewrite app_nil_r.
  - rewrite IH, (IH _ _ ([] ++ _)), app_nil_l. by rewrite <- app_assoc.
  - rewrite IH, (IH _ _ ([] ++ _)), app_nil_l. by rewrite <- app_assoc.
  - destruct (bytes_cmp ka kb).
    + destruct (bool_decide (va = vb)); [by rewrite IH|]. rewrite IH, (IH _ _ ([] ++ _)), app_nil_l. by rewrite <- app_assoc.
    + rewrite IH, (IH _ _ ([] ++ _)), app_nil_l. by rewrite <- app_assoc.
    + rewrite IH, (IH _ _ ([] ++ _)), app_nil_l. by rewrite <- app_assoc.
Qed.

Lemma to_map_cons k v l k' : to_map ((k, v) :: l) !! k' = if decide (k' = k) then Some v else to_map l !! k'.
Proof. unfold to_map. cbn. case_decide as Hk; [subst; by rewrite lookup_insert_eq|by rewrite lookup_insert_ne]. Qed.

(** A change at a key below all the others goes in front. *)
Lemma changes_cons m m' m0 m0' k d :
  changes_ok m m' d ->
  (forall x, is_Some (m !! x) \/ is_Some (m' !! x) -> klt k x) ->
  (forall x, x <> k -> m0 !! x = m !! x) -> (forall x, x <> k -> m0' !! x = m' !! x) -> m0 !! k <> m0' !! k ->
  changes_ok m0 m0' ((k, m0 !! k, m0' !! k) :: d).
Proof.
  intros [Hs Hd] Hlow E0 E0' Hne. split.
  - constructor; [done|]. apply Forall_forall. intros [[x o] n] (Ho & Hn & Hon)%Hd. cbn. apply Hlow.
    destruct o; [left; by eauto|]. destruct n; [right; by eauto|done].
  - assert (Hk : m !! k = None /\ m' !! k = None).
    { split.
      - destruct (m !! k) eqn:Em; [|done]. destruct (klt_irrefl k). apply Hlow. left. by eauto.
      - destruct (m' !! k) eqn:Em; [|done]. destruct (klt_irrefl k). apply Hlow. right. by eauto. }
    intros x o n. rewrite elem_of_cons, Hd. destruct (decide (x = k)) as [->|Hx].
    + split; [intros [[= -> ->]|(Ho & Hn & Hon)]; [done|]|intros (<- & <- & _); by left]. destruct Hk as [Hk1 Hk2]. congruence.
    + rewrite (E0 x), (E0' x) by done. split; [intros [[= Ex _ _]|?]; [congruence|done]|by right].
Qed.
Lemma changes_skip m m' m0 m0' k d :
  changes_ok m m' d -> m !! k = m' !! k -> m0 !! k = m0' !! k ->
  (forall x, x <> k -> m0 !! x = m !! x) -> (forall x, x <> k -> m0' !! x = m' !! x) -> changes_ok m0 m0' d.
Proof.
  intros [Hs Hd] Ek Ek0 E0 E0'. split; [done|]. intros x o n. rewrite Hd. destruct (decide (x = k)) as [->|Hx].
  - split; intros (? & ? & ?); congruence.
  - by rewrite E0, E0'.
Qed.

Lemma above_some k l x : above k l -> is_Some (to_map l !! x) -> klt k x.
Proof.
  intros Ha [v Hv%(elem_of_list_to_map_2 (M:=gmap bytes))]. by apply (above_elem k l (x, v)).
Qed.

Lemma diff_loop_spec fuel a b :
  ordered a -> ordered b -> (length a + length b <= fuel)%nat ->
  changes_ok (to_map a) (to_map b) (diff_loop fuel a b []).
Proof.
  revert a b. induction fuel as [|fuel IH]; intros a b Ha Hb Hf.
  - destruct a, b; cbn in Hf; try lia. split; [constructor|]. cbn. intros k o n. rewrite !lookup_empty.
    split; [by intros ?%elem_of_nil|]. intros (<- & <- & ?). done.
  - cbn [diff_loop]. destruct a as [|[ka va] a], b as [|[kb vb] b].
    + split; [constructor|]. cbn. intros k o n. rewrite !lookup_empty.
      split; [by intros ?%elem_of_nil|]. intros (<- & <- & ?). done.
    + rewrite diff_loop_out. cbn [app]. apply ordered_cons in Hb as [Hab Hb]. cbn in Hf.
      pose proof (changes_cons (to_map []) (to_map b) (to_map []) (to_map ((kb, vb) :: b)) kb (diff_loop fuel [] b [])) as Hc.
      rewrite !to_map_cons, decide_True in Hc by done. apply Hc; [apply IH; [done..|cbn; lia]| |done| |done].
      * intros x [[]|Hx]; [done|by eapply above_some].
      * intros x Hx. by rewrite to_map_cons, decide_False.
    + rewrite diff_loop_out. cbn [app]. apply ordered_cons in Ha as [Haa Ha]. cbn in Hf.
      pose proof (changes_cons (to_map a) (to_map []) (to_map ((ka, va) :: a)) (to_map []) ka (diff_loop fuel a [] [])) as Hc.
      rewrite !to_map_cons, decide_True in Hc by done. apply Hc; [apply IH; [done..|cbn; lia]| | |done|done].
      * intros x [Hx|[]]; [by eapply above_some|done].
      * intros x Hx. by rewrite to_map_cons, decide_False.
    + pose proof Ha as [Haa Ha']%ordered_cons. pose proof Hb as [Hab Hb']%ordered_cons. cbn in Hf, Haa, Hab.
      destruct (bytes_cmp ka kb) eqn:Ec.
      * apply bytes_cmp_eq in Ec as <-. assert (Hskip : forall l v x, x <> ka -> to_map ((ka, v) :: l) !! x = to_map l !! x).
        { intros l v x Hx. by rewrite to_map_cons, decide_False. }
        specialize (IH a b Ha' Hb' ltac:(lia)). case_bool_decide as Ev; [subst vb|].
        -- eapply changes_skip with (k := ka); [exact IH| | |by apply Hskip..].
           ++ by rewrite !to_map_above.
           ++ by rewrite !to_map_cons, !decide_True by done.
        -- rewrite diff_loop_out. cbn [app].
           pose proof (changes_cons (to_map a) (to_map b) (to_map ((ka, va) :: a)) (to_map ((ka, vb) :: b)) ka _ IH) as Hc.
           rewrite !to_map_cons, !decide_True in Hc by done. apply Hc; [|by apply Hskip..|congruence].
           intros x [Hx|Hx]; eapply above_some; [|exact Hx| |exact Hx]; done.
      * rewrite diff_loop_out. cbn [app]. specialize (IH a ((kb, vb) :: b) Ha' Hb ltac:(cbn; lia)).
        assert (Hb0 : above ka ((kb, vb) :: b)) by (constructor; [done|by eapply above_trans]).
        pose proof (changes_cons _ _ (to_map ((ka, va) :: a)) (to_map ((kb, vb) :: b)) ka _ IH) as Hc.
        rewrite (to_map_above ka _ Hb0), to_map_cons, decide_True in Hc by done. apply Hc; [|  |done|done].
        -- intros x [Hx|Hx]; eapply above_some; [|exact Hx| |exact Hx]; done.
        -- intros x Hx. by rewrite to_map_cons, decide_False.
      * rewrite diff_loop_out. cbn [app]. apply klt_gt in Ec. specialize (IH ((ka, va) :: a) b Ha Hb' ltac:(cbn; lia)).
        assert (Ha0 : above kb ((ka, va) :: a)) by (constructor; [done|by eapply above_trans]).
        pose proof (changes_cons _ _ (to_map ((ka, va) :: a)) (to_map ((kb, vb) :: b)) kb _ IH) as Hc.
        rewrite (to_map_above kb _ Ha0), to_map_cons, decide_True in Hc by done. apply Hc; [|done| |done].
        -- intros x [Hx|Hx]; eapply above_some; [|exact Hx| |exact Hx]; done.
        -- intros x Hx. by rewrite to_map_cons, decide_False.
Qed.

(** ** Prefixes *)

Lemma cmp_cons x a y b :
  bytes_cmp (x :: a) (y :: b) = match bval x ?= bval y with Eq => bytes_cmp a b | c => c end.
Proof. done. Qed.
Lemma cmp_app p a b : bytes_cmp (p ++ a) (p ++ b) = bytes_cmp a b.
Proof. induction p as [|x p IH]; [done|]. cbn. by rewrite N.compare_refl. Qed.
Lemma cmp_prefix p k : bytes_cmp p (p ++ k) <> Gt.
Proof. rewrite <- (app_nil_r p) at 1. rewrite cmp_app. by destruct k. Qed.

(** What lies between two extensions of a prefix extends it. *)
Lemma between_prefix p c k : bytes_cmp p k <> Gt -> bytes_cmp k (p ++ c) <> Gt -> p `prefix_of` k.
Proof.
  revert k. induction p as [|x p IH]; intros k Hp Hk; [apply prefix_nil|]. destruct k as [|y k]; [done|].
  cbn [app] in Hk. rewrite cmp_cons in Hp, Hk. rewrite (N.compare_antisym (bval x)) in Hk.
  destruct (bval x ?= bval y) eqn:Ec; [|done..]. apply N.compare_eq, bval_inj in Ec as <-.
  by apply prefix_cons, IH.
Qed.

Lemma ones_prefix t k : Forall (eq xff) t -> bytes_cmp t k <> Gt -> t `prefix_of` k.
Proof.
  intros Ht. revert k. induction Ht as [|? t <- _ IH]; intros k Hk; [apply prefix_nil|].
  destruct k as [|y k]; [done|]. rewrite cmp_cons in Hk. pose proof (bval_lt y). assert (Eff : bval xff = 255) by done. rewrite Eff in Hk.
  destruct (255 ?= bval y) eqn:Ec; [|rewrite N.compare_lt_iff in Ec; lia|done].
  rewrite <- Eff in Ec. apply N.compare_eq, bval_inj in Ec as <-. by apply prefix_cons, IH.
Qed.

(** The successor of a prefix increments its last byte below [0xff]. *)
Definition successor_ok (p : bytes) (o : option bytes) : Prop :=
  match o with
  | Some q => exists r b t, p = r ++ b :: t /\ q = r ++ [byte_of (bval b + 1)] /\ bval b < 255 /\ Forall (eq xff) t
  | None => Forall (eq xff) p
  end.
Lemma successor_spec p : successor_ok p (prefix_successor p).
Proof.
  unfold prefix_successor. rewrite <- (rev_involutive p) at 1. induction (rev p) as [|b rp IH]; cbn [successor_loop rev].
  - constructor.
  - destruct (N.ltb_spec (bval b) 255) as [Hb|Hb].
    + exists (rev rp), b, []. by split_and!.
    + assert (b = xff) as ->.
      { apply bval_inj. change (bval xff) with 255. pose proof (bval_lt b). lia. }
      destruct (successor_loop rp) as [q|].
      * destruct IH as (r & b & t & Er & -> & Hb' & Ht). exists r, b, (t ++ [xff]). rewrite Er, <- app_assoc.
        split_and!; [done..|]. apply Forall_app. split; [done|]. by repeat constructor.
      * apply Forall_app. split; [done|]. by repeat constructor.
Qed.

Lemma successor_bound p k :
  bytes_cmp p k <> Gt -> from_option (ltb k) true (prefix_successor p) = true <-> p `prefix_of` k.
Proof.
  intros Hp. pose proof (successor_spec p) as Hs. destruct (prefix_successor p) as [q|]; cbn [from_option].
  - destruct Hs as (r & b & t & -> & -> & Hb & Ht). unfold ltb.
    assert (Eb : bval (byte_of (bval b + 1)) = bval b + 1) by (rewrite bval_byte_of, N.mod_small; lia).
    split.
    + revert k Hp. induction r as [|x r IH]; intros k Hp Hk; cbn [app] in *; destruct k as [|y k]; try done;
        rewrite cmp_cons in Hp, Hk.
      * rewrite Eb in Hk. destruct (bval b ?= bval y) eqn:Ec; [|rewrite N.compare_lt_iff in Ec|done].
        -- apply N.compare_eq, bval_inj in Ec as <-. by apply prefix_cons, ones_prefix.
        -- destruct (bval y ?= bval b + 1) eqn:Ec'; [by destruct k|rewrite N.compare_lt_iff in Ec'; lia|done].
      * rewrite (N.compare_antisym (bval x)) in Hk. destruct (bval x ?= bval y) eqn:Ec; [|done..].
        apply N.compare_eq, bval_inj in Ec as <-. by apply prefix_cons, IH.
    + intros [s ->]. rewrite <- app_assoc, cmp_app. cbn [app]. rewrite cmp_cons, Eb.
      destruct (bval b ?= bval b + 1) eqn:Ec; [apply N.compare_eq in Ec; lia|done|rewrite N.compare_gt_iff in Ec; lia].
  - split; [|done]. intros _. by apply ones_prefix.
Qed.

(** ** Sub-databases *)

Lemma cmp_le_trans a b c : bytes_cmp a b <> Gt -> bytes_cmp b c <> Gt -> bytes_cmp a c <> Gt.
Proof.
  intros Hab Hbc. assert (Hle : forall x y, bytes_cmp x y <> Gt <-> bytes_le x y = true).
  { intros x y. unfold bytes_le. by destruct (bytes_cmp x y). }
  rewrite Hle in *. by apply (key_le_trans (KeyOrder:=bytes_key_order) a b c).
Qed.
Lemma geb_le k a : geb k a = true <-> bytes_cmp a k <> Gt.
Proof. unfold geb. rewrite (bytes_cmp_antisym k a). by destruct (bytes_cmp k a). Qed.

(** Within the bounds of a prefix, the bounds of the rest decide. *)
Lemma sub_bounds_app p bounds k : in_bounds (sub_bounds p bounds) (p ++ k) = in_bounds bounds k.
Proof.
  pose proof (cmp_prefix p k) as Hle. assert (Hge : geb (p ++ k) p = true) by (by apply geb_le).
  assert (Es : from_option (ltb (p ++ k)) true (prefix_successor p) = true) by (apply successor_bound; [done|by exists k]).
  unfold in_bounds, sub_bounds. cbn [gt gte lt lte].
  destruct (gt bounds), (gte bounds), (lt bounds), (lte bounds); cbn; unfold gtb, geb, ltb, leb in *; rewrite ?cmp_app, ?Hge, ?Es; done.
Qed.

Lemma sub_bounds_prefix p bounds k : in_bounds (sub_bounds p bounds) k = true -> p `prefix_of` k.
Proof.
  unfold in_bounds, sub_bounds. cbn [gt gte lt lte]. intros Hk. apply andb_true_iff in Hk as [Hk Hlte].
  apply andb_true_iff in Hk as [Hk Hlt]. apply andb_true_iff in Hk as [Hgt Hgte].
  assert (Hlow : bytes_cmp p k <> Gt).
  { destruct (gt bounds) as [g|]; cbn in Hgt, Hgte.
    - eapply cmp_le_trans; [apply (cmp_prefix p g)|]. unfold gtb in Hgt. rewrite (bytes_cmp_antisym k).
      by destruct (bytes_cmp k (p ++ g)).
    - destruct (gte bounds) as [g|]; cbn in Hgte; [|by apply geb_le].
      eapply cmp_le_trans; [apply (cmp_prefix p g)|by apply geb_le]. }
  destruct (lt bounds) as [c|]; cbn in Hlt, Hlte.
  - eapply (between_prefix p c); [done|]. unfold ltb in Hlt. by destruct (bytes_cmp k (p ++ c)).
  - destruct (lte bounds) as [c|]; cbn in Hlt, Hlte.
    + eapply (between_prefix p c); [done|]. unfold leb in Hlte. by destruct (bytes_cmp k (p ++ c)).
    + by apply successor_bound.
Qed.

(** The keys of a map under a prefix, with the prefix taken off. *)
Definition under (p : bytes) (e : entry) : option entry :=
  if decide (p `prefix_of` e.1) then Some (drop (length p) e.1, e.2) else None.
Definition submap (p : bytes) (m : gmap bytes bytes) : gmap bytes bytes := to_map (omap (under p) (bmap_list m)).

Lemma under_Some p e e' : under p e = Some e' <-> e = (p ++ e'.1, e'.2).
Proof.
  unfold under. destruct e as [k v], e' as [k' v']. cbn. case_decide as Hp.
  - destruct Hp as [s ->]. rewrite drop_app_length. split; [by intros [= -> ->]|].
    intros [= ->%app_inv_head ->]. done.
  - split; [done|]. intros [= -> ->]. destruct Hp. by exists k'.
Qed.

Lemma submap_ordered p m : ordered (omap (under p) (bmap_list m)).
Proof.
  pose proof (bmap_ordered m) as Ho. induction (bmap_list m) as [|e l IH]; [constructor|].
  apply ordered_cons in Ho as [Ha Ho]. cbn. destruct (under p e) as [e'|] eqn:Eu; [|by apply IH].
  apply ordered_cons. split; [|by apply IH]. apply Forall_forall. intros f (g & Hg & Ef)%list_elem_of_omap.
  apply under_Some in Eu as ->, Ef as ->. pose proof (above_elem _ _ _ Ha Hg) as Hlt. cbn in Hlt. unfold klt in *.
  by rewrite cmp_app in Hlt.
Qed.
Lemma submap_listing p m : bmap_list (submap p m) = omap (under p) (bmap_list m).
Proof. symmetry. apply ordered_listing, submap_ordered. Qed.
Lemma submap_lookup p m k : submap p m !! k = m !! (p ++ k).
Proof.
  apply option_eq. intros v. unfold submap, to_map.
  rewrite <- (elem_of_list_to_map (M:=gmap bytes)), <- bmap_list_elem by apply ordered_nodup, submap_ordered.
  rewrite list_elem_of_omap. split.
  - by intros (e & He & ->%under_Some).
  - intros He. exists (p ++ k, v). split; [done|]. by apply under_Some.
Qed.

Lemma strip_select p bounds m :
  mapM (strip (length p)) (select (sub_bounds p bounds) (bmap_list m)) = Done (select bounds (bmap_list (submap p m))).
Proof.
  assert (Hf : forall l, filter (λ e : entry, in_bounds (sub_bounds p bounds) e.1 = true) l
    = (λ e : entry, (p ++ e.1, e.2)) <$> filter (λ e : entry, in_bounds bounds e.1 = true) (omap (under p) l : list entry)).
  { induction l as [|e l IH]; [done|]. cbn [omap list_omap]. rewrite filter_cons.
    destruct (under p e) as [e'|] eqn:Eu.
    - apply under_Some in Eu as ->. cbn [fst]. rewrite sub_bounds_app, filter_cons. case_decide; cbn; by rewrite IH.
    - rewrite decide_False; [done|]. intros [s Es]%sub_bounds_prefix. destruct e as [k v]. cbn in Es. subst k.
      assert (Some (s, v) = None) as [=]. rewrite <- Eu. symmetry. by apply under_Some. }
  unfold select. rewrite Hf, submap_listing. cbn [reverse limit sub_bounds].
  set (g := λ e : entry, (p ++ e.1, e.2)). set (F := filter _ (omap _ _)).
  assert (Em : forall l, mapM (strip (length p)) (g <$> l) = Done l).
  { intros l. induction l as [|e l IH]; [done|]. rewrite fmap_cons. cbn [mapM].
    change (strip (length p) (g e)) with
      (if (length p <=? length (p ++ e.1))%nat then Done (drop (length p) (p ++ e.1), e.2) else Panic). rewrite length_app. destruct (Nat.leb_spec (length p) (length p + length e.1)); [|lia]. rsimpl.
    rewrite IH. rsimpl. rewrite drop_app_length. by destruct e. }
  assert (Er : rev (g <$> F) = g <$> rev F) by (symmetry; apply map_rev).
  destruct (reverse bounds), (limit bounds); rewrite ?Er, <- ?fmap_take; apply Em.
Qed.
End HyperbeeQueries.
