(* ===== verification/HyperbeeIter.v ===== *)
(** * [hyperbee]: the lazy iterator

    The stack of an iterator stands for the entries still to be visited, in the
    order of the iteration, and for a number of rounds that is enough to visit
    them ([stack_ok]).  Pulling until the end gives what [range] gives. *)
From S2P Require Import Prelude Codec Flat Merkle MerkleSpec Store Identity Hypercore HypercoreLog.
From S2P Require Import Hyperbee HyperbeeSpec HyperbeeTree HyperbeeCodec HyperbeeBlocks HyperbeeInsert HyperbeeMap.

Module HyperbeeIter.
Import MerkleSpec Hypercore HypercoreLog.
Import Hyperbee HyperbeeSpec HyperbeeTree HyperbeeCodec HyperbeeBlocks HyperbeeInsert HyperbeeMap.

(** ** The direction of an iteration *)

Definition orient {A} (rv : bool) (l : list A) : list A := if rv then rev l else l.

Lemma orient_length {A} rv (l : list A) : length (orient rv l) = length l.
Proof. destruct rv; [apply length_rev|done]. Qed.
Lemma orient_lookup {A} (rv : bool) (l : list A) i :
  (i < length l)%nat -> l !! (if rv then length l - 1 - i else i)%nat = orient rv l !! i.
Proof.
  intros Hi. destruct rv; [|done]. unfold orient. rewrite rev_alt. change (rev_append l []) with (list_basics.list.reverse l).
  rewrite reverse_lookup by done. f_equal. lia.
Qed.
Lemma orient_Forall2 {A B} (P : A -> B -> Prop) rv l k : Forall2 P l k -> Forall2 P (orient rv l) (orient rv k).
Proof.
  intros Hp. destruct rv; [|done]. unfold orient. induction Hp as [|x y l k Hxy _ IH]; [constructor|].
  cbn. apply Forall2_app; [done|]. by constructor.
Qed.

Lemma flat_cons e es k ks : length ks = S (length es) -> flat (e :: es) (k :: ks) = k ++ e :: flat es ks.
Proof. intros Hl. destruct ks as [|y ks]; [done|]. by cbn. Qed.
Lemma flat_snoc e es k ks :
  length ks = S (length es) -> flat (es ++ [e]) (ks ++ [k]) = flat es ks ++ e :: k.
Proof. intros Hl. rewrite flat_join by done. cbn. by rewrite app_nil_r. Qed.
Lemma flat_rev es ks : length ks = S (length es) -> flat (rev es) (rev (rev (A:=entry) <$> ks)) = rev (flat es ks).
Proof.
  revert ks. induction es as [|e es IH]; intros ks Hl.
  - destruct ks as [|k [|]]; try done. cbn. by rewrite !app_nil_r.
  - destruct ks as [|k ks]; [done|]. injection Hl as Hl.
    rewrite flat_cons, fmap_cons by done. cbn [rev].
    rewrite flat_snoc, IH by (rewrite ?length_rev, ?length_fmap; done). rewrite rev_app_distr. cbn. by rewrite <- app_assoc.
Qed.

(** ** Slots *)

(** The slots of an internal node: its children and its entries in turn, each with
    the rounds it takes. *)
Fixpoint slots (es : list entry) (ks : list (list entry)) {struct ks} : list (list entry * nat) :=
  match ks with
  | [] => []
  | k :: ks =>
      (k, (5 * length k + 2)%nat)
        :: match es with [] => [] | e :: es => ([e], 1%nat) :: slots es ks end
  end.

Lemma slots_length es ks : length ks = S (length es) -> length (slots es ks) = (2 * length es + 1)%nat.
Proof.
  revert ks. induction es as [|e es IH]; intros [|k ks] Hl; try done. injection Hl as Hl.
  cbn [slots length]. rewrite IH by done. lia.
Qed.
Lemma slots_flat es ks : length ks = S (length es) -> concat (slots es ks).*1 = flat es ks.
Proof.
  revert ks. induction es as [|e es IH]; intros [|k ks] Hl; try done. injection Hl as Hl.
  rewrite flat_cons by done. cbn [slots]. rewrite !fmap_cons. cbn [concat fst]. by rewrite IH.
Qed.
Lemma slots_cost es ks :
  length ks = S (length es) ->
  sum_list (slots es ks).*2 = (5 * length (flat es ks) + 2 - 2 * length es)%nat
  /\ (2 * length es <= 5 * length (flat es ks))%nat.
Proof.
  revert ks. induction es as [|e es IH]; intros [|k ks] Hl; try done.
  - destruct ks; [|done]. cbn. rewrite app_nil_r. lia.
  - injection Hl as Hl. destruct (IH ks Hl) as [IH1 IH2].
    rewrite flat_cons by done. cbn [slots]. rewrite !fmap_cons. cbn [snd sum_list_with id length].
    rewrite length_app. cbn [length]. lia.
Qed.
Lemma slots_lookup es ks i :
  (slots es ks !! (2 * i)%nat = (λ k, (k, (5 * length k + 2)%nat)) <$> (if (i <=? length es)%nat then ks !! i else None))
  /\ (length ks = S (length es) -> slots es ks !! (2 * i + 1)%nat = (λ e, ([e], 1%nat)) <$> es !! i).
Proof.
  revert es ks. induction i as [|i IH]; intros es ks.
  - destruct ks as [|k ks]; [by split|]. split; [done|]. intros _. by destruct es.
  - destruct ks as [|k ks].
    + split; [|done]. cbn [slots]. rewrite !lookup_nil. by destruct (S i <=? length es)%nat.
    + replace (2 * S i)%nat with (S (S (2 * i))) by lia. replace (S (S (2 * i)) + 1)%nat with (S (S (2 * i + 1))) by lia.
      cbn [slots]. destruct es as [|e es]; [done|]. specialize (IH es ks). cbn [lookup list_lookup length] in *.
      split; [apply IH|]. intros [= Hl]. by apply IH.
Qed.

Section Iter.
Context `{HL : HasherLaws} `{EL : Ed25519Laws} {S E : Type} `{SL : Store.StoreLaws S E}.
Context (max : N) (Hmax : limits max).
Implicit Types (ns : list Node) (b : Hyperbee S) (mode : option (Hypercore S)) (l : list entry).
Abbreviation holds := (holds max).
Abbreviation sub := HyperbeeTree.sub.

(** ** Frames *)

Inductive frame ns (rv : bool) : Node * nat -> list entry -> nat -> Prop :=
| frame_leaf es i :
    frame ns rv (mkNode es [], i) (drop i (orient rv es)) (Datatypes.S (length es - i))
| frame_node h es cs i ks :
    length cs = Datatypes.S (length es) ->
    Forall2 (λ c x, exists l, sub ns MIN_KEYS h c l /\ x = orient rv l) (orient rv cs) ks ->
    frame ns rv (mkNode es cs, i) (concat (drop i (slots (orient rv es) ks)).*1)
      (Datatypes.S (sum_list (drop i (slots (orient rv es) ks)).*2)).

Inductive stack_ok ns (rv : bool) : list (Node * nat) -> list entry -> nat -> Prop :=
| stack_nil : stack_ok ns rv [] [] 0
| stack_cons f st r t r' t' :
    frame ns rv f r t -> stack_ok ns rv st r' t' -> stack_ok ns rv (f :: st) (r ++ r') (t + t').

Lemma frame_init ns rv h n l :
  shape ns h n l -> (h = 0 \/ 1 <= length (entries n))%nat ->
  exists t, frame ns rv (n, 0%nat) (orient rv l) t /\ (t <= 5 * length l + 1)%nat.
Proof.
  intros Hs Hn. destruct n as [es cs]. destruct h as [|h].
  - destruct Hs as [Ec ->]. cbn in Ec. subst cs. eexists. split; [apply (frame_leaf ns rv es 0)|]. cbn. lia.
  - apply shape_S in Hs as (ks & Hl & Hk & ->). cbn [entries children] in *. pose proof (Forall2_length _ _ _ Hk) as Hlk.
    set (ks' := orient rv (orient rv <$> ks)).
    assert (Hl' : length ks' = Datatypes.S (length (orient rv es))) by (unfold ks'; rewrite !orient_length, length_fmap; lia).
    assert (Ef : flat (orient rv es) ks' = orient rv (flat es ks)).
    { unfold ks'. destruct rv; cbn [orient]; [apply flat_rev; lia|]. by rewrite list_fmap_id. }
    destruct (slots_cost (orient rv es) ks' Hl') as [Hc _]. rewrite Ef, !orient_length in Hc.
    assert (Hf : frame ns rv (mkNode es cs, 0%nat) (concat (drop 0 (slots (orient rv es) ks')).*1)
      (Datatypes.S (sum_list (drop 0 (slots (orient rv es) ks')).*2))).
    { apply (frame_node ns rv h); [done|]. apply orient_Forall2. apply Forall2_fmap_r.
      eapply Forall2_impl; [exact Hk|]. cbn. eauto. }
    rewrite drop_0, slots_flat, Ef, Hc in Hf by done. eexists. split; [exact Hf|]. destruct Hn; [done|]. lia.
Qed.

(** ** One pull *)

Abbreviation item := (result (Error E) entry).
Definition wanted (bounds : Range) (r : list entry) : list entry := filter (λ e, in_bounds bounds e.1 = true) r.

(** The iterator either stops on an error of the store, or finds the first wanted
    entry of the rest. *)
Definition pulled ns (it : RangeIter) (r : list entry) (t : nat) (res : run (RangeIter * option item)) : Prop :=
  (store_fails (S:=S) (E:=E) /\ exists it' e, res = Done (it', Some (Err (Storage e))))
  \/ match wanted (it_bounds it) r with
     | [] => exists it', res = Done (it', None)
     | e :: rest => exists st r' t', res = Done (dec_limit (set_stack it st), Some (Ok e))
         /\ stack_ok ns (reverse (it_bounds it)) st r' t' /\ (t' <= t)%nat /\ wanted (it_bounds it) r' = rest
     end.

Lemma pulled_mono ns it it' r r' t t' res :
  pulled ns it' r' t' res -> it_bounds it' = it_bounds it -> wanted (it_bounds it) r' = wanted (it_bounds it) r -> (t' <= t)%nat ->
  (forall st, set_stack it' st = set_stack it st) -> pulled ns it r t res.
Proof.
  intros [?|Hp] Eb Ew Ht Es; [by left|right]. rewrite Eb, Ew in Hp. destruct (wanted (it_bounds it) r) as [|e rest]; [done|].
  destruct Hp as (st & r2 & t2 & -> & Hs & Ht2 & Er). exists st, r2, t2. rewrite Es. split_and!; [done..|lia|done].
Qed.

Lemma wanted_app bounds r r' : wanted bounds (r ++ r') = wanted bounds r ++ wanted bounds r'.
Proof. apply filter_app. Qed.
Lemma wanted_cons bounds e r :
  wanted bounds (e :: r) = if in_bounds bounds e.1 then e :: wanted bounds r else wanted bounds r.
Proof. unfold wanted. rewrite filter_cons. by destruct (in_bounds bounds e.1). Qed.

(** Emit an entry when it is wanted, or go on. *)
Lemma pull_entry fuel ns b it e st r t :
  (in_bounds (it_bounds it) e.1 = false -> pulled ns (set_stack it st) r t (next_loop fuel b (set_stack it st))) ->
  stack_ok ns (reverse (it_bounds it)) st r t ->
  pulled ns it (e :: r) (Datatypes.S t)
    (if in_bounds (it_bounds it) e.1 then Done (dec_limit (set_stack it st), Some (Ok e))
     else next_loop fuel b (set_stack it st)).
Proof.
  intros Hgo Hst. destruct (in_bounds (it_bounds it) e.1) eqn:Eb.
  - right. rewrite wanted_cons, Eb. exists st, r, t. split_and!; [done..|lia|done].
  - eapply pulled_mono; [by apply Hgo|done| |lia|done]. by rewrite wanted_cons, Eb.
Qed.

Lemma next_loop_spec fuel mode ns b it r t :
  holds mode ns b -> stack_ok ns (reverse (it_bounds it)) (it_stack it) r t -> (t < fuel)%nat ->
  pulled ns it r t (next_loop fuel b it).
Proof.
  intros Hh. revert it r t. induction fuel as [|fuel IH]; intros it r t Hst Ht; [lia|]. cbn [next_loop].
  set (rv := reverse (it_bounds it)) in *.
  assert (Hrest : forall st r' t', stack_ok ns rv st r' t' -> (t' < fuel)%nat ->
    pulled ns (set_stack it st) r' t' (next_loop fuel b (set_stack it st))).
  { intros st r' t' Hs Hf. by apply IH. }
  inversion Hst as [Est|f st r1 t1 r2 t2 Hf Hst2 Est]; subst; clear Hst.
  { right. eexists. done. }
  inversion Hf as [es i Ef|h es cs i ks Hl Hk Ef]; subst; clear Hf; cbn [entries children].
  - change (is_leaf (mkNode es [])) with true. cbn iota. destruct (Nat.leb_spec (length es) i) as [Hi|Hi].
    + eapply pulled_mono; [apply (Hrest st r2 t2); [done|lia]|done| |lia|done].
      rewrite wanted_app, drop_ge by (rewrite orient_length; lia). done.
    + destruct (lookup_lt_is_Some_2 (orient rv es) i) as [e He]; [by rewrite orient_length|].
      cbn [it_bounds set_stack]. fold rv. unfold Vec.get. rewrite (orient_lookup rv), He by done. rsimpl.
      rewrite (drop_S _ e) by done. cbn [app].
      eapply pulled_mono; [apply (pull_entry fuel ns b it e ((mkNode es [], Datatypes.S i) :: st) (drop (Datatypes.S i) (orient rv es) ++ r2)
        (Datatypes.S (length es - Datatypes.S i) + t2))|done|done|lia|done].
      * intros _. apply Hrest; [|lia]. constructor; [constructor|done].
      * constructor; [constructor|done].
  - assert (Hleaf : is_leaf (mkNode es cs) = false) by (unfold is_leaf; cbn; apply bool_decide_eq_false; by destruct cs).
    rewrite Hleaf. pose proof (Forall2_length _ _ _ Hk) as Hlk. rewrite orient_length in Hlk.
    assert (Hlk' : length ks = Datatypes.S (length (orient rv es))) by (rewrite orient_length; lia).
    pose proof (slots_length _ _ Hlk') as Hsl. rewrite orient_length in Hsl. destruct (Nat.ltb_spec (2 * length es) i) as [Hi|Hi].
    + rewrite drop_ge by lia. eapply pulled_mono; [apply (Hrest st r2 t2); [done|]|done|done| |done].
      * rewrite drop_ge in Ht by lia. cbn in Ht. lia.
      * cbn. lia.
    + cbn [it_bounds set_stack it_stack]. fold rv.
      assert (Hfr : frame ns rv (mkNode es cs, Datatypes.S i) (concat (drop (Datatypes.S i) (slots (orient rv es) ks)).*1)
        (Datatypes.S (sum_list (drop (Datatypes.S i) (slots (orient rv es) ks)).*2))) by (by eapply frame_node).
      assert (Hstep : exists p, slots (orient rv es) ks !! i = Some p) by (apply lookup_lt_is_Some_2; lia).
      destruct Hstep as [p Hp]. rewrite (drop_S _ p) in Ht |- * by done. rewrite fmap_cons in Ht. rewrite !fmap_cons.
      cbn [concat sum_list_with id] in Ht |- *. rewrite <- app_assoc.
      pose proof (Nat.div_mod_eq i 2) as Hdm. pose proof (Nat.mod_upper_bound i 2).
      destruct (slots_lookup (orient rv es) ks (i / 2)) as [Heven Hodd]. rewrite orient_length in Heven.
      destruct (Nat.eqb_spec (i mod 2) 0) as [Em|Em].
      * replace (2 * (i / 2))%nat with i in Heven by lia. rewrite Hp in Heven.
        destruct (Nat.leb_spec (i / 2) (length es)) as [Hle|]; [|done].
        destruct (ks !! (i / 2)%nat) as [x|] eqn:Ex; [|done]. injection Heven as ->. cbn [fst snd] in *.
        destruct (Forall2_lookup_r _ _ _ _ _ Hk Ex) as (c & Ec & l & (n & En & Hn & Hs) & ->).
        assert (Eg : Vec.get cs (if rv then length es - i / 2 else i / 2)%nat = Done c).
        { unfold Vec.get. rewrite <- (orient_lookup rv cs) in Ec by lia.
          replace (length cs - 1 - i / 2)%nat with (length es - i / 2)%nat in Ec by lia. by rewrite Ec. }
        rewrite Eg. rsimpl. destruct (node_spec max Hmax mode ns b c n Hh En) as [->|(Hfail & e & ->)].
        2: { left. split; [done|]. by eexists _, _. }
        destruct (frame_init ns rv h n l Hs) as (tf & Hff & Htf); [right; unfold MIN_KEYS in Hn; cbn in Hn; lia|].
        rewrite orient_length in Ht |- *.
        eapply pulled_mono; [apply (Hrest ((n, 0%nat) :: (mkNode es cs, Datatypes.S i) :: st)); [constructor; [exact Hff|by constructor]|]|done|done| |done].
        -- lia.
        -- lia.
      * assert (Ei : i = (2 * (i / 2) + 1)%nat) by lia. specialize (Hodd Hlk'). rewrite <- Ei, Hp in Hodd.
        destruct (orient rv es !! (i / 2)%nat) as [e|] eqn:Ee; [|done]. injection Hodd as ->. cbn [fst snd app] in *.
        assert (Hlt : (i / 2 < length es)%nat) by (apply lookup_lt_Some in Ee; by rewrite orient_length in Ee).
        unfold Vec.get. rewrite (orient_lookup rv es), Ee by done. rsimpl.
        eapply pulled_mono; [eapply (pull_entry fuel ns b it e ((mkNode es cs, Datatypes.S i) :: st)); [intros _; eapply Hrest|]; [by constructor| |by constructor]|done|done|lia|done].
        lia.
Qed.

(** ** Pulling until the end *)

Fixpoint drain (fuel n : nat) b (it : RangeIter) : run (list item) :=
  match n with
  | O => OutOfFuel
  | Datatypes.S n' =>
      '(it, r) ← next fuel b it;
      match r with
      | None => Done []
      | Some x => xs ← drain fuel n' b it; Done (x :: xs)
      end
  end.

Definition limited (lim : option N) (r : list entry) : list entry :=
  match lim with Some n => take (N.to_nat n) r | None => r end.

Lemma limited_step lim e r :
  lim <> Some 0 -> from_option u64_ok True lim ->
  limited lim (e :: r) = e :: limited ((λ n, wsub64 n 1) <$> lim) r.
Proof.
  intros Hn Hu. destruct lim as [n|]; [|done]. cbn in *. assert (n <> 0) by congruence.
  rewrite wsub64_small by (done || lia). by replace (N.to_nat n) with (Datatypes.S (N.to_nat (n - 1))) by lia.
Qed.

(** A drain after the first node was pushed. *)
Lemma bee_drain_spec fuel n mode ns b it r t :
  holds mode ns b -> it_start it = None -> (it_done it = true -> it_remaining it = Some 0) ->
  from_option u64_ok True (it_remaining it) ->
  stack_ok ns (reverse (it_bounds it)) (it_stack it) r t -> (t < fuel)%nat -> (length r < n)%nat ->
  store_fails (S:=S) (E:=E) \/ drain fuel n b it = Done (Ok <$> limited (it_remaining it) (wanted (it_bounds it) r)).
Proof.
  intros Hh. assert (Hlen : forall bs r, (length (wanted bs r) <= length r)%nat) by (intros; apply length_filter).
  intros Es Hd Hu Hst Ht Hn. specialize (Hlen (it_bounds it) r).
  assert (Hw : (length (wanted (it_bounds it) r) < n)%nat) by lia. clear Hlen Hn.
  revert it r t Es Hd Hu Hst Ht Hw. induction n as [|n IH]; intros it r t Es Hd Hu Hst Ht Hw; [lia|]. cbn [drain]. unfold next.
  destruct (it_done it) eqn:Ed.
  { right. rewrite Hd by done. done. }
  destruct (bool_decide_reflect (it_remaining it = Some 0)) as [->|Hne]; [by right|]. rewrite Es.
  set (it0 := mkIter (it_stack it) None (it_bounds it) (it_remaining it) false).
  destruct (next_loop_spec fuel mode ns b it0 r t Hh Hst Ht) as [[? _]|Hp]; [by left|].
  cbn [it_bounds it0] in Hp. destruct (wanted (it_bounds it) r) as [|e rest] eqn:Ew.
  - destruct Hp as [it' ->]. right. by destruct (it_remaining it) as [k|]; cbn; rewrite ?take_nil.
  - destruct Hp as (st & r' & t' & -> & Hs' & Ht' & Er). rsimpl. rewrite limited_step by done.
    specialize (IH (dec_limit (set_stack it0 st)) r' t').
    assert (Eb : it_bounds (dec_limit (set_stack it0 st)) = it_bounds it) by (unfold dec_limit; cbn; by destruct (it_remaining it)).
    assert (Est : it_stack (dec_limit (set_stack it0 st)) = st) by (unfold dec_limit; cbn; by destruct (it_remaining it)).
    assert (Erm : it_remaining (dec_limit (set_stack it0 st)) = (λ n, wsub64 n 1) <$> it_remaining it)
      by (unfold dec_limit; cbn; by destruct (it_remaining it)).
    rewrite Eb, Est, Erm, Er in IH. destruct IH as [?|IH]; [| | |done|lia|cbn in Hw; lia|by left|right].
    + unfold dec_limit. cbn. by destruct (it_remaining it).
    + unfold dec_limit. cbn. destruct (it_remaining it) as [k|]; [|done]. cbn. destruct (N.eqb_spec (wsub64 k 1) 0); [congruence|done].
    + destruct (it_remaining it) as [k|]; [|done]. cbn. apply wrap64_lt.
    + rewrite IH. done.
Qed.

Lemma select_limited bounds l :
  select bounds l = limited (limit bounds) (wanted bounds (orient (reverse bounds) l)).
Proof.
  unfold select, limited, wanted, orient. destruct (reverse bounds); [|done].
  assert (Er : rev (filter (λ e, in_bounds bounds e.1 = true) l) = filter (λ e, in_bounds bounds e.1 = true) (rev l)); [|by rewrite Er].
  induction l as [|e l IH]; [done|]. cbn [rev]. rewrite filter_app, filter_cons, <- IH. unfold filter at 4. cbn.
  case_decide; cbn; by rewrite ?app_nil_r.
Qed.

Lemma iter_spec fuel n mode ns b m bounds :
  holds mode ns b -> tree_of ns m -> from_option u64_ok True (limit bounds) ->
  (5 * size m + 1 < fuel)%nat -> (size m < n)%nat ->
  store_fails (S:=S) (E:=E) \/ drain fuel n b (iter b bounds) = Done (Ok <$> select bounds (bmap_list m)).
Proof.
  intros Hh [Ho Ht] Hu Hf Hn. rewrite <- (bmap_list_length m) in Hf, Hn. rewrite select_limited.
  unfold iter. rewrite (root_spec max mode ns) by done. unfold checked_pred. destruct (N.eqb_spec (lenN ns) 0) as [E0|Hne].
  - destruct ns; [|by unfold lenN in E0; cbn in E0]. rewrite Ht in *.
    eapply (bee_drain_spec fuel n mode [] b (mkIter [] None bounds (limit bounds) false) (orient (reverse bounds) []) 0); try done; [|lia|rewrite orient_length; cbn in *; lia].
    cbn. replace (orient (reverse bounds) []) with ([] : list entry) by (by destruct (reverse bounds)). constructor.
  - assert (exists h, sub ns (root_lo h) h (lenN ns - 1) (bmap_list m)) as (h & nd & En & Hnd & Hs) by (by destruct ns).
    destruct n as [|n]; [lia|]. cbn [drain]. unfold next. cbn [it_done it_remaining it_start].
    destruct (bool_decide_reflect (limit bounds = Some 0)) as [->|Hl]; [by right|].
    destruct (node_spec max Hmax mode ns b _ nd Hh En) as [->|[? _]]; [|by left].
    destruct (frame_init ns (reverse bounds) h nd _ Hs) as (t & Hfr & Htl); [destruct h; cbn in *; [by left|right; lia]|].
    assert (Hst : stack_ok ns (reverse bounds) [(nd, 0%nat)] (orient (reverse bounds) (bmap_list m)) t).
    { rewrite <- (app_nil_r (orient _ _)), <- (Nat.add_0_r t). constructor; [done|constructor]. }
    pose proof (bee_drain_spec fuel (Datatypes.S n) mode ns b (mkIter [(nd, 0%nat)] None bounds (limit bounds) false)
      (orient (reverse bounds) (bmap_list m)) t Hh) as Hd.
    cbn [it_start it_done it_remaining it_bounds it_stack drain] in Hd. unfold next in Hd. cbn [it_start it_done it_remaining it_bounds it_stack] in Hd.
    rewrite bool_decide_false in Hd by done. eapply Hd; try done; [lia|rewrite orient_length; lia].
Qed.
End Iter.
End HyperbeeIter.
