(* ===== verification/HyperbeeTheorems.v ===== *)
(** * [hyperbee]: what the tree promises

    Sequences of edits and atomic batches on a tree, against a map: every call
    returns, answers as the map does and leaves the tree of the new map; the
    versions at the ends of calls stay readable for good. *)
From S2P Require Import Prelude Codec Flat Merkle MerkleSpec Store Identity.
From S2P Require Import Hypercore HypercoreLog HypercoreDurable HypercoreTrace.
From S2P Require Import Hyperbee HyperbeeSpec HyperbeeTree HyperbeeCodec HyperbeeBlocks HyperbeeInsert HyperbeeDelete.
From S2P Require Import HyperbeeMap HyperbeeQueries HyperbeeIter.

Module HyperbeeTheorems.
Import MerkleSpec Hypercore HypercoreLog HypercoreDurable.
Import Hyperbee HyperbeeSpec HyperbeeTree HyperbeeCodec HyperbeeBlocks HyperbeeInsert HyperbeeMap HyperbeeQueries HyperbeeIter.

(** ** Edits *)

Inductive edit :=
| Put (k v : bytes)
| Del (k : bytes)
| PutCas (k v : bytes) (expected : option bytes)
| DelCas (k : bytes) (expected : option bytes)
| SubPut (prefix k v : bytes)
| SubDel (prefix k : bytes).

(** What an edit does to a map, and whether it reports a change. *)
Definition spec_del (m : gmap bytes bytes) (k : bytes) : gmap bytes bytes * option bool :=
  (base.delete k m, Some (bool_decide (is_Some (m !! k)))).
Definition spec_edit (m : gmap bytes bytes) (e : edit) : gmap bytes bytes * option bool :=
  match e with
  | Put k v => (<[k := v]> m, None)
  | Del k => spec_del m k
  | PutCas k v x => if decide (m !! k = x) then (<[k := v]> m, Some true) else (m, Some false)
  | DelCas k x => if decide (m !! k = x) then spec_del m k else (m, Some false)
  | SubPut p k v => (<[p ++ k := v]> m, None)
  | SubDel p k => spec_del m (p ++ k)
  end.
Fixpoint spec_edits (m : gmap bytes bytes) (es : list edit) : gmap bytes bytes * list (option bool) :=
  match es with
  | [] => (m, [])
  | e :: es =>
      let '(m1, a) := spec_edit m e in
      let '(m2, rest) := spec_edits m1 es in (m2, a :: rest)
  end.

Definition edit_ok (max : N) (e : edit) : Prop :=
  match e with
  | Put k v | PutCas k v _ => entry_ok max (k, v)
  | SubPut p k v => entry_ok max (p ++ k, v)
  | _ => True
  end.

Section Edits.
Context `{HL : HasherLaws} `{EL : Ed25519Laws} {S E : Type} `{SL : Store.StoreLaws S E}.
Context (max : N) (Hmax : limits max).
Implicit Types (ns : list Node) (b : Hyperbee S) (mode : option (Hypercore S)) (m : gmap bytes bytes).
Abbreviation holds := (holds max).
Abbreviation method := (act (Hyperbee S) (Error E)).

Definition exec_edit (e : edit) : method (option bool) :=
  match e with
  | Put k v => _ ← put k v; mret None
  | Del k => r ← del k; mret (Some r)
  | PutCas k v x => r ← put_cas k v x; mret (Some r)
  | DelCas k x => r ← del_cas k x; mret (Some r)
  | SubPut p k v => _ ← Sub_put p k v; mret None
  | SubDel p k => r ← Sub_del p k; mret (Some r)
  end.
Fixpoint exec_edits (es : list edit) : method (list (option bool)) :=
  match es with
  | [] => mret []
  | e :: es => a ← exec_edit e; rest ← exec_edits es; mret (a :: rest)
  end.

Lemma unchanged mode ns b m : holds mode ns b -> tree_of ns m -> changed max mode ns m b.
Proof. intros Hh Ht. exists ns. split_and!; [done|done|unfold op_blocks; lia|done]. Qed.

Lemma bee_get_spec mode ns b m k :
  holds mode ns b -> tree_of ns m -> wp (get k) (λ r b', b' = b /\ r = m !! k) (stopped mode) b.
Proof.
  intros Hh Ht. unfold get. apply wp_bind, wp_reads. rewrite (root_spec max mode ns) by done. by apply (get_at_root_spec max Hmax mode ns).
Qed.

Lemma del_changed mode ns b m k :
  holds mode ns b -> tree_of ns m -> spare ns m ->
  wp (r ← del k; mret (Some r)) (λ a b', a = (spec_del m k).2 /\ changed max mode ns (spec_del m k).1 b') (stopped mode) b.
Proof.
  intros Hh Ht Hs. apply wp_bind. eapply wp_mono; [by apply (del_spec max Hmax mode ns)| |done].
  intros r b' [-> Hr]. apply wp_ret. split; [done|]. cbn. case_bool_decide as Hk; [done|].
  rewrite delete_id by (by apply eq_None_not_Some). by apply unchanged.
Qed.

Lemma edit_spec mode ns b m e :
  holds mode ns b -> tree_of ns m -> spare ns m -> edit_ok max e ->
  wp (exec_edit e) (λ a b', a = (spec_edit m e).2 /\ changed max mode ns (spec_edit m e).1 b') (stopped mode) b.
Proof.
  intros Hh Ht Hs Hok.
  assert (Hput : forall A k v (a : A), entry_ok max (k, v) ->
    wp (_ ← put k v; mret a) (λ a' b', a' = a /\ changed max mode ns (<[k := v]> m) b') (stopped mode) b).
  { intros A k v a Hkv. apply wp_bind. eapply wp_mono; [by apply (put_spec max Hmax mode ns)| |done]. intros u b' Hc. by apply wp_ret. }
  destruct e as [k v|k|k v x|k x|p k v|p k]; cbn [exec_edit spec_edit].
  - by apply Hput.
  - by apply del_changed.
  - unfold put_cas. apply wp_bind, wp_bind. eapply wp_mono; [by apply (bee_get_spec mode ns)| |done]. intros r ? [-> ->].
    destruct (decide (m !! k = x)) as [Hx|Hx].
    + rewrite bool_decide_true by done. cbn [negb]. eapply wp_mono; [by apply Hput| |done]. intros r b' [-> Hc]. by apply wp_ret.
    + rewrite bool_decide_false by done. apply wp_ret, wp_ret. split; [done|]. by apply unchanged.
  - unfold del_cas. apply wp_bind, wp_bind. eapply wp_mono; [by apply (bee_get_spec mode ns)| |done]. intros r ? [-> ->].
    destruct (decide (m !! k = x)) as [Hx|Hx].
    + rewrite bool_decide_true by done. cbn [negb]. pose proof (del_changed mode ns b m k Hh Ht Hs) as Hd.
      unfold wp, mbind, act_bind in Hd |- *. by destruct (del k b) as [[b' [r|er]]| |].
    + rewrite bool_decide_false by done. apply wp_ret, wp_ret. split; [done|]. by apply unchanged.
  - by apply Hput.
  - by apply del_changed.
Qed.

(** [n] edits more are within the bounds. *)
Definition spare_for (n : nat) ns m : Prop :=
  lenN ns + N.of_nat n * op_blocks <= Flat.max_blocks /\ N.of_nat (size m + n) <= two64.

Lemma spec_edit_size m e : (size (spec_edit m e).1 <= size m + 1)%nat.
Proof.
  assert (Hi : forall k v, (size (<[k := v]> m) <= size m + 1)%nat).
  { intros k v. rewrite map_size_insert. destruct (m !! k); cbn; lia. }
  assert (Hd : forall k, (size (base.delete k m) <= size m + 1)%nat) by (intros k; rewrite map_size_delete; destruct (m !! k); cbn; lia).
  destruct e; cbn; repeat case_decide; cbn; auto; lia.
Qed.

Lemma edits_spec mode ns b m es :
  holds mode ns b -> tree_of ns m -> spare_for (length es) ns m -> Forall (edit_ok max) es ->
  wp (exec_edits es) (λ a b', a = (spec_edits m es).2 /\ exists ns', holds mode ns' b' /\ ns `prefix_of` ns'
      /\ lenN ns' <= lenN ns + lenN es * op_blocks /\ tree_of ns' (spec_edits m es).1)
    (stopped mode) b.
Proof.
  intros Hh Ht Hs Hok. revert ns b m Hh Ht Hs. induction Hok as [|e es He Hok IH]; intros ns b m Hh Ht [Hs1 Hs2]; cbn [exec_edits spec_edits].
  - apply wp_ret. split; [done|]. exists ns. split_and!; [done|done|unfold lenN; cbn; lia|done].
  - cbn [length] in *. apply wp_bind. eapply wp_mono; [apply (edit_spec mode ns b m e); [done..| |done]| |done].
    { unfold spare. lia. }
    intros a b1 [-> (ns1 & Hh1 & Hp1 & Hl1 & Ht1)]. pose proof (spec_edit_size m e) as Hsz.
    destruct (spec_edit m e) as [m1 a1]. cbn [fst snd] in *. destruct (spec_edits m1 es) as [m2 rest] eqn:Es.
    apply wp_bind. eapply wp_mono; [apply (IH ns1 b1 m1); [done..|]| |done].
    { unfold spare_for, op_blocks in *. lia. }
    rewrite Es. intros a b2 [-> (ns2 & Hh2 & Hp2 & Hl2 & Ht2)]. apply wp_ret. split; [done|]. exists ns2.
    split_and!; [done|by etrans| |done]. rewrite lenN_cons. unfold op_blocks in *. lia.
Qed.

(** ** Batches *)

(** How a client runs a batch: edit, then commit or drop; an error drops it. *)
Definition in_batch {A} (body : method A) (keep : bool) : method A := λ b,
  '(b, r) ← (_ ← begin_batch; body) b;
  match r with
  | Ok a => (_ ← (if keep then BeeBatch_commit else drop_batch); mret a) b
  | Err e => Done (mkBee (core b) None, Err e)
  end.

Lemma holds_core ns b : holds None ns b -> b = mkBee (core b) None.
Proof. intros (_ & l & old & _ & _ & _ & Hm). destruct b as [c [bt|]]; done. Qed.

Lemma begin_holds ns b : holds None ns b -> holds (Some (core b)) ns (mkBee (core b) (Some (batch (core b)))).
Proof.
  intros (Hw & l & old & Hr & Hall & Eb & Hm). split; [done|]. exists l, old. destruct (pending b); [done|]. subst.
  cbn [core pending]. split_and!; [done..|apply (r_tree _ _ (proj1 Hr))|]. exists []. by rewrite app_nil_r.
Qed.

Lemma commit_holds c ns b :
  holds (Some c) ns b ->
  wp BeeBatch_commit (λ _, holds None ns)
    (λ e b', store_fails (S:=S) (E:=E) /\ (exists e', e = Storage e') /\ exists s, b' = mkBee (set_store c s) None) b.
Proof.
  intros (Hw & l & old & Hr & Hall & Eb & Hm). destruct (pending b) as [bt|] eqn:Ep; [|done].
  destruct Hm as (Ec & Ebase & new & Enew & ->). assert (El : l_len l = lenN old) by (unfold l_len, lenN; by rewrite Eb, length_fmap).
  unfold BeeBatch_commit. apply wp_bind. unfold wp at 1, take_pending. rewrite Ep. apply wp_bind.
  unfold wp at 1, on_core. cbn [core pending]. rewrite Ec in Hr |- *. destruct new as [|n new].
  - cbn in Enew. rewrite app_nil_r in Hw. assert (commit bt c = Done (c, Ok (Some (len c)))) as ->.
    { unfold commit, mbind, act_bind, reads. assert (len c = l_len l) as -> by apply (r_tree _ _ (proj1 Hr)).
      by rewrite Ebase, N.eqb_refl, Enew, bool_decide_true. }
    rsimpl. apply wp_ret. split; [by rewrite app_nil_r|]. exists l, old. by rewrite app_nil_r.
  - pose proof (commit_refines l c bt Hr Ebase) as Hc. destruct Hw as [Hn Hd Hlen]. rewrite lenN_app in Hlen.
    apply Forall_app in Hn as [Hn1 Hn2]. destruct Hmax as [Hm1 Hm2].
    assert (Elen : lenN (encoded bt) = lenN (n :: new)) by (rewrite Enew; unfold lenN; by rewrite length_fmap).
    assert (Hu : blocks_ok (encoded bt)).
    { rewrite Enew. apply Forall_fmap. eapply Forall_impl; [exact Hn2|]. intros x Hx. pose proof (node_length max x Hx).
      unfold compose, u64_ok. lia. }
    assert (Hf : all_fit (l_len l) (encoded bt)).
    { intros j enc Hj. rewrite Enew in Hj. apply list_lookup_fmap_Some in Hj as (x & -> & Ex).
      apply Hm2; [apply lookup_lt_Some in Ex; unfold lenN in *; lia|]. by eapply Forall_lookup_1. }
    unfold wp in Hc. rewrite Elen, El in Hc. specialize (Hc ltac:(by rewrite Enew) ltac:(lia) Hu).
    rewrite El in Hf. specialize (Hc Hf). destruct (commit bt c) as [[c' [r|e]]| |]; rsimpl; [|by destruct Hc as (? & ? & s & ->); eauto|done..].
    destruct Hc as [_ Hr']. apply wp_ret. split; [constructor; [by apply Forall_app|done|by rewrite lenN_app]|].
    destruct (spec_appends_blocks l (encoded bt)) as [Eb' _].
    exists (foldl spec_append l (encoded bt)), (old ++ n :: new). cbn [core pending]. split_and!; [done| | |done].
    + intros i Hi. rewrite spec_appends_held. unfold l_len in Hi. rewrite Eb', lenN_app in Hi. unfold in_range.
      destruct (N.leb_spec (l_len l) i) as [Hle|Hlt]; [|rewrite (Hall i Hlt); by rewrite orb_true_r].
      rewrite (proj2 (N.ltb_lt _ _)) by (unfold l_len; lia). done.
    + by rewrite Eb', Eb, Enew, fmap_app.
Qed.

(** A batch that is dropped, or fails before its commit, leaves the tree as it was. *)
Lemma batch_spec ns b m es keep :
  holds None ns b -> tree_of ns m -> spare_for (length es) ns m -> Forall (edit_ok max) es ->
  wp (in_batch (exec_edits es) keep)
    (λ a b', a = (spec_edits m es).2 /\ if keep : bool then exists ns', holds None ns' b' /\ ns `prefix_of` ns'
         /\ lenN ns' <= lenN ns + lenN es * op_blocks /\ tree_of ns' (spec_edits m es).1 else b' = b)
    (λ e b', store_fails (S:=S) (E:=E) /\ (exists e', e = Storage e') /\ (b' = b \/ keep = true /\ exists s, b' = mkBee (set_store (core b) s) None)) b.
Proof.
  intros Hh Ht Hs Hok. pose proof (holds_core ns b Hh) as Eb.
  pose proof (edits_spec (Some (core b)) ns _ m es (begin_holds ns b Hh) Ht Hs Hok) as He.
  unfold wp at 1, in_batch. change ((_ ← begin_batch; exec_edits es) b) with (exec_edits es (mkBee (core b) (Some (batch (core b))))).
  unfold wp in He. destruct (exec_edits es _) as [[b1 [a|e]]| |]; [| |done..]; rsimpl.
  - destruct He as [-> (ns1 & Hh1 & Hp1 & Hl1 & Ht1)].
    assert (Ec1 : core b1 = core b) by (destruct Hh1 as (_ & l & old & _ & _ & _ & Hm1); destruct (pending b1); [apply Hm1|done]).
    destruct keep.
    + pose proof (commit_holds _ ns1 b1 Hh1) as Hc. unfold wp in Hc. unfold mbind, act_bind.
      destruct (BeeBatch_commit b1) as [[b2 [r|e]]| |]; [|by destruct Hc as (? & ? & ?); eauto|done..].
      split; [done|]. by exists ns1.
    + cbn. split; [done|]. by rewrite Eb, Ec1.
  - destruct He as (Hf & He & Ec). split_and!; [done..|]. left. by rewrite Eb, Ec.
Qed.

(** ** Runs *)

Inductive op := Edit (e : edit) | Atomic (es : list edit) (keep : bool).

Definition edits_of (o : op) : list edit := match o with Edit e => [e] | Atomic es _ => es end.
Definition exec (o : op) : method (list (option bool)) :=
  match o with
  | Edit e => a ← exec_edit e; mret [a]
  | Atomic es keep => in_batch (exec_edits es) keep
  end.
Definition spec m (o : op) : gmap bytes bytes * list (option bool) :=
  match o with
  | Edit e => spec_edits m [e]
  | Atomic es true => spec_edits m es
  | Atomic es false => (m, (spec_edits m es).2)
  end.

(** Entries within the limit, fewer than [2^64] keys, and block numbers left. *)
Definition op_ok b m (o : op) : Prop :=
  Forall (edit_ok max) (edits_of o)
  /\ version b + lenN (edits_of o) * op_blocks <= Flat.max_blocks
  /\ N.of_nat (size m) + lenN (edits_of o) <= two64.

(** A tree made by successful calls from a fresh one, the map it stands for, and the
    versions at the ends of the calls with their maps. *)
Inductive life : Hyperbee S -> gmap bytes bytes -> list (N * gmap bytes bytes) -> Prop :=
| life_new sk s :
    Store.store_inv s -> Store.contents s !! KEY_USERDATA = None -> life (new sk s) ∅ [(0, ∅)]
| life_op b m vs o a b' :
    life b m vs -> op_ok b m o -> exec o b = Done (b', Ok a) ->
    life b' (spec m o).1 (vs ++ [(version b', (spec m o).1)]).

(** What a run leaves: blocks that hold the tree and all its versions. *)
Definition versions_ok ns (vs : list (N * gmap bytes bytes)) : Prop :=
  forall v m', (v, m') ∈ vs -> v <= lenN ns /\ tree_of (take (N.to_nat v) ns) m'.

Lemma holds_version ns b : holds None ns b -> version b = lenN ns.
Proof.
  intros (_ & l & old & Hr & _ & Eb & Hm). destruct (pending b); [done|]. subst ns. unfold version.
  assert (len (core b) = l_len l) as -> by apply (r_tree _ _ (proj1 Hr)). unfold l_len, lenN. by rewrite Eb, length_fmap.
Qed.

Lemma versions_extend ns ns' vs m :
  versions_ok ns vs -> ns `prefix_of` ns' -> tree_of ns' m -> versions_ok ns' (vs ++ [(lenN ns', m)]).
Proof.
  intros Hv [k ->] Ht v m' [Hin|Hin]%elem_of_app.
  - destruct (Hv v m' Hin) as [Hle Hm]. rewrite lenN_app. split; [lia|].
    rewrite take_app_le by (unfold lenN in Hle; lia). done.
  - apply list_elem_of_singleton in Hin as [= -> ->]. split; [done|]. unfold lenN. rewrite Nat2N.id, take_ge by done. done.
Qed.

(** A call on a tree that holds a map. *)
Lemma exec_spec ns b m o :
  holds None ns b -> tree_of ns m -> op_ok b m o ->
  wp (exec o) (λ a b', a = (spec m o).2 /\ exists ns', holds None ns' b' /\ ns `prefix_of` ns'
      /\ lenN ns' <= lenN ns + lenN (edits_of o) * op_blocks /\ tree_of ns' (spec m o).1)
    (λ e b', store_fails (S:=S) (E:=E) /\ (exists e', e = Storage e')
       /\ match o with Edit _ => True | Atomic _ keep => b' = b \/ keep = true /\ exists s, b' = mkBee (set_store (core b) s) None end) b.
Proof.
  intros Hh Ht (Hok & Hv & Hsz). rewrite (holds_version ns b Hh) in Hv. destruct o as [e|es keep]; cbn [exec spec edits_of] in *.
  - pose proof (edits_spec None ns b m [e] Hh Ht) as He. unfold spare_for in He. cbn [length] in He.
    specialize (He ltac:(unfold lenN, op_blocks in *; cbn in *; lia) Hok). cbn [exec_edits] in He.
    unfold wp, mbind, act_bind, mret, act_ret in He |- *. destruct (exec_edit e b) as [[b' [a|er]]| |]; try done.
  - eapply wp_mono; [apply (batch_spec ns b m es keep); [done..| |done]| |].
    + unfold spare_for, lenN in *. lia.
    + intros a b' [-> Hb]. destruct keep; [done|]. subst b'. split; [done|]. exists ns. split_and!; [done..|lia|done].
    + intros e b' (Hf & He & Hb). done.
Qed.

Lemma life_spec b m vs : life b m vs -> exists ns, holds None ns b /\ tree_of ns m /\ versions_ok ns vs.
Proof.
  induction 1 as [sk s Hi Hu|b m vs o a b' _ (ns & Hh & Ht & Hv) Ho He].
  - exists []. split_and!.
    + split; [constructor; [constructor|by intros ? ? ?|done]|]. exists (empty_log None), [].
      pose proof (HypercoreTrace.fresh_repr (E:=E) sk s None Hi Hu I) as Hr. split_and!; [exact Hr| |done|done].
      intros i Hlt. unfold l_len, lenN in Hlt. cbn in Hlt. lia.
    + apply tree_of_empty.
    + intros v m' [= -> ->]%list_elem_of_singleton. split; [done|apply tree_of_empty].
  - pose proof (exec_spec ns b m o Hh Ht Ho) as Hw. unfold wp in Hw. rewrite He in Hw.
    destruct Hw as [_ (ns' & Hh' & Hp & _ & Ht')]. exists ns'. split_and!; [done..|].
    rewrite (holds_version ns' b' Hh'). by eapply versions_extend.
Qed.
End Edits.

Section Claims.
Context `{HL : HasherLaws} `{EL : Ed25519Laws} {S E : Type} `{SL : Store.StoreLaws S E}.
Implicit Types (b : Hyperbee S) (m : gmap bytes bytes).
Abbreviation method := (act (Hyperbee S) (Error E)).

(** A read gives its answer unless the store fails. *)
Lemma wp_answer {A} (r : method A) x mode b :
  wp r (λ a b', b' = b /\ a = x) (stopped mode) b -> store_fails (S:=S) (E:=E) \/ r b = Done (b, Ok x).
Proof.
  unfold wp. intros Hw. destruct (r b) as [[b' [a|e]]| |]; [right; by destruct Hw as [-> ->]|left; apply Hw|done..].
Qed.

Lemma range_spec max ns b m bounds :
  limits (S:=S) max -> holds max None ns b -> tree_of ns m ->
  wp (range bounds) (λ r b', b' = b /\ r = select bounds (bmap_list m)) (stopped (E:=E) None) b.
Proof.
  intros Hm Hh Ht. unfold range. apply wp_bind, wp_reads. rewrite (root_spec max None ns) by done.
  by apply (range_from_spec max Hm None ns).
Qed.

(** C5: A tree refines a map: after any run of edits and atomic batches the next call
    returns (no panic, no endless recursion); a success answers as the map does,
    leaves the tree of the new map and writes at most 85 blocks per edit; an error
    is the store's own, and a batch that fails before its commit leaves the tree
    as it was. *)
Theorem bee_refines_map max b m vs o :
  limits (S:=S) max -> life max b m vs -> op_ok max b m o ->
  exists b' r, exec o b = Done (b', r)
    /\ match r with
       | Ok a => a = (spec m o).2 /\ life max b' (spec m o).1 (vs ++ [(version b', (spec m o).1)])
           /\ version b' <= version b + lenN (edits_of o) * op_blocks
       | Err e => store_fails (S:=S) (E:=E) /\ (exists e', e = Storage e')
           /\ match o with
              | Edit _ => True
              | Atomic _ keep => b' = b \/ keep = true /\ exists s, b' = mkBee (set_store (core b) s) None
              end
       end.
Proof.
  intros Hm Hl Ho. destruct (life_spec max Hm b m vs Hl) as (ns & Hh & Ht & _).
  pose proof (exec_spec max Hm ns b m o Hh Ht Ho) as Hw. unfold wp in Hw.
  destruct (exec o b) as [[b' [a|e]]| |] eqn:Ee; [| |done..]; exists b'; eexists; (split; [done|]); [|done].
  destruct Hw as [-> (ns' & Hh' & _ & Hle & _)]. split_and!; [done|by eapply life_op|].
  by rewrite (holds_version max ns b), (holds_version max ns' b').
Qed.

(** C33: What the readers of a tree see: [get], [range], [peek], the lazy iterator
    pulled to its end and the reads of a sub-database answer from the map, the
    listing in key order, cut, turned and limited as the bounds say; only the
    store can make them fail, and they change nothing. *)
Theorem bee_reads max b m vs k p bounds fuel n :
  limits (S:=S) max -> life max b m vs -> from_option u64_ok True (limit bounds) ->
  (5 * size m + 1 < fuel)%nat -> (size m < n)%nat ->
  store_fails (S:=S) (E:=E) \/
  (get k b = Done (b, Ok (m !! k))
   /\ range bounds b = Done (b, Ok (select bounds (bmap_list m)))
   /\ peek bounds b = Done (b, Ok (hd_error (select (mkRange (gt bounds) (gte bounds) (lt bounds) (lte bounds)
        (reverse bounds) (Some 1)) (bmap_list m))))
   /\ drain fuel n b (iter b bounds) = Done (Ok <$> select bounds (bmap_list m))
   /\ Sub_get p k b = Done (b, Ok (submap p m !! k))
   /\ Sub_range p bounds b = Done (b, Ok (select bounds (bmap_list (submap p m))))).
Proof.
  intros Hm Hl Hu Hf Hn. destruct (life_spec max Hm b m vs Hl) as (ns & Hh & Ht & _).
  destruct (iter_spec max Hm fuel n None ns b m bounds) as [?|Hi]; [done..|by left|].
  assert (Hget : forall k, store_fails (S:=S) (E:=E) \/ get k b = Done (b, Ok (m !! k))).
  { intros k'. by eapply wp_answer, (bee_get_spec max Hm None ns). }
  assert (Hrange : forall bounds, store_fails (S:=S) (E:=E) \/ range bounds b = Done (b, Ok (select bounds (bmap_list m)))).
  { intros bs. by eapply wp_answer, (range_spec max ns). }
  destruct (Hget k) as [?|Eg]; [by left|]. destruct (Hget (p ++ k)) as [?|Eg']; [by left|].
  destruct (Hrange bounds) as [?|Er]; [by left|]. destruct (Hrange (sub_bounds p bounds)) as [?|Er']; [by left|].
  destruct (Hrange (mkRange (gt bounds) (gte bounds) (lt bounds) (lte bounds) (reverse bounds) (Some 1))) as [?|Ep]; [by left|].
  right. split_and!; try done.
  - unfold peek. unfold range in Ep. unfold mbind, act_bind, reads in Ep |- *. by rewrite Ep.
  - unfold Sub_get. by rewrite submap_lookup.
  - unfold Sub_range, mbind at 1, act_bind. rewrite Er'. unfold runs. by rewrite strip_select.
Qed.

(** C34: Versions last: a checkout of the version at the end of any earlier call, and
    [get_at] and [range_at] there, answer from the map of that moment, and [diff]
    between two of them lists, in key order, exactly the keys whose values
    differ. *)
Theorem bee_versions max b m vs v1 m1 v2 m2 k bounds :
  limits (S:=S) max -> life max b m vs -> (v1, m1) ∈ vs -> (v2, m2) ∈ vs ->
  store_fails (S:=S) (E:=E) \/
  (get_at v1 k b = Done (b, Ok (m1 !! k))
   /\ range_at v1 bounds b = Done (b, Ok (select bounds (bmap_list m1)))
   /\ co_version (checkout b v1) = v1
   /\ Checkout_get (checkout b v1) k b = Done (b, Ok (m1 !! k))
   /\ Checkout_range (checkout b v1) bounds b = Done (b, Ok (select bounds (bmap_list m1)))
   /\ exists d, diff v1 v2 b = Done (b, Ok d) /\ changes_ok m1 m2 d).
Proof.
  intros Hm Hl H1 H2. destruct (life_spec max Hm b m vs Hl) as (ns & Hh & Ht & Hv).
  assert (Hroot : forall v m', (v, m') ∈ vs -> N.min v (version b) = v /\ v = lenN (take (N.to_nat v) ns)).
  { intros v m' Hin. destruct (Hv v m' Hin) as [Hle _]. rewrite (holds_version max ns b Hh), lenN_take by done. split; [lia|done]. }
  assert (Hrange : forall v m' bs, (v, m') ∈ vs ->
    store_fails (S:=S) (E:=E) \/ range_from (checked_pred v) bs b = Done (b, Ok (select bs (bmap_list m')))).
  { intros v m' bs Hin. destruct (Hroot v m' Hin) as [_ ->].
    eapply wp_answer, (range_from_spec max Hm None ns); [done|apply prefix_take|]. by apply Hv. }
  assert (Hget : store_fails (S:=S) (E:=E) \/ get_at_root (checked_pred v1) k b = Done (b, Ok (m1 !! k))).
  { destruct (Hroot v1 m1 H1) as [_ ->]. eapply wp_answer, (get_at_root_spec max Hm None ns); [done|apply prefix_take|]. by apply Hv. }
  destruct Hget as [?|Hget]; [by left|]. destruct (Hrange v1 m1 bounds H1) as [?|Hr1]; [by left|].
  destruct (Hrange v1 m1 Range_default H1) as [?|Ha]; [by left|]. destruct (Hrange v2 m2 Range_default H2) as [?|Hb]; [by left|].
  right. destruct (Hroot v1 m1 H1) as [E1 _], (Hroot v2 m2 H2) as [E2 _]. unfold get_at, range_at, diff, Checkout_get, Checkout_range, checkout, root_at.
  unfold mbind, act_bind, reads. cbn [co_root co_version]. rewrite ?E1, ?E2. split_and!; try done.
  unfold range_at, mbind, act_bind, reads, root_at. rewrite E1, Ha, E2, Hb. eexists. split; [done|].
  assert (Hsel : forall l, select Range_default l = l).
  { intros l. unfold select. cbn [reverse limit Range_default]. induction l as [|e l IH]; [done|].
    by rewrite filter_cons_True, IH. }
  rewrite !Hsel. rewrite <- (to_map_listing m1) at 1. rewrite <- (to_map_listing m2) at 1. apply diff_loop_spec; [apply bmap_ordered..|done].
Qed.

(** C35: Every tree reached is a B-tree: its blocks are nodes of at most eight entries
    whose children are earlier blocks, every node under the root has at least four
    entries and every path to a leaf has the same length [h], the in-order listing
    is that of the map, and [2 * 5^h] is at most the number of keys plus one, so a
    lookup among fewer than [2^64] keys reads at most 28 nodes. *)
Theorem bee_balanced max b m vs :
  limits (S:=S) max -> life max b m vs ->
  exists ns, version b = lenN ns /\ Forall (node_ok max) ns /\ downward ns
    /\ (forall i n, ns !! N.to_nat i = Some n -> store_fails (S:=S) (E:=E) \/ node b i = Ok n)
    /\ (ns = [] -> m = ∅)
    /\ (ns <> [] -> exists h, sub ns (root_lo h) h (lenN ns - 1) (bmap_list m)
          /\ (0 < h -> 2 * 5 ^ h <= size m + 1)%nat /\ (N.of_nat (size m) < two64 -> (h <= 27)%nat)).
Proof.
  intros Hm Hl. destruct (life_spec max Hm b m vs Hl) as (ns & Hh & [Ho Ht] & _). exists ns. pose proof (proj1 Hh) as [Hn Hd _].
  split_and!; [by apply (holds_version max)|done|done| | |].
  - intros i n En. destruct (node_spec max Hm None ns b i n Hh En) as [?|[? _]]; [by right|by left].
  - intros ->. by rewrite <- (to_map_listing m), Ht.
  - intros Hne. destruct ns as [|n0 ns0] eqn:En; [done|]. rewrite <- En in *. destruct Ht as [h Hs]. exists h. split_and!; [done| |].
    + intros Hh0. destruct Hs as (n & _ & Hlo & Hs%shape_length). rewrite bmap_list_length in Hs.
      destruct h as [|h]; [lia|]. cbn [root_lo] in Hlo. change (MIN_KEYS + 1)%nat with 5%nat in Hs.
      assert (2 * 5 ^ Datatypes.S h <= Datatypes.S (length (entries n)) * 5 ^ Datatypes.S h)%nat by (apply Nat.mul_le_mono_r; lia). lia.
    + intros Hsz. eapply root_height; [exact Hne|exact Hs|]. by rewrite bmap_list_length.
Qed.
End Claims.
End HyperbeeTheorems.
