(* ===== verification/HyperbeeWitnesses.v ===== *)
(** * [hyperbee]: the theorems at concrete trees

    A tree over the in-memory store, with the concrete hash and signature functions
    of MerkleHistory and IdentityTheorems: twelve keys, a deletion and a batch. *)
From S2P Require Import Prelude Codec Flat Merkle MerkleSpec MerkleHistory Store Identity IdentityTheorems.
From S2P Require Import Hypercore HypercoreLog Hyperbee HyperbeeSpec HyperbeeTree HyperbeeCodec HyperbeeBlocks.
From S2P Require Import HyperbeeMap HyperbeeQueries HyperbeeIter HyperbeeTheorems.
From Stdlib Require Import Strings.Byte.

Module HyperbeeWitnesses.
Import Hypercore HypercoreLog Hyperbee HyperbeeSpec HyperbeeTree HyperbeeCodec HyperbeeBlocks HyperbeeMap HyperbeeQueries HyperbeeIter HyperbeeTheorems.

#[local] Existing Instance MerkleHistory.toy_hash.
#[local] Existing Instance MerkleHistory.toy_laws.
#[local] Existing Instance IdentityTheorems.toy_ed.
#[local] Existing Instance IdentityTheorems.toy_ed_laws.

Abbreviation bee := (Hyperbee Store.MemoryStore).
Abbreviation exec_ := (exec (E:=Store.Infallible)).

Definition ran {A} (b : bee) (r : run (bee * A)) : bee := match r with Done (b', _) => b' | _ => b end.

Definition key (n : N) : bytes := [byte_of n].
Definition puts (n : N) : list edit := (λ i, Put (key i) (key (100 + i))) <$> rangeN 0 n.

Definition bee0 : bee := Hyperbee.new IdentityTheorems.sk1 Store.Memory_new.
(** Nine keys in one batch: the root splits into two leaves. *)
Definition bee1 : bee := Eval vm_compute in ran bee0 (exec_ (Atomic (puts 9) true) bee0).
Definition map1 : gmap bytes bytes := (spec ∅ (Atomic (puts 9) true)).1.

Lemma limits_mem : limits (S:=Store.MemoryStore) (E:=Store.Infallible) 1000.
Proof. split; [done|]. by intros. Qed.

Lemma bee_life0 : life (E:=Store.Infallible) 1000 bee0 ∅ [(0, ∅)].
Proof. by apply life_new. Qed.

Lemma bee_life1 : life (E:=Store.Infallible) 1000 bee1 map1 [(0, ∅); (version bee1, map1)].
Proof.
  apply (life_op (E:=Store.Infallible) 1000 bee0 ∅ [(0, ∅)] (Atomic (puts 9) true) (replicate 9 None) bee1); [apply bee_life0| |].
  - split_and!; [|done|done]. apply Forall_fmap, Forall_forall. intros i _. vm_compute. discriminate.
  - vm_cast_no_check (@eq_refl (run (bee * result (Error Store.Infallible) (list (option bool)))) (Done (bee1, Ok (replicate 9 None)))).
Qed.

(** The next call deletes a key; two leaves merge. *)
Lemma bee_refines_map_witness : exists b' r, exec_ (Edit (Del (key 0))) bee1 = Done (b', r).
Proof.
  destruct (bee_refines_map (E:=Store.Infallible) 1000 bee1 map1 [(0, ∅); (version bee1, map1)] (Edit (Del (key 0)))
    limits_mem bee_life1) as (b' & r & He & _); [|by exists b', r].
  split_and!; [apply Forall_singleton|..]; vm_compute; first [done|discriminate].
Defined.

Lemma bee_reads_witness : get (E:=Store.Infallible) (key 3) bee1 = Done (bee1, Ok (Some (key 103))).
Proof.
  destruct (bee_reads (E:=Store.Infallible) 1000 bee1 map1 [(0, ∅); (version bee1, map1)] (key 3) [] Range_default 60 20
    limits_mem bee_life1) as [Hf|(Hg & _)]; [exact I| | | |].
  - apply Nat.ltb_lt. by vm_compute.
  - apply Nat.ltb_lt. by vm_compute.
  - by apply total_never_fails in Hf; [|apply _].
  - rewrite Hg. by vm_compute.
Defined.

Lemma bee_versions_witness : get_at (E:=Store.Infallible) 0 (key 3) bee1 = Done (bee1, Ok None).
Proof.
  destruct (bee_versions (E:=Store.Infallible) 1000 bee1 map1 [(0, ∅); (version bee1, map1)] 0 ∅ (version bee1) map1 (key 3) Range_default
    limits_mem bee_life1) as [Hf|(Hg & _)]; [left|right; left|by apply total_never_fails in Hf; [|apply _]|exact Hg].
Defined.

Lemma bee_balanced_witness : exists ns, version bee1 = lenN ns /\ Forall (node_ok 1000) ns.
Proof.
  destruct (bee_balanced (E:=Store.Infallible) 1000 bee1 map1 [(0, ∅); (version bee1, map1)] limits_mem bee_life1)
    as (ns & Hv & Hn & _). by exists ns.
Defined.

(** The nine keys put one by one, then the first deleted. *)
Fixpoint run_edits (es : list edit) (b : bee) : bee :=
  match es with [] => b | e :: es => run_edits es (ran b (exec_ (Edit e) b)) end.
Definition bee2 : bee := Eval vm_compute in run_edits (puts 9 ++ [Del (key 0)]) bee0.

(** [history] does not list the operations: after nine puts and the deletion of
    one key it reports ten more changes, among them deletions of five keys that
    were never deleted. The leaf that the deletion left too small and that the
    rebalancing replaced is referenced by no block, so it is taken for the root at
    the end of an operation. *)
Theorem history_spurious :
  bee2 = run_edits (puts 9 ++ [Del (key 0)]) bee0
  /\ exists h, history (E:=Store.Infallible) bee2 = Done (bee2, Ok h)
    /\ h = ((λ i, (key i, Some (key (100 + i)))) <$> rangeN 0 9) ++ [(key 0, None)]
         ++ ((λ i, (key i, None)) <$> rangeN 4 9) ++ ((λ i, (key i, Some (key (100 + i)))) <$> rangeN 4 9).
Proof.
  split; [by vm_compute|]. eexists. split; [|reflexivity].
  vm_cast_no_check (@eq_refl (run (bee * result (Error Store.Infallible) (list (bytes * option bytes))))
    (Done (bee2, Ok (((λ i, (key i, Some (key (100 + i)))) <$> rangeN 0 9) ++ [(key 0, None)]
         ++ ((λ i, (key i, None)) <$> rangeN 4 9) ++ ((λ i, (key i, Some (key (100 + i)))) <$> rangeN 4 9))))).
Qed.
End HyperbeeWitnesses.
