(* ===== verification/Wire.v ===== *)
(** * [roomnet]: entries and sync messages as bytes

    The model of [src/crates/roomnet/src/entry.rs], [sync.rs] and [wire.rs]: the
    content of a block, the messages peers exchange, and their encodings.  A
    reader takes a buffer and returns the value and the rest of the buffer, as
    the [&mut &[u8]] readers of the source do. *)
From S2P Require Import Prelude Codec Merkle Identity Hypercore Linearizer.
From Stdlib Require Import Strings.Byte.

Module Wire.
Import Linearizer (WriterKey, NodeId).
Import Hypercore (SignedHead, mkHead, h_fork, h_length, h_root, h_sig).

(** [for _ in 0..n { v.push(rd(b)?) }].  A round reads a byte at least and a
    reader fails with [e] on an empty buffer, so the length of the buffer is fuel
    enough ([read_n_enough]). *)
Fixpoint read_n {E A} (fuel : nat) (e : E) (rd : bytes -> result E (A * bytes)) (n : N) (b : bytes)
    (acc : list A) : result E (list A * bytes) :=
  if n =? 0 then Ok (acc, b)
  else
    match fuel with
    | O => Err e
    | S fuel' => '(x, b) ← rd b; read_n fuel' e rd (n - 1) b (acc ++ [x])
    end.

(** ** Entries *)

Record Entry := mkEntry { heads : list NodeId; payload : bytes }.
Definition Entry_new (hs : list NodeId) (p : bytes) : Entry := mkEntry hs p.

Definition ENTRY_V1 : N := 1.

Definition head_bytes (h : NodeId) : bytes := Linearizer.key h ++ Codec.varint_bytes (Linearizer.seq h).
Definition read_head (b : bytes) : result Codec.Error (NodeId * bytes) :=
  if lenN b <? 32 then Err Codec.Eof
  else
    '(s, b') ← Codec.varint_read (drop 32 b);
    Ok (Linearizer.mkNode (take 32 b) s, b').

Definition read_entry (b : bytes) : result Codec.Error (Entry * bytes) :=
  '(_, b) ← Codec.varint_read b;
  '(n, b) ← Codec.varint_read b;
  '(hs, b) ← read_n (length b) Codec.Eof read_head n b [];
  '(len, b) ← Codec.varint_read b;
  if lenN b <? len then Err Codec.Eof
  else Ok (mkEntry hs (take (N.to_nat len) b), drop (N.to_nat len) b).

#[global] Instance EntryCodec : Codec.Codec Entry := {|
  Codec.encode_into value out :=
    out ++ Codec.varint_bytes ENTRY_V1 ++ Codec.varint_bytes (lenN (heads value))
      ++ concat (head_bytes <$> heads value)
      ++ Codec.varint_bytes (lenN (payload value)) ++ payload value;
  Codec.decode bs := fst <$> read_entry bs;
|}.

(** ** Messages *)

Section Messages.
Context `{Ed25519}.

Inductive SyncMessage : Type :=
| Head (writer : WriterKey) (head : SignedHead)
| Have (writer : WriterKey) (length : N)
| Want (writer : WriterKey) (start stop : N)
| Block (writer : WriterKey) (head : SignedHead) (index : N) (bs : bytes) (proof : Merkle.Proof_).

Inductive WireError := Eof | Varint | BadTag (tag : N).

Definition T_HEAD : N := 0.
Definition T_HAVE : N := 1.
Definition T_WANT : N := 2.
Definition T_BLOCK : N := 3.

(** *** Writers *)

Definition wr_head (h : SignedHead) : bytes :=
  Codec.varint_bytes (h_fork h) ++ Codec.varint_bytes (h_length h) ++ h_root h
    ++ Identity.Sig_to_bytes (h_sig h).
Definition wr_node (n : Merkle.Node) : bytes :=
  Codec.varint_bytes (Merkle.index n) ++ Merkle.hash n ++ Codec.varint_bytes (Merkle.size n).
Definition wr_nodes (ns : list Merkle.Node) : bytes :=
  Codec.varint_bytes (lenN ns) ++ concat (wr_node <$> ns).
Definition wr_proof (p : Merkle.Proof_) : bytes :=
  Codec.varint_bytes (Merkle.block p) ++ Codec.varint_bytes (Merkle.leaf_size p)
    ++ wr_nodes (Merkle.siblings p) ++ wr_nodes (Merkle.roots p).

Definition encode (m : SyncMessage) : bytes :=
  match m with
  | Head writer head => Codec.varint_bytes T_HEAD ++ writer ++ wr_head head
  | Have writer length => Codec.varint_bytes T_HAVE ++ writer ++ Codec.varint_bytes length
  | Want writer start stop =>
      Codec.varint_bytes T_WANT ++ writer ++ Codec.varint_bytes start ++ Codec.varint_bytes stop
  | Block writer head index bs proof =>
      Codec.varint_bytes T_BLOCK ++ writer ++ wr_head head ++ Codec.varint_bytes index
        ++ Codec.varint_bytes (lenN bs) ++ bs ++ wr_proof proof
  end.

(** *** Readers *)

Abbreviation reader A := (bytes -> result WireError (A * bytes)).

Definition take_ (n : N) : reader bytes := λ b,
  if lenN b <? n then Err Eof else Ok (take (N.to_nat n) b, drop (N.to_nat n) b).
Definition rd_u64 : reader N := λ b, map_err (λ _, Varint) (Codec.varint_read b).
Definition rd_32 : reader bytes := take_ 32.
Definition rd_64 : reader bytes := take_ 64.
Definition rd_head : reader SignedHead := λ b,
  '(fork, b) ← rd_u64 b;
  '(length, b) ← rd_u64 b;
  '(root, b) ← rd_32 b;
  '(sig, b) ← rd_64 b;
  Ok (mkHead fork length root (Identity.Sig_from_bytes sig), b).
Definition rd_node : reader Merkle.Node := λ b,
  '(index, b) ← rd_u64 b;
  '(hash, b) ← rd_32 b;
  '(size, b) ← rd_u64 b;
  Ok (Merkle.mkNode index hash size, b).
Definition rd_nodes : reader (list Merkle.Node) := λ b,
  '(k, b) ← rd_u64 b;
  read_n (length b) Varint rd_node k b [].
Definition rd_proof : reader Merkle.Proof_ := λ b,
  '(block, b) ← rd_u64 b;
  '(leaf_size, b) ← rd_u64 b;
  '(siblings, b) ← rd_nodes b;
  '(roots, b) ← rd_nodes b;
  Ok (Merkle.mkProof block leaf_size siblings roots, b).

(** What the buffer holds after the message is not looked at. *)
Definition read_message : reader SyncMessage := λ b,
  '(tag, b) ← rd_u64 b;
  '(writer, b) ← rd_32 b;
  if tag =? T_HEAD then
    '(head, b) ← rd_head b; Ok (Head writer head, b)
  else if tag =? T_HAVE then
    '(length, b) ← rd_u64 b; Ok (Have writer length, b)
  else if tag =? T_WANT then
    '(start, b) ← rd_u64 b;
    '(stop, b) ← rd_u64 b;
    Ok (Want writer start stop, b)
  else if tag =? T_BLOCK then
    '(head, b) ← rd_head b;
    '(index, b) ← rd_u64 b;
    '(blen, b) ← rd_u64 b;
    '(bs, b) ← take_ blen b;
    '(proof, b) ← rd_proof b;
    Ok (Block writer head index bs proof, b)
  else Err (BadTag tag).
Definition decode (b : bytes) : result WireError SyncMessage := fst <$> read_message b.
End Messages.

(** ** Exact readers

    [exact rd enc v]: the reader takes exactly the bytes of [enc] for [v], whatever
    follows, and refuses every proper prefix of them. *)
Section Exact.
Context {E : Type}.

Definition exact {A} (rd : bytes -> result E (A * bytes)) (enc : bytes) (v : A) : Prop :=
  (forall rest, rd (enc ++ rest) = Ok (v, rest))
  /\ forall k, (k < length enc)%nat -> exists e, rd (take k enc) = Err e.

Lemma exact_ret {A} (v : A) : exact (λ b, Ok (v, b)) [] v.
Proof. split; [done|]. cbn. lia. Qed.

Lemma exact_bind {A B} rd (f : A -> bytes -> result E (B * bytes)) e1 e2 x y :
  exact rd e1 x -> exact (f x) e2 y -> exact (λ b, '(x, b) ← rd b; f x b) (e1 ++ e2) y.
Proof.
  intros [H1 H2] [G1 G2]. split.
  - intros rest. rewrite <- app_assoc, H1. rsimpl. apply G1.
  - intros k. rewrite length_app. intros Hk. destruct (Nat.lt_ge_cases k (length e1)) as [Hlt|Hge].
    + rewrite take_app_le by lia. destruct (H2 k Hlt) as [e ->]. by exists e.
    + rewrite take_app_ge by lia. rewrite H1. rsimpl. apply G2. lia.
Qed.

(** The last reader of a record only wraps its value. *)
Lemma exact_map {A B} rd (g : A -> B) enc x :
  exact rd enc x -> exact (λ b, '(x, b) ← rd b; Ok (g x, b)) enc (g x).
Proof.
  intros Hx. rewrite <- (app_nil_r enc). eapply exact_bind; [exact Hx|apply exact_ret].
Qed.

Lemma exact_ext {A} (rd rd' : bytes -> result E (A * bytes)) enc v :
  (forall b, rd b = rd' b) -> exact rd enc v -> exact rd' enc v.
Proof. intros He [H1 H2]. split; intros; rewrite <- He; auto. Qed.

Lemma read_n_ok {A} e (rd : bytes -> result E (A * bytes)) (enc : A -> bytes) xs fuel acc rest :
  (length xs <= fuel)%nat -> Forall (λ x, exact rd (enc x) x) xs ->
  read_n fuel e rd (lenN xs) (concat (enc <$> xs) ++ rest) acc = Ok (acc ++ xs, rest).
Proof.
  revert fuel acc. induction xs as [|x xs IH]; intros fuel acc Hf Hx.
  - rewrite app_nil_r. by destruct fuel.
  - destruct fuel as [|fuel]; cbn in Hf; [lia|]. apply Forall_cons in Hx as [[Hx _] Hxs].
    cbn [read_n fmap list_fmap concat]. rewrite lenN_cons. destruct (N.eqb_spec (lenN xs + 1) 0); [lia|].
    rewrite <- app_assoc, Hx. rsimpl. replace (lenN xs + 1 - 1) with (lenN xs) by lia.
    rewrite IH by (done || lia). by rewrite <- app_assoc.
Qed.

Lemma read_n_cut {A} e (rd : bytes -> result E (A * bytes)) (enc : A -> bytes) xs fuel acc k :
  Forall (λ x, exact rd (enc x) x) xs -> (k < length (concat (enc <$> xs)))%nat ->
  exists e', read_n fuel e rd (lenN xs) (take k (concat (enc <$> xs))) acc = Err e'.
Proof.
  revert fuel acc k. induction xs as [|x xs IH]; intros fuel acc k Hx Hk; [cbn in Hk; lia|].
  apply Forall_cons in Hx as [[Hx Hc] Hxs]. destruct fuel as [|fuel]; cbn [read_n]; rewrite lenN_cons;
    (destruct (N.eqb_spec (lenN xs + 1) 0); [lia|]); [by eexists|].
  cbn [fmap list_fmap concat] in *. rewrite length_app in Hk.
  destruct (Nat.lt_ge_cases k (length (enc x))) as [Hlt|Hge].
  - rewrite take_app_le by lia. destruct (Hc k Hlt) as [e' ->]. by exists e'.
  - rewrite take_app_ge by lia. rewrite Hx. rsimpl. replace (lenN xs + 1 - 1) with (lenN xs) by lia.
    apply IH; [done|]. lia.
Qed.

Lemma exact_list {A} e (rd : bytes -> result E (A * bytes)) (enc : A -> bytes) xs :
  (forall x, (1 <= length (enc x))%nat) -> Forall (λ x, exact rd (enc x) x) xs ->
  exact (λ b, read_n (length b) e rd (lenN xs) b []) (concat (enc <$> xs)) xs.
Proof.
  intros Hne Hx. split; [|intros k; by apply read_n_cut].
  intros rest. rewrite (read_n_ok e rd enc); [done| |done]. rewrite length_app.
  assert (length xs <= length (concat (enc <$> xs)))%nat; [|lia].
  clear Hx. induction xs as [|x xs IH]; cbn; [lia|]. rewrite length_app. specialize (Hne x). lia.
Qed.

(** A reader that needs a byte a round: fuel beyond the buffer changes nothing. *)
Lemma read_n_enough {A} e (rd : bytes -> result E (A * bytes)) n b fuel acc :
  rd [] = Err e -> (forall b x b', rd b = Ok (x, b') -> (length b' < length b)%nat) ->
  (length b <= fuel)%nat -> read_n fuel e rd n b acc = read_n (length b) e rd n b acc.
Proof.
  intros He Hrd.
  assert (Hgo : forall f m b acc, (length b <= f)%nat -> read_n (S f) e rd m b acc = read_n f e rd m b acc).
  { induction f as [|f IH]; intros m c acc' Hf.
    - destruct c; [|cbn in Hf; lia]. cbn. destruct (m =? 0); [done|]. by rewrite He.
    - change (read_n (S (S f)) e rd m c acc') with (if m =? 0 then Ok (acc', c) else
        '(x, c) ← rd c; read_n (S f) e rd (m - 1) c (acc' ++ [x])).
      cbn [read_n]. destruct (m =? 0); [done|]. destruct (rd c) as [[y c']|] eqn:Eb; rsimpl; [|done].
      apply Hrd in Eb. apply IH. lia. }
  induction 1 as [|fuel Hf IH]; [done|]. by rewrite Hgo.
Qed.
End Exact.

(** ** The encodings read back *)

(** What the encodings can carry: keys of 32 bytes, integers and lengths of 64 bits. *)
Definition key_ok (k : WriterKey) : Prop := lenN k = 32.
Definition node_ok (n : NodeId) : Prop := key_ok (Linearizer.key n) /\ u64_ok (Linearizer.seq n).
Definition entry_ok (e : Entry) : Prop :=
  u64_ok (lenN (heads e)) /\ Forall node_ok (heads e) /\ u64_ok (lenN (payload e)).

Lemma varint_exact v : u64_ok v -> exact Codec.varint_read (Codec.varint_bytes v) v.
Proof.
  intros Hv. split; [intros rest; by apply Codec.varint_read_write|].
  intros k Hk. exists Codec.Eof. rewrite <- (app_nil_r (Codec.varint_bytes v)). by apply Codec.varint_read_prefix.
Qed.

Lemma varint_not_empty v : (1 <= length (Codec.varint_bytes v))%nat.
Proof. unfold Codec.varint_bytes. rewrite Codec.varint_loop_S. destruct (_ =? 0); cbn; lia. Qed.

(** A chunk whose length is known, taken with a bound check. *)
Lemma chunk_exact {E A} (e : E) (g : bytes -> A) n bs :
  lenN bs = n ->
  exact (λ b, if lenN b <? n then Err e else Ok (g (take (N.to_nat n) b), drop (N.to_nat n) b)) bs (g bs).
Proof.
  intros <-. split.
  - intros rest. rewrite lenN_app. destruct (N.ltb_spec (lenN bs + lenN rest) (lenN bs)); [lia|].
    by rewrite Codec.take_app_lenN, Codec.drop_app_lenN.
  - intros k Hk. exists e. destruct (N.ltb_spec (lenN (take k bs)) (lenN bs)) as [|Hge]; [done|].
    unfold lenN in Hge. rewrite length_take in Hge. lia.
Qed.

Lemma read_head_exact h : node_ok h -> exact read_head (head_bytes h) h.
Proof.
  intros [Hk Hs]. destruct h as [k s]. cbn [Linearizer.key Linearizer.seq] in *.
  eapply (exact_ext (λ b, '(k, b) ← (if lenN b <? 32 then Err Codec.Eof else Ok (take (N.to_nat 32) b, drop (N.to_nat 32) b));
                      '(s, b) ← Codec.varint_read b; Ok (Linearizer.mkNode k s, b))).
  { intros b. unfold read_head. change (N.to_nat 32) with 32%nat. by destruct (lenN b <? 32). }
  eapply exact_bind; [by apply (chunk_exact Codec.Eof (λ x, x))|]. apply (exact_map _ (Linearizer.mkNode k)).
  by apply varint_exact.
Qed.

Lemma entry_exact e : entry_ok e -> exact read_entry (Codec.encode e) e.
Proof.
  intros (Hn & Hh & Hp). destruct e as [hs p]. cbn [heads payload] in *.
  unfold Codec.encode. cbn [Codec.encode_into EntryCodec heads payload app].
  eapply exact_bind; [by apply varint_exact|]. eapply exact_bind; [by apply varint_exact|].
  eapply (exact_bind _ (λ hs b, '(len, b) ← Codec.varint_read b; _)).
  { apply exact_list; [intros h; unfold head_bytes; rewrite length_app; pose proof (varint_not_empty (Linearizer.seq h)); lia|].
    eapply Forall_impl; [exact Hh|]. apply read_head_exact. }
  eapply exact_bind; [by apply varint_exact|]. by apply (chunk_exact Codec.Eof (mkEntry hs)).
Qed.

Lemma entry_roundtrip e : entry_ok e -> Codec.decode (Codec.encode e) = Ok e.
Proof.
  intros He. cbn [Codec.decode EntryCodec]. destruct (entry_exact e He) as [Hr _].
  specialize (Hr []). rewrite app_nil_r in Hr. by rewrite Hr.
Qed.

#[global] Instance entry_laws : Codec.CodecLaws Entry := {|
  Codec.codec_valid := entry_ok; Codec.codec_roundtrip := entry_roundtrip |}.

Section Theorems.
Context `{EL : Ed25519Laws}.

Definition head_ok (h : SignedHead) : Prop :=
  u64_ok (h_fork h) /\ u64_ok (h_length h) /\ lenN (h_root h) = 32.
Definition tree_node_ok (n : Merkle.Node) : Prop :=
  u64_ok (Merkle.index n) /\ lenN (Merkle.hash n) = 32 /\ u64_ok (Merkle.size n).
Definition nodes_ok (ns : list Merkle.Node) : Prop := u64_ok (lenN ns) /\ Forall tree_node_ok ns.
Definition proof_ok (p : Merkle.Proof_) : Prop :=
  u64_ok (Merkle.block p) /\ u64_ok (Merkle.leaf_size p)
  /\ nodes_ok (Merkle.siblings p) /\ nodes_ok (Merkle.roots p).
Definition message_ok (m : SyncMessage) : Prop :=
  match m with
  | Head writer head => key_ok writer /\ head_ok head
  | Have writer length => key_ok writer /\ u64_ok length
  | Want writer start stop => key_ok writer /\ u64_ok start /\ u64_ok stop
  | Block writer head index bs proof =>
      key_ok writer /\ head_ok head /\ u64_ok index /\ u64_ok (lenN bs) /\ proof_ok proof
  end.

Lemma u64_exact v : u64_ok v -> exact rd_u64 (Codec.varint_bytes v) v.
Proof.
  intros Hv. destruct (varint_exact v Hv) as [H1 H2]. unfold rd_u64. split.
  - intros rest. by rewrite H1.
  - intros k Hk. destruct (H2 k Hk) as [e ->]. by eexists.
Qed.

Lemma take_exact n bs : lenN bs = n -> exact (take_ n) bs bs.
Proof. apply (chunk_exact Eof (λ x, x)). Qed.

Lemma head_exact h : head_ok h -> exact rd_head (wr_head h) h.
Proof.
  intros (Hf & Hl & Hr). destruct h as [f l r s]. cbn [h_fork h_length h_root h_sig] in *.
  unfold wr_head. cbn [h_fork h_length h_root h_sig].
  eapply exact_bind; [by apply u64_exact|]. eapply exact_bind; [by apply u64_exact|].
  eapply exact_bind; [by apply take_exact|].
  rewrite <- (sig_from_to s) at 2. apply (exact_map rd_64 (λ g, mkHead f l r (Identity.Sig_from_bytes g))).
  apply take_exact. unfold lenN, Identity.Sig_to_bytes. by rewrite sig_bytes_length.
Qed.

Lemma node_exact n : tree_node_ok n -> exact rd_node (wr_node n) n.
Proof.
  intros (Hi & Hh & Hs). destruct n as [i h s]. cbn [Merkle.index Merkle.hash Merkle.size] in *. unfold wr_node.
  cbn [Merkle.index Merkle.hash Merkle.size]. eapply exact_bind; [by apply u64_exact|].
  eapply exact_bind; [by apply take_exact|]. apply (exact_map rd_u64 (Merkle.mkNode i h)). by apply u64_exact.
Qed.

Lemma nodes_exact ns : nodes_ok ns -> exact rd_nodes (wr_nodes ns) ns.
Proof.
  intros [Hn Hns]. eapply (exact_bind _ (λ k b, read_n (length b) Varint rd_node k b [])); [by apply u64_exact|].
  apply exact_list; [|eapply Forall_impl; [exact Hns|]; apply node_exact].
  intros n. unfold wr_node. rewrite length_app. pose proof (varint_not_empty (Merkle.index n)). lia.
Qed.

Lemma proof_exact p : proof_ok p -> exact rd_proof (wr_proof p) p.
Proof.
  intros (Hb & Hl & Hs & Hr). destruct p as [b l s r]. cbn [Merkle.block Merkle.leaf_size Merkle.siblings Merkle.roots] in *.
  unfold wr_proof. cbn [Merkle.block Merkle.leaf_size Merkle.siblings Merkle.roots].
  eapply exact_bind; [by apply u64_exact|]. eapply exact_bind; [by apply u64_exact|].
  eapply exact_bind; [by apply nodes_exact|]. apply (exact_map rd_nodes (Merkle.mkProof b l s)). by apply nodes_exact.
Qed.

Lemma message_exact m : message_ok m -> exact read_message (encode m) m.
Proof.
  intros Hm. destruct m as [w h|w n|w a z|w h i bs p]; cbn [message_ok encode] in *.
  all: eapply exact_bind; [by apply u64_exact|]; cbn [N.eqb T_HEAD T_HAVE T_WANT T_BLOCK Pos.eqb];
    eapply exact_bind; [by apply take_exact, Hm|].
  - apply (exact_map rd_head (Head w)). apply head_exact, Hm.
  - apply (exact_map rd_u64 (Have w)). apply u64_exact, Hm.
  - eapply exact_bind; [apply u64_exact, Hm|]. apply (exact_map rd_u64 (Want w a)). apply u64_exact, Hm.
  - destruct Hm as (_ & Hh & Hi & Hb & Hp).
    eapply exact_bind; [by apply head_exact|]. eapply exact_bind; [by apply u64_exact|].
    eapply exact_bind; [by apply u64_exact|]. eapply exact_bind; [by apply take_exact|].
    apply (exact_map rd_proof (Block w h i bs)). by apply proof_exact.
Qed.

(** C19: A sync message that is written is read back, whatever bytes follow it in the
    buffer; a message cut short anywhere is refused; and so is the entry in a
    block. *)
Theorem wire_roundtrip m e rest :
  message_ok m -> entry_ok e ->
  decode (encode m ++ rest) = Ok m /\ Codec.decode (Codec.encode e ++ rest) = Ok e
  /\ (forall k, (k < length (encode m))%nat -> is_ok (decode (take k (encode m))) = false)
  /\ (forall k, (k < length (Codec.encode e))%nat ->
        is_ok (Codec.decode (Codec := EntryCodec) (take k (Codec.encode e))) = false).
Proof.
  intros [Hm Cm]%message_exact [He Ce]%entry_exact. unfold decode. cbn [Codec.decode EntryCodec].
  rewrite Hm, He. split_and!; [done|done|intros k [e' ->]%Cm; done|intros k [e' ->]%Ce; done].
Qed.
End Theorems.
End Wire.
