(* ===== verification/Room.v ===== *)
(** * [roomnet]: the room

    The model of [src/crates/roomnet/src/room.rs], [config.rs], [projection.rs] and
    the interface of [store.rs]: one local core, a replica per remote writer, the
    linearizer over their entries, and the finalized and live folds.  A [&mut self]
    method is an [act] on the room; the stores, their factory, the projection,
    BLAKE3 and ed25519 are the parameters of the section. *)
From S2P Require Import Prelude Codec Merkle Store Identity Linearizer Hypercore Replica Wire.
From Stdlib Require Import Strings.Byte.

(** [trait StoreFactory]: a byte store per writer. *)
Class StoreFactory (F S OE : Type) := {
  factory_open : F -> Linearizer.WriterKey -> F * result OE S;
  known_writers : F -> run (list Linearizer.WriterKey);
}.

(** [trait Projection]: the fold of the ordered operations into a state. *)
Class Projection (P State PE : Type) := {
  apply : P -> Linearizer.NodeId -> bytes -> P * result PE unit;
  snapshot : P -> State;
  reset_to : P -> State -> P;
}.

(** What its documentation asks of an implementation: the state after an operation
    is a function of the state before and the operation, a refused operation
    leaves the state as it was, and a reset restores the checkpoint. *)
Class ProjectionLaws (P State PE : Type) `{!Projection P State PE} := {
  apply_state : forall p q n x, snapshot p = snapshot q -> snapshot (apply p n x).1 = snapshot (apply q n x).1;
  apply_refused : forall p n x e, (apply p n x).2 = Err e -> snapshot (apply p n x).1 = snapshot p;
  reset_snapshot : forall p s, snapshot (reset_to p s) = s;
}.

Module Room.
Import Linearizer (WriterKey, NodeId, mkNode, Linearizer).
Import Hypercore (Hypercore, SignedHead, h_fork, h_length).
Import Replica (Replica).
Import Wire (Entry, mkEntry, SyncMessage, Head, Have, Want, Block).

Definition PeerId : Type := bytes.

(** ** Configuration *)

(** A duration is pure data to the room: a number of nanoseconds. *)
Inductive Origin := Original | Replicated (delete_on_stale_after : option N).

#[export] Instance SignedHead_eq_dec `{Ed25519} : EqDecision SignedHead.
Proof. unfold EqDecision, Decision. decide equality; apply (_ : EqDecision _). Defined.

Section Room.
Context `{Hasher} `{Ed25519} {S E : Type} `{!Store.Store S E} {F OE : Type} `{!StoreFactory F S OE}
  {P State PE : Type} `{!Projection P State PE}.

Record RoomConfig := mkConfig {
  identity : Identity.SecretKey; cfg_indexers : list WriterKey; cfg_origin : Origin }.
Definition RoomConfig_original (id : Identity.SecretKey) (ix : list WriterKey) : RoomConfig :=
  mkConfig id ix Original.
Definition RoomConfig_replicated (id : Identity.SecretKey) (ix : list WriterKey) (after : option N) : RoomConfig :=
  mkConfig id ix (Replicated after).

(** ** Data *)

Record FeedSnapshot := mkFeed { fs_writer : WriterKey; fs_head : SignedHead; fs_blocks : list bytes }.

Inductive Fanout := Gossip | Peer (p : PeerId) | Clients.
Record Outbound := mkOut { msg : SyncMessage; to : Fanout }.

Record Finalized := mkFinalized { fin_node : NodeId; fin_payload : bytes; fin_version : N }.

(** [StoreOpen] keeps the error the source renders as text. *)
Inductive Error :=
| Hypercore_ (e : Hypercore.Error E)
| Codec_ (e : Codec.Error)
| BadWriterKey
| RecoveringOwnFeed
| OwnFeedPending
| StoreOpen (e : OE)
| Reconfigure (e : Linearizer.ReconfigureError).

Record Reconfigured := mkReconfigured { kept : nat; dropped : nat }.

Record Room := mkRoom {
  local_key : WriterKey;
  origin : Origin;
  local : Hypercore S;
  own_recovery : option (SignedHead * gmap N bytes);
  remotes : gmap WriterKey (Replica S);
  factory : F;
  lin : Linearizer;
  payloads : gmap NodeId bytes;
  pending : list (NodeId * Entry);
  finalized_proj : P;
  live_proj : P;
  finalized_len : nat;
  finalized_since_poll : list Finalized;
  genesis_proj : P;
  last_activity : N }.

Definition set_local (r : Room) (c : Hypercore S) : Room :=
  mkRoom (local_key r) (origin r) c (own_recovery r) (remotes r) (factory r) (lin r) (payloads r) (pending r)
    (finalized_proj r) (live_proj r) (finalized_len r) (finalized_since_poll r) (genesis_proj r) (last_activity r).
Definition set_recovery (r : Room) (o : option (SignedHead * gmap N bytes)) : Room :=
  mkRoom (local_key r) (origin r) (local r) o (remotes r) (factory r) (lin r) (payloads r) (pending r)
    (finalized_proj r) (live_proj r) (finalized_len r) (finalized_since_poll r) (genesis_proj r) (last_activity r).
Definition set_remotes (r : Room) (m : gmap WriterKey (Replica S)) : Room :=
  mkRoom (local_key r) (origin r) (local r) (own_recovery r) m (factory r) (lin r) (payloads r) (pending r)
    (finalized_proj r) (live_proj r) (finalized_len r) (finalized_since_poll r) (genesis_proj r) (last_activity r).
Definition set_factory (r : Room) (f : F) : Room :=
  mkRoom (local_key r) (origin r) (local r) (own_recovery r) (remotes r) f (lin r) (payloads r) (pending r)
    (finalized_proj r) (live_proj r) (finalized_len r) (finalized_since_poll r) (genesis_proj r) (last_activity r).
(** The DAG, the payloads and the buffer of blocks that wait for their causes. *)
Definition set_dag (r : Room) (l : Linearizer) (ps : gmap NodeId bytes) (pe : list (NodeId * Entry)) : Room :=
  mkRoom (local_key r) (origin r) (local r) (own_recovery r) (remotes r) (factory r) l ps pe
    (finalized_proj r) (live_proj r) (finalized_len r) (finalized_since_poll r) (genesis_proj r) (last_activity r).
Definition set_finalized (r : Room) (p : P) (n : nat) (q : list Finalized) : Room :=
  mkRoom (local_key r) (origin r) (local r) (own_recovery r) (remotes r) (factory r) (lin r) (payloads r) (pending r)
    p (live_proj r) n q (genesis_proj r) (last_activity r).
Definition set_live (r : Room) (p : P) : Room :=
  mkRoom (local_key r) (origin r) (local r) (own_recovery r) (remotes r) (factory r) (lin r) (payloads r) (pending r)
    (finalized_proj r) p (finalized_len r) (finalized_since_poll r) (genesis_proj r) (last_activity r).
Definition set_activity (r : Room) (n : N) : Room :=
  mkRoom (local_key r) (origin r) (local r) (own_recovery r) (remotes r) (factory r) (lin r) (payloads r) (pending r)
    (finalized_proj r) (live_proj r) (finalized_len r) (finalized_since_poll r) (genesis_proj r) n.

Abbreviation method := (act Room Error).

(** A call on the local core and one on a replica, with [?] and [From]. *)
Definition on_local {A} (m : act (Hypercore S) (Hypercore.Error E) A) : method A := λ r,
  '(c, res) ← m (local r); Done (set_local r c, map_err Hypercore_ res).
Definition on_replica {A} (w : WriterKey) (m : act (Replica S) (Hypercore.Error E) A) : method A := λ r,
  rep ← expect (remotes r !! w);
  '(rep, res) ← m rep;
  Done (set_remotes r (<[w := rep]> (remotes r)), map_err Hypercore_ res).
Definition ask_local {A} (f : Hypercore S -> result (Hypercore.Error E) A) : method A :=
  asks (λ r, map_err Hypercore_ (f (local r))).
(** [self.factory.open(writer).map_err(store_open)?]. *)
Definition open_store (w : WriterKey) : method S := λ r,
  let '(f, res) := factory_open (factory r) w in Done (set_factory r f, map_err StoreOpen res).

(** ** Reads *)

Definition indexers (r : Room) : list WriterKey :=
  match Linearizer.indexers (lin r) with Some ix => bset_list ix | None => [] end.
Definition writer_lengths (r : Room) : gmap WriterKey N :=
  foldl (λ m '(w, rep), <[w := Replica.Replica_len rep]> m)
    {[ local_key r := Hypercore.len (local r) ]} (bmap_list (remotes r)).
Definition checkpoint_count (r : Room) : nat :=
  length (filter (λ e : NodeId * bytes, e.2 = []) (bmap_list (payloads r))).
Definition order (r : Room) : run (list NodeId) := Linearizer.order (lin r).
Definition snapshot_finalized (r : Room) : State := snapshot (finalized_proj r).
Definition snapshot_live (r : Room) : State := snapshot (live_proj r).
Definition payload (r : Room) (node : NodeId) : option bytes := payloads r !! node.

Definition writer_len (r : Room) (writer : WriterKey) : N :=
  if bool_decide (writer = local_key r) then Hypercore.len (local r)
  else default 0 (Replica.Replica_len <$> remotes r !! writer).

(** ** Internals *)

Definition touch : method unit := modify (λ r, set_activity r (wrap64 (last_activity r + 1))).

Definition try_add_node (node : NodeId) (entry : Entry) : method unit := modify (λ r,
  match Linearizer.add (lin r) node (Wire.heads entry) with
  | (l, Ok _) => set_dag r l (<[node := Wire.payload entry]> (payloads r)) (pending r)
  | (l, Err (Linearizer.Duplicate _)) => set_dag r l (payloads r) (pending r)
  | (l, Err (Linearizer.MissingHead _)) | (l, Err (Linearizer.Gap _ _ _)) =>
      set_dag r l (payloads r) (pending r ++ [(node, entry)])
  end).

(** One pass of [drain_pending] over the taken buffer. *)
Fixpoint drain_pass (taken : list (NodeId * Entry)) (l : Linearizer) (ps : gmap NodeId bytes)
    (still : list (NodeId * Entry)) (progressed : bool)
    : Linearizer * gmap NodeId bytes * list (NodeId * Entry) * bool :=
  match taken with
  | [] => (l, ps, still, progressed)
  | (node, entry) :: taken' =>
      match Linearizer.add l node (Wire.heads entry) with
      | (l', Ok _) => drain_pass taken' l' (<[node := Wire.payload entry]> ps) still true
      | (l', Err (Linearizer.Duplicate _)) => drain_pass taken' l' ps still true
      | (l', Err _) => drain_pass taken' l' ps (still ++ [(node, entry)]) progressed
      end
  end.
Fixpoint drain_loop (fuel : nat) (l : Linearizer) (ps : gmap NodeId bytes) (pe : list (NodeId * Entry))
    : run (Linearizer * gmap NodeId bytes * list (NodeId * Entry)) :=
  match fuel with
  | O => OutOfFuel
  | Datatypes.S fuel' =>
      let '(l, ps, still, progressed) := drain_pass pe l ps [] false in
      if progressed : bool then drain_loop fuel' l ps still else Done (l, ps, still)
  end.
(** A pass that progresses takes an entry out of the buffer. *)
Definition drain_pending : method unit := λ r,
  '(l, ps, pe) ← drain_loop (Datatypes.S (length (pending r))) (lin r) (payloads r) (pending r);
  Done (set_dag r l ps pe, Ok tt).

(** [payloads.get(&node).cloned().unwrap_or_default()]. *)
Definition payload_of (ps : gmap NodeId bytes) (node : NodeId) : bytes := default [] (ps !! node).
(** [if !payload.is_empty() { let _ = proj.apply(node, &payload); }]. *)
Definition fold_node (ps : gmap NodeId bytes) (p : P) (node : NodeId) : P :=
  let x := payload_of ps node in
  if bool_decide (x = []) then p else (apply p node x).1.
Definition fold_nodes (ps : gmap NodeId bytes) (p : P) (nodes : list NodeId) : P := foldl (fold_node ps) p nodes.

(** [&v[n..]] and [&v[..n]]. *)
Definition slice_from {A} (l : list A) (n : nat) : run (list A) :=
  if (n <=? length l)%nat then Done (drop n l) else Panic.
Definition slice_to {A} (l : list A) (n : nat) : run (list A) :=
  if (n <=? length l)%nat then Done (take n l) else Panic.

(** The mutations finalized at positions [i..]. *)
Fixpoint deltas (ps : gmap NodeId bytes) (i : nat) (nodes : list NodeId) : list Finalized :=
  match nodes with
  | [] => []
  | node :: nodes' => mkFinalized node (payload_of ps node) (wrap64 (N.of_nat i + 1)) :: deltas ps (Datatypes.S i) nodes'
  end.

Definition advance : method unit :=
  fin ← calls (λ r, Linearizer.finalized (lin r));
  _ ← modify (λ r,
        if (finalized_len r <? length fin)%nat then
          let fresh := drop (finalized_len r) fin in
          set_finalized r (fold_nodes (payloads r) (finalized_proj r) fresh) (length fin)
            (finalized_since_poll r ++ deltas (payloads r) (finalized_len r) fresh)
        else r);
  _ ← modify (λ r, set_live r (reset_to (live_proj r) (snapshot (finalized_proj r))));
  o ← calls (λ r, Linearizer.order (lin r));
  tail ← calls (λ r, slice_from o (finalized_len r));
  modify (λ r, set_live r (fold_nodes (payloads r) (live_proj r) tail)).

(** ** Reopening *)

(** Entries of a feed into the DAG: [if let Some(entry) = core.get(i)? { .. }]. *)
Definition replay_local (i : N) : method unit :=
  v ← ask_local (λ c, Hypercore.get c i);
  match v with
  | Some entry => r ← reads local_key; try_add_node (mkNode r i) entry
  | None => mret tt
  end.
Definition replay_remote (w : WriterKey) (i : N) : method unit :=
  rep ← calls (λ r, expect (remotes r !! w));
  v ← tries (map_err Hypercore_ (Replica.Replica_get rep i));
  match v with
  | Some entry => try_add_node (mkNode w i) entry
  | None => mret tt
  end.
Definition replay : method unit :=
  local_len ← reads (λ r, Hypercore.len (local r));
  _ ← for_each (rangeN 0 local_len) replay_local;
  writers ← reads (λ r, (bmap_list (remotes r)).*1);
  _ ← for_each writers (λ w,
        len ← reads (λ r, default 0 (Replica.Replica_len <$> remotes r !! w));
        for_each (rangeN 0 len) (replay_remote w));
  _ ← drain_pending;
  _ ← advance;
  modify (λ r, set_finalized r (finalized_proj r) (finalized_len r) []).

(** A persisted remote writer is taken up again. *)
Definition reopen_writer (w : WriterKey) : method unit :=
  lk ← reads local_key;
  if bool_decide (w = lk) then mret tt
  else
    public ← tries (ok_or BadWriterKey (Identity.from_bytes w));
    store ← open_store w;
    res ← runs (Replica.Replica_open public store);
    match res with
    | Ok rep => modify (λ r, set_remotes r (<[w := rep]> (remotes r)))
    | Err Hypercore.NotPersisted => mret tt
    | Err e => fail (Hypercore_ e)
    end.

(** The local core: reopened, or fresh when nothing was persisted. *)
Definition open_local (id : Identity.SecretKey) (f : F) : run (F * result Error (Hypercore S)) :=
  let key := Identity.to_bytes (Identity.public id) in
  match factory_open f key with
  | (f, Err e) => Done (f, Err (StoreOpen e))
  | (f, Ok store) =>
      res ← Hypercore.open_ id store;
      match res with
      | Ok core => Done (f, Ok core)
      | Err Hypercore.NotPersisted =>
          match factory_open f key with
          | (f, Err e) => Done (f, Err (StoreOpen e))
          | (f, Ok store) => Done (f, Ok (Hypercore.new id store))
          end
      | Err e => Done (f, Err (Hypercore_ e))
      end
  end.

(** The room around an opened core, before its replicas. *)
Definition fresh_room (cfg : RoomConfig) (core : Hypercore S) (f : F) (p : P) : Room :=
  mkRoom (Identity.to_bytes (Identity.public (identity cfg))) (cfg_origin cfg) core None ∅ f
    (match cfg_indexers cfg with [] => Linearizer.new | ix => Linearizer.with_indexers ix end)
    ∅ [] p p 0 [] p 0.

Definition open (cfg : RoomConfig) (f : F) (p : P) : run (result Error Room) :=
  '(f, res) ← open_local (identity cfg) f;
  match res with
  | Err e => Done (Err e)
  | Ok core =>
      let body : method unit :=
        ws ← calls (λ r, known_writers (factory r));
        _ ← for_each ws reopen_writer;
        replay in
      '(r, res) ← body (fresh_room cfg core f p);
      Done (match res with Ok _ => Ok r | Err e => Err e end)
  end.

(** ** Local operations *)

Definition block_out (writer : WriterKey) (head : SignedHead) (i : N) (bs : bytes) (proof : Merkle.Proof_)
    (to : Fanout) : Outbound := mkOut (Block writer head i bs proof) to.

Definition local_append (op : bytes) : method (list Outbound) :=
  rec ← reads own_recovery;
  match rec with
  | Some _ => fail RecoveringOwnFeed
  | None =>
      seq ← reads (λ r, Hypercore.len (local r));
      key ← reads local_key;
      waiting ← reads (λ r, (0 <? seq) && negb (Linearizer.contains (lin r) (mkNode key (seq - 1))));
      if waiting : bool then fail OwnFeedPending
      else
        heads ← reads (λ r, bset_list (Linearizer.heads (lin r)));
        _ ← on_local (Hypercore.append (mkEntry heads op));
        _ ← on_local Hypercore.persist;
        let node := mkNode key seq in
        _ ← modify (λ r, set_dag r (Linearizer.add (lin r) node heads).1 (<[node := op]> (payloads r)) (pending r));
        _ ← touch;
        _ ← advance;
        head ← calls (λ r, expect (Hypercore.head (local r)));
        v ← ask_local (λ c, Hypercore.block c seq);
        bs ← runs (expect v);
        q ← calls (λ r, Hypercore.proof (local r) seq);
        proof ← runs (expect q);
        mret [mkOut (Head key head) Gossip; block_out key head seq bs proof Clients]
  end.

(** [before.iter().zip(&after).take_while(|(a, b)| a == b).count()]. *)
Fixpoint common (a b : list NodeId) : nat :=
  match a, b with
  | x :: a', y :: b' => if bool_decide (x = y) then Datatypes.S (common a' b') else O
  | _, _ => O
  end.

Definition reconfigure (through : nat) (ix : list WriterKey) : method Reconfigured :=
  before ← calls (λ r, Linearizer.finalized (lin r));
  _ ← (λ r, '(l, res) ← Linearizer.reconfigure (lin r) through ix;
            Done (set_dag r l (payloads r) (pending r), map_err Reconfigure res));
  after ← calls (λ r, Linearizer.finalized (lin r));
  let kept := common before after in
  n ← reads finalized_len;
  let dropped := (n - kept)%nat in
  _ ← (if (0 <? dropped)%nat then
         stands ← runs (slice_to after kept);
         modify (λ r, set_finalized r (fold_nodes (payloads r) (genesis_proj r) stands) kept (finalized_since_poll r))
       else mret tt);
  _ ← advance;
  mret (mkReconfigured kept dropped).

Definition poll_finalized : method (list Finalized) := λ r,
  Done (set_finalized r (finalized_proj r) (finalized_len r) [], Ok (finalized_since_poll r)).

Definition needs_checkpoint (r : Room) : run bool :=
  let indexing := match Linearizer.indexers (lin r) with
                  | Some ix => bool_decide (local_key r ∈ ix)
                  | None => match origin r with Original => true | Replicated _ => false end
                  end in
  let hs := Linearizer.heads (lin r) in
  let len := Hypercore.len (local r) in
  let referenced := negb (len =? 0)
    && (size hs =? 1)%nat && bool_decide (mkNode (local_key r) (len - 1) ∈ hs) in
  if negb (bool_decide (own_recovery r = None)) || negb indexing || referenced then Done false
  else
    o ← order r;
    Done (existsb (λ n, negb (bool_decide (Linearizer.key n = local_key r))
                        && match payloads r !! n with Some x => negb (bool_decide (x = [])) | None => false end)
            (drop (finalized_len r) o)).

Definition checkpoint : method (list Outbound) :=
  needed ← calls needs_checkpoint;
  if needed : bool then local_append [] else mret [].

(** ** The own feed, recovered from peers *)

Definition corrupt {A} : method A := fail (Hypercore_ Hypercore.Corrupt).

Definition begin_own_recovery (head : SignedHead) : method unit :=
  c ← reads local;
  if negb (Hypercore.verify_signed_head (Hypercore.public c) head) || negb (h_fork head =? Hypercore.fork c) then corrupt
  else
    rec ← reads own_recovery;
    let start := modify (λ r, set_recovery r (Some (head, ∅))) in
    match rec with
    | Some (target, _) =>
        if h_length head <? h_length target then mret tt
        else if h_length head =? h_length target then
          if bool_decide (head = target) then mret tt else corrupt
        else start
    | None => start
    end.

(** The blocks of the recovered suffix enter the DAG. *)
Definition adopt_own (i : N) : method unit :=
  v ← ask_local (λ c, Hypercore.get c i);
  entry ← tries (ok_or (Hypercore_ Hypercore.Corrupt) v);
  key ← reads local_key;
  try_add_node (mkNode key i) entry.

Definition recover_own_block (head : SignedHead) (index : N) (bs : bytes) (proof : Merkle.Proof_) : method unit :=
  c ← reads local;
  if h_length head <=? Hypercore.len c then mret tt
  else if (h_length head <=? index) || negb (Hypercore.verify_block (Hypercore.public c) head index bs proof) then corrupt
  else
    _ ← begin_own_recovery head;
    '(target, blocks) ← calls (λ r, expect (own_recovery r));
    if negb (bool_decide (head = target)) || (index <? Hypercore.len c) then mret tt
    else
      let blocks := <[index := bs]> blocks in
      _ ← modify (λ r, set_recovery r (Some (target, blocks)));
      let start := Hypercore.len c in
      if existsb (λ i, negb (bool_decide (is_Some (blocks !! i)))) (rangeN start (h_length target)) then mret tt
      else
        suffix ← runs (mapM (λ i, expect (blocks !! i)) (rangeN start (h_length target)));
        _ ← on_local (Hypercore.recover_signed_suffix target suffix);
        _ ← modify (λ r, set_recovery r None);
        stop ← reads (λ r, Hypercore.len (local r));
        _ ← for_each (rangeN start stop) adopt_own;
        _ ← drain_pending;
        _ ← touch;
        advance.

(** ** Inbound messages *)

(** The first lines of [ingest_remote_block]: an unknown writer gets a replica. *)
Definition ensure_replica (writer : WriterKey) : method unit :=
  known ← reads (λ r, bool_decide (is_Some (remotes r !! writer)));
  if known : bool then mret tt
  else
    public ← tries (ok_or BadWriterKey (Identity.from_bytes writer));
    store ← open_store writer;
    modify (λ r, set_remotes r (<[writer := Replica.Replica_new public store]> (remotes r))).

Definition ingest_remote_block (writer : WriterKey) (head : SignedHead) (index : N) (bs : bytes)
    (proof : Merkle.Proof_) : method bool :=
  _ ← ensure_replica writer;
  accepted ← on_replica writer (Replica.add_block head index bs proof);
  if negb accepted then mret false
  else
    _ ← on_replica writer Replica.Replica_persist;
    entry ← tries (map_err Codec_ (Codec.decode bs));
    _ ← try_add_node (mkNode writer index) entry;
    _ ← touch;
    mret true.

(** The loops of [Want]: the blocks that are there, with their proofs. *)
Fixpoint serve_local (from : PeerId) (writer : WriterKey) (head : SignedHead) (l : list N) (out : list Outbound)
    : method (list Outbound) :=
  match l with
  | [] => mret out
  | i :: l' =>
      v ← ask_local (λ c, Hypercore.block c i);
      q ← calls (λ r, Hypercore.proof (local r) i);
      match v, q with
      | Some bs, Some proof => serve_local from writer head l' (out ++ [block_out writer head i bs proof (Peer from)])
      | _, _ => serve_local from writer head l' out
      end
  end.
Fixpoint serve_replica (rep : Replica S) (from : PeerId) (writer : WriterKey) (head : SignedHead) (l : list N)
    (out : list Outbound) : method (list Outbound) :=
  match l with
  | [] => mret out
  | i :: l' =>
      v ← tries (map_err Hypercore_ (Replica.Replica_block rep i));
      q ← runs (Replica.Replica_proof rep i);
      match v, q with
      | Some bs, Some proof => serve_replica rep from writer head l' (out ++ [block_out writer head i bs proof (Peer from)])
      | _, _ => serve_replica rep from writer head l' out
      end
  end.

(** The reply to an advert of more than is held. *)
Definition want_more (r : Room) (from : PeerId) (writer : WriterKey) (length : N) : list Outbound :=
  if writer_len r writer <? length then [mkOut (Want writer (writer_len r writer) length) (Peer from)] else [].

Definition on_head (from : PeerId) (writer : WriterKey) (head : SignedHead) : method (list Outbound) :=
  key ← reads local_key;
  c ← reads local;
  _ ← (if bool_decide (writer = key) then
         if Hypercore.len c <? h_length head then begin_own_recovery head
         else if (h_length head =? Hypercore.len c)
                 && match Hypercore.head c with Some h => negb (bool_decide (h = head)) | None => false end
                 && Hypercore.verify_signed_head (Hypercore.public c) head then corrupt
         else mret tt
       else mret tt);
  reads (λ r, want_more r from writer (h_length head)).

Definition on_want (from : PeerId) (writer : WriterKey) (start stop : N) : method (list Outbound) :=
  key ← reads local_key;
  if bool_decide (writer = key) then
    c ← reads local;
    match Hypercore.head c with
    | Some head => serve_local from writer head (rangeN start (N.min stop (Hypercore.len c))) []
    | None => mret []
    end
  else
    rep ← reads (λ r, remotes r !! writer);
    match rep with
    | Some rep =>
        match Replica.verified_head rep with
        | Some head => serve_replica rep from writer head (rangeN start (N.min stop (h_length head))) []
        | None => mret []
        end
    | None => mret []
    end.

Definition on_block (writer : WriterKey) (head : SignedHead) (index : N) (bs : bytes) (proof : Merkle.Proof_)
    : method (list Outbound) :=
  key ← reads local_key;
  if bool_decide (writer = key) then
    _ ← recover_own_block head index bs proof;
    mret []
  else
    accepted ← ingest_remote_block writer head index bs proof;
    if accepted : bool then
      _ ← drain_pending;
      _ ← advance;
      mret [block_out writer head index bs proof Clients]
    else mret [].

Definition on_inbound (from : PeerId) (m : SyncMessage) : method (list Outbound) :=
  match m with
  | Head writer head => on_head from writer head
  | Have writer length => reads (λ r, want_more r from writer length)
  | Want writer start stop => on_want from writer start stop
  | Block writer head index bs proof => on_block writer head index bs proof
  end.

(** ** Adverts, queries and archives *)

Definition announce (r : Room) : list Outbound :=
  match Hypercore.head (local r) with
  | Some head => mkOut (Head (local_key r) head) Gossip
  | None => mkOut (Have (local_key r) 0) Gossip
  end
  :: omap (λ '(writer, rep),
       match Replica.verified_head rep with
       | Some head => if 0 <? h_length head then Some (mkOut (Have writer (h_length head)) Gossip) else None
       | None => None
       end) (bmap_list (remotes r)).

Fixpoint logs_loop (r : Room) (writer : WriterKey) (l : list N) (v : list Entry) : result Error (list Entry) :=
  match l with
  | [] => Ok v
  | i :: l' =>
      e ← (if bool_decide (writer = local_key r) then map_err Hypercore_ (Hypercore.get (local r) i)
           else match remotes r !! writer with
                | Some rep => map_err Hypercore_ (Replica.Replica_get rep i)
                | None => Ok None
                end);
      logs_loop r writer l' (match e with Some e => v ++ [e] | None => v end)
  end.
Definition logs (r : Room) (writer : WriterKey) (start stop : N) : result Error (list Entry) :=
  logs_loop r writer (rangeN start (N.min stop (writer_len r writer))) [].

Fixpoint read_feed (get : N -> result (Hypercore.Error E) (option bytes)) (l : list N) (blocks : list bytes)
    : result Error (list bytes) :=
  match l with
  | [] => Ok blocks
  | i :: l' => v ← map_err Hypercore_ (get i); read_feed get l' (match v with Some b => blocks ++ [b] | None => blocks end)
  end.
Fixpoint remote_feeds (l : list (WriterKey * Replica S)) (out : list FeedSnapshot) : result Error (list FeedSnapshot) :=
  match l with
  | [] => Ok out
  | (writer, rep) :: l' =>
      match Replica.verified_head rep with
      | Some head =>
          blocks ← read_feed (Replica.Replica_block rep) (rangeN 0 (Replica.Replica_len rep)) [];
          remote_feeds l' (out ++ [mkFeed writer head blocks])
      | None => remote_feeds l' out
      end
  end.
Definition snapshot_feeds (r : Room) : result Error (list FeedSnapshot) :=
  out ← match Hypercore.head (local r) with
        | Some head =>
            blocks ← read_feed (Hypercore.block (local r)) (rangeN 0 (Hypercore.len (local r))) [];
            Ok [mkFeed (local_key r) head blocks]
        | None => Ok []
        end;
  remote_feeds (bmap_list (remotes r)) out.
End Room.
#[global] Arguments Room {_} S F P.
#[global] Arguments Error E OE : clear implicits.
End Room.
