(* ===== verification/Testkit.v ===== *)
(** * [roomnet]: the example projections

    The model of [src/crates/roomnet/src/testkit.rs]: a map folded from put and delete
    operations and a counter, both instances of [Projection] that keep its laws, so
    that the theorems about rooms hold of them. *)
From S2P Require Import Prelude Codec Merkle Store Identity Linearizer Hypercore Replica Wire Room.

Module Testkit.
Import Linearizer (NodeId).

Definition OP_PUT : N := 0.
Definition OP_DEL : N := 1.

Definition put (key value : bytes) : bytes :=
  Codec.varint_write [byte_of OP_PUT] (lenN key) ++ key ++ value.
Definition del (key : bytes) : bytes := byte_of OP_DEL :: key.

(** ** The map *)

Record KvProjection := mkKv { state : gmap bytes bytes }.
Definition KvProjection_new : KvProjection := mkKv ∅.
Inductive KvError := mkKvError.

Definition Kv_apply (p : KvProjection) (_ : NodeId) (payload : bytes) : KvProjection * result KvError unit :=
  match payload with
  | [] => (p, Err mkKvError)
  | tag :: rest =>
      if bval tag =? OP_PUT then
        match Codec.varint_read rest with
        | Err _ => (p, Err mkKvError)
        | Ok (klen, rest) =>
            if lenN rest <? klen then (p, Err mkKvError)
            else (mkKv (<[take (N.to_nat klen) rest := drop (N.to_nat klen) rest]> (state p)), Ok tt)
        end
      else if bval tag =? OP_DEL then (mkKv (delete rest (state p)), Ok tt)
      else (p, Err mkKvError)
  end.
#[global] Instance KvProjection_projection : Projection KvProjection (gmap bytes bytes) KvError := {|
  apply := Kv_apply;
  snapshot := state;
  reset_to _ checkpoint := mkKv checkpoint |}.

#[global] Instance KvProjection_laws : ProjectionLaws KvProjection (gmap bytes bytes) KvError.
Proof.
  split; cbn; [by intros [m] [m'] n x [= ->]| |done]. intros p n x e. unfold Kv_apply. destruct x as [|tag rest]; [done|].
  destruct (bval tag =? OP_PUT).
  - destruct (Codec.varint_read rest) as [[klen rest']|]; [|done]. by destruct (lenN rest' <? klen).
  - by destruct (bval tag =? OP_DEL).
Qed.

(** ** The counter; a release build wraps. *)

Record CounterProjection := mkCounter { n : N }.
#[global] Instance CounterProjection_projection : Projection CounterProjection N Empty_set := {|
  apply p _ _ := (mkCounter (wrap64 (n p + 1)), Ok tt);
  snapshot := n;
  reset_to _ checkpoint := mkCounter checkpoint |}.
#[global] Instance CounterProjection_laws : ProjectionLaws CounterProjection N Empty_set.
Proof. split; cbn; [by intros p q _ _ ->|done|done]. Qed.

(** ** What the map holds *)

Inductive kv_op := Put (key value : bytes) | Del (key : bytes).
Definition op_bytes (o : kv_op) : bytes := match o with Put k v => put k v | Del k => del k end.
Definition op_fits (o : kv_op) : Prop := match o with Put k _ => u64_ok (lenN k) | Del _ => True end.
Definition op_on (m : gmap bytes bytes) (o : kv_op) : gmap bytes bytes :=
  match o with Put k v => <[k := v]> m | Del k => delete k m end.

(** An operation that was encoded is applied, and does to the map what it says. *)
Lemma kv_applies p (node : NodeId) (o : kv_op) : op_fits o -> Kv_apply p node (op_bytes o) = (mkKv (op_on (state p) o), Ok tt).
Proof.
  intros Ho. destruct o as [k v|k]; [|done]. cbn [op_bytes]. unfold put, Codec.varint_write, Kv_apply. cbn [app].
  rewrite Codec.varint_read_write by exact Ho.
  change (bval (byte_of OP_PUT) =? OP_PUT) with true. cbn iota.
  replace (lenN (k ++ v) <? lenN k) with false by (symmetry; apply N.ltb_ge; rewrite lenN_app; lia).
  unfold lenN. by rewrite Nat2N.id, take_app_length, drop_app_length.
Qed.

(** A fold of encoded operations is the fold of the operations over a map: the last
    write to a key wins. *)
Theorem kv_folds (ops : list (NodeId * kv_op)) p :
  Forall (λ e, op_fits e.2) ops ->
  state (foldl (λ p e, (apply p e.1 (op_bytes e.2)).1) p ops) = foldl op_on (state p) ops.*2.
Proof.
  revert p. induction ops as [|[node o] ops IH]; intros p Hf; [done|]. apply Forall_cons in Hf as [Ho Hf].
  cbn [foldl fmap list_fmap fst snd]. rewrite IH by exact Hf. cbn [apply KvProjection_projection].
  by rewrite (kv_applies p node o Ho).
Qed.
End Testkit.
