(* ===== verification/Server.v ===== *)
(** * [roomnet]: stores, servers, transports and the driver

    The model of [src/crates/roomnet/src/store.rs], [server.rs], [transport.rs] and
    [driver.rs]: the factories that give a writer its store, the registry of rooms
    of a node, the interface to a network and the synchronous loop around them. *)
From S2P Require Import Prelude Codec Merkle Store LogStore Identity Linearizer Hypercore Replica Wire Room.
From Stdlib Require Import Strings.Byte.

Module Server.
Import Linearizer (WriterKey).
Import Room.

(** ** Store factories *)

Record MemStoreFactory := mkMemFactory {}.
#[global] Instance MemStoreFactory_factory : StoreFactory MemStoreFactory Store.MemoryStore Store.Infallible := {|
  factory_open f _ := (f, Ok Store.Memory_new);
  known_writers _ := Done [];
|}.

(** [format!("{b:02x}")] and [u8::from_str_radix(_, 16)] on ASCII bytes. *)
Definition hex_digit (n : N) : byte := byte_of (if n <? 10 then 48 + n else 87 + n).
Definition hex (key : WriterKey) : bytes :=
  concat ((λ b, [hex_digit (bval b / 16); hex_digit (bval b mod 16)]) <$> key).
Definition digit_value (b : byte) : option N :=
  let v := bval b in
  if (48 <=? v) && (v <=? 57) then Some (v - 48)
  else if (97 <=? v) && (v <=? 102) then Some (v - 87)
  else if (65 <=? v) && (v <=? 70) then Some (v - 55)
  else None.
(** Two characters: a digit pair, or a plus sign and a digit. *)
Definition from_str_radix (a b : byte) : option N :=
  if bool_decide (bval a = 43) then digit_value b
  else x ← digit_value a; y ← digit_value b; Some (16 * x + y).
(** A slice of a string must end where a character does: not before a UTF-8
    continuation byte. *)
Definition inside_char (s : bytes) : bool :=
  match s with b :: _ => (128 <=? bval b) && (bval b <? 192) | [] => false end.
Fixpoint unhex_pairs (s : bytes) : run (option bytes) :=
  match s with
  | a :: b :: s' =>
      if inside_char s' then Panic
      else
        match from_str_radix a b with
        | Some v => rest ← unhex_pairs s'; Done (match rest with Some l => Some (byte_of v :: l) | None => None end)
        | None => Done None
        end
  | _ => Done (Some [])
  end.
Definition unhex (s : bytes) : run (option WriterKey) := if negb (lenN s =? 64) then Done None else unhex_pairs s.

(** A directory of one log file per writer: what is there, and [StdFile::open],
    which opens or creates the file of a name. *)
Section Disk.
Context {F E : Type} `{!LogStore.SyncFile F E}.

Record DiskStoreFactory := mkDisk { names : list bytes; open_file : bytes -> result E F }.
Definition known_in (names : list bytes) : run (list WriterKey) := omap id <$> mapM unhex names.
Definition Disk_open (d : DiskStoreFactory) (w : WriterKey) : DiskStoreFactory * result E (LogStore.LogStore F) :=
  (d, file ← open_file d (hex w); (LogStore.open file).2).
#[global] Instance DiskStoreFactory_factory : StoreFactory DiskStoreFactory (LogStore.LogStore F) E := {|
  factory_open := Disk_open;
  known_writers d := known_in (names d);
|}.

(** Any factory with a disk cache beside it. *)
Context {G S OE : Type} `{!StoreFactory G S OE}.
Record CachedFactory := mkCached { inner : G; cache_dir : DiskStoreFactory }.
Inductive CachedOpenError := InnerError (e : OE) | CacheError (e : E).
Definition Cached_open (c : CachedFactory) (w : WriterKey)
    : CachedFactory * result CachedOpenError (Store.TeeStore S (LogStore.LogStore F)) :=
  let '(g, primary) := factory_open (inner c) w in
  (mkCached g (cache_dir c),
   primary ← map_err InnerError primary;
   cache ← map_err CacheError (Disk_open (cache_dir c) w).2;
   Ok (Store.mkTee primary cache)).
Definition Cached_known (c : CachedFactory) : run (list WriterKey) :=
  a ← known_writers (inner c);
  b ← known_in (names (cache_dir c));
  Done (bset_list (list_to_set a ∪ list_to_set b : gset WriterKey)).
#[global] Instance CachedFactory_factory :
    StoreFactory CachedFactory (Store.TeeStore S (LogStore.LogStore F)) CachedOpenError := {|
  factory_open := Cached_open;
  known_writers := Cached_known;
|}.
End Disk.

Definition RoomId : Type := bytes.

(** ** Transports *)

Section Transports.
Context `{Ed25519}.

Record Inbound := mkInbound { in_room : RoomId; in_from : PeerId; in_msg : Wire.SyncMessage }.

Class Transport (T TE : Type) := {
  dispatch : T -> RoomId -> Outbound -> T * result TE unit;
  drain_inbound : T -> T * list Inbound;
}.

(** The same kind of transport many times over. *)
Section Composite.
Context {T TE : Type} `{!Transport T TE}.
Record CompositeTransport := mkComposite { transports : list T }.
Definition Composite_push (c : CompositeTransport) (t : T) : CompositeTransport := mkComposite (transports c ++ [t]).
Fixpoint dispatch_all (ts : list T) (room : RoomId) (out : Outbound) (first_err : option TE)
    : list T * option TE :=
  match ts with
  | [] => ([], first_err)
  | t :: ts' =>
      let '(t, res) := dispatch t room out in
      let first_err := match res, first_err with Err e, None => Some e | _, _ => first_err end in
      let '(ts', err) := dispatch_all ts' room out first_err in
      (t :: ts', err)
  end.
Fixpoint drain_all (ts : list T) : list T * list Inbound :=
  match ts with
  | [] => ([], [])
  | t :: ts' =>
      let '(t, a) := drain_inbound t in
      let '(ts', b) := drain_all ts' in
      (t :: ts', a ++ b)
  end.
#[global] Instance CompositeTransport_transport : Transport CompositeTransport TE := {|
  dispatch c room out :=
    let '(ts, err) := dispatch_all (transports c) room out None in
    (mkComposite ts, match err with Some e => Err e | None => Ok tt end);
  drain_inbound c := let '(ts, all) := drain_all (transports c) in (mkComposite ts, all);
|}.
End Composite.

(** Two kinds of transport at once. *)
Section Both.
Context {A B TE : Type} `{!Transport A TE} `{!Transport B TE}.
Record Both := mkBoth { both_a : A; both_b : B }.
#[global] Instance Both_transport : Transport Both TE := {|
  dispatch t room out :=
    let '(a, ra) := dispatch (both_a t) room out in
    let '(b, rb) := dispatch (both_b t) room out in
    (mkBoth a b, match ra with Ok _ => rb | Err e => Err e end);
  drain_inbound t :=
    let '(a, va) := drain_inbound (both_a t) in
    let '(b, vb) := drain_inbound (both_b t) in
    (mkBoth a b, va ++ vb);
|}.
End Both.
End Transports.

(** ** The rooms of a node *)

Section Server.
Context `{Hasher} `{Ed25519} {S E : Type} `{!Store.Store S E} {F OE : Type} `{!StoreFactory F S OE}
  {P State PE : Type} `{!Projection P State PE}.

Record ServerConfig := mkServerConfig {
  sc_seed : bytes; sc_indexers : list WriterKey; sc_stale_after : option N }.

Record RoomServer := mkServer {
  identity_seed : bytes;
  server_indexers : list WriterKey;
  replica_stale_after : option N;
  rooms : gmap RoomId (Room S F P);
  projection : P;
  own_projection : option (RoomId -> option P);
  new_store : RoomId -> F }.

Definition Server_open (cfg : ServerConfig) (p : P) (new_store : RoomId -> F) : RoomServer :=
  mkServer (sc_seed cfg) (sc_indexers cfg) (sc_stale_after cfg) ∅ p None new_store.
Definition with_own_projections (s : RoomServer) (own : RoomId -> option P) : RoomServer :=
  mkServer (identity_seed s) (server_indexers s) (replica_stale_after s) (rooms s) (projection s) (Some own)
    (new_store s).
Definition set_rooms (s : RoomServer) (m : gmap RoomId (Room S F P)) : RoomServer :=
  mkServer (identity_seed s) (server_indexers s) (replica_stale_after s) m (projection s) (own_projection s)
    (new_store s).

Definition initial_projection (s : RoomServer) (room : RoomId) : P :=
  default (projection s) (own ← own_projection s; own room).
Definition mint_identity (s : RoomServer) : Identity.SecretKey := Identity.SecretKey_from_seed (identity_seed s).

Abbreviation smethod := (act RoomServer (Error E OE)).

(** A room that is not held is opened; the caller's reference is to [rooms !! room]. *)
Definition ensure (room : RoomId) (cfg : RoomServer -> RoomConfig) : smethod unit := λ s,
  match rooms s !! room with
  | Some _ => Done (s, Ok tt)
  | None =>
      res ← open (cfg s) (new_store s room) (initial_projection s room);
      match res with
      | Ok r => Done (set_rooms s (<[room := r]> (rooms s)), Ok tt)
      | Err e => Done (s, Err e)
      end
  end.
Definition host (room : RoomId) : smethod unit :=
  ensure room (λ s, RoomConfig_original (mint_identity s) (server_indexers s)).
Definition join_remote_with_indexers (room : RoomId) (ix : list WriterKey) : smethod unit :=
  ensure room (λ s, RoomConfig_replicated (mint_identity s) ix (replica_stale_after s)).
Definition join_remote (room : RoomId) : smethod unit :=
  ix ← reads server_indexers; join_remote_with_indexers room ix.

Definition is_replicated (r : Room S F P) : bool :=
  match origin r with Replicated _ => true | Original => false end.
Definition evict_stale (s : RoomServer) (is_stale : Room S F P -> bool) : RoomServer * list RoomId :=
  let stale := (filter (λ e : RoomId * Room S F P, is_replicated e.2 && is_stale e.2) (bmap_list (rooms s))).*1 in
  (set_rooms s (foldl (λ m id, delete id m) (rooms s) stale), stale).

(** ** The driver *)

Context {T TE : Type} `{!Transport T TE}.

Record Driver := mkDriver { server : RoomServer; transport : T; announce_every_ticks : N; tick_count : N }.
Definition Driver_new (s : RoomServer) (t : T) (every : N) : Driver := mkDriver s t every 0.
Definition set_server (d : Driver) (s : RoomServer) : Driver := mkDriver s (transport d) (announce_every_ticks d) (tick_count d).
Definition set_transport (d : Driver) (t : T) : Driver := mkDriver (server d) t (announce_every_ticks d) (tick_count d).

Abbreviation dmethod := (act Driver (Error E OE)).

(** A transport error is dropped. *)
Definition Driver_dispatch (room : RoomId) (out : Outbound) : dmethod unit :=
  modify (λ d, set_transport d (dispatch (transport d) room out).1).
Definition dispatch_outs (room : RoomId) (outs : list Outbound) : dmethod unit :=
  for_each outs (Driver_dispatch room).
Definition Driver_announce (room : RoomId) : dmethod unit :=
  r ← reads (λ d, rooms (server d) !! room);
  match r with
  | Some r => dispatch_outs room (announce r)
  | None => mret tt
  end.

Definition on_server {A} (m : smethod A) : dmethod A := λ d,
  '(s, res) ← m (server d); Done (set_server d s, res).
Definition Driver_host (room : RoomId) : dmethod unit := _ ← on_server (host room); Driver_announce room.
Definition Driver_join_remote (room : RoomId) : dmethod unit := _ ← on_server (join_remote room); Driver_announce room.
Definition Driver_join_remote_with_indexers (room : RoomId) (ix : list WriterKey) : dmethod unit :=
  _ ← on_server (join_remote_with_indexers room ix); Driver_announce room.

(** A call on the room of an id, when it is held: its result. *)
Definition on_room {A} (room : RoomId) (m : act (Room S F P) (Error E OE) A)
    : dmethod (option (result (Error E OE) A)) := λ d,
  match rooms (server d) !! room with
  | None => Done (d, Ok None)
  | Some r =>
      '(r, res) ← m r;
      Done (set_server d (set_rooms (server d) (<[room := r]> (rooms (server d)))), Ok (Some res))
  end.

Definition Driver_append (room : RoomId) (op : bytes) : dmethod unit :=
  res ← on_room room (local_append op);
  match res with
  | None => mret tt
  | Some res => outs ← tries res; dispatch_outs room outs
  end.

(** The outbounds of a call that went well; a room's error is dropped. *)
Definition dispatch_ok (room : RoomId) (res : option (result (Error E OE) (list Outbound))) : dmethod unit :=
  match res with
  | Some (Ok outs) => dispatch_outs room outs
  | _ => mret tt
  end.

Definition pump (i : Inbound) : dmethod unit :=
  res ← on_room (in_room i) (on_inbound (in_from i) (in_msg i));
  dispatch_ok (in_room i) res.
Definition checkpoint_room (id : RoomId) : dmethod unit :=
  res ← on_room id checkpoint;
  dispatch_ok id res.
(** [self.server.rooms().filter(|(_, r)| r.needs_checkpoint())]. *)
Fixpoint hosts (l : list (RoomId * Room S F P)) : run (list RoomId) :=
  match l with
  | [] => Done []
  | (id, r) :: l' => need ← needs_checkpoint r; rest ← hosts l'; Done (if need : bool then id :: rest else rest)
  end.
Fixpoint collect (ids : list RoomId) (out : list (RoomId * list Finalized)) : dmethod (list (RoomId * list Finalized)) :=
  match ids with
  | [] => mret out
  | id :: ids' =>
      res ← on_room id poll_finalized;
      collect ids' (match res with
                    | Some (Ok (d :: ds)) => out ++ [(id, d :: ds)]
                    | _ => out
                    end)
  end.

Definition room_ids (d : Driver) : list RoomId := (bmap_list (rooms (server d))).*1.

Definition tick : dmethod (list (RoomId * list Finalized)) :=
  inbound ← (λ d, let '(t, v) := drain_inbound (transport d) in Done (set_transport d t, Ok v));
  _ ← for_each inbound pump;
  ids ← calls (λ d, hosts (bmap_list (rooms (server d))));
  _ ← for_each ids checkpoint_room;
  due ← reads (λ d, negb (announce_every_ticks d =? 0) && (tick_count d mod announce_every_ticks d =? 0));
  _ ← (if due : bool then ids ← reads room_ids; for_each ids Driver_announce else mret tt);
  _ ← modify (λ d, mkDriver (server d) (transport d) (announce_every_ticks d) (wrap64 (tick_count d + 1)));
  ids ← reads room_ids;
  collect ids [].
End Server.
End Server.
