(* ===== verification/Transports.v ===== *)
(** * [roomnet]: WebSocket and iroh transports

    The model of [src/crates/roomnet/src/ws.rs] and of the state of
    [src/crates/roomnet/src/native/mod.rs].  A background task is a sequence of
    steps, one for each lock it takes or message it moves, which the steps of other
    tasks may come between; a channel is the list of what is in it.  Sockets, dialling
    and the runtime are the environment that chooses the steps. *)
From S2P Require Import Prelude Codec Merkle Store Identity Linearizer Hypercore Replica Wire Room Server.

Module Transports.
Import Room Server.
Import Wire (SyncMessage).

Section Transports.
Context `{Ed25519}.

(** ** Frames *)

Definition encode_frame (room : RoomId) (from : PeerId) (msg : SyncMessage) : bytes :=
  room ++ from ++ Wire.encode msg.

Definition parse_frame (buf : bytes) : option Inbound :=
  if lenN buf <? 64 then None
  else
    match Wire.decode (drop 64 buf) with
    | Ok msg => Some (mkInbound (take 32 buf) (take 32 (drop 32 buf)) msg)
    | Err _ => None
    end.

(** A WebSocket message: binary, or one of the other kinds. *)
Inductive Message := Binary (data : bytes) | Other.

(** ** The client *)

(** [outbound] is open until the writer task ends. *)
Record WsTransport := mkWs { ws_id : PeerId; outbound : list bytes; writer_on : bool; ws_inbound : list Inbound }.
Definition WsTransport_connect (id : PeerId) : WsTransport := mkWs id [] true [].

Definition WsTransport_dispatch (t : WsTransport) (room : RoomId) (out : Outbound) : WsTransport :=
  match to out with
  | Clients => t
  | _ =>
      let frame := encode_frame room (ws_id t) (msg out) in
      if writer_on t then mkWs (ws_id t) (outbound t ++ [frame]) true (ws_inbound t) else t
  end.
Definition WsTransport_drain (t : WsTransport) : WsTransport * list Inbound :=
  (mkWs (ws_id t) (outbound t) (writer_on t) [], ws_inbound t).
#[global] Instance WsTransport_transport : Transport WsTransport Empty_set := {|
  dispatch t room out := (WsTransport_dispatch t room out, Ok tt);
  drain_inbound := WsTransport_drain |}.

(** The reader task on one message, and the writer task on one frame. *)
Definition WsTransport_read (t : WsTransport) (m : Message) : WsTransport :=
  match m with
  | Binary data =>
      match parse_frame data with
      | Some inb => mkWs (ws_id t) (outbound t) (writer_on t) (ws_inbound t ++ [inb])
      | None => t
      end
  | Other => t
  end.
Definition WsTransport_write (t : WsTransport) (sent : bool) : option (WsTransport * bytes) :=
  match outbound t with
  | frame :: rest =>
      if writer_on t
      then Some (if sent then mkWs (ws_id t) rest true (ws_inbound t) else mkWs (ws_id t) [] false (ws_inbound t), frame)
      else None
  | [] => None
  end.

(** ** The server *)

(** Where the reader task of a connection is: between two messages, before one of
    the steps for a frame, or past the end of the socket. *)
Inductive stage := Registering | Presenting | Recording | Forwarding.
Inductive Reader := Waiting | Handling (st : stage) (inb : Inbound) | Leaving.

(** One accepted connection: the locals of its reader, and the queue of its writer. *)
Record Conn := mkConn {
  registered : option PeerId; conn_rooms : gset RoomId; reader : Reader; queue : list bytes; writing : bool }.
Definition set_reader (k : Conn) (r : Reader) : Conn := mkConn (registered k) (conn_rooms k) r (queue k) (writing k).

(** [conns] maps a peer to the sender of a connection, here its number; [live] are
    the connections whose reader runs, [left_over] the queues that the writers of the
    others still have to send. *)
Record WsServerTransport := mkWsServer {
  srv_id : PeerId; conns : gmap PeerId N; seen : gset RoomId; present : gmap RoomId (gset PeerId);
  srv_inbound : list Inbound; live : gmap N Conn; left_over : gmap N (list bytes); accepted : N }.

Definition set_conns (s : WsServerTransport) (m : gmap PeerId N) : WsServerTransport :=
  mkWsServer (srv_id s) m (seen s) (present s) (srv_inbound s) (live s) (left_over s) (accepted s).
Definition set_seen (s : WsServerTransport) (m : gset RoomId) : WsServerTransport :=
  mkWsServer (srv_id s) (conns s) m (present s) (srv_inbound s) (live s) (left_over s) (accepted s).
Definition set_present (s : WsServerTransport) (m : gmap RoomId (gset PeerId)) : WsServerTransport :=
  mkWsServer (srv_id s) (conns s) (seen s) m (srv_inbound s) (live s) (left_over s) (accepted s).
Definition set_inbound (s : WsServerTransport) (l : list Inbound) : WsServerTransport :=
  mkWsServer (srv_id s) (conns s) (seen s) (present s) l (live s) (left_over s) (accepted s).
Definition set_live (s : WsServerTransport) (m : gmap N Conn) : WsServerTransport :=
  mkWsServer (srv_id s) (conns s) (seen s) (present s) (srv_inbound s) m (left_over s) (accepted s).
Definition set_left_over (s : WsServerTransport) (m : gmap N (list bytes)) : WsServerTransport :=
  mkWsServer (srv_id s) (conns s) (seen s) (present s) (srv_inbound s) (live s) m (accepted s).
Definition set_conn (s : WsServerTransport) (c : N) (k : Conn) : WsServerTransport := set_live s (<[c := k]> (live s)).

Definition WsServerTransport_bind (id : PeerId) : WsServerTransport := mkWsServer id ∅ ∅ ∅ [] ∅ ∅ 0.

(** The accept loop takes in a connection and spawns its two tasks. *)
Definition accept (s : WsServerTransport) : WsServerTransport :=
  mkWsServer (srv_id s) (conns s) (seen s) (present s) (srv_inbound s)
    (<[accepted s := mkConn None ∅ Waiting [] true]> (live s)) (left_over s) (accepted s + 1).

(** The reader of connection [c] takes a message from the socket. *)
Definition receive (c : N) (m : Message) (s : WsServerTransport) : option WsServerTransport :=
  k ← live s !! c;
  match reader k, m with
  | Waiting, Binary data =>
      match parse_frame data with
      | Some inb => Some (set_conn s c (set_reader k (Handling Registering inb)))
      | None => Some s
      end
  | Waiting, Other => Some s
  | _, _ => None
  end.

(** Its next step for the frame: the first frame registers the sender, a new room
    counts the client in, the room is recorded, the frame is forwarded. *)
Definition handle (c : N) (s : WsServerTransport) : option WsServerTransport :=
  k ← live s !! c;
  match reader k with
  | Handling Registering inb =>
      Some (match registered k with
            | None => set_conns (set_conn s c (mkConn (Some (in_from inb)) (conn_rooms k) (Handling Presenting inb) (queue k) (writing k)))
                        (<[in_from inb := c]> (conns s))
            | Some _ => set_conn s c (set_reader k (Handling Presenting inb))
            end)
  | Handling Presenting inb =>
      Some (if bool_decide (in_room inb ∈ conn_rooms k) then set_conn s c (set_reader k (Handling Recording inb))
            else set_present (set_conn s c (mkConn (registered k) ({[ in_room inb ]} ∪ conn_rooms k) (Handling Recording inb) (queue k) (writing k)))
                   (<[in_room inb := {[ in_from inb ]} ∪ default ∅ (present s !! in_room inb)]> (present s)))
  | Handling Recording inb =>
      Some (set_seen (set_conn s c (set_reader k (Handling Forwarding inb))) ({[ in_room inb ]} ∪ seen s))
  | Handling Forwarding inb =>
      Some (set_inbound (set_conn s c (set_reader k Waiting)) (srv_inbound s ++ [inb]))
  | _ => None
  end.

(** The socket ended: the sender is taken out unless another connection took its
    place, then the peer is taken out of the rooms. *)
Definition hang_up (c : N) (s : WsServerTransport) : option WsServerTransport :=
  k ← live s !! c;
  match reader k with
  | Waiting =>
      let s := set_conn s c (set_reader k Leaving) in
      Some (match registered k with
            | Some peer => if bool_decide (conns s !! peer = Some c) then set_conns s (delete peer (conns s)) else s
            | None => s
            end)
  | _ => None
  end.
Definition drop_peer (peer : PeerId) (m : gmap RoomId (gset PeerId)) (room : RoomId) : gmap RoomId (gset PeerId) :=
  match m !! room with
  | Some peers => let peers := peers ∖ {[ peer ]} in if bool_decide (peers = ∅) then delete room m else <[room := peers]> m
  | None => m
  end.
Definition leave (c : N) (s : WsServerTransport) : option WsServerTransport :=
  k ← live s !! c;
  match reader k with
  | Leaving =>
      Some (set_present (set_left_over (set_live s (delete c (live s))) (<[c := queue k]> (left_over s)))
              (match registered k with
               | Some peer => foldl (drop_peer peer) (present s) (bset_list (conn_rooms k))
               | None => present s
               end))
  | _ => None
  end.

(** The writer of [c] sends its next frame, or ends with the socket; after the reader
    it sends what is left in the queue, whose senders are gone. *)
Definition write (c : N) (sent : bool) (s : WsServerTransport) : option (WsServerTransport * bytes) :=
  k ← live s !! c;
  match queue k with
  | frame :: rest =>
      if writing k
      then Some (set_conn s c (mkConn (registered k) (conn_rooms k) (reader k) (if sent then rest else []) sent), frame)
      else None
  | [] => None
  end.

Definition write_left (c : N) (sent : bool) (s : WsServerTransport) : option (WsServerTransport * bytes) :=
  q ← left_over s !! c;
  match q with
  | frame :: rest => Some (set_left_over s (<[c := if sent then rest else []]> (left_over s)), frame)
  | [] => None
  end.

(** [tx.unbounded_send(frame)]: nothing when the receiver is gone. *)
Definition enqueue (frame : bytes) (m : gmap N Conn) (c : N) : gmap N Conn :=
  match m !! c with
  | Some k => if writing k then <[c := mkConn (registered k) (conn_rooms k) (reader k) (queue k ++ [frame]) true]> m else m
  | None => m
  end.
Definition srv_dispatch (s : WsServerTransport) (room : RoomId) (out : Outbound) : WsServerTransport :=
  let frame := encode_frame room (srv_id s) (msg out) in
  match to out with
  | Peer p => match conns s !! p with Some c => set_live s (enqueue frame (live s) c) | None => s end
  | Gossip | Clients => set_live s (foldl (enqueue frame) (live s) (bmap_list (conns s)).*2)
  end.
Definition srv_drain (s : WsServerTransport) : WsServerTransport * list Inbound := (set_inbound s [], srv_inbound s).
#[global] Instance WsServerTransport_transport : Transport WsServerTransport Empty_set := {|
  dispatch s room out := (srv_dispatch s room out, Ok tt);
  drain_inbound := srv_drain |}.

Definition seen_rooms (s : WsServerTransport) : list RoomId := bset_list (seen s).
Definition clients_by_room (s : WsServerTransport) : gmap RoomId nat := (λ ps : gset PeerId, size ps) <$> present s.

(** ** iroh *)

(** [sent] is what the dialling tasks were given. *)
Record IrohTransport := mkIroh { inbound_rx : list Inbound; peers : gset PeerId; sent : list (PeerId * bytes) }.
Definition IrohTransport_attach (bootstrap : list PeerId) : IrohTransport := mkIroh [] (list_to_set bootstrap) [].

Definition add_peer (t : IrohTransport) (id : PeerId) : IrohTransport :=
  mkIroh (inbound_rx t) ({[ id ]} ∪ peers t) (sent t).
Definition iroh_targets (t : IrohTransport) (to : Fanout) : list PeerId :=
  match to with Gossip => bset_list (peers t) | Peer p => [p] | Clients => [] end.
Definition IrohTransport_dispatch (t : IrohTransport) (room : RoomId) (out : Outbound) : IrohTransport :=
  let frame := room ++ Wire.encode (msg out) in
  mkIroh (inbound_rx t) (peers t) (sent t ++ ((λ p, (p, frame)) <$> iroh_targets t (to out))).
Definition IrohTransport_drain (t : IrohTransport) : IrohTransport * list Inbound :=
  (mkIroh [] (peers t) (sent t), inbound_rx t).
#[global] Instance IrohTransport_transport : Transport IrohTransport Empty_set := {|
  dispatch t room out := (IrohTransport_dispatch t room out, Ok tt);
  drain_inbound := IrohTransport_drain |}.

(** [SyncHandler::accept] on the stream of an authenticated peer: whether it acks. *)
Definition SyncHandler_accept (max : N) (from : PeerId) (buf : bytes) (t : IrohTransport) : IrohTransport * bool :=
  let t := add_peer t from in
  if max <? lenN buf then (t, false)
  else
    (if lenN buf <? 32 then t
     else match Wire.decode (drop 32 buf) with
          | Ok msg => mkIroh (inbound_rx t ++ [mkInbound (take 32 buf) from msg]) (peers t) (sent t)
          | Err _ => t
          end, true).
End Transports.

(** ** The event loop of a node *)

Inductive Command := Host (room : RoomId) | JoinRemote (room : RoomId) (origin : PeerId)
| Append (room : RoomId) (op : bytes) | Shutdown.

(** [trait ProjectionSink]. *)
Class ProjectionSink (Sink State SE : Type) := {
  sink_write : Sink -> N -> State -> Sink * result SE unit;
}.

Section Loop.
Context `{Hasher} `{Ed25519} {S E : Type} `{!Store.Store S E} {F OE : Type} `{!StoreFactory F S OE}
  {P State PE : Type} `{!Projection P State PE} {Sink SE : Type} `{!ProjectionSink Sink State SE}.

Abbreviation Node := (Driver (S:=S) (F:=F) (P:=P) (T:=IrohTransport)).

(** What [select!] woke up for: a command, the end of the channel, or the timer. *)
Inductive wakeup := Got (c : option Command) | Elapsed.

(** [let _ = driver.f(..)]. *)
Definition ignore (m : act Node (Error E OE) unit) (d : Node) : Prelude.run Node := '(d, _) ← m d; Done d.

(** The writes for one room's deltas, each with the state the room shows now. *)
Definition sink_room (d : Node) (sink : Sink) (p : RoomId * list Finalized) : Sink :=
  foldl (λ sink f,
    match rooms (server d) !! p.1 with
    | Some r => (sink_write sink (fin_version f) (snapshot_finalized r)).1
    | None => sink
    end) sink p.2.

(** One turn of the loop; [None] when it ends. *)
Definition turn (w : wakeup) (d : Node) (sink : Sink) : Prelude.run (option (Node * Sink)) :=
  match w with
  | Got (Some (Host room)) => d ← ignore (Driver_host room) d; Done (Some (d, sink))
  | Got (Some (JoinRemote room origin)) =>
      d ← ignore (Driver_join_remote room) (set_transport d (add_peer (transport d) origin)); Done (Some (d, sink))
  | Got (Some (Append room op)) => d ← ignore (Driver_append room op) d; Done (Some (d, sink))
  | Got (Some Shutdown) | Got None => Done None
  | Elapsed =>
      '(d, res) ← tick (E:=E) (OE:=OE) d;
      Done (Some (d, match res with Ok out => foldl (sink_room d) sink out | Err _ => sink end))
  end.
Fixpoint run_server (ws : list wakeup) (d : Node) (sink : Sink) : Prelude.run (Node * Sink) :=
  match ws with
  | [] => Done (d, sink)
  | w :: ws' =>
      next ← turn w d sink;
      match next with
      | Some (d, sink) => run_server ws' d sink
      | None => Done (d, sink)
      end
  end.
End Loop.
End Transports.
