(* ===== verification/RoomCore.v ===== *)
(** * [roomnet]: the calls of the room on its own core

    What the room relies on of [append], [persist] and [recover_signed_suffix] of
    [src/crates/hypercore/src/core.rs], next to the refinement of the log: they
    keep the key of the core ([keeps]), and what they leave can be served. *)
From S2P Require Import Prelude Codec Flat Merkle MerkleSpec MerkleProofs Store Bitfield Identity.
From S2P Require Import Hypercore HypercoreMeta HypercoreLog HypercoreOps HypercoreDurable MerkleHistory Wire.

(** [f] is not changed by a method, however it ends. *)
Definition keeps {St E A B} (f : St -> B) (m : act St E A) : Prop :=
  forall s, match m s with Done (s', _) => f s' = f s | _ => True end.

Create HintDb keeps.

Section Keeps.
Context {St E B : Type} (f : St -> B).

Lemma keeps_ret {A} (a : A) : keeps f (mret a : act St E A).
Proof. done. Qed.
Lemma keeps_reads {A} (g : St -> A) : keeps f (reads g : act St E A).
Proof. done. Qed.
Lemma keeps_asks {A} (g : St -> result E A) : keeps f (asks g).
Proof. done. Qed.
Lemma keeps_fail {A} (e : E) : keeps f (fail e : act St E A).
Proof. done. Qed.
Lemma keeps_calls {A} (g : St -> run A) : keeps f (calls g : act St E A).
Proof. intros s. unfold calls. by destruct (g s). Qed.
Lemma keeps_runs {A} (r : run A) : keeps f (runs r : act St E A).
Proof. intros s. unfold runs. by destruct r. Qed.
Lemma keeps_modify (g : St -> St) : (forall s, f (g s) = f s) -> keeps f (modify g : act St E unit).
Proof. intros Hg s. apply Hg. Qed.
Lemma keeps_bind {A C} (m : act St E A) (k : A -> act St E C) :
  keeps f m -> (forall a, keeps f (k a)) -> keeps f (m ≫= k).
Proof.
  intros Hm Hk s. unfold mbind, act_bind. specialize (Hm s).
  destruct (m s) as [[s' [a|e]]| |]; try done. specialize (Hk a s'). destruct (k a s') as [[s2 r]| |]; congruence.
Qed.
Lemma keeps_if {A} (b : bool) (m1 m2 : act St E A) : keeps f m1 -> keeps f m2 -> keeps f (if b then m1 else m2).
Proof. by destruct b. Qed.

Lemma wp_unbind {A C} (m : act St E A) (k : A -> act St E C) (Q : C -> St -> Prop) R s :
  wp (m ≫= k) Q R s -> wp m (λ a, wp (k a) Q R) R s.
Proof. unfold wp, mbind, act_bind. by destruct (m s) as [[s' [a|e]]| |]. Qed.

Lemma wp_keeps {A} (m : act St E A) (Q : A -> St -> Prop) R s :
  keeps f m -> wp m Q R s -> wp m (λ a s', Q a s' /\ f s' = f s) (λ e s', R e s' /\ f s' = f s) s.
Proof. intros Hk. unfold wp. specialize (Hk s). destruct (m s) as [[s' [a|e]]| |]; done. Qed.
End Keeps.

#[export] Hint Resolve keeps_ret keeps_reads keeps_asks keeps_fail keeps_calls keeps_runs : keeps.
#[export] Hint Resolve keeps_modify keeps_bind keeps_if : keeps.

Module RoomCore.
Import MerkleSpec MerkleProofs Hypercore HypercoreMeta HypercoreLog HypercoreDurable.

Section Core.
Context `{HL : HasherLaws} `{EL : Ed25519Laws} {S E : Type} `{SL : Store.StoreLaws S E}.
Implicit Types (c : Hypercore S) (l : Log).

(** The key of a core and what it was opened with. *)
Definition keys_of c : Identity.PublicKey * Identity.SecretKey := (public c, author c).

Lemma store_put_keys k v : keeps keys_of (store_put (S:=S) (E:=E) k v).
Proof. intros c. unfold store_put. by destruct (Store.put (store c) k v). Qed.
Lemma tree_append_keys d : keeps keys_of (tree_append (S:=S) (E:=E) d).
Proof. intros c. unfold tree_append. by destruct (Merkle.append (tree c) d) as [[]| |]. Qed.
Lemma resign_keys : keeps keys_of (resign (S:=S) (E:=E)).
Proof. intros c. unfold resign. by destruct (Merkle.root_hash (tree c)). Qed.
#[local] Hint Resolve store_put_keys tree_append_keys resign_keys : keeps.

Lemma put_from_keys i encs : keeps keys_of (put_from (S:=S) (E:=E) i encs).
Proof. revert i. induction encs; intros i; cbn [put_from]; auto with keeps. Qed.
#[local] Hint Resolve put_from_keys : keeps.

Lemma append_keys {T} `{!Codec.Codec T} (v : T) : keeps keys_of (append (S:=S) (E:=E) v).
Proof. unfold append, presence_set. auto 12 with keeps. Qed.
Lemma persist_keys : keeps keys_of (persist (S:=S) (E:=E)).
Proof. unfold persist. auto 12 with keeps. Qed.
Lemma recover_keys h suffix : keeps keys_of (recover_signed_suffix (S:=S) (E:=E) h suffix).
Proof. unfold recover_signed_suffix. auto 20 with keeps. Qed.

(** What [persist] writes fits the store. *)
Definition core_fits c : Prop :=
  Store.fits KEY_TREE (Merkle.serialize (tree c)) /\ Store.fits KEY_PRESENCE (Bitfield.serialize (presence c))
  /\ Store.fits KEY_META (encode_meta c).

Lemma all_held_append l enc : all_held l -> all_held (spec_append l enc).
Proof.
  intros Hl i Hi. unfold spec_append, l_len in *. cbn [l_held l_blocks] in *. rewrite lenN_snoc in Hi.
  destruct (N.eqb_spec (lenN (l_blocks l)) i) as [|Hne]; [done|]. cbn [orb]. apply Hl. unfold l_len. lia.
Qed.
Lemma all_held_adopt l blocks : all_held (spec_adopt l blocks).
Proof. intros i Hi. unfold spec_adopt, l_len in *. cbn [l_held l_blocks] in *. by apply N.ltb_lt. Qed.

(** The store of a core brings its log back: it reopens, or nothing was written. *)
Definition own_disk (id : Identity.SecretKey) (s : S) (bs : list bytes) : Prop :=
  store_fails (S:=S) (E:=E) \/ exists c l, repr l c /\ all_held l /\ l_blocks l = bs /\ author c = id
    /\ store c = s
    /\ (open_ (E:=E) id s = Done (Ok c) \/ open_ (E:=E) id s = Done (Err NotPersisted) /\ c = new id s).

Lemma saved_disk l c : repr l c -> all_held l -> saved c (store c) -> own_disk (author c) (store c) (l_blocks l).
Proof.
  intros (Hc & Hs & Hst) Hall Hsv.
  destruct (open_spec l c (store c) Hc Hs Hst Hsv) as [(c' & Eo & Hr & Es & _ & _ & Ea)|[? _]]; [right|by left].
  exists c', l. split_and!; [done..|by left].
Qed.

Definition storage_error (e : Hypercore.Error E) : Prop := store_fails (S:=S) (E:=E) /\ exists e', e = Storage e'.

Lemma append_core {T} `{CL : Codec.CodecLaws T} l c (v : T) :
  repr l c -> l_len l < Flat.max_blocks -> u64_ok (lenN (Codec.encode v)) -> Store.fits (l_len l) (Codec.encode v) ->
  wp (append v) (λ _ c', repr (spec_append l (Codec.encode v)) c' /\ public c' = public c)
    (λ e _, storage_error e) c.
Proof.
  intros Hr Hn Hu Hf. eapply wp_mono; [apply (wp_keeps keys_of), (append_refines l c v Hr Hn Hu Hf); apply append_keys| |].
  - intros i c' [[_ Hr'] [= Hp _]]. done.
  - by intros e c' [(Hf' & He & _) _].
Qed.

Lemma persist_core l c :
  repr l c -> core_fits c ->
  wp persist (λ _ c', repr l c' /\ saved c' (store c') /\ public c' = public c) (λ e _, storage_error e) c.
Proof.
  intros Hr (Ft & Fp & Fm). eapply wp_mono; [apply (wp_keeps keys_of), (persist_saves l c Hr Ft Fp Fm); apply persist_keys| |].
  - intros [] c' [((s & Es) & Hr' & Hs) [= Hp _]]. split_and!; [done|by subst c'|done].
  - by intros e c' [(Hf' & He & _) _].
Qed.

(** What [recover_signed_suffix] writes fits the store. *)
Definition adopt_fits c (old : list bytes) (h : SignedHead) (suffix : list bytes) : Prop :=
  lenN old + lenN suffix <= Flat.max_blocks /\ blocks_ok suffix /\ all_fit (lenN old) suffix
  /\ Store.fits KEY_TREE (Merkle.serialize (MerkleHistory.build (old ++ suffix)))
  /\ Store.fits KEY_PRESENCE (Bitfield.serialize (full_presence (lenN (old ++ suffix))))
  /\ Store.fits KEY_META (encode_meta_parts (fork c) (Some h) (prologue c)).

Lemma recover_core l c h suffix :
  repr l c -> all_held l -> adopt_fits c (l_blocks l) h suffix ->
  wp (recover_signed_suffix h suffix)
    (λ _ c', recover_valid l (public c) h suffix = true /\ head c' = Some h
       /\ repr (spec_adopt l (l_blocks l ++ suffix)) c' /\ saved c' (store c') /\ public c' = public c)
    (λ e c', e = Corrupt /\ recover_valid l (public c) h suffix = false /\ c' = c \/ storage_error e) c.
Proof.
  intros Hr Hall (Hn & Hb & Hf & Ft & Fp & Fm).
  assert (Hfits : recover_fits l h suffix).
  { unfold recover_fits. by rewrite <- (r_fork _ _ (proj1 Hr)), <- (r_prologue _ _ (proj1 Hr)). }
  eapply wp_mono; [apply (wp_keeps keys_of), (recover_refines l c h suffix Hr Hall Hn Hb Hfits); apply recover_keys| |].
  - intros [] c' [(Hv & Hh & Hr' & Hsv) [= Hp _]]. done.
  - intros e c' [[He|(Hsf & He & _)] _]; [by left|by right].
Qed.

(** A block of a core whose blocks are all held is served with a proof that the
    owner's key accepts under the head. *)
Lemma block_servable l c i b :
  repr l c -> all_held l -> l_blocks l !! N.to_nat i = Some b ->
  exists h p, head c = Some h /\ h_length h = l_len l /\ proof c i = Done (Some p)
    /\ verify_block (public c) h i b p = true
    /\ (block c i = Ok (Some b) \/ exists e, block c i = Err e /\ storage_error e).
Proof.
  intros Hr Hall Hb. pose proof Hr as (Hc & Hs & _). unfold signed in Hs.
  assert (Hi : i < l_len l) by (apply lookup_lt_Some in Hb; unfold l_len, lenN; lia).
  destruct (head c) as [h|]; [|by rewrite Hs in Hb]. destruct Hs as (_ & Hl & Hroot & Hv).
  destruct (proof_complete (l_blocks l) (tree c) i b) as (p & Ep & Epb & Hpv); [apply Hc|apply Hc|done|].
  exists h, p. split_and!; [done..| |].
  - unfold verify_block. by rewrite Hv, Epb, N.eqb_refl, Hroot.
  - destruct (block_spec l c i Hr) as [->|(Hf & e & ->)]; [left|right; by repeat eexists]. unfold visible. by rewrite Hall, Hb.
Qed.
End Core.
End RoomCore.
