(* ===== verification/RoomDag.v ===== *)
(** * [roomnet]: entries into the DAG

    The entries a room was given are either delivered or wait for their causes
    ([dag]); draining the buffer ends, and then nothing that waits could be
    delivered ([settled]).  What is delivered is then determined by the entries
    alone, in whatever order they came. *)
From S2P Require Import Prelude Codec Store Identity Linearizer LinearizerDag LinearizerOrder LinearizerReach LinearizerView.
From S2P Require Import LinearizerTheorems Hypercore Replica Wire Room.

Module RoomDag.
Import Linearizer LinearizerDag LinearizerTheorems.
Import Wire (Entry, mkEntry, heads, payload).

Abbreviation feed := (NodeId -> option Entry).

(** The buffer holds what it cannot deliver yet. *)
Definition ready (l : Linearizer) (n : NodeId) (e : Entry) : Prop :=
  seq n = expected_seq l (key n) /\ forall h, h ∈ heads e -> h ∈ dom (deps l).

Record dag (M : feed) (l : Linearizer) (ps : gmap NodeId bytes) (pe : list (NodeId * Entry)) : Prop := mkDag {
  d_lin : lin_ok l;
  d_in : forall n ds, deps l !! n = Some ds ->
    exists e, M n = Some e /\ ds = dep_set n (heads e) /\ n ∉ heads e /\ ps !! n = Some (payload e);
  d_ps : dom ps = dom (deps l);
  d_wait : forall n e, (n, e) ∈ pe -> M n = Some e;
  d_all : forall n e, M n = Some e -> n ∈ dom (deps l) \/ (n, e) ∈ pe }.

Definition settled (l : Linearizer) (pe : list (NodeId * Entry)) : Prop :=
  forall n e, (n, e) ∈ pe -> n ∉ dom (deps l) /\ ~ ready l n e.

(** An addition keeps the configuration. *)
Definition same_config (l l' : Linearizer) : Prop :=
  indexers l' = indexers l /\ base l' = base l /\ base_clock l' = base_clock l.

Lemma same_config_refl l : same_config l l.
Proof. done. Qed.
Lemma same_config_trans l1 l2 l3 : same_config l1 l2 -> same_config l2 l3 -> same_config l1 l3.
Proof. unfold same_config. intuition congruence. Qed.

(** The outcomes of a delivery, in the terms used here. *)
Lemma add_cases l n hs :
  match add l n hs with
  | (l', Ok tt) => n ∉ dom (deps l) /\ ready l n (mkEntry hs []) /\ same_config l l'
  | (l', Err (Duplicate _)) => l' = l /\ n ∈ dom (deps l)
  | (l', Err _) => l' = l /\ n ∉ dom (deps l) /\ ~ ready l n (mkEntry hs [])
  end.
Proof.
  destruct (add l n hs) as [l' [[]|e]] eqn:Ea.
  - pose proof (add_ok _ _ _ _ Ea) as (Hn & Hs & Hh & _ & _ & Hi & Hb & Hc & _). done.
  - unfold add in Ea. destruct (contains l n) eqn:Ec.
    { injection Ea as <- <-. by apply contains_spec in Ec. }
    apply contains_false in Ec. destruct (N.eqb_spec (seq n) (expected_seq l (key n))) as [Es|Es]; cbn [negb] in Ea.
    + destruct (missing_head l hs) as [h|] eqn:Eh; [|done]. injection Ea as <- <-.
      apply missing_head_some in Eh as [Hin Hout]. split_and!; [done..|]. intros [_ Hh]. by apply Hout, Hh.
    + injection Ea as <- <-. split_and!; [done..|]. by intros [? _].
Qed.

Lemma lin_ok_add l n hs l' : lin_ok l -> add l n hs = (l', Ok tt) -> lin_ok l'.
Proof.
  intros [Hw Hb Hc] Ha. pose proof (add_ok _ _ _ _ Ha) as (_ & _ & _ & _ & _ & _ & Eb & Ec & _).
  split; [by eapply wf_add| |by rewrite Ec, Eb]. rewrite Eb. by eapply causal_add.
Qed.

(** One delivered entry. *)
Lemma dag_add M l ps pe n e l' :
  dag M l ps pe -> M n = Some e -> add l n (heads e) = (l', Ok tt) ->
  dag M l' (<[n := payload e]> ps) pe.
Proof.
  intros [Hl Hi Hp Hw Ha] Hm Hadd. pose proof (add_ok _ _ _ _ Hadd) as (Hn & Hs & Hh & Ed & _). split.
  - by eapply lin_ok_add.
  - intros m ds. rewrite Ed. destruct (decide (m = n)) as [->|Hne].
    + rewrite lookup_insert_eq. intros [= <-]. exists e. rewrite lookup_insert_eq. split_and!; [done..| |done].
      intros Hin. by apply Hn, Hh.
    + rewrite !lookup_insert_ne by done. apply Hi.
  - rewrite Ed, !dom_insert_L, Hp. done.
  - done.
  - intros m e' [Hd|Hd]%Ha; [left|by right]. rewrite Ed, dom_insert_L. set_solver.
Qed.

(** Only the members of the buffer matter, and a delivered node need not wait. *)
Lemma dag_pending M l ps pe pe' :
  dag M l ps pe -> (forall n e, (n, e) ∈ pe' -> (n, e) ∈ pe) ->
  (forall n e, (n, e) ∈ pe -> n ∈ dom (deps l) \/ (n, e) ∈ pe') -> dag M l ps pe'.
Proof.
  intros [Hl Hi Hp Hw Ha] Hsub Hsup. split; [done..| |].
  - intros n e Hin. by apply Hw, Hsub.
  - intros n e [Hd|Hd]%Ha; [by left|by apply Hsup].
Qed.

(** [try_add_node] on the parts of a room it touches. *)
Definition offer (l : Linearizer) (ps : gmap NodeId bytes) (pe : list (NodeId * Entry)) (n : NodeId) (e : Entry)
    : Linearizer * gmap NodeId bytes * list (NodeId * Entry) :=
  match add l n (heads e) with
  | (l', Ok _) => (l', <[n := payload e]> ps, pe)
  | (l', Err (Duplicate _)) => (l', ps, pe)
  | (l', Err _) => (l', ps, pe ++ [(n, e)])
  end.

(** A feed with one more entry. *)
Definition extends (M M' : feed) (n : NodeId) (e : Entry) : Prop :=
  M' n = Some e /\ (M n = None \/ M n = Some e) /\ forall m, m <> n -> M' m = M m.

Lemma extends_sub M M' n e m e' : extends M M' n e -> M m = Some e' -> M' m = Some e'.
Proof.
  intros (Hn & Hold & Hother) Hm. destruct (decide (m = n)) as [->|Hne]; [|by rewrite Hother].
  destruct Hold; congruence.
Qed.

Lemma offer_dag M M' l ps pe n e :
  dag M l ps pe -> extends M M' n e ->
  let '(l', ps', pe') := offer l ps pe n e in
  dag M' l' ps' pe' /\ same_config l l' /\ deps l ⊆ deps l' /\ ps ⊆ ps'.
Proof.
  intros [Hl Hi Hp Hw Ha] He. pose proof He as (Hn & Hold & Hother).
  assert (Hi' : forall m ds, deps l !! m = Some ds ->
    exists e, M' m = Some e /\ ds = dep_set m (heads e) /\ m ∉ heads e /\ ps !! m = Some (payload e)).
  { intros m ds (e' & Em & ?)%Hi. exists e'. split; [by eapply extends_sub|done]. }
  assert (Hw' : forall m e', (m, e') ∈ pe -> M' m = Some e') by (intros m e' ?%Hw; by eapply extends_sub).
  assert (Ha' : forall m e', M' m = Some e' -> m <> n -> m ∈ dom (deps l) \/ (m, e') ∈ pe).
  { intros m e' Em Hne. apply Ha. by rewrite <- Hother. }
  unfold offer. pose proof (add_cases l n (heads e)) as Hc.
  destruct (add l n (heads e)) as [l' [[]|er]] eqn:Hadd.
  - pose proof (add_ok _ _ _ _ Hadd) as (Hnew & Hs & Hh & Ed & _). destruct Hc as (_ & _ & Hc).
    assert (Hpn : ps !! n = None) by (apply not_elem_of_dom; by rewrite Hp).
    split_and!; [|done|rewrite Ed; apply insert_subseteq, not_elem_of_dom; done|by apply insert_subseteq].
    split; [by eapply lin_ok_add| |by rewrite Ed, !dom_insert_L, Hp|done|].
    + intros m ds. rewrite Ed. destruct (decide (m = n)) as [->|Hne].
      * rewrite lookup_insert_eq. intros [= <-]. exists e. rewrite lookup_insert_eq. split_and!; [done..| |done].
        intros Hin. by apply Hnew, Hh.
      * rewrite !lookup_insert_ne by done. apply Hi'.
    + intros m e' Em. rewrite Ed, dom_insert_L. destruct (decide (m = n)) as [->|Hne]; [set_solver|].
      destruct (Ha' m e' Em Hne); set_solver.
  - destruct er as [| |].
    1: { destruct Hc as [-> Hin]. split_and!; [|done..]. split; [done..|]. intros m e' Em.
         destruct (decide (m = n)) as [->|Hne]; [by left|by apply Ha']. }
    all: destruct Hc as (-> & Hout & _); split_and!; [|done..]; split; [done..| |];
      [intros m e' [Hin|[= -> ->]%list_elem_of_singleton]%elem_of_app; [by apply Hw'|done]|];
      intros m e' Em; rewrite elem_of_app, list_elem_of_singleton;
      (destruct (decide (m = n)) as [->|Hne]; [right; right; congruence|destruct (Ha' m e' Em Hne); tauto]).
Qed.

(** ** Draining *)

(** What a pass leaves: it delivers or keeps, and without progress nothing moved. *)
Lemma drain_pass_spec M taken l ps still b l' ps' still' b' :
  dag M l ps (taken ++ still) -> Room.drain_pass taken l ps still b = (l', ps', still', b') ->
  dag M l' ps' still' /\ same_config l l' /\ deps l ⊆ deps l' /\ ps ⊆ ps'
  /\ (length still' <= length taken + length still)%nat
  /\ (if b' then b = true \/ (length still' < length taken + length still)%nat
      else b = false /\ l' = l /\ ps' = ps /\ still' = still ++ taken
           /\ forall n e, (n, e) ∈ taken -> n ∉ dom (deps l) /\ ~ ready l n e).
Proof.
  revert l ps still b. induction taken as [|[n e] taken IH]; intros l ps still b Hd; cbn [Room.drain_pass].
  { intros [= <- <- <- <-]. split_and!; [done..|]. destruct b; [by left|]. rewrite app_nil_r. split_and!; [done..|].
    intros n e Hin. by apply elem_of_nil in Hin. }
  pose proof (add_cases l n (heads e)) as Hc. destruct (add l n (heads e)) as [l1 [[]|er]] eqn:Hadd.
  - destruct Hc as (Hnew & _ & Hcfg). assert (Hm : M n = Some e) by (apply (d_wait _ _ _ _ Hd); by left).
    pose proof (dag_add _ _ _ _ _ _ _ Hd Hm Hadd) as Hd1. pose proof (add_ok _ _ _ _ Hadd) as (_ & _ & _ & Ed & _).
    assert (Hd2 : dag M l1 (<[n := payload e]> ps) (taken ++ still)).
    { eapply dag_pending; [exact Hd1|intros m e'; rewrite <- app_comm_cons, elem_of_cons; tauto|].
      intros m e' [[= -> ->]|Hin]%elem_of_cons; [left|by right]. rewrite Ed, dom_insert_L. apply elem_of_union_l, elem_of_singleton. done. }
    assert (Hpn : ps !! n = None) by (apply not_elem_of_dom; by rewrite (d_ps _ _ _ _ Hd)).
    intros (H1 & H2 & H3 & H4 & H5 & H6)%IH; [|done]. split_and!; [done|by eapply same_config_trans| | |cbn; lia|].
    + etrans; [|exact H3]. rewrite Ed. by apply insert_subseteq, not_elem_of_dom.
    + etrans; [|exact H4]. by apply insert_subseteq.
    + destruct b'; [right; cbn; lia|]. by destruct H6.
  - assert (Hstay : er = Duplicate n \/ (exists k x g, er = Gap k x g) \/ (exists h, er = MissingHead h)).
    { unfold add in Hadd. repeat case_match; simplify_eq; eauto 6. }
    destruct Hstay as [->|Hstay].
    + destruct Hc as [-> Hin]. intros (H1 & H2 & H3 & H4 & H5 & H6)%IH.
      * split_and!; [done..|cbn; lia|]. destruct b'; [right; cbn; lia|]. by destruct H6.
      * eapply dag_pending; [exact Hd|intros m e'; rewrite <- app_comm_cons, elem_of_cons; tauto|].
        intros m e' [[= -> ->]|Hin']%elem_of_cons; [by left|by right].
    + assert (Hr : Room.drain_pass taken l1 ps (still ++ [(n, e)]) b = (l', ps', still', b') ->
        l1 = l /\ n ∉ dom (deps l) /\ ~ ready l n e ->
        dag M l' ps' still' /\ same_config l l' /\ deps l ⊆ deps l' /\ ps ⊆ ps'
        /\ (length still' <= length ((n, e) :: taken) + length still)%nat
        /\ (if b' then b = true \/ (length still' < length ((n, e) :: taken) + length still)%nat
            else b = false /\ l' = l /\ ps' = ps /\ still' = still ++ (n, e) :: taken
             /\ forall m e', (m, e') ∈ (n, e) :: taken -> m ∉ dom (deps l) /\ ~ ready l m e')).
      { intros Hrun (-> & Hout & Hnr). apply IH in Hrun as (H1 & H2 & H3 & H4 & H5 & H6).
        - rewrite length_app in *. cbn [length] in *. split_and!; [done..|lia|]. destruct b'; [destruct H6; [by left|right; lia]|].
          destruct H6 as (-> & -> & -> & -> & H6). rewrite <- app_assoc. split_and!; [done..|].
          intros m e' [[= -> ->]|Hin]%elem_of_cons; [done|by apply H6].
        - eapply dag_pending; [exact Hd|intros m e'|intros m e' Hin; right; revert Hin];
            rewrite !elem_of_app, list_elem_of_singleton, elem_of_cons; tauto. }
      destruct Hstay as [(k & x & g & ->)|[h ->]]; intros Hrun; apply Hr; try done; destruct Hc as (-> & Hout & Hnr); done.
Qed.

Lemma drain_loop_spec M fuel l ps pe :
  dag M l ps pe -> (length pe < fuel)%nat ->
  exists l' ps' pe', Room.drain_loop fuel l ps pe = Done (l', ps', pe')
    /\ dag M l' ps' pe' /\ settled l' pe' /\ same_config l l' /\ deps l ⊆ deps l' /\ ps ⊆ ps'.
Proof.
  revert l ps pe. induction fuel as [|fuel IH]; intros l ps pe Hd Hf; [lia|]. cbn [Room.drain_loop].
  destruct (Room.drain_pass pe l ps [] false) as [[[l1 ps1] still] b] eqn:Ep.
  apply (drain_pass_spec M) in Ep as (Hd1 & Hcfg & Hs1 & Hs2 & Hlen & Hb); [|by rewrite app_nil_r].
  cbn [length] in *. destruct b.
  - destruct Hb as [?|Hb]; [done|]. destruct (IH l1 ps1 still) as (l2 & ps2 & pe2 & E & H1 & H2 & H3 & H4 & H5); [done|lia|].
    exists l2, ps2, pe2. split_and!; [done..|by eapply same_config_trans|by etrans|by etrans].
  - destruct Hb as (_ & -> & -> & -> & Hb). exists l, ps, pe. cbn [app]. split_and!; try done.
Qed.

(** ** How many nodes there are, delivered and waiting *)

Definition total (l : Linearizer) (pe : list (NodeId * Entry)) : nat := (size (deps l) + length pe)%nat.

Lemma add_size l n hs l' : add l n hs = (l', Ok tt) -> size (deps l') = S (size (deps l)).
Proof.
  intros (Hn & _ & _ & -> & _)%add_ok. apply map_size_insert_None. by apply not_elem_of_dom.
Qed.

Lemma offer_total l ps pe n e :
  let '(l', _, pe') := offer l ps pe n e in (total l' pe' <= S (total l pe))%nat /\ (size (deps l) <= size (deps l'))%nat.
Proof.
  unfold offer, total. pose proof (add_cases l n (heads e)) as Hc.
  destruct (add l n (heads e)) as [l' [[]|er]] eqn:Ha.
  - apply add_size in Ha. lia.
  - destruct er; destruct Hc as [-> _]; rewrite ?length_app; cbn; lia.
Qed.

Lemma drain_pass_total taken l ps still b l' ps' still' b' :
  Room.drain_pass taken l ps still b = (l', ps', still', b') ->
  (total l' still' <= total l still + length taken)%nat /\ (size (deps l) <= size (deps l'))%nat.
Proof.
  unfold total. revert l ps still b. induction taken as [|[n e] taken IH]; intros l ps still b; cbn [Room.drain_pass].
  { intros [= <- <- <- <-]. cbn. lia. }
  pose proof (add_cases l n (heads e)) as Hc. destruct (add l n (heads e)) as [l1 [[]|er]] eqn:Ha.
  - apply add_size in Ha. intros [? ?]%IH. cbn. lia.
  - destruct er; destruct Hc as [-> _]; intros [? ?]%IH; rewrite ?length_app in *; cbn in *; lia.
Qed.

Lemma drain_loop_total fuel l ps pe l' ps' pe' :
  Room.drain_loop fuel l ps pe = Done (l', ps', pe') ->
  (total l' pe' <= total l pe)%nat /\ (size (deps l) <= size (deps l'))%nat.
Proof.
  revert l ps pe. induction fuel as [|fuel IH]; intros l ps pe; [done|]. cbn [Room.drain_loop].
  destruct (Room.drain_pass pe l ps [] false) as [[[l1 ps1] still] b] eqn:Ep.
  apply drain_pass_total in Ep. unfold total in *. cbn [length] in Ep.
  destruct b; [intros Hr%IH; lia|intros [= <- <- <-]; lia].
Qed.

Lemma dag_ext M M' l ps pe : (forall n, M n = M' n) -> dag M l ps pe -> dag M' l ps pe.
Proof.
  intros He [Hl Hi Hp Hw Ha]. split; [done| |done| |].
  - intros n ds E. rewrite <- He. by apply Hi.
  - intros n e Hin. rewrite <- He. by apply Hw.
  - intros n e Em. rewrite <- He in Em. by apply Ha.
Qed.

(** ** What is delivered is determined by the entries *)

Lemma ready_at l n e :
  wf l -> n ∉ dom (deps l) -> (forall h, h ∈ heads e -> h ∈ dom (deps l)) ->
  (0 < seq n -> mkNode (key n) (seq n - 1) ∈ dom (deps l)) -> ready l n e.
Proof.
  intros Hw Hn Hh Hp. split; [|done]. destruct n as [k s]. cbn [key seq] in *.
  rewrite (wf_next l Hw) in Hn. destruct (decide (s = 0)) as [->|Hs]; [lia|].
  specialize (Hp ltac:(lia)). rewrite (wf_next l Hw) in Hp. lia.
Qed.

(** The whole causal past of a node is among the entries. *)
Inductive complete (M : feed) (n : NodeId) : Prop :=
| complete_intro e :
    M n = Some e -> (forall h, h ∈ heads e -> complete M h) ->
    (0 < seq n -> complete M (mkNode (key n) (seq n - 1))) -> complete M n.

Lemma delivered_complete M l ps pe n : dag M l ps pe -> n ∈ dom (deps l) -> complete M n.
Proof.
  intros D. destruct (wf_order _ (ok_wf _ (d_lin _ _ _ _ D))) as (o & [_ Ho] & Hin).
  cut (forall k n, n ∈ take k o -> complete M n).
  { intros Hk Hn. apply (Hk (length o)). rewrite take_ge by done. by apply Hin. }
  clear n. induction k as [|k IH]; intros n; [set_solver|]. destruct (o !! k) as [m|] eqn:Em.
  2: { apply lookup_ge_None in Em. rewrite take_ge by lia. rewrite take_ge in IH by done. apply IH. }
  rewrite (take_S_r _ _ _ Em). intros [Hn|Heq%list_elem_of_singleton]%elem_of_app; [by apply IH|subst n].
  destruct (Ho k m Em) as [Hd Hdeps]. apply elem_of_dom in Hd as [ds Eds].
  destruct (d_in _ _ _ _ D m ds Eds) as (e & HM & -> & Hself & _).
  rewrite (deps_of_some _ _ _ Eds) in Hdeps. apply (complete_intro M m e HM).
  - intros h Hh. apply IH, Hdeps. apply dep_set_spec. split; [by intros ->|by left].
  - intros Hpos. apply IH, Hdeps. apply dep_set_spec. split; [|by right].
    destruct m as [mk ms]. cbn in *. intros [= ?]. lia.
Qed.

Lemma complete_delivered M l ps pe n : dag M l ps pe -> settled l pe -> complete M n -> n ∈ dom (deps l).
Proof.
  intros D Hs. induction 1 as [n e HM _ IH _ IHp].
  destruct (d_all _ _ _ _ D n e HM) as [?|Hwait]; [done|]. destruct (Hs n e Hwait) as [Hout []].
  apply ready_at; [apply D|done..].
Qed.

(** What a settled room has delivered. *)
Lemma settled_dom M l ps pe n : dag M l ps pe -> settled l pe -> n ∈ dom (deps l) <-> complete M n.
Proof. intros D Hs. split; [by eapply delivered_complete|by eapply complete_delivered]. Qed.

(** Two rooms with the same entries and configuration agree once both settled. *)
Lemma dag_unique M l1 ps1 pe1 l2 ps2 pe2 :
  dag M l1 ps1 pe1 -> dag M l2 ps2 pe2 -> settled l1 pe1 -> settled l2 pe2 -> same_config l1 l2 ->
  l1 = l2 /\ ps1 = ps2.
Proof.
  intros D1 D2 S1 S2 (Ei & Eb & Ec).
  assert (Hdom : dom (deps l1) = dom (deps l2)).
  { apply set_eq. intros n. by rewrite (settled_dom M l1), (settled_dom M l2). }
  assert (Hval : forall n, deps l1 !! n = deps l2 !! n /\ ps1 !! n = ps2 !! n).
  { intros n. destruct (deps l1 !! n) as [d1|] eqn:E1.
    - assert (is_Some (deps l2 !! n)) as [d2 E2] by (apply elem_of_dom; rewrite <- Hdom; by eapply elem_of_dom_2).
      destruct (d_in _ _ _ _ D1 n d1 E1) as (e & HM & -> & _ & ->).
      destruct (d_in _ _ _ _ D2 n d2 E2) as (e' & HM' & -> & _ & ->). rewrite E2. by simplify_eq.
    - assert (E2 : deps l2 !! n = None) by (apply not_elem_of_dom; rewrite <- Hdom; by apply not_elem_of_dom).
      rewrite E2. split; [done|].
      rewrite (proj1 (not_elem_of_dom ps1 n)), (proj1 (not_elem_of_dom ps2 n)); [done|rewrite (d_ps _ _ _ _ D2)|rewrite (d_ps _ _ _ _ D1)];
        by apply not_elem_of_dom. }
  split; [|apply map_eq; intros n; apply Hval].
  apply wf_unique; [apply D1|apply D2| |done..]. apply map_eq. intros n. apply Hval.
Qed.
End RoomDag.
