(* ===== verification/RoomInv.v ===== *)
(** * [roomnet]: what every room keeps

    [room_ok L r]: the cores of the room hold the feeds [L], one per writer, and the
    entries in them are delivered or wait for their causes.  Each step of the
    methods keeps it; only the store can make a step fail in another way than the
    method says, and nothing panics. *)
From S2P Require Import Prelude Codec Flat Merkle MerkleSpec MerkleProofs Store Identity Linearizer LinearizerDag LinearizerView.
From S2P Require Import LinearizerTheorems Hypercore HypercoreLog HypercoreOps HypercoreDurable HypercoreTheorems.
From S2P Require Import Replica ReplicaTheorems Wire Room RoomCore RoomDag.

(** A factory hands out well-formed stores. *)
Class FactoryLaws (F S OE E : Type) `{!StoreFactory F S OE} `{SL : Store.StoreLaws S E} := {
  factory_store : forall f w f' s, factory_open f w = (f', Ok s) -> Store.store_inv s;
}.

Module RoomInv.
Import Linearizer LinearizerDag LinearizerTheorems.
Import MerkleSpec HypercoreLog HypercoreDurable ReplicaTheorems Room RoomCore RoomDag.
Import Hypercore (Hypercore, SignedHead).
Import Replica (Replica, rp_public, rp_head, rp_tree, rp_store).

(** One feed per writer, and the entries its blocks decode to. *)
Abbreviation feeds := (gmap WriterKey (list bytes)).
Definition entry_in (bs : list bytes) (i : N) : option Wire.Entry :=
  b ← bs !! N.to_nat i; match Codec.decode b with Ok e => Some e | Err _ => None end.
Definition entry_of (L : feeds) : feed := λ n, bs ← L !! key n; entry_in bs (seq n).

Section Inv.
Context `{HL : HasherLaws} `{EL : Ed25519Laws} {S E : Type} `{SL : Store.StoreLaws S E}
  {F OE : Type} `{!StoreFactory F S OE, !FactoryLaws F S OE E} {P State PE : Type} `{!Projection P State PE}.
Implicit Types (r : Room S F P) (L : feeds).

(** The owner of a key signed a head under which the block verifies. *)
Definition attested (w : WriterKey) (i : N) (b : bytes) : Prop :=
  exists pk h p, Identity.from_bytes w = Some pk /\ Hypercore.verify_block pk h i b p = true.

(** The blocks of a replica that its store brings back: those under its head. *)
Definition verified_part (rep : Replica S) (bs : list bytes) : list bytes :=
  match rp_head rep with Some h => take (N.to_nat (Hypercore.h_length h)) bs | None => bs end.

(** The store of another writer: what reopening it gives. *)
Definition remote_disk (w : WriterKey) (s : S) (bs : option (list bytes)) : Prop :=
  exists pk, Identity.from_bytes w = Some pk /\
    match bs with
    | Some bs => exists rep, Replica.Replica_open (E:=E) pk s = Done (Ok rep) /\ rp_public rep = pk
                   /\ rp_store rep = s /\ replica_of bs rep /\ verified_part rep bs = bs
    | None => Replica.Replica_open (E:=E) pk s = Done (Err Hypercore.NotPersisted)
    end.
Definition replica_disk (w : WriterKey) (rep : Replica S) (bs : list bytes) : Prop :=
  store_fails (S:=S) (E:=E) \/ remote_disk w (rp_store rep) (Some (verified_part rep bs))
  \/ bs = [] /\ remote_disk w (rp_store rep) None.

(** The cores of the room, and their stores, hold the feeds. *)
Record cores_ok L r : Prop := mkCoresOk {
  k_key : local_key r = Identity.to_bytes (Hypercore.public (local r));
  k_local : exists lg, repr lg (local r) /\ all_held lg /\ L !! local_key r = Some (l_blocks lg);
  k_remote : forall w rep, remotes r !! w = Some rep ->
    w <> local_key r /\ Identity.from_bytes w = Some (rp_public rep)
    /\ exists bs, L !! w = Some bs /\ replica_of bs rep;
  k_disk : forall bs, L !! local_key r = Some bs ->
    own_disk (E:=E) (Hypercore.author (local r)) (Hypercore.store (local r)) bs;
  k_rdisk : forall w rep bs, remotes r !! w = Some rep -> L !! w = Some bs -> replica_disk w rep bs;
  k_dom : forall w, is_Some (L !! w) -> w = local_key r \/ is_Some (remotes r !! w);
  k_auth : forall w bs i b, w <> local_key r -> L !! w = Some bs -> bs !! i = Some b -> attested w (N.of_nat i) b }.

(** What the finalized fold has taken in: delivered nodes, from the projection the
    room started with. *)
Definition folded r (fl : list NodeId) : Prop :=
  length fl = finalized_len r /\ Forall (λ n, n ∈ dom (payloads r)) fl
  /\ finalized_proj r = fold_nodes (payloads r) (genesis_proj r) fl.

(** The entries [M] are delivered or wait, and no more is folded than delivered. *)
Record deliveries_ok (M : feed) r : Prop := mkDeliveriesOk {
  k_dag : dag M (lin r) (payloads r) (pending r);
  k_fin : (finalized_len r <= size (deps (lin r)))%nat;
  k_fold : exists fl, folded r fl }.

Definition room_ok L r : Prop := cores_ok L r /\ deliveries_ok (entry_of L) r.

(** The DAG fits in memory with [n] more nodes. *)
Definition roomy (n : nat) r : Prop := N.of_nat (total (lin r) (pending r) + n) < two64.

Lemma roomy_small n r : roomy n r -> lin_small (lin r).
Proof. unfold roomy, lin_small, total. lia. Qed.

Abbreviation method := (act (Room S F P) (Error E OE)).

(** ** The folds *)

(** The order and the finalized prefix exist, the second within the first. *)
Lemma lin_views l :
  lin_ok l -> lin_small l ->
  exists fin rest, finalized l = Done fin /\ Linearizer.order l = Done (fin ++ rest)
    /\ length (fin ++ rest) = size (deps l).
Proof.
  intros [Hw Hb _] Hs. destruct (LinearizerView.order_spec l Hw Hs Hb) as (c & rest & Ec & Eo & [Hc Hn] & _).
  exists c, rest. split_and!; [done..|]. by apply (LinearizerView.order_length l).
Qed.

(** Payloads are never replaced, so a fold does not depend on later ones. *)
Lemma fold_nodes_mono (ps ps' : gmap NodeId bytes) (p : P) nodes :
  ps ⊆ ps' -> Forall (λ n, n ∈ dom ps) nodes -> fold_nodes ps' p nodes = fold_nodes ps p nodes.
Proof.
  intros Hs Hn. revert p. induction Hn as [|n nodes [x Hx]%elem_of_dom _ IH]; intros p; [done|].
  unfold fold_nodes in *. cbn [foldl]. rewrite IH. f_equal. unfold fold_node, payload_of.
  by rewrite Hx, (lookup_weaken _ _ _ _ Hx Hs).
Qed.

Lemma fold_nodes_app (ps : gmap NodeId bytes) (p : P) a b :
  fold_nodes ps p (a ++ b) = fold_nodes ps (fold_nodes ps p a) b.
Proof. apply foldl_app. Qed.

Lemma folded_mono r l ps pe fl : folded r fl -> payloads r ⊆ ps -> folded (set_dag r l ps pe) fl.
Proof.
  intros (Hl & Hn & Hp) Hs. split_and!; [done| |].
  - eapply Forall_impl; [exact Hn|]. cbn. intros n. apply subseteq_dom in Hs. set_solver.
  - cbn. by rewrite Hp, (fold_nodes_mono (payloads r) ps).
Qed.

(** The nodes of an order are delivered. *)
Lemma finalized_stored M l ps pe fin :
  dag M l ps pe -> lin_small l -> finalized l = Done fin -> Forall (λ n, n ∈ dom ps) fin.
Proof.
  intros Hd Hs Hf. destruct (d_lin _ _ _ _ Hd) as [Hw Hb _].
  destruct (LinearizerView.confirmed_view_spec l Hw Hs Hb) as (o & Eo & Hc). unfold finalized in Hf.
  assert (fin = base l ++ o) as -> by congruence. apply Forall_forall. intros n Hn.
  rewrite (d_ps _ _ _ _ Hd). by eapply causal_nodes.
Qed.

(** The room after the first half of [advance], given the finalized prefix. *)
Definition extended r (fin : list NodeId) : Room S F P :=
  if (finalized_len r <? length fin)%nat then
    set_finalized r (fold_nodes (payloads r) (finalized_proj r) (drop (finalized_len r) fin)) (length fin)
      (finalized_since_poll r ++ deltas (payloads r) (finalized_len r) (drop (finalized_len r) fin))
  else r.

(** The room after [advance], given the two orders. *)
Definition advanced r (fin ord : list NodeId) : Room S F P :=
  let r1 := extended r fin in
  set_live r1 (fold_nodes (payloads r) (reset_to (live_proj r) (snapshot (finalized_proj r1)))
    (drop (finalized_len r1) ord)).

Lemma advance_spec r (Q : unit -> Room S F P -> Prop) (R : Error E OE -> Room S F P -> Prop) :
  lin_ok (lin r) -> lin_small (lin r) -> (finalized_len r <= size (deps (lin r)))%nat ->
  (forall fin rest, finalized (lin r) = Done fin -> Linearizer.order (lin r) = Done (fin ++ rest) ->
     length (fin ++ rest) = size (deps (lin r)) -> Q tt (advanced r fin (fin ++ rest))) ->
  wp advance Q R r.
Proof.
  intros Hl Hs Hf HQ. destruct (lin_views (lin r) Hl Hs) as (fin & rest & Ef & Eo & Hlen).
  specialize (HQ fin rest Ef Eo Hlen). unfold advanced, extended in HQ. rewrite length_app in Hlen.
  apply wp_bind. eapply wp_calls; [exact Ef|]. apply wp_bind, wp_modify, wp_bind, wp_modify.
  destruct (Nat.ltb_spec (finalized_len r) (length fin)) as [Hlt|Hge].
  - apply wp_bind. eapply wp_calls; [exact Eo|]. apply wp_bind.
    eapply wp_calls; [unfold slice_from; cbn [set_live set_finalized finalized_len];
      rewrite (proj2 (Nat.leb_le _ _)) by (rewrite length_app; lia); reflexivity|].
    by apply wp_modify.
  - apply wp_bind. eapply wp_calls; [exact Eo|]. apply wp_bind.
    eapply wp_calls; [unfold slice_from; cbn [set_live finalized_len];
      rewrite (proj2 (Nat.leb_le _ _)) by (rewrite length_app; lia); reflexivity|].
    by apply wp_modify.
Qed.

(** The folds touch neither the cores nor the DAG. *)
Lemma advanced_cores L r fin ord : cores_ok L r -> cores_ok L (advanced r fin ord).
Proof. intros []. unfold advanced, extended. destruct (_ <? _)%nat; by constructor. Qed.

Lemma advanced_deliveries M r fin rest :
  deliveries_ok M r -> lin_small (lin r) -> finalized (lin r) = Done fin ->
  length (fin ++ rest) = size (deps (lin r)) -> deliveries_ok M (advanced r fin (fin ++ rest)).
Proof.
  intros [Hd Hf (fl & Hl & Hn & Hp)] Hs Ef Hlen. rewrite length_app in Hlen. unfold advanced, extended.
  pose proof (finalized_stored M _ _ _ _ Hd Hs Ef) as Hin.
  destruct (Nat.ltb_spec (finalized_len r) (length fin)); constructor; cbn; try done; [lia| |by exists fl].
  exists (fl ++ drop (finalized_len r) fin). split_and!; cbn.
  - rewrite length_app, length_drop. lia.
  - apply Forall_app. split; [done|by apply Forall_drop].
  - by rewrite fold_nodes_app, Hp.
Qed.

(** Only the cores and the feeds matter to [cores_ok], and only the DAG to
    [deliveries_ok]. *)
Lemma cores_frame L r r' :
  cores_ok L r -> local_key r' = local_key r -> local r' = local r -> remotes r' = remotes r -> cores_ok L r'.
Proof. intros [] Ek El Er. constructor; by rewrite ?Ek, ?El, ?Er. Qed.

Lemma deliveries_frame M r r' :
  deliveries_ok M r -> lin r' = lin r -> payloads r' = payloads r -> pending r' = pending r ->
  finalized_len r' = finalized_len r -> finalized_proj r' = finalized_proj r -> genesis_proj r' = genesis_proj r ->
  deliveries_ok M r'.
Proof.
  intros [Hd Hf Hfl] El Ep Ee Ef Ev Eg. constructor; rewrite ?El, ?Ep, ?Ee, ?Ef; try done.
  destruct Hfl as [fl Hfl]. exists fl. unfold folded. by rewrite Ep, Ef, Ev, Eg.
Qed.

(** ** Deliveries *)

Lemma try_add_spec M M' r n e k (Q : unit -> Room S F P -> Prop) (R : Error E OE -> Room S F P -> Prop) :
  deliveries_ok M r -> extends M M' n e -> roomy (Datatypes.S k) r ->
  (forall l ps pe, let r' := set_dag r l ps pe in
     deliveries_ok M' r' -> roomy k r' -> same_config (lin r) l -> deps (lin r) ⊆ deps l -> payloads r ⊆ ps -> Q tt r') ->
  wp (try_add_node n e) Q R r.
Proof.
  intros [Hd Hf [fl Hfl]] He Hr HQ. apply wp_modify.
  pose proof (offer_dag M M' (lin r) (payloads r) (pending r) n e Hd He) as Ho.
  pose proof (offer_total (lin r) (payloads r) (pending r) n e) as Ht.
  assert (Hgo : forall l ps pe, offer (lin r) (payloads r) (pending r) n e = (l, ps, pe) -> Q tt (set_dag r l ps pe)).
  { intros l ps pe Eo. rewrite Eo in Ho, Ht. destruct Ho as (H1 & H2 & H3 & H4), Ht as [H5 H6].
    apply HQ; [split; [done|cbn; lia|exists fl; by apply folded_mono]|unfold roomy in *; cbn; lia|done..]. }
  unfold offer in Hgo. destruct (add (lin r) n (Wire.heads e)) as [l' [[]|[]]]; by apply Hgo.
Qed.

Lemma drain_spec' M r k (Q : unit -> Room S F P -> Prop) (R : Error E OE -> Room S F P -> Prop) :
  deliveries_ok M r -> roomy k r ->
  (forall l ps pe, let r' := set_dag r l ps pe in
     deliveries_ok M r' -> roomy k r' -> same_config (lin r) l -> deps (lin r) ⊆ deps l -> payloads r ⊆ ps ->
     settled l pe -> Q tt r') ->
  wp drain_pending Q R r.
Proof.
  intros [Hd Hf [fl Hfl]] Hr HQ. unfold wp, drain_pending.
  destruct (drain_loop_spec M (Datatypes.S (length (pending r))) (lin r) (payloads r) (pending r) Hd)
    as (l & ps & pe & Ed & H1 & H2 & H3 & H4 & H5); [lia|].
  pose proof (drain_loop_total _ _ _ _ _ _ _ Ed) as [H6 H7]. rewrite Ed. rsimpl.
  apply HQ; [split; [done|cbn; lia|exists fl; by apply folded_mono]|unfold roomy in *; cbn; lia|done..].
Qed.

(** ** Calls on the cores *)

Lemma wp_local {A} (m : act (Hypercore S) (Hypercore.Error E) A) r
    (Q : A -> Room S F P -> Prop) (R : Error E OE -> Room S F P -> Prop) :
  wp m (λ a c, Q a (set_local r c)) (λ e c, R (Hypercore_ e) (set_local r c)) (local r) -> wp (on_local m) Q R r.
Proof. unfold wp, on_local. by destruct (m (local r)) as [[c [a|e]]| |]. Qed.

Lemma wp_replica {A} w (m : act (Replica S) (Hypercore.Error E) A) r rep
    (Q : A -> Room S F P -> Prop) (R : Error E OE -> Room S F P -> Prop) :
  remotes r !! w = Some rep ->
  wp m (λ a rep', Q a (set_remotes r (<[w := rep']> (remotes r))))
       (λ e rep', R (Hypercore_ e) (set_remotes r (<[w := rep']> (remotes r)))) rep ->
  wp (on_replica w m) Q R r.
Proof. unfold wp, on_replica. intros ->. rsimpl. by destruct (m rep) as [[c [a|e]]| |]. Qed.

(** ** How rooms and feeds change *)

Definition grows L L' : Prop := forall w bs, L !! w = Some bs -> exists x, L' !! w = Some (bs ++ x).

Record kept r r' : Prop := mkKept {
  kp_key : local_key r' = local_key r;
  kp_origin : origin r' = origin r;
  kp_genesis : genesis_proj r' = genesis_proj r;
  kp_config : same_config (lin r) (lin r');
  kp_deps : deps (lin r) ⊆ deps (lin r');
  kp_payloads : payloads r ⊆ payloads r' }.

(** A call took the room from [L] to [L']. *)
Definition stepped L r L' r' : Prop := room_ok L' r' /\ grows L L' /\ kept r r'.

Lemma grows_refl L : grows L L.
Proof. intros w bs Hw. exists []. by rewrite app_nil_r. Qed.
Lemma grows_trans L1 L2 L3 : grows L1 L2 -> grows L2 L3 -> grows L1 L3.
Proof.
  intros H1 H2 w bs (x & Hx)%H1. destruct (H2 w _ Hx) as (y & Hy). exists (x ++ y). by rewrite app_assoc.
Qed.
Lemma grows_insert L w bs x : L !! w = Some bs \/ L !! w = None /\ bs = [] -> grows L (<[w := bs ++ x]> L).
Proof.
  intros Hw v vs Hv. destruct (decide (v = w)) as [->|Hne].
  - exists x. rewrite lookup_insert_eq. destruct Hw as [Hw|[Hw _]]; congruence.
  - exists []. by rewrite lookup_insert_ne, app_nil_r.
Qed.

Lemma kept_refl r : kept r r.
Proof. by constructor. Qed.
Lemma kept_trans r1 r2 r3 : kept r1 r2 -> kept r2 r3 -> kept r1 r3.
Proof.
  intros [] []. constructor; try congruence; [by eapply same_config_trans|by etrans|by etrans].
Qed.
Lemma kept_frame r r' :
  local_key r' = local_key r -> origin r' = origin r -> genesis_proj r' = genesis_proj r -> lin r' = lin r ->
  payloads r' = payloads r -> kept r r'.
Proof. intros E1 E2 E3 E4 E5. constructor; try done; rewrite ?E4, ?E5; done. Qed.
Lemma kept_advanced r fin ord : kept r (advanced r fin ord).
Proof. unfold advanced, extended. destruct (_ <? _)%nat; by apply kept_frame. Qed.
Lemma kept_dag r l ps pe :
  same_config (lin r) l -> deps (lin r) ⊆ deps l -> payloads r ⊆ ps -> kept r (set_dag r l ps pe).
Proof. by constructor. Qed.

(** A replica put in place of what the room had for its writer. *)
Lemma cores_set_remote L r w rep bs :
  cores_ok L r -> w <> local_key r -> Identity.from_bytes w = Some (rp_public rep) -> replica_of bs rep ->
  replica_disk w rep bs -> (forall i b, bs !! i = Some b -> attested w (N.of_nat i) b) ->
  cores_ok (<[w := bs]> L) (set_remotes r (<[w := rep]> (remotes r))).
Proof.
  intros [Hk (lg & Hlg & Hall & Hll) Hr Hdk Hrd Hd Ha] Hw Hpk Hrep Hsv Hat. constructor; cbn; [done| | | | | |].
  - exists lg. by rewrite lookup_insert_ne.
  - intros v rep'. destruct (decide (v = w)) as [->|Hne].
    + rewrite !lookup_insert_eq. intros [= <-]. split_and!; [done..|by exists bs].
    + rewrite !lookup_insert_ne by done. apply Hr.
  - intros vs. rewrite lookup_insert_ne by done. apply Hdk.
  - intros v rep' vs. destruct (decide (v = w)) as [->|Hne].
    + rewrite !lookup_insert_eq. by intros [= <-] [= <-].
    + rewrite !lookup_insert_ne by done. apply Hrd.
  - intros v. destruct (decide (v = w)) as [->|Hne]; [rewrite !lookup_insert_eq; by right; eexists|].
    rewrite !lookup_insert_ne by done. apply Hd.
  - intros v vs i b Hv. destruct (decide (v = w)) as [->|Hne].
    + rewrite lookup_insert_eq. intros [= <-]. apply Hat.
    + rewrite lookup_insert_ne by done. by apply Ha.
Qed.

Lemma cores_set_local L r c lg :
  cores_ok L r -> repr lg c -> all_held lg -> Hypercore.public c = Hypercore.public (local r) ->
  own_disk (E:=E) (Hypercore.author c) (Hypercore.store c) (l_blocks lg) ->
  cores_ok (<[local_key r := l_blocks lg]> L) (set_local r c).
Proof.
  intros [Hk _ Hr Hdk Hrd Hd Ha] Hlg Hall Hpk Hsv. constructor; cbn; [by rewrite Hpk| | | | | |].
  - exists lg. by rewrite lookup_insert_eq.
  - intros v rep Hv. destruct (Hr v rep Hv) as (Hne & Hb & bs & Hv2 & Hrep). split_and!; [done..|].
    exists bs. by rewrite lookup_insert_ne.
  - intros bs. rewrite lookup_insert_eq. by intros [= <-].
  - intros v rep bs Hv. destruct (Hr v rep Hv) as (Hne & _). rewrite lookup_insert_ne by done. by apply Hrd.
  - intros v. destruct (decide (v = local_key r)) as [->|Hne]; [by left|]. rewrite lookup_insert_ne by done. apply Hd.
  - intros v vs i b Hv. rewrite lookup_insert_ne by done. by apply Ha.
Qed.

(** The entries of a feed with one more block. *)
Lemma entry_snoc L w bs enc :
  L !! w = Some bs ->
  match Codec.decode enc with
  | Ok e => extends (entry_of L) (entry_of (<[w := bs ++ [enc]]> L)) (mkNode w (lenN bs)) e
  | Err _ => forall n, entry_of L n = entry_of (<[w := bs ++ [enc]]> L) n
  end.
Proof.
  intros Hw.
  assert (Hother : forall m, m <> mkNode w (lenN bs) -> entry_of (<[w := bs ++ [enc]]> L) m = entry_of L m).
  { intros [k i] Hne. unfold entry_of. cbn [key seq]. destruct (decide (k = w)) as [->|Hk].
    - rewrite lookup_insert_eq, Hw. rsimpl. unfold entry_in.
      destruct (decide (N.to_nat i < length bs)%nat) as [Hlt|Hge]; [by rewrite lookup_app_l|].
      assert (i <> lenN bs) by (intros ->; done).
      rewrite !lookup_ge_None_2; [done|lia|rewrite length_app; cbn; unfold lenN in *; lia].
    - by rewrite lookup_insert_ne. }
  assert (Hnew : entry_of (<[w := bs ++ [enc]]> L) (mkNode w (lenN bs)) = match Codec.decode enc with Ok e => Some e | Err _ => None end).
  { unfold entry_of. cbn [key seq]. rewrite lookup_insert_eq. rsimpl. unfold entry_in, lenN. by rewrite Nat2N.id, list_lookup_middle. }
  assert (Hold : entry_of L (mkNode w (lenN bs)) = None).
  { unfold entry_of. cbn [key seq]. rewrite Hw. rsimpl. unfold entry_in, lenN. by rewrite Nat2N.id, lookup_ge_None_2. }
  destruct (Codec.decode enc) as [e|]; [split_and!; [done|by left|done]|].
  intros n. destruct (decide (n = mkNode w (lenN bs))) as [->|Hne]; [congruence|by rewrite Hother].
Qed.

Lemma entry_empty L w n : L !! w = None -> entry_of L n = entry_of (<[w := []]> L) n.
Proof.
  intros Hw. unfold entry_of. destruct (decide (key n = w)) as [<-|Hne].
  - by rewrite lookup_insert_eq, Hw.
  - by rewrite lookup_insert_ne.
Qed.

Lemma deliveries_ext M M' r : (forall n, M n = M' n) -> deliveries_ok M r -> deliveries_ok M' r.
Proof. intros He []. constructor; [by eapply dag_ext|done..]. Qed.

(** A block offered against any head: taken exactly when it is the next one and
    verifies under the owner's key. *)
Lemma add_block_any bs h i enc p (rep : Replica S) :
  replica_of bs rep -> lenN bs < Flat.max_blocks -> u64_ok (lenN enc) -> u64_ok (Hypercore.h_fork h) ->
  Store.fits i enc ->
  wp (Replica.add_block h i enc p)
    (λ ok rep', ok = (i =? lenN bs) && Hypercore.verify_block (rp_public rep) h i enc p
                /\ if ok : bool then replica_of (bs ++ [enc]) rep' /\ rp_public rep' = rp_public rep
                      /\ rp_head rep' = head_after rep (bs ++ [enc]) h
                   else rep' = rep) (rfailed rep) rep.
Proof.
  intros Hr Hn Hu Hfk Hf. assert (Elen : Replica.Replica_len rep = lenN bs) by apply (o_tree _ _ Hr).
  apply wp_bind, wp_reads. rewrite Elen. destruct (N.eqb_spec i (lenN bs)) as [->|]; [|by apply wp_ret].
  cbn [negb andb]. apply wp_bind, wp_reads. destruct (Hypercore.verify_block _ h _ enc p) eqn:Ev; [|by apply wp_ret].
  cbn [negb]. apply wp_bind, wp_rput; [apply Hr|done| |intros Hsf s' e; split_and!; eauto]. intros s Hi Hc.
  apply wp_bind. unfold wp at 1. cbn [Replica.set_rstore rp_tree].
  destruct (append_full bs (rp_tree rep) enc) as (t & -> & Ht); [apply Hr|done|]. rsimpl.
  apply wp_bind, (match_head_spec (bs ++ [enc])); [done|rewrite lenN_snoc; lia|]. apply wp_ret. split; [done|]. split_and!.
  - unfold Hypercore.verify_block in Ev. apply andb_true_iff in Ev as [[Ev _]%andb_true_iff _].
    eapply (replica_append bs rep _ enc s t h); try done; unfold head_after; by destruct (_ && _).
  - by destruct (_ && _).
  - unfold head_after. by destruct (_ && _).
Qed.
End Inv.
End RoomInv.
