(* ===== verification/RoomView.v ===== *)
(** * [roomnet]: what a room shows

    The finalized and the live state as folds over the order ([current]), and how
    the calls of [src/crates/roomnet/src/room.rs] carry them along: as long as the
    finalized prefix is only extended, an [advance] shows the whole order. *)
From S2P Require Import Prelude Codec Merkle MerkleSpec MerkleProofs Store Identity Linearizer LinearizerDag LinearizerView.
From S2P Require Import LinearizerTheorems Hypercore HypercoreLog.
From S2P Require Import Replica Wire Room RoomDag RoomInv.

Module RoomView.
Import Linearizer LinearizerDag LinearizerTheorems MerkleSpec HypercoreLog Room RoomDag RoomInv.

Section View.
Context `{HL : HasherLaws} `{EL : Ed25519Laws} {S E : Type} `{SL : Store.StoreLaws S E}
  {F OE : Type} `{!StoreFactory F S OE, !FactoryLaws F S OE E} {P State PE : Type} `{!Projection P State PE}
  `{PL : !ProjectionLaws P State PE}.
Implicit Types (r : Room S F P) (L : feeds).

(** The order the DAG gives, split at the finalized prefix. *)
Definition ordered (l : Linearizer) (fin rest : list NodeId) : Prop :=
  finalized l = Done fin /\ Linearizer.order l = Done (fin ++ rest).

Definition shows r (fin rest : list NodeId) : Prop :=
  ordered (lin r) fin rest /\ folded r fin
  /\ snapshot (live_proj r) = snapshot (fold_nodes (payloads r) (genesis_proj r) (fin ++ rest)).

(** The finalized state is the fold of the finalized prefix, the live state that of
    the whole order. *)
Definition current r : Prop := exists fin rest, shows r fin rest.

(** The finalized prefix of the DAG was only extended. *)
Definition finality_kept r r' : Prop :=
  forall fin fin', finalized (lin r) = Done fin -> finalized (lin r') = Done fin' -> fin `prefix_of` fin'.

(** Every node of the finalized prefix was folded and queued for the poll. *)
Definition caught_up r : Prop := forall fin, finalized (lin r) = Done fin -> (length fin <= finalized_len r)%nat.

(** What a call promises the folds. *)
Definition follows r r' : Prop := (finality_kept r r' -> current r -> current r') /\ (caught_up r -> caught_up r').

(** Calls that leave the finalized fold for [advance] to extend. *)
Record banked r r' : Prop := mkBanked {
  bk_len : finalized_len r' = finalized_len r;
  bk_proj : finalized_proj r' = finalized_proj r;
  bk_genesis : genesis_proj r' = genesis_proj r;
  bk_payloads : payloads r ⊆ payloads r' }.

(** Calls that leave the DAG and both folds. *)
Record quiet r r' : Prop := mkQuiet {
  qt_lin : lin r' = lin r;
  qt_pending : pending r' = pending r;
  qt_payloads : payloads r' = payloads r;
  qt_len : finalized_len r' = finalized_len r;
  qt_final : finalized_proj r' = finalized_proj r;
  qt_genesis : genesis_proj r' = genesis_proj r;
  qt_live : live_proj r' = live_proj r }.

Lemma banked_trans r1 r2 r3 : banked r1 r2 -> banked r2 r3 -> banked r1 r3.
Proof. intros [] []. constructor; [congruence..|by etrans]. Qed.
Lemma quiet_banked r r' : quiet r r' -> banked r r'.
Proof. intros [El Ee Ep En Ef Eg Ev]. constructor; [done..|]. by rewrite Ep. Qed.
Lemma quiet_refl r : quiet r r.
Proof. by constructor. Qed.
Lemma quiet_trans r1 r2 r3 : quiet r1 r2 -> quiet r2 r3 -> quiet r1 r3.
Proof. intros [] []. constructor; congruence. Qed.

Lemma quiet_follows r r' : quiet r r' -> follows r r'.
Proof.
  intros [El _ Ep En Ef Eg Ev]. split.
  - intros _ (fin & rest & Ho & Hf & Hl). exists fin, rest. unfold shows, folded in *. by rewrite El, Ep, En, Ef, Eg, Ev.
  - unfold caught_up. by rewrite El, En.
Qed.
Lemma quiet_settled r r' : quiet r r' -> settled (lin r) (pending r) -> settled (lin r') (pending r').
Proof. intros [El Ee _ _ _ _ _]. by rewrite El, Ee. Qed.

(** A fold is a function of the state it starts from. *)
Lemma fold_snapshot (ps : gmap NodeId bytes) (p q : P) nodes :
  snapshot p = snapshot q -> snapshot (fold_nodes ps p nodes) = snapshot (fold_nodes ps q nodes).
Proof.
  revert p q. induction nodes as [|n nodes IH]; intros p q Hpq; [done|]. apply IH. unfold fold_node.
  case_bool_decide; [done|]. by apply apply_state.
Qed.

Lemma folded_prefix M r fl fin :
  deliveries_ok M r -> lin_small (lin r) -> finalized (lin r) = Done fin -> folded r fl -> fl `prefix_of` fin ->
  folded (extended r fin) fin.
Proof.
  intros [Hd _ _] Hs Ef (Hl & Hn & Hp) [x ->].
  pose proof (finalized_stored M _ _ _ _ Hd Hs Ef) as Hin. unfold extended. rewrite <- Hl.
  destruct (Nat.ltb_spec (length fl) (length (fl ++ x))) as [Hlt|Hge].
  - split_and!; cbn; [done|done|]. by rewrite drop_app_length, fold_nodes_app, Hp.
  - rewrite length_app in Hge. destruct x; [|cbn in Hge; lia]. rewrite app_nil_r. done.
Qed.

Lemma advanced_current M r fl fin rest :
  deliveries_ok M r -> lin_small (lin r) -> ordered (lin r) fin rest -> folded r fl -> fl `prefix_of` fin ->
  shows (advanced r fin (fin ++ rest)) fin rest.
Proof.
  intros Hd Hs [Ef Eo] Hfl Hpre. pose proof (folded_prefix M r fl fin Hd Hs Ef Hfl Hpre) as Hfin.
  unfold advanced, shows, ordered. set (r1 := extended r fin) in *.
  assert (Hsame : lin r1 = lin r /\ payloads r1 = payloads r /\ genesis_proj r1 = genesis_proj r)
    by (subst r1; unfold extended; by destruct (_ <? _)%nat). destruct Hsame as (E1 & E2 & E3).
  destruct Hfin as (Hl & Hn & Hp). cbn [lin set_live live_proj payloads genesis_proj].
  rewrite E1. split_and!; [done..| |].
  - split_and!; [done..|]. exact Hp.
  - rewrite <- Hl, drop_app_length, fold_nodes_app, E2, E3. apply fold_snapshot.
    rewrite reset_snapshot, Hp. by rewrite E2, E3.
Qed.

(** What [advance] promises the folds: they follow any prefix already folded. *)
Definition carries r r' : Prop :=
  forall fl fin, finalized (lin r) = Done fin -> folded r fl -> fl `prefix_of` fin -> current r'.

Lemma carries_follows r0 r r' fin :
  banked r0 r -> lin r' = lin r -> finalized (lin r) = Done fin -> carries r r' -> caught_up r' -> follows r0 r'.
Proof.
  intros [Hl Hp Hg Hsub] El Ef Hc Hup. split; [|done]. intros Hfin (fin0 & rest0 & [Ef0 _] & (Hl0 & Hn0 & Hp0) & Hv0).
  apply (Hc fin0 fin); [done| |apply Hfin; [done|by rewrite El]]. split_and!; [by rewrite Hl| |].
  - eapply Forall_impl; [exact Hn0|]. intros n. apply subseteq_dom in Hsub. cbn. set_solver.
  - by rewrite Hp, Hg, Hp0, (fold_nodes_mono (payloads r0) (payloads r)).
Qed.

Lemma advanced_frame r fin ord :
  let r' := advanced r fin ord in
  lin r' = lin r /\ pending r' = pending r /\ payloads r' = payloads r /\ local r' = local r
  /\ remotes r' = remotes r /\ own_recovery r' = own_recovery r.
Proof. unfold advanced, extended. by destruct (_ <? _)%nat. Qed.

Lemma advanced_caught_up r fin ord : finalized (lin r) = Done fin -> caught_up (advanced r fin ord).
Proof.
  intros Ef fin'. rewrite (proj1 (advanced_frame r fin ord)). intros Ef'. assert (fin' = fin) as -> by congruence.
  unfold advanced, extended. destruct (Nat.ltb_spec (finalized_len r) (length fin)); cbn; lia.
Qed.

(** [advance], in one rule: the room stays well formed, the folds follow. *)
Lemma advance_rule L r (Q : unit -> Room S F P -> Prop) (R : Error E OE -> Room S F P -> Prop) :
  room_ok L r -> roomy 0 r ->
  (forall fin rest, let r' := advanced r fin (fin ++ rest) in
     ordered (lin r) fin rest -> room_ok L r' -> kept r r' -> carries r r' -> caught_up r' ->
     lin r' = lin r -> pending r' = pending r -> payloads r' = payloads r -> local r' = local r ->
     remotes r' = remotes r -> own_recovery r' = own_recovery r -> Q tt r') ->
  wp advance Q R r.
Proof.
  intros [Hc Hd] Hr HQ. pose proof (roomy_small _ _ Hr) as Hs.
  apply advance_spec; [apply Hd|done|apply Hd|]. intros fin rest Ef Eo Hlen.
  destruct (advanced_frame r fin (fin ++ rest)) as (E1 & E2 & E3 & E4 & E5 & E6).
  apply HQ; [done| |apply kept_advanced| |by apply advanced_caught_up|done..].
  - split; [by apply advanced_cores|by apply advanced_deliveries].
  - intros fl fin' Ef' Hfl Hpre. assert (fin' = fin) as -> by congruence. exists fin, rest.
    by apply (advanced_current (entry_of L) r fl).
Qed.
End View.
End RoomView.
