(* ===== verification/RoomOps.v ===== *)
(** * [roomnet]: every method keeps the room

    One lemma per method of [src/crates/roomnet/src/room.rs]: from a room that is
    [room_ok] it does not panic, a success keeps the room and says what was done,
    and an error is one the method names, or the store's. *)
From S2P Require Import Prelude Codec Flat Merkle MerkleSpec MerkleProofs Store Identity Linearizer LinearizerDag LinearizerView.
From S2P Require Import LinearizerTheorems Hypercore HypercoreLog HypercoreOps HypercoreDurable HypercoreTheorems.
From S2P Require Import Replica ReplicaTheorems Wire Room RoomCore RoomDag RoomInv RoomView.

Module RoomOps.
Import Linearizer LinearizerDag LinearizerTheorems.
Import MerkleSpec HypercoreLog HypercoreDurable ReplicaTheorems Room RoomCore RoomDag RoomInv RoomView.
Import Hypercore (Hypercore, SignedHead, h_fork, h_length).
Import Replica (Replica, rp_public, rp_head, rp_tree, rp_store).
Import Wire (SyncMessage, Head, Have, Want, Block).

Section Ops.
Context `{HL : HasherLaws} `{EL : Ed25519Laws} {S E : Type} `{SL : Store.StoreLaws S E}
  {F OE : Type} `{!StoreFactory F S OE, !FactoryLaws F S OE E} {P State PE : Type} `{!Projection P State PE}
  `{PL : !ProjectionLaws P State PE}.
Implicit Types (r : Room S F P) (L : feeds) (R : Error E OE -> Room S F P -> Prop).

(** ** Blocks of other writers *)

(** The replica a block of a writer goes to: the one held, or a fresh one. *)
Definition replica_for r (w : WriterKey) : option (Replica S) :=
  match remotes r !! w with
  | Some rep => Some rep
  | None =>
      match Identity.from_bytes w, (factory_open (factory r) w).2 with
      | Some pk, Ok s => Some (Replica.Replica_new pk s)
      | _, _ => None
      end
  end.

(** The store handed out for a new writer was never persisted to. *)
Definition blank_store r (w : WriterKey) : Prop :=
  forall rep, replica_for r w = Some rep -> remotes r !! w = None -> remote_disk (E:=E) w (rp_store rep) None.

(** What the store must hold, and the bounds of the integers. *)
Definition block_ok r (w : WriterKey) (h : SignedHead) (i : N) (bs : bytes) (p : Merkle.Proof_) : Prop :=
  u64_ok (lenN bs) /\ u64_ok (h_fork h) /\ Store.fits i bs /\ roomy 1 r /\ blank_store r w
  /\ forall rep, replica_for r w = Some rep ->
       Replica.Replica_len rep < Flat.max_blocks
       /\ forall rep', Replica.add_block (E:=E) h i bs p rep = Done (rep', Ok true) ->
            Store.fits Hypercore.KEY_TREE (Merkle.serialize (rp_tree rep'))
            /\ Store.fits Hypercore.KEY_META (Replica.encode_replica_meta (rp_head rep')).

(** The refusals of a block. *)
Definition intake_error r (w : WriterKey) (bs : bytes) (e : Error E OE) : Prop :=
  e = BadWriterKey /\ Identity.from_bytes w = None
  \/ (exists oe, e = StoreOpen oe /\ replica_for r w = None)
  \/ exists ce, e = Codec_ ce /\ Codec.decode (T:=Wire.Entry) bs = Err ce.

Definition store_error (e : Error E OE) : Prop := store_fails (S:=S) (E:=E) /\ exists e', e = Hypercore_ (Hypercore.Storage e').

(** The feed of a writer a block is added to. *)
Definition feed_of L (w : WriterKey) (bs : list bytes) : Prop := L !! w = Some bs \/ L !! w = None /\ bs = [].

(** The same blocks; a writer may have appeared, without any. *)
Definition same_feeds L L' : Prop := forall w, default [] (L' !! w) = default [] (L !! w).

Lemma rfailed_store (rep rep' : Replica S) e : rfailed rep e rep' -> store_error (Hypercore_ e).
Proof. intros (Hf & [e' ->] & _). split; [done|by eexists]. Qed.

Lemma ensure_replica_spec L r w bs :
  room_ok L r -> w <> local_key r -> blank_store r w ->
  wp (ensure_replica w)
    (λ _ r', exists old rep, remotes r' !! w = Some rep /\ replica_for r w = Some rep /\ replica_of old rep
       /\ stepped L r (<[w := old]> L) r' /\ feed_of L w old
       /\ quiet r r')
    (λ e r', replica_for r w = None /\ intake_error r w bs e /\ stepped L r L r' /\ quiet r r') r.
Proof.
  intros [Hc Hd] Hw Hbl. unfold ensure_replica, replica_for in *. apply wp_bind, wp_reads.
  destruct (remotes r !! w) as [rep|] eqn:Er.
  - rewrite bool_decide_true by done. apply wp_ret. destruct (k_remote _ _ Hc w rep Er) as (_ & _ & old & Hb & Hrep).
    exists old, rep. rewrite insert_id by done. split_and!; try done; [|by left]. split_and!; [done|apply grows_refl|apply kept_refl].
  - assert (HLw : L !! w = None).
    { apply eq_None_not_Some. intros Hs. destruct (k_dom _ _ Hc w Hs) as [?|[rep' Hr']]; [done|]. congruence. }
    rewrite bool_decide_false by (by intros [? ?]). apply wp_bind. unfold wp at 1, tries.
    destruct (Identity.from_bytes w) as [pk|] eqn:Epk; cbn [ok_or].
    2: { split; [done|]. split; [by left|]. split; [|apply quiet_refl]. split_and!; [done|apply grows_refl|apply kept_refl]. }
    apply wp_bind. unfold wp at 1, open_store. destruct (factory_open (factory r) w) as [f' [s|oe]] eqn:Ef; cbn [map_err snd].
    2: { split; [done|]. split; [right; left; exists oe; split; [done|unfold replica_for; by rewrite Er, Epk, Ef]|]. split; [|by constructor].
         split_and!; [|apply grows_refl|by apply kept_frame].
         split; [by eapply cores_frame|by eapply deliveries_frame]. }
    apply wp_modify. pose proof (new_replica pk s (factory_store _ _ _ _ Ef)) as Hnew.
    exists [], (Replica.Replica_new pk s). cbn. rewrite lookup_insert_eq. split_and!; try done; [|by right].
    assert (Hc' : cores_ok L (set_factory r f')) by (by eapply cores_frame).
    split_and!; [split| |by apply kept_frame].
    + apply (cores_set_remote L (set_factory r f') w); [done..| |done].
      right; right. split; [done|]. specialize (Hbl (Replica.Replica_new pk s)). unfold replica_for in Hbl. rewrite Er, Epk, Ef in Hbl. by apply Hbl.
    + eapply deliveries_frame; [eapply deliveries_ext; [|exact Hd]|done..]. intros n. by apply entry_empty.
    + rewrite <- (app_nil_r []). apply grows_insert. by right.
Qed.

(** Whether a block is the next one of its writer and verifies. *)
Definition accepts r (w : WriterKey) (h : SignedHead) (i : N) (bs : bytes) (p : Merkle.Proof_) : bool :=
  match replica_for r w with
  | Some rep => (i =? Replica.Replica_len rep) && Hypercore.verify_block (rp_public rep) h i bs p
  | None => false
  end.

(** The block [bs] was added to the feed of [w]. *)
Definition added L r (w : WriterKey) (h : SignedHead) (i : N) (bs : bytes) L' r' : Prop :=
  exists old rep rep', feed_of L w old /\ i = lenN old /\ L' = <[w := old ++ [bs]]> L
    /\ replica_for r w = Some rep /\ remotes r' !! w = Some rep' /\ rp_head rep' = head_after rep (old ++ [bs]) h.

Lemma same_feeds_new L w bs : feed_of L w bs -> same_feeds L (<[w := bs]> L).
Proof.
  intros Hf v. destruct (decide (v = w)) as [->|Hne]; [|by rewrite lookup_insert_ne].
  rewrite lookup_insert_eq. by destruct Hf as [->|[-> ->]].
Qed.

(** What [persist] left of a replica. *)
Lemma saved_replica w (rep rep' : Replica S) bs :
  Identity.from_bytes w = Some (rp_public rep) -> (exists s, rep' = Replica.set_rstore rep s) -> replica_of bs rep' ->
  Store.contents (rp_store rep') !! Hypercore.KEY_TREE = Some (Merkle.serialize (rp_tree rep)) ->
  Store.contents (rp_store rep') !! Hypercore.KEY_META = Some (Replica.encode_replica_meta (rp_head rep)) ->
  replica_disk (E:=E) w rep' bs.
Proof.
  intros Hw (s & ->) Hof Et Em.
  destruct (replica_open_saved bs _ Hof Et Em) as [?|(rep2 & Eo & Eh & Ep & Es & Hof2)]; [by left|right; left].
  exists (rp_public rep). split; [done|]. exists rep2. split_and!; [done..|].
  unfold verified_part. rewrite Eh. cbn [Replica.set_rstore rp_head]. destruct (rp_head rep) as [h|]; [|done].
  by rewrite take_take, Nat.min_id.
Qed.

(** The cores with a verified block more. *)
Lemma cores_block L r w h bs p old rep rep' :
  cores_ok (<[w := old]> L) r -> remotes r !! w = Some rep ->
  Hypercore.verify_block (rp_public rep) h (lenN old) bs p = true ->
  replica_of (old ++ [bs]) rep' -> rp_public rep' = rp_public rep -> replica_disk (E:=E) w rep' (old ++ [bs]) ->
  cores_ok (<[w := old ++ [bs]]> L) (set_remotes r (<[w := rep']> (remotes r))).
Proof.
  intros Hc Er Hv Hof Hpub Hdk. destruct (k_remote _ _ Hc w rep Er) as (Hw & Hpk & _).
  rewrite <- (insert_insert_eq L w (old ++ [bs]) old). apply cores_set_remote; [done..|by rewrite Hpub|done|done|].
  intros j b [Hj|[Hge Hj]]%lookup_app_Some.
  - apply (k_auth _ _ Hc w old j b); [done|by rewrite lookup_insert_eq|done].
  - apply list_lookup_singleton_Some in Hj as [Hj0 <-].
    replace (N.of_nat j) with (lenN old) by (unfold lenN; lia). by exists (rp_public rep), h, p.
Qed.

Lemma ingest_spec L r w h i bs p :
  room_ok L r -> w <> local_key r -> block_ok r w h i bs p ->
  wp (ingest_remote_block w h i bs p)
    (λ ok r', exists L', stepped L r L' r' /\ roomy 0 r'
       /\ ok = accepts r w h i bs p
       /\ if ok : bool then banked r r' /\ (exists e, Codec.decode (T:=Wire.Entry) bs = Ok e) /\ added L r w h i bs L' r'
          else same_feeds L L' /\ quiet r r')
    (λ e r', store_error e \/ intake_error r w bs e /\ exists L', stepped L r L' r' /\ quiet r r'
       /\ if accepts r w h i bs p then added L r w h i bs L' r' else same_feeds L L') r.
Proof.
  intros Hr Hw (Hu & Hfk & Hfit & Hsz & Hbl & Hrep). apply wp_bind.
  eapply wp_mono; [by apply (ensure_replica_spec L r w bs)| |].
  2: { intros e r' (Hn & He & Hs & Hq). right. split; [done|]. exists L. unfold accepts. by rewrite Hn. }
  intros [] r1 (old & rep & Er1 & Efor & Hof & (Hok1 & Hg1 & Hk1) & Hold & Hq1).
  destruct (Hrep rep Efor) as [Hlen Hpf]. assert (Eln : Replica.Replica_len rep = lenN old) by apply (o_tree _ _ Hof).
  destruct Hok1 as [Hc1 Hd1].
  apply wp_bind, (wp_replica w _ _ rep); [done|].
  pose proof (add_block_any old h i bs p rep Hof ltac:(lia) Hu Hfk Hfit) as Hadd.
  unfold wp in Hadd |- * at 1. destruct (Replica.add_block h i bs p rep) as [[rep2 [[]|e]]| |] eqn:Eadd; [..|done|done].
  3: { left. by eapply rfailed_store. }
  2: { destruct Hadd as [Hacc ->]. cbn [negb]. apply wp_ret. exists (<[w := old]> L). rewrite (insert_id (remotes r1)) by done. split; [|split].
       - split_and!; [split|done|].
         + by eapply cores_frame.
         + by eapply deliveries_frame.
         + eapply kept_trans; [exact Hk1|by apply kept_frame].
       - destruct Hq1 as [El Ee _ _ _ _ _]. unfold roomy in *. cbn. rewrite El, Ee. lia.
       - unfold accepts. rewrite Efor, Eln. split; [done|]. split; [by apply same_feeds_new|].
         eapply quiet_trans; [exact Hq1|by constructor]. }
  destruct Hadd as [Hacc (Hof2 & Hpub & Hhd)]. symmetry in Hacc. apply andb_true_iff in Hacc as [Ei%N.eqb_eq Hv]. cbn [negb]. destruct (Hpf rep2 eq_refl) as [Hft Hfm].
  set (r2 := set_remotes r1 (<[w := rep2]> (remotes r1))). apply wp_bind, (wp_replica w _ _ rep2); [apply lookup_insert_eq|].
  eapply wp_mono; [by apply (replica_persist_saves (old ++ [bs]) rep2 Hof2)| |].
  2: { intros e rep' He. left. by eapply rfailed_store. }
  intros [] rep3 ((s3 & E3) & Hof3 & Et3 & Em3). cbn [r2 set_remotes remotes]. rewrite insert_insert_eq.
  set (r3 := set_remotes _ _).
  assert (Hc3 : cores_ok (<[w := old ++ [bs]]> L) r3).
  { apply (cores_frame _ (set_remotes r1 (<[w := rep3]> (remotes r1)))); [|done..].
    eapply (cores_block L r1 w h bs p old rep); [done|done|by rewrite <- Ei|done|rewrite E3; exact Hpub|].
    apply (saved_replica w rep2); [rewrite Hpub; by eapply k_remote|by exists s3|done..]. }
  assert (Hacc' : accepts r w h i bs p = true) by (unfold accepts; by rewrite Efor, Eln, Hv, Ei, N.eqb_refl).
  assert (Hadd : added L r w h i bs (<[w := old ++ [bs]]> L) r3).
  { exists old, rep, rep3. split_and!; [done..|apply lookup_insert_eq|by rewrite E3]. }
  assert (Hg3 : grows L (<[w := old ++ [bs]]> L)) by (by apply grows_insert).
  assert (Hk3 : kept r r3) by (eapply kept_trans; [exact Hk1|by apply kept_frame]).
  assert (Hd3 : deliveries_ok (entry_of (<[w := old]> L)) r3) by (by eapply deliveries_frame).
  pose proof (entry_snoc (<[w := old]> L) w old bs (lookup_insert_eq _ _ _)) as Hent. rewrite insert_insert_eq in Hent.
  apply wp_bind. unfold wp at 1, tries. destruct (Codec.decode bs) as [e|ce] eqn:Edec; cbn [map_err].
  2: { right. split; [right; right; by exists ce|]. exists (<[w := old ++ [bs]]> L).
       split; [split_and!; [split|done|done]; [done|by eapply deliveries_ext]|].
       split; [eapply quiet_trans; [exact Hq1|by constructor]|]. by rewrite Hacc'. }
  apply wp_bind. rewrite Ei. eapply (try_add_spec _ _ r3 _ e 0); [exact Hd3|exact Hent|destruct Hq1 as [El Ee _ _ _ _ _]; unfold roomy in *; cbn; by rewrite El, Ee|].
  intros l ps pe r4 Hd4 Hsz4 Hcfg Hdeps Hps. apply wp_bind, wp_modify, wp_ret. exists (<[w := old ++ [bs]]> L).
  assert (Hd5 : deliveries_ok (entry_of (<[w := old ++ [bs]]> L)) (set_activity r4 (wrap64 (last_activity r4 + 1))))
    by (by eapply deliveries_frame).
  split; [split_and!; [split; [by eapply cores_frame|done]|done|]|split; [done|split; [|split; [|split; [by exists e|]]]]].
  - eapply kept_trans; [exact Hk3|]. by constructor.
  - by rewrite <- Ei.
  - eapply banked_trans; [by apply quiet_banked|]. by constructor.
  - by rewrite <- Ei.
Qed.
(** What every call that ends with [advance] promises. *)
Definition carried L r L' r' : Prop := stepped L r L' r' /\ roomy 0 r' /\ follows r r'.

Lemma carried_quiet L r L' r' : stepped L r L' r' -> roomy 0 r' -> quiet r r' -> carried L r L' r'.
Proof. intros. split_and!; [done..|by apply quiet_follows]. Qed.

(** What the last steps of a call leave alone. *)
Definition cores_same r r' : Prop :=
  local r' = local r /\ remotes r' = remotes r /\ own_recovery r' = own_recovery r.

(** Between the first change of a call and its [advance]. *)
Definition ongoing L0 r0 L r : Prop := stepped L0 r0 L r /\ roomy 0 r /\ banked r0 r.

Lemma ongoing_touch L0 r0 L r n : ongoing L0 r0 L r -> ongoing L0 r0 L (set_activity r n).
Proof.
  intros (([Hc Hd] & Hg & Hk) & Hr & Hb). split_and!.
  - split_and!; [split; [by eapply cores_frame|by eapply deliveries_frame]|done|].
    eapply kept_trans; [exact Hk|by apply kept_frame].
  - exact Hr.
  - eapply banked_trans; [exact Hb|by constructor].
Qed.

Lemma drain_rule L0 r0 L r R :
  ongoing L0 r0 L r ->
  wp drain_pending (λ _ r', ongoing L0 r0 L r' /\ settled (lin r') (pending r') /\ cores_same r r') R r.
Proof.
  intros (([Hc Hd] & Hg & Hk) & Hr & Hb). apply (drain_spec' (entry_of L) r 0); [done..|].
  intros l ps pe r1 Hd1 Hr1 Hcfg Hdeps Hps Hset.
  split_and!; [split_and!; [split_and!; [split; [by eapply cores_frame|done]|done|]|done|]|done..].
  - eapply kept_trans; [exact Hk|by apply kept_dag].
  - eapply banked_trans; [exact Hb|by constructor].
Qed.

Lemma advance_end L0 r0 L r R :
  ongoing L0 r0 L r ->
  wp advance (λ _ r', carried L0 r0 L r' /\ lin r' = lin r /\ pending r' = pending r /\ payloads r' = payloads r
    /\ cores_same r r') R r.
Proof.
  intros ((Hok & Hg & Hk) & Hr & Hb). apply (advance_rule L); [done..|].
  intros fin rest r' [Hfin _] Hok' Hk' Hcar Hup El Ee Ep Elo Erm Eor.
  split_and!; [split_and!; [split_and!; [done|done|]| |]|done..].
  - by eapply kept_trans.
  - unfold roomy in *. by rewrite El, Ee.
  - by eapply carries_follows.
Qed.

Lemma on_block_remote L r w h i bs p :
  room_ok L r -> w <> local_key r -> block_ok r w h i bs p ->
  wp (on_block w h i bs p)
    (λ out r', exists L', carried L r L' r'
       /\ (settled (lin r) (pending r) -> settled (lin r') (pending r'))
       /\ if accepts r w h i bs p
          then out = [block_out w h i bs p Clients] /\ (exists e, Codec.decode (T:=Wire.Entry) bs = Ok e)
            /\ added L r w h i bs L' r'
          else out = [] /\ same_feeds L L' /\ quiet r r')
    (λ e r', store_error e \/ intake_error r w bs e /\ exists L', stepped L r L' r' /\ quiet r r'
       /\ if accepts r w h i bs p then added L r w h i bs L' r' else same_feeds L L') r.
Proof.
  intros Hr Hw Hb. apply wp_bind, wp_reads. rewrite bool_decide_false by done. apply wp_bind.
  eapply wp_mono; [by apply (ingest_spec L)| |done]. intros ok r1 (L' & Hst & Hsz & -> & Hif).
  destruct (accepts r w h i bs p).
  - destruct Hif as [Hbk [Hent (old & rep & rep' & Hold & Ei & -> & Efor & Er & Eh)]].
    apply wp_bind. eapply wp_mono; [by apply (drain_rule L r (<[w := old ++ [bs]]> L))| |exact (λ _ _ X, X)]. intros [] r2 (Hon & Hset & C1 & C2 & C3).
    apply wp_bind. eapply wp_mono; [by apply (advance_end L r (<[w := old ++ [bs]]> L))| |exact (λ _ _ X, X)]. intros [] r3 (Hca & El & Ee & _ & D1 & D2 & D3).
    apply wp_ret. exists (<[w := old ++ [bs]]> L). split_and!; [done|by rewrite El, Ee|done|done|]. exists old, rep, rep'. by rewrite D2, C2.
  - destruct Hif as [Hsf Hq]. apply wp_ret. exists L'.
    split_and!; [by apply carried_quiet|by apply quiet_settled|done..].
Qed.
(** ** The own feed *)

(** What appending [op] stores fits. *)
Definition append_ok r (op : bytes) : Prop :=
  let e := Wire.mkEntry (bset_list (Linearizer.heads (lin r))) op in
  let enc := Codec.encode e in
  roomy 1 r /\ Wire.entry_ok e /\ Hypercore.len (local r) < Flat.max_blocks /\ u64_ok (lenN enc)
  /\ Store.fits (Hypercore.len (local r)) enc
  /\ forall c i, Hypercore.append e (local r) = Done (c, Ok i) -> core_fits c.

(** The refusals of [local_append]. *)
Definition append_refused r (e : Error E OE) : Prop :=
  e = RecoveringOwnFeed /\ own_recovery r <> None
  \/ e = OwnFeedPending /\ 0 < Hypercore.len (local r)
     /\ mkNode (local_key r) (Hypercore.len (local r) - 1) ∉ dom (deps (lin r)).

(** The next node of a writer whose last one is delivered is delivered at once. *)
Lemma next_add M l ps pe k s e :
  dag M l ps pe -> M (mkNode k s) = None -> (0 < s -> mkNode k (s - 1) ∈ dom (deps l)) ->
  (forall h, h ∈ Wire.heads e -> h ∈ dom (deps l)) ->
  exists l', add l (mkNode k s) (Wire.heads e) = (l', Ok tt).
Proof.
  intros Hd HM Hprev Hh. destruct (d_lin _ _ _ _ Hd) as [Hw _ _].
  assert (Hnew : mkNode k s ∉ dom (deps l)).
  { intros [ds Hds]%elem_of_dom. destruct (d_in _ _ _ _ Hd _ _ Hds) as (e' & He' & _). congruence. }
  assert (Hexp : s = expected_seq l k).
  { rewrite (wf_next l Hw) in Hnew. destruct (decide (0 < s)) as [Hpos|]; [|lia].
    specialize (Hprev Hpos). rewrite (wf_next l Hw) in Hprev. lia. }
  pose proof (add_cases l (mkNode k s) (Wire.heads e)) as Hc.
  assert (Hrdy : ready l (mkNode k s) (Wire.mkEntry (Wire.heads e) [])) by (split; [exact Hexp|exact Hh]).
  destruct (add l (mkNode k s) (Wire.heads e)) as [l' [[]|[]]]; [by exists l'|..]; tauto.
Qed.

Lemma heads_stored l h : h ∈ bset_list (Linearizer.heads l) -> h ∈ dom (deps l).
Proof. rewrite bset_list_elem. unfold Linearizer.heads. rewrite elem_of_filter. tauto. Qed.
(** The two calls on the core: the log has one more block, and is saved. *)
Lemma wp_own_append {A} r lg e (k : act (Room S F P) (Error E OE) A) (Q : A -> Room S F P -> Prop) R :
  repr lg (local r) -> Hypercore.len (local r) < Flat.max_blocks -> u64_ok (lenN (Codec.encode e)) ->
  Store.fits (Hypercore.len (local r)) (Codec.encode e) ->
  (forall c i, Hypercore.append e (local r) = Done (c, Ok i) -> core_fits c) ->
  (forall c, repr (spec_append lg (Codec.encode e)) c -> saved c (Hypercore.store c) ->
     Hypercore.public c = Hypercore.public (local r) -> wp k Q R (set_local r c)) ->
  (forall er r', store_error er -> R er r') ->
  wp (_ ← on_local (Hypercore.append e); _ ← on_local Hypercore.persist; k) Q R r.
Proof.
  intros Hr Hn Hu Hf Hfits Hk HR. assert (El : Hypercore.len (local r) = l_len lg) by apply (r_tree _ _ (proj1 Hr)).
  rewrite El in Hn, Hf. apply wp_bind, wp_local.
  pose proof (append_core lg (local r) e Hr Hn Hu Hf) as Ha. unfold wp in Ha |- * at 1.
  destruct (Hypercore.append e (local r)) as [[c [i|er]]| |]; [|destruct Ha as (Hsf & e' & ->); apply HR; split; [done|by eexists]|done..].
  destruct Ha as [Hr' Hp]. apply wp_bind, wp_local. cbn [set_local local].
  eapply wp_mono; [apply (persist_core (spec_append lg (Codec.encode e)) c Hr'); by eapply Hfits| |].
  - intros [] c2 (Hr2 & Hsv & Hp2). apply (Hk c2 Hr2 Hsv). congruence.
  - intros er c2 (Hsf & e' & ->). apply HR. split; [done|by eexists].
Qed.

(** The new block enters the DAG at once: every head it names is there. *)
Lemma own_delivery L r c lg e old :
  let enc := Codec.encode e in
  let node := mkNode (local_key r) (lenN old) in
  let L' := <[local_key r := old ++ [enc]]> L in
  room_ok L r -> roomy 1 r -> repr lg c -> all_held lg -> saved c (Hypercore.store c) -> l_blocks lg = old ++ [enc] ->
  Hypercore.public c = Hypercore.public (local r) -> L !! local_key r = Some old -> Codec.decode enc = Ok e ->
  (0 < lenN old -> mkNode (local_key r) (lenN old - 1) ∈ dom (deps (lin r))) ->
  (forall h, h ∈ Wire.heads e -> h ∈ dom (deps (lin r))) ->
  ongoing L r L' (set_dag (set_local r c) (Linearizer.add (lin r) node (Wire.heads e)).1
                    (<[node := Wire.payload e]> (payloads r)) (pending r)).
Proof.
  intros enc node L' [Hc Hd] Hsz Hr Hall Hsv Hlg Hp HL' Hdec Hprev Hh.
  pose proof (entry_snoc L (local_key r) old enc HL') as Hext. rewrite Hdec in Hext.
  assert (Hnone : entry_of L node = None).
  { unfold entry_of. cbn. rewrite HL'. cbn. unfold entry_in, lenN. by rewrite Nat2N.id, lookup_ge_None_2. }
  destruct (next_add _ _ _ _ _ _ _ (k_dag _ _ Hd) Hnone Hprev Hh) as [l' Ea].
  pose proof (offer_dag _ _ _ _ _ _ _ (k_dag _ _ Hd) Hext) as Ho. unfold offer in Ho. fold node in Ea, Ho.
  rewrite Ea in Ho |- *. cbn [fst]. destruct Ho as (Hd' & Hcfg & Hdeps & Hps).
  pose proof (add_size _ _ _ _ Ea) as Hsize. split_and!; [split_and!; [split| |]| |].
  - unfold L'. rewrite <- Hlg. eapply cores_frame; [by apply (cores_set_local L r c lg); [..|apply saved_disk]|done..].
  - destruct Hd as [_ Hf [fl Hfl]]. constructor; cbn; [done|lia|]. exists fl. by apply folded_mono.
  - rewrite <- (app_nil_r old) in HL'. unfold L'. apply grows_insert. left. by rewrite HL', app_nil_r.
  - by constructor.
  - unfold roomy, total in *. cbn. lia.
  - by constructor.
Qed.

Lemma local_append_spec L r op old :
  let e := Wire.mkEntry (bset_list (Linearizer.heads (lin r))) op in
  let enc := Codec.encode e in
  room_ok L r -> L !! local_key r = Some old -> append_ok r op ->
  wp (local_append op)
    (λ out r', carried L r (<[local_key r := old ++ [enc]]> L) r' /\ pending r' = pending r
       /\ payloads r' !! mkNode (local_key r) (lenN old) = Some op
       /\ exists h p, Hypercore.head (local r') = Some h /\ h_length h = lenN old + 1
          /\ Hypercore.verify_block (Hypercore.public (local r)) h (lenN old) enc p = true
          /\ out = [mkOut (Head (local_key r) h) Gossip; block_out (local_key r) h (lenN old) enc p Clients])
    (λ e r', store_error e \/ r' = r /\ append_refused r e) r.
Proof.
  intros e enc Hok HLo (Hsz & Hent & Hn & Hu & Hfit & Hfits). pose proof Hok as [Hc Hd].
  destruct (k_local _ _ Hc) as (lg & Hlg & Hall & HLlg). assert (Eold : l_blocks lg = old) by congruence.
  assert (Elen : Hypercore.len (local r) = lenN old) by (rewrite <- Eold; apply (r_tree _ _ (proj1 Hlg))).
  apply wp_bind, wp_reads. destruct (own_recovery r) as [rec|] eqn:Erec; [apply wp_fail; right; split; [done|left]; by rewrite Erec|].
  apply wp_bind, wp_reads, wp_bind, wp_reads, wp_bind, wp_reads. rewrite Elen.
  destruct (_ && _) eqn:Ew.
  { apply wp_fail. right. split; [done|right]. apply andb_true_iff in Ew as [Hpos%N.ltb_lt Hnc%negb_true_iff].
    rewrite Elen. split_and!; [done..|]. by apply contains_false. }
  assert (Hprev : 0 < lenN old -> mkNode (local_key r) (lenN old - 1) ∈ dom (deps (lin r))).
  { intros Hpos%N.ltb_lt. rewrite Hpos in Ew. apply negb_false_iff in Ew. by apply contains_spec. }
  apply wp_bind, wp_reads. fold e.
  apply (wp_own_append r lg e); [done..| |by left]. intros c Hr2 Hsv2 Hp2.
  apply wp_bind, wp_modify.
  assert (Hall2 : all_held (spec_append lg enc)) by (by apply all_held_append).
  assert (Hb2 : l_blocks (spec_append lg enc) = old ++ [enc]) by (unfold spec_append; cbn; by rewrite Eold).
  pose proof (own_delivery L r c _ e old Hok Hsz Hr2 Hall2 Hsv2 Hb2 Hp2 HLo (Wire.entry_roundtrip e Hent) Hprev
    (heads_stored (lin r))) as Hon.
  apply wp_bind, wp_modify, wp_bind. eapply wp_mono; [by apply (advance_end L r (<[local_key r := old ++ [enc]]> L)), ongoing_touch| |exact (λ _ _ X, X)].
  intros [] r5 (Hca & _ & Ee & Eps & Elo & _). cbn in Ee, Eps, Elo.
  destruct (block_servable (spec_append lg enc) c (lenN old) enc Hr2 Hall2) as (h & p & Eh & Ehl & Ep & Hv & Hblk).
  { rewrite Hb2. unfold lenN. by rewrite Nat2N.id, list_lookup_middle. }
  rewrite <- Elo in Eh, Ep, Hv, Hblk. apply wp_bind. eapply wp_calls; [by rewrite Eh|].
  apply wp_bind, wp_asks. destruct Hblk as [Eb|(er & Eb & Hsf & e' & ->)]; rewrite Eb; cbn [map_err].
  2: { left. split; [done|by eexists]. }
  apply wp_bind. eapply wp_runs; [done|]. apply wp_bind. eapply wp_calls; [exact Ep|].
  apply wp_bind. eapply wp_runs; [done|]. apply wp_ret. split_and!; [done..|rewrite Eps; apply lookup_insert_eq|]. exists h, p.
  unfold l_len in Ehl. rewrite Hb2, lenN_snoc in Ehl. rewrite Elo, Hp2 in Hv. done.
Qed.

Lemma own_length L r old : room_ok L r -> L !! local_key r = Some old -> Hypercore.len (local r) = lenN old.
Proof.
  intros [Hc _] HLo. destruct (k_local _ _ Hc) as (lg & Hlg & _ & HLlg). assert (l_blocks lg = old) as <- by congruence.
  apply (r_tree _ _ (proj1 Hlg)).
Qed.

(** It goes ahead only when neither refusal applies. *)
Lemma append_guarded r op r' out :
  local_append (E:=E) (OE:=OE) op r = Done (r', Ok out) ->
  own_recovery r = None
  /\ (0 < Hypercore.len (local r) -> mkNode (local_key r) (Hypercore.len (local r) - 1) ∈ dom (deps (lin r))).
Proof.
  unfold local_append, mbind, act_bind, reads. cbn. destruct (own_recovery r); [done|].
  destruct ((0 <? Hypercore.len (local r)) && negb _) eqn:Ew; [done|]. intros _. split; [done|].
  intros Hpos%N.ltb_lt. rewrite Hpos in Ew. apply negb_false_iff in Ew. by apply contains_spec.
Qed.
End Ops.
End RoomOps.
