(* ===== verification/RoomRecovery.v ===== *)
(** * [roomnet]: the own feed comes back from peers

    [begin_own_recovery] and [recover_own_block] of
    [src/crates/roomnet/src/room.rs]: blocks of the own feed, verified one by one
    under an own head, are buffered until they continue the local log up to the
    head, then adopted and delivered. *)
From S2P Require Import Prelude Codec Flat Merkle MerkleSpec MerkleProofs Store Bitfield Identity Linearizer LinearizerDag LinearizerView.
From S2P Require Import LinearizerTheorems Hypercore HypercoreMeta HypercoreLog HypercoreOps HypercoreDurable HypercoreTheorems.
From S2P Require Import MerkleHistory Replica ReplicaTheorems Wire Room RoomCore RoomDag RoomInv RoomView RoomOps.

Module RoomRecovery.
Import Linearizer LinearizerDag LinearizerTheorems.
Import MerkleSpec HypercoreLog HypercoreDurable ReplicaTheorems Room RoomCore RoomDag RoomInv RoomView RoomOps.
Import Hypercore (Hypercore, SignedHead, h_fork, h_length, h_root).

Section Recovery.
Context `{HL : HasherLaws} `{EL : Ed25519Laws} {S E : Type} `{SL : Store.StoreLaws S E}
  {F OE : Type} `{!StoreFactory F S OE, !FactoryLaws F S OE E} {P State PE : Type} `{!Projection P State PE}
  `{PL : !ProjectionLaws P State PE}.
Implicit Types (r : Room S F P) (L : feeds) (R : Error E OE -> Room S F P -> Prop).

(** The room after [begin_own_recovery] was not refused. *)
Definition begun r (head : SignedHead) : Room S F P :=
  match own_recovery r with
  | Some (target, _) => if h_length head <=? h_length target then r else set_recovery r (Some (head, ∅))
  | None => set_recovery r (Some (head, ∅))
  end.

(** A head of the same length as the target must be the target. *)
Definition clashes r (head : SignedHead) : bool :=
  match own_recovery r with
  | Some (target, _) => (h_length head =? h_length target) && negb (bool_decide (head = target))
  | None => false
  end.

(** The head is signed with the own key, for the own fork. *)
Definition own_head r (head : SignedHead) : bool :=
  Hypercore.verify_signed_head (Hypercore.public (local r)) head && (h_fork head =? Hypercore.fork (local r)).

(** The target grows, or is confirmed; a head that cannot be the own one and a
    second head of the target's length are refused. *)
Lemma begin_recovery_spec r head :
  wp (begin_own_recovery head) (λ _ r', own_head r head = true /\ clashes r head = false /\ r' = begun r head)
    (λ (e : Error E OE) r', e = Hypercore_ Hypercore.Corrupt /\ r' = r /\ own_head r head && negb (clashes r head) = false) r.
Proof.
  apply wp_bind, wp_reads. unfold own_head, clashes, begun, corrupt.
  destruct (Hypercore.verify_signed_head _ head); cbn [negb orb andb]; [|by apply wp_fail].
  destruct (h_fork head =? _); cbn [negb andb]; [|by apply wp_fail].
  apply wp_bind, wp_reads. destruct (own_recovery r) as [[target bl]|] eqn:Er; [|by apply wp_modify].
  destruct (N.ltb_spec (h_length head) (h_length target)) as [Hlt|Hge].
  { apply wp_ret. rewrite (proj2 (N.eqb_neq _ _)), (proj2 (N.leb_le _ _)) by lia. done. }
  destruct (N.eqb_spec (h_length head) (h_length target)) as [Heq|Hne]; cbn [andb].
  - rewrite (proj2 (N.leb_le _ _)) by lia. case_bool_decide; [by apply wp_ret|by apply wp_fail].
  - rewrite (proj2 (N.leb_gt _ _)) by lia. by apply wp_modify.
Qed.

Lemma begun_quiet r head : quiet r (begun r head).
Proof. unfold begun. destruct (own_recovery r) as [[t bl]|]; [destruct (_ <=? _)|]; by constructor. Qed.

Lemma begun_frame r head : local (begun r head) = local r /\ remotes (begun r head) = remotes r.
Proof. unfold begun. by destruct (own_recovery r) as [[t bl]|]; [destruct (_ <=? _)|]. Qed.

Lemma begun_target r head : exists target bl, own_recovery (begun r head) = Some (target, bl).
Proof.
  unfold begun. destruct (own_recovery r) as [[t bl]|] eqn:Er; [destruct (_ <=? _)|]; [|by repeat eexists..].
  exists t, bl. done.
Qed.

(** Recovery state is no part of what a room keeps. *)
Lemma stepped_recovery L r o : room_ok L r -> stepped L r L (set_recovery r o).
Proof.
  intros [Hc Hd]. split_and!; [|apply grows_refl|by apply kept_frame].
  split; [by eapply cores_frame|by eapply deliveries_frame].
Qed.
Lemma stepped_begun L r head : room_ok L r -> stepped L r L (begun r head).
Proof.
  intros Hr. unfold begun.
  destruct (own_recovery r) as [[t bl]|]; [destruct (_ <=? _)|]; [|by apply stepped_recovery..].
  split_and!; [done|apply grows_refl|apply kept_refl].
Qed.
(** ** Adoption *)

(** The suffix a block completes, if it does. *)
Definition completes r (head : SignedHead) (index : N) (bs : bytes) : option (SignedHead * list bytes) :=
  let start := Hypercore.len (local r) in
  if h_length head <=? start then None
  else
    '(target, bl) ← own_recovery (begun r head);
    if negb (bool_decide (head = target)) || (index <? start) then None
    else suffix ← mapM (λ i, <[index := bs]> bl !! i) (rangeN start (h_length target)); Some (target, suffix).

(** What adopting the completed suffix stores fits. *)
Definition recovery_ok r (old : list bytes) (head : SignedHead) (index : N) (bs : bytes) : Prop :=
  roomy 0 r /\ forall target suffix, completes r head index bs = Some (target, suffix) ->
    roomy (length suffix) r /\ adopt_fits (local r) old target suffix.

(** Reading an own block back fails with the store, or the block is no entry. *)
Definition own_error (e : Error E OE) : Prop := store_error (S:=S) e \/ exists ce, e = Hypercore_ (Hypercore.Codec_ ce).

(** The store fails, or one of the blocks is no entry. *)
Definition adopt_error (suffix : list bytes) (e : Error E OE) : Prop :=
  store_error (S:=S) e
  \/ exists b ce, b ∈ suffix /\ Codec.decode (T:=Wire.Entry) b = Err ce /\ e = Hypercore_ (Hypercore.Codec_ ce).
Lemma adopt_own_error suffix e : adopt_error suffix e -> own_error e.
Proof. intros [?|(b & ce & _ & _ & ->)]; [by left|right; by eexists]. Qed.

(** The room while the first [k] of the recovered blocks are in the DAG. *)
Record adopting L r0 old suffix (c : Hypercore S) (k : nat) r : Prop := mkAdopting {
  ad_core : local r = c;
  ad_remotes : remotes r = remotes r0;
  ad_recovery : own_recovery r = None;
  ad_deliveries : deliveries_ok (entry_of (<[local_key r0 := old ++ take k suffix]> L)) r;
  ad_kept : kept r0 r;
  ad_banked : banked r0 r;
  ad_roomy : roomy (length suffix - k) r }.

Lemma adopt_one L r0 old suffix c lg k b r :
  repr lg c -> all_held lg -> l_blocks lg = old ++ suffix -> suffix !! k = Some b ->
  adopting L r0 old suffix c k r ->
  wp (adopt_own (lenN old + N.of_nat k)) (λ _, adopting L r0 old suffix c (Datatypes.S k)) (λ e _, adopt_error suffix e) r.
Proof.
  intros Hr Hall Hlg Hb [Hc Hrm Hrec Hd Hk Hbk Hsz].
  assert (Hlt : (k < length suffix)%nat) by (by eapply lookup_lt_Some).
  set (M := <[local_key r0 := old ++ take k suffix]> L) in Hd.
  assert (Hlen : lenN (old ++ take k suffix) = lenN old + N.of_nat k).
  { unfold lenN. rewrite length_app, length_take. lia. }
  apply wp_bind, wp_asks. rewrite Hc.
  destruct (HypercoreTheorems.get_spec lg c (lenN old + N.of_nat k) Hr) as [Hg|(Hsf & er & Hg)]; rewrite Hg; cbn [map_err].
  2: { left. split; [done|by eexists]. }
  assert (Hvis : visible lg (lenN old + N.of_nat k) = Some b).
  { unfold visible. rewrite Hall, Hlg.
    - rewrite lookup_app_r by (unfold lenN; lia). rewrite <- Hb. f_equal. unfold lenN. lia.
    - unfold l_len. rewrite Hlg, lenN_app. unfold lenN. lia. }
  pose proof (entry_snoc M (local_key r0) (old ++ take k suffix) b (lookup_insert_eq _ _ _)) as Hext.
  rewrite Hvis. destruct (Codec.decode b) as [e|ce] eqn:Edec; cbn [map_err]; rsimpl.
  2: { right. exists b, ce. split_and!; [by eapply list_elem_of_lookup_2|done|done]. }
  apply wp_bind. unfold wp at 1. cbn [tries ok_or]. apply wp_bind, wp_reads. rewrite (kp_key _ _ Hk).
  rewrite <- Hlen. unfold M in Hext. rewrite insert_insert_eq, <- app_assoc, <- (take_S_r _ _ _ Hb) in Hext.
  eapply (try_add_spec _ _ _ _ _ (length suffix - Datatypes.S k)); [exact Hd|exact Hext| |].
  - unfold roomy in *. lia.
  - intros l ps pe r' Hd' Hsz' Hcfg Hdeps Hps. constructor; try done.
    + eapply kept_trans; [exact Hk|by apply kept_dag].
    + eapply banked_trans; [exact Hbk|by constructor].
Qed.

Lemma adopt_all L r0 old suffix c lg r :
  repr lg c -> all_held lg -> l_blocks lg = old ++ suffix -> adopting L r0 old suffix c 0 r ->
  wp (for_each (rangeN (lenN old) (lenN old + lenN suffix)) adopt_own)
    (λ _, adopting L r0 old suffix c (length suffix)) (λ e _, adopt_error suffix e) r.
Proof.
  intros Hr Hall Hlg H1.
  set (Inv := λ (rest : list N) r', exists k, (k <= length suffix)%nat
    /\ rest = rangeN (lenN old + N.of_nat k) (lenN old + lenN suffix) /\ adopting L r0 old suffix c k r').
  eapply wp_mono; [apply (wp_for_each Inv)| |exact (λ _ _ X, X)].
  - exists 0%nat. split_and!; [lia|by rewrite N.add_0_r|done].
  - intros i rest r' (k & Hk & Er & Ha). destruct (decide (k = length suffix)) as [->|Hne].
    { rewrite rangeN_nil in Er; [done|unfold lenN; lia]. }
    rewrite rangeN_cons in Er by (unfold lenN; lia). injection Er as -> ->.
    destruct (lookup_lt_is_Some_2 suffix k) as [b Hb]; [lia|].
    eapply wp_mono; [by apply (adopt_one L r0 old suffix c lg k b)| |done].
    intros [] r2 Ha2. exists (Datatypes.S k). split_and!; [lia|f_equal; lia|done].
  - intros [] r' (k & Hk & Er & Ha). destruct (decide (k = length suffix)) as [->|Hne]; [done|].
    rewrite rangeN_cons in Er by (unfold lenN; lia). done.
Qed.
(** ** A block of the own feed *)

(** The block is the one the head says, under the own key. *)
Definition own_block r (head : SignedHead) (index : N) (bs : bytes) (p : Merkle.Proof_) : bool :=
  (index <? h_length head) && Hypercore.verify_block (Hypercore.public (local r)) head index bs p.

(** The log after the suffix was adopted. *)
Definition recovered L r old (target : SignedHead) (suffix : list bytes) r' : Prop :=
  carried L r (<[local_key r := old ++ suffix]> L) r' /\ settled (lin r') (pending r')
  /\ own_recovery r' = None /\ Hypercore.head (local r') = Some target
  /\ h_length target = lenN old + lenN suffix /\ h_root target = ref_root_hash (old ++ suffix).

(** What the refusals and failures leave. *)
Definition recovery_error L r (e : Error E OE) r' : Prop :=
  own_error e \/ e = Hypercore_ Hypercore.Corrupt /\ stepped L r L r' /\ quiet r r'.

(** The room once the block is in the buffer, when it is one that is missing. *)
Definition buffered r (head : SignedHead) (index : N) (bs : bytes) : Room S F P :=
  let r1 := begun r head in
  match own_recovery r1 with
  | Some (target, bl) =>
      if negb (bool_decide (head = target)) || (index <? Hypercore.len (local r)) then r1
      else set_recovery r1 (Some (target, <[index := bs]> bl))
  | None => r1
  end.

Lemma buffered_kept L r head index bs : room_ok L r -> stepped L r L (buffered r head index bs) /\ quiet r (buffered r head index bs).
Proof.
  intros Hr. pose proof (stepped_begun L r head Hr) as Hst. pose proof (begun_quiet r head) as Hq. unfold buffered.
  destruct (own_recovery _) as [[target bl]|]; [|done]. destruct (_ || _); [done|]. destruct Hst as (Hr1 & _ & Hk1).
  destruct (stepped_recovery L _ (Some (target, <[index := bs]> bl)) Hr1) as (Hr2 & Hg2 & Hk2). split.
  - split_and!; [done|done|by eapply kept_trans].
  - eapply quiet_trans; [exact Hq|by constructor].
Qed.

(** What a block of the own feed does, on every branch: nothing when the local log
    reaches the head; a refusal when it is not the head's block or the head not one
    to recover to; else it is buffered, and when none is missing the suffix is adopted
    exactly when it hashes to the root of the head. *)
Definition recovers L r old (head : SignedHead) (index : N) (bs : bytes) (p : Merkle.Proof_)
    (res : result (Error E OE) unit) r' : Prop :=
  if h_length head <=? lenN old then r' = r /\ res = Ok tt
  else if own_block r head index bs p && own_head r head && negb (clashes r head) then
    match completes r head index bs with
    | None => r' = buffered r head index bs /\ res = Ok tt
    | Some (target, suffix) =>
        if bool_decide (h_root target = ref_root_hash (old ++ suffix)) then
          match res with Ok _ => recovered L r old target suffix r' | Err e => adopt_error suffix e end
        else r' = buffered r head index bs /\ res = Err (Hypercore_ Hypercore.Corrupt)
             \/ exists e, res = Err e /\ store_error (S:=S) e
    end
  else r' = r /\ res = Err (Hypercore_ Hypercore.Corrupt).

(** The missing blocks are all there, or some is not. *)
Lemma suffix_complete (bl : gmap N bytes) (l : list N) :
  if existsb (λ i, negb (bool_decide (is_Some (bl !! i)))) l then mapM (λ i, bl !! i) l = None
  else exists suffix, mapM (λ i, bl !! i) l = Some suffix /\ mapM (λ i, expect (bl !! i)) l = Done suffix.
Proof.
  induction l as [|i l IH]; [by exists []|]. cbn [existsb mapM]. destruct (bl !! i) as [b|] eqn:Eb.
  - rewrite bool_decide_true by done. cbn [negb orb expect]. rsimpl. destruct (existsb _ l).
    + by rewrite IH.
    + destruct IH as (suffix & -> & ->). by exists (b :: suffix).
  - by rewrite bool_decide_false by (by intros [? ?]).
Qed.

(** The last steps: adopt the suffix, deliver its entries, fold. *)
Lemma recover_tail L r0 r old target suffix (start : N) :
  room_ok L r0 -> L !! local_key r0 = Some old -> start = lenN old ->
  stepped L r0 L r -> quiet r0 r -> local r = local r0 -> remotes r = remotes r0 -> roomy (length suffix) r0 ->
  adopt_fits (local r0) old target suffix -> own_head r0 target = true -> h_length target = lenN old + lenN suffix ->
  wp (_ ← on_local (Hypercore.recover_signed_suffix target suffix);
      _ ← modify (λ r, set_recovery r None);
      stop ← reads (λ r, Hypercore.len (local r));
      _ ← for_each (rangeN start stop) adopt_own;
      _ ← drain_pending;
      _ ← touch;
      advance) (λ _, recovered L r0 old target suffix)
    (λ e r', e = Hypercore_ Hypercore.Corrupt /\ r' = r /\ h_root target <> ref_root_hash (old ++ suffix)
       \/ store_error e \/ h_root target = ref_root_hash (old ++ suffix) /\ adopt_error suffix e) r.
Proof.
  intros [Hc0 Hd0] HLo -> Hst Hq Elo Erm Hsz Hfits [Hsig Hfork%N.eqb_eq]%andb_true_iff Hlen.
  destruct (k_local _ _ Hc0) as (lg & Hlg & Hall & HLlg). assert (l_blocks lg = old) as <- by congruence.
  apply wp_bind, wp_local. rewrite Elo. eapply wp_mono; [by apply (recover_core lg)| |].
  2: { intros e c [(-> & Hv & ->)|(Hsf & er & ->)]; [left|right; left; split; [done|by eexists]].
       split_and!; [done|rewrite <- Elo; by destruct r|]. intros Hroot. unfold recover_valid in Hv.
       rewrite (bool_decide_true (_ = _)), Hsig, Hfork, Hlen, (r_fork _ _ (proj1 Hlg)) in Hv by done.
       unfold l_len in Hv. by rewrite !N.eqb_refl in Hv. }
  intros [] c (Hv & Hhd & Hr & Hsv & Hp). apply wp_bind, wp_modify, wp_bind, wp_reads. cbn [set_recovery set_local local].
  unfold recover_valid in Hv. rewrite !andb_true_iff in Hv.
  destruct Hv as [[_ Hroot%bool_decide_eq_true] _].
  set (lg' := spec_adopt lg (l_blocks lg ++ suffix)) in Hr.
  assert (Hlg' : l_blocks lg' = l_blocks lg ++ suffix) by done.
  replace (Hypercore.len c) with (lenN (l_blocks lg) + lenN suffix).
  2: { rewrite <- lenN_app. symmetry. apply (r_tree _ _ (proj1 Hr)). }
  set (r1 := set_recovery (set_local r c) None). destruct Hq as [El Ee Ep En Ef Eg Ev].
  apply wp_bind. eapply wp_mono; [apply (adopt_all L r0 (l_blocks lg) suffix c lg'); [done|apply all_held_adopt|done|]| |].
  { destruct Hst as (_ & _ & Hk). constructor; cbn; try done.
    - rewrite app_nil_r, insert_id by done. by eapply deliveries_frame.
    - eapply kept_trans; [exact Hk|by apply kept_frame].
    - constructor; cbn; [done..|]. by rewrite Ep.
    - unfold roomy in *. cbn. rewrite El, Ee, Nat.sub_0_r. exact Hsz. }
  2: { intros e r' He. by right; right. }
  intros [] r2 [Ac Arm Arec Ad Ak Ab Asz]. rewrite firstn_all in Ad. rewrite Nat.sub_diag in Asz.
  assert (Hon : ongoing L r0 (<[local_key r0 := l_blocks lg ++ suffix]> L) r2).
  { split_and!; [split_and!; [split| |]|done|done]; [|done|by apply grows_insert; left|done].
    apply (cores_frame _ (set_local r0 c)); [|by destruct Ak|done|by rewrite Arm].
    rewrite <- Hlg'. apply cores_set_local; [done|done|apply all_held_adopt|done|]. apply saved_disk; [done|apply all_held_adopt|done]. }
  apply wp_bind. eapply wp_mono; [by apply (drain_rule _ _ _ _ _ Hon)| |exact (λ _ _ X, X)].
  intros [] r3 (Hon3 & Hset & C1 & C2 & C3). apply wp_bind, wp_modify.
  eapply wp_mono; [by apply (advance_end _ _ _ _ _ (ongoing_touch _ _ _ _ _ Hon3))| |exact (λ _ _ X, X)].
  intros [] r4 (Hca & El4 & Ee4 & _ & D1 & D2 & D3). cbn in El4, Ee4, D1, D2, D3.
  split_and!; [done|by rewrite El4, Ee4|congruence| |done|done]. by rewrite D1, C1, Ac.
Qed.

Lemma rangeN_mapM_length (f : N -> option bytes) a b (l : list bytes) : mapM f (rangeN a b) = Some l -> lenN l = b - a.
Proof. intros Hl%length_mapM. unfold lenN. rewrite <- Hl, rangeN_length. lia. Qed.

Lemma recover_exact L r old head index bs p :
  room_ok L r -> L !! local_key r = Some old -> recovery_ok r old head index bs ->
  wp (recover_own_block head index bs p) (λ x, recovers L r old head index bs p (Ok x))
    (λ e, recovers L r old head index bs p (Err e)) r.
Proof.
  intros Hr HLo [Hsz Hfit]. pose proof (own_length L r old Hr HLo) as Hlen.
  destruct (begun_target r head) as (target & bl & Et).
  apply wp_bind, wp_reads. unfold recovers, completes, buffered, own_block in *. rewrite Hlen, Et in *.
  destruct (N.leb_spec (h_length head) (lenN old)) as [Hle|Hgt]; [by apply wp_ret|].
  rewrite (N.ltb_antisym (h_length head) index). destruct (h_length head <=? index); [by apply wp_fail|].
  destruct (Hypercore.verify_block _ head index bs p); [|by apply wp_fail]. cbn [negb orb andb].
  apply wp_bind. eapply wp_mono; [apply begin_recovery_spec| |].
  2: { intros e r' (-> & -> & ->). done. }
  intros [] r1 (Hown & -> & ->). rewrite Hown. cbn [negb andb].
  apply wp_bind. eapply wp_calls; [by rewrite Et|]. cbn [mbind option_bind] in Hfit |- *.
  destruct (negb (bool_decide (head = target)) || (index <? lenN old)) eqn:Eskip; [by apply wp_ret|].
  apply orb_false_iff in Eskip as [->%negb_false_iff%bool_decide_eq_true_1 Hidx].
  set (bl' := <[index := bs]> bl) in *. apply wp_bind, wp_modify.
  pose proof (suffix_complete bl' (rangeN (lenN old) (h_length target))) as Hsuf.
  destruct (existsb _ _); [rewrite Hsuf; rsimpl; by apply wp_ret|]. destruct Hsuf as (suffix & Em & Ex).
  rewrite Em in Hfit |- *. cbn [mbind option_bind] in Hfit |- *. destruct (Hfit target suffix eq_refl) as [Hsz2 Hfits].
  apply wp_bind. eapply wp_runs; [exact Ex|].
  assert (Hsl : h_length target = lenN old + lenN suffix).
  { rewrite (rangeN_mapM_length _ _ _ _ Em). lia. }
  destruct (buffered_kept L r target index bs Hr) as [Hst Hq]. destruct (begun_frame r target) as [Elo Erm].
  unfold buffered in Hst, Hq. rewrite Et, Hlen in Hst, Hq.
  replace (_ || _) with false in Hst, Hq by (symmetry; apply orb_false_iff; split; [by rewrite bool_decide_true|exact Hidx]).
  eapply wp_mono; [by apply (recover_tail L r _ old)| |].
  - intros [] r' Hrec. rewrite bool_decide_true by apply Hrec. done.
  - intros e r' [(-> & -> & Hroot)|[He|[Hroot He]]].
    + rewrite bool_decide_false by done. by left.
    + case_bool_decide; [by left|]. right. by exists e.
    + by rewrite bool_decide_true.
Qed.

(** In short: the room moved on. *)
Lemma recover_moves L r old head index bs p :
  room_ok L r -> L !! local_key r = Some old -> recovery_ok r old head index bs ->
  wp (recover_own_block head index bs p) (λ _ r', exists L', stepped L r L' r' /\ follows r r') (recovery_error L r) r.
Proof.
  intros Hr HLo Hfit. assert (Hsame : stepped L r L r /\ quiet r r).
  { split; [split_and!; [done|apply grows_refl|apply kept_refl]|apply quiet_refl]. }
  assert (Hend : forall r', stepped L r L r' /\ quiet r r' -> exists L', stepped L r L' r' /\ follows r r').
  { intros r' [Hs Hq]. exists L. split; [done|by apply quiet_follows]. }
  pose proof (buffered_kept L r head index bs Hr) as Hbuf. unfold recovery_error.
  eapply wp_mono; [by apply recover_exact|..]; unfold recovers.
  - intros [] r' Hx. destruct (_ <=? _); [apply Hend; by destruct Hx as [-> _]|]. destruct (_ && _); [|by destruct Hx].
    destruct (completes r head index bs) as [[target suffix]|]; [|apply Hend; by destruct Hx as [-> _]].
    case_bool_decide; [|by destruct Hx as [[_ ?]|(? & ? & _)]]. destruct Hx as ((Hst & _ & Hf) & _). by eexists.
  - intros e r' Hx. destruct (_ <=? _); [by destruct Hx|]. destruct (_ && _); [|right; by destruct Hx as [-> [= ->]]].
    destruct (completes r head index bs) as [[target suffix]|]; [|by destruct Hx].
    case_bool_decide; [left; by eapply adopt_own_error|].
    destruct Hx as [[-> [= ->]]|(e' & [= ->] & ?)]; [by right|by left; left].
Qed.
End Recovery.
End RoomRecovery.
