(* ===== verification/RoomMessages.v ===== *)
(** * [roomnet]: messages, reconfiguration and checkpoints

    The other methods of [src/crates/roomnet/src/room.rs]: what a room answers to
    an advert and a request ([on_head], [on_want]), and [reconfigure],
    [poll_finalized] and [checkpoint]. *)
From S2P Require Import Prelude Codec Flat Merkle MerkleSpec MerkleProofs Store Bitfield Identity Linearizer LinearizerDag LinearizerView.
From S2P Require Import LinearizerTheorems Hypercore HypercoreMeta HypercoreLog HypercoreOps HypercoreDurable HypercoreTheorems.
From S2P Require Import Replica ReplicaTheorems Wire Room RoomCore RoomDag RoomInv RoomView RoomOps RoomRecovery.

Module RoomMessages.
Import Linearizer LinearizerDag LinearizerTheorems MerkleProofs.
Import MerkleSpec HypercoreLog HypercoreDurable ReplicaTheorems Room RoomCore RoomDag RoomInv RoomView RoomOps RoomRecovery.
Import Hypercore (Hypercore, SignedHead, h_fork, h_length, h_root).
Import Replica (Replica, rp_public, rp_head, rp_tree, rp_store).
Import Wire (SyncMessage, Head, Have, Want, Block).

Section Messages.
Context `{HL : HasherLaws} `{EL : Ed25519Laws} {S E : Type} `{SL : Store.StoreLaws S E}
  {F OE : Type} `{!StoreFactory F S OE, !FactoryLaws F S OE E} {P State PE : Type} `{!Projection P State PE}
  `{PL : !ProjectionLaws P State PE}.
Implicit Types (r : Room S F P) (L : feeds) (R : Error E OE -> Room S F P -> Prop) (from : PeerId).

(** ** Serving blocks *)

(** The block at an index of a feed, with a proof for the whole feed. *)
Definition serves (bs : list bytes) (w : WriterKey) (h : SignedHead) from (i : N) (o : Outbound) : Prop :=
  exists b p, bs !! N.to_nat i = Some b /\ o = block_out w h i b p (Peer from)
    /\ Merkle.block p = i /\ Merkle.Proof_verify p b (ref_root_hash bs) = true.

Lemma serve_local_spec bs lg r w h from l out :
  repr lg (local r) -> all_held lg -> l_blocks lg = bs -> Forall (λ i, i < lenN bs) l ->
  wp (serve_local from w h l out)
    (λ res r', r' = r /\ exists sent, res = out ++ sent /\ Forall2 (serves bs w h from) l sent)
    (λ e r', r' = r /\ store_error (S:=S) (OE:=OE) e) r.
Proof.
  intros Hr Hall Hbs Hl. revert out. induction Hl as [|i l Hi Hl IH]; intros out.
  { apply wp_ret. split; [done|]. exists []. by rewrite app_nil_r. }
  destruct (lookup_lt_is_Some_2 bs (N.to_nat i)) as [b Hb]; [unfold lenN in Hi; lia|].
  cbn [serve_local]. apply wp_bind, wp_asks.
  destruct (block_spec lg (local r) i Hr) as [Eb|(Hsf & er & Eb)]; rewrite Eb; cbn [map_err].
  2: { split; [done|]. split; [done|by eexists]. }
  destruct (proof_complete bs (Hypercore.tree (local r)) i b) as (p & Ep & Epb & Hpv);
    [subst bs; apply (proj1 Hr)|subst bs; apply (proj1 Hr)|done|].
  apply wp_bind. eapply wp_calls; [exact Ep|]. unfold visible.
  rewrite Hall, Hbs, Hb by (unfold l_len; by rewrite Hbs).
  eapply wp_mono; [apply IH| |done]. intros res r' [-> (sent & -> & Hsent)]. split; [done|].
  exists (block_out w h i b p (Peer from) :: sent). rewrite <- app_assoc. split; [done|]. constructor; [|done].
  by exists b, p.
Qed.

Lemma serve_replica_spec bs (rep : Replica S) r w h from l out :
  replica_of bs rep -> Forall (λ i, i < lenN bs) l ->
  wp (serve_replica rep from w h l out)
    (λ res r', r' = r /\ exists sent, res = out ++ sent /\ Forall2 (serves bs w h from) l sent)
    (λ e r', r' = r /\ store_error (S:=S) (OE:=OE) e) r.
Proof.
  intros Hrep Hl. revert out. induction Hl as [|i l Hi Hl IH]; intros out.
  { apply wp_ret. split; [done|]. exists []. by rewrite app_nil_r. }
  destruct (lookup_lt_is_Some_2 bs (N.to_nat i)) as [b Hb]; [unfold lenN in Hi; lia|].
  cbn [serve_replica]. apply wp_bind. unfold wp at 1, tries, Replica.Replica_block.
  rewrite (proj1 (o_tree _ _ Hrep)), (proj2 (N.leb_gt _ _)) by done.
  destruct (Store.get (rp_store rep) i) as [v|er] eqn:Eg; cbn [map_err].
  2: { split; [done|]. split; [|by eexists]. right; left. exists (rp_store rep), i, er. split; [apply Hrep|done]. }
  rewrite (Store.get_ok _ _ _ (o_inv _ _ Hrep) Eg).
  pose proof (o_stored _ _ Hrep _ _ Hb) as Hst. rewrite N2Nat.id in Hst. rewrite Hst.
  destruct (proof_complete bs (rp_tree rep) i b) as (p & Ep & Epb & Hpv); [apply Hrep|apply Hrep|done|].
  apply wp_bind. eapply wp_runs; [exact Ep|].
  eapply wp_mono; [apply IH| |done]. intros res r' [-> (sent & -> & Hsent)]. split; [done|].
  exists (block_out w h i b p (Peer from) :: sent). rewrite <- app_assoc. split; [done|]. constructor; [|done].
  by exists b, p.
Qed.

(** The head a room can show for a writer, and the feed it shows it with. *)
Definition head_of r (w : WriterKey) : option SignedHead :=
  if bool_decide (w = local_key r) then Hypercore.head (local r) else rep ← remotes r !! w; Replica.verified_head rep.
Definition served r (w : WriterKey) : N :=
  if bool_decide (w = local_key r) then Hypercore.len (local r) else from_option h_length 0 (head_of r w).

Lemma elem_range_min i a b n : i ∈ rangeN a (N.min b n) -> i < n.
Proof. rewrite elem_of_rangeN. lia. Qed.

Lemma on_want_spec L r from w start stop :
  room_ok L r ->
  wp (on_want from w start stop)
    (λ out r', r' = r /\
       match head_of r w with
       | Some h => Forall2 (serves (default [] (L !! w)) w h from) (rangeN start (N.min stop (served r w))) out
       | None => out = []
       end)
    (λ e r', r' = r /\ store_error (S:=S) (OE:=OE) e) r.
Proof.
  intros [Hc _]. apply wp_bind, wp_reads. unfold head_of, served, head_of. case_bool_decide as Hw.
  - apply wp_bind, wp_reads. destruct (Hypercore.head (local r)) as [h|] eqn:Eh; [|by apply wp_ret].
    destruct (k_local _ _ Hc) as (lg & Hlg & Hall & HLlg).
    assert (El : Hypercore.len (local r) = lenN (l_blocks lg)) by apply (r_tree _ _ (proj1 Hlg)).
    eapply wp_mono; [apply (serve_local_spec (l_blocks lg) lg); [done..|]| |done].
    + apply Forall_forall. intros i Hi%elem_range_min. by rewrite <- El.
    + intros out r' [-> (sent & -> & Hsent)]. split; [done|]. subst w. by rewrite HLlg.
  - apply wp_bind, wp_reads. destruct (remotes r !! w) as [rep|] eqn:Er; [|by apply wp_ret]. rsimpl.
    destruct (Replica.verified_head rep) as [h|] eqn:Eh; [|by apply wp_ret].
    destruct (k_remote _ _ Hc w rep Er) as (_ & _ & bs & HLw & Hrep).
    eapply wp_mono; [apply (serve_replica_spec bs rep); [done|]| |done].
    + apply Forall_forall. intros i Hi%elem_range_min. destruct (o_head _ _ Hrep h Eh) as (Hle & _). lia.
    + intros out r' [-> (sent & -> & Hsent)]. split; [done|]. by rewrite HLw.
Qed.
(** ** Adverts *)

Lemma on_head_spec L r from w head :
  room_ok L r ->
  wp (on_head from w head)
    (λ out r', out = want_more r from w (h_length head) /\ stepped L r L r' /\ quiet r r')
    (λ e r', (e : Error E OE) = Hypercore_ Hypercore.Corrupt /\ r' = r) r.
Proof.
  intros Hr. assert (Hkeep : stepped L r L r) by (split_and!; [done|apply grows_refl|apply kept_refl]).
  apply wp_bind, wp_reads, wp_bind, wp_reads, wp_bind. case_bool_decide as Hw; [|apply wp_ret, wp_reads; done].
  destruct (_ <? _); [|destruct (_ && _); [by apply wp_fail|apply wp_ret, wp_reads; done]].
  eapply wp_mono; [apply begin_recovery_spec| |].
  - intros [] r' (_ & _ & ->). apply wp_reads. split_and!; [|by apply stepped_begun|apply begun_quiet].
    unfold want_more, writer_len. destruct (begun_frame r head) as [-> ->]. destruct (stepped_begun L r head Hr) as (_ & _ & Hk).
    by rewrite (kp_key _ _ Hk).
  - by intros e r' (-> & -> & _).
Qed.

(** ** Reconfiguration *)

Lemma common_prefix a b : take (common a b) a = take (common a b) b /\ (common a b <= length a)%nat /\ (common a b <= length b)%nat.
Proof.
  revert b. induction a as [|x a IH]; intros [|y b]; cbn [common]; try (cbn; split_and!; [done|lia|lia]).
  case_bool_decide as Hxy; [|cbn; split_and!; [done|lia|lia]]. subst y. destruct (IH b) as (E1 & H1 & H2).
  cbn. rewrite E1. split_and!; [done|lia|lia].
Qed.

(** The configuration of a DAG does not matter to what is delivered. *)
Lemma dag_config M l l' ps pe :
  dag M l ps pe -> deps l' = deps l -> lin_ok l' -> dag M l' ps pe.
Proof. intros [] Ed Hl. constructor; by rewrite ?Ed. Qed.
Lemma settled_config l l' pe : deps l' = deps l -> next_seq l' = next_seq l -> settled l pe -> settled l' pe.
Proof. intros Ed En Hs n e Hin. unfold ready, expected_seq. rewrite Ed, En. by apply Hs. Qed.

(** The DAG of a room under another configuration. *)
Definition reconfigured_lin l (through : nat) (ix : list WriterKey) (c : list NodeId) : Linearizer :=
  mkLin (deps l) (dependents l) (next_seq l) (Some (list_to_set ix)) (take through c) (clock_of_list (take through c)).

Lemma reconfigured_ok l through ix c : lin_ok l -> causal l c -> lin_ok (reconfigured_lin l through ix c).
Proof.
  intros [Hw _ _] Hc. split; [by apply wf_config| |done]. cbn. by apply (causal_take l c through) in Hc.
Qed.

Definition reconfigure_refused r through (e : Error E OE) : Prop :=
  exists c, finalized (lin r) = Done c /\
    ((length c < through)%nat /\ e = Reconfigure (BeyondConfirmed (length c) through)
     \/ (through < length (base (lin r)))%nat /\ e = Reconfigure BaseShrinks).

(** What a reconfiguration did. *)
Definition reconfigured L r through ix (res : Reconfigured) r' : Prop :=
  exists before after,
    finalized (lin r) = Done before /\ finalized (lin r') = Done after
    /\ (length (base (lin r)) <= through <= length before)%nat
    /\ lin r' = reconfigured_lin (lin r) through ix before /\ take through before `prefix_of` after
    /\ res = mkReconfigured (common before after) (finalized_len r - common before after)
    /\ room_ok L r' /\ local_key r' = local_key r /\ genesis_proj r' = genesis_proj r /\ payloads r' = payloads r
    /\ pending r' = pending r /\ cores_same r r' /\ (current r -> current r') /\ caught_up r'.

(** The finalized fold, taken back to the first [kept] of the new prefix. *)
Definition refolded r (kept : nat) (after : list NodeId) : Room S F P :=
  if (0 <? finalized_len r - kept)%nat
  then set_finalized r (fold_nodes (payloads r) (genesis_proj r) (take kept after)) kept (finalized_since_poll r)
  else r.

Lemma refold_rule {A} r kept after (k : act (Room S F P) (Error E OE) A) Q R :
  (kept <= length after)%nat -> wp k Q R (refolded r kept after) ->
  wp (_ ← (if (0 <? finalized_len r - kept)%nat then
             stands ← runs (slice_to after kept);
             modify (λ r, set_finalized r (fold_nodes (payloads r) (genesis_proj r) stands) kept (finalized_since_poll r))
           else mret tt); k) Q R r.
Proof.
  intros Hk Hw. unfold refolded in Hw. apply wp_bind. destruct (0 <? _)%nat; [|by apply wp_ret].
  apply wp_bind. eapply wp_runs; [unfold slice_to; by rewrite (proj2 (Nat.leb_le _ _))|]. by apply wp_modify.
Qed.

Lemma refolded_frame r kept after :
  let r' := refolded r kept after in
  lin r' = lin r /\ pending r' = pending r /\ payloads r' = payloads r /\ genesis_proj r' = genesis_proj r
  /\ local_key r' = local_key r /\ cores_same r r'.
Proof. unfold refolded. by destruct (0 <? _)%nat. Qed.

Lemma refolded_ok L r kept after :
  room_ok L r -> lin_small (lin r) -> finalized (lin r) = Done after -> (kept <= length after)%nat ->
  room_ok L (refolded r kept after).
Proof.
  intros [Hc Hd] Hs Ha Hk. destruct (refolded_frame r kept after) as (El & Ee & Ep & Eg & Ek & C1 & C2 & C3).
  split; [by eapply cores_frame|]. unfold refolded. destruct (0 <? _)%nat eqn:Edr; [|done].
  apply Nat.ltb_lt in Edr. destruct Hd as [Hd Hf Hfl]. constructor; cbn; [done|lia|].
  exists (take kept after). split_and!; cbn; [rewrite length_take; lia|apply Forall_take|done].
  by eapply finalized_stored.
Qed.

(** A current fold is, or is taken back to, a prefix of the new finalized prefix. *)
Lemma refolded_prefix L r before after :
  room_ok L r -> lin_small (lin r) -> finalized (lin r) = Done after -> folded r before ->
  let kept := common before after in
  exists fl, folded (refolded r kept after) fl /\ fl `prefix_of` after.
Proof.
  intros [_ Hd] Hs Ha Hf kept. destruct (common_prefix before after) as (Ec & Hb & Hkl). fold kept in Ec, Hb, Hkl.
  exists (take kept after). split; [|by exists (drop kept after); rewrite take_drop].
  unfold refolded. destruct (0 <? _)%nat eqn:Edr.
  - split_and!; cbn; [rewrite length_take; lia|apply Forall_take|done]. destruct Hd. by eapply finalized_stored.
  - apply Nat.ltb_ge in Edr. destruct Hf as (Hl & Hn & Hp). rewrite <- Ec, take_ge by lia. done.
Qed.

Lemma reconfigure_room_spec L r through ix :
  room_ok L r -> roomy 0 r ->
  wp (reconfigure through ix) (λ res r', reconfigured L r through ix res r')
    (λ e r', r' = r /\ reconfigure_refused r through e) r.
Proof.
  intros Hok Hsz. pose proof Hok as [Hc Hd]. pose proof (roomy_small _ _ Hsz) as Hs.
  pose proof (d_lin _ _ _ _ (k_dag _ _ Hd)) as Hl.
  destruct (reconfigure_spec (lin r) through ix Hl Hs) as (before & Eb & Hpre & Hca & Er).
  apply wp_bind. eapply wp_calls; [exact Eb|]. apply wp_bind. unfold wp at 1. rewrite Er. rsimpl.
  assert (Hsame : set_dag r (lin r) (payloads r) (pending r) = r) by (by destruct r).
  destruct (Nat.ltb_spec (length before) through) as [Hlt|Hge]; cbn [map_err].
  { split; [done|]. exists before. split; [done|by left]. }
  destruct (Nat.ltb_spec through (length (base (lin r)))) as [Hlt|Hge2]; cbn [map_err].
  { split; [done|]. exists before. split; [done|by right]. }
  set (l' := mkLin _ _ _ _ _ _). set (r1 := set_dag r l' (payloads r) (pending r)).
  assert (Hl' : lin_ok l') by (by apply (reconfigured_ok (lin r) through ix before)).
  destruct (lin_views l' Hl' Hs) as (after & rest & Ea & Eo & Hlen).
  assert (Hok1 : room_ok L r1).
  { split; [by eapply cores_frame|]. destruct Hd as [Hd Hf [fl Hfl]]. constructor; [by eapply dag_config|done|by exists fl]. }
  assert (Hta : take through before `prefix_of` after).
  { destruct Hl' as [Hw' Hb' _]. destruct (LinearizerView.confirmed_view_spec l' Hw' Hs Hb') as (o & Eo' & _).
    unfold finalized in Ea. rewrite Eo' in Ea. injection Ea as <-. by apply prefix_app_r. }
  apply wp_bind. eapply wp_calls; [exact Ea|]. set (kept := common before after).
  destruct (common_prefix before after) as (_ & _ & Hkl). fold kept in Hkl. apply wp_bind, wp_reads.
  apply refold_rule; [done|]. set (r2 := refolded r1 kept after).
  destruct (refolded_frame r1 kept after) as (El & Ee & Ep & Eg & Ek & C1 & C2 & C3). fold r2 in El, Ee, Ep, Eg, Ek, C1, C2, C3.
  apply wp_bind, (advance_rule L r2); [by apply refolded_ok|unfold roomy, total in *; rewrite El, Ee; exact Hsz|].
  intros fin rest' r3 _ Hok3 Hk3 Hcar Hup El3 Ee3 Ep3 Elo3 Erm3 Eor3. apply wp_ret. exists before, after.
  split_and!; try done; try congruence.
  - by rewrite El3, El.
  - by rewrite El3, El.
  - by rewrite (kp_key _ _ Hk3), Ek.
  - by rewrite (kp_genesis _ _ Hk3), Eg.
  - by rewrite Ep3, Ep.
  - by rewrite Ee3, Ee.
  - split_and!; [by rewrite Elo3, C1|by rewrite Erm3, C2|by rewrite Eor3, C3].
  - intros (fin0 & rest0 & [Ef0 _] & Hf0 & _). assert (fin0 = before) as -> by (unfold finalized in *; congruence).
    destruct (refolded_prefix L r1 before after Hok1 Hs Ea Hf0) as (fl & Hfl & Hflp).
    apply (Hcar fl after); [by rewrite El|exact Hfl|done].
Qed.

(** ** Polls and checkpoints *)

Lemma poll_spec r R :
  wp poll_finalized (λ q r', q = finalized_since_poll r /\ quiet r r' /\ cores_same r r' /\ local_key r' = local_key r
    /\ finalized_since_poll r' = []) R r.
Proof. unfold wp, poll_finalized. split_and!; [done|by constructor|done..]. Qed.

Lemma needs_checkpoint_total L r : room_ok L r -> roomy 0 r -> exists b, needs_checkpoint r = Done b.
Proof.
  intros [_ Hd] Hsz. unfold needs_checkpoint. destruct (_ || _); [by eexists|].
  destruct (lin_views (lin r)) as (fin & rest & _ & Eo & _);
    [apply (d_lin _ _ _ _ (k_dag _ _ Hd))|by apply (roomy_small 0)|].
  unfold order. rewrite Eo. rsimpl. by eexists.
Qed.
End Messages.
End RoomMessages.
