(* ===== verification/RoomLife.v ===== *)
(** * [roomnet]: runs of a room

    The calls a driver makes on a room ([src/crates/roomnet/src/room.rs]) as one
    type, what each may store, and the step lemma: from a well-formed room every
    call returns, and leaves a well-formed room that has forgotten nothing. *)
From S2P Require Import Prelude Codec Flat Merkle MerkleSpec MerkleProofs Store Bitfield Identity Linearizer LinearizerDag LinearizerView.
From S2P Require Import LinearizerTheorems Hypercore HypercoreMeta HypercoreLog HypercoreOps HypercoreDurable HypercoreTheorems.
From S2P Require Import Replica ReplicaTheorems Wire Room RoomCore RoomDag RoomInv RoomView RoomOps RoomRecovery RoomMessages.

Module RoomLife.
Import Linearizer LinearizerDag LinearizerTheorems.
Import MerkleSpec HypercoreLog HypercoreDurable ReplicaTheorems Room RoomCore RoomDag RoomInv RoomView.
Import RoomOps RoomRecovery RoomMessages.
Import Hypercore (Hypercore, SignedHead, h_fork, h_length, h_root).
Import Wire (SyncMessage, Head, Have, Want, Block).

Section Life.
Context `{HL : HasherLaws} `{EL : Ed25519Laws} {S E : Type} `{SL : Store.StoreLaws S E}
  {F OE : Type} `{!StoreFactory F S OE, !FactoryLaws F S OE E} {P State PE : Type} `{!Projection P State PE}
  `{PL : !ProjectionLaws P State PE}.
Implicit Types (r : Room S F P) (L : feeds) (R : Error E OE -> Room S F P -> Prop) (from : PeerId).

(** ** Calls *)

Inductive call :=
| Local_append (op : bytes)
| On_inbound (from : PeerId) (m : SyncMessage)
| Reconfigure_ (through : nat) (ix : list WriterKey)
| Poll_finalized
| Checkpoint_.

Inductive answer :=
| Sent (out : list Outbound)
| Swapped (res : Reconfigured)
| Polled (q : list Finalized).

Definition exec (c : call) : act (Room S F P) (Error E OE) answer :=
  match c with
  | Local_append op => out ← local_append op; mret (Sent out)
  | On_inbound from m => out ← on_inbound from m; mret (Sent out)
  | Reconfigure_ through ix => res ← reconfigure through ix; mret (Swapped res)
  | Poll_finalized => q ← poll_finalized; mret (Polled q)
  | Checkpoint_ => out ← checkpoint; mret (Sent out)
  end.

(** What the call stores fits, and the DAG fits in memory. *)
Definition call_ok r (c : call) : Prop :=
  roomy 0 r /\
  match c with
  | Local_append op => append_ok r op
  | On_inbound _ (Block w h i bs p) =>
      if decide (w = local_key r)
      then forall L old, room_ok L r -> L !! local_key r = Some old -> recovery_ok r old h i bs
      else block_ok r w h i bs p
  | Checkpoint_ => append_ok r []
  | _ => True
  end.

(** ** One step *)

(** The refusals the methods name. *)
Definition refusal r (e : Error E OE) : Prop :=
  append_refused r e \/ (exists w bs, intake_error r w bs e) \/ e = Hypercore_ Hypercore.Corrupt
  \/ exists through, reconfigure_refused r through e.

(** A well-formed room that has forgotten nothing, and whose folds followed. *)
Definition moved L r r' : Prop :=
  exists L', room_ok L' r' /\ grows L L' /\ local_key r' = local_key r /\ genesis_proj r' = genesis_proj r
    /\ payloads r ⊆ payloads r' /\ follows r r'.

Lemma stepped_moved L r L' r' : stepped L r L' r' -> follows r r' -> moved L r r'.
Proof. intros (Hok & Hg & Hk) Hf. exists L'. destruct Hk. done. Qed.
Lemma stepped_quiet L r L' r' : stepped L r L' r' -> quiet r r' -> moved L r r'.
Proof. intros Hs Hq. by eapply stepped_moved, quiet_follows. Qed.
Lemma moved_refl L r : room_ok L r -> moved L r r.
Proof. intros Hok. exists L. split_and!; [done|apply grows_refl|done..|apply quiet_follows, quiet_refl]. Qed.
Lemma moved_quiet L r r' : room_ok L r -> quiet r r' -> cores_same r r' -> local_key r' = local_key r -> moved L r r'.
Proof.
  intros [Hc Hd] Hq (C1 & C2 & C3) Ek. exists L. pose proof Hq as [El Ee Ep En Ef Eg Ev].
  split_and!; [split; [by eapply cores_frame|by eapply deliveries_frame]|apply grows_refl|done|done|by rewrite Ep|by apply quiet_follows].
Qed.

Definition ends_well L r (m : act (Room S F P) (Error E OE) answer) : Prop :=
  wp m (λ _ r', moved L r r') (λ e r', own_error (S:=S) e \/ refusal r e /\ moved L r r') r.

Lemma append_ends L r op : room_ok L r -> append_ok r op -> ends_well L r (exec (Local_append op)).
Proof.
  intros Hok Ha. destruct (k_local _ _ (proj1 Hok)) as (lg & _ & _ & HLo).
  apply wp_bind. eapply wp_mono; [by apply (local_append_spec L r op (l_blocks lg))| |].
  - intros out r' ((Hst & _ & Hf) & _). apply wp_ret. by eapply stepped_moved.
  - intros e r' [He|[-> He]]; [by left; left|right]. split; [by left|by apply moved_refl].
Qed.

Lemma inbound_ends L r from m : room_ok L r -> call_ok r (On_inbound from m) -> ends_well L r (exec (On_inbound from m)).
Proof.
  intros Hok [Hsz Ha]. apply wp_bind. destruct m as [w h|w n|w a b|w h i bs p]; cbn [on_inbound].
  - eapply wp_mono; [by apply (on_head_spec L)| |].
    + intros out r' (_ & Hst & Hq). apply wp_ret. by eapply stepped_quiet.
    + intros e r' [-> ->]. right. split; [right; right; by left|by apply moved_refl].
  - apply wp_reads, wp_ret. by apply moved_refl.
  - eapply wp_mono; [by apply (on_want_spec L)| |].
    + intros out r' [-> _]. apply wp_ret. by apply moved_refl.
    + intros e r' [-> He]. by left; left.
  - destruct (decide (w = local_key r)) as [->|Hw].
    + destruct (k_local _ _ (proj1 Hok)) as (lg & _ & _ & HLo). apply wp_bind, wp_reads.
      rewrite bool_decide_true by done. apply wp_bind.
      eapply wp_mono; [by apply (recover_moves L r (l_blocks lg)), (Ha L)| |].
      * intros [] r' (L' & Hst & Hf). apply wp_ret, wp_ret. by eapply stepped_moved.
      * intros e r' [He|(-> & Hst & Hq)]; [by left|right]. split; [right; right; by left|by eapply stepped_quiet].
    + eapply wp_mono; [by apply (on_block_remote L)| |].
      * intros out r' (L' & (Hst & _ & Hf) & _). apply wp_ret. by eapply stepped_moved.
      * intros e r' [He|[He (L' & Hst & Hq & _)]]; [by left; left|right]. split; [right; left; by exists w, bs|by eapply stepped_quiet].
Qed.

Lemma step_ends L r c : room_ok L r -> call_ok r c -> ends_well L r (exec c).
Proof.
  intros Hok Ha. destruct c as [op|from m|through ix| |].
  - apply append_ends; [done|apply Ha].
  - by apply inbound_ends.
  - apply wp_bind. eapply wp_mono; [apply (reconfigure_room_spec L r); [done|apply Ha]| |].
    + intros res r' (before & after & _ & _ & _ & _ & _ & _ & Hok' & Ek & Eg & Ep & _ & _ & Hcur & Hup). apply wp_ret. exists L.
      split_and!; [done|apply grows_refl|done|done|by rewrite Ep|by split].
    + intros e r' [-> He]. right. split; [right; right; right; by eexists|by apply moved_refl].
  - apply wp_bind. eapply wp_mono; [apply poll_spec| |exact (λ _ _ X, X)].
    intros q r' (_ & Hq & Hcs & Hk & _). apply wp_ret. by apply moved_quiet.
  - destruct Ha as [Hsz Ha]. destruct (needs_checkpoint_total L r Hok Hsz) as [b Eb].
    apply wp_bind. cbn [exec]. unfold checkpoint. apply wp_bind. eapply wp_calls; [exact Eb|].
    destruct b; [|apply wp_ret, wp_ret; by apply moved_refl].
    pose proof (append_ends L r [] Hok Ha) as He. unfold ends_well, exec in He. by apply wp_unbind in He.
Qed.
(** ** Runs *)

(** One call that went through, or was refused. *)
Definition step r (c : call) r' : Prop :=
  call_ok r c /\ exists res, exec c r = Done (r', res) /\ forall e, res = Err e -> ~ own_error (S:=S) e.

(** Calls one after the other; [K] may restrict what each of them does. *)
Inductive run (K : call -> Room S F P -> Room S F P -> Prop) r : list call -> Room S F P -> Prop :=
| run_nil : run K r [] r
| run_snoc cs r1 c r2 : run K r cs r1 -> step r1 c r2 -> K c r1 r2 -> run K r (cs ++ [c]) r2.

Definition any_step (_ : call) (_ _ : Room S F P) : Prop := True.
(** No call but a reconfiguration reorders what was final. *)
Definition steady_step (c : call) r r' : Prop :=
  match c with Reconfigure_ _ _ => True | _ => finality_kept r r' end.

Lemma step_moved L r c r' : room_ok L r -> step r c r' -> moved L r r'.
Proof.
  intros Hok (Hc & res & He & Hn). pose proof (step_ends L r c Hok Hc) as Hw. unfold ends_well, wp in Hw. rewrite He in Hw.
  destruct res as [a|e]; [done|]. destruct Hw as [Hw|[_ Hw]]; [by destruct (Hn e eq_refl)|done].
Qed.

Lemma run_moved K L r cs r' :
  room_ok L r -> run K r cs r' ->
  exists L', room_ok L' r' /\ grows L L' /\ local_key r' = local_key r /\ genesis_proj r' = genesis_proj r
    /\ payloads r ⊆ payloads r'.
Proof.
  intros Hok. induction 1 as [|cs r1 c r2 _ (L1 & Hok1 & Hg1 & Ek1 & Ep1 & Hs1) Hstep _].
  - exists L. split_and!; [done|apply grows_refl|done..].
  - destruct (step_moved L1 r1 c r2 Hok1 Hstep) as (L2 & Hok2 & Hg2 & Ek2 & Ep2 & Hs2 & _). exists L2.
    split_and!; [done|by eapply grows_trans|congruence|congruence|by etrans].
Qed.

(** A reconfiguration needs no stability: it refolds what it reorders. *)
Lemma reconfigure_current L r through ix r' :
  room_ok L r -> step r (Reconfigure_ through ix) r' -> current r -> current r'.
Proof.
  intros Hok ([Hsz _] & res & He & _). pose proof (reconfigure_room_spec (OE:=OE) L r through ix Hok Hsz) as Hw.
  cbn [exec] in He. unfold mbind, act_bind in He. unfold wp in Hw.
  destruct (reconfigure through ix r) as [[r1 [rc|e]]| |]; [| |done..]; injection He as <- _.
  - destruct Hw as (before & after & _ & _ & _ & _ & _ & _ & _ & _ & _ & _ & _ & _ & Hcur & _). done.
  - by destruct Hw as [-> _].
Qed.

Lemma run_current L r cs r' : room_ok L r -> current r -> run steady_step r cs r' -> current r'.
Proof.
  intros Hok Hcur Hrun. induction Hrun as [|cs r1 c r2 Hrun IH Hstep HK]; [done|].
  destruct (run_moved _ L r cs r1 Hok Hrun) as (L1 & Hok1 & _).
  destruct (step_moved L1 r1 c r2 Hok1 Hstep) as (L2 & _ & _ & _ & _ & _ & Hfol).
  destruct c; cbn in HK; try by apply Hfol. by eapply reconfigure_current.
Qed.
End Life.
End RoomLife.
