(* ===== verification/RoomQueue.v ===== *)
(** * [roomnet]: what a room queues for its next poll

    A call on a room of [src/crates/roomnet/src/room.rs], whatever it does and
    whether it succeeds, only adds to [finalized_since_poll]: the mutations it has
    folded into the finalized state, numbered on from those before. *)
From S2P Require Import Prelude Codec Flat Merkle Store Bitfield Identity Linearizer Hypercore Replica Wire Room.

Module RoomQueue.
Import Linearizer (NodeId).
Import Room.

(** The versions of the mutations at positions [i], [i + 1], .. *)
Definition versions (i k : nat) : list N := (λ j, wrap64 (N.of_nat j + 1)) <$> seq i k.

Lemma versions_app (i k m : nat) : versions i k ++ versions (i + k) m = versions i (k + m).
Proof. unfold versions. by rewrite <- fmap_app, <- seq_app. Qed.

Section Queue.
Context `{Hasher} `{Ed25519} {S E : Type} `{!Store.Store S E} {F OE : Type} `{!StoreFactory F S OE}
  {P State PE : Type} `{!Projection P State PE}.
Implicit Types (r : Room S F P).
Abbreviation method := (act (Room S F P) (Error E OE)).

(** The fold of finalized mutations; a checkpoint carries none. *)
Definition fold_delta (p : P) (f : Finalized) : P :=
  if bool_decide (fin_payload f = []) then p else (apply p (fin_node f) (fin_payload f)).1.

(** [new] is what came since: numbered on, and what was folded. *)
Definition adds (new : list Finalized) r r' : Prop :=
  (finalized_len r <= finalized_len r')%nat
  /\ fin_version <$> new = versions (finalized_len r) (finalized_len r' - finalized_len r)
  /\ finalized_proj r' = foldl fold_delta (finalized_proj r) new.
Definition queued r r' : Prop :=
  exists new, finalized_since_poll r' = finalized_since_poll r ++ new /\ adds new r r'.

Lemma queued_same r r' :
  finalized_len r' = finalized_len r -> finalized_proj r' = finalized_proj r ->
  finalized_since_poll r' = finalized_since_poll r -> queued r r'.
Proof. intros El Ep Eq. exists []. split; [by rewrite app_nil_r|]. unfold adds. rewrite El, Nat.sub_diag. done. Qed.

#[global] Instance queued_preorder : PreOrder queued.
Proof.
  split; [by intros r; apply queued_same|]. intros r1 r2 r3 (n1 & E1 & L1 & V1 & P1) (n2 & E2 & L2 & V2 & P2).
  exists (n1 ++ n2). split; [by rewrite E2, E1, app_assoc|]. split_and!; [lia| |by rewrite foldl_app, <- P1].
  rewrite fmap_app, V1, V2. replace (finalized_len r2) with (finalized_len r1 + (finalized_len r2 - finalized_len r1))%nat at 2 by lia.
  rewrite versions_app. f_equal. lia.
Qed.

(** A method that keeps to that. *)
Definition queues {A} (m : method A) : Prop := forall r r' res, m r = Done (r', res) -> queued r r'.

Lemma queues_ret {A} (a : A) : queues (mret a).
Proof. intros r r' res [= <- _]. done. Qed.
Lemma queues_bind {A B} (m : method A) (k : A -> method B) : queues m -> (forall a, queues (k a)) -> queues (m ≫= k).
Proof.
  intros Hm Hk r r' res. unfold mbind, act_bind. destruct (m r) as [[r1 [a|e]]| |] eqn:Em; [| |done..].
  - intros Ek. etrans; [by eapply Hm|by eapply Hk].
  - intros [= <- _]. by eapply Hm.
Qed.
Lemma queues_reads {A} (f : Room S F P -> A) : queues (reads f).
Proof. intros r r' res [= <- _]. done. Qed.
Lemma queues_modify (f : Room S F P -> Room S F P) : (forall r, queued r (f r)) -> queues (modify f).
Proof. intros Hf r r' res [= <- _]. apply Hf. Qed.
Lemma queues_fail {A} (e : Error E OE) : queues (fail (A:=A) e).
Proof. intros r r' res [= <- _]. done. Qed.
Lemma queues_tries {A} (x : result (Error E OE) A) : queues (tries x).
Proof. intros r r' res [= <- _]. done. Qed.
Lemma queues_asks {A} (f : Room S F P -> result (Error E OE) A) : queues (asks f).
Proof. intros r r' res [= <- _]. done. Qed.
Lemma queues_runs {A} (x : Prelude.run A) : queues (runs x).
Proof. intros r r' res. unfold runs. destruct x; rsimpl; [by intros [= <- _]|done..]. Qed.
Lemma queues_calls {A} (f : Room S F P -> Prelude.run A) : queues (calls f).
Proof. intros r r' res. unfold calls. destruct (f r); rsimpl; [by intros [= <- _]|done..]. Qed.
Lemma queues_each {A} (l : list A) (body : A -> method unit) : (forall x, queues (body x)) -> queues (for_each l body).
Proof. intros Hb. induction l as [|x l IH]; [apply queues_ret|]. by apply queues_bind. Qed.

Lemma queues_on_local {A} (m : act (Hypercore.Hypercore S) (Hypercore.Error E) A) : queues (on_local m).
Proof. intros r r' res. unfold on_local. destruct (m (local r)) as [[c x]| |]; rsimpl; [|done..]. intros [= <- _]. by apply queued_same. Qed.
Lemma queues_on_replica {A} w (m : act (Replica.Replica S) (Hypercore.Error E) A) : queues (on_replica w m).
Proof.
  intros r r' res. unfold on_replica. destruct (remotes r !! w) as [rep|]; cbn [expect]; rsimpl; [|done].
  destruct (m rep) as [[c x]| |]; rsimpl; [|done..]. intros [= <- _]. by apply queued_same.
Qed.
Lemma queues_open_store w : queues (open_store w).
Proof. intros r r' res. unfold open_store. destruct (factory_open _ w). intros [= <- _]. by apply queued_same. Qed.
Lemma queues_drain : queues drain_pending.
Proof.
  intros r r' res. unfold drain_pending. destruct (drain_loop _ _ _ _) as [[[l ps] pe]| |]; rsimpl; [|done..].
  intros [= <- _]. by apply queued_same.
Qed.
Lemma queues_add n e : queues (try_add_node n e).
Proof. apply queues_modify. intros r. destruct (Linearizer.add _ _ _) as [l [[]|[]]]; by apply queued_same. Qed.

(** [advance] folds and queues the same mutations. *)
Lemma deltas_versions ps i nodes : fin_version <$> deltas ps i nodes = versions i (length nodes).
Proof. revert i. induction nodes as [|n nodes IH]; intros i; [done|]. cbn. by rewrite IH. Qed.
Lemma deltas_fold ps i nodes (p : P) : foldl fold_delta p (deltas ps i nodes) = fold_nodes ps p nodes.
Proof. revert i p. induction nodes as [|n nodes IH]; intros i p; [done|]. cbn. by rewrite IH. Qed.

Lemma queues_advance : queues advance.
Proof.
  apply queues_bind; [apply queues_calls|]. intros fin. apply queues_bind.
  { apply queues_modify. intros r. destruct (Nat.ltb_spec (finalized_len r) (length fin)) as [Hlt|]; [|done].
    eexists. split; [done|]. split_and!; cbn; [lia|by rewrite deltas_versions, length_drop|by rewrite deltas_fold]. }
  intros []. apply queues_bind; [apply queues_modify; intros r; by apply queued_same|]. intros [].
  apply queues_bind; [apply queues_calls|]. intros o. apply queues_bind; [apply queues_calls|]. intros tail.
  apply queues_modify. intros r. by apply queued_same.
Qed.

(** Step through a method. *)
Ltac queue_step :=
  match goal with
  | |- queues (_ ≫= _) => apply queues_bind; [|intros ?]
  | |- queues (mret _) => apply queues_ret
  | |- queues (reads _) => apply queues_reads
  | |- queues (fail _) => apply queues_fail
  | |- queues corrupt => apply queues_fail
  | |- queues (tries _) => apply queues_tries
  | |- queues (asks _) => apply queues_asks
  | |- queues (ask_local _) => apply queues_asks
  | |- queues (runs _) => apply queues_runs
  | |- queues (calls _) => apply queues_calls
  | |- queues (for_each _ _) => apply queues_each; intros ?
  | |- queues (on_local _) => apply queues_on_local
  | |- queues (on_replica _ _) => apply queues_on_replica
  | |- queues (open_store _) => apply queues_open_store
  | |- queues drain_pending => apply queues_drain
  | |- queues advance => apply queues_advance
  | |- queues (try_add_node _ _) => apply queues_add
  | |- queues (modify _) => apply queues_modify; intros ?; by apply queued_same
  | |- queues touch => apply queues_modify; intros ?; by apply queued_same
  | |- queues (if ?b then _ else _) => destruct b
  | |- queues (let '(_, _) := ?x in _) => destruct x
  | |- queues (match ?x with _ => _ end) => destruct x
  end.

Lemma queues_append op : queues (local_append op).
Proof. unfold local_append. repeat queue_step. Qed.
Lemma queues_checkpoint : queues checkpoint.
Proof. unfold checkpoint. repeat queue_step. apply queues_append. Qed.

Lemma queues_begin head : queues (begin_own_recovery head).
Proof. unfold begin_own_recovery. repeat queue_step. Qed.
Lemma queues_adopt i : queues (adopt_own i).
Proof. unfold adopt_own. repeat queue_step. Qed.
Lemma queues_recover head i bs p : queues (recover_own_block head i bs p).
Proof. unfold recover_own_block. repeat (apply queues_begin || apply queues_adopt || queue_step). Qed.
Lemma queues_ensure w : queues (ensure_replica w).
Proof. unfold ensure_replica. repeat queue_step. Qed.
Lemma queues_ingest w head i bs p : queues (ingest_remote_block w head i bs p).
Proof. unfold ingest_remote_block. repeat (apply queues_ensure || queue_step). Qed.
Lemma queues_serve_local from w head l out : queues (serve_local from w head l out).
Proof. revert out. induction l as [|i l IH]; intros out; cbn [serve_local]; repeat (apply IH || queue_step). Qed.
Lemma queues_serve_replica rep from w head l out : queues (serve_replica rep from w head l out).
Proof. revert out. induction l as [|i l IH]; intros out; cbn [serve_replica]; repeat (apply IH || queue_step). Qed.

Lemma queues_inbound from m : queues (on_inbound from m).
Proof.
  destruct m; cbn [on_inbound]; unfold on_head, on_want, on_block;
    repeat (apply queues_begin || apply queues_recover || apply queues_ingest || apply queues_serve_local
            || apply queues_serve_replica || queue_step).
Qed.
End Queue.
End RoomQueue.
