(* ===== verification/RoomReplay.v ===== *)
(** * [roomnet]: replaying the feeds

    [replay] of [src/crates/roomnet/src/room.rs]: the entries of all cores enter the
    DAG and are folded from the start, or the first block that is no entry ends it. *)
From S2P Require Import Prelude Codec Flat Merkle MerkleSpec MerkleProofs Store Bitfield Identity Linearizer LinearizerDag LinearizerView.
From S2P Require Import LinearizerTheorems Hypercore HypercoreMeta HypercoreLog HypercoreOps HypercoreDurable HypercoreTheorems.
From S2P Require Import Replica ReplicaTheorems Wire Room RoomCore RoomDag RoomInv RoomView RoomOps.

Module RoomReplay.
Import Linearizer LinearizerDag LinearizerTheorems.
Import MerkleSpec HypercoreLog HypercoreDurable ReplicaTheorems Room RoomCore RoomDag RoomInv RoomView RoomOps.
Import Hypercore (Hypercore, SignedHead, h_fork, h_length, h_root).
Import Replica (Replica, rp_public, rp_head, rp_tree, rp_store).

Section Replay.
Context `{HL : HasherLaws} `{EL : Ed25519Laws} {S E : Type} `{SL : Store.StoreLaws S E}
  {F OE : Type} `{!StoreFactory F S OE, !FactoryLaws F S OE E} {P State PE : Type} `{!Projection P State PE}
  `{PL : !ProjectionLaws P State PE}.
Implicit Types (r : Room S F P) (L : feeds) (R : Error E OE -> Room S F P -> Prop).

(** A block that is an entry, and feeds that hold nothing else. *)
Definition is_entry (b : bytes) : Prop := exists e, Codec.decode (T:=Wire.Entry) b = Ok e.
Definition decodable L : Prop := forall w bs, L !! w = Some bs -> Forall is_entry bs.

Definition feed_len L (w : WriterKey) : nat := from_option length 0%nat (L !! w).

(** How reading the feeds back fails: on the store, or on a block that is no entry. *)
Definition replay_error L (e : Error E OE) : Prop :=
  store_error (S:=S) e \/ ~ decodable L /\ exists ce, e = Hypercore_ (Hypercore.Codec_ ce).

(** ** Replaying the feeds *)

(** The entries of the writers [seen], and the first [k] of [w]. *)
Definition upto L (seen : gset WriterKey) (w : WriterKey) (k : nat) : feed := λ n,
  if bool_decide (key n ∈ seen) || (bool_decide (key n = w) && (seq n <? N.of_nat k)) then entry_of L n else None.

Lemma upto_step L seen w k bs b (e : Wire.Entry) :
  L !! w = Some bs -> bs !! k = Some b -> Codec.decode b = Ok e ->
  extends (upto L seen w k) (upto L seen w (Datatypes.S k)) (mkNode w (N.of_nat k)) e.
Proof.
  intros HLw Hb Hdec. assert (Hn : entry_of L (mkNode w (N.of_nat k)) = Some e).
  { unfold entry_of. cbn. rewrite HLw. cbn. unfold entry_in. rewrite Nat2N.id, Hb. rsimpl. by rewrite Hdec. }
  unfold upto. split_and!.
  - cbn [key seq]. rewrite (bool_decide_true (w = w)) by done. rewrite (proj2 (N.ltb_lt _ _)) by lia. cbn [andb].
    by rewrite orb_true_r.
  - rewrite Hn. case_match; [by right|by left].
  - intros [v i] Hne. cbn [key seq]. destruct (decide (v = w)) as [->|Hv]; [|by rewrite (bool_decide_false (v = w))].
    assert (i <> N.of_nat k) by congruence.
    replace (i <? N.of_nat (Datatypes.S k)) with (i <? N.of_nat k); [done|].
    destruct (N.ltb_spec i (N.of_nat k)), (N.ltb_spec i (N.of_nat (Datatypes.S k))); lia || done.
Qed.

Lemma upto_end L seen w bs v n :
  L !! w = Some bs -> upto L seen w (length bs) n = upto L ({[ w ]} ∪ seen) v 0 n.
Proof.
  intros HLw. unfold upto. rewrite (proj2 (N.ltb_ge _ (N.of_nat 0))) by lia. rewrite andb_false_r, orb_false_r.
  destruct (decide (key n = w)) as [Hk|Hk].
  - rewrite (bool_decide_true (key n = w)), (bool_decide_true (key n ∈ _ ∪ _)) by set_solver. cbn [andb].
    destruct (N.ltb_spec (seq n) (N.of_nat (length bs))); [by rewrite orb_true_r|]. rewrite orb_false_r.
    unfold entry_of. rewrite Hk, HLw. cbn. unfold entry_in. rewrite lookup_ge_None_2 by lia. by case_match.
  - rewrite (bool_decide_false (key n = w)) by done. cbn [andb]. rewrite orb_false_r.
    by rewrite (bool_decide_ext (key n ∈ seen) (key n ∈ {[ w ]} ∪ seen)) by set_solver.
Qed.

Lemma upto_all L seen w n : (forall v, is_Some (L !! v) -> v ∈ seen) -> upto L seen w 0 n = entry_of L n.
Proof.
  intros Hd. unfold upto. case_bool_decide as Hin; [done|]. cbn [orb].
  rewrite (proj2 (N.ltb_ge _ _)) by lia. rewrite andb_false_r.
  unfold entry_of. destruct (L !! key n) eqn:E1; [|done]. destruct Hin. apply Hd. by eexists.
Qed.

Record replaying r0 (M : feed) (n : nat) r : Prop := mkReplaying {
  ry_local : local r = local r0;
  ry_remotes : remotes r = remotes r0;
  ry_recovery : own_recovery r = own_recovery r0;
  ry_kept : kept r0 r;
  ry_banked : banked r0 r;
  ry_deliveries : deliveries_ok M r;
  ry_roomy : roomy n r }.

Lemma replay_add r0 M M' n r w i e R :
  replaying r0 M (Datatypes.S n) r -> extends M M' (mkNode w i) e ->
  wp (try_add_node (mkNode w i) e) (λ _, replaying r0 M' n) R r.
Proof.
  intros [Hl Hm Ho Hk Hb Hd Hr] Hx. eapply (try_add_spec M M' r); [done..|].
  intros l ps pe r' Hd' Hr' Hcfg Hdeps Hps. constructor; try done.
  - eapply kept_trans; [exact Hk|by apply kept_dag].
  - eapply banked_trans; [exact Hb|by constructor].
Qed.

Lemma decode_entry L w bs k b ce :
  L !! w = Some bs -> bs !! k = Some b -> Codec.decode (T:=Wire.Entry) b = Err ce ->
  replay_error L (Hypercore_ (Hypercore.Codec_ ce)).
Proof.
  intros HLw Hb Hce. right. split; [|by eexists]. intros Hdec. specialize (Hdec w bs HLw).
  destruct (Forall_lookup_1 _ _ _ _ Hdec Hb) as [e He]. congruence.
Qed.

(** The two bodies of the loops. *)
Lemma replay_local_spec r0 lg L seen n r k b :
  repr lg (local r0) -> all_held lg -> L !! local_key r0 = Some (l_blocks lg) -> l_blocks lg !! k = Some b ->
  replaying r0 (upto L seen (local_key r0) k) (Datatypes.S n) r ->
  wp (replay_local (N.of_nat k))
    (λ _ r', is_entry b /\ replaying r0 (upto L seen (local_key r0) (Datatypes.S k)) n r') (λ e _, replay_error L e) r.
Proof.
  intros Hr Hall HLo Hb Hry. apply wp_bind, wp_asks. rewrite (ry_local _ _ _ _ Hry).
  destruct (HypercoreTheorems.get_spec (T:=Wire.Entry) lg (local r0) (N.of_nat k) Hr) as [Hg|(Hsf & er & Hg)];
    rewrite Hg; cbn [map_err]; [|left; split; [done|by eexists]].
  assert (Hlt : (k < length (l_blocks lg))%nat) by (by eapply lookup_lt_Some).
  unfold visible. rewrite Hall, Nat2N.id, Hb by (unfold l_len, lenN; lia).
  destruct (Codec.decode b) as [e|ce] eqn:Hdec; cbn [map_err]; rsimpl; [|by eapply decode_entry].
  apply wp_bind, wp_reads. rewrite (kp_key _ _ (ry_kept _ _ _ _ Hry)).
  eapply wp_mono; [by eapply (replay_add r0), upto_step| |exact (λ _ _ X, X)]. intros [] r2 Hr2. split; [by exists e|done].
Qed.

Lemma replay_remote_spec r0 L seen n r w rep bs k b :
  remotes r0 !! w = Some rep -> replica_of bs rep -> L !! w = Some bs -> bs !! k = Some b ->
  replaying r0 (upto L seen w k) (Datatypes.S n) r ->
  wp (replay_remote w (N.of_nat k))
    (λ _ r', is_entry b /\ replaying r0 (upto L seen w (Datatypes.S k)) n r') (λ e _, replay_error L e) r.
Proof.
  intros Hrep Hof HLw Hb Hry. apply wp_bind.
  eapply wp_calls; [by rewrite (ry_remotes _ _ _ _ Hry), Hrep|].
  apply wp_bind. unfold wp at 1, tries, Replica.Replica_get.
  assert (Hlt : (k < length bs)%nat) by (by eapply lookup_lt_Some).
  rewrite (proj1 (o_tree _ _ Hof)), (proj2 (N.leb_gt _ _)) by (unfold lenN; lia).
  destruct (Store.get (rp_store rep) (N.of_nat k)) as [v|er] eqn:Eg; cbn [map_err]; rsimpl.
  2: { left. split; [|by eexists]. right; left. exists (rp_store rep), (N.of_nat k), er. split; [apply Hof|done]. }
  rewrite (Store.get_ok _ _ _ (o_inv _ _ Hof) Eg), (o_stored _ _ Hof _ _ Hb). cbn [ok_or]. rsimpl.
  destruct (Codec.decode b) as [e|ce] eqn:Hdec; cbn [map_err]; rsimpl; [|by eapply decode_entry].
  eapply wp_mono; [by eapply (replay_add r0), upto_step| |exact (λ _ _ X, X)]. intros [] r2 Hr2. split; [by exists e|done].
Qed.

(** A feed is replayed block by block. *)
Lemma replay_feed r0 L seen w bs n (body : N -> act (Room S F P) (Error E OE) unit) R r :
  L !! w = Some bs ->
  (forall k b m r', bs !! k = Some b -> replaying r0 (upto L seen w k) (Datatypes.S m) r' ->
     wp (body (N.of_nat k)) (λ _ r2, is_entry b /\ replaying r0 (upto L seen w (Datatypes.S k)) m r2) R r') ->
  replaying r0 (upto L seen w 0) (length bs + n) r ->
  wp (for_each (rangeN 0 (lenN bs)) body)
    (λ _ r', Forall is_entry bs /\ replaying r0 (upto L ({[ w ]} ∪ seen) w 0) n r') R r.
Proof.
  intros HLw Hbody Hry.
  set (Inv := λ (rest : list N) r', exists k, (k <= length bs)%nat /\ rest = rangeN (N.of_nat k) (lenN bs)
    /\ Forall is_entry (take k bs) /\ replaying r0 (upto L seen w k) (length bs - k + n) r').
  eapply wp_mono; [apply (wp_for_each Inv)| |exact (λ _ _ X, X)].
  - exists 0%nat. split_and!; [lia|done|done|by rewrite Nat.sub_0_r].
  - intros i rest r' (k & Hk & Er & Hf & Hr'). destruct (decide (k = length bs)) as [->|Hne].
    { by rewrite rangeN_nil in Er. }
    rewrite rangeN_cons in Er by (unfold lenN; lia). injection Er as -> ->.
    destruct (lookup_lt_is_Some_2 bs k) as [b Hb]; [lia|].
    eapply wp_mono; [apply (Hbody k b (length bs - Datatypes.S k + n)%nat); [done|]| |exact (λ _ _ X, X)].
    + replace (Datatypes.S (length bs - Datatypes.S k + n)) with (length bs - k + n)%nat by lia. done.
    + intros [] r2 [He Hr2]. exists (Datatypes.S k). split_and!; [lia|f_equal; lia| |done].
      rewrite (take_S_r _ _ _ Hb). apply Forall_app. by repeat constructor.
  - intros [] r' (k & Hk & Er & Hf & Hr'). destruct (decide (k = length bs)) as [->|Hne].
    + rewrite firstn_all in Hf. split; [done|]. rewrite Nat.sub_diag in Hr'. destruct Hr'. constructor; try done.
      eapply deliveries_ext; [|exact ry_deliveries0]. intros m. by apply upto_end.
    + rewrite rangeN_cons in Er by (unfold lenN; lia). done.
Qed.

(** In memory: the number of blocks of all feeds fits the machine word. *)
Definition feeds_small L : Prop :=
  N.of_nat (sum_list_with (λ p : WriterKey * list bytes, length p.2) (map_to_list L)) < two64.

Lemma sum_feeds L : sum_list_with (λ p : WriterKey * list bytes, length p.2) (map_to_list L)
  = sum_list_with (feed_len L) (map_to_list L).*1.
Proof.
  assert (Hin : forall p, p ∈ map_to_list L -> L !! p.1 = Some p.2) by (intros [k v]; by rewrite elem_of_map_to_list).
  revert Hin. generalize (map_to_list L) as l. induction l as [|p l IH]; intros Hin; [done|]. cbn.
  rewrite IH by (intros q Hq; apply Hin; by right). unfold feed_len at 2. by rewrite (Hin p) by (by left).
Qed.

(** The writers of a room, once each. *)
Lemma writers_perm L r :
  cores_ok L r -> local_key r :: (bmap_list (remotes r)).*1 ≡ₚ (map_to_list L).*1.
Proof.
  intros Hc. destruct (k_local _ _ Hc) as (lg & _ & _ & HLo).
  assert (Hmem : forall w, w ∈ (bmap_list (remotes r)).*1 <-> is_Some (remotes r !! w)).
  { intros w. by rewrite bmap_list_keys, bmap_keys_elem. }
  apply NoDup_Permutation.
  - apply NoDup_cons. split; [|apply bmap_list_nodup]. intros [rep Hr]%Hmem.
    by destruct (k_remote _ _ Hc _ _ Hr) as [? _].
  - apply NoDup_fst_map_to_list.
  - intros w. rewrite elem_of_cons, Hmem, list_elem_of_fmap. split.
    + intros Hw. assert (is_Some (L !! w)) as [bs Hbs].
      { destruct Hw as [->|[rep Hr]]; [by eexists|]. destruct (k_remote _ _ Hc _ _ Hr) as (_ & _ & bs & Hbs & _). by eexists. }
      exists (w, bs). split; [done|]. by apply elem_of_map_to_list.
    + intros ([v bs] & -> & Hv). apply elem_of_map_to_list in Hv. apply (k_dom _ _ Hc). by eexists.
Qed.

Lemma replaying_ext r0 M M' n r : (forall m, M m = M' m) -> replaying r0 M n r -> replaying r0 M' n r.
Proof. intros He []. constructor; try done. by eapply deliveries_ext. Qed.
Lemma upto_zero L seen w v n : upto L seen w 0 n = upto L seen v 0 n.
Proof. unfold upto. by rewrite !(proj2 (N.ltb_ge (seq n) (N.of_nat 0))), !andb_false_r by lia. Qed.

(** The replicas are replayed one after the other. *)
Lemma replay_writers L r0 ws seen v r :
  cores_ok L r0 -> Forall (λ w, is_Some (remotes r0 !! w)) ws ->
  replaying r0 (upto L seen v 0) (sum_list_with (feed_len L) ws) r ->
  wp (for_each ws (λ w,
        len ← reads (λ r, default 0 (Replica.Replica_len <$> remotes r !! w));
        for_each (rangeN 0 len) (replay_remote w)))
     (λ _ r', Forall (λ w, Forall is_entry (default [] (L !! w))) ws
        /\ replaying r0 (upto L (list_to_set ws ∪ seen) v 0) 0 r') (λ e _, replay_error L e) r.
Proof.
  intros Hc. revert seen r. induction ws as [|w ws IH]; intros seen r Hws Hr.
  { apply wp_ret. split; [done|]. eapply replaying_ext; [|exact Hr]. intros m. f_equal. cbn. set_solver. }
  apply Forall_cons in Hws as [[rep Hrep] Hws]. destruct (k_remote _ _ Hc w rep Hrep) as (_ & _ & bs & HLw & Hof).
  cbn [for_each]. apply wp_bind, wp_bind, wp_reads. rewrite (ry_remotes _ _ _ _ Hr), Hrep.
  cbn [fmap option_fmap option_map default].
  replace (Replica.Replica_len rep) with (lenN bs) by (symmetry; apply (o_tree _ _ Hof)).
  eapply wp_mono; [eapply (replay_feed r0 L seen w bs (sum_list_with (feed_len L) ws)); [done| |]| |exact (λ _ _ X, X)].
  - intros k b m r' Hb Hry. by eapply replay_remote_spec.
  - cbn in Hr. unfold feed_len at 1 in Hr. rewrite HLw in Hr. eapply replaying_ext; [|exact Hr]. intros m. apply upto_zero.
  - intros [] r2 [Hf Hr2]. eapply wp_mono; [apply (IH ({[ w ]} ∪ seen)); [done|]| |exact (λ _ _ X, X)].
    + eapply replaying_ext; [|exact Hr2]. intros m. apply upto_zero.
    + intros [] r3 [Hfs Hr3]. split; [constructor; [by rewrite HLw|done]|].
      eapply replaying_ext; [|exact Hr3]. intros m. f_equal. cbn. set_solver.
Qed.

(** *** [replay] *)

(** Nothing is delivered or folded yet. *)
Record unfolded r : Prop := mkUnfolded {
  uf_deps : deps (lin r) = ∅;
  uf_ok : lin_ok (lin r);
  uf_payloads : payloads r = ∅;
  uf_pending : pending r = [];
  uf_len : finalized_len r = 0%nat;
  uf_proj : finalized_proj r = genesis_proj r }.

Lemma unfolded_replaying L r v n : unfolded r -> N.of_nat n < two64 -> replaying r (upto L ∅ v 0) n r.
Proof.
  intros [Ed Hl Ep Ee En Ej] Hn. constructor; try done.
  - constructor.
    + constructor; rewrite ?Ed, ?Ep, ?Ee; try done; [by intros ? ? ?%elem_of_nil|].
      intros m e. unfold upto. rewrite bool_decide_false by set_solver. rewrite (proj2 (N.ltb_ge _ _)) by lia.
      by rewrite andb_false_r.
    + lia.
    + exists []. split_and!; [done|constructor|done].
  - unfold roomy, total. by rewrite Ed, Ee.
Qed.

Definition replayed L r0 r : Prop :=
  room_ok L r /\ roomy 0 r /\ current r /\ settled (lin r) (pending r) /\ kept r0 r /\ cores_same r0 r
  /\ finalized_since_poll r = [].

Lemma room_replay_spec L r0 :
  cores_ok L r0 -> feeds_small L -> unfolded r0 ->
  wp replay (λ _ r, decodable L /\ replayed L r0 r) (λ e _, replay_error L e) r0.
Proof.
  intros Hc Hsm Hun. pose proof (writers_perm L r0 Hc) as Hperm.
  destruct (k_local _ _ Hc) as (lg & Hlg & Hall & HLo). set (ws := (bmap_list (remotes r0)).*1) in *.
  assert (Hsum : feeds_small L -> N.of_nat (length (l_blocks lg) + sum_list_with (feed_len L) ws) < two64).
  { unfold feeds_small. rewrite sum_feeds, <- Hperm. cbn. unfold feed_len at 1. by rewrite HLo. }
  apply wp_bind, wp_reads, wp_bind.
  replace (Hypercore.len (local r0)) with (lenN (l_blocks lg)) by (symmetry; apply (r_tree _ _ (proj1 Hlg))).
  eapply wp_mono; [eapply (replay_feed r0 L ∅ (local_key r0)); [done| |apply (unfolded_replaying L); [done|by apply Hsum]]| |exact (λ _ _ X, X)].
  { intros k b m r' Hb Hry. by eapply replay_local_spec. }
  intros [] r1 [Hfo Hr1]. apply wp_bind, wp_reads. rewrite (ry_remotes _ _ _ _ Hr1). fold ws. apply wp_bind.
  eapply wp_mono; [apply (replay_writers L r0 ws ({[ local_key r0 ]} ∪ ∅) (local_key r0)); [done| |exact Hr1]| |exact (λ _ _ X, X)].
  { apply Forall_forall. intros w. unfold ws. by rewrite bmap_list_keys, bmap_keys_elem. }
  intros [] r2 [Hfs [Rl Rm Ro Rk Rb Rd Rr]].
  assert (Hin : forall v bs, L !! v = Some bs -> v ∈ local_key r0 :: ws).
  { intros v bs Hv. rewrite Hperm. apply list_elem_of_fmap. exists (v, bs). split; [done|by apply elem_of_map_to_list]. }
  assert (Hdec : decodable L).
  { intros v bs Hv. pose proof (Hin v bs Hv) as [->|Hw]%elem_of_cons; [congruence|].
    rewrite Forall_forall in Hfs. specialize (Hfs v Hw). by rewrite Hv in Hfs. }
  assert (Hd2 : deliveries_ok (entry_of L) r2).
  { eapply deliveries_ext; [|exact Rd]. intros m. apply upto_all. intros v [bs Hv].
    pose proof (Hin v bs Hv) as Hv'. apply elem_of_cons in Hv'. rewrite !elem_of_union, elem_of_list_to_set, elem_of_singleton. tauto. }
  assert (Hon : ongoing L r0 L r2).
  { split_and!; [split_and!; [split|apply grows_refl|]| |]; try done. eapply cores_frame; [done|by destruct Rk|done..]. }
  apply wp_bind. eapply wp_mono; [by apply (drain_rule L r0 L)| |exact (λ _ _ X, X)].
  intros [] r3 ((([Hc3 Hd3] & _ & Hk3) & Hr3 & Hb3) & Hset & C3). apply wp_bind, (advance_rule L r3); [done|done|].
  intros fin rest r4 [Efin _] Hok4 Hk4 Hcar _ El4 Ee4 Ep4 Elo4 Erm4 Eor4. clearbody r4. apply wp_modify.
  assert (Hcur : current r4).
  { apply (Hcar [] fin); [done| |apply prefix_nil]. destruct Hb3 as [Hl3 Hp3 Hg3 _], Hun.
    split_and!; [by rewrite Hl3|constructor|]. cbn. congruence. }
  split; [done|]. set (r5 := set_finalized r4 _ _ _). assert (Hq : quiet r4 r5) by (by constructor).
  split_and!; [|unfold roomy, r5 in *; cbn; by rewrite El4, Ee4| |unfold r5; cbn; by rewrite El4, Ee4| | |done].
  - destruct Hok4 as [Hc4 Hd4]. split; [by eapply cores_frame|by eapply deliveries_frame].
  - apply (proj1 (quiet_follows _ _ Hq)); [|done]. intros f1 f2. unfold r5. cbn. intros H1 H2. by assert (f1 = f2) as -> by congruence.
  - eapply kept_trans; [exact Hk3|]. eapply kept_trans; [exact Hk4|by apply kept_frame].
  - destruct C3 as (C1 & C2 & C3). split_and!; unfold r5; cbn; congruence.
Qed.
End Replay.
End RoomReplay.
