(* ===== verification/RoomOpen.v ===== *)
(** * [roomnet]: opening a room

    [open], [reopen_writer] and [replay] of [src/crates/roomnet/src/room.rs]: a room
    opened over stores that hold feeds has those feeds, delivers their entries and
    folds them from the projection it is given. *)
From S2P Require Import Prelude Codec Flat Merkle MerkleSpec MerkleProofs Store Bitfield Identity Linearizer LinearizerDag LinearizerView.
From S2P Require Import LinearizerTheorems Hypercore HypercoreMeta HypercoreLog HypercoreOps HypercoreDurable HypercoreTheorems.
From S2P Require Import Replica ReplicaTheorems Wire Room RoomCore RoomDag RoomInv RoomView RoomOps RoomReplay.

Module RoomOpen.
Import Linearizer LinearizerDag LinearizerTheorems.
Import MerkleSpec HypercoreLog HypercoreDurable ReplicaTheorems Room RoomCore RoomDag RoomInv RoomView RoomOps RoomReplay.
Import Hypercore (Hypercore, SignedHead, h_fork, h_length, h_root).
Import Replica (Replica, rp_public, rp_head, rp_tree, rp_store).

Section Open.
Context `{HL : HasherLaws} `{EL : Ed25519Laws} {S E : Type} `{SL : Store.StoreLaws S E}
  {F OE : Type} `{!StoreFactory F S OE, !FactoryLaws F S OE E} {P State PE : Type} `{!Projection P State PE}
  `{PL : !ProjectionLaws P State PE}.
Implicit Types (r : Room S F P) (L : feeds) (R : Error E OE -> Room S F P -> Prop).

(** ** What the stores hold *)

(** The factory opens [disk] and lists [ws], whatever it opened before. *)
Definition opens (f : F) (disk : WriterKey -> S) (ws : list WriterKey) (Fok : F -> Prop) : Prop :=
  Fok f /\ forall f', Fok f' -> known_writers f' = Done ws
    /\ forall w, exists f'', factory_open f' w = (f'', Ok (disk w)) /\ Fok f''.

Record on_disk (id : Identity.SecretKey) (disk : WriterKey -> S) (ws : list WriterKey) L : Prop := mkOnDisk {
  od_own : exists bs, L !! Identity.to_bytes (Identity.public id) = Some bs
             /\ own_disk (E:=E) id (disk (Identity.to_bytes (Identity.public id))) bs;
  od_remote : forall w, w ∈ ws -> w <> Identity.to_bytes (Identity.public id) -> remote_disk (E:=E) w (disk w) (L !! w);
  od_dom : forall w, is_Some (L !! w) -> w = Identity.to_bytes (Identity.public id) \/ w ∈ ws;
  od_auth : forall w bs i b, w <> Identity.to_bytes (Identity.public id) -> L !! w = Some bs -> bs !! i = Some b ->
              attested w (N.of_nat i) b }.

(** ** The replicas *)

(** Some of the persisted writers are taken up. *)
Record reopening r0 L (Fok : F -> Prop) (rest : list WriterKey) r : Prop := mkReopening {
  ro_frame : exists m f, r = set_remotes (set_factory r0 f) m /\ Fok f;
  ro_remote : forall w rep, remotes r !! w = Some rep ->
    w <> local_key r0 /\ Identity.from_bytes w = Some (rp_public rep)
    /\ exists bs, L !! w = Some bs /\ replica_of bs rep /\ replica_disk (E:=E) w rep bs;
  ro_dom : forall w, is_Some (L !! w) -> w = local_key r0 \/ w ∈ rest \/ is_Some (remotes r !! w) }.

Lemma reopen_one r0 L f disk ws Fok w rest r R :
  opens f disk ws Fok -> (w <> local_key r0 -> remote_disk (E:=E) w (disk w) (L !! w)) ->
  reopening r0 L Fok (w :: rest) r -> wp (reopen_writer w) (λ _, reopening r0 L Fok rest) R r.
Proof.
  intros [_ Hop] Hdisk [(m & f1 & -> & Hf1) Hrem Hdom]. apply wp_bind, wp_reads. cbn [local_key set_remotes set_factory].
  case_bool_decide as Hw.
  { apply wp_ret. constructor; [by eexists m, f1|done|]. intros v Hv. destruct (Hdom v Hv) as [?|[Hin|?]]; [by left| |by right; right].
    apply elem_of_cons in Hin as [->|?]; [by left|by right; left]. }
  destruct (Hdisk Hw) as (pk & Hpk & Hd). apply wp_bind. unfold wp at 1, tries. rewrite Hpk. cbn [ok_or].
  destruct (Hop f1 Hf1) as [_ Ho]. destruct (Ho w) as (f2 & Ef2 & Hf2).
  apply wp_bind. unfold wp at 1, open_store. cbn [factory set_remotes set_factory]. rewrite Ef2. cbn [map_err].
  apply wp_bind. destruct (L !! w) as [bs|] eqn:HLw.
  - destruct Hd as (rep & Erep & Hpub & Hst & Hof & Hvp). eapply wp_runs; [exact Erep|]. apply wp_modify.
    constructor; cbn [remotes set_remotes set_factory] in *.
    + by exists (<[w := rep]> m), f2.
    + intros v rep' Hv. destruct (decide (v = w)) as [->|Hne].
      * rewrite lookup_insert_eq in Hv. injection Hv as <-. split_and!; [done|by rewrite Hpub|].
        exists bs. split_and!; [done..|]. right; left. rewrite Hvp, Hst. exists pk. split; [done|by exists rep].
      * rewrite lookup_insert_ne in Hv by done. by apply Hrem.
    + intros v Hv. destruct (decide (v = w)) as [->|Hne]; [right; right; by rewrite lookup_insert_eq|].
      rewrite lookup_insert_ne by done. destruct (Hdom v Hv) as [?|[Hin|?]]; [by left| |by right; right].
      apply elem_of_cons in Hin as [->|?]; [done|by right; left].
  - eapply wp_runs; [exact Hd|]. apply wp_ret.
    constructor; cbn [remotes set_remotes set_factory] in *; [by exists m, f2|done|].
    intros v Hv. destruct (Hdom v Hv) as [?|[Hin|?]]; [by left| |by right; right].
    apply elem_of_cons in Hin as [->|?]; [|by right; left]. rewrite HLw in Hv. by destruct Hv.
Qed.

Lemma reopen_all r0 L f disk ws Fok r R :
  opens f disk ws Fok -> (forall w, w ∈ ws -> w <> local_key r0 -> remote_disk (E:=E) w (disk w) (L !! w)) ->
  reopening r0 L Fok ws r -> wp (for_each ws reopen_writer) (λ _, reopening r0 L Fok []) R r.
Proof.
  intros Hop Hd Hr. cut (wp (for_each ws reopen_writer)
    (λ _ r', reopening r0 L Fok [] r' /\ Forall (λ w, w <> local_key r0 -> remote_disk (E:=E) w (disk w) (L !! w)) []) R r).
  { intros Hw. eapply wp_mono; [exact Hw|by intros [] r' []|exact (λ _ _ X, X)]. }
  apply (wp_for_each (λ rest r', reopening r0 L Fok rest r'
    /\ Forall (λ w, w <> local_key r0 -> remote_disk (E:=E) w (disk w) (L !! w)) rest)).
  - split; [done|]. apply Forall_forall. exact Hd.
  - intros w rest r' [Hr' [Hw Hrest]%Forall_cons]. eapply wp_mono; [by apply (reopen_one r0 L f disk ws Fok w rest)| |exact (λ _ _ X, X)].
    by intros [] r2 Hr2.
Qed.
(** ** [open] *)

(** The linearizer a room starts with. *)
Definition start_lin (cfg : RoomConfig) : Linearizer :=
  match cfg_indexers cfg with [] => Linearizer.new | ix => Linearizer.with_indexers ix end.

(** What an opened room is. *)
Record opened (cfg : RoomConfig) (p : P) L r : Prop := mkOpened {
  op_ok : room_ok L r;
  op_roomy : roomy 0 r;
  op_current : current r;
  op_settled : settled (lin r) (pending r);
  op_key : local_key r = Identity.to_bytes (Identity.public (identity cfg));
  op_origin : origin r = cfg_origin cfg;
  op_genesis : genesis_proj r = p;
  op_config : same_config (start_lin cfg) (lin r);
  op_recovery : own_recovery r = None;
  op_poll : finalized_since_poll r = [] }.

Lemma open_local_spec id f disk ws Fok bs :
  opens f disk ws Fok -> own_disk (E:=E) id (disk (Identity.to_bytes (Identity.public id))) bs ->
  store_fails (S:=S) (E:=E) \/
  exists f' c lg, open_local (E:=E) id f = Done (f', Ok c) /\ Fok f' /\ repr lg c /\ all_held lg /\ l_blocks lg = bs
    /\ Hypercore.public c = Identity.public id /\ Hypercore.author c = id
    /\ Hypercore.store c = disk (Identity.to_bytes (Identity.public id)).
Proof.
  intros [Hf Hop] [?|(c & lg & Hr & Hall & Hbs & Ha & Es & Hopen)]; [by left|right]. set (k := Identity.to_bytes _) in *.
  destruct (Hop f Hf) as [_ Ho]. destruct (Ho k) as (f1 & E1 & Hf1).
  assert (Hp : Hypercore.public c = Identity.public id) by (rewrite (r_public _ _ (proj1 Hr)); by rewrite Ha).
  unfold open_local. fold k. rewrite E1. destruct Hopen as [->|[-> ->]]; rsimpl; [by exists f1, c, lg|].
  destruct (Hop f1 Hf1) as [_ Ho1]. destruct (Ho1 k) as (f2 & E2 & Hf2). rewrite E2. by exists f2, (Hypercore.new id (disk k)), lg.
Qed.

Lemma start_ok cfg : lin_ok (start_lin cfg) /\ deps (start_lin cfg) = ∅.
Proof.
  unfold start_lin. destruct (cfg_indexers cfg); [split; [apply history_ok, lh_new|done]|].
  split; [apply history_ok, lh_indexers|done].
Qed.

Lemma open_room_spec cfg f p disk ws Fok L :
  opens f disk ws Fok -> on_disk (identity cfg) disk ws L -> feeds_small L ->
  store_fails (S:=S) (E:=E)
  \/ decodable L /\ (exists r, open (OE:=OE) (E:=E) cfg f p = Done (Ok r) /\ opened cfg p L r)
  \/ ~ decodable L /\ exists ce, open (OE:=OE) (E:=E) cfg f p = Done (Err (Hypercore_ (Hypercore.Codec_ ce))).
Proof.
  intros Hop [(bs & HLo & Hown) Hrem Hdom Hauth] Hsm.
  pose proof Hown as Hown'.
  destruct (open_local_spec _ f disk ws Fok bs Hop Hown) as [?|(f1 & c & lg & Eo & Hf1 & Hr & Hall & Hbs & Hpub & Hau & Hst)]; [by left|].
  unfold open. rewrite Eo. rsimpl. set (r0 := fresh_room cfg c f1 p).
  set (body := ws ← calls (λ r, known_writers (factory r)); _ ← for_each ws reopen_writer; replay).
  assert (Hw : wp body (λ _ r, decodable L /\ opened cfg p L r) (λ e _, replay_error L e) r0).
  { assert (Hop1 : opens f1 disk ws Fok) by (split; [done|apply Hop]).
    apply wp_bind. eapply wp_calls; [apply (proj2 Hop1 f1 Hf1)|]. apply wp_bind.
    eapply wp_mono; [apply (reopen_all r0 L f1 disk ws Fok); [done|done|]| |exact (λ _ _ X, X)].
    { constructor; [by exists ∅, f1|done|]. intros w [?|?]%Hdom; [by left|by right; left]. }
    intros [] r1 [(m & f2 & -> & _) Hrem1 Hdom1]. set (r1 := set_remotes _ _) in *.
    assert (Hc : cores_ok L r1).
    { constructor; [by cbn; rewrite Hpub| | | | | |done].
      - exists lg. by rewrite Hbs.
      - intros w rep Hw. destruct (Hrem1 w rep Hw) as (? & ? & vs & ? & ? & _). split_and!; [done..|by exists vs].
      - intros vs. cbn. rewrite HLo. intros [= <-]. by rewrite Hau, Hst.
      - intros w rep vs Hw Hv. destruct (Hrem1 w rep Hw) as (_ & _ & vs' & Hv' & _ & Hdk). by simplify_eq.
      - intros w [?|[?%elem_of_nil|?]]%Hdom1; [by left|done|by right]. }
    destruct (start_ok cfg) as [Hl0 Ed0].
    eapply wp_mono; [apply (room_replay_spec L r1); [done..|by constructor]| |exact (λ _ _ X, X)].
    intros [] r2 (Hdec & Hok & Hroomy & Hcur & Hset & [Ek Eor Eg Ecf _ _] & (_ & _ & Erec) & Hq). split; [done|]. by constructor. }
  unfold wp in Hw. destruct (body r0) as [[r [[]|e]]| |]; [| |done..].
  - right; left. destruct Hw as [Hdec Ho]. split; [done|]. by exists r.
  - destruct Hw as [[? _]|[Hnd (ce & ->)]]; [by left|right; right]. split; [done|by exists ce].
Qed.
(** ** What a room's own stores bring back *)

(** Per writer the blocks under the replica's head; a replica that was never
    persisted is not brought back. *)
Definition brought_back L r : feeds :=
  map_imap (λ w bs,
    if bool_decide (w = local_key r) then Some bs
    else rep ← remotes r !! w;
         match Replica.Replica_open (E:=E) (rp_public rep) (rp_store rep) with
         | Done (Ok _) => Some (verified_part rep bs)
         | _ => None
         end) L.

(** The stores of a room, by writer. *)
Definition disk_of r (other : S) (w : WriterKey) : S :=
  if bool_decide (w = local_key r) then Hypercore.store (local r)
  else from_option rp_store other (remotes r !! w).

Lemma verified_sub (rep : Replica S) bs i b : verified_part rep bs !! i = Some b -> bs !! i = Some b.
Proof. unfold verified_part. destruct (rp_head rep); [|done]. by intros [? _]%lookup_take_Some. Qed.

Lemma brought_back_disk L r ws other :
  room_ok L r -> ~ store_fails (S:=S) (E:=E) -> (forall w, w ∈ ws -> w = local_key r \/ is_Some (remotes r !! w)) ->
  (forall w, is_Some (remotes r !! w) -> w ∈ ws) ->
  on_disk (Hypercore.author (local r)) (disk_of r other) ws (brought_back L r).
Proof.
  intros [Hc _] Hnf Hws1 Hws2.
  assert (Hkey : Identity.to_bytes (Identity.public (Hypercore.author (local r))) = local_key r).
  { destruct (k_local _ _ Hc) as (lg & Hlg & _). by rewrite (k_key _ _ Hc), (r_public _ _ (proj1 Hlg)). }
  assert (Hrem : forall w rep, remotes r !! w = Some rep -> w <> local_key r /\ exists bs, L !! w = Some bs
    /\ remote_disk (E:=E) w (rp_store rep) (brought_back L r !! w)).
  { intros w rep Hw. destruct (k_remote _ _ Hc w rep Hw) as (Hne & Hpk & bs & HLw & Hof). split; [done|]. exists bs. split; [done|].
    unfold brought_back. rewrite map_lookup_imap, HLw. rsimpl. rewrite bool_decide_false, Hw by done. rsimpl.
    destruct (k_rdisk _ _ Hc w rep bs Hw HLw) as [?|[Hd|[_ Hd]]]; [done|..].
    - destruct Hd as (pk & Epk & rep' & Eo & Hrest). assert (pk = rp_public rep) as -> by congruence. rewrite Eo.
      exists (rp_public rep). split; [done|]. by exists rep'.
    - destruct Hd as (pk & Epk & Eo). assert (pk = rp_public rep) as -> by congruence. rewrite Eo. by exists (rp_public rep). }
  constructor; rewrite ?Hkey.
  - destruct (k_local _ _ Hc) as (lg & _ & _ & HLo). exists (l_blocks lg). unfold brought_back, disk_of.
    rewrite map_lookup_imap, HLo. rsimpl. rewrite !bool_decide_true by done. split; [done|]. by apply (k_disk _ _ Hc).
  - intros w Hw Hne. unfold disk_of. rewrite bool_decide_false by done.
    destruct (Hws1 w Hw) as [?|[rep Hrep]]; [done|]. rewrite Hrep. cbn. by destruct (Hrem w rep Hrep) as (_ & bs & _ & Hd).
  - intros w. unfold brought_back. rewrite map_lookup_imap. intros Hs.
    destruct (L !! w) as [bs|] eqn:HLw; [|by destruct Hs].
    destruct (k_dom _ _ Hc w) as [?|?]; [by eexists|by left|right; by apply Hws2].
  - intros w bs i b Hne. unfold brought_back. rewrite map_lookup_imap. destruct (L !! w) as [bs0|] eqn:HLw; [|done]. rsimpl.
    rewrite bool_decide_false by done. destruct (remotes r !! w) as [rep|]; [|done]. rsimpl.
    destruct (Replica.Replica_open _ _) as [[rep'|]| |]; [|done..]. intros [= <-] Hi. apply (k_auth _ _ Hc w bs0); [done..|].
    by eapply verified_sub.
Qed.
End Open.
End RoomOpen.
