(* ===== verification/RoomSync.v ===== *)
(** * [roomnet]: one room brings another up to date

    The exchange of [src/crates/roomnet/src/room.rs] between two rooms: an advert is
    answered by a request, the request by blocks with proofs, and the blocks, read in
    order, leave the asking room with the whole feed.  A room that holds more of a
    feed than its head covers serves proofs the head does not verify. *)
From S2P Require Import Prelude Codec Flat Merkle MerkleSpec MerkleProofs Store Bitfield Identity Linearizer LinearizerDag LinearizerView.
From S2P Require Import LinearizerTheorems Hypercore HypercoreMeta HypercoreLog HypercoreOps HypercoreDurable HypercoreTheorems.
From S2P Require Import MerkleFork MerkleHistory Replica ReplicaTheorems Wire Room RoomCore RoomDag RoomInv RoomView RoomOps RoomReplay RoomRecovery RoomMessages RoomLife.

Module RoomSync.
Import Linearizer LinearizerDag LinearizerTheorems.
Import MerkleSpec MerkleProofs HypercoreLog HypercoreDurable Room RoomCore RoomDag RoomInv RoomView.
Import RoomOps RoomReplay RoomRecovery RoomMessages RoomLife.
Import ReplicaTheorems (replica_of, o_tree, o_head, vouches, head_ok_vouches, head_after).
Import Hypercore (Hypercore, SignedHead, h_fork, h_length, h_root).
Import Replica (Replica, rp_public, rp_head, rp_tree, rp_store).
Import Wire (SyncMessage, Head, Have, Want, Block).

Section Sync.
Context `{HL : HasherLaws} `{EL : Ed25519Laws} {S E : Type} `{SL : Store.StoreLaws S E}
  {F OE : Type} `{!StoreFactory F S OE, !FactoryLaws F S OE E} {P State PE : Type} `{!Projection P State PE}
  `{PL : !ProjectionLaws P State PE}.
Implicit Types (r : Room S F P) (L : feeds) (R : Error E OE -> Room S F P -> Prop) (from : PeerId).

(** The head a room shows vouches for the feed it has. *)
Lemma head_vouches L r w h bs :
  room_ok L r -> head_of r w = Some h -> L !! w = Some bs ->
  exists pk, Identity.from_bytes w = Some pk /\ vouches pk bs h.
Proof.
  intros [Hc _]. unfold head_of. case_bool_decide as Hw; intros Hh HLw.
  - subst w. destruct (k_local _ _ Hc) as (lg & (Hco & Hs & _) & _ & HLlg). assert (l_blocks lg = bs) as <- by congruence.
    unfold signed in Hs. rewrite Hh in Hs. exists (Hypercore.public (local r)). split.
    + rewrite (k_key _ _ Hc). apply vk_from_to.
    + eapply head_ok_vouches; [apply (r_fork_ok _ _ Hco)|exact Hs].
  - destruct (remotes r !! w) as [rep|] eqn:Er; [|done]. cbn in Hh.
    destruct (k_remote _ _ Hc w rep Er) as (_ & Hpk & bs' & HLw' & Hof). assert (bs' = bs) as -> by congruence.
    exists (rp_public rep). split; [done|]. by apply Hof.
Qed.

(** A head that covers the feed verifies what is served with it. *)
Lemma serves_verify bs w h from i o pk :
  serves bs w h from i o -> vouches pk bs h -> h_length h = lenN bs ->
  exists b p, bs !! N.to_nat i = Some b /\ o = block_out w h i b p (Peer from)
    /\ Hypercore.verify_block pk h i b p = true.
Proof.
  intros (b & p & Hb & -> & Hi & Hp) (_ & _ & (_ & _ & Hroot & Hv)) Hl. exists b, p. split_and!; [done..|].
  rewrite take_ge in Hroot by (unfold lenN in Hl; lia). unfold Hypercore.verify_block.
  by rewrite Hv, Hi, N.eqb_refl, Hroot.
Qed.

(** A proof has one root. *)
Lemma proof_root p b x y : Merkle.Proof_verify p b x = true -> Merkle.Proof_verify p b y = true -> x = y.
Proof.
  unfold Merkle.Proof_verify. destruct (negb _); [done|]. destruct (Merkle.climb _ _) as [n|]; [|done].
  destruct (Merkle.substitute _ _ _) as [rs|]; [|done]. rewrite !bool_decide_eq_true. congruence.
Qed.

(** A head of less than the feed verifies nothing that is served with it. *)
Lemma serves_midway bs w h from i o pk :
  serves bs w h from i o -> vouches pk bs h -> h_length h < lenN bs -> lenN bs <= Flat.max_blocks -> blocks_ok bs ->
  collision_free (hash_inputs (take (N.to_nat (h_length h)) bs) ++ hash_inputs bs) ->
  exists b p, o = block_out w h i b p (Peer from) /\ forall pk', Hypercore.verify_block pk' h i b p = false.
Proof.
  intros (b & p & Hb & -> & Hi & Hp) (_ & _ & (_ & _ & Hroot & _)) Hl Hn Hok Hcf. exists b, p. split; [done|]. intros pk'.
  unfold Hypercore.verify_block. destruct (Merkle.Proof_verify p b (h_root h)) eqn:Ev; [|by rewrite andb_false_r].
  exfalso. pose proof (proof_root _ _ _ _ Hp Ev) as Heq. rewrite Hroot in Heq.
  assert (Ht : take (N.to_nat (h_length h)) bs = bs).
  { symmetry in Heq. apply MerkleFork.root_hash_commits; [rewrite lenN_take; lia|lia|by apply Forall_take|done..]. }
  apply (f_equal length) in Ht. rewrite length_take in Ht. unfold lenN in Hl. lia.
Qed.

(** ** Reading the answer *)

(** The messages of a peer, handled in order. *)
Definition inbox from (out : list Outbound) : act (Room S F P) (Error E OE) unit :=
  for_each out (λ o, _ ← on_inbound from (msg o); mret tt).

(** What they store fits, all along. *)
Fixpoint receivable from (out : list Outbound) r : Prop :=
  match out with
  | [] => True
  | o :: out' => call_ok (E:=E) (OE:=OE) r (On_inbound from (msg o))
      /\ forall r' a, on_inbound (E:=E) (OE:=OE) from (msg o) r = Done (r', Ok a) -> receivable from out' r'
  end.

(** The key of the replica a block goes to. *)
Lemma replica_for_key L r w pk rep :
  room_ok L r -> Identity.from_bytes w = Some pk -> replica_for r w = Some rep ->
  rp_public rep = pk /\ forall old, feed_of L w old -> w <> local_key r -> Replica.Replica_len rep = lenN old.
Proof.
  intros [Hc _] Hpk. unfold replica_for. destruct (remotes r !! w) as [rep0|] eqn:Er.
  - intros [= ->]. destruct (k_remote _ _ Hc w rep Er) as (_ & Hpk' & bs & HLw & Hof). split; [congruence|].
    intros old [Ho|[Ho _]] _; [|congruence]. assert (old = bs) as -> by congruence. apply (o_tree _ _ Hof).
  - rewrite Hpk. destruct (factory_open _ _).2 as [s|]; [|done]. intros [= <-]. split; [done|].
    intros old [Ho|[_ ->]] Hw; [|done]. exfalso. destruct (k_dom _ _ Hc w) as [?|[? ?]]; [by eexists|done|congruence].
Qed.

Lemma feed_of_unique L w a b : feed_of L w a -> feed_of L w b -> a = b.
Proof. intros [Ha|[Ha ->]] [Hb|[Hb ->]]; congruence. Qed.

(** One served block is read: it is the next one, and is taken. *)
Lemma receive_one L r w h pk bs from fr i o :
  room_ok L r -> w <> local_key r -> Identity.from_bytes w = Some pk -> vouches pk bs h -> h_length h = lenN bs ->
  Forall is_entry bs -> is_Some (replica_for r w) -> feed_of L w (take (N.to_nat i) bs) -> i < lenN bs ->
  serves bs w h fr i o -> call_ok (E:=E) (OE:=OE) r (On_inbound from (msg o)) ->
  wp (on_inbound from (msg o))
    (λ _ r', exists L', stepped L r L' r' /\ feed_of L' w (take (N.to_nat (i + 1)) bs)
       /\ local_key r' = local_key r /\ is_Some (replica_for r' w) /\ (i + 1 = lenN bs -> head_of r' w = Some h))
    (λ e _, store_error (S:=S) (OE:=OE) e) r.
Proof.
  intros Hok Hw Hpk Hvo Hl Hent [rep Hrep] Hfo Hi Hs [_ Hcall].
  destruct (serves_verify bs w h fr i o pk Hs Hvo Hl) as (b & p & Hb & -> & Hv). cbn [msg block_out] in *.
  rewrite decide_False in Hcall by done. destruct (replica_for_key L r w pk rep Hok Hpk Hrep) as [Hkey Hlen].
  assert (Hacc : accepts r w h i b p = true).
  { unfold accepts. rewrite Hrep, Hkey, Hv, andb_true_r, (Hlen _ Hfo Hw), lenN_take by lia. apply N.eqb_refl. }
  eapply wp_mono; [by apply (on_block_remote L)| |].
  - intros out r' (L' & (Hst & _) & _ & Hpost). rewrite Hacc in Hpost. destruct Hpost as (_ & _ & old & rp & rp' & Hold & Eo & -> & Erp & Er' & Eh).
    assert (old = take (N.to_nat i) bs) as -> by (by eapply feed_of_unique).
    pose proof Hst as (_ & _ & Hk). exists (<[w := take (N.to_nat i) bs ++ [b]]> L).
    rewrite (ReplicaTheorems.take_next _ _ _ Hb). split_and!; [done|left; apply lookup_insert_eq|apply Hk| |].
    + unfold replica_for. by rewrite Er'.
    + intros Hlast. unfold head_of. rewrite (kp_key _ _ Hk), bool_decide_false, Er' by done. rsimpl.
      unfold Replica.verified_head. rewrite Eh. unfold head_after. rewrite <- (ReplicaTheorems.take_next _ _ _ Hb), Hlast.
      rewrite take_ge by (unfold lenN; lia). destruct Hvo as (_ & _ & (_ & _ & Hroot & _)).
      rewrite take_ge in Hroot by (unfold lenN in Hl; lia). by rewrite Hl, N.eqb_refl, Hroot, bool_decide_true.
  - intros e r' [He|[He _]]; [done|exfalso]. destruct He as [[_ He]|[(oe & _ & He)|(ce & _ & He)]]; [congruence..|].
    destruct (Forall_lookup_1 _ _ _ _ Hent Hb). congruence.
Qed.

(** The whole answer is read. *)
Lemma receive_all L r w h pk bs from fr out k :
  room_ok L r -> w <> local_key r -> Identity.from_bytes w = Some pk -> vouches pk bs h -> h_length h = lenN bs ->
  Forall is_entry bs -> is_Some (replica_for r w) -> feed_of L w (take (N.to_nat k) bs) -> k <= lenN bs ->
  Forall2 (serves bs w h fr) (rangeN k (lenN bs)) out -> receivable from out r ->
  wp (inbox from out)
    (λ _ r', exists L', room_ok L' r' /\ grows L L' /\ kept r r' /\ feed_of L' w bs
       /\ (k < lenN bs \/ head_of r w = Some h -> head_of r' w = Some h))
    (λ e _, store_error (S:=S) (OE:=OE) e) r.
Proof.
  revert L r k. induction out as [|o out IH]; intros L r k Hok Hw Hpk Hvo Hl Hent Hrep Hfo Hk Hs Hrc.
  - destruct (decide (k = lenN bs)) as [->|Hne].
    2: { rewrite rangeN_cons in Hs by lia. by apply Forall2_nil_inv_r in Hs. }
    apply wp_ret. rewrite take_ge in Hfo by (unfold lenN; lia). exists L.
    split_and!; [done|apply grows_refl|apply kept_refl|done|intros [?|?]; [lia|done]].
  - destruct (decide (k = lenN bs)) as [->|Hne]; [rewrite rangeN_nil in Hs by lia; by apply Forall2_nil_inv_l in Hs|].
    rewrite rangeN_cons in Hs by lia. apply Forall2_cons in Hs as [Ho Hs]. destruct Hrc as [Hcall Hrc].
    cbn [inbox for_each]. apply wp_bind, wp_bind.
    pose proof (receive_one L r w h pk bs from fr k o Hok Hw Hpk Hvo Hl Hent Hrep Hfo ltac:(lia) Ho Hcall) as Hone.
    unfold wp in Hone |- * at 1. destruct (on_inbound from (msg o) r) as [[r1 [a|e]]| |]; [|done..].
    destruct Hone as (L1 & (Hok1 & Hg1 & Hk1) & Hfo1 & Ek1 & Hrep1 & Hhd1). apply wp_ret.
    eapply wp_mono; [apply (IH L1 r1 (k + 1)); [done|by rewrite Ek1|done..|lia|done|by eapply Hrc]| |done].
    intros [] r2 (L2 & Hok2 & Hg2 & Hk2 & Hfo2 & Hhd2). exists L2.
    split_and!; [done|by eapply grows_trans|by eapply kept_trans|done|].
    intros _. apply Hhd2. destruct (decide (k + 1 = lenN bs)) as [Hlast|]; [right; by apply Hhd1|left; lia].
Qed.
End Sync.
End RoomSync.
