(* ===== verification/RoomTheorems.v ===== *)
(** * [roomnet]: what a room guarantees

    The properties of [src/crates/roomnet/src/room.rs] over runs of calls: safety of
    every call, convergence of rooms that hold the same feeds, what the own and the
    other writers' blocks become, reopening, and synchronisation. *)
From S2P Require Import Prelude Codec Flat Merkle MerkleSpec MerkleProofs MerkleFork Store Bitfield Identity.
From S2P Require Import Linearizer LinearizerDag LinearizerView LinearizerTheorems.
From S2P Require Import Hypercore HypercoreMeta HypercoreLog HypercoreOps HypercoreDurable HypercoreTheorems.
From S2P Require Import Replica ReplicaTheorems Wire Room RoomCore RoomDag RoomInv RoomView RoomOps RoomReplay.
From S2P Require Import RoomRecovery RoomMessages RoomLife RoomOpen RoomSync.

Module RoomTheorems.
Import Linearizer LinearizerDag LinearizerTheorems.
Import MerkleSpec MerkleProofs HypercoreLog HypercoreDurable Room RoomCore RoomDag RoomInv RoomView.
Import RoomOps RoomReplay RoomRecovery RoomMessages RoomLife RoomOpen RoomSync.
Import ReplicaTheorems (replica_of, o_tree, o_small, o_blocks, head_after).
Import Hypercore (Hypercore, SignedHead, h_fork, h_length, h_root).
Import Replica (Replica, rp_public, rp_head, rp_tree, rp_store).
Import Wire (SyncMessage, Head, Have, Want, Block).

Section Theorems.
Context `{HL : HasherLaws} `{EL : Ed25519Laws} {S E : Type} `{SL : Store.StoreLaws S E}
  {F OE : Type} `{!StoreFactory F S OE, !FactoryLaws F S OE E} {P State PE : Type} `{!Projection P State PE}
  `{PL : !ProjectionLaws P State PE}.
Implicit Types (r : Room S F P) (L : feeds) (from : PeerId).

Lemma same_entries L1 L2 n : same_feeds L1 L2 -> entry_of L1 n = entry_of L2 n.
Proof.
  intros Hs. specialize (Hs (key n)). unfold entry_of.
  assert (Hnil : entry_in [] (seq n) = None) by done.
  destruct (L1 !! key n), (L2 !! key n); cbn in *; subst; done.
Qed.

(** The order, the finalized prefix and the two states are functions of the feeds. *)
Lemma rooms_agree L1 L2 r1 r2 :
  room_ok L1 r1 -> room_ok L2 r2 -> same_feeds L1 L2 -> same_config (lin r1) (lin r2) ->
  settled (lin r1) (pending r1) -> settled (lin r2) (pending r2) -> current r1 -> current r2 ->
  snapshot (genesis_proj r1) = snapshot (genesis_proj r2) ->
  exists o, order r1 = Done o /\ order r2 = Done o /\ lin r1 = lin r2 /\ payloads r1 = payloads r2
    /\ snapshot_finalized r1 = snapshot_finalized r2 /\ snapshot_live r1 = snapshot_live r2.
Proof.
  intros [_ Hd1] [_ Hd2] Hs Hcfg Hs1 Hs2 (fin1 & rest1 & [F1 O1] & (_ & _ & P1) & V1) (fin2 & rest2 & [F2 O2] & (_ & _ & P2) & V2) Hg.
  assert (Hd2' : dag (entry_of L1) (lin r2) (payloads r2) (pending r2)).
  { eapply dag_ext; [|apply (k_dag _ _ Hd2)]. intros n. symmetry. by apply same_entries. }
  destruct (dag_unique _ _ _ _ _ _ _ (k_dag _ _ Hd1) Hd2' Hs1 Hs2 Hcfg) as [El Ep].
  rewrite El in F1, O1. assert (fin1 = fin2) as -> by congruence. assert (rest1 = rest2) as -> by (apply (app_inv_head fin2); congruence).
  exists (fin2 ++ rest2). unfold order, snapshot_finalized, snapshot_live. rewrite El, V1, V2, P1, P2, Ep.
  split_and!; try done; by apply fold_snapshot.
Qed.

(** ** Properties *)

(** C1: A room keeps its invariant: after any run of appends, messages from any
    peers, reconfigurations, polls and checkpoints, the next call returns (no
    panic, no endless loop), and unless reading or writing a store failed, or an
    own block brought back by a peer was no entry, it leaves a room whose cores and
    stores hold feeds that only grew, whose DAG is exactly the entries of the feeds,
    delivered or waiting, and whose folds are folds of the order; a refusal is one
    the methods name. *)
Theorem room_invariant L r cs r' c :
  room_ok L r -> run (E:=E) (OE:=OE) any_step r cs r' -> call_ok r' c ->
  exists L' r2 res, room_ok L' r' /\ grows L L' /\ exec (E:=E) (OE:=OE) c r' = Done (r2, res)
    /\ match res with
       | Ok _ => moved L' r' r2
       | Err e => own_error (S:=S) e \/ refusal r' e /\ moved L' r' r2
       end.
Proof.
  intros Hok Hrun Hc. destruct (run_moved _ L r cs r' Hok Hrun) as (L' & Hok' & Hg & _).
  pose proof (step_ends L' r' c Hok' Hc) as Hw. unfold ends_well, wp in Hw.
  destruct (exec c r') as [[r2 [a|e]]| |]; [| |done..].
  - by exists L', r2, (Ok a).
  - by exists L', r2, (Err e).
Qed.

(** C2: Rooms converge: two rooms opened over any stores, by different authors, that
    ran any calls in which no delivery reordered what was final, and that hold the
    same feeds with nothing deliverable waiting, under the same indexers and base,
    give the same order and have folded the same finalized and live state. *)
Theorem rooms_converge cfg1 cfg2 p1 p2 La Lb a b cs1 cs2 r1 r2 L1 L2 :
  opened cfg1 p1 La a -> opened cfg2 p2 Lb b ->
  run (E:=E) (OE:=OE) steady_step a cs1 r1 -> run (E:=E) (OE:=OE) steady_step b cs2 r2 ->
  room_ok L1 r1 -> room_ok L2 r2 -> same_feeds L1 L2 -> same_config (lin r1) (lin r2) ->
  settled (lin r1) (pending r1) -> settled (lin r2) (pending r2) -> snapshot p1 = snapshot p2 ->
  exists o, order r1 = Done o /\ order r2 = Done o
    /\ snapshot_finalized r1 = snapshot_finalized r2 /\ snapshot_live r1 = snapshot_live r2.
Proof.
  intros Ha Hb Hr1 Hr2 Hok1 Hok2 Hs Hcfg Hs1 Hs2 Hp.
  destruct (run_moved _ La a cs1 r1 (op_ok _ _ _ _ Ha) Hr1) as (_ & _ & _ & _ & G1 & _).
  destruct (run_moved _ Lb b cs2 r2 (op_ok _ _ _ _ Hb) Hr2) as (_ & _ & _ & _ & G2 & _).
  destruct (rooms_agree L1 L2 r1 r2) as (o & E1 & E2 & _ & _ & H1 & H2); try done.
  - eapply run_current; [apply Ha|apply (op_current _ _ _ _ Ha)|done].
  - eapply run_current; [apply Hb|apply (op_current _ _ _ _ Hb)|done].
  - by rewrite G1, G2, (op_genesis _ _ _ _ Ha), (op_genesis _ _ _ _ Hb).
  - by exists o.
Qed.

(** C7: Opening a room over stores that hold feeds returns, and unless a store fails
    succeeds exactly when every block is an entry: the room then has those feeds, its
    DAG holds all that can be delivered, and its folds start from the projection it
    was given.  One block that is no entry makes every attempt fail. *)
Theorem open_correct cfg f p disk ws Fok L :
  opens f disk ws Fok -> on_disk (identity cfg) disk ws L -> feeds_small L ->
  store_fails (S:=S) (E:=E)
  \/ decodable L /\ (exists r, open (OE:=OE) (E:=E) cfg f p = Done (Ok r) /\ opened cfg p L r)
  \/ ~ decodable L /\ exists ce, open (OE:=OE) (E:=E) cfg f p = Done (Err (Hypercore_ (Hypercore.Codec_ ce))).
Proof. apply open_room_spec. Qed.

(** C8: A room over stores that do not fail survives a restart: opened again over its own stores it has its own
    feed and of every other writer the blocks under the last head its replica had
    fully matched; when the heads cover the feeds, nothing waits and the folds were
    current, the reopened room shows the order and the states of before. *)
Theorem reopen_room L r ws other cfg f p Fok :
  Store.StoreTotal S E -> room_ok L r -> opens f (disk_of r other) ws Fok -> identity cfg = Hypercore.author (local r) ->
  (forall w, w ∈ ws -> w = local_key r \/ is_Some (remotes r !! w)) ->
  (forall w, is_Some (remotes r !! w) -> w ∈ ws) ->
  feeds_small (brought_back (E:=E) L r) -> decodable (brought_back (E:=E) L r) ->
  exists r', open (OE:=OE) (E:=E) cfg f p = Done (Ok r') /\ opened cfg p (brought_back (E:=E) L r) r'
    /\ (same_feeds L (brought_back (E:=E) L r) -> same_config (lin r) (start_lin cfg) ->
        settled (lin r) (pending r) -> current r -> snapshot (genesis_proj r) = snapshot p ->
        exists o, order r = Done o /\ order r' = Done o
          /\ snapshot_finalized r = snapshot_finalized r' /\ snapshot_live r = snapshot_live r').
Proof.
  intros Ht Hok Hop Hid Hws1 Hws2 Hsm Hdec. pose proof (total_never_fails Ht) as Hnf.
  pose proof (brought_back_disk L r ws other Hok Hnf Hws1 Hws2) as Hdisk. rewrite <- Hid in Hdisk.
  destruct (open_room_spec cfg f p _ ws Fok _ Hop Hdisk Hsm) as [?|[(_ & r' & Eo & Ho)|[? _]]]; [done| |done].
  exists r'. split_and!; [done..|]. intros Hs Hcfg Hset Hcur Hg. pose proof Ho as [].
  destruct (rooms_agree L (brought_back (E:=E) L r) r r') as (o & E1 & E2 & _ & _ & H1 & H2); try done.
  - eapply same_config_trans; [exact Hcfg|done].
  - by rewrite (op_genesis _ _ _ _ Ho).
  - by exists o.
Qed.
(** C9: An append goes ahead only when the own feed is not being recovered and its
    last block is delivered: then over the next free index the operation enters the
    own log, its store, the DAG and, if nothing final is reordered, the states, and
    the answer is the new head for everyone and the block with a proof that the own
    key verifies.  Otherwise, and only then, it is refused by name and changes
    nothing, unless a store fails. *)
Theorem append_room L r op old :
  let e := Wire.mkEntry (bset_list (Linearizer.heads (lin r))) op in
  room_ok L r -> L !! local_key r = Some old -> append_ok r op ->
  exists r' res, local_append (E:=E) (OE:=OE) op r = Done (r', res)
    /\ match res with
       | Ok out =>
           own_recovery r = None
           /\ (0 < lenN old -> mkNode (local_key r) (lenN old - 1) ∈ dom (deps (lin r)))
           /\ room_ok (<[local_key r := old ++ [Codec.encode e]]> L) r' /\ follows r r'
           /\ payload r' (mkNode (local_key r) (lenN old)) = Some op
           /\ exists h p, Hypercore.head (local r') = Some h /\ h_length h = lenN old + 1
              /\ Hypercore.verify_block (Hypercore.public (local r)) h (lenN old) (Codec.encode e) p = true
              /\ out = [mkOut (Head (local_key r) h) Gossip;
                        block_out (local_key r) h (lenN old) (Codec.encode e) p Clients]
       | Err er => store_error (S:=S) er \/ r' = r /\ append_refused r er
       end.
Proof.
  intros e Hok HLo Ha. pose proof (local_append_spec (E:=E) (OE:=OE) L r op old Hok HLo Ha) as Hw. unfold wp in Hw. fold e in Hw.
  destruct (local_append op r) as [[r' [out|er]]| |] eqn:El; [| |done..].
  - exists r', (Ok out). split; [done|]. destruct (append_guarded r op r' out El) as [Hrec Hprev].
    rewrite (own_length L r old Hok HLo) in Hprev. by destruct Hw as (((Hok' & _) & _ & Hf) & _ & Hp & Hout).
  - by exists r', (Err er).
Qed.

(** C10: A block of another writer is taken exactly when it is the next one and
    verifies under the writer's key: the feed then has it, all that can be delivered
    is, and the block is passed on to the clients; otherwise nothing changes.  A
    taken block that is no entry is reported, after it was stored. *)
Theorem block_correct L r from w h i bs p :
  room_ok L r -> w <> local_key r -> block_ok (E:=E) r w h i bs p ->
  exists r' res, on_inbound (E:=E) (OE:=OE) from (Block w h i bs p) r = Done (r', res)
    /\ match res with
       | Ok out => exists L', room_ok L' r' /\ follows r r'
           /\ (settled (lin r) (pending r) -> settled (lin r') (pending r'))
           /\ if accepts r w h i bs p
              then out = [block_out w h i bs p Clients] /\ (exists e, Codec.decode (T:=Wire.Entry) bs = Ok e)
                /\ added L r w h i bs L' r'
              else out = [] /\ same_feeds L L' /\ quiet r r'
       | Err er => store_error (S:=S) er \/ intake_error r w bs er /\ quiet r r' /\ exists L', room_ok L' r'
           /\ if accepts r w h i bs p then added L r w h i bs L' r' else same_feeds L L'
       end.
Proof.
  intros Hok Hw Hb. pose proof (on_block_remote (OE:=OE) L r w h i bs p Hok Hw Hb) as Hp. unfold wp in Hp. cbn [on_inbound].
  destruct (on_block w h i bs p r) as [[r' [out|er]]| |]; [| |done..].
  - exists r', (Ok out). split; [done|]. destruct Hp as (L' & ((Hok' & _) & _ & Hf) & Hs & Hif). by exists L'.
  - exists r', (Err er). split; [done|]. destruct Hp as [?|(He & L' & (Hok' & _) & Hq & Hif)]; [by left|right].
    split_and!; [done..|]. by exists L'.
Qed.

(** C12: The own feed comes back.  A block of it does nothing when the local log
    reaches its head, and is refused as [Corrupt], with nothing changed, when it is
    not the block of that head or the head is not one to recover to.  Any other is
    buffered, which changes nothing else, until the blocks from the local end up to
    the head are all there.  Then, if they and the local log hash to the root of the
    head, they are adopted (the log ends at that head and their entries are
    delivered) unless a store fails or one of them is no entry; if not, the call fails
    as [Corrupt] and the log stays as it was. *)
Theorem own_feed_recovered L r old head index bs p :
  room_ok L r -> L !! local_key r = Some old -> recovery_ok r old head index bs ->
  stepped L r L (buffered r head index bs) /\ quiet r (buffered r head index bs)
  /\ exists r' res, recover_own_block (E:=E) (OE:=OE) head index bs p r = Done (r', res)
    /\ if h_length head <=? lenN old then r' = r /\ res = Ok tt
       else if own_block r head index bs p && own_head r head && negb (clashes r head) then
         match completes r head index bs with
         | None => r' = buffered r head index bs /\ res = Ok tt
         | Some (target, suffix) =>
             if bool_decide (h_root target = ref_root_hash (old ++ suffix)) then
               match res with
               | Ok _ => recovered L r old target suffix r'
               | Err e => adopt_error (S:=S) suffix e
               end
             else r' = buffered r head index bs /\ res = Err (Hypercore_ Hypercore.Corrupt)
                  \/ exists e, res = Err e /\ store_error (S:=S) e
         end
       else r' = r /\ res = Err (Hypercore_ Hypercore.Corrupt).
Proof.
  intros Hok HLo Hfit. destruct (buffered_kept L r head index bs Hok) as [Hst Hq]. split_and!; [done..|].
  pose proof (recover_exact (OE:=OE) L r old head index bs p Hok HLo Hfit) as Hw.
  unfold wp, recovers in Hw. destruct (recover_own_block head index bs p r) as [[r' [[]|e]]| |]; [| |done..].
  - by exists r', (Ok tt).
  - by exists r', (Err e).
Qed.

(** C13: A reconfiguration pins the finalized prefix up to the given length under the
    new indexers, or is refused and changes nothing; whatever the new indexers make
    of the order, the states shown before it as the fold of the old order are the
    folds of the new one after it. *)
Theorem reconfigure_room L r through ix :
  room_ok L r -> roomy 0 r ->
  exists r' res, reconfigure (E:=E) (OE:=OE) through ix r = Done (r', res)
    /\ match res with
       | Ok rc => reconfigured L r through ix rc r'
       | Err e => r' = r /\ reconfigure_refused r through e
       end.
Proof.
  intros Hok Hsz. pose proof (reconfigure_room_spec (OE:=OE) L r through ix Hok Hsz) as Hw. unfold wp in Hw.
  destruct (reconfigure through ix r) as [[r' [rc|e]]| |]; [| |done..].
  - by exists r', (Ok rc).
  - by exists r', (Err e).
Qed.

(** C14: Draining the buffer ends, whatever waits in it, and delivers exactly the
    entries whose whole causal past is in the feeds. *)
Theorem drain_terminates L r :
  room_ok L r -> roomy 0 r ->
  exists r', drain_pending (E:=E) (OE:=OE) r = Done (r', Ok tt) /\ room_ok L r'
    /\ settled (lin r') (pending r') /\ forall n, n ∈ dom (deps (lin r')) <-> complete (entry_of L) n.
Proof.
  intros Hok Hsz. assert (Hon : ongoing L r L r).
  { split_and!; [split_and!; [done|apply grows_refl|apply kept_refl]|done|by constructor]. }
  pose proof (drain_rule (E:=E) (OE:=OE) L r L r (λ _ _, False) Hon) as Hw. unfold wp in Hw.
  destruct (drain_pending r) as [[r' [[]|e]]| |]; [|done..]. exists r'.
  destruct Hw as (((Hok' & _) & _) & Hset & _). split_and!; [done..|].
  intros n. eapply settled_dom; [apply (k_dag _ _ (proj2 Hok'))|done].
Qed.

(** ** Between rooms *)

Lemma writer_len_feed L r w bs : room_ok L r -> w <> local_key r -> feed_of L w bs -> writer_len r w = lenN bs.
Proof.
  intros [Hc _] Hw Hf. unfold writer_len. rewrite bool_decide_false by done.
  destruct (remotes r !! w) as [rep|] eqn:Er.
  - destruct (k_remote _ _ Hc w rep Er) as (_ & _ & bs' & HLw & Hof).
    assert (bs' = bs) as -> by (destruct Hf as [?|[? _]]; congruence). apply (o_tree _ _ Hof).
  - destruct Hf as [Hf|[_ ->]]; [|done]. destruct (k_dom _ _ Hc w) as [?|[? ?]]; [by eexists|done|congruence].
Qed.

(** C11: Synchronisation completes: over stores that do not fail, a room that holds a
    prefix of a feed another room shows a head for, hears of that head, asks for
    what it is missing, and once it has read the answer holds the whole feed and
    shows the same head, verified under the writer's key. *)
Theorem sync_completes La a Lb b w h bs k from fr :
  Store.StoreTotal S E -> room_ok La a -> room_ok Lb b -> w <> local_key b ->
  head_of a w = Some h -> La !! w = Some bs -> h_length h = lenN bs -> Forall is_entry bs ->
  feed_of Lb w (take (N.to_nat k) bs) -> k < lenN bs -> is_Some (replica_for b w) ->
  on_inbound (E:=E) (OE:=OE) fr (Have w (h_length h)) b = Done (b, Ok [mkOut (Want w k (lenN bs)) (Peer fr)])
  /\ exists out, on_inbound (E:=E) (OE:=OE) from (Want w k (lenN bs)) a = Done (a, Ok out)
     /\ (receivable (E:=E) (OE:=OE) fr out b ->
         exists b' Lb', inbox (E:=E) (OE:=OE) fr out b = Done (b', Ok tt) /\ room_ok Lb' b' /\ grows Lb Lb'
           /\ Lb' !! w = Some bs /\ head_of b' w = Some h).
Proof.
  intros Ht Ha Hb Hw Hh HLa Hl Hent Hfo Hk Hrep. pose proof (total_never_fails Ht) as Hnf. split.
  - cbn [on_inbound]. unfold reads, want_more.
    rewrite (writer_len_feed Lb b w _ Hb Hw Hfo), lenN_take, Hl, (proj2 (N.ltb_lt _ _)) by lia. done.
  - pose proof (on_want_spec (E:=E) (OE:=OE) La a from w k (lenN bs) Ha) as Hwant. unfold wp in Hwant. cbn [on_inbound].
    destruct (on_want from w k (lenN bs) a) as [[a' [out|e]]| |]; [|by destruct Hwant as (_ & ? & _)|done..].
    rewrite Hh in Hwant. destruct Hwant as [-> Hs]. exists out. split; [done|]. intros Hrc.
    destruct (head_vouches La a w h bs Ha Hh HLa) as (pk & Hpk & Hvo).
    assert (Hsv : served a w = lenN bs).
    { unfold served. rewrite Hh. case_bool_decide as Hkey; [|exact Hl].
      destruct (k_local _ _ (proj1 Ha)) as (lg & Hlg & _ & HLlg). subst w. assert (l_blocks lg = bs) as <- by congruence.
      apply (r_tree _ _ (proj1 Hlg)). }
    rewrite Hsv, N.min_id, HLa in Hs. cbn [default] in Hs.
    pose proof (receive_all Lb b w h pk bs fr from out k Hb Hw Hpk Hvo Hl Hent Hrep Hfo ltac:(lia) Hs Hrc) as Hrv.
    unfold wp in Hrv. destruct (inbox fr out b) as [[b' [[]|e]]| |]; [|by destruct Hrv|done..].
    destruct Hrv as (Lb' & Hok' & Hg & _ & Hfo' & Hhd). exists b', Lb'. split_and!; [done..| |apply Hhd; by left].
    destruct Hfo' as [?|[_ ->]]; [done|]. change (lenN []) with 0 in Hk. lia.
Qed.

(** C20: A relay caught in the middle serves nothing that can be verified: when a
    replica holds more blocks than its head covers, every block a room sends on a
    request goes out with that head and a proof for the longer log, and no key
    verifies it, unless BLAKE3 collides. *)
Theorem relay_midway L r w h bs from start stop :
  Store.StoreTotal S E -> room_ok L r -> head_of r w = Some h -> L !! w = Some bs -> h_length h < lenN bs ->
  collision_free (hash_inputs (take (N.to_nat (h_length h)) bs) ++ hash_inputs bs) ->
  exists out, on_inbound (E:=E) (OE:=OE) from (Want w start stop) r = Done (r, Ok out)
    /\ Forall2 (λ i o, exists b p, o = block_out w h i b p (Peer from)
         /\ forall pk, Hypercore.verify_block pk h i b p = false)
       (rangeN start (N.min stop (h_length h))) out.
Proof.
  intros Ht Hok Hh HLw Hl Hcf. pose proof (total_never_fails Ht) as Hnf.
  pose proof (on_want_spec (E:=E) (OE:=OE) L r from w start stop Hok) as Hwant. unfold wp in Hwant. cbn [on_inbound].
  destruct (on_want from w start stop r) as [[r' [out|e]]| |]; [|by destruct Hwant as (_ & ? & _)|done..].
  rewrite Hh in Hwant. destruct Hwant as [-> Hs]. exists out. split; [done|].
  destruct (head_vouches L r w h bs Hok Hh HLw) as (pk & Hpk & Hvo).
  assert (Hne : w <> local_key r /\ lenN bs <= Flat.max_blocks /\ blocks_ok bs).
  { destruct Hok as [Hc _]. unfold head_of in Hh. case_bool_decide as Hkey.
    - exfalso. destruct (k_local _ _ Hc) as (lg & (_ & Hsg & _) & _ & HLlg). unfold signed in Hsg. rewrite Hh in Hsg.
      subst w. assert (l_blocks lg = bs) as <- by congruence. destruct Hsg as (_ & Hlen & _). lia.
    - destruct (remotes r !! w) as [rep|] eqn:Er; [|done].
      destruct (k_remote _ _ Hc w rep Er) as (? & _ & bs' & HLw' & Hof). assert (bs' = bs) as -> by congruence.
      split_and!; [done|apply Hof|apply Hof]. }
  destruct Hne as (Hne & Hn & Hb). unfold served in Hs. rewrite bool_decide_false, Hh in Hs by done. cbn in Hs.
  rewrite HLw in Hs. cbn in Hs. eapply Forall2_impl; [exact Hs|]. cbn. intros i o Ho.
  destruct (serves_midway bs w h from i o pk Ho Hvo Hl Hn Hb Hcf) as (b & p & -> & Hv). by exists b, p.
Qed.

(** C21: A block that is no entry ends a room's restarts: a writer that signs a log
    whose next block does not decode has it stored by every room it reaches, which
    reports it once and then fails on every later attempt to open. *)
Theorem poisoned_feed L r w h i bs p old ce :
  Store.StoreTotal S E -> room_ok L r -> w <> local_key r -> block_ok (E:=E) r w h i bs p ->
  accepts r w h i bs p = true -> feed_of L w old -> h_length h = lenN old + 1 -> h_root h = ref_root_hash (old ++ [bs]) ->
  Codec.decode (T:=Wire.Entry) bs = Err ce ->
  let L' := <[w := old ++ [bs]]> L in
  exists r', on_block (E:=E) (OE:=OE) w h i bs p r = Done (r', Err (Codec_ ce)) /\ room_ok L' r'
    /\ forall ws other cfg f pr Fok, opens f (disk_of r' other) ws Fok -> identity cfg = Hypercore.author (local r') ->
       (forall w, w ∈ ws -> w = local_key r' \/ is_Some (remotes r' !! w)) ->
       (forall w, is_Some (remotes r' !! w) -> w ∈ ws) -> feeds_small (brought_back (E:=E) L' r') ->
       exists ce', open (OE:=OE) (E:=E) cfg f pr = Done (Err (Hypercore_ (Hypercore.Codec_ ce'))).
Proof.
  intros Ht Hok Hw Hb Hacc Hfo Hl Hroot Hdec L'. subst L'. pose proof (total_never_fails Ht) as Hnf.
  pose proof (on_block_remote (OE:=OE) L r w h i bs p Hok Hw Hb) as Hp. unfold wp in Hp. rewrite Hacc in Hp.
  destruct (on_block w h i bs p r) as [[r' [out|er]]| |]; [| |done..].
  { destruct Hp as (L' & _ & _ & _ & (e & He) & _). congruence. }
  destruct Hp as [[? _]|(He & L' & (Hok' & _) & _ & old' & rep & rep' & Hold & _ & -> & _ & Er & Eh)]; [done|].
  assert (old' = old) as -> by (by eapply feed_of_unique).
  assert (er = Codec_ ce) as ->.
  { destruct He as [[_ He]|[(oe & _ & He)|(ce' & -> & He)]]; [| |congruence]; exfalso; revert Hacc; unfold accepts.
    - unfold replica_for. destruct (remotes r !! w) as [rp|] eqn:Erp; [|by rewrite He].
      destruct (k_remote _ _ (proj1 Hok) w rp Erp) as (_ & ? & _). congruence.
    - by rewrite He. }
  exists r'. split_and!; [done..|]. intros ws other cfg f pr Fok Hop Hid Hws1 Hws2 Hsm.
  pose proof (brought_back_disk _ r' ws other Hok' Hnf Hws1 Hws2) as Hdisk. rewrite <- Hid in Hdisk.
  destruct (open_room_spec cfg f pr _ ws Fok _ Hop Hdisk Hsm) as [?|[(Hd & _)|(_ & Ho)]]; [done|exfalso|exact Ho].
  assert (Hbb : brought_back (E:=E) (<[w := old ++ [bs]]> L) r' !! w = Some (old ++ [bs])).
  { destruct (k_remote _ _ (proj1 Hok') w rep' Er) as (Hne & Hpk & _).
    unfold brought_back. rewrite map_lookup_imap, lookup_insert_eq. rsimpl. rewrite bool_decide_false, Er by done. rsimpl.
    assert (Hvp : verified_part rep' (old ++ [bs]) = old ++ [bs]).
    { unfold verified_part. rewrite Eh. unfold head_after. rewrite lenN_snoc, Hl, N.eqb_refl, Hroot, bool_decide_true by done.
      cbn [andb]. rewrite Hl. apply take_ge. rewrite length_app. cbn. unfold lenN. lia. }
    destruct (k_rdisk _ _ (proj1 Hok') w rep' (old ++ [bs]) Er (lookup_insert_eq _ _ _)) as [?|[Hdk|[? _]]]; [done| |by destruct old].
    destruct Hdk as (pk & Epk & rep2 & Eo & _). assert (pk = rp_public rep') as -> by congruence. by rewrite Eo, Hvp. }
  specialize (Hd w _ Hbb). apply Forall_app in Hd as [_ Hd]. apply Forall_cons in Hd as [[e Hde] _]. congruence.
Qed.
End Theorems.
End RoomTheorems.
