(* ===== verification/RoomWitnesses.v ===== *)
(** * [roomnet]: the theorems at concrete rooms

    Two rooms over in-memory stores, with the concrete hash and signature functions
    of MerkleHistory and IdentityTheorems and a projection that collects the
    operations: the first author appends, the second one's room receives; every
    theorem about rooms is applied to them. *)
From S2P Require Import Prelude Codec Flat Merkle MerkleSpec MerkleProofs MerkleHistory Store Bitfield.
From S2P Require Import Identity IdentityTheorems.
From S2P Require Import Linearizer LinearizerDag LinearizerView LinearizerTheorems.
From S2P Require Import Hypercore HypercoreMeta HypercoreLog HypercoreOps HypercoreDurable HypercoreTrace.
From S2P Require Import HypercoreTheorems.
From S2P Require Import Replica ReplicaTheorems Wire Room RoomCore RoomDag RoomInv RoomView RoomOps RoomReplay.
From S2P Require Import RoomRecovery RoomMessages RoomLife RoomOpen RoomSync RoomTheorems.
From Stdlib Require Import Strings.Byte.

Module RoomWitnesses.
Import Linearizer LinearizerDag LinearizerTheorems.
Import MerkleSpec MerkleProofs HypercoreLog HypercoreDurable Room RoomCore RoomDag RoomInv RoomView.
Import RoomOps RoomReplay RoomRecovery RoomMessages RoomLife RoomOpen RoomSync RoomTheorems.
Import Hypercore (Hypercore, SignedHead, h_fork, h_length, h_root).
Import Replica (Replica, rp_public, rp_head, rp_tree, rp_store).
Import Wire (SyncMessage, Head, Have, Want, Block).

#[local] Existing Instance MerkleHistory.toy_hash.
#[local] Existing Instance MerkleHistory.toy_laws.
#[local] Existing Instance IdentityTheorems.toy_ed.
#[local] Existing Instance IdentityTheorems.toy_ed_laws.

(** ** Stores and a projection *)

(** A factory over a map of in-memory stores. *)
Abbreviation Disks := (gmap WriterKey Store.MemoryStore).
#[local] Instance disks_factory : StoreFactory Disks Store.MemoryStore Empty_set := {|
  factory_open f w := (f, Ok (default Store.Memory_new (f !! w)));
  known_writers f := Done (bmap_list f).*1 |}.
#[local] Instance disks_laws : FactoryLaws Disks Store.MemoryStore Empty_set Store.Infallible.
Proof. done. Qed.

(** The projection that collects the operations. *)
#[local] Instance collect : Projection (list bytes) (list bytes) Empty_set := {|
  apply p _ x := (p ++ [x], Ok tt);
  snapshot p := p;
  reset_to _ s := s |}.
#[local] Instance collect_laws : ProjectionLaws (list bytes) (list bytes) Empty_set.
Proof. split; cbn; [by intros p q n x ->|done|done]. Qed.

Abbreviation room := (Room Store.MemoryStore Disks (list bytes)).
Abbreviation E0 := Store.Infallible.
Abbreviation OE0 := Empty_set.

(** What a run left, and the values it gave. *)
Definition left_by {A : Type} (d : room) (r : Prelude.run (room * A)) : room := match r with Done (r', _) => r' | _ => d end.
Definition given {A : Type} (d : A) (r : Prelude.run (room * result (Error E0 OE0) A)) : A :=
  match r with Done (_, Ok a) => a | _ => d end.
Definition went_well {A : Type} (r : Prelude.run (room * result (Error E0 OE0) A)) : bool :=
  match r with Done (_, Ok _) => true | _ => false end.
Lemma went_well_done {A : Type} (d : A) (e : room) r : went_well r = true -> r = Done (left_by e r, Ok (given d r)).
Proof. by destruct r as [[? []]| |]. Qed.

Abbreviation append_ := (local_append (E:=E0) (OE:=OE0)).
Abbreviation inbound_ := (on_inbound (E:=E0) (OE:=OE0) []).
Abbreviation exec_ := (exec (E:=E0) (OE:=OE0)).
Abbreviation inbox_ := (inbox (E:=E0) (OE:=OE0) []).

(** ** The side conditions over in-memory stores *)

#[local] Instance u64_ok_dec (n : N) : Decision (u64_ok n).
Proof. unfold u64_ok. apply _. Defined.
#[local] Instance roomy_dec (n : nat) (r : room) : Decision (roomy n r).
Proof. unfold roomy. apply _. Defined.
#[local] Instance entry_ok_dec (e : Wire.Entry) : Decision (Wire.entry_ok e).
Proof. unfold Wire.entry_ok, Wire.node_ok, Wire.key_ok. apply _. Defined.
#[local] Instance message_ok_dec (m : SyncMessage) : Decision (Wire.message_ok m).
Proof.
  unfold Wire.message_ok, Wire.head_ok, Wire.proof_ok, Wire.nodes_ok, Wire.tree_node_ok, Wire.key_ok. destruct m; apply _.
Defined.
Definition append_okb (r : room) (op : bytes) : bool :=
  let e := Wire.mkEntry (bset_list (Linearizer.heads (lin r))) op in
  bool_decide (roomy 1 r) && bool_decide (Wire.entry_ok e) && (Hypercore.len (local r) <? Flat.max_blocks)
    && bool_decide (u64_ok (lenN (Codec.encode e))).
Lemma append_okb_spec r op : append_okb r op = true -> append_ok r op.
Proof.
  unfold append_okb. rewrite !andb_true_iff, !bool_decide_eq_true, N.ltb_lt. intros (((? & ?) & ?) & ?).
  by split_and!.
Qed.

(** A replica's store that was never persisted to. *)
Definition blankb (rep : Replica Store.MemoryStore) : bool :=
  match Replica.Replica_open (E:=E0) (rp_public rep) (rp_store rep) with
  | Done (Err (Hypercore.NotPersisted)) => true
  | _ => false
  end.
Definition block_okb (r : room) (w : WriterKey) (h : SignedHead) (bs : bytes) : bool :=
  bool_decide (u64_ok (lenN bs)) && bool_decide (u64_ok (h_fork h)) && bool_decide (roomy 1 r)
    && match replica_for r w with
       | Some rep => (Replica.Replica_len rep <? Flat.max_blocks) && (bool_decide (is_Some (remotes r !! w)) || blankb rep)
       | None => true
       end.
Lemma block_okb_spec r w h i bs p : block_okb r w h bs = true -> block_ok (E:=E0) r w h i bs p.
Proof.
  unfold block_okb. rewrite !andb_true_iff, !bool_decide_eq_true. intros (((Hb & Hf) & Hr) & Hrep).
  split_and!; [done|done|done|done| |].
  - intros rep Er Hn. rewrite Er in Hrep. apply andb_true_iff in Hrep as [_ Hbl].
    rewrite Hn, bool_decide_false in Hbl by (by intros [? ?]). cbn in Hbl.
    exists (rp_public rep). unfold replica_for in Er. rewrite Hn in Er. unfold blankb in Hbl.
    destruct (Identity.from_bytes w); [|done]. destruct (factory_open _ _).2; [|done]. injection Er as <-.
    split; [done|]. destruct (Replica.Replica_open _ _) as [[|[]]| |]; done.
  - intros rep Er. rewrite Er in Hrep. apply andb_true_iff in Hrep as [Hl%N.ltb_lt _]. by split.
Qed.

(** ** Rooms *)

Definition sk2 : Identity.SecretKey := x02.
Definition cfg1 : RoomConfig := RoomConfig_original IdentityTheorems.sk1 [].
Definition cfg2 : RoomConfig := RoomConfig_original sk2 [].
Definition w1 : WriterKey := Identity.to_bytes (Identity.public IdentityTheorems.sk1).
Definition w2 : WriterKey := Identity.to_bytes (Identity.public sk2).

Definition blank (cfg : RoomConfig) : room :=
  fresh_room cfg (Hypercore.new (identity cfg) Store.Memory_new) ∅ [].
Definition opened_room (cfg : RoomConfig) : room :=
  match open (E:=E0) (OE:=OE0) cfg (∅ : Disks) ([] : list bytes) with Done (Ok r) => r | _ => blank cfg end.
Definition appended (op : bytes) (r : room) : room := left_by r (append_ op r).
Definition received (m : SyncMessage) (r : room) : room := left_by r (inbound_ m r).

Lemma no_failure : ~ store_fails (S:=Store.MemoryStore) (E:=E0).
Proof. apply total_never_fails, _. Qed.

Lemma opened_blank cfg :
  opened cfg [] {[ Identity.to_bytes (Identity.public (identity cfg)) := [] ]} (opened_room cfg).
Proof.
  set (k := Identity.to_bytes (Identity.public (identity cfg))).
  destruct (open_room_spec (E:=E0) (OE:=OE0) cfg (∅ : Disks) [] (λ _, Store.Memory_new) [] (λ f, f = ∅) {[ k := [] ]})
    as [?|[(_ & r & Eo & Ho)|[Hn _]]].
  - split; [done|]. intros f' ->. split; [done|]. intros w. by exists ∅.
  - constructor.
    + exists []. split; [apply lookup_singleton_eq|right].
      exists (Hypercore.new (identity cfg) Store.Memory_new), (empty_log None). split; [|split; [intros i Hi; by apply N.nlt_0_r in Hi|by split_and!; [..|right]]].
      apply (HypercoreTrace.fresh_repr _ Store.Memory_new None); done.
    + intros w Hw. by apply elem_of_nil in Hw.
    + intros w [bs Hw]. left. by apply lookup_singleton_Some in Hw as [? _].
    + intros w bs i b Hne [<- _]%lookup_singleton_Some. done.
  - unfold feeds_small. by rewrite map_to_list_singleton.
  - by destruct no_failure.
  - unfold opened_room. by rewrite Eo.
  - destruct Hn. intros w bs [_ <-]%lookup_singleton_Some. constructor.
Qed.

(** ** Steps of concrete rooms *)

Definition enc_of (op : bytes) (r : room) : bytes :=
  Codec.encode (Wire.mkEntry (bset_list (Linearizer.heads (lin r))) op).

Lemma appended_ok L r op old :
  room_ok L r -> L !! local_key r = Some old -> append_okb r op = true -> went_well (append_ op r) = true ->
  room_ok (<[local_key r := old ++ [enc_of op r]]> L) (appended op r).
Proof.
  intros Hok HL Ha Hw. pose proof (local_append_spec L r op old Hok HL (append_okb_spec r op Ha)) as Hp. unfold wp in Hp.
  rewrite (went_well_done [] r _ Hw) in Hp. destruct Hp as (((Hok' & _) & _) & _). exact Hok'.
Qed.

Lemma received_ok L r w h i bs p :
  room_ok L r -> w <> local_key r -> block_okb r w h bs = true -> accepts r w h i bs p = true ->
  went_well (inbound_ (Block w h i bs p) r) = true ->
  room_ok (<[w := default [] (L !! w) ++ [bs]]> L) (received (Block w h i bs p) r).
Proof.
  intros Hok Hne Hb Hacc Hw. pose proof (on_block_remote (OE:=OE0) L r w h i bs p Hok Hne (block_okb_spec r w h i bs p Hb)) as Hp.
  rewrite Hacc in Hp. unfold wp in Hp. unfold received. cbn [on_inbound] in *. rewrite (went_well_done [] r _ Hw) in *.
  destruct Hp as (L' & ((Hok' & _) & _) & _ & _ & _ & old & rep & rep' & Hf & _ & -> & _).
  assert (default [] (L !! w) = old) as -> by (by destruct Hf as [->|[-> ->]]). exact Hok'.
Qed.

Lemma some_present {A : Type} (o : option A) : from_option (λ _, true) false o = true -> is_Some o.
Proof. by destruct o. Qed.

Lemma block_call_ok (r : room) w h i bs p :
  w <> local_key r -> block_okb r w h bs = true -> call_ok (E:=E0) (OE:=OE0) r (On_inbound [] (Block w h i bs p)).
Proof.
  intros Hne Hb. pose proof (block_okb_spec r w h i bs p Hb) as Hok. split.
  - destruct Hok as (_ & _ & _ & Hr & _). unfold roomy in *. lia.
  - destruct (decide (w = local_key r)); [done|exact Hok].
Qed.

Definition roomyb (r : room) : bool := N.of_nat (total (lin r) (pending r) + 0) <? two64.
Definition steadyb (r r' : room) : bool :=
  match finalized (lin r), finalized (lin r') with
  | Done a, Done b => bool_decide (a `prefix_of` b)
  | _, _ => true
  end.
Lemma steadyb_spec r r' : steadyb r r' = true -> finality_kept r r'.
Proof. unfold steadyb. intros Hs a b Ea Eb. rewrite Ea, Eb in Hs. by apply bool_decide_eq_true in Hs. Qed.

(** ** The rooms *)

Definition hd_of (r : room) : SignedHead := default (HypercoreLog.signed_head sk2 0 []) (Hypercore.head (local r)).
Definition pf_of (r : room) (i : N) : Merkle.Proof_ :=
  MerkleHistory.get_or (Merkle.mkProof 0 0 [] []) (Hypercore.proof (local r) i).

Definition a0 : room := opened_room cfg1.
Definition enc1 : bytes := Eval vm_compute in enc_of [x05] a0.
Definition a1 : room := appended [x05] a0.
Definition enc2 : bytes := Eval vm_compute in enc_of [x07] a1.
Definition a2 : room := appended [x07] a1.
Definition a3 : room := appended [x09] a2.
Definition head1 : SignedHead := Eval vm_compute in hd_of a1.
Definition head2 : SignedHead := Eval vm_compute in hd_of a2.
Definition head3 : SignedHead := Eval vm_compute in hd_of a3.
Definition proof1 : Merkle.Proof_ := Eval vm_compute in pf_of a1 0.
Definition proof2 : Merkle.Proof_ := Eval vm_compute in pf_of a2 0.
Definition proof2' : Merkle.Proof_ := Eval vm_compute in pf_of a2 1.
Definition proof3 : Merkle.Proof_ := Eval vm_compute in pf_of a3 1.
Definition block1 : SyncMessage := Block w1 head2 0 enc1 proof2.
Definition block2 : SyncMessage := Block w1 head2 1 enc2 proof2'.
Definition b0 : room := opened_room cfg2.
Definition b1 : room := received block1 b0.
Definition b2 : room := received block2 b1.

Abbreviation feeds0 := (gmap WriterKey (list bytes)).
Definition LA0 : feeds0 := {[ w1 := [] ]}.
Definition LA1 : feeds0 := {[ w1 := [enc1] ]}.
Definition LA2 : feeds0 := {[ w1 := [enc1; enc2] ]}.
Definition LB0 : feeds0 := {[ w2 := [] ]}.
Definition LB1 : feeds0 := <[w1 := [enc1]]> LB0.
Definition LB2 : feeds0 := <[w1 := [enc1; enc2]]> LB0.

(** Facts of concrete rooms, by evaluation. *)
Ltac runs_ok :=
  match goal with
  | |- _ <> _ => vm_compute; discriminate
  | |- ?a = ?b => vm_cast_no_check (@eq_refl _ b)
  end.

Lemma opened_a0 : opened cfg1 [] LA0 a0.
Proof. exact (opened_blank cfg1). Qed.
Lemma opened_b0 : opened cfg2 [] LB0 b0.
Proof. exact (opened_blank cfg2). Qed.
Lemma ok_a0 : room_ok LA0 a0.
Proof. apply opened_a0. Qed.
Lemma ok_b0 : room_ok LB0 b0.
Proof. apply opened_b0. Qed.
Lemma ok_a1 : room_ok LA1 a1.
Proof. replace LA1 with (<[local_key a0 := [] ++ [enc_of [x05] a0]]> LA0) by runs_ok. apply appended_ok; [apply ok_a0|runs_ok..]. Qed.
Lemma ok_a2 : room_ok LA2 a2.
Proof. replace LA2 with (<[local_key a1 := [enc1] ++ [enc_of [x07] a1]]> LA1) by runs_ok. apply appended_ok; [apply ok_a1|runs_ok..]. Qed.
Lemma ok_b1 : room_ok LB1 b1.
Proof. apply (received_ok LB0 b0 w1 head2 0 enc1 proof2); [apply ok_b0|runs_ok..]. Qed.
Lemma ok_b2 : room_ok LB2 b2.
Proof.
  replace LB2 with (<[w1 := default [] (LB1 !! w1) ++ [enc2]]> LB1) by runs_ok.
  apply (received_ok LB1 b1 w1 head2 1 enc2 proof2'); [apply ok_b1|runs_ok..].
Qed.

(** ** The theorems *)


Lemma appends_step r op :
  roomyb r = true -> append_okb r op = true -> went_well (append_ op r) = true ->
  step (E:=E0) (OE:=OE0) r (Local_append op) (appended op r).
Proof.
  intros Hr Ha Hw. split; [split; [by apply N.ltb_lt|by apply append_okb_spec]|]. exists (Ok (Sent (given [] (append_ op r)))).
  split; [|done]. cbn [exec]. unfold mbind, act_bind. by rewrite (went_well_done [] r _ Hw).
Qed.
Lemma receives_step r w h i bs p :
  w <> local_key r -> block_okb r w h bs = true -> went_well (inbound_ (Block w h i bs p) r) = true ->
  step (E:=E0) (OE:=OE0) r (On_inbound [] (Block w h i bs p)) (received (Block w h i bs p) r).
Proof.
  intros Hne Hb Hw. split; [by apply block_call_ok|]. exists (Ok (Sent (given [] (inbound_ (Block w h i bs p) r)))).
  split; [|done]. cbn [exec]. unfold mbind, act_bind. by rewrite (went_well_done [] r _ Hw).
Qed.

Lemma steps_a : run (E:=E0) (OE:=OE0) steady_step a0 [Local_append [x05]; Local_append [x07]] a2.
Proof.
  apply (run_snoc _ _ [Local_append [x05]] a1 (Local_append [x07])).
  - apply (run_snoc _ _ [] a0 (Local_append [x05])); [constructor|apply (appends_step a0); runs_ok|apply steadyb_spec; runs_ok].
  - apply (appends_step a1); runs_ok.
  - apply steadyb_spec; runs_ok.
Qed.

Lemma steps_b : run (E:=E0) (OE:=OE0) steady_step b0 [On_inbound [] block1; On_inbound [] block2] b2.
Proof.
  apply (run_snoc _ _ [On_inbound [] block1] b1 (On_inbound [] block2)).
  - apply (run_snoc _ _ [] b0 (On_inbound [] block1));
      [constructor|apply (receives_step b0); runs_ok|apply steadyb_spec; runs_ok].
  - apply (receives_step b1); runs_ok.
  - apply steadyb_spec; runs_ok.
Qed.

(** They are evaluated only where [runs_ok] does. *)
#[local] Opaque a0 a1 a2 b0 b1 b2.

Lemma any_steady (cs : list call) (r r' : room) :
  run (E:=E0) (OE:=OE0) steady_step r cs r' -> run (E:=E0) (OE:=OE0) any_step r cs r'.
Proof. induction 1; [constructor|by econstructor]. Qed.

Lemma room_invariant_witness :
  exists L' r2 res, room_ok L' a2 /\ grows LA0 L' /\ exec_ (Local_append [x09]) a2 = Done (r2, res)
    /\ match res with
       | Ok _ => moved L' a2 r2
       | Err e => own_error (S:=Store.MemoryStore) e \/ refusal a2 e /\ moved L' a2 r2
       end.
Proof.
  apply (room_invariant LA0 a0 [Local_append [x05]; Local_append [x07]] a2 (Local_append [x09]) ok_a0 (any_steady _ _ _ steps_a)).
  split; [apply N.ltb_lt; runs_ok|apply append_okb_spec; runs_ok].
Defined.

Lemma same_ab : same_feeds LA2 LB2.
Proof.
  intros w. unfold LA2, LB2, LB0. destruct (decide (w = w1)) as [->|Hne].
  - by rewrite lookup_insert_eq, lookup_singleton_eq.
  - rewrite lookup_insert_ne, (lookup_singleton_ne w1) by done.
    destruct (decide (w = w2)) as [->|Hne2]; [by rewrite lookup_singleton_eq|by rewrite lookup_singleton_ne].
Qed.
Lemma settled_nil (l : Linearizer) : settled l [].
Proof. intros n e Hn. by apply elem_of_nil in Hn. Qed.
Lemma settled_a2 : settled (lin a2) (pending a2).
Proof. replace (pending a2) with (@nil (NodeId * Wire.Entry)) by runs_ok. apply settled_nil. Qed.
Lemma settled_b2 : settled (lin b2) (pending b2).
Proof. replace (pending b2) with (@nil (NodeId * Wire.Entry)) by runs_ok. apply settled_nil. Qed.

(** No writer was made an indexer. *)
Lemma config_a2 : same_config Linearizer.new (lin a2).
Proof. split_and!; runs_ok. Qed.
Lemma config_b2 : same_config Linearizer.new (lin b2).
Proof. split_and!; runs_ok. Qed.

Lemma rooms_converge_witness :
  exists o, order a2 = Done o /\ order b2 = Done o
    /\ snapshot_finalized a2 = snapshot_finalized b2 /\ snapshot_live a2 = snapshot_live b2.
Proof.
  apply (rooms_converge (E:=E0) (OE:=OE0) cfg1 cfg2 [] [] LA0 LB0 a0 b0 [Local_append [x05]; Local_append [x07]]
           [On_inbound [] block1; On_inbound [] block2] a2 b2 LA2 LB2 opened_a0 opened_b0 steps_a steps_b ok_a2 ok_b2 same_ab).
  - destruct config_a2 as (A1 & A2 & A3), config_b2 as (B1 & B2 & B3). split_and!; congruence.
  - exact settled_a2.
  - exact settled_b2.
  - done.
Defined.

(** The disks of a room, as its next run finds them. *)
Definition disks_of (r : room) : Disks := <[local_key r := Hypercore.store (local r)]> (rp_store <$> remotes r).

Lemma disks_open (r : room) :
  opens (disks_of r) (disk_of r Store.Memory_new) (bmap_list (disks_of r)).*1 (λ f, f = disks_of r).
Proof.
  split; [done|]. intros f ->. split; [done|]. intros w. exists (disks_of r). split; [|done]. cbn. do 2 f_equal.
  unfold disks_of, disk_of. case_bool_decide as Hw; [by rewrite Hw, lookup_insert_eq|].
  rewrite lookup_insert_ne, lookup_fmap by done. by destruct (remotes r !! w).
Qed.

Lemma disks_writers (r : room) w :
  w ∈ (bmap_list (disks_of r)).*1 <-> w = local_key r \/ is_Some (remotes r !! w).
Proof.
  rewrite bmap_list_keys, bmap_keys_elem. unfold disks_of.
  rewrite lookup_insert_is_Some, lookup_fmap, fmap_is_Some. destruct (decide (local_key r = w)); naive_solver.
Qed.

Lemma brought_b2 : brought_back (E:=E0) LB2 b2 = LB2.
Proof. runs_ok. Qed.
Lemma LB2_small : feeds_small LB2.
Proof. apply N.ltb_lt. runs_ok. Qed.

Definition is_entryb (b : bytes) : bool := is_ok (Codec.decode (T:=Wire.Entry) b).
Lemma is_entryb_all bs : forallb is_entryb bs = true -> Forall is_entry bs.
Proof.
  induction bs as [|b bs IH]; [constructor|]. cbn [forallb]. intros [Hb Hbs]%andb_true_iff. constructor; [|by apply IH].
  unfold is_entryb in Hb. destruct (Codec.decode b) as [e|] eqn:Ed; [by exists e|done].
Qed.
Lemma LB2_decodable : decodable LB2.
Proof.
  unfold LB2, LB0. intros w bs [[_ <-]|[_ [_ <-]%lookup_singleton_Some]]%lookup_insert_Some; [|constructor].
  apply is_entryb_all. runs_ok.
Qed.

Lemma disk_b2 : on_disk (E:=E0) (identity cfg2) (disk_of b2 Store.Memory_new) (bmap_list (disks_of b2)).*1 LB2.
Proof.
  pose proof (brought_back_disk (E:=E0) LB2 b2 (bmap_list (disks_of b2)).*1 Store.Memory_new ok_b2 no_failure) as Hd.
  rewrite brought_b2 in Hd. replace (Hypercore.author (local b2)) with (identity cfg2) in Hd by runs_ok.
  apply Hd; intros w Hw; apply disks_writers; [exact Hw|by right].
Qed.

Lemma open_correct_witness :
  store_fails (S:=Store.MemoryStore) (E:=E0)
  \/ decodable LB2 /\ (exists r, open (OE:=OE0) (E:=E0) cfg2 (disks_of b2) ([] : list bytes) = Done (Ok r) /\ opened cfg2 [] LB2 r)
  \/ ~ decodable LB2 /\ exists ce, open (OE:=OE0) (E:=E0) cfg2 (disks_of b2) ([] : list bytes) = Done (Err (Hypercore_ (Hypercore.Codec_ ce))).
Proof.
  apply (open_correct (E:=E0) cfg2 (disks_of b2) [] _ _ _ LB2 (disks_open b2)); [|exact LB2_small].
  exact disk_b2.
Defined.

Lemma reopen_room_witness :
  exists r', open (OE:=OE0) (E:=E0) cfg2 (disks_of b2) ([] : list bytes) = Done (Ok r')
    /\ exists o, order b2 = Done o /\ order r' = Done o
       /\ snapshot_finalized b2 = snapshot_finalized r' /\ snapshot_live b2 = snapshot_live r'.
Proof.
  destruct (reopen_room (E:=E0) (OE:=OE0) LB2 b2 _ _ cfg2 (disks_of b2) [] _ (Store.Memory_total) ok_b2 (disks_open b2))
    as (r' & Eo & _ & Hshow).
  - runs_ok.
  - intros w. by rewrite disks_writers.
  - intros w Hw. rewrite disks_writers. by right.
  - rewrite brought_b2. exact LB2_small.
  - rewrite brought_b2. exact LB2_decodable.
  - exists r'. split; [exact Eo|]. apply Hshow.
    + rewrite brought_b2. by intros w.
    + split_and!; runs_ok.
    + exact settled_b2.
    + apply (run_current LB0 b0 _ b2 ok_b0 (op_current _ _ _ _ opened_b0) steps_b).
    + runs_ok.
Defined.

Lemma append_room_witness :
  exists r' res, append_ [x09] a2 = Done (r', res)
    /\ match res with
       | Ok out => payload r' (mkNode w1 2) = Some [x09]
       | Err er => store_error (S:=Store.MemoryStore) er \/ r' = a2 /\ append_refused a2 er
       end.
Proof.
  destruct (append_room (E:=E0) (OE:=OE0) LA2 a2 [x09] [enc1; enc2] ok_a2) as (r' & res & He & Hr); [runs_ok| |].
  - apply append_okb_spec. runs_ok.
  - exists r', res. split; [exact He|]. destruct res as [out|er]; [apply Hr|exact Hr].
Defined.

Lemma block_correct_witness :
  exists r' res, on_inbound (E:=E0) (OE:=OE0) [] block2 b1 = Done (r', res)
    /\ match res with
       | Ok out => exists L', room_ok L' r' /\ follows b1 r'
       | Err er => store_error (S:=Store.MemoryStore) er \/ intake_error b1 w1 enc2 er
       end.
Proof.
  destruct (block_correct (E:=E0) (OE:=OE0) LB1 b1 [] w1 head2 1 enc2 proof2' ok_b1) as (r' & res & He & Hr).
  - runs_ok.
  - apply block_okb_spec. runs_ok.
  - exists r', res. split; [exact He|]. destruct res as [out|er].
    + destruct Hr as (L' & Hok & Hf & _). exists L'. exact (conj Hok Hf).
    + destruct Hr as [?|[? _]]; [by left|by right].
Defined.

(** The first author's device is replaced: its feed comes back from a peer. *)
Lemma own_feed_recovered_witness :
  completes a0 head1 0 enc1 = Some (hd_of a1, [enc1])
  /\ exists r' res, recover_own_block (E:=E0) (OE:=OE0) head1 0 enc1 proof1 a0 = Done (r', res)
    /\ match res with
       | Ok _ => recovered LA0 a0 [] head1 [enc1] r'
       | Err e => adopt_error (S:=Store.MemoryStore) [enc1] e
       end.
Proof.
  assert (Hc : completes a0 head1 0 enc1 = Some (hd_of a1, [enc1])) by runs_ok. split; [exact Hc|].
  destruct (own_feed_recovered (E:=E0) (OE:=OE0) LA0 a0 [] head1 0 enc1 proof1 ok_a0) as (_ & _ & r' & res & He & Hr).
  - runs_ok.
  - split; [apply N.ltb_lt; runs_ok|]. rewrite Hc. intros target suffix Heq. apply (inj Some), pair_equal_spec in Heq as [<- <-]. split; [apply N.ltb_lt; runs_ok|].
    split_and!; [apply N.leb_le; runs_ok|constructor; [apply N.ltb_lt; runs_ok|constructor]|intros j enc _; exact I|exact I..].
  - exists r', res. split; [exact He|]. rewrite Hc in Hr.
    assert (H1 : h_length head1 <=? lenN (A:=bytes) [] = false) by runs_ok.
    assert (H2 : own_block a0 head1 0 enc1 proof1 && own_head a0 head1 && negb (clashes a0 head1) = true) by runs_ok.
    assert (H3 : bool_decide (h_root (hd_of a1) = MerkleSpec.ref_root_hash ([] ++ [enc1])) = true) by runs_ok.
    rewrite H1, H2, H3 in Hr. exact Hr.
Defined.

Lemma reconfigure_room_witness :
  exists r' res, reconfigure (E:=E0) (OE:=OE0) 0 [w1] a2 = Done (r', res)
    /\ match res with
       | Ok rc => reconfigured LA2 a2 0 [w1] rc r'
       | Err e => r' = a2 /\ reconfigure_refused a2 0 e
       end.
Proof. apply (reconfigure_room (E:=E0) (OE:=OE0) LA2 a2 0 [w1] ok_a2). apply N.ltb_lt. runs_ok. Defined.

Lemma drain_terminates_witness :
  exists r', drain_pending (E:=E0) (OE:=OE0) b1 = Done (r', Ok tt) /\ room_ok LB1 r' /\ settled (lin r') (pending r').
Proof.
  destruct (drain_terminates (E:=E0) (OE:=OE0) LB1 b1 ok_b1) as (r' & He & Hok & Hs & _); [apply N.ltb_lt; runs_ok|].
  exists r'. exact (conj He (conj Hok Hs)).
Defined.

(** The second room lacks a block of the first one, asks, and reads the answer. *)
Definition out_okb (out : list Outbound) : bool :=
  match out with
  | [o] =>
      match msg o with
      | Block w h i bs p => bool_decide (w <> local_key b1) && block_okb b1 w h bs
      | _ => false
      end
  | _ => false
  end.
Lemma out_okb_spec out : out_okb out = true -> receivable (E:=E0) (OE:=OE0) [] out b1.
Proof.
  unfold out_okb. destruct out as [|[[| | |w h i bs p] to] [|]]; try done. cbn [msg].
  intros [Hne%bool_decide_eq_true Hb]%andb_true_iff. split; [by apply block_call_ok|intros r' a _; exact I].
Qed.

Lemma sync_completes_witness :
  inbound_ (Have w1 2) b1 = Done (b1, Ok [mkOut (Want w1 1 2) (Peer [])])
  /\ exists out, inbound_ (Want w1 1 2) a2 = Done (a2, Ok out)
     /\ exists b' Lb', inbox_ out b1 = Done (b', Ok tt) /\ room_ok Lb' b'
        /\ Lb' !! w1 = Some [enc1; enc2] /\ head_of b' w1 = Some head2.
Proof.
  destruct (sync_completes (E:=E0) (OE:=OE0) LA2 a2 LB1 b1 w1 head2 [enc1; enc2] 1 [] [] Store.Memory_total ok_a2 ok_b1)
    as (Hhave & out & Hwant & Hin).
  - runs_ok.
  - runs_ok.
  - runs_ok.
  - runs_ok.
  - apply is_entryb_all. runs_ok.
  - left. runs_ok.
  - apply N.ltb_lt. runs_ok.
  - apply some_present. runs_ok.
  - split; [exact Hhave|].
    exists out. split; [exact Hwant|].
    assert (Hok : out_okb (given [] (inbound_ (Want w1 1 2) a2)) = true) by runs_ok.
    change (lenN [enc1; enc2]) with 2 in Hwant. rewrite Hwant in Hok. cbn [given] in Hok.
    destruct (Hin (out_okb_spec out Hok)) as (b' & Lb' & He & Hb & _ & HL & Hh). exists b', Lb'. exact (conj He (conj Hb (conj HL Hh))).
Defined.

(** The message that was read, on the wire. *)
Lemma wire_roundtrip_witness :
  Wire.decode (Wire.encode block2 ++ [x2a]) = Ok block2
  /\ Codec.decode (enc2 ++ [x2a]) = Ok (Wire.mkEntry (bset_list (Linearizer.heads (lin a1))) [x07]).
Proof.
  destruct (Wire.wire_roundtrip block2 (Wire.mkEntry (bset_list (Linearizer.heads (lin a1))) [x07]) [x2a]) as (Hm & He & _).
  - refine (bool_decide_eq_true_1 _ _). runs_ok.
  - refine (bool_decide_eq_true_1 _ _). runs_ok.
  - exact (conj Hm He).
Defined.

(** A relay with the first block under a head of one block, and the second under a
    head of three. *)
Definition c1 : room := received (Block w1 head1 0 enc1 proof1) b0.
Definition c2 : room := received (Block w1 head3 1 enc2 proof3) c1.

Lemma ok_c1 : room_ok LB1 c1.
Proof. apply (received_ok LB0 b0 w1 head1 0 enc1 proof1); [apply ok_b0|runs_ok..]. Qed.
Lemma ok_c2 : room_ok LB2 c2.
Proof.
  replace LB2 with (<[w1 := default [] (LB1 !! w1) ++ [enc2]]> LB1) by runs_ok.
  apply (received_ok LB1 c1 w1 head3 1 enc2 proof3); [apply ok_c1|runs_ok..].
Qed.

Lemma relay_midway_witness :
  exists out, inbound_ (Want w1 0 3) c2 = Done (c2, Ok out)
    /\ Forall2 (λ i o, exists b p, o = block_out w1 head1 i b p (Peer [])
         /\ forall pk, Hypercore.verify_block pk head1 i b p = false)
       (rangeN 0 (N.min 3 (h_length head1))) out.
Proof.
  apply (relay_midway (E:=E0) (OE:=OE0) LB2 c2 w1 head1 [enc1; enc2] [] 0 3 Store.Memory_total ok_c2).
  - runs_ok.
  - runs_ok.
  - apply N.ltb_lt. runs_ok.
  - apply collision_freeb_spec. runs_ok.
Defined.

(** The first author signs a block that is no entry. *)
Definition poison : bytes := [xff].
Definition poison_head : SignedHead := HypercoreLog.signed_head IdentityTheorems.sk1 0 [poison].
Definition poison_proof : Merkle.Proof_ :=
  MerkleHistory.get_or (Merkle.mkProof 0 0 [] []) (Merkle.proof (MerkleHistory.build [poison]) 0).

(** The room that took it. *)
Definition p1 : room := left_by b0 (on_block (E:=E0) (OE:=OE0) w1 poison_head 0 poison poison_proof b0).

Lemma poisoned_feed_witness :
  on_block (E:=E0) (OE:=OE0) w1 poison_head 0 poison poison_proof b0 = Done (p1, Err (Codec_ Codec.Eof))
  /\ exists ce', open (OE:=OE0) (E:=E0) cfg2 (disks_of p1) ([] : list bytes) = Done (Err (Hypercore_ (Hypercore.Codec_ ce'))).
Proof.
  destruct (poisoned_feed (E:=E0) (OE:=OE0) LB0 b0 w1 poison_head 0 poison poison_proof [] Codec.Eof Store.Memory_total ok_b0)
    as (r' & He & _ & Hopen).
  - runs_ok.
  - apply block_okb_spec. runs_ok.
  - runs_ok.
  - right. split; [runs_ok|done].
  - runs_ok.
  - runs_ok.
  - runs_ok.
  - assert (Hr : r' = p1) by (unfold p1; rewrite He; exact eq_refl). rewrite Hr in He, Hopen. split; [exact He|].
    apply (Hopen _ _ cfg2 (disks_of p1) [] _ (disks_open p1)).
    + runs_ok.
    + intros w. by rewrite disks_writers.
    + intros w Hw. rewrite disks_writers. by right.
    + apply N.ltb_lt. runs_ok.
Defined.
End RoomWitnesses.
