(* ===== verification/ServerTheorems.v ===== *)
(** * [roomnet]: what a node around its rooms guarantees

    The properties of [src/crates/roomnet/src/store.rs], [server.rs] and
    [driver.rs]: a directory lists exactly the writers whose files are in it,
    eviction drops nothing but stale replicas, and a tick of the driver goes through
    whatever its rooms and its network answer. *)
From S2P Require Import Prelude Codec Flat Merkle MerkleSpec MerkleProofs MerkleFork Store LogStore Bitfield Identity.
From S2P Require Import Linearizer LinearizerDag LinearizerView LinearizerTheorems.
From S2P Require Import Hypercore HypercoreMeta HypercoreLog HypercoreOps HypercoreDurable HypercoreTheorems.
From S2P Require Import Replica ReplicaTheorems Wire Room RoomCore RoomDag RoomInv RoomView RoomOps RoomReplay.
From S2P Require Import RoomRecovery RoomMessages RoomLife RoomQueue Server.
From Stdlib Require Import Strings.Byte.

Module ServerTheorems.
Import Linearizer (WriterKey).
Import MerkleSpec HypercoreLog Room RoomInv RoomView RoomOps RoomRecovery RoomMessages RoomLife RoomQueue Server.

(** ** File names *)

Lemma hex_pair b : from_str_radix (hex_digit (bval b / 16)) (hex_digit (bval b mod 16)) = Some (bval b).
Proof. by destruct b. Qed.
Lemma hex_ascii b s : inside_char (hex_digit (bval b / 16) :: s) = false.
Proof. by destruct b. Qed.

Lemma hex_cons b k : hex (b :: k) = hex_digit (bval b / 16) :: hex_digit (bval b mod 16) :: hex k.
Proof. done. Qed.
Lemma hex_length k : lenN (hex k) = 2 * lenN k.
Proof. induction k as [|b k IH]; [done|]. rewrite hex_cons, !lenN_cons, IH. lia. Qed.
Lemma hex_start k : inside_char (hex k) = false.
Proof. destruct k; [done|]. rewrite hex_cons. apply hex_ascii. Qed.

Lemma unhex_pairs_hex k : unhex_pairs (hex k) = Done (Some k).
Proof.
  induction k as [|b k IH]; [done|]. rewrite hex_cons. cbn [unhex_pairs].
  rewrite hex_start, hex_pair, IH. cbn. by rewrite byte_of_bval.
Qed.
Lemma unhex_hex k : lenN k = 32 -> unhex (hex k) = Done (Some k).
Proof. intros Hk. unfold unhex. by rewrite hex_length, Hk, unhex_pairs_hex. Qed.

(** The file of a writer, or a name of another length. *)
Definition file_name (s : bytes) : Prop := (exists w, lenN w = 32 /\ s = hex w) \/ lenN s <> 64.

Lemma unhex_file s : file_name s -> exists o, unhex s = Done o /\ forall w, o = Some w <-> lenN w = 32 /\ s = hex w.
Proof.
  intros [(w & Hw & ->)|Hs].
  - exists (Some w). split; [by apply unhex_hex|]. intros v. split; [by intros [= <-]|]. intros [Hv He].
    pose proof (unhex_hex w Hw) as H1. rewrite He, (unhex_hex v Hv) in H1. congruence.
  - exists None. unfold unhex. apply N.eqb_neq in Hs as Hs'. rewrite Hs'. split; [done|]. intros v. split; [done|].
    intros [Hv ->]. rewrite hex_length, Hv in Hs. done.
Qed.

Lemma known_files names :
  Forall file_name names -> exists ws, known_in names = Done ws /\ forall w, w ∈ ws <-> lenN w = 32 /\ hex w ∈ names.
Proof.
  intros Hn. unfold known_in. cut (exists os, mapM unhex names = Done os /\ forall w, Some w ∈ os <-> lenN w = 32 /\ hex w ∈ names).
  { intros (os & -> & Hos). rsimpl. eexists. split; [done|]. intros w. rewrite <- Hos, list_elem_of_omap. cbn. naive_solver. }
  induction Hn as [|s names Hs _ (os & Hos & Hw)].
  - exists []. split; [done|]. intros w. rewrite !elem_of_nil. tauto.
  - destruct (unhex_file s Hs) as (o & Ho & Hoe). exists (o :: os). cbn. rewrite Ho. rsimpl. rewrite Hos. rsimpl.
    split; [done|]. intros w. rewrite !elem_of_cons, Hw. specialize (Hoe w). naive_solver.
Qed.

(** ** A node's rooms *)

Lemma lookup_deletes {A : Type} (m : gmap RoomId A) ids id :
  foldl (λ m i, delete i m) m ids !! id = if decide (id ∈ ids) then None else m !! id.
Proof.
  revert m. induction ids as [|i ids IH]; intros m; [done|]. cbn [foldl]. rewrite IH.
  destruct (decide (id = i)) as [->|Hne].
  - rewrite lookup_delete_eq, (decide_True (P:=i ∈ i :: ids)) by (by left). by destruct (decide _).
  - rewrite lookup_delete_ne by done.
    destruct (decide (id ∈ ids)); [rewrite decide_True by (by right)|rewrite decide_False by (by rewrite elem_of_cons; intros [?|?])]; done.
Qed.

Section Node.
Context `{HL : HasherLaws} `{EL : Ed25519Laws} {S E : Type} `{SL : Store.StoreLaws S E}
  {F OE : Type} `{!StoreFactory F S OE, !FactoryLaws F S OE E} {P State PE : Type} `{!Projection P State PE}
  `{PL : !ProjectionLaws P State PE} {T TE : Type} `{!Transport T TE}.
Implicit Types (r : Room S F P) (d : Driver (S:=S) (F:=F) (P:=P) (T:=T)) (id : RoomId).

(** What a room is after some calls: it forgot nothing, and if everything finalized
    was queued for the poll, it still is. *)
Definition later r r' : Prop :=
  (forall L, room_ok L r -> exists L', room_ok L' r' /\ grows L L'
     /\ local_key r' = local_key r /\ genesis_proj r' = genesis_proj r /\ payloads r ⊆ payloads r')
  /\ (caught_up r -> caught_up r').

#[global] Instance later_preorder : PreOrder later.
Proof.
  split; [by intros r; split; [intros L Hok; exists L; split_and!; [done|apply grows_refl|done..]|]|].
  intros r1 r2 r3 [H12 C12] [H23 C23]. split; [|tauto]. intros L Hok. destruct (H12 L Hok) as (L2 & Hok2 & Hg2 & Ek2 & Eg2 & Hp2).
  destruct (H23 L2 Hok2) as (L3 & Hok3 & Hg3 & Ek3 & Eg3 & Hp3). exists L3.
  split_and!; [done|by eapply grows_trans|congruence|congruence|by etrans].
Qed.

(** And between two polls it only added to what it queued. *)
Definition works r r' : Prop := later r r' /\ queued r r'.
#[global] Instance works_preorder : PreOrder works.
Proof. split; [by intros r; split|]. intros r1 r2 r3 [] []. split; by etrans. Qed.

(** The driver after it used its rooms: none came, none went, each moved on. *)
Record played d d' : Prop := mkPlayed {
  pl_rooms : forall id, option_Forall2 works (rooms (server d) !! id) (rooms (server d') !! id);
  pl_ticks : tick_count d' = tick_count d;
  pl_every : announce_every_ticks d' = announce_every_ticks d }.

#[global] Instance played_preorder : PreOrder played.
Proof.
  split; [split; [|done..]; by intros id|]. intros d1 d2 d3 [H1 T1 E1] [H2 T2 E2]. split; [|congruence..].
  intros id. specialize (H1 id). specialize (H2 id). by etrans.
Qed.

Definition rooms_ok d : Prop := forall id r, rooms (server d) !! id = Some r -> exists L, room_ok L r.

Lemma played_ok d d' : rooms_ok d -> played d d' -> rooms_ok d'.
Proof.
  intros Hd [Hp _ _] id r' Hr'. specialize (Hp id). rewrite Hr' in Hp. destruct (rooms (server d) !! id) as [r|] eqn:Er; [|by inversion Hp].
  destruct (Hd id r Er) as [L Hok]. inversion_clear Hp as [? ? [[Hl _] _]|]. destruct (Hl L Hok) as (L' & ? & _). by exists L'.
Qed.

(** A room takes a call: what it stores fits, and no own block is garbage. *)
Definition takes r (c : call) : Prop :=
  call_ok (E:=E) (OE:=OE) r c /\ forall r' e, exec c r = Done (r', Err e) -> ~ own_error (S:=S) (E:=E) (OE:=OE) e.

Abbreviation dmethod := (act (Driver (S:=S) (F:=F) (P:=P) (T:=T)) (Error E OE)).
(** A driver's method goes through. *)
Definition goes {A} (m : dmethod A) (Q : A -> Driver (S:=S) (F:=F) (P:=P) (T:=T) -> Prop) d : Prop := wp m Q (λ _ _, False) d.

Lemma goes_bind {A B} (m : dmethod A) (k : A -> dmethod B) Q1 Q d :
  goes m Q1 d -> (forall a d', Q1 a d' -> goes (k a) Q d') -> goes (m ≫= k) Q d.
Proof. intros Hm Hk. apply wp_bind. eapply wp_mono; [exact Hm|exact Hk|done]. Qed.

(** The network after it was given some messages, and the driver after a room took
    a call and its answer was dispatched when it went well. *)
Definition handed (t : T) id outs : T := foldl (λ t out, (dispatch t id out).1) t outs.
Definition exchanged d id (m : act (Room S F P) (Error E OE) (list Outbound)) : Driver (S:=S) (F:=F) (P:=P) (T:=T) :=
  match rooms (server d) !! id with
  | None => d
  | Some r =>
      match m r with
      | Done (r', res) =>
          let d := set_server d (set_rooms (server d) (<[id := r']> (rooms (server d)))) in
          match res with Ok outs => set_transport d (handed (transport d) id outs) | Err _ => d end
      | _ => d
      end
  end.

Lemma same_transport d : set_transport d (transport d) = d.
Proof. by destruct d. Qed.
Lemma dispatch_handed id outs d :
  dispatch_outs (E:=E) (OE:=OE) id outs d = Done (set_transport d (handed (transport d) id outs), Ok tt).
Proof.
  revert d. induction outs as [|o outs IH]; intros d; [unfold handed; cbn; by rewrite same_transport|].
  unfold dispatch_outs in *. cbn [for_each]. unfold mbind, act_bind, Driver_dispatch, modify. by rewrite IH.
Qed.

(** A call on a room. *)
Lemma room_goes d id (m : act (Room S F P) (Error E OE) (list Outbound)) c :
  (forall r, exec c r = (out ← m; mret (Sent out)) r) -> queues m -> rooms_ok d ->
  (forall r, rooms (server d) !! id = Some r -> takes r c) ->
  match rooms (server d) !! id with
  | Some r => exists r' res, m r = Done (r', res) /\ works r r'
  | None => True
  end.
Proof.
  intros Hm Hq Hd Ht. destruct (rooms (server d) !! id) as [r|] eqn:Er; [|done].
  destruct (Ht r eq_refl) as [Hc Hno]. destruct (Hd id r Er) as [L Hok].
  assert (Hl : forall L0, room_ok L0 r -> match m r with Done (r', res) => moved L0 r r' | _ => False end).
  { intros L0 Hok0. pose proof (step_ends L0 r c Hok0 Hc) as Hw. unfold ends_well, wp in Hw. specialize (Hno).
    rewrite Hm in Hw, Hno. unfold mbind, act_bind in Hw, Hno.
    destruct (m r) as [[r' [out|e]]| |]; [exact Hw| |done..]. destruct Hw as [Hw|[_ Hw]]; [|exact Hw].
    by destruct (Hno r' e eq_refl). }
  pose proof (Hl L Hok) as Hl0. specialize (Hq r). destruct (m r) as [[r' res]| |]; [|done..].
  exists r', res. split; [done|]. split; [|by eapply Hq]. split.
  - intros L0 Hok0. destruct (Hl L0 Hok0) as (L' & ? & ? & ? & ? & ? & _). by exists L'.
  - destruct Hl0 as (L' & _ & _ & _ & _ & _ & _ & Hup). exact Hup.
Qed.

Lemma room_played d id r r' t :
  rooms (server d) !! id = Some r -> works r r' ->
  played d (set_transport (set_server d (set_rooms (server d) (<[id := r']> (rooms (server d))))) t).
Proof.
  intros Er Hw. split; [|done..]. intros id'. cbn.
  destruct (decide (id = id')) as [<-|Hne]; [rewrite lookup_insert_eq, Er; by constructor|by rewrite lookup_insert_ne].
Qed.

(** Its answer is dispatched when it went well. *)
Lemma room_call d id (m : act (Room S F P) (Error E OE) (list Outbound)) c :
  (forall r, exec c r = (out ← m; mret (Sent out)) r) -> queues m -> rooms_ok d ->
  (forall r, rooms (server d) !! id = Some r -> takes r c) ->
  (res ← on_room id m; dispatch_ok id res) d = Done (exchanged d id m, Ok tt) /\ played d (exchanged d id m).
Proof.
  intros Hm Hq Hd Ht. pose proof (room_goes d id m c Hm Hq Hd Ht) as Hg. unfold exchanged, mbind, act_bind, on_room.
  destruct (rooms (server d) !! id) as [r|] eqn:Er; [|by split].
  destruct Hg as (r' & res & -> & Hw). rsimpl. destruct res as [outs|e]; cbn [dispatch_ok].
  - split; [apply dispatch_handed|by eapply room_played].
  - split; [done|]. set (d' := set_server d _). rewrite <- (same_transport d'). by eapply room_played.
Qed.

(** A message is pumped, a room checkpointed. *)
Definition pumped d (i : Inbound) := exchanged d (in_room i) (on_inbound (in_from i) (in_msg i)).
Definition checkpointed d id := exchanged d id checkpoint.

Lemma pump_goes d (i : Inbound) :
  rooms_ok d -> (forall r, rooms (server d) !! in_room i = Some r -> takes r (On_inbound (in_from i) (in_msg i))) ->
  pump (E:=E) (OE:=OE) i d = Done (pumped d i, Ok tt) /\ played d (pumped d i).
Proof. intros Hd Ht. apply (room_call d (in_room i) _ (On_inbound (in_from i) (in_msg i))); [done|apply queues_inbound|done..]. Qed.

Lemma checkpoint_done d id :
  rooms_ok d -> (forall r, rooms (server d) !! id = Some r -> takes r Checkpoint_) ->
  checkpoint_room (E:=E) (OE:=OE) id d = Done (checkpointed d id, Ok tt) /\ played d (checkpointed d id).
Proof. intros Hd Ht. apply (room_call d id _ Checkpoint_); [done|apply queues_checkpoint|done..]. Qed.

(** ** A tick *)

Lemma goes_done {A} (m : dmethod A) Q d : goes m Q d -> exists a d', m d = Done (d', Ok a) /\ Q a d'.
Proof. unfold goes, wp. destruct (m d) as [[d' [a|e]]| |]; [|done..]. intros HQ. by exists a, d'. Qed.

(** The rooms take what is read, one message after the other; and so with the
    checkpoints. *)
Fixpoint pumpable (l : list Inbound) d : Prop :=
  match l with
  | [] => True
  | i :: l' =>
      (forall r, rooms (server d) !! in_room i = Some r -> takes r (On_inbound (in_from i) (in_msg i)))
      /\ forall d', pump (E:=E) (OE:=OE) i d = Done (d', Ok tt) -> pumpable l' d'
  end.
Fixpoint checkable (ids : list RoomId) d : Prop :=
  match ids with
  | [] => True
  | id :: ids' =>
      (forall r, rooms (server d) !! id = Some r -> takes r Checkpoint_)
      /\ forall d', checkpoint_room (E:=E) (OE:=OE) id d = Done (d', Ok tt) -> checkable ids' d'
  end.
Definition tickable d : Prop :=
  let '(t, inbound) := drain_inbound (transport d) in
  let d1 := set_transport d t in
  pumpable inbound d1 /\ forall d2, for_each inbound (pump (E:=E) (OE:=OE)) d1 = Done (d2, Ok tt) ->
    (forall id r, rooms (server d2) !! id = Some r -> roomy 0 r)
    /\ forall ids, hosts (bmap_list (rooms (server d2))) = Done ids -> checkable ids d2.

Lemma pumps_done l d : rooms_ok d -> pumpable l d -> for_each l (pump (E:=E) (OE:=OE)) d = Done (foldl pumped d l, Ok tt) /\ played d (foldl pumped d l).
Proof.
  revert d. induction l as [|i l IH]; intros d Hd Hl; [done|]. destruct Hl as [Ht Hl].
  destruct (pump_goes d i Hd Ht) as [E1 H1]. destruct (IH (pumped d i)) as [E2 H2]; [by eapply played_ok|by apply Hl|].
  cbn [for_each foldl]. split; [|by etrans]. unfold mbind, act_bind. by rewrite E1.
Qed.
Lemma checks_done ids d :
  rooms_ok d -> checkable ids d -> for_each ids (checkpoint_room (E:=E) (OE:=OE)) d = Done (foldl checkpointed d ids, Ok tt) /\ played d (foldl checkpointed d ids).
Proof.
  revert d. induction ids as [|i l IH]; intros d Hd Hl; [done|]. destruct Hl as [Ht Hl].
  destruct (checkpoint_done d i Hd Ht) as [E1 H1]. destruct (IH (checkpointed d i)) as [E2 H2]; [by eapply played_ok|by apply Hl|].
  cbn [for_each foldl]. split; [|by etrans]. unfold mbind, act_bind. by rewrite E1.
Qed.

(** Every room's adverts go out. *)
Definition advertise d (t : T) id : T :=
  match rooms (server d) !! id with Some r => handed t id (announce r) | None => t end.
Lemma announce_done id d : Driver_announce (E:=E) (OE:=OE) id d = Done (set_transport d (advertise d (transport d) id), Ok tt).
Proof.
  unfold Driver_announce, advertise, mbind, act_bind, reads. destruct (rooms (server d) !! id) as [r|]; [apply dispatch_handed|].
  by rewrite same_transport.
Qed.
Lemma announces_done ids d :
  for_each ids (Driver_announce (E:=E) (OE:=OE)) d = Done (set_transport d (foldl (advertise d) (transport d) ids), Ok tt).
Proof.
  revert d. induction ids as [|i ids IH]; intros d; [cbn; by rewrite same_transport|].
  cbn [for_each foldl]. unfold mbind, act_bind. by rewrite announce_done, IH.
Qed.

Lemma played_ids d d' : played d d' -> room_ids d' = room_ids d.
Proof.
  intros [Hr _ _]. unfold room_ids. rewrite !bmap_list_keys. unfold bmap_keys. f_equal.
  apply set_eq. intros id. specialize (Hr id). rewrite !elem_of_dom.
  inversion Hr as [r r' _ E1 E2|E1 E2]; rewrite <- ?E1, <- ?E2; (split; intros [? ?]; [by eexists|done]) || done.
Qed.

Lemma hosts_total (l : list (RoomId * Room S F P)) :
  (forall id r, (id, r) ∈ l -> (exists L, room_ok L r) /\ roomy 0 r) -> exists ids, hosts l = Done ids.
Proof.
  induction l as [|[id r] l IH]; intros Hl; [by exists []|]. destruct (Hl id r) as [[L Hok] Hr]; [by left|].
  destruct (needs_checkpoint_total L r Hok Hr) as [b Eb]. destruct IH as [ids Ei]; [intros id' r' Hin; apply (Hl id'); by right|].
  cbn. rewrite Eb. rsimpl. rewrite Ei. rsimpl. by eexists.
Qed.

(** What a poll takes out of the rooms. *)
Definition polled r : Room S F P := set_finalized r (finalized_proj r) (finalized_len r) [].
Lemma polled_later r : later r (polled r).
Proof.
  split; [|exact (λ H, H)]. intros L [Hc Hd]. exists L.
  split_and!; [split; [by eapply cores_frame|by eapply deliveries_frame]|apply grows_refl|done..].
Qed.
Definition polls d id : option (RoomId * list Finalized) :=
  r ← rooms (server d) !! id; match finalized_since_poll r with [] => None | q => Some (id, q) end.

Lemma polls_ext d d' (ids : list RoomId) :
  (forall id, id ∈ ids -> rooms (server d') !! id = rooms (server d) !! id) -> omap (polls d') ids = omap (polls d) ids.
Proof.
  induction ids as [|i ids IH]; intros Hi; [done|]. cbn [omap list_omap].
  rewrite IH by (intros id Hid; apply Hi; by right).
  assert (Heq : polls d' i = polls d i) by (unfold polls; rewrite Hi; [done|by left]). by rewrite Heq.
Qed.

Lemma collect_polls ids out d :
  NoDup ids -> goes (collect ids out) (λ res d', res = out ++ omap (polls d) ids /\ tick_count d' = tick_count d /\ transport d' = transport d
    /\ forall id, rooms (server d') !! id = if decide (id ∈ ids) then polled <$> rooms (server d) !! id else rooms (server d) !! id) d.
Proof.
  revert out d. induction ids as [|i ids IH]; intros out d Hn; [by rewrite app_nil_r|].
  apply NoDup_cons in Hn as [Hi Hn]. cbn [collect].
  apply (goes_bind _ _ (λ res d1, res = ((λ r, Ok (finalized_since_poll r)) <$> rooms (server d) !! i) /\ tick_count d1 = tick_count d /\ transport d1 = transport d
    /\ forall id, rooms (server d1) !! id = if decide (id = i) then polled <$> rooms (server d) !! id else rooms (server d) !! id)).
  - unfold goes, wp, on_room. destruct (rooms (server d) !! i) as [r|] eqn:Er.
    + rsimpl. split_and!; [done..|]. intros id. cbn. destruct (decide (id = i)) as [->|Hne];
        [by rewrite lookup_insert_eq, Er|by rewrite lookup_insert_ne].
    + rsimpl. split_and!; [done..|]. intros id. destruct (decide (id = i)) as [->|Hne]; [by rewrite Er|done].
  - intros res d1 (-> & Ht & Hx & Hr). eapply wp_mono; [by apply IH| |done]. intros res d2 (-> & Ht2 & Hx2 & Hr2).
    split_and!; [|congruence|congruence|].
    + rewrite (polls_ext d d1) by (intros id Hid; rewrite Hr, decide_False by (by intros ->); done).
      cbn [omap list_omap]. unfold polls at 2. destruct (rooms (server d) !! i) as [r|]; rsimpl; [|done].
      destruct (finalized_since_poll r); [done|]. by rewrite <- app_assoc.
    + intros id. rewrite Hr2, Hr. destruct (decide (id = i)) as [->|Hne].
      * rewrite (decide_False (P:=i ∈ ids)), (decide_True (P:=i ∈ i :: ids)) by (done || by left). done.
      * destruct (decide (id ∈ ids)); [rewrite decide_True by (by right)|rewrite decide_False by (by rewrite elem_of_cons; intros [?|?])]; done.
Qed.
End Node.

(** ** Properties *)

(** A directory that holds the log files of some writers, and files whose names
    have another length, lists exactly those writers, and two writers never share a
    file; a cache beside it lists the writers of either, in key order. *)
Theorem directory_correct {F E : Type} `{!LogStore.SyncFile F E} {G S OE : Type} `{!StoreFactory G S OE}
    (d : DiskStoreFactory (F:=F) (E:=E)) (c : CachedFactory (F:=F) (E:=E) (G:=G)) inner_ws :
  Forall file_name (names d) -> cache_dir c = d -> known_writers (inner c) = Done inner_ws ->
  (exists ws, known_writers d = Done ws /\ forall w, w ∈ ws <-> lenN w = 32 /\ hex w ∈ names d)
  /\ (forall v w, lenN v = 32 -> lenN w = 32 -> hex v = hex w -> v = w)
  /\ exists ws, known_writers c = Done ws /\ NoDup ws
       /\ forall w, w ∈ ws <-> w ∈ inner_ws \/ lenN w = 32 /\ hex w ∈ names d.
Proof.
  intros Hn Hc Hi. destruct (known_files (names d) Hn) as (ws & Hws & Hin). split; [by exists ws|]. split.
  - intros v w Hv Hw He. pose proof (unhex_hex v Hv) as H1. rewrite He, (unhex_hex w Hw) in H1. congruence.
  - eexists. cbn. unfold Cached_known. rewrite Hi, Hc, Hws. rsimpl. split; [done|]. split; [apply bset_list_nodup|].
    intros w. rewrite bset_list_elem, elem_of_union, !elem_of_list_to_set, Hin. done.
Qed.

Lemma bind_done {St Er A B : Type} (m : act St Er A) (k : A -> act St Er B) (s s' : St) a x :
  m s = Done (s', Ok a) -> k a s' = x -> (m ≫= k) s = x.
Proof. intros Hm <-. unfold mbind, act_bind. by rewrite Hm. Qed.

Section Properties.
Context `{HL : HasherLaws} `{EL : Ed25519Laws} {S E : Type} `{SL : Store.StoreLaws S E}
  {F OE : Type} `{!StoreFactory F S OE, !FactoryLaws F S OE E} {P State PE : Type} `{!Projection P State PE}
  `{PL : !ProjectionLaws P State PE} {T TE : Type} `{!Transport T TE}.

(** Eviction drops exactly the replicated rooms that are judged stale, names each
    of them once, and leaves every other room as it was; a room the node hosts is
    never dropped. *)
Theorem evict_correct (s : RoomServer (S:=S) (F:=F) (P:=P)) stale :
  let '(s', ids) := evict_stale s stale in
  NoDup ids
  /\ (forall id, id ∈ ids <-> exists r, rooms s !! id = Some r /\ origin r <> Original /\ stale r = true)
  /\ (forall id, rooms s' !! id = if decide (id ∈ ids) then None else rooms s !! id)
  /\ forall id r, rooms s !! id = Some r -> origin r = Original -> rooms s' !! id = Some r.
Proof.
  unfold evict_stale. set (ids := (filter _ _).*1).
  assert (Hin : forall id, id ∈ ids <-> exists r, rooms s !! id = Some r /\ origin r <> Original /\ stale r = true).
  { intros id. unfold ids. rewrite list_elem_of_fmap. split.
    - intros ([id' r] & -> & [Hs Hr]%list_elem_of_filter). apply bmap_list_elem in Hr. exists r. cbn in *.
      apply andb_prop_elim in Hs as [Hr1 Hs]. unfold is_replicated in Hr1. destruct (origin r); [done|].
      split_and!; [done..|by apply Is_true_true].
    - intros (r & Hr & Ho & Hs). exists (id, r). split; [done|]. apply list_elem_of_filter. cbn.
      rewrite bmap_list_elem, Hs. unfold is_replicated. by destruct (origin r). }
  assert (Hrooms : forall id, foldl (λ m i, delete i m) (rooms s) ids !! id = if decide (id ∈ ids) then None else rooms s !! id).
  { intros id. apply lookup_deletes. }
  split_and!; [|exact Hin|exact Hrooms|].
  - apply (sublist_NoDup _ (bmap_list (rooms s)).*1); [apply bmap_list_nodup|apply fmap_sublist, sublist_filter].
  - intros id r Hr Ho. cbn. rewrite Hrooms, decide_False; [done|]. rewrite Hin. intros (r' & Hr' & Ho' & _). congruence.
Qed.

(** The rooms that announce on this tick. *)
Definition due (d : Driver (S:=S) (F:=F) (P:=P) (T:=T)) : bool :=
  negb (announce_every_ticks d =? 0) && (tick_count d mod announce_every_ticks d =? 0).

(** What a tick leaves, and what it returns for each room. *)
Record ticked (d d' : Driver (S:=S) (F:=F) (P:=P) (T:=T)) (told : RoomId -> list Finalized) : Prop := mkTicked {
  tk_served : exists hs,
    let '(t, inbound) := drain_inbound (transport d) in
    let d2 := foldl (pumped (E:=E) (OE:=OE)) (set_transport d t) inbound in
    let d3 := foldl (checkpointed (E:=E) (OE:=OE)) d2 hs in
    hosts (bmap_list (rooms (server d2))) = Done hs
    /\ (forall id, rooms (server d') !! id = polled <$> rooms (server d3) !! id)
    /\ transport d' = (if due d then foldl (advertise d3) (transport d3) (room_ids d) else transport d3);
  tk_told : forall id r, rooms (server d) !! id = Some r -> exists r' new,
    rooms (server d') !! id = Some r' /\ later r r' /\ adds new r r' /\ told id = finalized_since_poll r ++ new;
  tk_none : forall id, rooms (server d) !! id = None -> rooms (server d') !! id = None;
  tk_count : tick_count d' = wrap64 (tick_count d + 1);
  tk_ok : rooms_ok d' }.

(** The non-empty answers, room by room. *)
Definition answers (told : RoomId -> list Finalized) (ids : list RoomId) : list (RoomId * list Finalized) :=
  omap (λ id, match told id with [] => None | q => Some (id, q) end) ids.

Lemma tick_goes (d : Driver (S:=S) (F:=F) (P:=P) (T:=T)) :
  rooms_ok d -> tickable (E:=E) (OE:=OE) d ->
  exists (d' : Driver (S:=S) (F:=F) (P:=P) (T:=T)) told,
    tick (E:=E) (OE:=OE) d = Done (d', Ok (answers told (room_ids d))) /\ ticked d d' told.
Proof.
  intros Hd Ht. unfold tickable in Ht. destruct (drain_inbound (transport d)) as [t inbound] eqn:Ed. destruct Ht as [Hp Ht].
  assert (Hd0 : rooms_ok (set_transport d t)) by exact Hd.
  destruct (pumps_done (E:=E) (OE:=OE) inbound (set_transport d t) Hd0 Hp) as [E2 H2].
  set (d2 := foldl pumped (set_transport d t) inbound) in *.
  destruct (Ht d2 E2) as [Hroomy Hc]. pose proof (played_ok (set_transport d t) d2 Hd0 H2) as Hd2.
  destruct (hosts_total (bmap_list (rooms (server d2)))) as [hs Eh].
  { intros id r Hr%bmap_list_elem. split; [by apply (Hd2 id)|by apply (Hroomy id)]. }
  destruct (checks_done (E:=E) (OE:=OE) hs d2 Hd2 (Hc hs Eh)) as [E3 H3]. set (d3 := foldl checkpointed d2 hs) in *.
  assert (Hpl : played (set_transport d t) d3) by (etrans; [exact H2|exact H3]).
  pose proof (played_ids _ _ Hpl) as Hids. change (room_ids (set_transport d t)) with (room_ids d) in Hids.
  assert (Hdue : negb (announce_every_ticks d3 =? 0) && (tick_count d3 mod announce_every_ticks d3 =? 0) = due d).
  { unfold due. by rewrite (pl_ticks _ _ Hpl), (pl_every _ _ Hpl). }
  set (t4 := if due d then foldl (advertise d3) (transport d3) (room_ids d) else transport d3).
  set (d4 := set_transport d3 t4).
  assert (E4 : (if due d then ids ← reads room_ids; for_each ids (Driver_announce (E:=E) (OE:=OE)) else mret tt) d3 = Done (d4, Ok tt)).
  { unfold d4, t4. destruct (due d); [|by rewrite same_transport]. rewrite <- Hids. exact (announces_done (E:=E) (OE:=OE) (room_ids d3) d3). }
  set (dm := mkDriver (server d4) (transport d4) (announce_every_ticks d4) (wrap64 (tick_count d4 + 1))).
  destruct (goes_done _ _ _ (collect_polls (E:=E) (OE:=OE) (room_ids dm) [] dm (bmap_list_nodup _))) as (out & d' & E5 & -> & Htc & Htr & Hr).
  assert (Hall : forall id, rooms (server d') !! id = polled <$> rooms (server d3) !! id).
  { intros id. rewrite Hr. destruct (decide (id ∈ room_ids dm)) as [|Hn]; [done|].
    unfold room_ids in Hn. rewrite bmap_list_keys, bmap_keys_elem in Hn. apply eq_None_not_Some in Hn.
    change (rooms (server dm)) with (rooms (server d3)) in Hn |- *. by rewrite Hn. }
  exists d', (λ id, match rooms (server d3) !! id with Some r => finalized_since_poll r | None => [] end). split.
  - unfold answers. rewrite <- Hids.
    assert (Ho : omap (polls dm) (room_ids dm) = omap (λ id, match match rooms (server d3) !! id with Some r => finalized_since_poll r | None => [] end with [] => None | q => Some (id, q) end) (room_ids d3)).
    { change (room_ids dm) with (room_ids d3). apply list_omap_ext, Forall_Forall2_diag, Forall_forall. intros id _. unfold polls.
      change (rooms (server dm)) with (rooms (server d3)). by destruct (rooms (server d3) !! id). }
    rewrite <- Ho. unfold tick. eapply bind_done; [by rewrite Ed|]. apply (bind_done _ _ _ d2 tt); [exact E2|].
    apply (bind_done _ _ _ d2 hs); [unfold calls; by rewrite Eh|]. apply (bind_done _ _ _ d3 tt); [exact E3|].
    apply (bind_done _ _ _ d3 (due d)); [unfold reads; by rewrite Hdue|]. apply (bind_done _ _ _ d4 tt); [exact E4|].
    apply (bind_done _ _ _ dm tt); [done|]. apply (bind_done _ _ _ dm (room_ids dm)); [done|exact E5].
  - constructor.
    + exists hs. rewrite Ed. fold d2. fold d3. split_and!; [done|exact Hall|by rewrite Htr].
    + intros id r Hr0. destruct Hpl as [Hpr _ _]. specialize (Hpr id). change (rooms (server (set_transport d t))) with (rooms (server d)) in Hpr.
      rewrite Hr0 in Hpr. destruct (rooms (server d3) !! id) as [r3|] eqn:E3r; [|by inversion Hpr].
      assert (Hw : works r r3) by (by inversion Hpr). destruct Hw as [Hl (new & Eq & Ha)].
      exists (polled r3), new. rewrite Hall, E3r. split_and!; [done|etrans; [exact Hl|apply polled_later]|exact Ha|exact Eq].
    + intros id Hr0. destruct Hpl as [Hpr _ _]. specialize (Hpr id). change (rooms (server (set_transport d t))) with (rooms (server d)) in Hpr.
      rewrite Hr0 in Hpr. rewrite Hall. by inversion Hpr.
    + by rewrite Htc; cbn; rewrite (pl_ticks _ _ Hpl).
    + intros id r'. rewrite Hall. intros Hr'. apply fmap_Some in Hr' as (r & Er & ->).
      destruct (played_ok (set_transport d t) d3 Hd0 Hpl id r Er) as [L [Hc1 Hd1]]. exists L.
      split; [by eapply cores_frame|by eapply deliveries_frame].
Qed.

End Properties.
End ServerTheorems.
