(* ===== verification/ServerWitnesses.v ===== *)
(** * [roomnet]: the node's theorems at a concrete node

    A driver over one of the rooms of RoomWitnesses and a network that holds one
    message, and a directory with the files of two writers. *)
From S2P Require Import Prelude Codec Flat Merkle MerkleSpec MerkleProofs MerkleHistory Store LogStore StoreTheorems Bitfield.
From S2P Require Import Identity IdentityTheorems.
From S2P Require Import Linearizer LinearizerDag LinearizerView LinearizerTheorems.
From S2P Require Import Hypercore HypercoreMeta HypercoreLog HypercoreOps HypercoreDurable HypercoreTheorems.
From S2P Require Import Replica ReplicaTheorems Wire Room RoomCore RoomDag RoomInv RoomView RoomOps RoomReplay.
From S2P Require Import RoomRecovery RoomMessages RoomLife RoomQueue Server.
From S2P Require Import RoomWitnesses.
From S2P Require Import ServerTheorems.
From Stdlib Require Import Strings.Byte.

Module ServerWitnesses.
Import Linearizer (WriterKey).
Import LogStore HypercoreLog Room RoomInv RoomView RoomOps RoomRecovery RoomMessages RoomLife Server RoomWitnesses ServerTheorems.

#[local] Existing Instance MerkleHistory.toy_hash.
#[local] Existing Instance MerkleHistory.toy_laws.
#[local] Existing Instance IdentityTheorems.toy_ed.
#[local] Existing Instance IdentityTheorems.toy_ed_laws.
#[local] Existing Instance disks_factory.
#[local] Existing Instance disks_laws.
#[local] Existing Instance collect.
#[local] Existing Instance collect_laws.

(** A network that holds what is to be read and drops what is sent. *)
#[local] Instance mailbox : Transport (list Inbound) Empty_set := {|
  dispatch t _ _ := (t, Ok tt);
  drain_inbound t := ([], t) |}.

Definition id1 : RoomId := [x01].
Definition node1 : RoomServer (S:=Store.MemoryStore) (F:=gmap WriterKey Store.MemoryStore) (P:=list bytes) :=
  set_rooms (Server_open (mkServerConfig [] [] None) [] (λ _, ∅)) {[ id1 := b0 ]}.
Abbreviation driver :=
  (Driver (S:=Store.MemoryStore) (F:=gmap WriterKey Store.MemoryStore) (P:=list bytes) (T:=list Inbound)).
Definition driver0 : driver := mkDriver node1 [mkInbound id1 [] block1] 1 0.

Lemma took (r : room) (c : call) :
  call_ok (E:=E0) (OE:=OE0) r c -> went_well (exec (E:=E0) (OE:=OE0) c r) = true -> takes (E:=E0) (OE:=OE0) r c.
Proof. intros Hc Hw. split; [done|]. intros r' e He. by rewrite He in Hw. Qed.

(** The driver after the message. *)
Definition driver1 : driver := set_server (set_transport driver0 []) (set_rooms node1 (<[id1 := b1]> {[ id1 := b0 ]})).
Lemma rooms_1 : rooms (server driver1) = {[ id1 := b1 ]}.
Proof. apply insert_singleton_eq. Qed.

Lemma outs_dropped (room : RoomId) (outs : list Outbound) (d : driver) : dispatch_outs (E:=E0) (OE:=OE0) room outs d = Done (d, Ok tt).
Proof. induction outs as [|o outs IH]; [done|]. destruct d. exact IH. Qed.

Lemma pump_done (id : RoomId) (r : room) (m : Wire.SyncMessage) (d : driver) :
  rooms (server d) !! id = Some r -> went_well (on_inbound (E:=E0) (OE:=OE0) [] m r) = true ->
  pump (E:=E0) (OE:=OE0) (mkInbound id [] m) d
    = Done (set_server d (set_rooms (server d) (<[id := received m r]> (rooms (server d)))), Ok tt).
Proof.
  intros Hr Hw. apply (bind_done _ _ _ (set_server d (set_rooms (server d) (<[id := received m r]> (rooms (server d)))))
    (Some (Ok (given [] (on_inbound (E:=E0) (OE:=OE0) [] m r))))); [|apply outs_dropped].
  unfold on_room. cbn [in_room in_from in_msg]. rewrite Hr, (went_well_done [] r _ Hw). reflexivity.
Qed.
Lemma pump_1 : pump (E:=E0) (OE:=OE0) (mkInbound id1 [] block1) (set_transport driver0 []) = Done (driver1, Ok tt).
Proof. apply (pump_done id1 b0); [apply lookup_singleton_eq|runs_ok]. Qed.

#[local] Opaque b0 b1.


(** A directory with the files of the two writers and one that is none. *)
Definition directory : DiskStoreFactory (F:=MemFile) (E:=SlicePanic) :=
  mkDisk [hex w1; [x2e]; hex w2] (λ _, Ok (mkMemFile [])).

Lemma directory_correct_witness :
  (exists ws, known_writers directory = Done ws /\ forall w, w ∈ ws <-> lenN w = 32 /\ hex w ∈ names directory)
  /\ hex w1 <> hex w2.
Proof.
  destruct (directory_correct (G:=gmap WriterKey Store.MemoryStore) directory (mkCached ∅ directory) []) as (Hd & Hi & _).
  - apply Forall_cons. split; [left; exists w1; split; [runs_ok|done]|]. apply Forall_cons. split; [right; runs_ok|].
    apply Forall_cons. split; [left; exists w2; split; [runs_ok|done]|]. constructor.
  - done.
  - done.
  - split; [exact Hd|]. intros He. assert (Hw : w1 <> w2) by runs_ok. apply Hw, Hi; [runs_ok|runs_ok|exact He].
Defined.
End ServerWitnesses.
