(* ===== verification/TransportTheorems.v ===== *)
(** * [roomnet]: what the transports guarantee

    The properties of [src/crates/roomnet/src/ws.rs] and
    [src/crates/roomnet/src/native/mod.rs]: frames are read back, a server routes to
    the connections it should under every interleaving of its tasks, and it
    counts the clients in a room when they behave. *)
From S2P Require Import Prelude Codec Flat Merkle MerkleSpec MerkleProofs MerkleFork Store Bitfield Identity.
From S2P Require Import Linearizer Hypercore Replica Wire Room Server Transports.

Module TransportTheorems.
Import Room Server Transports.
Import Wire (SyncMessage).

Section Frames.
Context `{EL : Ed25519Laws}.
Implicit Types (s : WsServerTransport) (k : Conn).

Definition id_ok (id : bytes) : Prop := lenN id = 32.

Lemma split_at (a b : bytes) : lenN a = 32 -> take 32 (a ++ b) = a /\ drop 32 (a ++ b) = b.
Proof.
  intros Ha. assert (length a = 32%nat) as Hl by (unfold lenN in Ha; lia).
  rewrite <- Hl. by rewrite take_app_length, drop_app_length.
Qed.

Lemma parse_encoded room from m rest :
  id_ok room -> id_ok from -> Wire.message_ok m ->
  parse_frame (encode_frame room from m ++ rest) = Some (mkInbound room from m).
Proof.
  intros Hr Hf Hm. unfold parse_frame, encode_frame. rewrite <- !app_assoc.
  destruct (split_at room (from ++ Wire.encode m ++ rest) Hr) as [E1 E2].
  destruct (split_at from (Wire.encode m ++ rest) Hf) as [E3 E4].
  replace (lenN _ <? 64) with false by (symmetry; apply N.ltb_ge; rewrite !lenN_app, Hr, Hf; lia).
  change 64%nat with (32 + 32)%nat. rewrite <- drop_drop, E1, E2, E3, E4.
  destruct (Wire.message_exact m Hm) as [Hx _]. unfold Wire.decode. by rewrite Hx.
Qed.

Lemma parse_cut room from m n :
  id_ok room -> id_ok from -> Wire.message_ok m -> (n < length (encode_frame room from m))%nat ->
  parse_frame (take n (encode_frame room from m)) = None.
Proof.
  intros Hr Hf Hm Hn. unfold parse_frame. destruct (N.ltb_spec (lenN (take n (encode_frame room from m))) 64) as [|Hge]; [done|].
  assert (Hn64 : (64 <= n)%nat) by (unfold lenN in Hge; rewrite length_take in Hge; lia).
  assert (E : drop 64 (take n (encode_frame room from m)) = take (n - 64) (Wire.encode m)).
  { rewrite skipn_firstn_comm. f_equal. unfold encode_frame. change 64%nat with (32 + 32)%nat. rewrite <- drop_drop.
    destruct (split_at room (from ++ Wire.encode m) Hr) as [_ ->]. by destruct (split_at from (Wire.encode m) Hf) as [_ ->]. }
  rewrite E. destruct (Wire.message_exact m Hm) as [_ Hc]. unfold Wire.decode.
  destruct (Hc (n - 64)%nat) as [e ->]; [|done].
  unfold encode_frame in Hn. rewrite !length_app in Hn. unfold id_ok, lenN in *. lia.
Qed.

(** ** Runs of a WebSocket server *)

(** The steps of its tasks, of its clients' sockets and of the node it serves. *)
Inductive event :=
| Accepts | Receives (c : N) (m : Message) | Handles (c : N) | Hangs_up (c : N) | Leaves (c : N)
| Writes (c : N) (sent : bool) | Writes_left (c : N) (sent : bool) | Dispatches (room : RoomId) (out : Outbound) | Drains.

Definition happens (e : event) s : option WsServerTransport :=
  match e with
  | Accepts => Some (accept s)
  | Receives c m => receive c m s
  | Handles c => handle c s
  | Hangs_up c => hang_up c s
  | Leaves c => leave c s
  | Writes c sent => fst <$> write c sent s
  | Writes_left c sent => fst <$> write_left c sent s
  | Dispatches room out => Some (srv_dispatch s room out)
  | Drains => Some (srv_drain s).1
  end.

(** Any interleaving; [K] may restrict the events. *)
Inductive reaches (K : WsServerTransport -> event -> Prop) s : list event -> WsServerTransport -> Prop :=
| reaches_nil : reaches K s [] s
| reaches_snoc es s1 e s2 : reaches K s es s1 -> happens e s1 = Some s2 -> K s1 e -> reaches K s (es ++ [e]) s2.
Definition any_event (_ : WsServerTransport) (_ : event) : Prop := True.

(** Two connections that differ in their queue and its state only. *)
Definition same_reader k k' : Prop :=
  registered k' = registered k /\ conn_rooms k' = conn_rooms k /\ reader k' = reader k.

Lemma enqueue_reader frame (m : gmap N Conn) c c' : option_Forall2 same_reader (m !! c') (enqueue frame m c !! c').
Proof.
  assert (Hr : option_Forall2 same_reader (m !! c') (m !! c')) by (destruct (m !! c'); by constructor).
  unfold enqueue. destruct (m !! c) as [k|] eqn:Ek; [|done]. destruct (writing k); [|done].
  destruct (decide (c' = c)) as [->|Hne]; [rewrite Ek, lookup_insert_eq; by constructor|by rewrite lookup_insert_ne].
Qed.
Lemma enqueue_all_reader frame cs (m : gmap N Conn) c' :
  option_Forall2 same_reader (m !! c') (foldl (enqueue frame) m cs !! c').
Proof.
  revert m. induction cs as [|c cs IH]; intros m; cbn [foldl]; [destruct (m !! c'); by constructor|].
  pose proof (enqueue_reader frame m c c') as H1. specialize (IH (enqueue frame m c)).
  inversion H1 as [k k' (A & B & C) E1 E2|E1 E2]; rewrite <- E2 in IH; inversion IH as [? k2 (A2 & B2 & C2)|]; constructor.
  split_and!; congruence.
Qed.

(** The events that change nothing but queues. *)
Definition queues_only s s' : Prop :=
  conns s' = conns s /\ seen s' = seen s /\ present s' = present s /\ accepted s' = accepted s /\ srv_id s' = srv_id s
  /\ srv_inbound s' ⊆ srv_inbound s /\ forall c, option_Forall2 same_reader (live s !! c) (live s' !! c).

Lemma refl_reader (m : gmap N Conn) c : option_Forall2 same_reader (m !! c) (m !! c).
Proof. destruct (m !! c); by constructor. Qed.

Lemma dispatch_queues s room out : queues_only s (srv_dispatch s room out).
Proof.
  unfold srv_dispatch. destruct (to out) as [|p|].
  - split_and!; try done. intros c. apply enqueue_all_reader.
  - destruct (conns s !! p) as [c0|]; (split_and!; try done); intros c; [apply enqueue_reader|apply refl_reader].
  - split_and!; try done. intros c. apply enqueue_all_reader.
Qed.
Lemma drain_queues s : queues_only s (srv_drain s).1.
Proof. split_and!; try done; [apply list_subseteq_nil|]. intros c. apply refl_reader. Qed.
Lemma write_queues c sent s s' : fst <$> write c sent s = Some s' -> queues_only s s'.
Proof.
  unfold write. destruct (live s !! c) as [k|] eqn:Ek; [|done]. rsimpl. destruct (queue k) as [|f q]; [done|].
  destruct (writing k); [|done]. intros [= <-]. split_and!; try done. intros c'. cbn.
  destruct (decide (c' = c)) as [->|Hne]; [rewrite Ek, lookup_insert_eq; by constructor|rewrite lookup_insert_ne by done; apply refl_reader].
Qed.

Lemma write_left_queues c sent s s' : fst <$> write_left c sent s = Some s' -> queues_only s s'.
Proof.
  unfold write_left. destruct (left_over s !! c) as [[|f q]|]; rsimpl; [done| |done]. intros [= <-].
  split_and!; try done. intros c'. apply refl_reader.
Qed.

(** ** What every interleaving keeps *)

Record srv_ok s : Prop := mkSrvOk {
  so_conns : forall p c, conns s !! p = Some c -> exists k, live s !! c = Some k /\ registered k = Some p /\ reader k <> Leaving;
  so_reg : forall c k st inb, live s !! c = Some k -> reader k = Handling st inb -> st = Registering \/ is_Some (registered k);
  so_fresh : forall c, is_Some (live s !! c) -> c < accepted s;
  so_seen : forall inb, inb ∈ srv_inbound s -> in_room inb ∈ seen s;
  so_fwd : forall c k inb, live s !! c = Some k -> reader k = Handling Forwarding inb -> in_room inb ∈ seen s }.

Lemma queues_back s s' c k' : queues_only s s' -> live s' !! c = Some k' -> exists k, live s !! c = Some k /\ same_reader k k'.
Proof.
  intros (_ & _ & _ & _ & _ & _ & Hl) Hk. specialize (Hl c). rewrite Hk in Hl. inversion Hl as [k ? Hs E1|]. by exists k.
Qed.
Lemma queues_forth s s' c k : queues_only s s' -> live s !! c = Some k -> exists k', live s' !! c = Some k' /\ same_reader k k'.
Proof.
  intros (_ & _ & _ & _ & _ & _ & Hl) Hk. specialize (Hl c). rewrite Hk in Hl. inversion Hl as [? k' Hs E1|]. by exists k'.
Qed.

Lemma queues_ok s s' : queues_only s s' -> srv_ok s -> srv_ok s'.
Proof.
  intros Hq [H1 H2 H3 H4 H5]. pose proof Hq as (Ec & Es & _ & Ea & _ & Hi & Hl). constructor.
  - intros p c Hc. rewrite Ec in Hc. destruct (H1 p c Hc) as (k & Hk & Hr & Hn).
    destruct (queues_forth s s' c k Hq Hk) as (k' & Hk' & A & B & C). exists k'. split_and!; [exact Hk'|by rewrite A|by rewrite C].
  - intros c k' st inb Hk' Hr. destruct (queues_back s s' c k' Hq Hk') as (k & Hk & A & B & C). rewrite A. eapply H2; [exact Hk|by rewrite <- C].
  - intros c [k' Hk']. destruct (queues_back s s' c k' Hq Hk') as (k & Hk & _). rewrite Ea. apply H3. by exists k.
  - intros inb Hin. rewrite Es. by apply H4, Hi.
  - intros c k' inb Hk' Hr. destruct (queues_back s s' c k' Hq Hk') as (k & Hk & A & B & C). rewrite Es. eapply H5; [exact Hk|by rewrite <- C].
Qed.

(** One connection's reader moves: the other connections are not touched. *)
Lemma accept_ok s : srv_ok s -> srv_ok (accept s).
Proof.
  intros [H1 H2 H3 H4 H5]. assert (Hnew : live s !! accepted s = None).
  { apply eq_None_not_Some. intros Hs%H3. lia. }
  constructor; cbn [accept conns live accepted seen srv_inbound].
  - intros p c Hc. destruct (H1 p c Hc) as (k & Hk & ?). exists k. rewrite lookup_insert_ne; [done|congruence].
  - intros c k st inb [[_ <-]|[_ Hk]]%lookup_insert_Some Hr; [done|by eapply H2].
  - intros c [->|[_ Hc%H3]]%lookup_insert_is_Some; lia.
  - exact H4.
  - intros c k inb [[_ <-]|[_ Hk]]%lookup_insert_Some Hr; [done|by eapply H5].
Qed.

Lemma receive_ok c m s s' : receive c m s = Some s' -> srv_ok s -> srv_ok s'.
Proof.
  unfold receive. destruct (live s !! c) as [k|] eqn:Ek; [|done]. rsimpl. destruct (reader k) eqn:Er; [|by destruct m..].
  destruct m as [data|]; [|by intros [= <-]]. destruct (parse_frame data) as [inb|]; [|by intros [= <-]].
  intros [= <-] [H1 H2 H3 H4 H5]. constructor; cbn [set_conn set_live conns live accepted seen srv_inbound].
  - intros p c' Hc. destruct (H1 p c' Hc) as (k' & Hk' & Hr & Hn). destruct (decide (c' = c)) as [->|Hne].
    + rewrite lookup_insert_eq. eexists. split_and!; [done|cbn; congruence|done].
    + exists k'. by rewrite lookup_insert_ne.
  - intros c' k' st i [[_ <-]|[_ Hk]]%lookup_insert_Some Hr; [injection Hr as <- _; by left|by eapply H2].
  - intros c' [->|[_ Hc]]%lookup_insert_is_Some; apply H3; [by exists k|done].
  - exact H4.
  - intros c' k' i [[_ <-]|[_ Hk]]%lookup_insert_Some Hr; [done|by eapply H5].
Qed.

Lemma handle_ok c s s' : handle c s = Some s' -> srv_ok s -> srv_ok s'.
Proof.
  unfold handle. destruct (live s !! c) as [k|] eqn:Ek; [|done]. rsimpl. intros Hs [H1 H2 H3 H4 H5].
  assert (Hlive : forall k' c', is_Some (<[c := k']> (live s) !! c') -> c' < accepted s).
  { intros k' c' [->|[_ Hc]]%lookup_insert_is_Some; apply H3; [by exists k|done]. }
  assert (Hkeep : forall p c' k', conns s !! p = Some c' -> (c' = c -> registered k' = registered k) -> reader k' <> Leaving ->
    exists k2, <[c := k']> (live s) !! c' = Some k2 /\ registered k2 = Some p /\ reader k2 <> Leaving).
  { intros p c' k' Hc Hreg Hn. destruct (H1 p c' Hc) as (k2 & Hk2 & Hr & Hn2). destruct (decide (c' = c)) as [->|Hne].
    - rewrite lookup_insert_eq. exists k'. split_and!; [done|rewrite Hreg by done; congruence|done].
    - exists k2. by rewrite lookup_insert_ne. }
  destruct (reader k) as [|[| | |] inb|] eqn:Er; try done; injection Hs as <-.
  - destruct (registered k) as [p0|] eqn:Ep; constructor; cbn [set_conns set_conn set_live conns live accepted seen srv_inbound].
    + intros p c' Hc. apply Hkeep; [done|by cbn|done].
    + intros c' k' st i [[_ <-]|[_ Hk]]%lookup_insert_Some Hr; [right; cbn; by rewrite Ep|by eapply H2].
    + by apply Hlive.
    + exact H4.
    + intros c' k' i [[_ <-]|[_ Hk]]%lookup_insert_Some Hr; [done|by eapply H5].
    + intros p c' [[<- <-]|[Hne Hc]]%lookup_insert_Some; [rewrite lookup_insert_eq; by eexists|].
      destruct (decide (c' = c)) as [->|]; [|apply Hkeep; [done|done|done]].
      destruct (H1 p c Hc) as (k2 & Hk2 & Hr & _). congruence.
    + intros c' k' st i [[_ <-]|[_ Hk]]%lookup_insert_Some Hr; [by right|by eapply H2].
    + by apply Hlive.
    + exact H4.
    + intros c' k' i [[_ <-]|[_ Hk]]%lookup_insert_Some Hr; [done|by eapply H5].
  - assert (Hreg : is_Some (registered k)) by (by destruct (H2 c k _ _ Ek Er)).
    case_bool_decide; constructor; cbn [set_present set_conn set_live conns live accepted seen srv_inbound];
      try (intros p c' Hc; by apply Hkeep); try (by apply Hlive); try exact H4.
    1,3: intros c' k' st i [[_ <-]|[_ Hk]]%lookup_insert_Some Hr; [by right|by eapply H2].
    all: intros c' k' i [[_ <-]|[_ Hk]]%lookup_insert_Some Hr; [done|by eapply H5].
  - constructor; cbn [set_seen set_conn set_live conns live accepted seen srv_inbound].
    + intros p c' Hc. by apply Hkeep.
    + intros c' k' st i [[_ <-]|[_ Hk]]%lookup_insert_Some Hr; [right; by destruct (H2 c k _ _ Ek Er)|by eapply H2].
    + by apply Hlive.
    + intros i Hi%H4. set_solver.
    + intros c' k' i [[_ <-]|[_ Hk]]%lookup_insert_Some Hr; [injection Hr as <-; set_solver|].
      pose proof (H5 _ _ _ Hk Hr). set_solver.
  - constructor; cbn [set_inbound set_conn set_live conns live accepted seen srv_inbound].
    + intros p c' Hc. by apply Hkeep.
    + intros c' k' st i [[_ <-]|[_ Hk]]%lookup_insert_Some Hr; [done|by eapply H2].
    + by apply Hlive.
    + intros i [Hi|Hi]%elem_of_app; [by apply H4|]. apply list_elem_of_singleton in Hi as ->. by eapply H5.
    + intros c' k' i [[_ <-]|[_ Hk]]%lookup_insert_Some Hr; [done|by eapply H5].
Qed.

Lemma hang_up_ok c s s' : hang_up c s = Some s' -> srv_ok s -> srv_ok s'.
Proof.
  unfold hang_up. destruct (live s !! c) as [k|] eqn:Ek; [|done]. rsimpl. destruct (reader k) eqn:Er; try done.
  intros Hs [H1 H2 H3 H4 H5].
  assert (Hrest : (forall c' k' st inb, <[c := set_reader k Leaving]> (live s) !! c' = Some k' -> reader k' = Handling st inb ->
      live s !! c' = Some k') /\ forall c', is_Some (<[c := set_reader k Leaving]> (live s) !! c') -> c' < accepted s).
  { split; [intros c' k' st inb [[_ <-]|[_ Hk]]%lookup_insert_Some Hr; done|].
    intros c' [->|[_ Hc]]%lookup_insert_is_Some; apply H3; [by exists k|done]. }
  destruct Hrest as [Hback Hlive].
  assert (Hother : forall p c', conns s !! p = Some c' -> c' <> c ->
    exists k2, <[c := set_reader k Leaving]> (live s) !! c' = Some k2 /\ registered k2 = Some p /\ reader k2 <> Leaving).
  { intros p c' Hc Hne. destruct (H1 p c' Hc) as (k2 & Hk2 & Hr). exists k2. by rewrite lookup_insert_ne. }
  assert (Hok : forall m, (forall p c', m !! p = Some c' -> conns s !! p = Some c' /\ c' <> c) ->
    srv_ok (set_conns (set_conn s c (set_reader k Leaving)) m)).
  { intros m Hm. constructor; cbn [set_conns set_conn set_live conns live accepted seen srv_inbound].
    - intros p c' [Hc Hne]%Hm. by apply Hother.
    - intros c' k' st inb Hk Hr. eapply H2; [by eapply Hback|done].
    - exact Hlive.
    - exact H4.
    - intros c' k' inb Hk Hr. eapply H5; [by eapply Hback|done]. }
  assert (Hmine : forall p, conns s !! p = Some c -> registered k = Some p).
  { intros p Hc. destruct (H1 p c Hc) as (k2 & Hk2 & Hr & _). congruence. }
  assert (Hs2 : set_conn s c (set_reader k Leaving) = set_conns (set_conn s c (set_reader k Leaving)) (conns s)) by done.
  destruct (registered k) as [peer|] eqn:Ep; [case_bool_decide as Hb|]; injection Hs as <-.
  - apply Hok. intros p c' [Hne Hc]%lookup_delete_Some. split; [done|]. intros ->. pose proof (Hmine p Hc). congruence.
  - rewrite Hs2. apply Hok. intros p c' Hc. split; [done|]. intros ->. pose proof (Hmine p Hc). apply Hb. cbn. congruence.
  - rewrite Hs2. apply Hok. intros p c' Hc. split; [done|]. intros ->. pose proof (Hmine p Hc). congruence.
Qed.

Lemma leave_ok c s s' : leave c s = Some s' -> srv_ok s -> srv_ok s'.
Proof.
  unfold leave. destruct (live s !! c) as [k|] eqn:Ek; [|done]. rsimpl. destruct (reader k) eqn:Er; try done.
  intros [= <-] [H1 H2 H3 H4 H5]. constructor; cbn [set_present set_left_over set_live conns live accepted seen srv_inbound].
  - intros p c' Hc. destruct (H1 p c' Hc) as (k2 & Hk2 & Hr & Hn). exists k2.
    rewrite lookup_delete_ne; [done|]. intros <-. assert (k2 = k) as -> by congruence. done.
  - intros c' k' st inb [_ Hk]%lookup_delete_Some. by eapply H2.
  - intros c' [k' [_ Hk]%lookup_delete_Some]. apply H3. by exists k'.
  - exact H4.
  - intros c' k' inb [_ Hk]%lookup_delete_Some. by eapply H5.
Qed.

Lemma happens_ok e s s' : happens e s = Some s' -> srv_ok s -> srv_ok s'.
Proof.
  destruct e as [|c m|c|c|c|c sent|c sent|room out|]; cbn [happens]; intros He Hs.
  - injection He as <-. by apply accept_ok.
  - by eapply receive_ok.
  - by eapply handle_ok.
  - by eapply hang_up_ok.
  - by eapply leave_ok.
  - eapply queues_ok; [by eapply write_queues|done].
  - eapply queues_ok; [by eapply write_left_queues|done].
  - injection He as <-. eapply queues_ok; [apply dispatch_queues|done].
  - injection He as <-. eapply queues_ok; [apply drain_queues|done].
Qed.

Lemma bind_ok id : srv_ok (WsServerTransport_bind id).
Proof. constructor; cbn; try done; [intros c [k Hk]; done|intros inb Hin; by apply elem_of_nil in Hin]. Qed.

Lemma reaches_ok K s es s' : reaches K s es s' -> srv_ok s -> srv_ok s'.
Proof. induction 1 as [|es s1 e s2 _ IH He _]; [done|]. intros Hs. eapply happens_ok; [exact He|by apply IH]. Qed.
Lemma happens_id e s s' : happens e s = Some s' -> srv_id s' = srv_id s.
Proof.
  destruct e as [|c m|c|c|c|c sent|c sent|room out|]; cbn [happens].
  6: by intros (_ & _ & _ & _ & ? & _)%write_queues. 6: by intros (_ & _ & _ & _ & ? & _)%write_left_queues.
  6: intros [= <-]; apply dispatch_queues. 1, 6: by intros [= <-].
  all: unfold receive, handle, hang_up, leave; destruct (live s !! c) as [k|]; rsimpl; try done.
  - destruct (reader k), m; try done; try (by intros [= <-]). destruct (parse_frame data); by intros [= <-].
  - destruct (reader k) as [|[] inb|]; try done; try (by intros [= <-]); [destruct (registered k)|case_bool_decide]; by intros [= <-].
  - destruct (reader k); try done. destruct (registered k); [case_bool_decide|]; by intros [= <-].
  - destruct (reader k); try done. by intros [= <-].
Qed.
Lemma reaches_id K s es s' : reaches K s es s' -> srv_id s' = srv_id s.
Proof. induction 1 as [|es s1 e s2 _ IH He _]; [done|]. rewrite <- IH. by eapply happens_id. Qed.

(** ** Routing *)

Definition enqueued (frame : bytes) k : Conn :=
  if writing k then mkConn (registered k) (conn_rooms k) (reader k) (queue k ++ [frame]) true else k.

Lemma enqueue_lookup frame (m : gmap N Conn) c c' :
  enqueue frame m c !! c' = if decide (c' = c) then enqueued frame <$> m !! c else m !! c'.
Proof.
  unfold enqueue, enqueued. destruct (m !! c) as [k|] eqn:Ek.
  - destruct (decide (c' = c)) as [->|Hne]; destruct (writing k) eqn:Ew; cbn; rewrite ?Ew;
      [by rewrite lookup_insert_eq|done|by rewrite lookup_insert_ne|done].
  - destruct (decide (c' = c)) as [->|Hne]; done.
Qed.
Lemma enqueue_all_lookup frame cs (m : gmap N Conn) c' :
  NoDup cs -> foldl (enqueue frame) m cs !! c' = if decide (c' ∈ cs) then enqueued frame <$> m !! c' else m !! c'.
Proof.
  intros Hn. revert m. induction Hn as [|c cs Hc _ IH]; intros m; cbn [foldl]; [done|]. rewrite IH, !enqueue_lookup.
  destruct (decide (c' = c)) as [->|Hne].
  - rewrite (decide_False (P:=c ∈ cs)), (decide_True (P:=c ∈ c :: cs)) by (done || by left). done.
  - destruct (decide (c' ∈ cs)); [rewrite decide_True by (by right)|rewrite decide_False by (by rewrite elem_of_cons; intros [?|?])]; done.
Qed.

Lemma conns_nodup s : srv_ok s -> NoDup (bmap_list (conns s)).*2.
Proof.
  intros [H1 _ _ _ _]. apply NoDup_fmap_2_strong; [|apply (NoDup_fmap_1 fst), bmap_list_nodup].
  intros [p c] [p' c'] Hp%bmap_list_elem Hp'%bmap_list_elem E. cbn in E. subst c'.
  destruct (H1 p c Hp) as (k & Hk & Hr & _), (H1 p' c Hp') as (k' & Hk' & Hr' & _). congruence.
Qed.

(** The connections a message goes out on. *)
Definition target s (f : Fanout) (c : N) : Prop :=
  match f with Peer p => conns s !! p = Some c | Gossip | Clients => exists p, conns s !! p = Some c end.

Lemma everyone s c : c ∈ (bmap_list (conns s)).*2 <-> exists p, conns s !! p = Some c.
Proof.
  rewrite list_elem_of_fmap. split; [intros ([p c'] & -> & Hp%bmap_list_elem); by exists p|].
  intros [p Hp]. exists (p, c). by rewrite bmap_list_elem.
Qed.

Lemma dispatch_live s room out c k :
  srv_ok s -> live s !! c = Some k ->
  (target s (to out) c -> live (srv_dispatch s room out) !! c = Some (enqueued (encode_frame room (srv_id s) (msg out)) k))
  /\ (~ target s (to out) c -> live (srv_dispatch s room out) !! c = Some k).
Proof.
  intros Hs Hk. unfold srv_dispatch, target. set (frame := encode_frame _ _ _).
  assert (Hall : forall P : Prop, (P <-> exists p, conns s !! p = Some c) ->
    (P -> foldl (enqueue frame) (live s) (bmap_list (conns s)).*2 !! c = Some (enqueued frame k))
    /\ (~ P -> foldl (enqueue frame) (live s) (bmap_list (conns s)).*2 !! c = Some k)).
  { intros P HP. rewrite enqueue_all_lookup by (by apply conns_nodup). rewrite Hk.
    split; intros Ht; [rewrite decide_True by (by apply everyone, HP)|rewrite decide_False by (by rewrite everyone, <- HP)]; done. }
  destruct (to out) as [|p|]; [by apply Hall| |by apply Hall].
  destruct (conns s !! p) as [c0|]; cbn [set_live live]; [|by split].
  rewrite enqueue_lookup. split; intros Ht.
  - injection Ht as ->. by rewrite decide_True, Hk.
  - rewrite decide_False by congruence. done.
Qed.

(** ** Presence *)

(** The peer a connection is, or is about to register. *)
Definition claim k : option PeerId :=
  match registered k with
  | Some p => Some p
  | None => match reader k with Handling _ inb => Some (in_from inb) | _ => None end
  end.

(** Clients stamp one id on what they send, and no id that another open connection
    has. *)
Definition honest s (e : event) : Prop :=
  match e with
  | Receives c (Binary data) =>
      forall k inb, live s !! c = Some k -> parse_frame data = Some inb ->
        (forall p, registered k = Some p -> in_from inb = p)
        /\ (registered k = None -> forall c' k', live s !! c' = Some k' -> claim k' <> Some (in_from inb))
  | _ => True
  end.

(** The rooms hold exactly the peers of the connections that framed to them. *)
Definition counts (m : gmap N Conn) (P : gmap RoomId (gset PeerId)) : Prop :=
  forall room p, p ∈ default ∅ (P !! room)
    <-> exists c k, m !! c = Some k /\ registered k = Some p /\ room ∈ conn_rooms k.

Record honest_ok s : Prop := mkHonestOk {
  ho_claim : forall c k st inb, live s !! c = Some k -> reader k = Handling st inb -> claim k = Some (in_from inb);
  ho_rooms : forall c k, live s !! c = Some k -> registered k = None -> conn_rooms k = ∅;
  ho_uniq : forall c1 c2 k1 k2 p, live s !! c1 = Some k1 -> live s !! c2 = Some k2 ->
    claim k1 = Some p -> claim k2 = Some p -> c1 = c2;
  ho_counts : counts (live s) (present s);
  ho_filled : forall room ps, present s !! room = Some ps -> ps <> ∅ }.

(** A connection that keeps its rooms and its peer, if it had one. *)
Lemma counts_keep (m : gmap N Conn) P c k k' :
  m !! c = Some k -> conn_rooms k' = conn_rooms k -> (registered k' = registered k \/ conn_rooms k = ∅) ->
  counts m P -> counts (<[c := k']> m) P.
Proof.
  intros Hk Hr Hreg Hc room p. rewrite (Hc room p). split; intros (c' & k2 & H2 & Hp & Hin).
  - destruct (decide (c' = c)) as [->|Hne]; [|exists c', k2; by rewrite lookup_insert_ne].
    assert (k2 = k) as -> by congruence. exists c, k'. rewrite lookup_insert_eq, Hr.
    destruct Hreg as [->|He]; [done|]. rewrite He in Hin. set_solver.
  - apply lookup_insert_Some in H2 as [[<- <-]|[Hne H2]]; [|by exists c', k2].
    exists c, k. rewrite Hr in Hin. destruct Hreg as [He|He]; [by rewrite <- He|]. rewrite He in Hin. set_solver.
Qed.

(** The step leaves the rooms alone. *)
Lemma honest_keep s s' c k k' :
  live s !! c = Some k -> live s' = <[c := k']> (live s) -> present s' = present s ->
  conn_rooms k' = conn_rooms k -> (registered k' = registered k \/ registered k = None) ->
  (registered k' = None -> registered k = None) ->
  (forall st inb, reader k' = Handling st inb -> claim k' = Some (in_from inb)) ->
  (forall p, claim k' = Some p -> claim k = Some p \/ forall c2 k2, live s !! c2 = Some k2 -> claim k2 <> Some p) ->
  honest_ok s -> honest_ok s'.
Proof.
  intros Hk El Ep Hr Hreg Hnone Hcl Huq [H1 H2 H3 H4 H5]. constructor; rewrite ?El, ?Ep.
  - intros c' k2 st inb [[_ <-]|[_ Hk2]]%lookup_insert_Some; [apply Hcl|by eapply H1].
  - intros c' k2 [[_ <-]|[_ Hk2]]%lookup_insert_Some Hn; [rewrite Hr; by eapply H2, Hnone|by eapply H2].
  - intros c1 c2 k1 k2 p [[<- <-]|[Hn1 Hk1]]%lookup_insert_Some [[<- <-]|[Hn2 Hk2]]%lookup_insert_Some C1 C2; [done|..].
    + destruct (Huq p C1) as [Hc|Hc]; [by eapply H3|]. by destruct (Hc c2 k2 Hk2).
    + destruct (Huq p C2) as [Hc|Hc]; [by eapply H3|]. by destruct (Hc c1 k1 Hk1).
    + by eapply H3.
  - apply (counts_keep _ _ c k); [done..| |done]. destruct Hreg as [?|Hn]; [by left|right]. by eapply H2.
  - exact H5.
Qed.

Lemma same_claim k k' : same_reader k k' -> claim k' = claim k.
Proof. intros (A & _ & C). unfold claim. by rewrite A, C. Qed.

Lemma honest_queues s s' : queues_only s s' -> honest_ok s -> honest_ok s'.
Proof.
  intros Hq [H1 H2 H3 H4 H5]. pose proof Hq as (_ & _ & Ep & _). constructor; rewrite ?Ep; [..|exact H5].
  - intros c k' st inb Hk' Hr. destruct (queues_back s s' c k' Hq Hk') as (k & Hk & Hs). rewrite (same_claim k k' Hs).
    destruct Hs as (_ & _ & C). rewrite C in Hr. by eapply H1.
  - intros c k' Hk' Hn. destruct (queues_back s s' c k' Hq Hk') as (k & Hk & A & B & _). rewrite B. rewrite A in Hn. by eapply H2.
  - intros c1 c2 k1 k2 p Hk1 Hk2 C1 C2.
    destruct (queues_back s s' c1 k1 Hq Hk1) as (j1 & Hj1 & Hs1). destruct (queues_back s s' c2 k2 Hq Hk2) as (j2 & Hj2 & Hs2).
    rewrite (same_claim j1 k1 Hs1) in C1. rewrite (same_claim j2 k2 Hs2) in C2. by eapply H3.
  - intros room p. rewrite (H4 room p). split; intros (c & k & Hk & Hr & Hin).
    + destruct (queues_forth s s' c k Hq Hk) as (k' & Hk' & A & B & _). exists c, k'. by rewrite A, B.
    + destruct (queues_back s s' c k Hq Hk) as (k' & Hk' & A & B & _). exists c, k'. by rewrite <- A, <- B.
Qed.

Lemma honest_accept s : srv_ok s -> honest_ok s -> honest_ok (accept s).
Proof.
  intros Hs [H1 H2 H3 H4 H5]. assert (Hnew : live s !! accepted s = None).
  { apply eq_None_not_Some. intros Hk%(so_fresh s Hs). lia. }
  constructor; cbn [accept live present]; [..|exact H5].
  - intros c k st inb [[_ <-]|[_ Hk]]%lookup_insert_Some Hr; [done|by eapply H1].
  - intros c k [[_ <-]|[_ Hk]]%lookup_insert_Some Hn; [done|by eapply H2].
  - intros c1 c2 k1 k2 p [[_ <-]|[_ Hk1]]%lookup_insert_Some [[_ <-]|[_ Hk2]]%lookup_insert_Some C1 C2; [done..|by eapply H3].
  - intros room p. rewrite (H4 room p). split; intros (c & k & Hk & Hr & Hin).
    + exists c, k. rewrite lookup_insert_ne; [done|congruence].
    + apply lookup_insert_Some in Hk as [[<- <-]|[Hne Hk]]; [done|by exists c, k].
Qed.

Lemma honest_receive c m s s' : receive c m s = Some s' -> honest s (Receives c m) -> honest_ok s -> honest_ok s'.
Proof.
  unfold receive. destruct (live s !! c) as [k|] eqn:Ek; [|done]. rsimpl. destruct (reader k) eqn:Er; [|by destruct m..].
  destruct m as [data|]; [|by intros [= <-]]. destruct (parse_frame data) as [inb|] eqn:Ep; [|by intros [= <-]].
  intros [= <-] Hh Hok. destruct (Hh k inb Ek Ep) as [Hsame Hfree].
  eapply (honest_keep s _ c k); [done|reflexivity|done|done|by left|done|..|done].
  - intros st i [= <- <-]. unfold claim. cbn. destruct (registered k) as [p|]; [|done]. by rewrite (Hsame p).
  - intros p. unfold claim. cbn. destruct (registered k) as [p0|]; [by left|]. intros [= <-]. right. by apply Hfree.
Qed.

Lemma counts_frame (m : gmap N Conn) P c k k' room p :
  counts m P -> m !! c = Some k -> registered k = Some p -> registered k' = Some p -> conn_rooms k' = {[ room ]} ∪ conn_rooms k ->
  counts (<[c := k']> m) (<[room := {[ p ]} ∪ default ∅ (P !! room)]> P).
Proof.
  intros Hc Hk Hp Hp' Hr room' q. destruct (decide (room' = room)) as [->|Hne].
  - rewrite lookup_insert_eq. cbn [from_option]. unfold id. rewrite elem_of_union, elem_of_singleton, (Hc room q). split.
    + intros [->|(c2 & k2 & H2 & Hq & Hin)]; [exists c, k'; rewrite lookup_insert_eq, Hr; set_solver|].
      destruct (decide (c2 = c)) as [->|Hn]; [|exists c2, k2; by rewrite lookup_insert_ne].
      exists c, k'. rewrite lookup_insert_eq, Hr. assert (k2 = k) as -> by congruence. split_and!; [done|congruence|set_solver].
    + intros (c2 & k2 & [[<- <-]|[Hn H2]]%lookup_insert_Some & Hq & Hin); [left; congruence|right; by exists c2, k2].
  - rewrite lookup_insert_ne by done. rewrite (Hc room' q). split; intros (c2 & k2 & H2 & Hq & Hin).
    + destruct (decide (c2 = c)) as [->|Hn]; [|exists c2, k2; by rewrite lookup_insert_ne].
      exists c, k'. rewrite lookup_insert_eq, Hr. assert (k2 = k) as -> by congruence. split_and!; [done|congruence|set_solver].
    + apply lookup_insert_Some in H2 as [[<- <-]|[Hn H2]]; [|by exists c2, k2].
      exists c, k. split_and!; [done|congruence|]. rewrite Hr in Hin. set_solver.
Qed.

Lemma honest_handle c s s' : handle c s = Some s' -> srv_ok s -> honest_ok s -> honest_ok s'.
Proof.
  unfold handle. destruct (live s !! c) as [k|] eqn:Ek; [|done]. rsimpl. intros Hs Hsrv Hok. pose proof Hok as [H1 H2 H3 H4 H5].
  destruct (reader k) as [|[| | |] inb|] eqn:Er; try done; injection Hs as <-; pose proof (H1 c k _ _ Ek Er) as Hcl.
  - destruct (registered k) as [p0|] eqn:Ep.
    + eapply (honest_keep s _ c k); [done|reflexivity|done|done|by left|by cbn; rewrite Ep|..|done];
        [intros st i [= <- <-]|intros p]; unfold claim in *; cbn; rewrite Ep in *; [done|by left].
    + eapply (honest_keep s _ c k); [done|reflexivity|done|done|by right|done|..|done]; [by intros st i [= <- <-]|].
      intros p [= <-]. by left.
  - assert (Hreg : registered k = Some (in_from inb)).
    { unfold claim in Hcl. destruct (so_reg s Hsrv c k _ _ Ek Er) as [?|[p Hp]]; [done|]. rewrite Hp in *. congruence. }
    case_bool_decide as Hb.
    + eapply (honest_keep s _ c k); [done|reflexivity|done|done|by left|done|..|done];
        [intros st i [= <- <-]|intros p]; unfold claim in *; cbn; rewrite Hreg in *; [done|by left].
    + constructor; cbn [set_present set_conn set_live live present].
      * intros c' k' st i [[_ <-]|[_ Hk]]%lookup_insert_Some Hr; [|by eapply H1]. injection Hr as <- <-. unfold claim. cbn. by rewrite Hreg.
      * intros c' k' [[_ <-]|[_ Hk]]%lookup_insert_Some Hn; [cbn in Hn; congruence|by eapply H2].
      * assert (Hc : claim (mkConn (registered k) ({[in_room inb]} ∪ conn_rooms k) (Handling Recording inb) (queue k) (writing k)) = claim k)
          by (unfold claim; cbn; by rewrite Hreg).
        intros c1 c2 k1 k2 p [[<- <-]|[_ Hk1]]%lookup_insert_Some [[<- <-]|[_ Hk2]]%lookup_insert_Some C1 C2;
          rewrite ?Hc in *; [done|by eapply H3..].
      * by eapply counts_frame.
      * intros room ps [[_ <-]|[_ Hps]]%lookup_insert_Some; [set_solver|by eapply H5].
  - eapply (honest_keep s _ c k); [done|reflexivity|done|done|by left|done|..|done];
      [intros st i [= <- <-]|intros p]; unfold claim in *; cbn; rewrite Er in Hcl; destruct (registered k); try done; [by left|].
    rewrite Er. by left.
  - eapply (honest_keep s _ c k); [done|reflexivity|done|done|by left|done|..|done]; [done|].
    intros p. unfold claim in *. cbn. destruct (registered k); [by left|done].
Qed.

Lemma honest_hang_up c s s' : hang_up c s = Some s' -> honest_ok s -> honest_ok s'.
Proof.
  unfold hang_up. destruct (live s !! c) as [k|] eqn:Ek; [|done]. rsimpl. destruct (reader k) eqn:Er; try done.
  intros Hs Hok. assert (live s' = <[c := set_reader k Leaving]> (live s) /\ present s' = present s) as [El Ep].
  { destruct (registered k); [case_bool_decide|]; by injection Hs as <-. }
  eapply (honest_keep s _ c k); [done|exact El|exact Ep|done|by left|done|done| |done].
  intros p. unfold claim. cbn. destruct (registered k); [by left|done].
Qed.

Lemma dropped (who : PeerId) (P : gmap RoomId (gset PeerId)) (r room : RoomId) (q : PeerId) :
  q ∈ default ∅ (drop_peer who P r !! room) <-> q ∈ default ∅ (P !! room) /\ ~ (room = r /\ q = who).
Proof.
  unfold drop_peer. destruct (decide (room = r)) as [->|Hne].
  - destruct (P !! r) as [ps|] eqn:Er; [|rewrite Er; cbn; set_solver].
    case_bool_decide as Hb; [rewrite lookup_delete_eq|rewrite lookup_insert_eq]; cbn; unfold id; set_solver.
  - destruct (P !! r) as [ps|]; [case_bool_decide; [rewrite lookup_delete_ne by done|rewrite lookup_insert_ne by done]|]; naive_solver.
Qed.
Lemma dropped_all (who : PeerId) (rs : list RoomId) (P : gmap RoomId (gset PeerId)) (room : RoomId) (q : PeerId) :
  q ∈ default ∅ (foldl (drop_peer who) P rs !! room) <-> q ∈ default ∅ (P !! room) /\ ~ (room ∈ rs /\ q = who).
Proof.
  revert P. induction rs as [|r rs IH]; intros P; cbn [foldl]; [set_solver|]. rewrite IH, dropped. set_solver.
Qed.
Lemma dropped_filled (who : PeerId) (rs : list RoomId) (P : gmap RoomId (gset PeerId)) :
  (forall room ps, P !! room = Some ps -> ps <> ∅) ->
  forall room ps, foldl (drop_peer who) P rs !! room = Some ps -> ps <> ∅.
Proof.
  revert P. induction rs as [|r rs IH]; intros P HP; cbn [foldl]; [done|]. apply IH. unfold drop_peer.
  destruct (P !! r) as [ps0|]; [|done]. case_bool_decide as Hb; intros room ps.
  - intros [_ Hps]%lookup_delete_Some. by eapply HP.
  - intros [[_ <-]|[_ Hps]]%lookup_insert_Some; [done|by eapply HP].
Qed.

Lemma honest_leave c s s' : leave c s = Some s' -> honest_ok s -> honest_ok s'.
Proof.
  unfold leave. destruct (live s !! c) as [k|] eqn:Ek; [|done]. rsimpl. destruct (reader k) eqn:Er; try done.
  intros [= <-] [H1 H2 H3 H4 H5]. constructor; cbn [set_present set_left_over set_live live present].
  - intros c' k' st inb [_ Hk]%lookup_delete_Some. by eapply H1.
  - intros c' k' [_ Hk]%lookup_delete_Some. by eapply H2.
  - intros c1 c2 k1 k2 p [_ Hk1]%lookup_delete_Some [_ Hk2]%lookup_delete_Some. by eapply H3.
  - intros room q. destruct (registered k) as [p|] eqn:Ep.
    + rewrite dropped_all, (H4 room q), bset_list_elem. split.
      * intros [(c' & k' & Hk' & Hq & Hin) Hn]. exists c', k'. rewrite lookup_delete_ne; [done|].
        intros <-. assert (k' = k) as -> by congruence. apply Hn. split; [done|congruence].
      * intros (c' & k' & [Hne Hk']%lookup_delete_Some & Hq & Hin). split; [by exists c', k'|].
        intros [_ ->]. apply Hne. eapply (H3 c c' k k' p); [done..| |]; unfold claim; [by rewrite Ep|by rewrite Hq].
    + rewrite (H4 room q). split; intros (c' & k' & Hk' & Hq & Hin).
      * exists c', k'. rewrite lookup_delete_ne; [done|]. intros <-. congruence.
      * apply lookup_delete_Some in Hk' as [_ Hk']. by exists c', k'.
  - destruct (registered k); [by apply dropped_filled|exact H5].
Qed.

Lemma honest_happens e s s' : happens e s = Some s' -> honest s e -> srv_ok s -> honest_ok s -> honest_ok s'.
Proof.
  destruct e as [|c m|c|c|c|c sent|c sent|room out|]; cbn [happens]; intros He Hh Hs Hok.
  - injection He as <-. by apply honest_accept.
  - by eapply honest_receive.
  - by eapply honest_handle.
  - by eapply honest_hang_up.
  - by eapply honest_leave.
  - eapply honest_queues; [by eapply write_queues|done].
  - eapply honest_queues; [by eapply write_left_queues|done].
  - injection He as <-. eapply honest_queues; [apply dispatch_queues|done].
  - injection He as <-. eapply honest_queues; [apply drain_queues|done].
Qed.

Lemma honest_reaches id es s : reaches honest (WsServerTransport_bind id) es s -> srv_ok s /\ honest_ok s.
Proof.
  intros Hr. remember (WsServerTransport_bind id) as s0 eqn:E0. induction Hr as [|es s1 e s2 _ IH He Hh]; subst s0.
  - split; [apply bind_ok|]. constructor; cbn; try done. intros room p. rewrite lookup_empty. split; [set_solver|].
    intros (c & k & Hk & _). done.
  - destruct IH as [Hs Hok]. split; [by eapply happens_ok|by eapply honest_happens].
Qed.

(** The open connections whose client has framed to the room. *)
Definition clients_in s (room : RoomId) : gmap N Conn := filter (λ ck : N * Conn, room ∈ conn_rooms ck.2) (live s).

Lemma present_size s room : honest_ok s -> size (default ∅ (present s !! room)) = size (clients_in s room).
Proof.
  intros [_ H2 H3 H4 _]. set (l := map_to_list (clients_in s room)).
  assert (Hl : forall c k, (c, k) ∈ l <-> live s !! c = Some k /\ room ∈ conn_rooms k).
  { intros c k. unfold l, clients_in. by rewrite elem_of_map_to_list, map_lookup_filter_Some. }
  assert (Hreg : forall c k, (c, k) ∈ l -> is_Some (registered k)).
  { intros c k [Hk Hin]%Hl. destruct (registered k) eqn:Ep; [done|]. rewrite (H2 c k Hk Ep) in Hin. set_solver. }
  set (f := λ ck : N * Conn, default [] (registered ck.2)).
  assert (E : default ∅ (present s !! room) = list_to_set (f <$> l)).
  { apply set_eq. intros p. rewrite (H4 room p), elem_of_list_to_set, list_elem_of_fmap. split.
    - intros (c & k & Hk & Hp & Hin). exists (c, k). split; [unfold f; cbn; by rewrite Hp|by apply Hl].
    - intros ([c k] & -> & Hin). exists c, k. destruct (Hreg c k Hin) as [p Hp]. apply Hl in Hin as [Hk Hin].
      unfold f. cbn. by rewrite Hp. }
  rewrite E, size_list_to_set, length_fmap; [apply length_map_to_list|]. apply NoDup_fmap_2_strong; [|apply NoDup_map_to_list].
  intros [c1 k1] [c2 k2] Hi1 Hi2. destruct (Hreg c1 k1 Hi1) as [p1 Hp1], (Hreg c2 k2 Hi2) as [p2 Hp2].
  apply Hl in Hi1 as [Hk1 _], Hi2 as [Hk2 _]. unfold f. cbn. rewrite Hp1, Hp2. cbn. unfold id. intros ->.
  assert (c1 = c2) as -> by (eapply (H3 c1 c2 k1 k2 p2); [done..| |]; unfold claim; [by rewrite Hp1|by rewrite Hp2]). congruence.
Qed.

(** ** Who is known *)

(** A run as a function of its events. *)
Definition play (es : list event) s : option WsServerTransport := foldl (λ o e, s ← o; happens e s) (Some s) es.
Lemma play_reaches es s s' : play es s = Some s' -> reaches any_event s es s'.
Proof.
  revert s'. induction es as [|e es IH] using rev_ind; intros s'; unfold play; [intros [= <-]; constructor|].
  rewrite foldl_app. cbn [foldl]. intros (s1 & He & Hs)%bind_Some. by eapply reaches_snoc; [apply IH| |].
Qed.

Lemma reaches_play K es s s' : reaches K s es s' -> play es s = Some s'.
Proof.
  induction 1 as [|es s1 e s2 _ IH He _]; [done|]. unfold play in *. rewrite foldl_app, IH. exact He.
Qed.
Lemma play_cons e es s : play (e :: es) s = s1 ← happens e s; play es s1.
Proof.
  unfold play. cbn [foldl]. rsimpl. destruct (happens e s) as [s1|]; [done|]. rsimpl.
  induction es as [|e' es IH]; [done|exact IH].
Qed.

(** The first frame of a connection registers its sender. *)
Definition registration s (e : event) : option (PeerId * N) :=
  match e with
  | Handles c =>
      k ← live s !! c;
      match registered k, reader k with
      | None, Handling Registering inb => Some (in_from inb, c)
      | _, _ => None
      end
  | _ => None
  end.
Fixpoint registrations (es : list event) s : list (PeerId * N) :=
  match es with
  | [] => []
  | e :: es' =>
      option_list (registration s e) ++ match happens e s with Some s1 => registrations es' s1 | None => [] end
  end.
(** The connection that registered the peer last. *)
Definition latest (p : PeerId) (l : list (PeerId * N)) : option N := last (filter (λ x : PeerId * N, x.1 = p) l).*2.

Lemma registrations_snoc es e s s1 s2 :
  play es s = Some s1 -> happens e s1 = Some s2 ->
  registrations (es ++ [e]) s = registrations es s ++ option_list (registration s1 e).
Proof.
  revert s. induction es as [|e0 es IH]; intros s.
  - intros [= ->] He. cbn. by rewrite He, app_nil_r.
  - rewrite play_cons. intros (s0 & E0 & Ep)%bind_Some He. cbn [app registrations]. by rewrite E0, (IH s0 Ep He), app_assoc.
Qed.
Lemma latest_snoc p q c l : latest p (l ++ [(q, c)]) = if decide (q = p) then Some c else latest p l.
Proof.
  unfold latest. rewrite filter_app, filter_cons. cbn [fst]. destruct (decide (q = p)) as [->|Hne].
  - rewrite filter_nil, fmap_app. apply last_snoc.
  - by rewrite filter_nil, app_nil_r.
Qed.

(** The connection is open and its client is the peer. *)
Definition open_as s (c : N) (p : PeerId) : Prop :=
  exists k, live s !! c = Some k /\ registered k = Some p /\ reader k <> Leaving.

(** What a step does to the registrations, the known peers and the open connections:
    nothing, one more, or one less. *)
Inductive moves s (e : event) s' : Prop :=
| moves_none :
    registration s e = None -> conns s' = conns s -> (forall c p, open_as s' c p <-> open_as s c p) -> moves s e s'
| moves_in p c :
    registration s e = Some (p, c) -> conns s' = <[p := c]> (conns s) ->
    (forall c' p', open_as s' c' p' <-> open_as s c' p' \/ c' = c /\ p' = p) -> (forall p', ~ open_as s c p') -> moves s e s'
| moves_out c :
    registration s e = None -> (forall p c', conns s' !! p = Some c' <-> conns s !! p = Some c' /\ c' <> c) ->
    (forall c' p, open_as s' c' p <-> open_as s c' p /\ c' <> c) -> moves s e s'.

(** The reader of one connection moved. *)
Lemma open_moved s s' c k k' :
  live s !! c = Some k -> live s' = <[c := k']> (live s) -> registered k' = registered k ->
  reader k <> Leaving -> reader k' <> Leaving -> forall c' p, open_as s' c' p <-> open_as s c' p.
Proof.
  intros Hk El Er H1 H2 c' p. unfold open_as. rewrite El. destruct (decide (c' = c)) as [->|Hne].
  - rewrite lookup_insert_eq, Hk. split; intros (k0 & [= <-] & Hp & _); eexists; (split; [done|]); split; congruence.
  - by rewrite lookup_insert_ne.
Qed.
Lemma open_queues s s' : queues_only s s' -> forall c p, open_as s' c p <-> open_as s c p.
Proof.
  intros Hq c p. split; intros (k & Hk & Hp & Hr).
  - destruct (queues_back s s' c k Hq Hk) as (k0 & Hk0 & A & _ & C). exists k0. by rewrite <- A, <- C.
  - destruct (queues_forth s s' c k Hq Hk) as (k0 & Hk0 & A & _ & C). exists k0. by rewrite A, C.
Qed.

Lemma handle_moves c s s' : handle c s = Some s' -> moves s (Handles c) s'.
Proof.
  unfold handle. destruct (live s !! c) as [k|] eqn:Ek; [|done]. rsimpl.
  destruct (reader k) as [|st inb|] eqn:Er; [done| |done]. intros Hs.
  assert (Hreg : registration s (Handles c) = match registered k, st with None, Registering => Some (in_from inb, c) | _, _ => None end).
  { cbn. rewrite Ek. rsimpl. rewrite Er. by destruct (registered k), st. }
  destruct st; [|apply moves_none; [by rewrite Hreg; destruct (registered k)| |]..].
  - destruct (registered k) as [p0|] eqn:Ep; injection Hs as <-.
    + apply moves_none; [exact Hreg|done|]. eapply open_moved; [exact Ek|reflexivity|done|by rewrite Er|done].
    + apply (moves_in s _ _ (in_from inb) c); [exact Hreg|done| |].
      * intros c' p'. unfold open_as. cbn. destruct (decide (c' = c)) as [->|Hne].
        -- rewrite lookup_insert_eq, Ek. split.
           ++ intros (k0 & [= <-] & [= <-] & _). by right.
           ++ intros [(k0 & [= <-] & Hp & _)|[_ ->]]; [congruence|]. by eexists.
        -- rewrite lookup_insert_ne by done. naive_solver.
      * intros p' (k0 & Hk0 & Hp & _). congruence.
  - case_bool_decide; by injection Hs as <-.
  - case_bool_decide; injection Hs as <-; (eapply open_moved; [exact Ek|reflexivity|done|by rewrite Er|done]).
  - by injection Hs as <-.
  - injection Hs as <-. eapply open_moved; [exact Ek|reflexivity|done|by rewrite Er|done].
  - by injection Hs as <-.
  - injection Hs as <-. eapply open_moved; [exact Ek|reflexivity|done|by rewrite Er|done].
Qed.

Lemma hang_up_moves c s s' : srv_ok s -> hang_up c s = Some s' -> moves s (Hangs_up c) s'.
Proof.
  intros Hok. unfold hang_up. destruct (live s !! c) as [k|] eqn:Ek; [|done]. rsimpl. destruct (reader k) eqn:Er; try done.
  intros Hs. apply (moves_out s _ _ c); [done| |].
  - assert (Hmine : forall p, conns s !! p = Some c -> registered k = Some p).
    { intros p Hc. destruct (so_conns s Hok p c Hc) as (k2 & Hk2 & Hr & _). congruence. }
    intros p c'. destruct (registered k) as [peer|] eqn:Ep; [case_bool_decide as Hb|]; injection Hs as <-; cbn in *.
    + destruct (decide (p = peer)) as [->|Hne]; [rewrite lookup_delete_eq; split; [done|intros [? ?]; congruence]|].
      rewrite lookup_delete_ne by done. split; [|tauto]. intros Hc. split; [done|]. intros ->. specialize (Hmine p Hc). congruence.
    + split; [|tauto]. intros Hc. split; [done|]. intros ->. specialize (Hmine p Hc). congruence.
    + split; [|tauto]. intros Hc. split; [done|]. intros ->. specialize (Hmine p Hc). congruence.
  - assert (El : live s' = <[c := set_reader k Leaving]> (live s)).
    { destruct (registered k); [case_bool_decide|]; by injection Hs as <-. }
    intros c' p. unfold open_as. rewrite El. destruct (decide (c' = c)) as [->|Hne].
    + rewrite lookup_insert_eq. split; [intros (? & [= <-] & _ & ?); done|by intros [_ ?]].
    + rewrite lookup_insert_ne by done. tauto.
Qed.

Lemma happens_moves e s s' : srv_ok s -> happens e s = Some s' -> moves s e s'.
Proof.
  intros Hok. destruct e as [|c m|c|c|c|c sent|c sent|room out|]; cbn [happens]; intros He.
  - injection He as <-. apply moves_none; [done|done|]. intros c p. unfold open_as. cbn.
    destruct (decide (c = accepted s)) as [->|Hne]; [|by rewrite lookup_insert_ne].
    rewrite lookup_insert_eq. split; [intros (? & [= <-] & ? & _); done|]. intros (k & Hk & _).
    assert (accepted s < accepted s) by (apply (so_fresh s Hok); by exists k). lia.
  - unfold receive in He. destruct (live s !! c) as [k|] eqn:Ek; [|done]. revert He. rsimpl.
    destruct (reader k) eqn:Er; [|by destruct m..]. destruct m as [data|]; [|intros [= <-]; by apply moves_none].
    destruct (parse_frame data) as [inb|]; intros [= <-]; [|by apply moves_none].
    apply moves_none; [done|done|]. eapply open_moved; [exact Ek|reflexivity|done|by rewrite Er|done].
  - by apply handle_moves.
  - by apply hang_up_moves.
  - unfold leave in He. destruct (live s !! c) as [k|] eqn:Ek; [|done]. revert He. rsimpl.
    destruct (reader k) eqn:Er; try done. intros [= <-]. apply moves_none; [done|done|].
    intros c' p. unfold open_as. cbn. destruct (decide (c' = c)) as [->|Hne].
    + rewrite lookup_delete_eq, Ek. split; [by intros (? & ? & _)|]. intros (? & [= <-] & _ & ?). done.
    + by rewrite lookup_delete_ne.
  - apply write_queues in He. apply moves_none; [done|apply He|by apply open_queues].
  - apply write_left_queues in He. apply moves_none; [done|apply He|by apply open_queues].
  - injection He as <-. pose proof (dispatch_queues s room out) as Hq. apply moves_none; [done|apply Hq|by apply open_queues].
  - injection He as <-. pose proof (drain_queues s) as Hq. apply moves_none; [done|apply Hq|by apply open_queues].
Qed.

(** The known connection of a peer is the last one to have registered it, while that
    one is open. *)
Lemma known_exact K me es s p c :
  reaches K (WsServerTransport_bind me) es s ->
  conns s !! p = Some c <-> latest p (registrations es (WsServerTransport_bind me)) = Some c /\ open_as s c p.
Proof.
  set (s0 := WsServerTransport_bind me). intros Hr. assert (Hs0 : s0 = WsServerTransport_bind me) by done. clearbody s0.
  revert p c. induction Hr as [|es s1 e s2 Hr IH He HK]; intros p c.
  - subst s0. split; [done|]. intros [Hl _]. done.
  - assert (Hok : srv_ok s1) by (eapply reaches_ok; [exact Hr|]; subst s0; apply bind_ok).
    rewrite (registrations_snoc es e s0 s1 s2 (reaches_play _ _ _ _ Hr) He).
    destruct (happens_moves e s1 s2 Hok He) as [-> -> Ho|q c0 -> -> Ho Hn|c0 -> Hc Ho].
    + change (option_list None) with (@nil (PeerId * N)). by rewrite app_nil_r, IH, Ho.
    + change (option_list (Some (q, c0))) with [(q, c0)]. rewrite latest_snoc, Ho. destruct (decide (q = p)) as [->|Hne].
      * rewrite lookup_insert_eq. split; [intros [= <-]; split; [done|by right]|]. by intros [? _].
      * rewrite lookup_insert_ne by done. rewrite IH. naive_solver.
    + change (option_list None) with (@nil (PeerId * N)). rewrite app_nil_r, Hc, IH, Ho. tauto.
Qed.

(** ** Properties *)

(** A frame is read back as it was written, whatever follows it, and a WebSocket
    frame cut short anywhere is not taken for one.  An iroh stream of one frame
    enqueues the message under the authenticated peer, not under anything the frame
    says, and acks; a stream over the limit does neither. *)
Theorem frame_correct room from (m : SyncMessage) rest (n : nat) max (t : IrohTransport) :
  id_ok room -> id_ok from -> Wire.message_ok m ->
  parse_frame (encode_frame room from m ++ rest) = Some (mkInbound room from m)
  /\ ((n < length (encode_frame room from m))%nat -> parse_frame (take n (encode_frame room from m)) = None)
  /\ let frame := room ++ Wire.encode m in
     SyncHandler_accept max from frame t
       = (if max <? lenN frame then (add_peer t from, false)
          else (mkIroh (inbound_rx t ++ [mkInbound room from m]) ({[ from ]} ∪ peers t) (sent t), true)).
Proof.
  intros Hr Hf Hm. split_and!; [by apply parse_encoded|by apply parse_cut|]. cbv zeta. unfold SyncHandler_accept.
  destruct (max <? _); [done|]. destruct (split_at room (Wire.encode m) Hr) as [-> ->].
  replace (lenN _ <? 32) with false by (symmetry; apply N.ltb_ge; rewrite lenN_app, Hr; lia).
  destruct (Wire.message_exact m Hm) as [Hx _]. specialize (Hx []). rewrite app_nil_r in Hx. unfold Wire.decode. by rewrite Hx.
Qed.


(** C18: While every client stamps its frames with one id that no other open
    connection uses, clients_by_room is the number of open connections that have
    framed to the room, under every interleaving, with no entry for a room without. *)
Theorem presence_exact me es s room :
  reaches honest (WsServerTransport_bind me) es s ->
  clients_by_room s !! room = (if decide (clients_in s room = ∅) then None else Some (size (clients_in s room))).
Proof.
  intros [_ Hok]%honest_reaches. pose proof (present_size s room Hok) as Hn. unfold clients_by_room. rewrite lookup_fmap.
  destruct (present s !! room) as [ps|] eqn:Ep; cbn in *; unfold id in Hn.
  - pose proof (ho_filled s Hok room ps Ep) as Hne. rewrite decide_False; [by rewrite Hn|].
    intros He. rewrite He, map_size_empty in Hn. apply Hne, leibniz_equiv, size_empty_iff, Hn.
  - rewrite size_empty in Hn. by rewrite decide_True by (apply map_size_empty_inv; lia).
Qed.

Lemma play_with es s (Q : WsServerTransport -> bool) :
  match play es s with Some s' => Q s' | None => false end = true -> exists s', reaches any_event s es s' /\ Q s' = true.
Proof. intros HQ. destruct (play es s) as [s'|] eqn:Ep; [|done]. exists s'. split; [by apply play_reaches|done]. Qed.

Definition alice : PeerId := replicate 32 (Byte.x01).
Definition mallory : PeerId := replicate 32 (Byte.x02).
Definition lobby : RoomId := replicate 32 (Byte.x03).
Definition backroom : RoomId := replicate 32 (Byte.x04).
Definition hello : SyncMessage := Wire.Have alice 1.
(** The connection takes one frame through all its steps. *)
Definition frames_to (c : N) (room : RoomId) (from : PeerId) : list event :=
  Receives c (Binary (encode_frame room from hello)) :: replicate 4 (Handles c).
Definition reconnects : list event :=
  [Accepts] ++ frames_to 0 lobby alice ++ [Accepts] ++ frames_to 1 lobby alice ++ [Hangs_up 0; Leaves 0].
Definition two_ids : list event :=
  [Accepts] ++ frames_to 0 lobby alice ++ frames_to 0 backroom mallory ++ [Hangs_up 0; Leaves 0].

(** Without that the count is wrong both ways.  A client that reconnects before
    the server sees its old connection end is taken out of the room when it does: it
    is still registered, receives and has framed to the room, and is not counted.  A
    client that stamps a second id on a frame to another room stays counted there
    after no connection is left. *)
Theorem presence_lost me :
  (exists s, reaches any_event (WsServerTransport_bind me) reconnects s
     /\ conns s !! alice = Some 1 /\ size (clients_in s lobby) = 1%nat /\ clients_by_room s !! lobby = None)
  /\ (exists s, reaches any_event (WsServerTransport_bind me) two_ids s
     /\ live s = ∅ /\ conns s = ∅ /\ clients_by_room s !! backroom = Some 1%nat).
Proof.
  split.
  - destruct (play_with reconnects (WsServerTransport_bind me) (λ s, bool_decide (conns s !! alice = Some 1) && bool_decide (size (clients_in s lobby) = 1%nat)
      && bool_decide (clients_by_room s !! lobby = None))) as (s & Hs & HQ); [vm_compute; reflexivity|].
    exists s. apply andb_prop in HQ as [[H1 H2]%andb_prop H3]. split_and!; [done|by eapply bool_decide_eq_true_1..].
  - destruct (play_with two_ids (WsServerTransport_bind me) (λ s, bool_decide (map_to_list (live s) = []) && bool_decide (map_to_list (conns s) = [])
      && bool_decide (clients_by_room s !! backroom = Some 1%nat))) as (s & Hs & HQ); [vm_compute; reflexivity|].
    exists s. apply andb_prop in HQ as [[H1 H2]%andb_prop H3].
    split_and!; [done|by apply map_to_list_empty_iff, (bool_decide_eq_true_1 _ H1)|by apply map_to_list_empty_iff, (bool_decide_eq_true_1 _ H2)|by eapply bool_decide_eq_true_1].
Qed.
End Frames.
End TransportTheorems.
