(* ===== verification/NodeTheorems.v ===== *)
(** * [roomnet]: the loop of a node

    [run_server] of [src/crates/roomnet/src/native/mod.rs] over the list of what wakes
    it up: every wake-up before the first that ends the loop is served, each the way
    the driver and its rooms serve it. *)
From S2P Require Import Prelude Codec Flat Merkle MerkleSpec MerkleProofs MerkleFork Store Bitfield Identity.
From S2P Require Import Linearizer LinearizerDag LinearizerView LinearizerTheorems.
From S2P Require Import Hypercore HypercoreMeta HypercoreLog HypercoreOps HypercoreDurable HypercoreTheorems.
From S2P Require Import Replica ReplicaTheorems Wire Room RoomCore RoomDag RoomInv RoomView RoomOps RoomReplay.
From S2P Require Import RoomRecovery RoomMessages RoomLife RoomQueue RoomOpen Server Transports.
From S2P Require Import ServerTheorems.

Module NodeTheorems.
Import MerkleSpec HypercoreLog HypercoreDurable Room RoomInv RoomView RoomOps RoomReplay RoomLife RoomQueue RoomOpen.
Import Server Transports ServerTheorems.

Section Node.
Context `{HL : HasherLaws} `{EL : Ed25519Laws} {S E : Type} `{SL : Store.StoreLaws S E}
  {F OE : Type} `{!StoreFactory F S OE, !FactoryLaws F S OE E} {P State PE : Type} `{!Projection P State PE}
  `{PL : !ProjectionLaws P State PE} {Sink SE : Type} `{!ProjectionSink Sink State SE}.
Abbreviation Node := (Driver (S:=S) (F:=F) (P:=P) (T:=IrohTransport)).
Implicit Types (d : Node) (id : RoomId) (sink : Sink).

(** The stores of a room hold feeds, or opening them is refused. *)
Definition hostable (cfg : RoomConfig) (f : F) (p : P) : Prop :=
  (exists e, open (OE:=OE) (E:=E) cfg f p = Done (Err e))
  \/ exists disk ws Fok (L : feeds), opens f disk ws Fok /\ on_disk (E:=E) (Room.identity cfg) disk ws L /\ feeds_small L.
Definition hosted d id (cfg : RoomConfig) : Prop :=
  rooms (server d) !! id = None -> hostable cfg (new_store (server d) id) (initial_projection (server d) id).

(** What the loop can take. *)
Definition serves (w : wakeup) d : Prop :=
  match w with
  | Got (Some (Host id)) => hosted d id (RoomConfig_original (mint_identity (server d)) (server_indexers (server d)))
  | Got (Some (JoinRemote id _)) =>
      hosted d id (RoomConfig_replicated (mint_identity (server d)) (server_indexers (server d)) (replica_stale_after (server d)))
  | Got (Some (Append id op)) => forall r, rooms (server d) !! id = Some r -> takes (E:=E) (OE:=OE) r (Local_append op)
  | Elapsed => tickable (E:=E) (OE:=OE) d
  | Got (Some Shutdown) | Got None => True
  end.
Fixpoint fed (ws : list wakeup) d sink : Prop :=
  match ws with
  | [] => True
  | w :: ws' => serves w d /\ forall d' sink', turn (E:=E) (OE:=OE) w d sink = Done (Some (d', sink')) -> fed ws' d' sink'
  end.

(** Well-formed rooms, and of the old ones each is there and has only grown. *)
Definition held d d' : Prop :=
  rooms_ok d' /\ forall id r, rooms (server d) !! id = Some r -> exists r', rooms (server d') !! id = Some r' /\ later r r'.

Lemma held_trans d1 d2 d3 : held d1 d2 -> held d2 d3 -> held d1 d3.
Proof.
  intros [_ H12] [Hok H23]. split; [done|]. intros id r Hr. destruct (H12 id r Hr) as (r2 & Hr2 & Hl2).
  destruct (H23 id r2 Hr2) as (r3 & Hr3 & Hl3). exists r3. split; [done|by etrans].
Qed.
Lemma held_refl d : rooms_ok d -> held d d.
Proof. intros Hd. split; [done|]. intros id r Hr. by exists r. Qed.
Lemma played_held d d' : rooms_ok d -> played d d' -> held d d'.
Proof.
  intros Hd Hp. split; [by eapply played_ok|]. intros id r Hr. destruct Hp as [Hp _ _]. specialize (Hp id). rewrite Hr in Hp.
  inversion Hp as [? r' [Hl _] E1|]. by exists r'.
Qed.

(** ** What a wake-up does *)

(** The room's adverts go out. *)
Definition announced d id : Node := set_transport d (advertise d (transport d) id).

(** A room is opened unless it is held, and announced when it is there. *)
Definition housed d id (cfg : RoomConfig) : Node :=
  match rooms (server d) !! id with
  | Some _ => announced d id
  | None =>
      match open (OE:=OE) (E:=E) cfg (new_store (server d) id) (initial_projection (server d) id) with
      | Done (Ok r) => announced (set_server d (set_rooms (server d) (<[id := r]> (rooms (server d))))) id
      | _ => d
      end
  end.

(** What the sink is to be given: for every mutation its version with the finalized
    state its room shows by now. *)
Definition writes d (out : list (RoomId * list Finalized)) : list (N * State) :=
  out ≫= λ e, match rooms (server d) !! e.1 with
              | Some r => (λ f, (fin_version f, snapshot (finalized_proj r))) <$> e.2
              | None => []
              end.
Definition written sink (l : list (N * State)) : Sink := foldl (λ s w, (sink_write s w.1 w.2).1) sink l.

Inductive turned : wakeup -> Node * Sink -> Node * Sink -> Prop :=
| turned_host id d sink :
    turned (Got (Some (Host id))) (d, sink)
      (housed d id (RoomConfig_original (mint_identity (server d)) (server_indexers (server d))), sink)
| turned_join id who d sink :
    turned (Got (Some (JoinRemote id who))) (d, sink)
      (housed (set_transport d (add_peer (transport d) who)) id
         (RoomConfig_replicated (mint_identity (server d)) (server_indexers (server d)) (replica_stale_after (server d))), sink)
| turned_append id op d sink :
    turned (Got (Some (Append id op))) (d, sink) (exchanged d id (local_append (E:=E) (OE:=OE) op), sink)
| turned_tick d d' told sink :
    ticked (E:=E) (OE:=OE) d d' told ->
    turned Elapsed (d, sink) (d', written sink (writes d' (answers told (room_ids d)))).

(** Every wake-up is served, one after the other. *)
Inductive turns : list wakeup -> Node * Sink -> Node * Sink -> Prop :=
| turns_nil x : turns [] x x
| turns_cons w ws x y z : turned w x y -> turns ws y z -> turns (w :: ws) x z.

(** A command's result is dropped. *)
Lemma ignored (m : act Node (Error E OE) unit) d d' res : m d = Done (d', res) -> ignore m d = Done d'.
Proof. intros Hm. unfold ignore. by rewrite Hm. Qed.

Lemma announced_held d id : rooms_ok d -> held d (announced d id).
Proof. intros Hd. split; [exact Hd|]. intros id' r Hr. by exists r. Qed.

Lemma ensure_housed d id cfg :
  Store.StoreTotal S E -> rooms_ok d -> hosted d id (cfg (server d)) ->
  ignore (_ ← on_server (ensure (OE:=OE) (E:=E) id cfg); Driver_announce id) d = Done (housed d id (cfg (server d)))
  /\ held d (housed d id (cfg (server d))).
Proof.
  intros Ht Hd Hh. unfold ignore, mbind, act_bind, on_server, ensure, housed.
  destruct (rooms (server d) !! id) as [r|] eqn:Er.
  { cbn. rewrite announce_done. rsimpl. replace (set_server d (server d)) with d by (by destruct d). split; [done|by apply announced_held]. }
  specialize (Hh Er). assert (Ho : exists res, open (OE:=OE) (E:=E) (cfg (server d)) (new_store (server d) id) (initial_projection (server d) id) = Done res
    /\ match res with Ok r => exists L, room_ok L r | Err _ => True end).
  { destruct Hh as [[e Ee]|(disk & ws & Fok & L & Hop & Hdisk & Hsm)]; [by exists (Err e)|].
    destruct (open_room_spec (cfg (server d)) _ (initial_projection (server d) id) disk ws Fok L Hop Hdisk Hsm)
      as [Hf|[(_ & r & Eo & Ho)|(_ & ce & Eo)]]; [exfalso; exact (total_never_fails Ht Hf)| |by eexists].
    exists (Ok r). split; [exact Eo|]. exists L. apply (op_ok _ _ _ _ Ho). }
  destruct Ho as ([r|e] & -> & Hr); rsimpl; cbn.
  - rewrite announce_done. rsimpl. split; [done|]. split.
    + intros id' r' Hr'. cbn in Hr'. apply lookup_insert_Some in Hr' as [[_ <-]|[_ Hr']]; [exact Hr|by eapply Hd].
    + intros id' r' Hr'. exists r'. cbn. rewrite lookup_insert_ne by congruence. by split.
  - replace (set_server d (server d)) with d by (by destruct d). split; [done|by apply held_refl].
Qed.

Lemma append_exchanged d id op :
  rooms_ok d -> (forall r, rooms (server d) !! id = Some r -> takes (E:=E) (OE:=OE) r (Local_append op)) ->
  ignore (Driver_append (E:=E) (OE:=OE) id op) d = Done (exchanged d id (local_append (E:=E) (OE:=OE) op))
  /\ held d (exchanged d id (local_append (E:=E) (OE:=OE) op)).
Proof.
  intros Hd Ht. destruct (room_call d id (local_append op) (Local_append op) (λ _, eq_refl) (queues_append op) Hd Ht) as [_ Hp].
  split; [|by apply played_held].
  pose proof (room_goes d id (local_append op) (Local_append op) (λ _, eq_refl) (queues_append op) Hd Ht) as Hg.
  unfold ignore, Driver_append, mbind, act_bind, on_room, exchanged. destruct (rooms (server d) !! id) as [r|] eqn:Er; [|done].
  destruct Hg as (r' & [outs|e] & -> & _); rsimpl; cbn [tries]; [|done]. by rewrite dispatch_handed.
Qed.

(** The writes of the loop, in one list. *)
Lemma sink_all d out sink : foldl (sink_room (Sink:=Sink) d) sink out = written sink (writes d out).
Proof.
  revert sink. induction out as [|[id q] out IH]; intros sink; [done|]. cbn [foldl]. rewrite IH. unfold writes.
  rewrite bind_cons. unfold written at 2. rewrite foldl_app. f_equal. unfold sink_room. cbn [fst snd].
  destruct (rooms (server d) !! id) as [r|].
  - clear. revert sink. induction q as [|f q IH]; intros sink; [done|]. cbn. apply IH.
  - clear. revert sink. induction q as [|f q IH]; intros sink; [done|]. cbn. apply IH.
Qed.

Lemma tick_turned d sink :
  rooms_ok d -> tickable (E:=E) (OE:=OE) d ->
  exists y, turn (E:=E) (OE:=OE) Elapsed d sink = Done (Some y) /\ turned Elapsed (d, sink) y /\ held d y.1.
Proof.
  intros Hd Ht. destruct (tick_goes (E:=E) (OE:=OE) d Hd Ht) as (d' & told & Et & Htk).
  cbn [turn]. rewrite Et. rsimpl. eexists. rewrite sink_all. split; [done|]. split; [by constructor|]. split; [apply Htk|].
  intros id r Hr. destruct (tk_told _ _ _ Htk id r Hr) as (r' & new & Hr' & Hl & _). by exists r'.
Qed.

Definition ends_loop (w : wakeup) : bool := match w with Got (Some Shutdown) | Got None => true | _ => false end.

Lemma turn_served w d sink :
  Store.StoreTotal S E -> rooms_ok d -> serves w d ->
  if ends_loop w then turn (E:=E) (OE:=OE) w d sink = Done None
  else exists y, turn (E:=E) (OE:=OE) w d sink = Done (Some y) /\ turned w (d, sink) y /\ held d y.1.
Proof.
  intros Ht Hd Hs. destruct w as [[[id|id who|id op|]|]|]; cbn [serves ends_loop] in *; [..|done|done|by apply tick_turned].
  - destruct (ensure_housed d id (λ s, RoomConfig_original (mint_identity s) (server_indexers s)) Ht Hd Hs) as [Ed Hh].
    eexists. split; [|split; [apply turned_host|exact Hh]]. cbn [turn]. unfold Driver_host, host. by rewrite Ed.
  - set (d1 := set_transport d (add_peer (transport d) who)).
    destruct (ensure_housed d1 id (λ s, RoomConfig_replicated (mint_identity s) (server_indexers s) (replica_stale_after s)) Ht Hd Hs) as [Ed Hh].
    eexists. split; [|split; [apply turned_join|exact Hh]]. cbn [turn]. fold d1.
    change (ignore (Driver_join_remote id) d1) with (ignore (_ ← on_server (ensure (OE:=OE) (E:=E) id
      (λ s, RoomConfig_replicated (mint_identity s) (server_indexers s) (replica_stale_after s))); Driver_announce id) d1).
    by rewrite Ed.
  - destruct (append_exchanged d id op Hd Hs) as [Ed Hh].
    eexists. split; [|split; [apply turned_append|exact Hh]]. cbn [turn]. by rewrite Ed.
Qed.

(** C16: The loop of a node goes on.  Over stores that do not fail, every wake-up that
    is not a shutdown or the end of the commands is served, whatever the ones before
    it were refused for: a room is opened unless it is held or cannot be, an operation
    is appended to its room, a tick is a tick of the driver and its mutations are
    written to the sink, and a refusal stops nothing.  The rooms stay well formed, none
    is lost and none forgets anything.  The first shutdown, or the end of the commands,
    ends the loop there, and nothing after it is looked at. *)
Theorem node_serves (ws : list wakeup) d sink :
  Store.StoreTotal S E -> rooms_ok d -> fed ws d sink -> Forall (λ w, ends_loop w = false) ws ->
  exists d' sink', run_server (E:=E) (OE:=OE) ws d sink = Done (d', sink')
    /\ turns ws (d, sink) (d', sink')
    /\ rooms_ok d'
    /\ (forall id r, rooms (server d) !! id = Some r -> exists r', rooms (server d') !! id = Some r' /\ later r r')
    /\ forall w ws', ends_loop w = true -> run_server (E:=E) (OE:=OE) (ws ++ w :: ws') d sink = Done (d', sink').
Proof.
  intros Ht. revert d sink. induction ws as [|w ws IH]; intros d sink Hd Hf Hgo.
  - exists d, sink. split_and!; [done|constructor|done|intros id r Hr; by exists r|]. intros w ws' Hw. cbn [app run_server].
    by destruct w as [[[]|]|].
  - destruct Hf as [Hs Hf]. apply Forall_cons in Hgo as [Ew Hgo]. pose proof (turn_served w d sink Ht Hd Hs) as Hw. rewrite Ew in Hw.
    destruct Hw as ([d1 sink1] & E1 & Hturn & Hh). destruct (IH d1 sink1) as (d' & sink' & E2 & Hts & Hd' & Hkeep & Hend); [apply Hh|by apply Hf|done|].
    exists d', sink'. cbn [app run_server]. rewrite E1. rsimpl. split_and!; [done|by econstructor|done| |done].
    intros id r Hr. destruct Hh as [_ Hh]. destruct (Hh id r Hr) as (r1 & Hr1 & Hl1).
    destruct (Hkeep id r1 Hr1) as (r2 & Hr2 & Hl2). exists r2. split; [done|by etrans].
Qed.
End Node.
End NodeTheorems.
