(* ===== verification/TransportWitnesses.v ===== *)
(** * [roomnet]: the transports' theorems at concrete runs

    Two clients in one room of a WebSocket server, and the loop of a node over one of
    the rooms of RoomWitnesses. *)
From S2P Require Import Prelude Codec Flat Merkle MerkleSpec MerkleProofs MerkleHistory Store LogStore StoreTheorems Bitfield.
From S2P Require Import Identity IdentityTheorems.
From S2P Require Import Linearizer LinearizerDag LinearizerView LinearizerTheorems.
From S2P Require Import Hypercore HypercoreMeta HypercoreLog HypercoreOps HypercoreDurable HypercoreTheorems.
From S2P Require Import Replica ReplicaTheorems Wire Room RoomCore RoomDag RoomInv RoomView RoomOps RoomReplay.
From S2P Require Import RoomRecovery RoomMessages RoomLife Server Transports.
From S2P Require Import RoomWitnesses.
From S2P Require Import ServerTheorems ServerWitnesses TransportTheorems NodeTheorems.
From Stdlib Require Import Strings.Byte.

Module TransportWitnesses.
Import Linearizer (WriterKey).
Import Room RoomInv RoomLife Server RoomWitnesses ServerTheorems ServerWitnesses Transports TransportTheorems NodeTheorems.

#[local] Existing Instance MerkleHistory.toy_hash.
#[local] Existing Instance MerkleHistory.toy_laws.
#[local] Existing Instance IdentityTheorems.toy_ed.
#[local] Existing Instance IdentityTheorems.toy_ed_laws.
#[local] Existing Instance disks_factory.
#[local] Existing Instance disks_laws.
#[local] Existing Instance collect.
#[local] Existing Instance collect_laws.

(** ** Frames and servers *)

Lemma hello_ok : Wire.message_ok hello.
Proof. by split; [|apply N.ltb_lt]. Qed.

Lemma frame_correct_witness :
  parse_frame (encode_frame lobby alice hello ++ [x00]) = Some (mkInbound lobby alice hello)
  /\ parse_frame (take 97 (encode_frame lobby alice hello)) = None
  /\ inbound_rx (SyncHandler_accept 100 alice (lobby ++ Wire.encode hello) (IrohTransport_attach [])).1 = [mkInbound lobby alice hello].
Proof.
  destruct (frame_correct lobby alice hello [x00] 97 100 (IrohTransport_attach [])) as (H1 & H2 & H3); [done|done|exact hello_ok|].
  split; [exact H1|]. split; [apply H2; apply Nat.ltb_lt; runs_ok|]. cbv zeta in H3. rewrite H3. runs_ok.
Defined.

Definition me : PeerId := replicate 32 x09.
Definition two_clients : list event :=
  [Accepts] ++ frames_to 0 lobby alice ++ [Accepts] ++ frames_to 1 lobby mallory.


(** What [honest] asks of a step, to evaluate. *)
Definition honestb (s : WsServerTransport) (e : event) : bool :=
  match e with
  | Receives c (Binary data) =>
      match live s !! c, parse_frame data with
      | Some k, Some inb =>
          match registered k with
          | Some p => bool_decide (in_from inb = p)
          | None => forallb (λ ck : N * Conn, negb (bool_decide (claim ck.2 = Some (in_from inb)))) (map_to_list (live s))
          end
      | _, _ => true
      end
  | _ => true
  end.
Lemma honestb_spec s e : honestb s e = true -> honest s e.
Proof.
  destruct e as [|c [data|]| | | | | | |]; try done. cbn. intros Hb k inb Hk Hp. rewrite Hk, Hp in Hb.
  destruct (registered k) as [p|]; [split; [intros ? [= <-]; by apply bool_decide_eq_true_1 in Hb|done]|]. split; [done|].
  intros _ c' k' Hk' Hc. rewrite forallb_forall in Hb. specialize (Hb (c', k')). cbn in Hb.
  rewrite bool_decide_true in Hb by done. assert (false = true); [|done]. apply Hb, list_elem_of_In, elem_of_map_to_list, Hk'.
Qed.
Definition plays (es : list event) (s : WsServerTransport) : option WsServerTransport :=
  foldl (λ o e, s ← o; if honestb s e then happens e s else None) (Some s) es.
Lemma plays_reaches es s s' : plays es s = Some s' -> reaches honest s es s'.
Proof.
  revert s'. induction es as [|e es IH] using rev_ind; intros s'; unfold plays; [intros [= <-]; constructor|].
  rewrite foldl_app. cbn [foldl]. intros (s1 & He & Hs)%bind_Some. destruct (honestb s1 e) eqn:Eh; [|done].
  by eapply reaches_snoc; [apply IH| |apply honestb_spec].
Qed.

Lemma presence_exact_witness : exists s,
  reaches honest (WsServerTransport_bind me) two_clients s /\ clients_by_room s !! lobby = Some 2%nat.
Proof.
  assert (Hp : match plays two_clients (WsServerTransport_bind me) with Some s => bool_decide (size (clients_in s lobby) = 2%nat) | None => false end = true)
    by runs_ok.
  destruct (plays two_clients (WsServerTransport_bind me)) as [s|] eqn:Es; [|discriminate Hp].
  apply bool_decide_eq_true_1 in Hp. exists s. assert (Hr := plays_reaches _ _ _ Es). split; [exact Hr|].
  rewrite (presence_exact me two_clients s lobby Hr). destruct (decide _) as [He|]; [rewrite He in Hp; discriminate Hp|by rewrite Hp].
Defined.

(** ** A node *)

#[local] Instance null_sink : ProjectionSink unit (list bytes) Empty_set := {| sink_write s _ _ := (s, Ok tt) |}.

Definition node0 : Driver (S:=Store.MemoryStore) (F:=gmap WriterKey Store.MemoryStore) (P:=list bytes) (T:=IrohTransport) :=
  mkDriver (set_rooms (Server_open (mkServerConfig [] [] None) [] (λ _, ∅)) {[ id1 := a0 ]}) (IrohTransport_attach []) 1 0.

#[local] Opaque a0.

Lemma node_serves_witness :
  exists d' r', run_server (E:=E0) (OE:=OE0) [Got (Some (Append id1 [x05])); Got None] node0 () = Done (d', ())
    /\ turns (E:=E0) (OE:=OE0) [Got (Some (Append id1 [x05]))] (node0, ()) (d', ())
    /\ rooms (server d') !! id1 = Some r' /\ later a0 r'.
Proof.
  destruct (node_serves (E:=E0) (OE:=OE0) [Got (Some (Append id1 [x05]))] node0 () Store.Memory_total)
    as (d' & [] & _ & Hts & _ & Hkeep & Hend).
  - intros id r [_ <-]%(lookup_singleton_Some id1 id a0 r). exists LA0. exact ok_a0.
  - split; [|intros d' sink' _; exact I].
    intros r [_ <-]%(lookup_singleton_Some id1 id1 a0 r). apply took; [|runs_ok].
    split; [apply N.ltb_lt; runs_ok|apply append_okb_spec; runs_ok].
  - constructor; [reflexivity|constructor].
  - destruct (Hkeep id1 a0) as (r' & Hr' & Hl); [apply lookup_singleton_eq|]. exists d', r'.
    exact (conj (Hend (Got None) [] eq_refl) (conj Hts (conj Hr' Hl))).
Defined.
End TransportWitnesses.
